(* ===== verification/_CoqProject ===== *)
-Q . S2P
Prelude.v
Sha256.v
Types.v
SetIds.v
HtlcSets.v
StatelessData.v
Persistence.v
PersistenceFacts.v
Transactions.v
Migrations.v
Registry.v
RegistryFacts.v
RegistryExample.v
RegistrySafety.v
RegistryLiveness.v
RegistryTyping.v
RegistryAnnounce.v
RegistryResolvers.v
Interceptor.v
InvoiceCreator.v
Mux.v
SettledHandler.v
System.v
Server.v
ServerFacts.v
Subscriptions.v
Payments.v
Lnd.v
LndConnection.v
Lock.v
Daemon.v
CommandLine.v
Process.v
Pipeline.v
PipelineAnswers.v
Wire.v
Delivery.v
Recovery.v
