(* ===== verification/Prelude.v ===== *)
(** * lnmux: a verification development

    lnmux is a lightning multiplexer: several lnd nodes forward the htlcs of a
    virtual channel to one daemon, which accepts, holds and settles payments for
    invoices that are not stored anywhere before they are paid. This library is
    a shallow embedding of its Go code, with the theorems that make it correct.

    ** The program

    - The _invoice creator_ ([invoice_creator.go], [keyring.go]) makes payment
      requests. The payment address encodes amount and expiry, the preimage is an
      HMAC of the address ([stateless_data.go]).
    - An _interceptor_ per lnd node ([interceptor.go]) receives htlcs and block
      heights and sends the answers back; the _mux_ of the node ([mux.go]) checks
      the routing policy, unpacks the onion and hands htlcs to the registry.
    - The _invoice registry_ ([invoiceregistry.go], [htlc_set.go], [htlc_sets.go],
      [set_id.go], [subscription_manager.go], [release_event.go]) is one event
      loop: it collects the htlcs of a payment in a set, announces complete sets,
      settles or cancels them on request or by itself, and fails htlcs whose hold
      time or accept time is over.
    - The _persister_ ([persistence/pg.go]) stores settled invoices and their
      htlcs in transactions; the _settled handlers_ ([node_settled_handler.go],
      [settled_handler.go]) record what lnd reports as the final outcome and wake
      the callers that wait for it.
    - The _server_ ([cmd/lnmuxd/server.go]) exposes all this over grpc; the _lnd
      client_ ([lnd/client.go], [lnd/connection.go]) connects to, checks and uses
      a node; [cmd/lnmuxd/run.go], [cmd/lnmuxd/config.go], [cmd/lnmuxd/log.go] and
      [dlock/dlock.go] configure, connect and start the parts, under a
      distributed lock. [persistence/migrations] creates the tables.

    ** The files

    - [Prelude]: machine integers ([u64], [i64], ...: every conversion and every
      operation that can wrap), bytes, the monads [outcome] (a Go function that
      may panic) and [result] (a value or an error), lists and maps.
    - [Sha256]: SHA-256 and HMAC, executable, so that witnesses can be evaluated.
    - [Types]: [types/types.go], [common/pubkey.go], resolutions, release events,
      the named errors; the interfaces [Lntypes] (lnd's hash type) and
      [PriorityQueue] (lnd's queue), each with an implementation.
    - [SetIds] (module [SetID]): [newSetID]. [HtlcSets] (module [Sets]):
      [htlcSetImpl] and [htlcSets]. [StatelessData] (modules [Time], [Stateless]).
    - [Persistence] (module [Pg]): the two tables with their constraints and the
      transactions on them, including failing ones; [PersistenceFacts] (module
      [PgFacts]): their invariant and properties. [Transactions] (module [Tx]):
      the same transactions statement by statement, concurrent, under row locks.
      [Migrations] (modules [Sql], [Migrations]): the SQL files as statements on
      tables with constraints, and the command that runs them.
    - [Registry] (modules [Subs], [Registry]): state, handlers and event loop of
      the registry, [iteration] being one turn of the loop; [sys_step] adds
      restarts and processes killed between the database write and the answers.
      The clock readings and database faults of a turn are the argument [Env].
      [RegistryFacts] proves the invariant of the loop, [RegistryExample] is a
      concrete deployment, [RegistrySafety] and [RegistryLiveness]
      hold the theorems; [RegistryTyping] (values stay within their Go types and
      resolvers with their htlcs), [RegistryAnnounce] (what subscribers
      are told of complete sets) and [RegistryResolvers] (where the resolvers of
      htlcs go) are laws of every operation that the joint models build on.
    - [Interceptor] (modules [Interceptor], [Race], [Shutdown]): the connection as
      a state machine over the events of its two goroutines, the reply callback
      at the granularity of single reads and writes, and the shutdown.
    - [InvoiceCreator] (modules [KeyRing], [Creator]); [Mux] (module [Mux]):
      [ProcessHtlc] and the loop of [Run]; [SettledHandler] (modules [NodeSettled],
      [Settled]): the node handler and the interleavings of waiting callers;
      [System] (module [Settlement]): a settlement from the reports of the nodes
      to the waiting callers.
    - [Server] (modules [Calls], [Server]): the channel protocol between callers
      and the event loop, and the rpc methods; [ServerFacts] (modules [Listing],
      [Service]): the service over whole executions; [Subscriptions]: the streams
      of [SubscribeInvoiceAccepted] and the event loop, interleaved call by call;
      [Payments]: a created invoice and the htlcs that pay it.
    - [Lnd] (module [Lnd]): the validation of a node and the htlc stream;
      [LndConnection] (modules [Conn], [Epochs]): the connection, and the
      goroutine behind the block stream. [Lock] (module [DLock]): leader election
      between processes, with the clock and the identities. [Daemon] (modules [Config], [Log], [Daemon]):
      configuration, logger, and the wiring done by [run]. [Process] (modules
      [Process], [Service]): every goroutine of the process by where it blocks,
      from the interceptors of the nodes to [initServiceWithLock].
    - [Pipeline] (module [Pipeline]): the muxes of all nodes with the registry they
      share, from intercepted htlcs to the answers of the muxes; [PipelineAnswers]
      (module [PipeAnswers]): which answers there are and which there must be.
      [Wire] (module [Wire]): the same with the connections of the interceptors in
      between, from the requests lnd sends to the responses it receives;
      [Delivery]: what is under way is not lost, and in executions without
      crashes and database errors no htlc is; [Recovery]: what is under way can be
      sent, and what was stored is sent after a crash.
    - [CommandLine]: [main.go] and the commands, with the flags they read.

    ** What is proved

    - _Money._ A preimage is only released for an htlc whose invoice is
      completely paid and whose settle request is stored, up to the responses on
      the connections to lnd ([settle_responses_are_paid]); no htlc gets more
      responses than lnd asked for ([responses_match_requests]); once stored,
      the request is final across crashes ([settle_request_is_final],
      [settle_rpc_is_durable]) and lnd gets its answer when it offers the htlc
      again ([settled_htlc_is_settled_again]); without auto-settle nothing is
      stored unless the application asked for exactly that set
      ([settle_needs_request]). An htlc reaches the registry only if the
      incoming channel carries what it claims and the fee, as long as their sum
      does not wrap ([registry_htlc_paid_for]).
    - _Refinement._ Every step of the registry, killed processes included, is a
      transition of a life cycle specification of invoices
      ([registry_refines_lifecycle]); the reply callback refines its atomic form
      ([call_refines_reply]).
    - _Progress._ No htlc is lost while the process and the database work
      ([no_htlc_is_lost]); what is held is failed with lnd once its time has
      come ([releases_are_delivered]); settling a complete set makes lnd settle
      every part of it ([settle_is_delivered]); invoices made by the creator can
      be paid, in any number of parts in any order ([added_invoice_is_payable]);
      once lnd has reported the htlcs of an invoice, the invoice is final and
      its waiting callers are answered ([settlement_completes],
      [no_lost_wakeup]).
    - _Subscribers._ Every complete set reaches every open stream, also one that
      was opened later ([open_stream_is_informed]), and no client can block the
      event loop ([streams_do_not_block]).
    - _Requests._ A request to cancel fails exactly the htlcs of the set it names,
      or changes nothing ([cancel_request_outcomes]).
    - _Termination._ After a signal or a failure the process takes a bounded number
      of steps and can go on by itself, whatever lnd, the database and the clients
      do, until it has ended, unless a mux is hung at one of two places
      ([shutdown_terminates], [service_terminates]). The bounds are 18 steps per
      node and a constant, plus what the messages that have arrived can cause.
    - _Storage._ Invoice statuses agree with their htlcs, finality is reported
      once, errors leave the tables alone, listings are complete. Concurrent
      transactions are serializable and never deadlock
      ([transactions_serializable], [transactions_terminate]), which is why the
      other files may run them one at a time; the migrated schema accepts exactly
      the rows that the model accepts ([schema_enforces_rows]). What lnd reports
      as final is what is stored ([final_resolutions_recorded]).
    - _Encodings._ Set ids, payment addresses, virtual channels, keys.
    - _Composition._ The parts that [run] wires together agree on keys, channels
      and, within the widths of a hop hint, policies ([deployment_coherent]); a
      node is used only after validation ([validation_sound_and_once]); one process
      serves at a time, if the identities of the processes are distinct and a
      leader that loses the lease notices it soon enough ([at_most_one_serving]).
    - _Limits._ Where the code panics, blocks or wraps is stated exactly:
      [panic_iff_stale_release], [shutdown_deadlock_iff], [concurrent_replies_panic],
      [loop_error_blocks_clients], [lease_released_before_run_returns],
      [shared_identity_not_excluded], [stalled_leader_not_excluded],
      [wide_cltv_delta_fails], [lost_commit_fails_stored_htlcs],
      [fee_check_wraps], [expiry_duration_bounds], [migrations_that_fail],
      [block_goroutine_leaks] and the traces at the end of [RegistryLiveness].

    ** Assumptions and bounds

    Code outside the repository is a class, with laws that state documented
    behaviour and an instance that satisfies them: [Lntypes], [PriorityQueue],
    [Btcec], [Zpay32], [Onion], [Semver], [Chaincfg], [GrpcStatus], [Grpc]. The
    statements of PostgreSQL are modelled where the code depends on them: row
    locks and READ COMMITTED in [Transactions], data definition in [Migrations],
    the microseconds of its timestamps in [Persistence]. A transaction that is
    reported as failed is taken to be rolled back; a lost acknowledgement of a
    commit is not modelled ([lost_commit_fails_stored_htlcs] shows what it can do).
    Running out of 32-bit sequence numbers is one of the faults that a call may
    have, so that theorems about calls without a fault assume there is one left.
    The election of a leader is that of client-go, which has no fencing. The registry
    theorems assume of incoming htlcs ([wf_htlc]) that amounts fit in an int64,
    that a circuit key stands for one payment hash, and that a payment hash
    stands for one invoice amount, that is, that the sender cannot find another
    address whose HMAC hashes to the same payment hash. No definition uses fuel:
    loops are structural over the list of events they process, and
    [releases_are_delivered] bounds the number of release ticks by the length of the
    queue. Go maps are iterated in one order; [cancel_request_outcomes] states the
    calls of such a loop for each key separately, and [final_resolutions_recorded]
    quantifies over the order.

    ** Not modelled

    Metrics (the disconnected gauge excepted) and the text of log messages,
    generated code (grpc stubs, validators without rules, mocks), the Kubernetes
    client, the handlers of the instrumentation server, and the
    interface [Payload], whose only method reads a field. In [Wire] a call of the
    reply callback is one step; the races between such calls are the subject of
    module [Race] of [Interceptor]. *)

From stdpp Require Import numbers strings sorting relations base fin_maps gmap list.
From stdpp Require Import options.

Declare Scope lnmux_scope.
Delimit Scope lnmux_scope with lnmux.
#[global] Open Scope Z_scope.

(** ** Machine integers

    Go integers are [Z] values; every conversion and every arithmetic
    operation of the source that can wrap is written with one of these. *)

Definition u8 (z : Z) : Z := z `mod` 2 ^ 8.
Definition u16 (z : Z) : Z := z `mod` 2 ^ 16.
Definition u32 (z : Z) : Z := z `mod` 2 ^ 32.
Definition u64 (z : Z) : Z := z `mod` 2 ^ 64.

(** Two's complement reading of the low bits. *)
Definition i32 (z : Z) : Z := (z + 2 ^ 31) `mod` 2 ^ 32 - 2 ^ 31.
Definition i64 (z : Z) : Z := (z + 2 ^ 63) `mod` 2 ^ 64 - 2 ^ 63.

Definition is_u32 (z : Z) : Prop := 0 ≤ z < 2 ^ 32.
Definition is_u64 (z : Z) : Prop := 0 ≤ z < 2 ^ 64.
Definition is_i64 (z : Z) : Prop := - 2 ^ 63 ≤ z < 2 ^ 63.

Create HintDb lnmux.
Create Rewrite HintDb lnmux_len.

Ltac unfold_ints :=
  unfold u8, u16, u32, u64, i32, i64, is_u32, is_u64, is_i64 in *.

Lemma u64_small z : 0 ≤ z < 2 ^ 64 → u64 z = z.
Proof. apply Z.mod_small. Qed.

Lemma u32_small z : 0 ≤ z < 2 ^ 32 → u32 z = z.
Proof. apply Z.mod_small. Qed.

Lemma u16_small z : 0 ≤ z < 2 ^ 16 → u16 z = z.
Proof. apply Z.mod_small. Qed.

Lemma i64_small z : - 2 ^ 63 ≤ z < 2 ^ 63 → i64 z = z.
Proof. intros ?. unfold i64. rewrite Z.mod_small; lia. Qed.

Lemma i32_small z : - 2 ^ 31 ≤ z < 2 ^ 31 → i32 z = z.
Proof. intros ?. unfold i32. rewrite Z.mod_small; lia. Qed.

Lemma u64_range z : 0 ≤ u64 z < 2 ^ 64.
Proof. apply Z.mod_pos_bound. lia. Qed.

Lemma i64_range z : - 2 ^ 63 ≤ i64 z < 2 ^ 63.
Proof.
  unfold i64. pose proof (Z.mod_pos_bound (z + 2 ^ 63) (2 ^ 64)). lia.
Qed.

(** [int64(uint64(z)) = z]: the two conversions used to store signed values in
    unsigned slots are mutually inverse. *)
Lemma i64_u64 z : is_i64 z → i64 (u64 z) = z.
Proof.
  intros ?. unfold_ints. rewrite Zplus_mod_idemp_l. rewrite Z.mod_small; lia.
Qed.

Lemma u64_i64 z : is_u64 z → u64 (i64 z) = z.
Proof.
  intros ?. unfold_ints. rewrite Zminus_mod_idemp_l.
  rewrite Z.mod_small; lia.
Qed.

(** [int64] addition does not depend on where the wrap happens. *)
Lemma i64_add_l a b : i64 (i64 a + b) = i64 (a + b).
Proof.
  unfold i64.
  replace ((a + 2 ^ 63) `mod` 2 ^ 64 - 2 ^ 63 + b + 2 ^ 63)
    with ((a + 2 ^ 63) `mod` 2 ^ 64 + b) by lia.
  rewrite Zplus_mod_idemp_l. do 2 f_equal. lia.
Qed.

(** ** Bytes

    A byte is a [Z] in [0, 256); [ [n]byte ] arrays are lists. *)

Abbreviation byte := Z (only parsing).
Abbreviation bytes := (list Z) (only parsing).

Definition is_byte (b : Z) : Prop := 0 ≤ b < 256.

#[global] Instance is_byte_dec b : Decision (is_byte b).
Proof. unfold is_byte. apply _. Defined.

(** [copy(dst[:], src)] into a zeroed array of [n] bytes. *)
Definition copy_array (n : nat) (src : bytes) : bytes :=
  take n (src ++ replicate n 0).

(** The slice expression [b[lo:hi]]. *)
Definition slice (lo hi : nat) (b : bytes) : bytes := take (hi - lo) (drop lo b).

(** [binary.BigEndian.PutUint64] and [Uint64], for [n] bytes. *)
Fixpoint be_put (n : nat) (v : Z) : bytes :=
  match n with
  | O => []
  | S n' => be_put n' (v / 256) ++ [v `mod` 256]
  end.

Definition be_get (b : bytes) : Z := foldl (λ acc x, acc * 256 + x) 0 b.

Definition PutUint64 (v : Z) : bytes := be_put 8 v.
Definition Uint64 (b : bytes) : Z := be_get b.

#[global] Arguments PutUint64 : simpl never.
#[global] Arguments Uint64 : simpl never.
#[global] Arguments copy_array : simpl never.
#[global] Arguments slice : simpl never.

Lemma copy_array_length n src : length (copy_array n src) = n.
Proof.
  unfold copy_array. rewrite length_take, length_app, length_replicate. lia.
Qed.

Lemma copy_array_id n src : length src = n → copy_array n src = src.
Proof.
  intros <-. unfold copy_array. by rewrite take_app_length.
Qed.

Lemma be_put_length n v : length (be_put n v) = n.
Proof.
  revert v; induction n as [|n IH]; intros v; simpl; [done|].
  rewrite length_app, IH; simpl; lia.
Qed.

Lemma be_put_bytes n v : Forall is_byte (be_put n v).
Proof.
  revert v; induction n as [|n IH]; intros v; simpl; [constructor|].
  apply Forall_app; split; [apply IH|].
  apply Forall_singleton, Z.mod_pos_bound. lia.
Qed.

Lemma be_get_snoc b x : be_get (b ++ [x]) = be_get b * 256 + x.
Proof. unfold be_get. by rewrite foldl_app. Qed.

Lemma be_get_put n v : 0 ≤ v < 256 ^ Z.of_nat n → be_get (be_put n v) = v.
Proof.
  revert v; induction n as [|n IH]; intros v Hv; simpl.
  { simpl in Hv. unfold be_get; simpl. lia. }
  rewrite be_get_snoc, IH.
  { pose proof (Z.div_mod v 256). lia. }
  rewrite Nat2Z.inj_succ, Z.pow_succ_r in Hv by lia.
  split; [apply Z.div_pos; lia|]. apply Z.div_lt_upper_bound; lia.
Qed.

Lemma be_get_range b :
  Forall is_byte b → 0 ≤ be_get b < 256 ^ Z.of_nat (length b).
Proof.
  induction b as [|x b IH] using rev_ind; intros Hb.
  { unfold be_get; simpl. lia. }
  apply Forall_app in Hb as [Hb Hx]. rewrite Forall_singleton in Hx.
  rewrite be_get_snoc, length_app; simpl.
  replace (Z.of_nat (length b + 1)) with (Z.succ (Z.of_nat (length b))) by lia.
  rewrite Z.pow_succ_r by lia. unfold is_byte in Hx. specialize (IH Hb).
  set (P := 256 ^ Z.of_nat (length b)) in *.
  lia.
Qed.

Lemma be_put_get b : Forall is_byte b → be_put (length b) (be_get b) = b.
Proof.
  induction b as [|x b IH] using rev_ind; intros Hb; [done|].
  apply Forall_app in Hb as [Hb Hx]. rewrite Forall_singleton in Hx.
  unfold is_byte in Hx. rewrite length_app, Nat.add_comm; simpl.
  rewrite be_get_snoc, (Z.add_comm _ x), Z.div_add, Z.mod_add by lia.
  rewrite Z.div_small, Z.mod_small, Z.add_0_l by lia. by rewrite IH.
Qed.

Lemma be_put_inj n v w :
  0 ≤ v < 256 ^ Z.of_nat n → 0 ≤ w < 256 ^ Z.of_nat n →
  be_put n v = be_put n w → v = w.
Proof.
  intros Hv Hw Heq. rewrite <- (be_get_put n v), <- (be_get_put n w) by done.
  by rewrite Heq.
Qed.

Lemma PutUint64_inj v w : is_u64 v → is_u64 w → PutUint64 v = PutUint64 w → v = w.
Proof. unfold is_u64. intros ??. apply be_put_inj; lia. Qed.

Lemma Uint64_PutUint64 v : is_u64 v → Uint64 (PutUint64 v) = v.
Proof. unfold is_u64. intros ?. apply be_get_put. lia. Qed.

#[export] Hint Rewrite copy_array_length be_put_length @length_app
  @length_take @length_drop @length_replicate : lnmux_len.

(** ** Panics and errors

    [outcome] is the result of a Go function that may panic; the stdpp monad
    notation [x ← m; k] sequences such functions. *)

Inductive outcome (A : Type) :=
  | Ok (a : A)
  | Panic (msg : string).
Arguments Ok {_} _.
Arguments Panic {_} _.

#[global] Instance outcome_ret : MRet outcome := λ _ a, Ok a.
#[global] Instance outcome_bind : MBind outcome := λ _ _ f m,
  match m with Ok a => f a | Panic s => Panic s end.

Definition panics {A} (m : outcome A) : Prop := ∃ s, m = Panic s.

(** Result of a Go function returning [(T, error)]. *)
Inductive result (E A : Type) :=
  | Good (a : A)
  | Bad (e : E).
Arguments Good {_ _} _.
Arguments Bad {_ _} _.

#[global] Instance result_ret E : MRet (result E) := λ _ a, Good a.
#[global] Instance result_bind E : MBind (result E) := λ _ _ f m,
  match m with Good a => f a | Bad e => Bad e end.

Lemma outcome_bind_Ok {A B} (m : outcome A) (f : A → outcome B) b :
  m ≫= f = Ok b ↔ ∃ a, m = Ok a ∧ f a = Ok b.
Proof.
  destruct m as [a'|s]; simpl; split.
  - eauto.
  - intros (a & [= ->] & Hf). done.
  - done.
  - by intros (a & ? & _).
Qed.

(** ** Lists and maps *)

Definition Zsum (l : list Z) : Z := foldr Z.add 0 l.

Lemma Zsum_cons x l : Zsum (x :: l) = x + Zsum l.
Proof. done. Qed.

Lemma Zsum_app l k : Zsum (l ++ k) = Zsum l + Zsum k.
Proof. induction l; simpl; lia. Qed.

#[global] Instance Zsum_proper : Proper ((≡ₚ) ==> (=)) Zsum.
Proof. induction 1; simpl; lia. Qed.

Lemma Zsum_nonneg l : Forall (λ x, 0 ≤ x) l → 0 ≤ Zsum l.
Proof. induction 1; simpl; lia. Qed.

(** The values and keys of a Go map, as [range] visits them. The order of
    [map_to_list] is one of the orders the language allows; what depends on it
    is proved invariant under permutation. *)
Section MapIter.
Context {K V : Type} `{Countable K}.

Definition map_keys (m : gmap K V) : list K := (map_to_list m).*1.
Definition map_vals (m : gmap K V) : list V := (map_to_list m).*2.

Lemma map_keys_NoDup m : NoDup (map_keys m).
Proof. apply NoDup_fst_map_to_list. Qed.

Lemma elem_of_map_keys m k : k ∈ map_keys m ↔ is_Some (m !! k).
Proof.
  unfold map_keys. rewrite list_elem_of_fmap. split.
  - intros [[k' v] [-> Hin]]. apply elem_of_map_to_list in Hin. eauto.
  - intros [v Hv]. exists (k, v). split; [done|]. by apply elem_of_map_to_list.
Qed.

Lemma elem_of_map_vals m v : v ∈ map_vals m ↔ ∃ k, m !! k = Some v.
Proof.
  unfold map_vals. rewrite list_elem_of_fmap. split.
  - intros [[k' v'] [-> Hin]]. apply elem_of_map_to_list in Hin. eauto.
  - intros [k Hv]. exists (k, v). split; [done|]. by apply elem_of_map_to_list.
Qed.

Lemma map_vals_insert m k v :
  m !! k = None → map_vals (<[k:=v]> m) ≡ₚ v :: map_vals m.
Proof. intros ?. unfold map_vals. by rewrite map_to_list_insert. Qed.

Lemma map_keys_insert m k v :
  m !! k = None → map_keys (<[k:=v]> m) ≡ₚ k :: map_keys m.
Proof. intros ?. unfold map_keys. by rewrite map_to_list_insert. Qed.

Lemma map_vals_delete m k v :
  m !! k = Some v → map_vals m ≡ₚ v :: map_vals (delete k m).
Proof.
  intros ?. unfold map_vals. by rewrite <- (map_to_list_delete m k v).
Qed.

Lemma map_vals_empty : map_vals (∅ : gmap K V) = [].
Proof. unfold map_vals. by rewrite map_to_list_empty. Qed.

Lemma map_keys_empty : map_keys (∅ : gmap K V) = [].
Proof. unfold map_keys. by rewrite map_to_list_empty. Qed.

Lemma map_keys_nil m : map_keys m = [] → m = ∅.
Proof.
  unfold map_keys. intros Hnil%fmap_nil_inv. by apply map_to_list_empty_iff.
Qed.
End MapIter.

(** A computation that is known to succeed. *)
Lemma Some_default {A} (d : A) (o : option A) :
  match o with Some _ => true | None => false end = true → o = Some (default d o).
Proof. by destruct o. Qed.

(** What a partial function makes of a part of a multiset. *)
Lemma submseteq_omap {A B} (f : A → option B) (l k : list A) : l ⊆+ k → omap f l ⊆+ omap f k.
Proof.
  intros (r & Hp)%submseteq_Permutation. rewrite Hp, omap_app. by apply submseteq_inserts_r.
Qed.

(** Case analysis on every [match] and [if] of the goal or of a hypothesis. *)
Ltac split_matches :=
  repeat (case_match || case_decide || case_bool_decide); simplify_eq/=.
