(* ===== verification/Sha256.v ===== *)
(** SHA-256 and HMAC-SHA-256, the parts of Go's [crypto/sha256] and
    [crypto/hmac] that the multiplexer uses ([set_id.go], [stateless_data.go],
    [lntypes.Preimage.Hash]). The functions are the FIPS 180-4 and RFC 2104
    definitions over 32-bit words and are executable. What the rest of the
    development uses of them is only that a digest is 32 bytes; nothing is
    assumed about collisions. *)

From stdpp Require Import numbers base list.
From stdpp Require Import options.
From S2P Require Import Prelude.

Module Sha.

Definition word_add (a b : Z) : Z := u32 (a + b).
Definition ror (k x : Z) : Z := Z.lor (Z.shiftr x k) (u32 (Z.shiftl x (32 - k))).
Definition Ch (x y z : Z) : Z := Z.lxor (Z.land x y) (Z.land (2 ^ 32 - 1 - x) z).
Definition Maj (x y z : Z) : Z :=
  Z.lxor (Z.lxor (Z.land x y) (Z.land x z)) (Z.land y z).
Definition xor3 (a b c : Z) : Z := Z.lxor (Z.lxor a b) c.
Definition big0 (x : Z) : Z := xor3 (ror 2 x) (ror 13 x) (ror 22 x).
Definition big1 (x : Z) : Z := xor3 (ror 6 x) (ror 11 x) (ror 25 x).
Definition small0 (x : Z) : Z := xor3 (ror 7 x) (ror 18 x) (Z.shiftr x 3).
Definition small1 (x : Z) : Z := xor3 (ror 17 x) (ror 19 x) (Z.shiftr x 10).

Definition round_constants : list Z := [
  1116352408; 1899447441; 3049323471; 3921009573; 961987163; 1508970993;
  2453635748; 2870763221; 3624381080; 310598401; 607225278; 1426881987;
  1925078388; 2162078206; 2614888103; 3248222580; 3835390401; 4022224774;
  264347078; 604807628; 770255983; 1249150122; 1555081692; 1996064986;
  2554220882; 2821834349; 2952996808; 3210313671; 3336571891; 3584528711;
  113926993; 338241895; 666307205; 773529912; 1294757372; 1396182291;
  1695183700; 1986661051; 2177026350; 2456956037; 2730485921; 2820302411;
  3259730800; 3345764771; 3516065817; 3600352804; 4094571909; 275423344;
  430227734; 506948616; 659060556; 883997877; 958139571; 1322822218;
  1537002063; 1747873779; 1955562222; 2024104815; 2227730452; 2361852424;
  2428436474; 2756734187; 3204031479; 3329325298].

(** The eight chaining words. *)
Record state := St { sa : Z; sb : Z; sc : Z; sd : Z; se : Z; sf : Z; sg : Z; sh : Z }.

Definition initial : state :=
  St 1779033703 3144134277 1013904242 2773480762
     1359893119 2600822924 528734635 1541459225.

Definition round (s : state) (kw : Z) : state :=
  let t1 := sh s + big1 (se s) + Ch (se s) (sf s) (sg s) + kw in
  let t2 := big0 (sa s) + Maj (sa s) (sb s) (sc s) in
  St (u32 (t1 + t2)) (sa s) (sb s) (sc s) (word_add (sd s) t1) (se s) (sf s) (sg s).

(** The message schedule, most recent word first. *)
Fixpoint extend (n : nat) (w : list Z) : list Z :=
  match n with
  | O => w
  | S n' =>
      let at_ i := nth i w 0 in
      extend n' (u32 (small1 (at_ 1%nat) + at_ 6%nat + small0 (at_ 14%nat) + at_ 15%nat) :: w)
  end.

Definition schedule (block : list Z) : list Z := rev (extend 48 (rev block)).

Definition compress (s : state) (block : list Z) : state :=
  let s' := foldl round s (zip_with Z.add round_constants (schedule block)) in
  St (word_add (sa s) (sa s')) (word_add (sb s) (sb s'))
     (word_add (sc s) (sc s')) (word_add (sd s) (sd s'))
     (word_add (se s) (se s')) (word_add (sf s) (sf s'))
     (word_add (sg s) (sg s')) (word_add (sh s) (sh s')).

Definition pad (m : bytes) : bytes :=
  let n := length m in
  m ++ [128] ++ replicate (Z.to_nat ((55 - Z.of_nat n) `mod` 64)) 0
    ++ PutUint64 (u64 (8 * Z.of_nat n)).

(** [n] groups of [k] elements. *)
Fixpoint groups (k n : nat) (l : list Z) : list (list Z) :=
  match n with
  | O => []
  | S n' => take k l :: groups k n' (drop k l)
  end.

Definition words (b : bytes) : list Z := be_get <$> groups 4 16 b.

Definition blocks (m : bytes) : list (list Z) :=
  let p := pad m in words <$> groups 64 (length p `div` 64) p.

Definition digest (s : state) : bytes :=
  be_put 4 (sa s) ++ be_put 4 (sb s) ++ be_put 4 (sc s) ++ be_put 4 (sd s) ++
  be_put 4 (se s) ++ be_put 4 (sf s) ++ be_put 4 (sg s) ++ be_put 4 (sh s).

(** [sha256.Sum256]. *)
Definition sha256 (m : bytes) : bytes := digest (foldl compress initial (blocks m)).

(** [hmac.New(sha256.New, key)], [Write(m)], [Sum(nil)]. *)
Definition hmac_key (key : bytes) : bytes :=
  copy_array 64 (if decide (64 < length key)%nat then sha256 key else key).

Definition hmac (key m : bytes) : bytes :=
  let k := hmac_key key in
  sha256 ((Z.lxor 92 <$> k) ++ sha256 ((Z.lxor 54 <$> k) ++ m)).

#[global] Arguments sha256 : simpl never.
#[global] Arguments hmac : simpl never.

Lemma digest_length s : length (digest s) = 32%nat.
Proof. unfold digest. by rewrite !length_app, !be_put_length. Qed.

Lemma digest_bytes s : Forall is_byte (digest s).
Proof. unfold digest. rewrite !Forall_app. repeat split; apply be_put_bytes. Qed.

Lemma sha256_length m : length (sha256 m) = 32%nat.
Proof. apply digest_length. Qed.

Lemma sha256_bytes m : Forall is_byte (sha256 m).
Proof. apply digest_bytes. Qed.

Lemma hmac_length k m : length (hmac k m) = 32%nat.
Proof. apply sha256_length. Qed.

Lemma hmac_bytes k m : Forall is_byte (hmac k m).
Proof. apply sha256_bytes. Qed.

#[export] Hint Rewrite sha256_length hmac_length : lnmux_len.
#[export] Hint Resolve sha256_length hmac_length sha256_bytes hmac_bytes : lnmux.

(** The FIPS 180-4 vector for the three bytes of [abc] and the RFC 4231 test
    case 2 of HMAC-SHA-256 (key [Jefe]). *)
Example sha256_abc :
  be_get (sha256 [97; 98; 99]) =
  84342368487090800366523834928142263660104883695016514377462985829716817089965.
Proof. vm_compute. reflexivity. Qed.

Example hmac_rfc4231_2 :
  be_get (hmac [74; 101; 102; 101]
    [119; 104; 97; 116; 32; 100; 111; 32; 121; 97; 32; 119; 97; 110; 116; 32;
     102; 111; 114; 32; 110; 111; 116; 104; 105; 110; 103; 63]) =
  41550509519724011495871338914359268745544789260865447409078544909066503469123.
Proof. vm_compute. reflexivity. Qed.

End Sha.
