(* ===== verification/Types.v ===== *)
(** The data types the components share: [types/types.go], [common/pubkey.go],
    [resolution.go], [resolution_result.go], [release_event.go], the named
    errors, and the priority queue interface behind [autoReleaseHeap]. *)

From stdpp Require Import strings sorting base gmap list.
From stdpp Require Import options.
From S2P Require Import Prelude Sha256.

(** ** Errors *)

(** Errors are compared by identity ([err == ErrX]); a wrapped error
    ([fmt.Errorf("...: %w", err)]) is equal to none of the named ones.
    [ErrExternal] stands for errors produced by the database driver, grpc or
    lnd. *)
Inductive Error :=
  | ErrInvoiceNotFound
  | ErrHtlcNotFound
  | ErrShuttingDown
  | ErrAutoSettling
  | ErrSettleRequested
  | ErrHtlcAlreadyFinal
  | ErrHtlcReceivedButInvoiceAlreadySettled
  | ErrFinalizationFailed
  | ErrInterceptorNotRequired
  | ErrFinalHtlcResolutionsNotStored
  | ErrLndHtlcNotFound
  | ErrCanceled
  | ErrDeadlineExceeded
  | ErrNew (msg : string)
  | ErrExternal (msg : string)
  | ErrWrap (msg : string) (e : Error).

#[global] Instance Error_eq_dec : EqDecision Error.
Proof. solve_decision. Defined.

Abbreviation res := (result Error).

(** ** Public keys: common/pubkey.go *)

Module PubKey.

Definition PubKeySize : nat := 33.

(** [encoding/hex]: one digit, a byte string, and its inverse. *)
Definition hex_digit (d : Z) : Z := if decide (d < 10) then 48 + d else 87 + d.

Definition from_hex_char (c : Z) : option Z :=
  if decide (48 ≤ c ≤ 57) then Some (c - 48)
  else if decide (97 ≤ c ≤ 102) then Some (c - 87)
  else if decide (65 ≤ c ≤ 70) then Some (c - 55)
  else None.

Fixpoint EncodeToString (b : bytes) : bytes :=
  match b with
  | [] => []
  | x :: b' => hex_digit (x / 16) :: hex_digit (x `mod` 16) :: EncodeToString b'
  end.

Fixpoint DecodeString (s : bytes) : res bytes :=
  match s with
  | [] => Good []
  | [c] =>
      match from_hex_char c with
      | None => Bad (ErrNew "encoding/hex: invalid byte")
      | Some _ => Bad (ErrNew "encoding/hex: odd length hex string")
      end
  | c :: d :: s' =>
      match from_hex_char c, from_hex_char d with
      | Some hi, Some lo => rest ← DecodeString s'; Good (hi * 16 + lo :: rest)
      | _, _ => Bad (ErrNew "encoding/hex: invalid byte")
      end
  end.

Definition NewPubKeyFromBytes (b : bytes) : res bytes :=
  if decide (length b = PubKeySize) then Good (copy_array PubKeySize b)
  else Bad (ErrNew "invalid PubKey length").

Definition NewPubKeyFromStr (v : bytes) : res bytes :=
  if decide (length v = (PubKeySize * 2)%nat) then
    pubKey ← DecodeString v; NewPubKeyFromBytes pubKey
  else Bad (ErrNew "invalid PubKey string length").

(** [NewPubKeyFromKey]: [serialized] is [key.SerializeCompressed()]. *)
Definition NewPubKeyFromKey (serialized : bytes) : bytes :=
  copy_array PubKeySize serialized.

(** [PubKey.String], the [%x] verb. *)
Definition String (v : bytes) : bytes := EncodeToString v.

Lemma from_hex_digit d : 0 ≤ d < 16 → from_hex_char (hex_digit d) = Some d.
Proof.
  intros Hd. unfold from_hex_char, hex_digit.
  repeat (case_decide || lia); f_equal; lia.
Qed.

Lemma Decode_Encode b : Forall is_byte b → DecodeString (EncodeToString b) = Good b.
Proof.
  induction 1 as [|x b Hx Hb IH]; [done|]. unfold is_byte in Hx. cbn [EncodeToString DecodeString].
  rewrite !from_hex_digit.
  - rewrite IH. cbn. do 2 f_equal. pose proof (Z.div_mod x 16). lia.
  - apply Z.mod_pos_bound. lia.
  - split; [apply Z.div_pos; lia | apply Z.div_lt_upper_bound; lia].
Qed.

Lemma Encode_length b : length (EncodeToString b) = (2 * length b)%nat.
Proof. induction b; simpl; lia. Qed.

End PubKey.

(** ** Keys, hashes and statuses: types/types.go *)

(** [lntypes.Hash] and [lntypes.Preimage] are 32-byte arrays. *)
Abbreviation Hash := (list Z) (only parsing).
Abbreviation Preimage := (list Z) (only parsing).
Abbreviation SetID := (list Z) (only parsing).
Abbreviation Time := Z (only parsing).

(** github.com/lightningnetwork/lnd/lntypes, code outside the repository:
    [Preimage.Hash], [MakePreimage] and [MakeHash], with what its
    documentation promises. *)
Class Lntypes := {
  PreimageHash : Preimage → Hash;
  MakePreimage : bytes → res Preimage;
  MakeHash : bytes → res Hash
}.

Class LntypesLaws `{Lntypes} : Prop := {
  PreimageHash_length p : length (PreimageHash p) = 32%nat;
  PreimageHash_bytes p : Forall is_byte (PreimageHash p);
  MakePreimage_32 b : length b = 32%nat → MakePreimage b = Good b;
  MakePreimage_bad b : length b ≠ 32%nat → ∃ e, MakePreimage b = Bad e;
  MakeHash_32 b : length b = 32%nat → MakeHash b = Good b;
  MakeHash_bad b : length b ≠ 32%nat → ∃ e, MakeHash b = Bad e
}.

(** An implementation: the hash is SHA-256. *)
Module RealLntypes.

Definition make32 (b : bytes) : res bytes :=
  if decide (length b = 32%nat) then Good b else Bad (ErrExternal "invalid length").

#[export] Instance real_lntypes : Lntypes := {
  PreimageHash := Sha.sha256; MakePreimage := make32; MakeHash := make32 }.

#[export] Instance real_lntypes_laws : LntypesLaws.
Proof.
  split; simpl; intros; unfold make32; try case_decide; try done; eauto.
  apply Sha.sha256_bytes.
Qed.

End RealLntypes.

Record CircuitKey := MkCircuitKey { ck_ChanID : Z; ck_HtlcID : Z }.

Record HtlcKey := MkHtlcKey { Node : bytes; ChanID : Z; HtlcID : Z }.

#[global] Instance CircuitKey_eq_dec : EqDecision CircuitKey.
Proof. solve_decision. Defined.

#[global] Instance CircuitKey_countable : Countable CircuitKey.
Proof.
  refine (inj_countable' (λ k, (ck_ChanID k, ck_HtlcID k))
                         (λ '(c, h), MkCircuitKey c h) _).
  by intros [].
Defined.

#[global] Instance HtlcKey_eq_dec : EqDecision HtlcKey.
Proof. solve_decision. Defined.

#[global] Instance HtlcKey_countable : Countable HtlcKey.
Proof.
  refine (inj_countable' (λ k, (Node k, ChanID k, HtlcID k))
                         (λ '(n, c, h), MkHtlcKey n c h) _).
  by intros [].
Defined.

(** The values a Go [HtlcKey] can have. *)
Definition HtlcKey_wf (k : HtlcKey) : Prop :=
  length (Node k) = PubKey.PubKeySize ∧ Forall is_byte (Node k) ∧
  is_u64 (ChanID k) ∧ is_u64 (HtlcID k).

Inductive InvoiceStatus :=
  | InvoiceStatusSettleRequested
  | InvoiceStatusSettled
  | InvoiceStatusFailed.

Inductive HtlcStatus :=
  | HtlcStatusSettleRequested
  | HtlcStatusSettled
  | HtlcStatusFailed.

#[global] Instance InvoiceStatus_eq_dec : EqDecision InvoiceStatus.
Proof. solve_decision. Defined.
#[global] Instance HtlcStatus_eq_dec : EqDecision HtlcStatus.
Proof. solve_decision. Defined.

Definition IsFinal (s : InvoiceStatus) : bool :=
  bool_decide (s = InvoiceStatusSettled) || bool_decide (s = InvoiceStatusFailed).

Record InvoiceCreationData := MkInvoiceCreationData {
  PaymentPreimage : Preimage;
  Value : Z;
  PaymentAddr : bytes
}.

(** The policy enforced for the hop towards the virtual channel, [mux.go]. *)
Record RoutingPolicy := MkRoutingPolicy {
  CltvDelta : Z;
  FeeBaseMsat : Z;
  FeeRatePpm : Z
}.

(** ** Resolutions: resolution.go, resolution_result.go *)

Inductive FailResolutionResult :=
  | resultInvalidFailure
  | ResultExpiryTooSoon
  | ResultInvoiceNotOpen
  | ResultMppTimeout
  | ResultAddressMismatch
  | ResultHtlcSetTotalMismatch
  | ResultHtlcSetTotalTooLow
  | ResultHtlcSetOverpayment
  | ResultInvoiceNotFound
  | ResultHtlcInvoiceTypeMismatch
  | ResultCannotSettle
  | ResultInvoiceExpired
  | ResultNoAcceptSubscriber
  | ResultAcceptTimeout.

#[global] Instance FailResolutionResult_eq_dec : EqDecision FailResolutionResult.
Proof. solve_decision. Defined.

Definition FailureString (f : FailResolutionResult) : string :=
  match f with
  | resultInvalidFailure => "invalid failure result"
  | ResultExpiryTooSoon => "expiry too soon"
  | ResultInvoiceNotOpen => "invoice no longer open"
  | ResultMppTimeout => "mpp timeout"
  | ResultAddressMismatch => "payment address mismatch"
  | ResultHtlcSetTotalMismatch => "htlc total amt doesn't match set total"
  | ResultHtlcSetTotalTooLow => "set total too low for invoice"
  | ResultHtlcSetOverpayment => "mpp is overpaying set total"
  | ResultInvoiceNotFound => "invoice not found"
  | ResultHtlcInvoiceTypeMismatch => "htlc invoice type mismatch"
  | ResultCannotSettle => "cannot settle"
  | ResultInvoiceExpired => "invoice expired"
  | ResultNoAcceptSubscriber => "no accept subscriber"
  | ResultAcceptTimeout => "accept timeout"
  end.

Inductive SettleResolutionResult :=
  | resultInvalidSettle
  | ResultSettled
  | ResultReplayToSettled.

#[global] Instance SettleResolutionResult_eq_dec : EqDecision SettleResolutionResult.
Proof. solve_decision. Defined.

Definition SettleString (s : SettleResolutionResult) : string :=
  match s with
  | resultInvalidSettle => "invalid settle result"
  | ResultSettled => "settled"
  | ResultReplayToSettled => "replayed htlc to settled invoice"
  end.

Inductive HtlcResolution :=
  | HtlcFailResolution (Outcome : FailResolutionResult)
  | HtlcSettleResolution (p : Preimage) (Outcome : SettleResolutionResult).

#[global] Instance HtlcResolution_eq_dec : EqDecision HtlcResolution.
Proof. solve_decision. Defined.

Definition NewFailResolution (outcome : FailResolutionResult) : HtlcResolution :=
  HtlcFailResolution outcome.
Definition NewSettleResolution (p : Preimage) (outcome : SettleResolutionResult) :
  HtlcResolution := HtlcSettleResolution p outcome.

(** ** Release events: release_event.go *)

Inductive releaseEvent :=
  | htlcReleaseEvent (hash : Hash) (releaseTime : Time) (key : HtlcKey)
  | acceptTimeoutEvent (hash : Hash) (releaseTime : Time).

#[global] Instance releaseEvent_eq_dec : EqDecision releaseEvent.
Proof. solve_decision. Defined.

Definition getReleaseTime (e : releaseEvent) : Time :=
  match e with
  | htlcReleaseEvent _ t _ => t
  | acceptTimeoutEvent _ t => t
  end.

(** [eventBase.Less]: [r.releaseTime.Before(other.releaseTime)]. *)
Definition Less (r other : releaseEvent) : bool :=
  getReleaseTime r <? getReleaseTime other.

(** ** The priority queue of github.com/lightningnetwork/lnd/queue

    [autoReleaseHeap] is a [queue.PriorityQueue]: code outside the repository.
    The registry is proved against this interface: [Pop] returns a minimal
    element and leaves the others, in an order of its own choice. *)
Class PriorityQueue (Q : Type) := {
  pq_new : Q;
  pq_Len : Q → nat;
  pq_Push : releaseEvent → Q → Q;
  pq_Pop : Q → option (releaseEvent * Q);
  pq_items : Q → list releaseEvent
}.

Definition pq_Top {Q} `{PriorityQueue Q} (q : Q) : option releaseEvent := fst <$> pq_Pop q.

Class PriorityQueueLaws (Q : Type) `{PriorityQueue Q} : Prop := {
  pq_new_items : pq_items pq_new = [];
  pq_Len_items q : pq_Len q = length (pq_items q);
  pq_Push_items e q : pq_items (pq_Push e q) ≡ₚ e :: pq_items q;
  pq_Pop_None q : pq_Pop q = None ↔ pq_items q = [];
  pq_Pop_items q e q' :
    pq_Pop q = Some (e, q') →
    pq_items q ≡ₚ e :: pq_items q' ∧ Forall (λ e', Less e' e = false) (pq_items q')
}.

(** A list kept sorted by release time satisfies the interface. *)
Module ListQueue.

Fixpoint insert_event (e : releaseEvent) (l : list releaseEvent) : list releaseEvent :=
  match l with
  | [] => [e]
  | x :: l' => if Less e x then e :: l else x :: insert_event e l'
  end.

Definition le_event (a b : releaseEvent) : Prop := Less b a = false.

#[global] Instance le_event_trans : Transitive le_event.
Proof. unfold le_event, Less. intros a b c ??. lia. Qed.

(** Queues are sorted lists; the invariant travels with the data. *)
Record queue := MkQueue { q_list : list releaseEvent; q_sorted : Sorted le_event q_list }.

Lemma insert_event_perm e l : insert_event e l ≡ₚ e :: l.
Proof.
  induction l as [|x l IH]; simpl; [done|]. destruct (Less e x); [done|].
  rewrite IH. apply Permutation_swap.
Qed.

Lemma insert_event_sorted e l : Sorted le_event l → Sorted le_event (insert_event e l).
Proof.
  induction 1 as [|x l Hs IH Hx]; simpl; [by repeat constructor|].
  destruct (Less e x) eqn:E.
  - constructor; [by constructor|]. constructor. unfold le_event, Less in *. lia.
  - constructor; [done|]. inversion Hx; subst; simpl.
    + constructor. done.
    + destruct (Less e b); constructor; done.
Qed.

Program Definition push (e : releaseEvent) (q : queue) : queue :=
  MkQueue (insert_event e (q_list q)) _.
Next Obligation. intros. apply insert_event_sorted, q_sorted. Qed.

Lemma sorted_tail e l : Sorted le_event (e :: l) → Sorted le_event l.
Proof. by inversion 1. Qed.

Definition pop (q : queue) : option (releaseEvent * queue) :=
  match q_list q as l return Sorted le_event l → option (releaseEvent * queue) with
  | [] => λ _, None
  | e :: l => λ Hs, Some (e, MkQueue l (sorted_tail e l Hs))
  end (q_sorted q).

#[global] Instance list_queue : PriorityQueue queue := {
  pq_new := MkQueue [] (Sorted_nil _);
  pq_Len q := length (q_list q);
  pq_Push := push;
  pq_Pop := pop;
  pq_items := q_list
}.

#[global] Instance list_queue_laws : PriorityQueueLaws queue.
Proof.
  split; simpl.
  - done.
  - done.
  - intros. apply insert_event_perm.
  - intros [[|e l] Hs]; unfold pop; simpl; split; congruence.
  - intros [[|e l] Hs] e' q'; unfold pop; simpl; [done|].
    intros [= <- <-]; simpl. split; [done|].
    apply Sorted_StronglySorted in Hs; [|apply _]. inversion Hs; subst. done.
Qed.

End ListQueue.
