(* ===== verification/SetIds.v ===== *)
(** Set identifiers, [set_id.go]: a deterministic digest over the circuit keys
    of an htlc set. [newSetID] sorts a copy of the keys and hashes their
    concatenated encodings, so the identifier depends on the set of keys only,
    and two different sets have the same identifier only through a SHA-256
    collision. *)

From stdpp Require Import sorting base list.
From stdpp Require Import options.
From S2P Require Import Prelude Sha256 Types.

Module SetID.

(** [bytes.Compare]. *)
Fixpoint bytes_Compare (a b : bytes) : Z :=
  match a, b with
  | [], [] => 0
  | [], _ :: _ => -1
  | _ :: _, [] => 1
  | x :: a', y :: b' =>
      if decide (x < y) then -1 else if decide (y < x) then 1 else bytes_Compare a' b'
  end.

(** The comparison function given to [sort.Slice]. *)
Definition key_less (a b : HtlcKey) : bool :=
  if bool_decide (Node a ≠ Node b) then
    bytes_Compare (Node a) (Node b) =? -1
  else if bool_decide (ChanID a ≠ ChanID b) then
    ChanID a <? ChanID b
  else HtlcID a <? HtlcID b.

(** [a] may stand before [b] in a slice sorted by [key_less]. *)
Definition key_le (a b : HtlcKey) : Prop := key_less b a = false.

#[global] Instance key_le_dec a b : Decision (key_le a b).
Proof. unfold key_le. apply _. Defined.

(** [sort.Slice(sortedKeys, less)]. The library promises a permutation that is
    sorted by [less] and no stability; [sort_keys_unique] shows that this
    determines the result. *)
Definition sort_keys (keys : list HtlcKey) : list HtlcKey := merge_sort key_le keys.

(** What the loop writes into the digest for one key. *)
Definition key_bytes (k : HtlcKey) : bytes :=
  Node k ++ PutUint64 (ChanID k) ++ PutUint64 (HtlcID k).

Definition digest_input (keys : list HtlcKey) : bytes := mjoin (key_bytes <$> keys).

Definition newSetID (keys : list HtlcKey) : SetID :=
  copy_array 32 (Sha.sha256 (digest_input (sort_keys keys))).

(** *** The order on keys *)

Lemma Compare_opp a b : bytes_Compare b a = - bytes_Compare a b.
Proof.
  revert b; induction a as [|x a IH]; intros [|y b]; simpl; try done.
  repeat case_decide; try lia. done.
Qed.

Lemma Compare_eq a b : bytes_Compare a b = 0 ↔ a = b.
Proof.
  split.
  - revert b; induction a as [|x a IH]; intros [|y b]; simpl; try done.
    repeat case_decide; try done. intros ->%IH. f_equal. lia.
  - intros ->. induction b; simpl; [done|]. repeat case_decide; (lia || done).
Qed.

Lemma Compare_cases a b :
  bytes_Compare a b = -1 ∨ bytes_Compare a b = 0 ∨ bytes_Compare a b = 1.
Proof.
  revert b; induction a as [|x a IH]; intros [|y b]; simpl; eauto.
  repeat case_decide; eauto.
Qed.

Lemma Compare_trans a b c :
  bytes_Compare a b = -1 → bytes_Compare b c = -1 → bytes_Compare a c = -1.
Proof.
  revert b c; induction a as [|x a IH]; intros [|y b] [|z c]; simpl; try done.
  repeat case_decide; try lia; try done. apply IH.
Qed.

Lemma key_less_spec a b :
  key_less a b = true ↔
  bytes_Compare (Node a) (Node b) = -1 ∨
  (Node a = Node b ∧ (ChanID a < ChanID b ∨
                      (ChanID a = ChanID b ∧ HtlcID a < HtlcID b))).
Proof.
  unfold key_less. destruct (decide (Node a = Node b)) as [E|E].
  - rewrite bool_decide_false by (intros H; by apply H).
    assert (bytes_Compare (Node a) (Node b) = 0) by by apply Compare_eq.
    case_bool_decide; rewrite Z.ltb_lt; naive_solver lia.
  - rewrite bool_decide_true by done. split; [|intros [?|[??]]; [lia|done]]. lia.
Qed.

Lemma key_less_asym a b : key_less a b = true → key_less b a = false.
Proof.
  intros Hab. destruct (key_less b a) eqn:Hba; [|done]. exfalso.
  apply key_less_spec in Hab. apply key_less_spec in Hba.
  pose proof (Compare_opp (Node a) (Node b)).
  pose proof (proj2 (Compare_eq (Node a) (Node b))). naive_solver lia.
Qed.

Lemma key_less_trans a b c :
  key_less a b = true → key_less b c = true → key_less a c = true.
Proof.
  rewrite !key_less_spec.
  intros [?|[E1 ?]] [?|[E2 ?]].
  - left. eauto using Compare_trans.
  - left. by rewrite <- E2.
  - left. by rewrite E1.
  - right. split; [congruence|lia].
Qed.

Lemma key_less_total a b : key_less a b = true ∨ key_less b a = true ∨ a = b.
Proof.
  rewrite !key_less_spec, (Compare_opp (Node a) (Node b)).
  destruct (Compare_cases (Node a) (Node b)) as [?|[E|?]]; [by eauto| |].
  - pose proof (proj1 (Compare_eq _ _) E) as E'. rewrite E'.
    destruct a as [na ca ha], b as [nb cb hb]; simpl in *.
    destruct (Z.lt_trichotomy ca cb) as [?|[->|?]]; [naive_solver| |naive_solver].
    destruct (Z.lt_trichotomy ha hb) as [?|[->|?]]; naive_solver.
  - right; left; left. lia.
Qed.

#[global] Instance key_le_trans : Transitive key_le.
Proof.
  unfold key_le. intros a b c Hba Hcb.
  destruct (key_less c a) eqn:E; [|done]. exfalso.
  destruct (key_less_total b c) as [H|[H|H]].
  - rewrite (key_less_trans b c a) in Hba; done.
  - congruence.
  - subst. congruence.
Qed.

#[global] Instance key_le_total : Total key_le.
Proof.
  intros a b. unfold key_le. destruct (key_less b a) eqn:E; [|by left].
  right. by apply key_less_asym.
Qed.

#[global] Instance key_le_antisymm : AntiSymm (=) key_le.
Proof.
  unfold key_le. intros a b ??. destruct (key_less_total a b) as [?|[?|?]]; congruence.
Qed.

(** *** Sorting *)

Lemma sort_keys_perm keys : sort_keys keys ≡ₚ keys.
Proof. apply merge_sort_Permutation. Qed.

Lemma sort_keys_sorted keys : Sorted key_le (sort_keys keys).
Proof. apply Sorted_merge_sort. apply _. Qed.

Lemma sort_keys_unique keys sorted :
  sorted ≡ₚ keys → Sorted key_le sorted → sorted = sort_keys keys.
Proof.
  intros Hp Hs. apply (Sorted_unique key_le); [done|apply sort_keys_sorted|].
  by rewrite sort_keys_perm.
Qed.

#[global] Instance newSetID_proper : Proper ((≡ₚ) ==> (=)) newSetID.
Proof.
  intros ks ks' Hp. unfold newSetID. do 3 f_equal.
  apply sort_keys_unique; [|apply sort_keys_sorted]. by rewrite sort_keys_perm.
Qed.

(** *** The encoding is injective *)

Lemma key_bytes_length k : HtlcKey_wf k → length (key_bytes k) = 49%nat.
Proof.
  intros (Hn & _). unfold key_bytes, PutUint64.
  rewrite !length_app, !be_put_length, Hn. done.
Qed.

Lemma key_bytes_inj k k' :
  HtlcKey_wf k → HtlcKey_wf k' → key_bytes k = key_bytes k' → k = k'.
Proof.
  intros (Hn & _ & Hc & Hh) (Hn' & _ & Hc' & Hh'). unfold key_bytes. intros Heq.
  apply app_inj_1 in Heq as [En Heq]; [|by rewrite Hn, Hn'].
  apply app_inj_1 in Heq as [Ec Eh]; [|by unfold PutUint64; rewrite !be_put_length].
  apply PutUint64_inj in Ec; [|done..]. apply PutUint64_inj in Eh; [|done..].
  destruct k, k'; simpl in *; congruence.
Qed.

Lemma digest_input_inj ks ks' :
  Forall HtlcKey_wf ks → Forall HtlcKey_wf ks' →
  digest_input ks = digest_input ks' → ks = ks'.
Proof.
  intros Hks. revert ks'. induction Hks as [|k ks Hk Hks IH]; intros ks' Hks' Heq.
  - destruct Hks' as [|k' ks' Hk' Hks']; [done|exfalso].
    apply (f_equal length) in Heq. unfold digest_input in Heq. simpl in Heq.
    rewrite length_app, key_bytes_length in Heq by done. lia.
  - destruct Hks' as [|k' ks' Hk' Hks'].
    + exfalso. apply (f_equal length) in Heq. unfold digest_input in Heq. simpl in Heq.
      rewrite length_app, key_bytes_length in Heq by done. lia.
    + unfold digest_input in Heq; simpl in Heq.
      apply app_inj_1 in Heq as [E1 E2]; [|by rewrite !key_bytes_length].
      f_equal; [by apply key_bytes_inj|]. by apply IH.
Qed.

Lemma newSetID_sha keys : newSetID keys = Sha.sha256 (digest_input (sort_keys keys)).
Proof. unfold newSetID. apply copy_array_id, Sha.sha256_length. Qed.

Lemma newSetID_length keys : length (newSetID keys) = 32%nat.
Proof. apply copy_array_length. Qed.

(** The keys of [TestSetID] in [set_id_test.go]. *)
Definition test_keys : list HtlcKey :=
  [MkHtlcKey (replicate 33 0) 1 3; MkHtlcKey (replicate 33 0) 2 4].

(** *** Properties *)

(** [newSetID] is deterministic over a set of circuit keys: whatever the
    order in which the keys are listed (Go maps iterate in random order) and
    whichever sorted permutation [sort.Slice] picks, the identifier is the
    same. *)
Theorem newSetID_order_independent (keys keys' sorted : list HtlcKey)
  (Hperm : keys ≡ₚ keys') (Hsort : sorted ≡ₚ keys') (Hsorted : Sorted key_le sorted) :
  newSetID keys = newSetID keys' ∧
  newSetID keys = copy_array 32 (Sha.sha256 (digest_input sorted)).
Proof.
  split; [by rewrite Hperm|]. rewrite Hperm. unfold newSetID. do 3 f_equal. symmetry.
  by apply sort_keys_unique.
Qed.

(** The digest that [TestSetID] expects, for both orders of the keys. *)
Lemma newSetID_order_independent_witness :
  newSetID (rev test_keys) = newSetID test_keys ∧
  be_get (newSetID test_keys) =
    78834385545889289487598008392072462661661444388913381658362205387929613087103 ∧
  newSetID (rev test_keys) = copy_array 32 (Sha.sha256 (digest_input test_keys)).
Proof.
  destruct (newSetID_order_independent (rev test_keys) test_keys test_keys) as [H1 H2].
  - apply Permutation_sym, Permutation_rev.
  - done.
  - repeat constructor; vm_compute; done.
  - split; [exact H1|]. split; [vm_compute; reflexivity | exact H2].
Defined.

(** C26. Two key sets get the same identifier only if they are the same set, or
    their encodings are two different byte strings with the same SHA-256
    digest: the concatenated fixed-width encoding hides no key, node or id. *)
Theorem newSetID_distinguishes (keys keys' : list HtlcKey)
  (Hwf : Forall HtlcKey_wf keys) (Hwf' : Forall HtlcKey_wf keys')
  (Heq : newSetID keys = newSetID keys') :
  keys ≡ₚ keys' ∨
  (digest_input (sort_keys keys) ≠ digest_input (sort_keys keys') ∧
   Sha.sha256 (digest_input (sort_keys keys)) =
   Sha.sha256 (digest_input (sort_keys keys'))).
Proof.
  rewrite !newSetID_sha in Heq.
  destruct (decide (digest_input (sort_keys keys) = digest_input (sort_keys keys')))
    as [E|E]; [|by right].
  left. apply digest_input_inj in E.
  - rewrite <- (sort_keys_perm keys), E. apply sort_keys_perm.
  - by rewrite sort_keys_perm.
  - by rewrite sort_keys_perm.
Qed.

Lemma newSetID_distinguishes_witness :
  Forall HtlcKey_wf test_keys ∧
  (test_keys ≡ₚ rev test_keys ∨
  (digest_input (sort_keys test_keys) ≠ digest_input (sort_keys (rev test_keys)) ∧
   Sha.sha256 (digest_input (sort_keys test_keys)) =
   Sha.sha256 (digest_input (sort_keys (rev test_keys))))).
Proof.
  assert (Hwf : Forall HtlcKey_wf test_keys).
  { apply Forall_cons; split; [|apply Forall_singleton];
      (split; [done|split; [apply Forall_replicate; unfold is_byte; lia|]]);
      unfold is_u64; simpl; lia. }
  split; [exact Hwf|]. apply (newSetID_distinguishes test_keys (rev test_keys)).
  - exact Hwf.
  - by rewrite <- Permutation_rev.
  - vm_compute. reflexivity.
Defined.

End SetID.
