(* ===== verification/HtlcSets.v ===== *)
(** The in-memory record of accepted htlcs: [htlc_set.go] and [htlc_sets.go].

    [htlcSetsImpl.sets] is a map from payment hash to a pointer to
    [htlcSetImpl]. A set reached through [get] and mutated is the object in the
    map, so an operation that changes a set returns the changed set and
    [update] stores it back under the hash it was reached by; the [parent]
    pointer is the [htlcSetsImpl] argument. *)

From stdpp Require Import strings base fin_maps gmap list.
From stdpp Require Import options.
From S2P Require Import Prelude Sha256 Types SetIds.

Module Sets.

Record htlcSetParameters := MkParams {
  preimage : Preimage;
  value : Z;
  paymentAddr : bytes
}.

Record htlcSetImpl := MkSet {
  params : htlcSetParameters;
  htlcs : gmap HtlcKey Z
}.

Abbreviation htlcSetsImpl := (gmap (list Z) htlcSetImpl) (only parsing).

Section WithLntypes.
Context `{Lntypes}.

(** ** htlc_set.go *)

Definition newHtlcSetImpl (p : htlcSetParameters) : htlcSetImpl := MkSet p ∅.

(** The [for] loop over the amounts, with Go's [int64] addition. *)
Definition totalSetAmt (h : htlcSetImpl) : Z :=
  foldl (λ total amt, i64 (total + amt)) 0 (map_vals (htlcs h)).

Definition isComplete (h : htlcSetImpl) : option SetID :=
  if bool_decide (totalSetAmt h ≠ value (params h)) then None
  else Some (SetID.newSetID (map_keys (htlcs h))).

Definition hash (h : htlcSetImpl) : Hash := PreimageHash (preimage (params h)).

(** [getHtlcMap] builds a copy of the map, entry by entry. *)
Definition getHtlcMap (h : htlcSetImpl) : gmap HtlcKey Z :=
  foldr (λ '(key, amt) htlcMap, <[key := amt]> htlcMap) ∅ (map_to_list (htlcs h)).

Definition accepted (h : htlcSetImpl) (key : HtlcKey) : bool :=
  bool_decide (is_Some (htlcs h !! key)).

(** [htlcSetsImpl.delete]. *)
Definition delete_set (hs : Hash) (p : htlcSetsImpl) : outcome htlcSetsImpl :=
  match p !! hs with
  | None => Panic "set not found"
  | Some _ => Ok (delete hs p)
  end.

(** [deleteAll cb]: the callback runs on every key, threading the caller's
    state, and the set is removed from its parent. *)
Definition deleteAll {S} (cb : HtlcKey → S → S) (h : htlcSetImpl)
    (p : htlcSetsImpl) (s : S) : outcome (htlcSetsImpl * S) :=
  let s' := foldl (λ s key, cb key s) s (map_keys (htlcs h)) in
  p' ← delete_set (hash h) p;
  Ok (p', s').

(** Store a mutated set back: the map holds a pointer to it. *)
Definition update (hs : Hash) (h : htlcSetImpl) (p : htlcSetsImpl) : htlcSetsImpl :=
  <[hs := h]> p.

Definition deleteHtlc (key : HtlcKey) (hs : Hash) (h : htlcSetImpl) (p : htlcSetsImpl) :
    outcome htlcSetsImpl :=
  match htlcs h !! key with
  | None => Panic "htlc not found"
  | Some _ =>
      let h' := MkSet (params h) (delete key (htlcs h)) in
      let p' := update hs h' p in
      if bool_decide (size (htlcs h') = 0%nat) then delete_set (hash h') p' else Ok p'
  end.

Definition addHtlc (key : HtlcKey) (amt : Z) (h : htlcSetImpl) : outcome htlcSetImpl :=
  match htlcs h !! key with
  | Some _ => Panic "htlc already exists"
  | None => Ok (MkSet (params h) (<[key := amt]> (htlcs h)))
  end.

(** ** htlc_sets.go *)

Definition newHtlcSets : htlcSetsImpl := ∅.

Definition add (set : htlcSetParameters) (htlcKey : HtlcKey) (htlcAmt : Z)
    (h : htlcSetsImpl) : outcome (htlcSetImpl * htlcSetsImpl) :=
  let hs := PreimageHash (preimage set) in
  match h !! hs with
  | Some _ => Panic "set already exists"
  | None =>
      s ← addHtlc htlcKey htlcAmt (newHtlcSetImpl set);
      Ok (s, <[hs := s]> h)
  end.

Definition get (hs : Hash) (h : htlcSetsImpl) : option htlcSetImpl := h !! hs.

(** [forEach cb]. *)
Definition forEach {S} (cb : htlcSetImpl → S → S) (h : htlcSetsImpl) (s : S) : S :=
  foldl (λ s set, cb set s) s (map_vals h).

(** ** Facts *)

(** The mathematical total, without the wrap-around. *)
Definition exact_total (h : htlcSetImpl) : Z := Zsum (map_vals (htlcs h)).

Lemma foldl_i64_sum l a :
  is_i64 a → foldl (λ total amt, i64 (total + amt)) a l = i64 (a + Zsum l).
Proof.
  revert a; induction l as [|x l IH]; intros a Ha; simpl.
  - rewrite Z.add_0_r, i64_small; done.
  - rewrite IH by apply i64_range. rewrite i64_add_l. f_equal. lia.
Qed.

Lemma totalSetAmt_exact h : totalSetAmt h = i64 (exact_total h).
Proof. unfold totalSetAmt. rewrite foldl_i64_sum; [done|]. unfold is_i64. lia. Qed.

Lemma totalSetAmt_small h :
  0 ≤ exact_total h < 2 ^ 63 → totalSetAmt h = exact_total h.
Proof. intros ?. rewrite totalSetAmt_exact. apply i64_small. lia. Qed.

Lemma getHtlcMap_eq h : getHtlcMap h = htlcs h.
Proof.
  unfold getHtlcMap. rewrite <- (list_to_map_to_list (htlcs h)) at 2.
  generalize (map_to_list (htlcs h)) as l.
  induction l as [|[k a] l IH]; simpl; [done|]. by rewrite IH.
Qed.

Lemma isComplete_Some h id :
  isComplete h = Some id ↔
  totalSetAmt h = value (params h) ∧ id = SetID.newSetID (map_keys (htlcs h)).
Proof. unfold isComplete. case_bool_decide; naive_solver. Qed.

Lemma isComplete_None h : isComplete h = None ↔ totalSetAmt h ≠ value (params h).
Proof. unfold isComplete. case_bool_decide; naive_solver. Qed.

Lemma accepted_spec h key : accepted h key = true ↔ is_Some (htlcs h !! key).
Proof. apply bool_decide_eq_true. Qed.

Lemma accepted_false h key : accepted h key = false ↔ htlcs h !! key = None.
Proof. unfold accepted. rewrite bool_decide_eq_false. symmetry. apply eq_None_not_Some. Qed.

Lemma exact_total_add h key amt :
  htlcs h !! key = None →
  exact_total (MkSet (params h) (<[key:=amt]> (htlcs h))) = exact_total h + amt.
Proof.
  intros ?. unfold exact_total; simpl. rewrite map_vals_insert by done. simpl. lia.
Qed.

Lemma exact_total_delete h key amt :
  htlcs h !! key = Some amt →
  exact_total (MkSet (params h) (delete key (htlcs h))) = exact_total h - amt.
Proof.
  intros Hk. unfold exact_total; simpl. rewrite (map_vals_delete (htlcs h) key amt) by done.
  simpl. lia.
Qed.

End WithLntypes.

End Sets.
