(* ===== verification/StatelessData.v ===== *)
(** Stateless invoices: [stateless_data.go] and [invoice_creator.go]. The
    payment address carries the expiry and the amount, and the preimage is an
    HMAC of the address under the node key, so an htlc can be checked without
    any stored invoice. *)

From stdpp Require Import numbers strings base list.
From stdpp Require Import options.
From S2P Require Import Prelude Sha256 Types.

(** ** time.Time

    An instant is its distance to the Unix epoch in nanoseconds.
    [time.Unix] computes the seconds since year 1 in [int64]. *)
Module Time.

Definition Second : Z := 10 ^ 9.
Definition unixToInternal : Z := 62135596800.

Definition FromUnix (sec : Z) : Time :=
  (i64 (sec + unixToInternal) - unixToInternal) * Second.
Definition Unix (t : Time) : Z := i64 (t / Second).
Definition Before (t u : Time) : bool := t <? u.
Definition After (t u : Time) : bool := u <? t.
Definition Add (t : Time) (d : Z) : Time := t + d.

(** Instants whose second count a [time.Time] built by [time.Unix] can hold. *)
Definition representable (t : Time) : Prop :=
  - 2 ^ 63 ≤ t / Second < 2 ^ 63 - unixToInternal.

Lemma FromUnix_Unix t : representable t → FromUnix (Unix t) = t / Second * Second.
Proof.
  unfold representable, FromUnix, Unix, unixToInternal. intros ?.
  rewrite (i64_small (t / Second)) by lia. rewrite i64_small by lia. lia.
Qed.

End Time.

Module Stateless.

Record statelessData := MkStatelessData {
  amtMsat : Z;
  expiry : Time;
  sd_preimage : Preimage
}.

Section WithLntypes.
Context `{Lntypes}.

(** [rand] is the result of [rand.Read(addr[:16])]. *)
Definition encodeStatelessData (rand : res bytes) (privKey : bytes) (amtMsat : Z)
    (expiry : Time) : res (bytes * Preimage) :=
  r ← rand;
  let addr := copy_array 16 r ++ PutUint64 (u64 (Time.Unix expiry)) ++ PutUint64 (u64 amtMsat) in
  let preimageBytes := Sha.hmac privKey addr in
  paymentPreimage ← MakePreimage preimageBytes;
  Good (addr, paymentPreimage).

Definition decodeStatelessData (privKey paymentAddr : bytes) : res statelessData :=
  paymentPreimage ← MakePreimage (Sha.hmac privKey paymentAddr);
  let expiry := Time.FromUnix (i64 (Uint64 (slice 16 24 paymentAddr))) in
  let amtMsat := Uint64 (slice 24 32 paymentAddr) in
  Good (MkStatelessData (i64 amtMsat) expiry paymentPreimage).

Lemma slice_addr (r e a : bytes) :
  length r = 16%nat → length e = 8%nat → length a = 8%nat →
  slice 16 24 (r ++ e ++ a) = e ∧ slice 24 32 (r ++ e ++ a) = a.
Proof.
  intros Hr He Ha. unfold slice; simpl. split.
  - rewrite drop_app_length' by lia. by rewrite take_app_length'.
  - rewrite app_assoc, drop_app_length' by (rewrite length_app; lia).
    by rewrite take_ge by lia.
Qed.

Lemma encode_addr rand privKey amt t addr p :
  encodeStatelessData (Good rand) privKey amt t = Good (addr, p) →
  addr = copy_array 16 rand ++ PutUint64 (u64 (Time.Unix t)) ++ PutUint64 (u64 amt) ∧
  MakePreimage (Sha.hmac privKey addr) = Good p.
Proof.
  unfold encodeStatelessData, mbind, result_bind. intros Henc.
  destruct (MakePreimage _) eqn:E; [|done]. by simplify_eq.
Qed.

Lemma decode_encode `{!LntypesLaws} (rand privKey : bytes) (amt : Z) (t : Time) :
  is_i64 amt → Time.representable t →
  ∃ addr p,
    encodeStatelessData (Good rand) privKey amt t = Good (addr, p) ∧
    length addr = 32%nat ∧ length p = 32%nat ∧
    decodeStatelessData privKey addr =
      Good (MkStatelessData amt (t / Time.Second * Time.Second) p).
Proof.
  intros Hamt Ht.
  set (addr := copy_array 16 rand ++ PutUint64 (u64 (Time.Unix t)) ++ PutUint64 (u64 amt)).
  exists addr, (Sha.hmac privKey addr).
  assert (HM : MakePreimage (Sha.hmac privKey addr) = Good (Sha.hmac privKey addr))
    by apply MakePreimage_32, Sha.hmac_length.
  split_and!.
  - unfold encodeStatelessData, mbind, result_bind. fold addr. by rewrite HM.
  - unfold addr, PutUint64. by rewrite !length_app, !be_put_length, copy_array_length.
  - apply Sha.hmac_length.
  - unfold decodeStatelessData. rewrite HM. unfold mbind, result_bind, addr.
    edestruct (slice_addr (copy_array 16 rand)) as [-> ->];
      [apply copy_array_length|apply be_put_length..|].
    rewrite !Uint64_PutUint64 by apply u64_range.
    rewrite !i64_u64 by (done || apply i64_range). by rewrite Time.FromUnix_Unix.
Qed.

End WithLntypes.

(** *** Properties *)

(** C25. A payment address produced by [encodeStatelessData] decodes, with the
    same key, to the amount, the expiry truncated to seconds and the very
    preimage of the invoice; the address is 32 bytes long. *)
Theorem stateless_roundtrip `{Lntypes} `{!LntypesLaws}
  (rand privKey : bytes) (amt : Z) (t : Time)
  (Hamt : is_i64 amt) (Ht : Time.representable t) :
  ∃ addr p,
    encodeStatelessData (Good rand) privKey amt t = Good (addr, p) ∧
    length addr = 32%nat ∧
    decodeStatelessData privKey addr =
      Good (MkStatelessData amt (t / Time.Second * Time.Second) p).
Proof.
  destruct (decode_encode rand privKey amt t Hamt Ht) as (addr & p & ? & ? & _ & ?).
  by exists addr, p.
Qed.

Import RealLntypes.

Lemma stateless_roundtrip_witness :
  ∃ addr p,
    encodeStatelessData (Good (seqZ 0 16)) (seqZ 7 32)
      10000 1666000000123456789 = Good (addr, p) ∧
    length addr = 32%nat ∧
    decodeStatelessData (seqZ 7 32) addr =
      Good (MkStatelessData 10000 1666000000000000000 p).
Proof.
  apply (stateless_roundtrip (seqZ 0 16) (seqZ 7 32) 10000
    1666000000123456789).
  - unfold is_i64. lia.
  - vm_compute. split; congruence.
Defined.

End Stateless.
