(* ===== verification/Persistence.v ===== *)
(** The Postgres persister, [persistence/pg.go], over the schema of
    [persistence/migrations]. A [database] is the pair of tables keyed by their
    primary keys, with the sequence behind [sequence_num]. Each exported method
    runs in one transaction that takes row locks on the invoice, so it is one
    function from the database to a result and the database after commit or
    rollback ([Transactions] justifies this for concurrent calls).

    [fault] is a failure of the connection or of the server, one that has run out
    of the 32-bit numbers of [sequence_num] included: the transaction is then
    rolled back, so that [None] also says that a sequence number was left. A
    connection that breaks after the commit and before its acknowledgement, so
    that the transaction is reported as failed although it is stored, is not
    among the faults. *)

From stdpp Require Import numbers strings sorting base fin_maps gmap list.
From stdpp Require Import options.
From S2P Require Import Prelude Sha256 Types.

Module Pg.

(** Row of [lnmux.invoices]; the primary key [hash] is the map key. *)
Record dbInvoice := MkDbInvoice {
  i_SequenceNum : Z;
  i_Preimage : Preimage;
  i_AmountMsat : Z;
  i_SettleRequestedAt : Time;
  i_FinalizedAt : option Time;
  i_Status : InvoiceStatus
}.

(** Row of [lnmux.htlcs]; the primary key (node, chan_id, htlc_id) is the map
    key. *)
Record dbHtlc := MkDbHtlc {
  h_Hash : Hash;
  h_AmountMsat : Z;
  h_SettleRequestedAt : Time;
  h_FinalizedAt : option Time;
  h_Status : HtlcStatus
}.

Record database := MkDatabase {
  invoices : gmap (list Z) dbInvoice;
  htlcs : gmap HtlcKey dbHtlc;
  next_sequence : Z
}.

Definition empty_database : database := MkDatabase ∅ ∅ 1.

(** The persistence package's [Invoice]. *)
Record Invoice := MkInvoice {
  creation : InvoiceCreationData;
  SequenceNum : Z;
  SettleRequestedAt : Time;
  FinalizedAt : Time;
  Status : InvoiceStatus
}.

(** A TIMESTAMPTZ column has a resolution of one microsecond: PostgreSQL rounds
    what it is given to the nearest one, ties to even. *)
Definition timestamptz (t : Time) : Time :=
  let q := t / 1000 in
  let r := t mod 1000 in
  1000 * (if (r <? 500) || ((r =? 500) && Z.even q) then q else q + 1).

(** A NULL timestamp is read as Go's zero [time.Time], 1 January of year 1. *)
Definition zero_time : Time := - 62135596800 * 10 ^ 9.

Definition unmarshallDbInvoice (invoice : dbInvoice) : Invoice :=
  MkInvoice
    (MkInvoiceCreationData (i_Preimage invoice) (u64 (i_AmountMsat invoice)) (replicate 32 0))
    (i_SequenceNum invoice)
    (i_SettleRequestedAt invoice)
    (default zero_time (i_FinalizedAt invoice))
    (i_Status invoice).

(** [SELECT ... FROM lnmux.htlcs WHERE hash=?], as the map from key to amount
    that [Get] builds. *)
Definition htlcs_of (hash : Hash) (db : database) : gmap HtlcKey Z :=
  omap (λ r, if bool_decide (h_Hash r = hash) then Some (h_AmountMsat r) else None) (htlcs db).

Definition Get (fault : option string) (hash : Hash) (db : database) :
    res (Invoice * gmap HtlcKey Z) :=
  match fault with
  | Some e => Bad (ErrExternal e)
  | None =>
      match invoices db !! hash with
      | None => Bad ErrInvoiceNotFound
      | Some dbInvoice => Good (unmarshallDbInvoice dbInvoice, htlcs_of hash db)
      end
  end.

Definition seq_le (a b : dbInvoice) : Prop := i_SequenceNum a ≤ i_SequenceNum b.

#[global] Instance seq_le_dec a b : Decision (seq_le a b).
Proof. unfold seq_le. apply _. Defined.

Definition GetInvoices (fault : option string) (maxInvoicesCount sequenceStart : Z)
    (db : database) : res (list Invoice) :=
  match fault with
  | Some e => Bad (ErrExternal e)
  | None =>
      let rows := filter (λ r, sequenceStart ≤ i_SequenceNum r) (map_vals (invoices db)) in
      Good (unmarshallDbInvoice <$> take (Z.to_nat maxInvoicesCount) (merge_sort seq_le rows))
  end.

Definition GetPendingHtlcs (fault : option string) (node : bytes) (db : database) :
    res (gset CircuitKey) :=
  match fault with
  | Some e => Bad (ErrExternal e)
  | None =>
      let rows := filter (λ kr, Node kr.1 = node ∧ h_Status kr.2 = HtlcStatusSettleRequested)
                         (map_to_list (htlcs db)) in
      Good (list_to_set ((λ kr, MkCircuitKey (ChanID kr.1) (HtlcID kr.1)) <$> rows))
  end.

(** ** Inserts, with the constraints of the schema *)

(** [sequence_num] is a SERIAL column: its counter is advanced by every insert,
    also by one that is rolled back. *)
Definition bump (db : database) : database :=
  MkDatabase (invoices db) (htlcs db) (next_sequence db + 1).

Definition invoice_row_ok (hash : Hash) (r : dbInvoice) (db : database) : Prop :=
  invoices db !! hash = None ∧
  map_Forall (λ _ r', i_Preimage r' ≠ i_Preimage r) (invoices db) ∧
  length hash = 32%nat ∧ length (i_Preimage r) = 32%nat ∧ 0 < i_AmountMsat r.

#[global] Instance invoice_row_ok_dec hash r db : Decision (invoice_row_ok hash r db).
Proof. unfold invoice_row_ok. apply _. Defined.

Definition insert_invoice (hash : Hash) (r : dbInvoice) (db : database) : res database :=
  if decide (invoice_row_ok hash r db) then
    Good (MkDatabase (<[hash := r]> (invoices db)) (htlcs db) (next_sequence db + 1))
  else Bad (ErrExternal "invoices: constraint violation").

Definition htlc_row_ok (key : HtlcKey) (r : dbHtlc) (db : database) : Prop :=
  htlcs db !! key = None ∧ is_Some (invoices db !! h_Hash r) ∧
  length (h_Hash r) = 32%nat ∧ length (Node key) = 33%nat ∧ 0 < h_AmountMsat r.

#[global] Instance htlc_row_ok_dec key r db : Decision (htlc_row_ok key r db).
Proof. unfold htlc_row_ok. apply _. Defined.

Definition insert_htlc (key : HtlcKey) (r : dbHtlc) (db : database) : res database :=
  if decide (htlc_row_ok key r db) then
    Good (MkDatabase (invoices db) (<[key := r]> (htlcs db)) (next_sequence db))
  else Bad (ErrExternal "htlcs: constraint violation").

(** The loop [for key, amt := range htlcs]. *)
Fixpoint insert_htlcs (now : Time) (hash : Hash) (rows : list (HtlcKey * Z)) (db : database) :
    res database :=
  match rows with
  | [] => Good db
  | (key, amt) :: rows' =>
      match insert_htlc key (MkDbHtlc hash amt (timestamptz now) None HtlcStatusSettleRequested) db with
      | Bad e => Bad (ErrWrap "cannot insert htlc" e)
      | Good db' => insert_htlcs now hash rows' db'
      end
  end.

Section WithLntypes.
Context `{Lntypes}.

Definition RequestSettle (fault : option string) (now : Time) (invoice : InvoiceCreationData)
    (hs : gmap HtlcKey Z) (db : database) : database * option Error :=
  match fault with
  | Some e => (db, Some (ErrExternal e))
  | None =>
      let hash := PreimageHash (PaymentPreimage invoice) in
      let row := MkDbInvoice (next_sequence db) (PaymentPreimage invoice)
                   (i64 (Value invoice)) (timestamptz now) None InvoiceStatusSettleRequested in
      match insert_invoice hash row db with
      | Bad e => (bump db, Some e)
      | Good db1 =>
          match insert_htlcs now hash (map_to_list hs) db1 with
          | Bad e => (bump db, Some e)
          | Good db2 => (db2, None)
          end
      end
  end.

End WithLntypes.

(** ** Finalization *)

Definition getHtlcHash (key : HtlcKey) (db : database) : res Hash :=
  match htlcs db !! key with
  | None => Bad ErrHtlcNotFound
  | Some r => Good (h_Hash r)
  end.

Definition selectInvoiceForUpdate (key : HtlcKey) (db : database) : res (Hash * dbInvoice) :=
  hash ← getHtlcHash key db;
  match invoices db !! hash with
  | None => Bad ErrInvoiceNotFound
  | Some invoice => Good (hash, invoice)
  end.

Definition finalizeHTLC (key : HtlcKey) (settled : bool) (finalizedAt : Time) (db : database) :
    res database :=
  let htlcFinalStatus := if settled then HtlcStatusSettled else HtlcStatusFailed in
  match htlcs db !! key with
  | Some r =>
      if decide (h_Status r = HtlcStatusSettleRequested) then
        Good (MkDatabase (invoices db)
          (<[key := MkDbHtlc (h_Hash r) (h_AmountMsat r) (h_SettleRequestedAt r)
                      (Some (timestamptz finalizedAt)) htlcFinalStatus]> (htlcs db))
          (next_sequence db))
      else Bad ErrHtlcAlreadyFinal
  | None => Bad ErrHtlcAlreadyFinal
  end.

Definition finalizeInvoice (hash : Hash) (settled : bool) (finalizedAt : Time) (db : database) :
    res database :=
  let invoiceFinalStatus := if settled then InvoiceStatusSettled else InvoiceStatusFailed in
  match invoices db !! hash with
  | Some r =>
      if decide (i_Status r = InvoiceStatusSettleRequested) then
        Good (MkDatabase
          (<[hash := MkDbInvoice (i_SequenceNum r) (i_Preimage r) (i_AmountMsat r)
                       (i_SettleRequestedAt r) (Some (timestamptz finalizedAt)) invoiceFinalStatus]>
             (invoices db))
          (htlcs db) (next_sequence db))
      else Bad ErrFinalizationFailed
  | None => Bad ErrFinalizationFailed
  end.

Definition pending_of (hash : Hash) (db : database) : gmap HtlcKey dbHtlc :=
  filter (λ kr, h_Hash kr.2 = hash ∧ h_Status kr.2 = HtlcStatusSettleRequested) (htlcs db).

Definition allHtlcsAreSettled (hash : Hash) (db : database) : bool :=
  bool_decide (size (pending_of hash db) = 0%nat).

(** The body of the transaction of [MarkHtlcFinal]. *)
Definition markHtlcFinal_tx (now : Time) (key : HtlcKey) (settled : bool) (db : database) :
    res (database * option Hash) :=
  '(hash, invoice) ← selectInvoiceForUpdate key db;
  if decide (i_Status invoice = InvoiceStatusSettled) then
    Bad ErrHtlcReceivedButInvoiceAlreadySettled
  else
    db1 ← finalizeHTLC key settled now db;
    if decide (i_Status invoice = InvoiceStatusFailed) then Good (db1, None)
    else if settled && negb (allHtlcsAreSettled hash db1) then Good (db1, None)
    else db2 ← finalizeInvoice hash settled now db1; Good (db2, Some hash).

Definition MarkHtlcFinal (fault : option string) (now : Time) (key : HtlcKey) (settled : bool)
    (db : database) : database * res (option Hash) :=
  match fault with
  | Some e => (db, Bad (ErrExternal e))
  | None =>
      match markHtlcFinal_tx now key settled db with
      | Bad e => (db, Bad e)
      | Good (db', invoiceHash) => (db', Good invoiceHash)
      end
  end.

End Pg.
