(* ===== verification/PersistenceFacts.v ===== *)
(** What the persister guarantees: the effect of each method on the tables, an
    order on databases that every method follows (rows are never removed, final
    rows never change), and the invariant that ties the status of an invoice to
    the statuses of its htlcs. *)

From stdpp Require Import numbers strings sorting base fin_maps gmap list.
From stdpp Require Import options.
From S2P Require Import Prelude Sha256 Types Persistence.

Module PgFacts.
Import Pg.

(** ** Reading *)

Lemma htlcs_of_Some hash db k a :
  htlcs_of hash db !! k = Some a ↔
  ∃ r, htlcs db !! k = Some r ∧ h_Hash r = hash ∧ h_AmountMsat r = a.
Proof.
  unfold htlcs_of. rewrite lookup_omap.
  destruct (htlcs db !! k) as [r|]; simpl; [|naive_solver].
  case_bool_decide; naive_solver.
Qed.

Lemma Get_Good fault hash db inv m :
  Get fault hash db = Good (inv, m) ↔
  fault = None ∧ m = htlcs_of hash db ∧
  ∃ r, invoices db !! hash = Some r ∧ inv = unmarshallDbInvoice r.
Proof. unfold Get. destruct fault, (invoices db !! hash) eqn:?; naive_solver. Qed.

Lemma Get_NotFound hash db :
  Get None hash db = Bad ErrInvoiceNotFound ↔ invoices db !! hash = None.
Proof. unfold Get. destruct (invoices db !! hash); naive_solver. Qed.

(** ** Writing *)

(** The rows [RequestSettle] inserts for a set of htlcs. *)
Definition new_rows (now : Time) (hash : Hash) (hs : gmap HtlcKey Z) : gmap HtlcKey dbHtlc :=
  (λ amt, MkDbHtlc hash amt (timestamptz now) None HtlcStatusSettleRequested) <$> hs.

Lemma insert_htlcs_spec now hash rows db db' :
  NoDup rows.*1 →
  insert_htlcs now hash rows db = Good db' →
  invoices db' = invoices db ∧ next_sequence db' = next_sequence db ∧
  htlcs db' = new_rows now hash (list_to_map rows) ∪ htlcs db ∧
  Forall (λ ka, htlcs db !! ka.1 = None ∧ 0 < ka.2) rows.
Proof.
  revert db. induction rows as [|[k a] rows IH]; intros db Hnd Hins; simpl in *.
  { simplify_eq. unfold new_rows. rewrite fmap_empty, (left_id_L ∅ (∪)). by repeat split. }
  apply NoDup_cons in Hnd as [Hk Hnd].
  unfold insert_htlc in Hins. case_decide as Hok; [|done].
  apply IH in Hins as (Hi & Hs & Hh & Hall); [|done]. simpl in *.
  destruct Hok as (Hnone & _ & _ & _ & Hpos). simpl in Hpos.
  split; [done|]. split; [done|]. split.
  - rewrite Hh. unfold new_rows. rewrite fmap_insert, <- insert_union_l, insert_union_r; [done|].
    rewrite lookup_fmap. apply not_elem_of_list_to_map_1 in Hk. by rewrite Hk.
  - constructor; [done|]. apply Forall_forall. intros [k' a'] Hin.
    rewrite Forall_forall in Hall. specialize (Hall _ Hin) as [Hn ?]; simpl in *.
    split; [|done]. rewrite lookup_insert_None in Hn. tauto.
Qed.

Lemma timestamptz_nearest t : timestamptz t mod 1000 = 0 ∧ Z.abs (timestamptz t - t) ≤ 500.
Proof.
  unfold timestamptz. rewrite Z.mul_comm, Z_mod_mult. split; [done|].
  pose proof (Z.div_mod t 1000 ltac:(lia)). pose proof (Z.mod_pos_bound t 1000 ltac:(lia)).
  destruct (t mod 1000 <? 500) eqn:E1; simpl; [lia|].
  destruct (t mod 1000 =? 500) eqn:E2, (Z.even (t / 1000)); simpl; lia.
Qed.

Section WithLntypes.
Context `{Lntypes}.

Lemma RequestSettle_ok fault now invoice hs db db' :
  RequestSettle fault now invoice hs db = (db', None) →
  fault = None ∧
  invoices db !! PreimageHash (PaymentPreimage invoice) = None ∧
  0 < i64 (Value invoice) ∧
  invoices db' = <[PreimageHash (PaymentPreimage invoice) :=
    MkDbInvoice (next_sequence db) (PaymentPreimage invoice) (i64 (Value invoice)) (timestamptz now) None
      InvoiceStatusSettleRequested]> (invoices db) ∧
  htlcs db' = new_rows now (PreimageHash (PaymentPreimage invoice)) hs ∪ htlcs db ∧
  map_Forall (λ k a, htlcs db !! k = None ∧ 0 < a) hs.
Proof.
  unfold RequestSettle. destruct fault; [done|]. unfold insert_invoice.
  case_decide as Hok; [|done].
  destruct (insert_htlcs _ _ _ _) eqn:Hins; intros ?; simplify_eq.
  apply insert_htlcs_spec in Hins as (Hi & _ & Hh & Hall); [|apply NoDup_fst_map_to_list].
  simpl in *. destruct Hok as (Hnone & _ & _ & _ & Hpos). simpl in Hpos.
  rewrite list_to_map_to_list in Hh. split_and!; try done.
  apply map_Forall_to_list. eapply Forall_impl; [apply Hall|]. by intros [].
Qed.

(** An error of [RequestSettle] leaves both tables as they were. *)
Lemma RequestSettle_err fault now invoice hs db db' e :
  RequestSettle fault now invoice hs db = (db', Some e) →
  invoices db' = invoices db ∧ htlcs db' = htlcs db.
Proof.
  unfold RequestSettle. intros Hrs. repeat case_match; simplify_eq/=; done.
Qed.

(** When no constraint is violated, [RequestSettle] succeeds. *)
Lemma insert_htlcs_Good now hash rows db :
  NoDup rows.*1 → is_Some (invoices db !! hash) → length hash = 32%nat →
  Forall (λ ka, htlcs db !! ka.1 = None ∧ length (Node ka.1) = 33%nat ∧ 0 < ka.2) rows →
  ∃ db', insert_htlcs now hash rows db = Good db'.
Proof.
  revert db. induction rows as [|[k a] rows IH]; intros db Hnd Hi Hlen Hall; simpl; [eauto|].
  apply NoDup_cons in Hnd as [Hk Hnd]. apply Forall_cons in Hall as [(Hn & Hl & Hp) Hall].
  unfold insert_htlc. rewrite decide_True by done. apply IH; simpl; try done.
  apply Forall_forall. intros [k' a'] Hin. rewrite Forall_forall in Hall.
  specialize (Hall _ Hin) as (? & ? & ?); simpl in *. split; [|done].
  rewrite lookup_insert_ne; [done|]. intros ->. apply Hk.
  apply list_elem_of_fmap. by exists (k', a').
Qed.

Lemma RequestSettle_succeeds `{!LntypesLaws} now invoice hs db :
  invoices db !! PreimageHash (PaymentPreimage invoice) = None →
  map_Forall (λ _ r, i_Preimage r ≠ PaymentPreimage invoice) (invoices db) →
  length (PaymentPreimage invoice) = 32%nat → 0 < i64 (Value invoice) →
  map_Forall (λ k a, htlcs db !! k = None ∧ length (Node k) = 33%nat ∧ 0 < a) hs →
  ∃ db', RequestSettle None now invoice hs db = (db', None).
Proof.
  intros Hn Hp Hl Hv Hhs. unfold RequestSettle, insert_invoice.
  rewrite decide_True by (split_and!; [done..|apply PreimageHash_length|done|done]).
  edestruct (insert_htlcs_Good now (PreimageHash (PaymentPreimage invoice)) (map_to_list hs))
    as [db' ->]; [apply NoDup_fst_map_to_list|by simpl; rewrite lookup_insert_eq|
                  apply PreimageHash_length| |by eauto].
  apply map_Forall_to_list in Hhs. eapply Forall_impl; [exact Hhs|]. by intros [].
Qed.

End WithLntypes.

(** A new invoice does not change the htlcs [Get] reads for the others. *)
Lemma htlcs_of_old now hs db db' h h' :
  map_Forall (λ k a, htlcs db !! k = None ∧ 0 < a) hs → h' ≠ h →
  htlcs db' = new_rows now h hs ∪ htlcs db → htlcs_of h' db' = htlcs_of h' db.
Proof.
  intros Hhs Hn Eh. apply map_eq. intros k. apply option_eq. intros a.
  rewrite !htlcs_of_Some, Eh. setoid_rewrite lookup_union_Some_raw.
  unfold new_rows. setoid_rewrite lookup_fmap. split.
  - intros (r & [(a' & Ha & ->)%fmap_Some|[_ Hr]] & Hh' & <-); [by simpl in Hh'|eauto].
  - intros (r & Hr & Hh' & <-). exists r. split; [|done]. right. split; [|done].
    destruct (hs !! k) as [a'|] eqn:E; [|done]. apply Hhs in E as [? _]. congruence.
Qed.

(** ** The order on databases *)

Definition invoice_le (r r' : dbInvoice) : Prop :=
  i_Preimage r' = i_Preimage r ∧ i_AmountMsat r' = i_AmountMsat r ∧
  i_SequenceNum r' = i_SequenceNum r ∧
  (i_Status r ≠ InvoiceStatusSettleRequested → r' = r).

Definition htlc_le (r r' : dbHtlc) : Prop :=
  h_Hash r' = h_Hash r ∧ h_AmountMsat r' = h_AmountMsat r ∧
  (h_Status r ≠ HtlcStatusSettleRequested → r' = r).

Record db_le (db db' : database) : Prop := {
  le_invoices h r : invoices db !! h = Some r →
    ∃ r', invoices db' !! h = Some r' ∧ invoice_le r r';
  le_htlcs k r : htlcs db !! k = Some r →
    ∃ r', htlcs db' !! k = Some r' ∧ htlc_le r r';
  le_frozen h : is_Some (invoices db !! h) → htlcs_of h db' = htlcs_of h db
}.

#[global] Instance db_le_preorder : PreOrder db_le.
Proof.
  split.
  - intros db. split; [intros ? r Hr; exists r; repeat split; done..|done].
  - intros a b c [Hi Hh Hf] [Hi' Hh' Hf']. split.
    + intros h r (r1 & Hr1 & E1 & E2 & E3 & E4)%Hi.
      apply Hi' in Hr1 as (r2 & Hr2 & F1 & F2 & F3 & F4).
      exists r2. split; [done|]. repeat split; try congruence.
      intros Hs. rewrite F4; [by apply E4|]. by rewrite E4.
    + intros k r (r1 & Hr1 & E1 & E2 & E3)%Hh.
      apply Hh' in Hr1 as (r2 & Hr2 & F1 & F2 & F3).
      exists r2. split; [done|]. repeat split; try congruence.
      intros Hs. rewrite F3; [by apply E3|]. by rewrite E3.
    + intros h [r Hr]. rewrite Hf'; [|apply Hi in Hr as (? & ? & _); eauto].
      apply Hf. eauto.
Qed.

Lemma db_le_same db db' :
  invoices db' = invoices db → htlcs db' = htlcs db → db_le db db'.
Proof.
  intros E1 E2. split.
  - rewrite E1. intros ? r Hr; exists r; repeat split; done.
  - rewrite E2. intros ? r Hr; exists r; repeat split; done.
  - intros h _. unfold htlcs_of. by rewrite E2.
Qed.

Lemma db_le_RequestSettle `{Lntypes} fault now invoice hs db db' o :
  RequestSettle fault now invoice hs db = (db', o) → db_le db db'.
Proof.
  destruct o as [e|]; intros Hrs.
  - apply RequestSettle_err in Hrs as [??]. by apply db_le_same.
  - apply RequestSettle_ok in Hrs as (_ & Hnone & _ & Ei & Eh & Hhs). split.
    + intros h r Hr. exists r. rewrite Ei, lookup_insert_ne by congruence.
      by repeat split.
    + intros k r Hr. exists r. rewrite Eh, lookup_union_r; [by repeat split|].
      unfold new_rows. rewrite lookup_fmap.
      destruct (hs !! k) as [a|] eqn:E; [|done]. apply Hhs in E as [? _]. congruence.
    + intros h [r Hr]. eapply htlcs_of_old; [done| |done]. congruence.
Qed.

Lemma selectInvoice_Good key db hash invoice :
  selectInvoiceForUpdate key db = Good (hash, invoice) ↔
  ∃ r, htlcs db !! key = Some r ∧ h_Hash r = hash ∧ invoices db !! hash = Some invoice.
Proof.
  unfold selectInvoiceForUpdate, getHtlcHash, mbind, result_bind.
  destruct (htlcs db !! key) as [r|]; [|naive_solver].
  destruct (invoices db !! h_Hash r) eqn:E; naive_solver.
Qed.

(** The row of an htlc and of an invoice after finalization. *)
Definition final_htlc (settled : bool) (now : Time) (r : dbHtlc) : dbHtlc :=
  MkDbHtlc (h_Hash r) (h_AmountMsat r) (h_SettleRequestedAt r) (Some (timestamptz now))
    (if settled then HtlcStatusSettled else HtlcStatusFailed).

Definition final_invoice (settled : bool) (now : Time) (r : dbInvoice) : dbInvoice :=
  MkDbInvoice (i_SequenceNum r) (i_Preimage r) (i_AmountMsat r) (i_SettleRequestedAt r)
    (Some (timestamptz now)) (if settled then InvoiceStatusSettled else InvoiceStatusFailed).

(** Every way the transaction of [MarkHtlcFinal] can commit. *)
Lemma markHtlcFinal_Good now key settled db db' o :
  markHtlcFinal_tx now key settled db = Good (db', o) →
  ∃ r inv,
    htlcs db !! key = Some r ∧ invoices db !! h_Hash r = Some inv ∧
    h_Status r = HtlcStatusSettleRequested ∧ i_Status inv ≠ InvoiceStatusSettled ∧
    htlcs db' = <[key := final_htlc settled now r]> (htlcs db) ∧
    ((o = None ∧ invoices db' = invoices db ∧
      (i_Status inv = InvoiceStatusFailed ∨
       (i_Status inv = InvoiceStatusSettleRequested ∧ settled = true ∧
        allHtlcsAreSettled (h_Hash r) db' = false))) ∨
     (o = Some (h_Hash r) ∧ i_Status inv = InvoiceStatusSettleRequested ∧
      invoices db' = <[h_Hash r := final_invoice settled now inv]> (invoices db) ∧
      (settled = true → allHtlcsAreSettled (h_Hash r) db' = true))).
Proof.
  unfold markHtlcFinal_tx, mbind, result_bind. intros Hm.
  destruct (selectInvoiceForUpdate key db) as [[hash inv]|] eqn:Hsel; [|done].
  apply selectInvoice_Good in Hsel as (r & Hr & <- & Hinv).
  case_decide as Hst; [done|]. unfold finalizeHTLC in Hm. rewrite Hr in Hm.
  case_decide as Hsr; [|done]. exists r, inv.
  destruct (i_Status inv) eqn:Ei; simpl in Hm; [|done|].
  - destruct settled; simpl in Hm.
    + destruct (allHtlcsAreSettled _ _) eqn:Hall; simpl in Hm.
      * unfold finalizeInvoice in Hm; simpl in Hm. rewrite Hinv in Hm.
        rewrite decide_True in Hm by done. simplify_eq/=. split_and!; try done.
        right. split_and!; auto.
      * simplify_eq/=. split_and!; try done. left. split_and!; try done.
        right. split_and!; done.
    + unfold finalizeInvoice in Hm; simpl in Hm. rewrite Hinv in Hm.
      rewrite decide_True in Hm by done. simplify_eq/=. split_and!; try done.
      right. split_and!; done.
  - simplify_eq/=. split_and!; try done. left. split_and!; auto.
Qed.

Lemma MarkHtlcFinal_cases fault now key settled db db' o :
  MarkHtlcFinal fault now key settled db = (db', o) →
  (db' = db ∧ ∃ e, o = Bad e) ∨
  (∃ h, o = Good h ∧ markHtlcFinal_tx now key settled db = Good (db', h)).
Proof.
  unfold MarkHtlcFinal. destruct fault; [naive_solver|].
  destruct (markHtlcFinal_tx _ _ _ _) as [[??]|]; naive_solver.
Qed.

(** Finalization changes neither the htlcs of an invoice nor their amounts. *)
Lemma htlcs_of_MarkHtlcFinal fault now key settled db db' o h :
  MarkHtlcFinal fault now key settled db = (db', o) → htlcs_of h db' = htlcs_of h db.
Proof.
  intros [[-> _]|(o' & _ & Htx)]%MarkHtlcFinal_cases; [done|].
  apply markHtlcFinal_Good in Htx as (r & inv & Hr & _ & _ & _ & Eh & _).
  unfold htlcs_of. rewrite Eh. apply map_eq. intros k. rewrite !lookup_omap.
  destruct (decide (k = key)) as [->|].
  - by rewrite lookup_insert_eq, Hr.
  - by rewrite lookup_insert_ne.
Qed.

Lemma db_le_MarkHtlcFinal fault now key settled db db' o :
  MarkHtlcFinal fault now key settled db = (db', o) → db_le db db'.
Proof.
  intros Hm. pose proof (λ h, htlcs_of_MarkHtlcFinal _ _ _ _ _ _ _ h Hm) as Hfr. revert Hm.
  intros [[-> _]|(h & _ & Htx)]%MarkHtlcFinal_cases; [done|].
  apply markHtlcFinal_Good in Htx as (r & inv & Hr & Hinv & Hsr & Hns & Hh & Hcases).
  split; [| |by intros h' _].
  - intros h' r' Hr'.
    destruct Hcases as [(_ & -> & _)|(_ & Hst & -> & _)]; [by exists r'|].
    destruct (decide (h' = h_Hash r)) as [->|].
    + rewrite lookup_insert_eq. simplify_eq. eexists; split; [done|].
      split_and!; try done.
    + rewrite lookup_insert_ne by done. by exists r'.
  - intros k r' Hr'. rewrite Hh. destruct (decide (k = key)) as [->|].
    + rewrite lookup_insert_eq. simplify_eq. eexists; split; [done|]. split_and!; done.
    + rewrite lookup_insert_ne by done. by exists r'.
Qed.

(** ** The status invariant *)

Definition all_htlcs (db : database) (h : Hash) (P : dbHtlc → Prop) : Prop :=
  ∀ k r, htlcs db !! k = Some r → h_Hash r = h → P r.

Definition some_htlc (db : database) (h : Hash) (P : dbHtlc → Prop) : Prop :=
  ∃ k r, htlcs db !! k = Some r ∧ h_Hash r = h ∧ P r.

Definition htlc_failed (r : dbHtlc) : Prop := h_Status r = HtlcStatusFailed.
Definition htlc_settled (r : dbHtlc) : Prop := h_Status r = HtlcStatusSettled.
Definition htlc_pending (r : dbHtlc) : Prop := h_Status r = HtlcStatusSettleRequested.

Definition status_ok (db : database) (h : Hash) (s : InvoiceStatus) : Prop :=
  match s with
  | InvoiceStatusSettleRequested =>
      all_htlcs db h (λ r, ¬ htlc_failed r) ∧ some_htlc db h htlc_pending
  | InvoiceStatusSettled => all_htlcs db h htlc_settled ∧ some_htlc db h (λ _, True)
  | InvoiceStatusFailed => some_htlc db h htlc_failed
  end.

Record consistent (db : database) : Prop := {
  c_fk k r : htlcs db !! k = Some r → is_Some (invoices db !! h_Hash r);
  c_status h inv : invoices db !! h = Some inv → status_ok db h (i_Status inv);
  c_final h inv : invoices db !! h = Some inv →
    (i_FinalizedAt inv = None ↔ i_Status inv = InvoiceStatusSettleRequested)
}.

Lemma status_ok_ext db db' h s :
  (∀ k r, h_Hash r = h → htlcs db' !! k = Some r ↔ htlcs db !! k = Some r) →
  status_ok db h s → status_ok db' h s.
Proof.
  intros E. unfold status_ok, all_htlcs, some_htlc. destruct s; naive_solver.
Qed.

Lemma consistent_empty : consistent empty_database.
Proof. by split; simpl; intros ??; rewrite lookup_empty. Qed.

Lemma consistent_same db db' :
  invoices db' = invoices db → htlcs db' = htlcs db → consistent db → consistent db'.
Proof.
  intros Ei Eh [Hfk Hst Hfin]. split.
  - intros k r. rewrite Eh, Ei. apply Hfk.
  - intros h inv. rewrite Ei. intros Hi. eapply status_ok_ext; [|by apply Hst].
    intros. by rewrite Eh.
  - intros h inv. rewrite Ei. apply Hfin.
Qed.

Lemma consistent_RequestSettle `{Lntypes} fault now invoice hs db db' o :
  hs ≠ ∅ → consistent db →
  RequestSettle fault now invoice hs db = (db', o) → consistent db'.
Proof.
  intros Hne Hc Hrs. destruct o as [e|].
  { apply RequestSettle_err in Hrs as [Ei Eh]. by apply (consistent_same db). }
  apply RequestSettle_ok in Hrs as (_ & Hnone & _ & Ei & Eh & Hhs).
  set (H0 := PreimageHash (PaymentPreimage invoice)) in *.
  assert (Hnew : ∀ k r, htlcs db' !! k = Some r ↔
    (∃ a, hs !! k = Some a ∧ r = MkDbHtlc H0 a (timestamptz now) None HtlcStatusSettleRequested) ∨
    (htlcs db !! k = Some r ∧ hs !! k = None)).
  { intros k r. rewrite Eh, lookup_union_Some_raw. unfold new_rows.
    rewrite lookup_fmap, fmap_Some, fmap_None. naive_solver. }
  destruct Hc as [Hfk Hst Hfin]. split.
  - intros k r [(a & _ & ->)|[Hr _]]%Hnew; rewrite Ei; simpl.
    + rewrite lookup_insert_eq. eauto.
    + destruct (decide (H0 = h_Hash r)) as [->|]; [rewrite lookup_insert_eq; eauto|].
      rewrite lookup_insert_ne by done. eauto.
  - intros h inv. rewrite Ei. destruct (decide (h = H0)) as [->|Hn].
    + rewrite lookup_insert_eq. intros [= <-]; simpl. split.
      * intros k r [(a & _ & ->)|[Hr _]]%Hnew Hh; [done|].
        apply Hfk in Hr. rewrite Hh, Hnone in Hr. by destruct Hr.
      * apply map_choose in Hne as (k & a & Hka). eexists k, _.
        rewrite Hnew. split; [left; eauto|]. done.
    + rewrite lookup_insert_ne by done. intros Hi. eapply status_ok_ext; [|by apply Hst].
      intros k r Hh. rewrite Hnew. split.
      * intros [(a & _ & ->)|[Hr _]]; [by simpl in Hh|done].
      * intros Hr. right. split; [done|].
        destruct (hs !! k) as [a|] eqn:E; [|done]. apply Hhs in E as [? _]. congruence.
  - intros h inv. rewrite Ei. rewrite lookup_insert_Some.
    intros [[_ <-]|[_ Hi]]; [done|eauto].
Qed.

Lemma allHtlcsAreSettled_spec h db :
  allHtlcsAreSettled h db = true ↔ all_htlcs db h (λ r, ¬ htlc_pending r).
Proof.
  unfold allHtlcsAreSettled, pending_of. rewrite bool_decide_eq_true, map_size_empty_iff.
  unfold all_htlcs, htlc_pending. split.
  - intros Hf k r Hr Hh Hs.
    apply (lookup_empty_Some (M := gmap HtlcKey) k r). rewrite <- Hf.
    by apply map_lookup_filter_Some.
  - intros Hall. apply map_empty. intros k. apply eq_None_not_Some.
    intros [r [Hr [Hh Hs]]%map_lookup_filter_Some]. by apply (Hall k r).
Qed.

Lemma allHtlcsAreSettled_false h db :
  allHtlcsAreSettled h db = false → some_htlc db h htlc_pending.
Proof.
  unfold allHtlcsAreSettled, pending_of. rewrite bool_decide_eq_false, map_size_empty_iff.
  intros (k & r & [Hk [Hh Hs]]%map_lookup_filter_Some)%map_choose. by exists k, r.
Qed.

(** An htlc row changed in place: what the quantified statements become. *)
Lemma all_htlcs_insert db db' key r' h (P : dbHtlc → Prop) :
  htlcs db' = <[key := r']> (htlcs db) → all_htlcs db h P → (h_Hash r' = h → P r') →
  all_htlcs db' h P.
Proof.
  intros E Hall Hp k r. rewrite E, lookup_insert_Some. intros [[<- <-]|[_ Hr]]; eauto.
Qed.

Lemma some_htlc_insert db db' key r' h (P : dbHtlc → Prop) :
  htlcs db' = <[key := r']> (htlcs db) → h_Hash r' = h → P r' → some_htlc db' h P.
Proof. intros E Hh Hp. exists key, r'. by rewrite E, lookup_insert_eq. Qed.

Lemma some_htlc_keep db db' key r r' h (P : dbHtlc → Prop) :
  htlcs db' = <[key := r']> (htlcs db) → htlcs db !! key = Some r → (P r → P r') →
  h_Hash r' = h_Hash r → some_htlc db h P → some_htlc db' h P.
Proof.
  intros E Hr Hp Hhash (k & x & Hx & Hh & HP). destruct (decide (k = key)) as [->|].
  - exists key, r'. rewrite E, lookup_insert_eq. naive_solver.
  - exists k, x. by rewrite E, lookup_insert_ne.
Qed.

Lemma consistent_MarkHtlcFinal fault now key settled db db' o :
  consistent db → MarkHtlcFinal fault now key settled db = (db', o) → consistent db'.
Proof.
  intros Hc [[-> _]|(h & _ & Htx)]%MarkHtlcFinal_cases; [done|].
  apply markHtlcFinal_Good in Htx as (r & inv & Hr & Hinv & Hsr & Hns & Eh & Hcases).
  destruct Hc as [Hfk Hst Hfin].
  assert (Hother : ∀ h' s, h' ≠ h_Hash r → status_ok db h' s → status_ok db' h' s).
  { intros h' s Hn. apply status_ok_ext. intros k x Hx.
    rewrite Eh, lookup_insert_Some. split; [naive_solver|].
    intros Hk. right. split; [|done]. intros <-. congruence. }
  assert (Hfk' : ∀ m : gmap (list Z) dbInvoice, (∀ h', is_Some (invoices db !! h') → is_Some (m !! h')) →
    ∀ k x, htlcs db' !! k = Some x → is_Some (m !! h_Hash x)).
  { intros m Hm k x. rewrite Eh, lookup_insert_Some.
    intros [[<- <-]|[_ Hx]]; simpl; eauto. }
  pose proof (Hst _ _ Hinv) as Hok.
  destruct Hcases as [(-> & Ei & Hwhy)|(-> & Hs & Ei & Hall)].
  - split.
    + rewrite Ei. by apply Hfk'.
    + intros h' inv'. rewrite Ei. intros Hi'.
      destruct (decide (h' = h_Hash r)) as [->|]; [|by apply Hother, Hst].
      simplify_eq. destruct Hwhy as [Hf|(Hs & -> & Hpend)]; rewrite ?Hf, ?Hs in *; simpl in *.
      * eapply some_htlc_keep; [done..| |done|done]. unfold htlc_failed. congruence.
      * destruct Hok as [Hok _]. split; [|by apply allHtlcsAreSettled_false].
        eapply all_htlcs_insert; [done|done|]. done.
    + intros h' inv'. rewrite Ei. eauto.
  - split.
    + rewrite Ei. apply Hfk'. intros h'. destruct (decide (h' = h_Hash r)) as [->|].
      * rewrite lookup_insert_eq. eauto.
      * by rewrite lookup_insert_ne.
    + intros h' inv'. rewrite Ei, lookup_insert_Some.
      intros [[<- <-]|[Hn Hi']]; [|by apply Hother, Hst]. rewrite Hs in Hok. simpl in *.
      destruct settled; simpl.
      * destruct Hok as [Hnf _]. specialize (Hall eq_refl).
        apply allHtlcsAreSettled_spec in Hall. split; [|by eapply some_htlc_insert].
        intros k x Hx Hh. specialize (Hall k x Hx Hh).
        assert (¬ htlc_failed x).
        { revert Hx. rewrite Eh, lookup_insert_Some. intros [[_ <-]|[_ Hx]]; [done|eauto]. }
        unfold htlc_settled, htlc_failed, htlc_pending in *. by destruct (h_Status x).
      * by eapply some_htlc_insert.
    + intros h' inv'. rewrite Ei, lookup_insert_Some.
      intros [[<- <-]|[_ Hi']]; [|eauto]. by destruct settled.
Qed.

(** The htlcs [Get] reads for the stored invoice and for the others. *)
Lemma htlcs_of_new now hs db db' h :
  consistent db → invoices db !! h = None → htlcs db' = new_rows now h hs ∪ htlcs db →
  htlcs_of h db' = hs.
Proof.
  intros Hc Hnone Eh. apply map_eq. intros k. apply option_eq. intros a.
  rewrite htlcs_of_Some, Eh. setoid_rewrite lookup_union_Some_raw.
  unfold new_rows. setoid_rewrite lookup_fmap. split.
  - intros (r & [(a' & Ha & ->)%fmap_Some|[_ Hr]] & Hh & <-); [done|].
    apply (c_fk _ Hc) in Hr. rewrite Hh, Hnone in Hr. by destruct Hr.
  - intros Ha. eexists. split; [left; by rewrite Ha|done].
Qed.

(** ** Sequences of transactions *)

Section Runs.
Context `{Lntypes}.

Inductive call :=
  | CallRequestSettle (fault : option string) (now : Time) (invoice : InvoiceCreationData)
      (hs : gmap HtlcKey Z)
  | CallMarkHtlcFinal (fault : option string) (now : Time) (key : HtlcKey) (settled : bool).

(** The registry only stores sets with at least one htlc. *)
Definition call_ok (c : call) : Prop :=
  match c with CallRequestSettle _ _ _ hs => hs ≠ ∅ | _ => True end.

(** The database after one call and the invoice hash it reports as final. *)
Definition do_call (c : call) (db : database) : database * option Hash :=
  match c with
  | CallRequestSettle fault now invoice hs => ((RequestSettle fault now invoice hs db).1, None)
  | CallMarkHtlcFinal fault now key settled =>
      let '(db', o) := MarkHtlcFinal fault now key settled db in
      (db', match o with Good h => h | Bad _ => None end)
  end.

Fixpoint run_calls (cs : list call) (db : database) : database * list Hash :=
  match cs with
  | [] => (db, [])
  | c :: cs' =>
      let '(db1, o) := do_call c db in
      let '(db2, outs) := run_calls cs' db1 in
      (db2, option_list o ++ outs)
  end.

Lemma run_calls_consistent cs db :
  Forall call_ok cs → consistent db → consistent (run_calls cs db).1.
Proof.
  intros Hcs. revert db. induction Hcs as [|c cs Hc _ IH]; intros db Hdb; simpl; [done|].
  destruct (do_call c db) as [db1 o] eqn:E. destruct (run_calls cs db1) as [db2 outs] eqn:E2.
  replace db2 with (run_calls cs db1).1 by (by rewrite E2). apply IH.
  destruct c as [f now inv hs|f now key st]; simpl in *.
  - destruct (RequestSettle f now inv hs db) eqn:E3. simplify_eq/=.
    by eapply consistent_RequestSettle.
  - destruct (MarkHtlcFinal f now key st db) eqn:E3. simplify_eq/=.
    by eapply consistent_MarkHtlcFinal.
Qed.

(** Whether the invoice is stored with a final status. *)
Definition is_final_in (db : database) (h : Hash) : bool :=
  match invoices db !! h with Some inv => IsFinal (i_Status inv) | None => false end.

Definition count_hash (h : Hash) (l : list Hash) : nat := length (filter (h =.) l).

Lemma do_call_final c db h :
  (Nat.b2n (is_final_in db h) + count_hash h (option_list (do_call c db).2))%nat =
  Nat.b2n (is_final_in (do_call c db).1 h).
Proof.
  destruct c as [f now inv hs|f now key st]; simpl; unfold is_final_in, count_hash.
  - destruct (RequestSettle f now inv hs db) as [db' [e|]] eqn:E; simpl.
    + apply RequestSettle_err in E as [-> _]. lia.
    + apply RequestSettle_ok in E as (_ & Hn & _ & -> & _).
      destruct (decide (h = PreimageHash (PaymentPreimage inv))) as [->|].
      * by rewrite Hn, lookup_insert_eq.
      * rewrite lookup_insert_ne by done. lia.
  - destruct (MarkHtlcFinal f now key st db) as [db' o] eqn:E; simpl.
    apply MarkHtlcFinal_cases in E as [[-> [e ->]]|(o' & -> & Htx)]; simpl; [lia|].
    apply markHtlcFinal_Good in Htx as (r & inv & Hr & Hi & _ & _ & _ & Hc).
    destruct Hc as [(-> & -> & _)|(-> & Hs & -> & _)]; simpl; [lia|].
    rewrite filter_cons. case_decide as Hh; simpl.
    + subst h. rewrite lookup_insert_eq, Hi. unfold IsFinal. rewrite Hs. by destruct st.
    + rewrite lookup_insert_ne by done. lia.
Qed.

Lemma run_calls_final cs db h :
  (Nat.b2n (is_final_in db h) + count_hash h (run_calls cs db).2)%nat =
  Nat.b2n (is_final_in (run_calls cs db).1 h).
Proof.
  revert db. induction cs as [|c cs IH]; intros db; simpl; [unfold count_hash; simpl; lia|].
  pose proof (do_call_final c db h) as Hc. destruct (do_call c db) as [db1 o].
  specialize (IH db1). destruct (run_calls cs db1) as [db2 outs]; simpl in *.
  unfold count_hash in *. rewrite filter_app, length_app. lia.
Qed.

End Runs.

(** *** Properties *)

(** C19. In every database produced by the persister, the status of an invoice
    says exactly what happened to its htlcs: SETTLED iff all of them settled,
    FAILED iff at least one failed, SETTLE_REQUESTED iff none failed and one is
    still pending; [finalized_at] is NULL exactly in the last case. In
    particular the count in [allHtlcsAreSettled], which looks for pending htlcs
    only, is the right test. *)
Theorem invoice_status_reflects_htlcs `{Lntypes} (cs : list call) (Hcs : Forall call_ok cs)
  (h : Hash) (inv : dbInvoice) (db : database) (Hdb : db = (run_calls cs empty_database).1)
  (Hinv : invoices db !! h = Some inv) :
  (i_Status inv = InvoiceStatusSettled ↔ all_htlcs db h htlc_settled) ∧
  (i_Status inv = InvoiceStatusFailed ↔ some_htlc db h htlc_failed) ∧
  (i_Status inv = InvoiceStatusSettleRequested ↔
     all_htlcs db h (λ r, ¬ htlc_failed r) ∧ some_htlc db h htlc_pending) ∧
  (i_FinalizedAt inv = None ↔ i_Status inv = InvoiceStatusSettleRequested).
Proof.
  assert (Hc : consistent db) by (subst; by apply run_calls_consistent, consistent_empty).
  pose proof (c_status _ Hc _ _ Hinv) as Hst. pose proof (c_final _ Hc _ _ Hinv) as Hfin.
  unfold status_ok, all_htlcs, some_htlc, htlc_settled, htlc_failed, htlc_pending in *.
  destruct (i_Status inv).
  - destruct Hst as [Hnf (k & r & Hr & Hh & Hp)]. split_and!; try done; split; eauto 10; try done.
    + intros Ha. specialize (Ha k r Hr Hh). congruence.
    + intros (k' & r' & Hr' & Hh' & Hf). by destruct (Hnf k' r' Hr' Hh').
  - destruct Hst as [Ha (k & r & Hr & Hh & _)]. split_and!; try done; split; eauto 10; try done.
    + intros (k' & r' & Hr' & Hh' & Hf). specialize (Ha k' r' Hr' Hh'). congruence.
    + intros [_ (k' & r' & Hr' & Hh' & Hf)]. specialize (Ha k' r' Hr' Hh'). congruence.
  - destruct Hst as (k & r & Hr & Hh & Hf). split_and!; try done; split; eauto 10; try done.
    + intros Ha. specialize (Ha k r Hr Hh). congruence.
    + intros [Hnf _]. by destruct (Hnf k r Hr Hh).
Qed.

(** C20. Exactly-once final notification: over any sequence of settle requests
    and final htlc resolutions, [MarkHtlcFinal] returns the hash of an invoice
    once if the invoice ends up SETTLED or FAILED, and never otherwise, whatever
    the order and repetition of the resolutions. *)
Theorem final_hash_reported_once `{Lntypes} (cs : list call) (h : Hash) :
  count_hash h (run_calls cs empty_database).2 =
  if is_final_in (run_calls cs empty_database).1 h then 1%nat else 0%nat.
Proof.
  pose proof (run_calls_final cs empty_database h) as Hr.
  replace (is_final_in empty_database h) with false in Hr by done.
  destruct (is_final_in (run_calls cs empty_database).1 h); simpl in *; lia.
Qed.

(** C22. What [RequestSettle] stores, [Get] returns: the invoice with its
    preimage and amount, status SETTLE_REQUESTED, not finalized, the time of the
    request to the nearest microsecond, and exactly the htlcs of the set with
    their amounts; every other invoice reads as before. *)
Theorem RequestSettle_Get `{Lntypes} (now : Time) (invoice : InvoiceCreationData)
  (hs : gmap HtlcKey Z) (db db' : database) (Hc : consistent db) (Hv : is_u64 (Value invoice))
  (Hrs : RequestSettle None now invoice hs db = (db', None)) :
  (∃ inv, Get None (PreimageHash (PaymentPreimage invoice)) db' = Good (inv, hs) ∧
     PaymentPreimage (creation inv) = PaymentPreimage invoice ∧
     Value (creation inv) = Value invoice ∧
     Status inv = InvoiceStatusSettleRequested ∧ FinalizedAt inv = zero_time ∧
     SettleRequestedAt inv mod 1000 = 0 ∧ Z.abs (SettleRequestedAt inv - now) ≤ 500) ∧
  (∀ h, h ≠ PreimageHash (PaymentPreimage invoice) → Get None h db' = Get None h db).
Proof.
  apply RequestSettle_ok in Hrs as (_ & Hnone & _ & Ei & Eh & Hhs).
  set (H0 := PreimageHash (PaymentPreimage invoice)) in *. split.
  - eexists. unfold Get. rewrite Ei, lookup_insert_eq.
    rewrite (htlcs_of_new now hs db db') by done. split; [done|].
    split_and!; try done; [by apply u64_i64|apply timestamptz_nearest..].
  - intros h Hh. unfold Get. rewrite Ei, lookup_insert_ne by done.
    by rewrite (htlcs_of_old now hs db db' H0).
Qed.

(** Every outcome of [MarkHtlcFinal] on a consistent database. *)
Lemma markHtlcFinal_spec (now : Time) (key : HtlcKey) (settled : bool) (db : database)
  (Hc : consistent db) :
  match MarkHtlcFinal None now key settled db with
  | (_, Good _) => ∃ r, htlcs db !! key = Some r ∧ htlc_pending r
  | (db', Bad e) => db' = db ∧
      ((e = ErrHtlcNotFound ∧ htlcs db !! key = None) ∨
       (∃ r inv, htlcs db !! key = Some r ∧ invoices db !! h_Hash r = Some inv ∧
          ¬ htlc_pending r ∧
          ((e = ErrHtlcReceivedButInvoiceAlreadySettled ∧
              i_Status inv = InvoiceStatusSettled) ∨
           (e = ErrHtlcAlreadyFinal ∧ i_Status inv ≠ InvoiceStatusSettled))))
  end.
Proof.
  unfold MarkHtlcFinal.
  destruct (markHtlcFinal_tx now key settled db) as [[db' o]|e] eqn:Htx.
  { apply markHtlcFinal_Good in Htx as (r & inv & Hr & _ & Hs & _). by exists r. }
  split; [done|]. revert Htx.
  unfold markHtlcFinal_tx, selectInvoiceForUpdate, getHtlcHash, mbind, result_bind.
  destruct (htlcs db !! key) as [r|] eqn:Hr; [|intros [= <-]; by left].
  destruct (c_fk _ Hc _ _ Hr) as [inv Hinv]. rewrite Hinv. intros Htx. right. exists r, inv.
  split; [done|]. split; [done|]. revert Htx. pose proof (c_status _ Hc _ _ Hinv) as Hst.
  case_decide as Es.
  { rewrite Es in Hst. destruct Hst as [Ha _]. specialize (Ha _ _ Hr eq_refl).
    intros [= <-]. split; [|by left]. unfold htlc_pending, htlc_settled in *. congruence. }
  unfold finalizeHTLC. rewrite Hr. case_decide as Hp.
  - unfold finalizeInvoice; simpl. rewrite Hinv.
    repeat case_decide; repeat case_match; try done; by destruct (i_Status inv).
  - intros [= <-]. split; [done|]. by right.
Qed.

(** A finalized htlc is no longer pending, whatever the outcome. *)
Lemma markHtlcFinal_done now key settled db db' o r :
  consistent db → MarkHtlcFinal None now key settled db = (db', o) →
  htlcs db' !! key = Some r → ¬ htlc_pending r.
Proof.
  intros Hc Hm Hr. pose proof (markHtlcFinal_spec now key settled db Hc) as Hs.
  rewrite Hm in Hs. destruct o as [h|e].
  - apply MarkHtlcFinal_cases in Hm as [[_ [e [=]]]|(h' & _ & Htx)].
    apply markHtlcFinal_Good in Htx as (r0 & inv & _ & _ & _ & _ & Eh & _).
    rewrite Eh, lookup_insert_eq in Hr. simplify_eq. unfold htlc_pending. by destruct settled.
  - destruct Hs as [-> [[_ Hn]|(r' & inv & Hr' & _ & Hp & _)]]; [congruence|]. by simplify_eq.
Qed.

(** C21. The errors of [MarkHtlcFinal], on a database the persister produced and
    with a working connection: it succeeds exactly on a stored, still pending
    htlc; otherwise the htlc is unknown, or its invoice is settled, or the htlc
    itself is final. [ErrFinalizationFailed] and [ErrInvoiceNotFound] cannot
    occur, and an error changes nothing. *)
Theorem MarkHtlcFinal_outcomes (now : Time) (key : HtlcKey) (settled : bool) (db : database)
  (Hc : consistent db) :
  match MarkHtlcFinal None now key settled db with
  | (_, Good _) => ∃ r, htlcs db !! key = Some r ∧ htlc_pending r
  | (db', Bad e) => db' = db ∧
      ((e = ErrHtlcNotFound ∧ htlcs db !! key = None) ∨
       (∃ r inv, htlcs db !! key = Some r ∧ invoices db !! h_Hash r = Some inv ∧
          ¬ htlc_pending r ∧
          ((e = ErrHtlcReceivedButInvoiceAlreadySettled ∧
              i_Status inv = InvoiceStatusSettled) ∨
           (e = ErrHtlcAlreadyFinal ∧ i_Status inv ≠ InvoiceStatusSettled))))
  end.
Proof. by apply markHtlcFinal_spec. Qed.

(** ** A concrete run: the invoice of [TestSettleInvoice] in [pg_test.go] *)

Module Example.
Import RealLntypes.

Definition pre : Preimage := 1 :: replicate 31 0.
Definition node : bytes := 1 :: replicate 32 0.
Definition k1 : HtlcKey := MkHtlcKey node 10 11.
Definition k2 : HtlcKey := MkHtlcKey node 11 12.
Definition inv : InvoiceCreationData := MkInvoiceCreationData pre 100 (2 :: replicate 31 0).
Definition hs : gmap HtlcKey Z := {[k1 := 70; k2 := 30]}.
Definition calls : list call :=
  [CallRequestSettle None 1 inv hs; CallMarkHtlcFinal None 5 k1 true;
   CallMarkHtlcFinal None 6 k2 true].
Definition after : database := (run_calls calls empty_database).1.
Definition requested : database := (RequestSettle None 1 inv hs empty_database).1.

Lemma hs_nonempty : hs ≠ ∅.
Proof. intros E. apply (f_equal (.!! k1)) in E. vm_compute in E. done. Qed.

Lemma invoice_status_reflects_htlcs_witness :
  ∃ r, invoices after !! PreimageHash pre = Some r ∧
  (i_Status r = InvoiceStatusSettled ↔ all_htlcs after (PreimageHash pre) htlc_settled) ∧
  (i_Status r = InvoiceStatusFailed ↔ some_htlc after (PreimageHash pre) htlc_failed) ∧
  (i_Status r = InvoiceStatusSettleRequested ↔
     all_htlcs after (PreimageHash pre) (λ r, ¬ htlc_failed r) ∧
     some_htlc after (PreimageHash pre) htlc_pending) ∧
  (i_FinalizedAt r = None ↔ i_Status r = InvoiceStatusSettleRequested).
Proof.
  exists (MkDbInvoice 1 pre 100 0 (Some 0) InvoiceStatusSettled).
  split; [vm_compute; reflexivity|].
  apply (invoice_status_reflects_htlcs calls).
  - apply Forall_cons; split; [exact hs_nonempty|]. repeat constructor.
  - reflexivity.
  - vm_compute. reflexivity.
Defined.

Lemma RequestSettle_Get_witness :
  timestamptz 1700000000123456789 = 1700000000123457000 ∧
  ∃ i, Get None (PreimageHash pre) (RequestSettle None 1700000000123456789 inv hs empty_database).1 = Good (i, hs) ∧
     PaymentPreimage (creation i) = pre ∧ Value (creation i) = 100 ∧
     Status i = InvoiceStatusSettleRequested ∧ FinalizedAt i = zero_time ∧
     SettleRequestedAt i mod 1000 = 0 ∧ Z.abs (SettleRequestedAt i - 1700000000123456789) ≤ 500.
Proof.
  split; [vm_compute; reflexivity|].
  apply (RequestSettle_Get 1700000000123456789 inv hs empty_database
    (RequestSettle None 1700000000123456789 inv hs empty_database).1).
  - exact consistent_empty.
  - unfold is_u64; simpl; lia.
  - vm_compute. reflexivity.
Defined.

Lemma MarkHtlcFinal_outcomes_witness :
  consistent requested ∧
  (∃ r, htlcs requested !! k2 = Some r ∧ htlc_pending r).
Proof.
  assert (Hc : consistent requested).
  { apply (consistent_RequestSettle None 1 inv hs empty_database requested None).
    - exact hs_nonempty.
    - exact consistent_empty.
    - vm_compute. reflexivity. }
  split; [exact Hc|].
  exact (MarkHtlcFinal_outcomes 6 k2 true requested Hc).
Defined.

End Example.

End PgFacts.
