(* ===== verification/Transactions.v ===== *)
(** Concurrent transactions of [persistence/pg.go].

    [Persistence] runs a transaction in one go. Here the transactions of
    [MarkHtlcFinal] and [Get] run statement by statement and interleaved, under
    Postgres' READ COMMITTED isolation: a statement sees what has been committed
    before it and the writes of its own transaction; [FOR UPDATE] and
    [FOR SHARE] wait for conflicting row locks, which are held until the end of
    the transaction. [RequestSettle] is one step: the rows it inserts are
    invisible before it commits, and only the event loop of the registry
    inserts rows, one call at a time. *)

From stdpp Require Import numbers strings sorting base fin_maps gmap list.
From stdpp Require Import options.
From S2P Require Import Prelude Sha256 Types Persistence PersistenceFacts.

Module Tx.
Import Pg PgFacts.

(** The arguments of a [MarkHtlcFinal] call, and its clock reading. *)
Record mark := MkMark { m_now : Time; m_key : HtlcKey; m_settled : bool }.

(** A transaction that has been started, by the statement it executes next. *)
Inductive tx :=
  | MarkSelectHtlc (m : mark)
  | MarkSelectInvoice (m : mark) (hash : Hash)
  | MarkUpdateHtlc (m : mark) (hash : Hash) (invoice : dbInvoice)
  | MarkCount (m : mark) (hash : Hash) (row : option dbHtlc)
  | MarkUpdateInvoice (m : mark) (hash : Hash) (row : option dbHtlc)
  | MarkCommit (m : mark) (hash : Hash) (row : option dbHtlc) (invoice : option dbInvoice)
  | GetSelectInvoice (hash : Hash)
  | GetSelectHtlcs (hash : Hash) (invoice : dbInvoice).

(** A call that has returned, with its result. *)
Inductive done_call :=
  | DMark (fault : option string) (m : mark) (r : res (option Hash))
  | DGet (fault : option string) (hash : Hash) (r : res (Invoice * gmap HtlcKey Z))
  | DRequest (fault : option string) (now : Time) (invoice : InvoiceCreationData)
      (hs : gmap HtlcKey Z) (err : option Error).

(** ** Statements *)

(** The committed tables with the uncommitted writes of a transaction. *)
Definition with_htlc (key : HtlcKey) (row : option dbHtlc) (db : database) : database :=
  match row with
  | Some r => MkDatabase (invoices db) (<[key := r]> (htlcs db)) (next_sequence db)
  | None => db
  end.

Definition with_invoice (hash : Hash) (row : option dbInvoice) (db : database) : database :=
  match row with
  | Some r => MkDatabase (<[hash := r]> (invoices db)) (htlcs db) (next_sequence db)
  | None => db
  end.

(** One statement on the committed tables: the transaction goes on, or it ends
    with the new tables and the result of the call. *)
Definition statement (t : tx) (db : database) : tx + (database * done_call) :=
  match t with
  | MarkSelectHtlc m =>
      match getHtlcHash (m_key m) db with
      | Good hash => inl (MarkSelectInvoice m hash)
      | Bad e => inr (db, DMark None m (Bad e))
      end
  | MarkSelectInvoice m hash =>
      match invoices db !! hash with
      | None => inr (db, DMark None m (Bad ErrInvoiceNotFound))
      | Some invoice =>
          if decide (i_Status invoice = InvoiceStatusSettled)
          then inr (db, DMark None m (Bad ErrHtlcReceivedButInvoiceAlreadySettled))
          else inl (MarkUpdateHtlc m hash invoice)
      end
  | MarkUpdateHtlc m hash invoice =>
      match finalizeHTLC (m_key m) (m_settled m) (m_now m) db with
      | Bad e => inr (db, DMark None m (Bad e))
      | Good db1 =>
          let row := htlcs db1 !! m_key m in
          inl (if decide (i_Status invoice = InvoiceStatusFailed) then MarkCommit m hash row None
               else if m_settled m then MarkCount m hash row
               else MarkUpdateInvoice m hash row)
      end
  | MarkCount m hash row =>
      inl (if allHtlcsAreSettled hash (with_htlc (m_key m) row db)
           then MarkUpdateInvoice m hash row else MarkCommit m hash row None)
  | MarkUpdateInvoice m hash row =>
      match finalizeInvoice hash (m_settled m) (m_now m) (with_htlc (m_key m) row db) with
      | Bad e => inr (db, DMark None m (Bad e))
      | Good db2 => inl (MarkCommit m hash row (invoices db2 !! hash))
      end
  | MarkCommit m hash row invoice =>
      inr (with_invoice hash invoice (with_htlc (m_key m) row db),
           DMark None m (Good (match invoice with Some _ => Some hash | None => None end)))
  | GetSelectInvoice hash =>
      match invoices db !! hash with
      | None => inr (db, DGet None hash (Bad ErrInvoiceNotFound))
      | Some invoice => inl (GetSelectHtlcs hash invoice)
      end
  | GetSelectHtlcs hash invoice =>
      inr (db, DGet None hash (Good (unmarshallDbInvoice invoice, htlcs_of hash db)))
  end.

(** ** Row locks *)

(** The lock on an invoice row a transaction holds; [true] is [FOR UPDATE]. *)
Definition holds (t : tx) : option (Hash * bool) :=
  match t with
  | MarkSelectHtlc _ | MarkSelectInvoice _ _ | GetSelectInvoice _ => None
  | MarkUpdateHtlc _ hash _ | MarkCount _ hash _ | MarkUpdateInvoice _ hash _
  | MarkCommit _ hash _ _ => Some (hash, true)
  | GetSelectHtlcs hash _ => Some (hash, false)
  end.

(** The lock its next statement asks for. *)
Definition wants (t : tx) : option (Hash * bool) :=
  match t with
  | MarkSelectInvoice _ hash => Some (hash, true)
  | GetSelectInvoice hash => Some (hash, false)
  | _ => None
  end.

Definition conflict (a b : option (Hash * bool)) : bool :=
  match a, b with
  | Some (h, e), Some (h', e') => bool_decide (h = h') && (e || e')
  | _, _ => false
  end.

(** Another transaction holds a lock that conflicts with the one [t] wants. *)
Definition blocked (i : nat) (t : tx) (txs : gmap nat tx) : Prop :=
  ¬ map_Forall (λ j u, j = i ∨ conflict (wants t) (holds u) = false) txs.

#[global] Instance blocked_dec i t txs : Decision (blocked i t txs).
Proof. unfold blocked. apply _. Defined.

(** ** The server *)

Record server := MkServer {
  committed : database;
  txs : gmap nat tx;
  log : list done_call     (** the calls that have returned, oldest first *)
}.

Definition initial (db : database) : server := MkServer db ∅ [].

Inductive event :=
  | StartMark (i : nat) (m : mark)
  | StartGet (i : nat) (hash : Hash)
  | Advance (i : nat)                       (** transaction [i] executes a statement *)
  | Fault (i : nat) (e : string)            (** its connection fails: it is rolled back *)
  | Request (fault : option string) (now : Time) (invoice : InvoiceCreationData)
      (hs : gmap HtlcKey Z).

Definition advance (i : nat) (s : server) : option server :=
  match txs s !! i with
  | None => None
  | Some t =>
      if decide (blocked i t (txs s)) then None
      else
        Some (match statement t (committed s) with
              | inl t' => MkServer (committed s) (<[i := t']> (txs s)) (log s)
              | inr (db, d) => MkServer db (delete i (txs s)) (log s ++ [d])
              end)
  end.

(** The call a transaction belongs to, ended by a fault. *)
Definition faulted (e : string) (t : tx) : done_call :=
  match t with
  | MarkSelectHtlc m | MarkSelectInvoice m _ | MarkUpdateHtlc m _ _ | MarkCount m _ _
  | MarkUpdateInvoice m _ _ | MarkCommit m _ _ _ => DMark (Some e) m (Bad (ErrExternal e))
  | GetSelectInvoice hash | GetSelectHtlcs hash _ => DGet (Some e) hash (Bad (ErrExternal e))
  end.

Section WithLntypes.
Context `{Lntypes}.

Definition start (i : nat) (t : tx) (s : server) : option server :=
  match txs s !! i with
  | Some _ => None
  | None => Some (MkServer (committed s) (<[i := t]> (txs s)) (log s))
  end.

Definition step (ev : event) (s : server) : option server :=
  match ev with
  | StartMark i m => start i (MarkSelectHtlc m) s
  | StartGet i hash => start i (GetSelectInvoice hash) s
  | Advance i => advance i s
  | Fault i e =>
      t ← txs s !! i;
      Some (MkServer (committed s) (delete i (txs s)) (log s ++ [faulted e t]))
  | Request fault now invoice hs =>
      let '(db, err) := RequestSettle fault now invoice hs (committed s) in
      Some (MkServer db (txs s) (log s ++ [DRequest fault now invoice hs err]))
  end.

(** The server over a sequence of events; one that is not enabled is skipped. *)
Fixpoint run (evs : list event) (s : server) : server :=
  match evs with
  | [] => s
  | ev :: evs' => run evs' (default s (step ev s))
  end.

(** ** The specification: calls one after another *)

Definition call_spec (d : done_call) (db db' : database) : Prop :=
  match d with
  | DMark fault m r => MarkHtlcFinal fault (m_now m) (m_key m) (m_settled m) db = (db', r)
  | DGet fault hash r => db' = db ∧ Get fault hash db = r
  | DRequest fault now invoice hs err => RequestSettle fault now invoice hs db = (db', err)
  end.

Fixpoint serial (l : list done_call) (db db' : database) : Prop :=
  match l with
  | [] => db' = db
  | d :: l' => ∃ db1, call_spec d db db1 ∧ serial l' db1 db'
  end.

Lemma serial_snoc l d db db1 db2 :
  serial l db db1 → call_spec d db1 db2 → serial (l ++ [d]) db db2.
Proof.
  revert db. induction l as [|x l IH]; intros db; simpl.
  - intros -> Hd. by exists db2.
  - intros (db' & Hx & Hl) Hd. exists db'. split; [done|]. by apply IH.
Qed.

End WithLntypes.

(** ** What a transaction knows

    Between its statements a transaction relies on rows it has read or locked. *)

(** The rows behind the uncommitted update of an htlc. *)
Record updated (db : database) (m : mark) (hash : Hash) (row : option dbHtlc) (inv : dbInvoice) :
    Prop := {
  up_htlc : ∃ r, htlcs db !! m_key m = Some r ∧ h_Hash r = hash ∧
              h_Status r = HtlcStatusSettleRequested ∧
              row = Some (final_htlc (m_settled m) (m_now m) r);
  up_invoice : invoices db !! hash = Some inv
}.

Definition all_settled (m : mark) (hash : Hash) (row : option dbHtlc) (db : database) : bool :=
  allHtlcsAreSettled hash (with_htlc (m_key m) row db).

Definition tx_ok (db : database) (t : tx) : Prop :=
  match t with
  | MarkSelectHtlc _ | GetSelectInvoice _ => True
  | MarkSelectInvoice m hash => ∃ r, htlcs db !! m_key m = Some r ∧ h_Hash r = hash
  | MarkUpdateHtlc m hash inv =>
      (∃ r, htlcs db !! m_key m = Some r ∧ h_Hash r = hash) ∧
      invoices db !! hash = Some inv ∧ i_Status inv ≠ InvoiceStatusSettled
  | MarkCount m hash row =>
      ∃ inv, updated db m hash row inv ∧ i_Status inv = InvoiceStatusSettleRequested ∧
        m_settled m = true
  | MarkUpdateInvoice m hash row =>
      ∃ inv, updated db m hash row inv ∧ i_Status inv = InvoiceStatusSettleRequested ∧
        (m_settled m = true → all_settled m hash row db = true)
  | MarkCommit m hash row i =>
      ∃ inv, updated db m hash row inv ∧
        match i with
        | None => i_Status inv = InvoiceStatusFailed ∨
                  (i_Status inv = InvoiceStatusSettleRequested ∧ m_settled m = true ∧
                   all_settled m hash row db = false)
        | Some inv' => inv' = final_invoice (m_settled m) (m_now m) inv ∧
                       i_Status inv = InvoiceStatusSettleRequested ∧
                       (m_settled m = true → all_settled m hash row db = true)
        end
  | GetSelectHtlcs hash inv => invoices db !! hash = Some inv
  end.

(** A statement keeps that knowledge and, when it is the last one, returns what
    the whole call would return on the committed tables. *)
Lemma statement_next t db t' : tx_ok db t → statement t db = inl t' → tx_ok db t'.
Proof.
  destruct t as [m|m h|m h inv|m h row|m h row|m h row i|h|h inv]; simpl.
  - intros _. unfold getHtlcHash. destruct (htlcs db !! m_key m) as [r|] eqn:Hr; [|done].
    intros [= <-]. simpl. eauto.
  - intros Hr. destruct (invoices db !! h) eqn:Hi; [|done]. case_decide; [done|].
    by intros [= <-].
  - intros ((r & Hr & Hh) & Hi & Hst). unfold finalizeHTLC. rewrite Hr.
    case_decide as Hs; [|done]. intros [= <-]. cbn [htlcs]. rewrite lookup_insert_eq.
    assert (Hup : updated db m h (Some (final_htlc (m_settled m) (m_now m) r)) inv)
      by (split; [by exists r|done]).
    case_decide as Hf; simpl; [exists inv; by auto|].
    assert (i_Status inv = InvoiceStatusSettleRequested) by (by destruct (i_Status inv)).
    destruct (m_settled m) eqn:Em; simpl; exists inv; by rewrite ?Em.
  - intros (inv & Hup & Hst & Hm) [= <-]. fold (all_settled m h row db).
    destruct (all_settled m h row db) eqn:Ha; exists inv; split_and!; auto.
  - intros (inv & Hup & Hst & Hall). pose proof Hup as [(r & Hr & Hh & Hs & ->) Hi].
    unfold finalizeInvoice. simpl. rewrite Hi, decide_True by done. intros [= <-].
    simpl. rewrite lookup_insert_eq. exists inv. by split.
  - done.
  - intros _. destruct (invoices db !! h) eqn:Hi; [|done]. by intros [= <-].
  - done.
Qed.

Lemma statement_last `{Lntypes} t db db' d :
  tx_ok db t → statement t db = inr (db', d) → call_spec d db db'.
Proof.
  destruct t as [m|m h|m h inv|m h row|m h row|m h row i|h|h inv]; simpl.
  - intros _. unfold getHtlcHash. destruct (htlcs db !! m_key m) as [r|] eqn:Hr; [done|].
    intros [= <- <-]. unfold call_spec, MarkHtlcFinal, markHtlcFinal_tx, selectInvoiceForUpdate, getHtlcHash.
    by rewrite Hr.
  - intros (r & Hr & Hh).
    assert (Hsel : selectInvoiceForUpdate (m_key m) db =
      match invoices db !! h with None => Bad ErrInvoiceNotFound | Some i => Good (h, i) end).
    { unfold selectInvoiceForUpdate, getHtlcHash. by rewrite Hr, <- Hh. }
    destruct (invoices db !! h) as [inv|]; [case_decide; [|done]|]; intros [= <- <-];
      unfold call_spec, MarkHtlcFinal, markHtlcFinal_tx; rewrite Hsel; simpl; by rewrite ?decide_True.
  - intros ((r & Hr & Hh) & Hi & Hst). unfold finalizeHTLC. rewrite Hr.
    case_decide as Hs; [done|]. intros [= <- <-]. unfold call_spec, MarkHtlcFinal, markHtlcFinal_tx.
    rewrite (proj2 (selectInvoice_Good (m_key m) db h inv)) by (by exists r). simpl.
    rewrite decide_False by done. unfold finalizeHTLC. by rewrite Hr, decide_False.
  - done.
  - intros (inv & [(r & Hr & Hh & Hs & ->) Hi] & Hst & Hall). unfold finalizeInvoice. simpl.
    by rewrite Hi, decide_True by done.
  - intros (inv & [(r & Hr & Hh & Hs & ->) Hi] & Hcase) [= <- <-].
    unfold call_spec, MarkHtlcFinal, markHtlcFinal_tx.
    rewrite (proj2 (selectInvoice_Good (m_key m) db h inv)) by (by exists r). simpl.
    unfold finalizeHTLC. rewrite Hr, (decide_True (P := h_Status r = _)) by done. simpl.
    unfold all_settled, with_htlc, final_htlc in Hcase.
    destruct i as [i|].
    + destruct Hcase as (-> & Hst & Hall). rewrite !decide_False by congruence.
      replace (m_settled m && _) with false.
      * unfold finalizeInvoice; simpl. by rewrite Hi, decide_True.
      * destruct (m_settled m) eqn:Em; [simpl|done]. by rewrite Hall.
    + destruct Hcase as [Hst|(Hst & Em & Hall)].
      * rewrite decide_False, decide_True by congruence. done.
      * rewrite !decide_False by congruence. rewrite Em in *. simpl. by rewrite Hall.
  - intros _. destruct (invoices db !! h) eqn:Hi; [done|]. intros [= <- <-].
    split; [done|]. unfold Get. by rewrite Hi.
  - intros Hi [= <- <-]. split; [done|]. unfold Get. by rewrite Hi.
Qed.

(** ** Commits of other transactions *)

(** The rows of an invoice are the same. *)
Definition same_invoice (h : Hash) (db db' : database) : Prop :=
  invoices db' !! h = invoices db !! h ∧
  ∀ k r, h_Hash r = h → htlcs db' !! k = Some r ↔ htlcs db !! k = Some r.

Lemma all_settled_same m h r db db' :
  same_invoice h db db' → all_settled m h (Some r) db' = all_settled m h (Some r) db.
Proof.
  intros [_ Hh]. apply eq_true_iff_eq. unfold all_settled. rewrite !allHtlcsAreSettled_spec.
  unfold all_htlcs; simpl. split; intros Hall k r' Hk Hr'; apply (Hall k); try done;
    revert Hk; rewrite !lookup_insert_Some; naive_solver.
Qed.

Lemma updated_same m h row inv db db' :
  same_invoice h db db' → updated db m h row inv → updated db' m h row inv.
Proof.
  intros [Hi Hh] [(r & Hr & E & Hs & Hrow) Hinv]. split; [|by rewrite Hi].
  exists r. split_and!; try done. by apply Hh.
Qed.

Lemma tx_ok_stable t db db' :
  db_le db db' → (∀ h e, holds t = Some (h, e) → same_invoice h db db') →
  tx_ok db t → tx_ok db' t.
Proof.
  intros Hle Hsame.
  assert (Hrow : ∀ k h, (∃ r, htlcs db !! k = Some r ∧ h_Hash r = h) →
                        ∃ r, htlcs db' !! k = Some r ∧ h_Hash r = h).
  { intros k h (r & Hr & <-). apply (le_htlcs _ _ Hle) in Hr as (r' & Hr' & E & _). eauto. }
  destruct t as [m|m h|m h inv|m h row|m h row|m h row i|h|h inv]; simpl in *; try done.
  - apply Hrow.
  - specialize (Hsame h true eq_refl). intros (Hr & Hi & Hst). split_and!; [by apply Hrow| |done].
    by destruct Hsame as [-> _].
  - specialize (Hsame h true eq_refl). intros (inv & Hup & Hst). exists inv.
    split; [by eapply updated_same|done].
  - specialize (Hsame h true eq_refl). intros (inv & Hup & Hst & Hall). exists inv.
    split; [by eapply updated_same|]. destruct Hup as [(r & _ & _ & _ & ->) _].
    by rewrite (all_settled_same m h _ db db').
  - specialize (Hsame h true eq_refl). intros (inv & Hup & Hcase). exists inv.
    split; [by eapply updated_same|]. destruct Hup as [(r & _ & _ & _ & ->) _].
    by rewrite (all_settled_same m h _ db db').
  - specialize (Hsame h false eq_refl). by destruct Hsame as [-> _].
Qed.

(** The last statement of a transaction only touches the invoice it has locked. *)
Lemma statement_changes t db db' d :
  tx_ok db t → statement t db = inr (db', d) →
  db' = db ∨ ∃ h, holds t = Some (h, true) ∧ ∀ h', h' ≠ h → same_invoice h' db db'.
Proof.
  intros Hok. destruct t as [m|m h|m h inv|m h row|m h row|m h row i|h|h inv]; simpl in *;
    try (intros [= <- <-]; by left); try (repeat case_match; intros; simplify_eq; by left); [].
  destruct Hok as (inv & [(r & Hr & Hh & Hs & ->) Hi] & _). intros [= <- <-]. right.
  exists h. split; [done|]. intros h' Hne. split.
  - destruct i; simpl; [by rewrite lookup_insert_ne|done].
  - intros k r' Hr'. destruct i; simpl; rewrite lookup_insert_Some; naive_solver.
Qed.

Lemma RequestSettle_same `{Lntypes} fault now invoice hs db db' (o : option Error) (h : Hash) :
  is_Some (invoices db !! h) → RequestSettle fault now invoice hs db = (db', o) →
  same_invoice h db db'.
Proof.
  intros [inv Hi]. destruct o as [e|].
  - intros [E1 E2]%RequestSettle_err. unfold same_invoice. by rewrite E1, E2.
  - intros (_ & Hn & _ & Ei & Eh & Hnew)%RequestSettle_ok.
    assert (Hne : h ≠ PreimageHash (PaymentPreimage invoice)) by (intros ->; congruence).
    split; [by rewrite Ei, lookup_insert_ne|]. intros k r Hr. rewrite Eh.
    rewrite lookup_union_Some_raw. unfold new_rows. rewrite lookup_fmap.
    destruct (hs !! k) as [a|] eqn:Hk; simpl; [|naive_solver].
    apply Hnew in Hk as [Hnone _]. rewrite Hnone. naive_solver.
Qed.

(** ** The invariant of the server *)

Lemma conflict_comm a b : conflict a b = conflict b a.
Proof.
  destruct a as [[h e]|], b as [[h' e']|]; simpl; try done.
  rewrite (orb_comm e). f_equal. by apply bool_decide_ext.
Qed.

(** Locks are exclusive: no two transactions hold conflicting ones. *)
Definition locks_ok (ts : gmap nat tx) : Prop :=
  ∀ i j t u, i ≠ j → ts !! i = Some t → ts !! j = Some u → conflict (holds t) (holds u) = false.

Record Inv (s : server) : Prop := {
  inv_locks : locks_ok (txs s);
  inv_tx : map_Forall (λ _, tx_ok (committed s)) (txs s)
}.

Lemma locks_insert i t ts :
  locks_ok ts → (∀ j u, j ≠ i → ts !! j = Some u → conflict (holds t) (holds u) = false) →
  locks_ok (<[i := t]> ts).
Proof.
  intros Hl Ht j k u v Hne. rewrite !lookup_insert_Some.
  intros [[<- <-]|[? Hu]] [[<- <-]|[? Hv]]; [done|by eapply Ht| |by eapply (Hl j k)].
  rewrite conflict_comm. by eapply Ht.
Qed.

Lemma locks_delete i ts : locks_ok ts → locks_ok (delete i ts).
Proof.
  intros Hl j k u v Hne [_ Hu]%lookup_delete_Some [_ Hv]%lookup_delete_Some. by eapply (Hl j k).
Qed.

Lemma statement_holds t db t' :
  statement t db = inl t' → holds t' = holds t ∨ holds t' = wants t.
Proof.
  destruct t; simpl; intros Hs; repeat case_match; simplify_eq/=; auto;
    repeat case_match; simplify_eq/=; auto.
Qed.

Lemma not_blocked i t ts j u :
  ¬ blocked i t ts → j ≠ i → ts !! j = Some u → conflict (wants t) (holds u) = false.
Proof.
  intros Hb%dec_stable Hj Hu. specialize (Hb j u Hu). naive_solver.
Qed.

(** Every transaction survives the commit of another. *)
Lemma inv_commit s i t db' d :
  Inv s → txs s !! i = Some t → db_le (committed s) db' →
  statement t (committed s) = inr (db', d) →
  Inv (MkServer db' (delete i (txs s)) (log s ++ [d])).
Proof.
  intros [Hl Ht] Hi Hle Hs. split; simpl; [by apply locks_delete|].
  intros j u [Hne Hu]%lookup_delete_Some. apply (tx_ok_stable u (committed s)); [done| |by eapply Ht].
  intros h e Hh. destruct (statement_changes t (committed s) db' d) as [->|(h1 & Hh1 & Hsame)];
    [by eapply Ht|done|done|].
  apply Hsame. intros ->. specialize (Hl i j t u Hne Hi Hu). rewrite Hh1, Hh in Hl. simpl in Hl.
  by rewrite bool_decide_true in Hl.
Qed.

Lemma call_spec_le `{Lntypes} d db db' : call_spec d db db' → db_le db db'.
Proof.
  destruct d; simpl.
  - apply db_le_MarkHtlcFinal.
  - by intros [-> _].
  - apply db_le_RequestSettle.
Qed.

Lemma tx_inv_start i t s s' :
  Inv s → holds t = None → tx_ok (committed s) t → start i t s = Some s' →
  Inv s' ∧ committed s' = committed s ∧ log s' = log s.
Proof.
  intros [Hl Ht] Hh Hok. unfold start. destruct (txs s !! i) eqn:Hi; [done|]. intros [= <-].
  split_and!; [split; simpl|done|done].
  - apply locks_insert; [done|]. intros j u _ _. by rewrite Hh.
  - by apply map_Forall_insert_2.
Qed.

(** A step keeps the invariant; it changes the tables and the log together, by
    a whole call. *)
Lemma tx_step_ok `{Lntypes} ev s s' :
  Inv s → step ev s = Some s' →
  Inv s' ∧ ((committed s' = committed s ∧ log s' = log s) ∨
            ∃ d, log s' = log s ++ [d] ∧ call_spec d (committed s) (committed s')).
Proof.
  intros Hinv. destruct ev as [i m|i h|i|i e|fault now invoice hs]; simpl.
  - intros Hs. apply tx_inv_start in Hs as (? & ?); auto. done.
  - intros Hs. apply tx_inv_start in Hs as (? & ?); auto. done.
  - unfold advance. destruct (txs s !! i) as [t|] eqn:Hi; [|done]. case_decide as Hb; [done|].
    pose proof (inv_tx _ Hinv _ _ Hi) as Hok. simpl in Hok.
    destruct (statement t (committed s)) as [t'|[db d]] eqn:Hs; intros [= <-]; simpl.
    + split; [|by left]. destruct Hinv as [Hl Ht]. split; simpl.
      * apply locks_insert; [done|]. intros j u Hj Hu.
        destruct (statement_holds _ _ _ Hs) as [->| ->];
          [by eapply (Hl i j)|by eapply not_blocked].
      * apply map_Forall_insert_2; [by eapply statement_next|done].
    + pose proof (statement_last _ _ _ _ Hok Hs) as Hd. split; [|by eauto].
      eapply inv_commit; [done..| |done]. by eapply call_spec_le.
  - destruct (txs s !! i) as [t|] eqn:Hi; [|done]. simpl. intros [= <-]. simpl. split.
    + destruct Hinv as [Hl Ht]. split; simpl; [by apply locks_delete|by apply map_Forall_delete].
    + right. exists (faulted e t). split; [done|]. by destruct t.
  - destruct (RequestSettle _ _ _ _ _) as [db err] eqn:Hrs. intros [= <-]. simpl. split; [|by eauto].
    destruct Hinv as [Hl Ht]. split; simpl; [done|]. intros j u Hu. specialize (Ht j u Hu).
    apply (tx_ok_stable u (committed s)); [by eapply db_le_RequestSettle| |done].
    intros h e Hh. eapply RequestSettle_same; [|done].
    destruct u; simplify_eq/=; destruct_and?; naive_solver eauto using up_invoice.
Qed.

Lemma run_serial `{Lntypes} evs s db :
  Inv s → serial (log s) db (committed s) →
  Inv (run evs s) ∧ serial (log (run evs s)) db (committed (run evs s)).
Proof.
  revert s. induction evs as [|ev evs IH]; intros s Hi Hl; simpl; [done|].
  destruct (step ev s) as [s'|] eqn:Hs; simpl; [|by apply IH].
  apply tx_step_ok in Hs as [Hi' [[E1 E2]|(d & E & Hd)]]; [| |done]; apply IH; try done.
  - by rewrite E1, E2.
  - rewrite E. by eapply serial_snoc.
Qed.

Lemma tx_inv_initial db : Inv (initial db).
Proof. split; simpl; [by intros i j t u _ Ht|apply map_Forall_empty]. Qed.

(** ** Termination *)

(** The statements a transaction has still to execute, at most. *)
Definition remaining (t : tx) : nat :=
  match t with
  | MarkSelectHtlc _ => 6
  | MarkSelectInvoice _ _ => 5
  | MarkUpdateHtlc _ _ _ => 4
  | MarkCount _ _ _ => 3
  | MarkUpdateInvoice _ _ _ | GetSelectInvoice _ => 2
  | MarkCommit _ _ _ _ | GetSelectHtlcs _ _ => 1
  end.

Definition work (ts : gmap nat tx) : nat := sum_list_with remaining (map_vals ts).

(** A schedule in which every chosen transaction can execute a statement. *)
Fixpoint advances (sched : list nat) (s : server) : option server :=
  match sched with
  | [] => Some s
  | i :: sched' => s' ← advance i s; advances sched' s'
  end.

#[global] Instance sum_list_with_proper : Proper ((≡ₚ) ==> (=)) (sum_list_with remaining).
Proof. induction 1; simpl; lia. Qed.

Lemma work_delete i t ts : ts !! i = Some t → work ts = (remaining t + work (delete i ts))%nat.
Proof. intros Hi. unfold work. by rewrite (map_vals_delete ts i t). Qed.

Lemma work_insert i t t' ts :
  ts !! i = Some t → (work (<[i := t']> ts) + remaining t = work ts + remaining t')%nat.
Proof.
  intros Hi. rewrite (work_delete i t ts), (work_delete i t' (<[i := t']> ts)) by (done || by rewrite lookup_insert_eq).
  rewrite delete_insert_eq. lia.
Qed.

Lemma work_bound ts : (work ts ≤ 6 * size ts)%nat.
Proof.
  induction ts as [|i t ts Hi IH] using map_ind.
  { unfold work, map_vals. by rewrite map_to_list_empty. }
  rewrite (work_delete i t) by (by rewrite lookup_insert_eq).
  rewrite delete_insert_id by done. rewrite map_size_insert_None by done.
  destruct t; simpl; lia.
Qed.

Lemma statement_remaining t db t' : statement t db = inl t' → (remaining t' < remaining t)%nat.
Proof.
  destruct t; simpl; intros Hs; repeat case_match; simplify_eq/=; try lia;
    repeat case_match; simplify_eq/=; lia.
Qed.

(** A statement of a transaction shortens its work; the calls are conserved. *)
Lemma advance_work i s s' :
  advance i s = Some s' →
  (work (txs s') < work (txs s))%nat ∧
  (length (log s') + size (txs s') = length (log s) + size (txs s))%nat.
Proof.
  unfold advance. destruct (txs s !! i) as [t|] eqn:Hi; [|done]. case_decide; [done|].
  destruct (statement t (committed s)) as [t'|[db d]] eqn:Hs; intros [= <-]; simpl.
  - apply statement_remaining in Hs. pose proof (work_insert i t t' _ Hi).
    rewrite map_size_insert_Some by eauto. lia.
  - rewrite (work_delete i t (txs s)) by done. rewrite length_app, map_size_delete, Hi. simpl.
    assert (0 < size (txs s))%nat.
    { apply Nat.neq_0_lt_0. rewrite map_size_empty_iff. intros E. by rewrite E, lookup_empty in Hi. }
    assert (0 < remaining t)%nat by (destruct t; simpl; lia). lia.
Qed.

(** A transaction that holds a lock never waits, so some transaction can go on. *)
Lemma some_advances s : txs s = ∅ ∨ ∃ i, is_Some (advance i s).
Proof.
  destruct (decide (txs s = ∅)) as [|Hne]; [by left|]. right.
  apply map_choose in Hne as (i & t & Hi).
  assert (Hgo : ∀ j u, txs s !! j = Some u → ¬ blocked j u (txs s) → is_Some (advance j s)).
  { intros j u Hu Hb. unfold advance. rewrite Hu, decide_False by done. eauto. }
  destruct (decide (blocked i t (txs s))) as [Hb|Hb]; [|eauto].
  unfold blocked in Hb. rewrite map_not_Forall in Hb by apply _.
  destruct Hb as (j & u & Hu & Hc). exists j. apply (Hgo j u Hu). intros Hx. apply Hx.
  intros k v _. right. destruct u; simpl in *; try done; destruct (wants t) as [[]|]; naive_solver.
Qed.

(** ** Properties *)

(** C14. Concurrent transactions are serializable: however the statements of
    finalizations, reads and settle requests interleave and whichever of them
    fail, the committed tables and the result of every call are those of the
    same calls executed one after another in the order in which they returned. *)
Theorem transactions_serializable `{Lntypes} (db : database) (evs : list event) :
  serial (log (run evs (initial db))) db (committed (run evs (initial db))).
Proof. by apply run_serial; [apply tx_inv_initial|]. Qed.

(** C23. Transactions terminate and never deadlock: from every reachable state of
    the server, a schedule of statements that can be executed has at most six of
    them for each open transaction, no call gets lost on the way, and when no
    statement can be executed any more, every call has returned. *)
Theorem transactions_terminate `{Lntypes} (db : database) (evs : list event)
  (sched : list nat) (s : server) (Hs : advances sched (run evs (initial db)) = Some s) :
  let s0 := run evs (initial db) in
  (length sched ≤ 6 * size (txs s0))%nat ∧
  (length (log s) + size (txs s) = length (log s0) + size (txs s0))%nat ∧
  ((∀ i, advance i s = None) →
   txs s = ∅ ∧ (length (log s) = length (log s0) + size (txs s0))%nat).
Proof.
  simpl. generalize dependent (run evs (initial db)). intros s0 Hs.
  assert (Hw : (length sched + work (txs s) ≤ work (txs s0))%nat ∧
    (length (log s) + size (txs s) = length (log s0) + size (txs s0))%nat).
  { revert s0 Hs. induction sched as [|i sched IH]; intros s0; simpl; [by intros [= <-]|].
    destruct (advance i s0) as [s1|] eqn:Ha; simpl; [|done]. intros [IH1 IH2]%IH.
    apply advance_work in Ha. lia. }
  pose proof (work_bound (txs s0)). destruct Hw as [Hw Hc]. split_and!; [lia|done|].
  intros Hstuck. destruct (some_advances s) as [E|[i [s' Hi]]]; [|by rewrite Hstuck in Hi].
  split; [done|]. rewrite E, map_size_empty in Hc. lia.
Qed.

(** Two nodes report the two htlcs of an invoice at the same time. *)
Module Witness.
Import RealLntypes PgFacts.Example.

Definition opened : list event :=
  [StartMark 1 (MkMark 5 k1 true); StartMark 2 (MkMark 6 k2 true);
   Advance 1; Advance 2; Advance 1; Advance 2].
Definition schedule : list nat := [1; 1; 1; 2; 2; 2; 2; 2]%nat.

Lemma transactions_terminate_witness :
  ∃ s, advances schedule (run opened (initial requested)) = Some s ∧
    log s = [DMark None (MkMark 5 k1 true) (Good None);
             DMark None (MkMark 6 k2 true) (Good (Some (PreimageHash pre)))] ∧
    (length schedule ≤ 6 * size (txs (run opened (initial requested))))%nat.
Proof.
  destruct (advances schedule (run opened (initial requested))) as [s|] eqn:E.
  - exists s. split; [reflexivity|]. split.
    + assert (Hl : log <$> advances schedule (run opened (initial requested)) =
        Some [DMark None (MkMark 5 k1 true) (Good None);
              DMark None (MkMark 6 k2 true) (Good (Some (PreimageHash pre)))])
        by (vm_compute; reflexivity).
      rewrite E in Hl. by injection Hl as ->.
    + exact (proj1 (transactions_terminate requested opened schedule s E)).
  - exfalso. assert (Hl : bool_decide (is_Some (log <$> advances schedule (run opened (initial requested)))) = true)
      by (vm_compute; reflexivity).
    rewrite E in Hl. discriminate Hl.
Defined.

End Witness.
End Tx.
