(* ===== verification/Migrations.v ===== *)
(** The schema of the database: the SQL files of [persistence/migrations] and
    [migrations.go].

    Tables have typed columns with the constraints the files use (NOT NULL,
    CHECK, DEFAULT, SERIAL, UNIQUE, PRIMARY KEY, FOREIGN KEY); the statements
    change them as PostgreSQL documents: a column that is added takes its
    default in the rows that exist, a NOT NULL column is refused when a row
    would hold NULL, and a column that is dropped takes the constraints it is
    part of with it. A file is one query of several statements, which fails as
    a whole. Schema names and the search path are left out. *)

From stdpp Require Import numbers strings base fin_maps gmap list.
From stdpp Require Import options.
From S2P Require Import Prelude Sha256 Types Persistence PersistenceFacts.

(** ** SQL *)
Module Sql.

Inductive value :=
  | Null
  | Int (z : Z)
  | Bytes (b : bytes)
  | Bool (b : bool)
  | Timestamp (t : Time)
  | Label (s : string).

#[global] Instance value_eq_dec : EqDecision value.
Proof. solve_decision. Defined.

Inductive ctype := BYTEA | BIGINT | INTEGER | BOOLEAN | TIMESTAMPTZ | ENUM (name : string).

#[global] Instance ctype_eq_dec : EqDecision ctype.
Proof. solve_decision. Defined.

Inductive check := LengthIs (n : nat) | Positive.

Inductive dflt := NoDefault | Default (v : value) | Serial (next : Z).

Record column := MkColumn {
  c_name : string;
  c_type : ctype;
  c_not_null : bool;
  c_default : dflt;
  c_unique : bool;
  c_check : option check
}.

Abbreviation row := (gmap string value) (only parsing).

Record table := MkTable {
  t_columns : list column;
  t_pkey : option (list string);
  t_fkeys : list (string * string * string);   (** column, table, column *)
  t_rows : list row
}.

Record schema := MkSchema { tables : gmap string table; types : gmap string (list string) }.

Definition empty_schema : schema := MkSchema ∅ ∅.

Definition get (r : row) (name : string) : value := default Null (r !! name).

(** *** Constraints; a CHECK passes on NULL. *)

Definition has_type (ts : gmap string (list string)) (ty : ctype) (v : value) : bool :=
  match v, ty with
  | Null, _ => true
  | Int z, BIGINT => bool_decide (- 2 ^ 63 ≤ z < 2 ^ 63)
  | Int z, INTEGER => bool_decide (- 2 ^ 31 ≤ z < 2 ^ 31)
  | Bytes _, BYTEA => true
  | Bool _, BOOLEAN => true
  | Timestamp _, TIMESTAMPTZ => true
  | Label s, ENUM name => bool_decide (s ∈ default [] (ts !! name))
  | _, _ => false
  end.

Definition passes (c : option check) (v : value) : bool :=
  match c, v with
  | Some (LengthIs n), Bytes b => bool_decide (length b = n)
  | Some Positive, Int z => bool_decide (0 < z)
  | _, _ => true
  end.

Definition column_ok (ts : gmap string (list string)) (r : row) (c : column) : bool :=
  let v := get r (c_name c) in
  negb (c_not_null c && bool_decide (v = Null)) && has_type ts (c_type c) v && passes (c_check c) v.

(** No row of [rs] has the non-null values of [r] in [names]. *)
Definition fresh (names : list string) (r : row) (rs : list row) : bool :=
  bool_decide (Exists (λ n, get r n = Null) names) ||
  negb (bool_decide (Exists (λ r', get r' <$> names = get r <$> names) rs)).

Definition references (s : schema) (r : row) (fk : string * string * string) : bool :=
  let '(col, t', col') := fk in
  match tables s !! t' with
  | None => false
  | Some t => bool_decide (get r col = Null) ||
              bool_decide (Exists (λ r', get r' col' = get r col) (t_rows t))
  end.

(** The row can be inserted. *)
Definition row_allowed (s : schema) (name : string) (r : row) : bool :=
  match tables s !! name with
  | None => false
  | Some t =>
      forallb (column_ok (types s) r) (t_columns t) &&
      forallb (λ c, negb (c_unique c) || fresh [c_name c] r (t_rows t)) (t_columns t) &&
      match t_pkey t with None => true | Some ns => fresh ns r (t_rows t) end &&
      forallb (references s r) (t_fkeys t)
  end.

(** *** Statements *)

Inductive stmt :=
  | CreateType (name : string) (labels : list string)
  | DropType (name : string)
  | CreateTable (name : string) (t : table)
  | DropTable (name : string)
  | AddColumn (table : string) (c : column)
  | DropColumn (table : string) (name : string)
  | DropPrimaryKey (table : string)           (** DROP CONSTRAINT <table>_pkey *)
  | AddPrimaryKey (table : string) (names : list string)
  | Update (table : string) (f : row → row).

Definition put (name : string) (t : table) (s : schema) : schema :=
  MkSchema (<[name := t]> (tables s)) (types s).

Definition with_table (name : string) (s : schema) (f : table → res table) : res schema :=
  match tables s !! name with
  | None => Bad (ErrExternal "relation does not exist")
  | Some t => t' ← f t; Good (put name t' s)
  end.

Definition has_column (t : table) (name : string) : bool :=
  bool_decide (name ∈ c_name <$> t_columns t).

(** The values of a new column in the rows that exist. *)
Fixpoint fill (c : column) (next : Z) (rs : list row) : list row :=
  match rs with
  | [] => []
  | r :: rs' =>
      <[c_name c := match c_default c with
                    | NoDefault => Null | Default v => v | Serial _ => Int next end]> r
      :: fill c (next + 1) rs'
  end.

Definition first_serial (c : column) : Z := match c_default c with Serial n => n | _ => 0 end.

(** The counter of a SERIAL column after the rows have been numbered. *)
Definition advance (c : column) (n : nat) : column :=
  match c_default c with
  | Serial next => MkColumn (c_name c) (c_type c) (c_not_null c) (Serial (next + Z.of_nat n))
                     (c_unique c) (c_check c)
  | _ => c
  end.

Definition add_column (ts : gmap string (list string)) (c : column) (t : table) : res table :=
  if has_column t (c_name c) then Bad (ErrExternal "column already exists")
  else
    let rows := fill c (first_serial c) (t_rows t) in
    if forallb (λ r, column_ok ts r c) rows
    then Good (MkTable (t_columns t ++ [advance c (length rows)]) (t_pkey t) (t_fkeys t) rows)
    else Bad (ErrExternal "column contains null values").

Definition drop_column (name : string) (t : table) : res table :=
  if has_column t name then
    Good (MkTable (filter (λ c, c_name c ≠ name) (t_columns t))
            match t_pkey t with
            | Some ns => if bool_decide (name ∈ ns) then None else Some ns
            | None => None
            end
            (filter (λ fk, fk.1.1 ≠ name) (t_fkeys t))
            (delete name <$> t_rows t))
  else Bad (ErrExternal "column does not exist").

Fixpoint distinct_on (names : list string) (rs : list row) : bool :=
  match rs with
  | [] => true
  | r :: rs' => fresh names r rs' && distinct_on names rs'
  end.

Definition add_pkey (names : list string) (t : table) : res table :=
  match t_pkey t with
  | Some _ => Bad (ErrExternal "multiple primary keys")
  | None =>
      if forallb (has_column t) names && distinct_on names (t_rows t) &&
         forallb (λ r, negb (bool_decide (Exists (λ n, get r n = Null) names))) (t_rows t)
      then Good (MkTable
             ((λ c, if bool_decide (c_name c ∈ names)
                    then MkColumn (c_name c) (c_type c) true (c_default c) (c_unique c) (c_check c)
                    else c) <$> t_columns t)
             (Some names) (t_fkeys t) (t_rows t))
      else Bad (ErrExternal "cannot create primary key")
  end.

Definition uses_type (name : string) (t : table) : bool :=
  bool_decide (Exists (λ c, c_type c = ENUM name) (t_columns t)).

Definition refers_to (name : string) (t : table) : bool :=
  bool_decide (Exists (λ fk, fk.1.2 = name) (t_fkeys t)).

Definition exec (st : stmt) (s : schema) : res schema :=
  match st with
  | CreateType name labels =>
      match types s !! name with
      | Some _ => Bad (ErrExternal "type already exists")
      | None => Good (MkSchema (tables s) (<[name := labels]> (types s)))
      end
  | DropType name =>
      match types s !! name with
      | None => Bad (ErrExternal "type does not exist")
      | Some _ =>
          if existsb (uses_type name) (map_vals (tables s))
          then Bad (ErrExternal "other objects depend on it")
          else Good (MkSchema (tables s) (delete name (types s)))
      end
  | CreateTable name t =>
      match tables s !! name with
      | Some _ => Bad (ErrExternal "relation already exists")
      | None => Good (put name t s)
      end
  | DropTable name =>
      match tables s !! name with
      | None => Bad (ErrExternal "table does not exist")
      | Some _ =>
          if existsb (refers_to name) (map_vals (delete name (tables s)))
          then Bad (ErrExternal "other objects depend on it")
          else Good (MkSchema (delete name (tables s)) (types s))
      end
  | AddColumn name c => with_table name s (add_column (types s) c)
  | DropColumn name col => with_table name s (drop_column col)
  | DropPrimaryKey name =>
      with_table name s (λ t,
        match t_pkey t with
        | None => Bad (ErrExternal "constraint does not exist")
        | Some _ => Good (MkTable (t_columns t) None (t_fkeys t) (t_rows t))
        end)
  | AddPrimaryKey name names => with_table name s (add_pkey names)
  | Update name f =>
      with_table name s (λ t,
        let rows := f <$> t_rows t in
        if forallb (λ r, forallb (column_ok (types s) r) (t_columns t)) rows
        then Good (MkTable (t_columns t) (t_pkey t) (t_fkeys t) rows)
        else Bad (ErrExternal "constraint violation"))
  end.

Fixpoint exec_all (sts : list stmt) (s : schema) : res schema :=
  match sts with
  | [] => Good s
  | st :: sts' => s' ← exec st s; exec_all sts' s'
  end.

End Sql.

(** ** The migration files *)
Module Migrations.
Import Sql PgFacts.

Definition col (name : string) (ty : ctype) (not_null : bool) (d : dflt) (c : option check) : column :=
  MkColumn name ty not_null d false c.

Definition up1 : list stmt := [
  CreateTable "invoices" (MkTable [
    col "settle_requested_at" TIMESTAMPTZ false NoDefault None;
    col "hash" BYTEA true NoDefault (Some (LengthIs 32));
    MkColumn "preimage" BYTEA true NoDefault true (Some (LengthIs 32));
    col "amount_msat" BIGINT true NoDefault (Some Positive);
    col "settled" BOOLEAN true (Default (Bool false)) None;
    col "settled_at" TIMESTAMPTZ false NoDefault None]
    (Some ["hash"%string]) [] []);
  CreateTable "htlcs" (MkTable [
    col "settle_requested_at" TIMESTAMPTZ false NoDefault None;
    col "hash" BYTEA true NoDefault (Some (LengthIs 32));
    col "chan_id" BIGINT true NoDefault None;
    col "htlc_id" BIGINT true NoDefault None;
    col "amount_msat" BIGINT true NoDefault (Some Positive);
    col "settled" BOOLEAN true (Default (Bool false)) None;
    col "settled_at" TIMESTAMPTZ false NoDefault None]
    (Some ["chan_id"; "htlc_id"]%string) [("hash", "invoices", "hash")]%string [])].

Definition down1 : list stmt := [DropTable "htlcs"; DropTable "invoices"].

Definition up2 : list stmt := [
  AddColumn "htlcs" (col "node" BYTEA true NoDefault (Some (LengthIs 33)));
  DropPrimaryKey "htlcs";
  AddPrimaryKey "htlcs" ["node"; "chan_id"; "htlc_id"]%string].

Definition down2 : list stmt := [
  DropColumn "htlcs" "node";
  DropPrimaryKey "htlcs";
  AddPrimaryKey "htlcs" ["chan_id"; "htlc_id"]%string].

Definition up3 : list stmt := [
  AddColumn "invoices" (MkColumn "sequence_num" INTEGER true (Serial 1) true None)].

Definition down3 : list stmt := [DropColumn "invoices" "sequence_num"].

Definition labels : list string := ["SETTLE_REQUESTED"; "SETTLED"; "FAILED"]%string.

(** The two CASE expressions of each UPDATE. *)
Definition set_status (r : row) : row :=
  <["status" := if decide (get r "settled" = Bool false) then Label "SETTLE_REQUESTED"
                else Label "SETTLED"]>
  (<["finalized_at" := if decide (get r "settled" = Bool true) then get r "settled_at" else Null]> r).

Definition set_settled (r : row) : row :=
  <["settled" := if decide (get r "status" = Label "SETTLED") then Bool true else Bool false]>
  (<["settled_at" := if decide (get r "status" = Label "SETTLED") then get r "finalized_at" else Null]> r).

Definition up4_table (name enum : string) : list stmt := [
  CreateType enum labels;
  AddColumn name (col "status" (ENUM enum) true NoDefault None);
  AddColumn name (col "finalized_at" TIMESTAMPTZ false NoDefault None);
  Update name set_status;
  DropColumn name "settled";
  DropColumn name "settled_at"].

Definition up4 : list stmt :=
  up4_table "invoices" "invoice_status" ++ up4_table "htlcs" "htlc_status".

Definition down4_table (name enum : string) : list stmt := [
  AddColumn name (col "settled" BOOLEAN true (Default (Bool false)) None);
  AddColumn name (col "settled_at" TIMESTAMPTZ false NoDefault None);
  Update name set_settled;
  DropColumn name "status";
  DropColumn name "finalized_at";
  DropType enum].

Definition down4 : list stmt :=
  down4_table "invoices" "invoice_status" ++ down4_table "htlcs" "htlc_status".

(** ** migrations.go

    [discover] and [run] are [Collection.DiscoverSQLMigrations] and
    [Collection.Run] of github.com/go-pg/migrations; [done] is the [sync.Once]. *)
Definition DiscoverSQLMigrations (discover : string → option Error) (dir : string) (done : bool) :
    bool * option Error :=
  if done then (true, None)
  else (true, discover (if bool_decide (dir = "") then "persistence/migrations"%string else dir)).

Definition Run {V} (discover : string → option Error) (run : res V) (done : bool) : bool * res V :=
  match DiscoverSQLMigrations discover "" done with
  | (done', Some err) => (done', Bad err)
  | (done', None) => (done', run)
  end.

(** [migrateAction] with at least one argument, up to what it prints. *)
Definition migrateAction {Cfg V} (loadConfig : res Cfg) (ParseURL : Cfg → option Error)
    (discover : string → option Error) (run : res V) : res V :=
  cfg ← loadConfig;
  match ParseURL cfg with
  | Some err => Bad err
  | None =>
      match DiscoverSQLMigrations discover "" false with
      | (_, Some err) => Bad err
      | (done, None) => (Run discover run done).2
      end
  end.

(** ** The schema that results *)

Definition invoices_table (rows : list row) : table :=
  MkTable [
    col "settle_requested_at" TIMESTAMPTZ false NoDefault None;
    col "hash" BYTEA true NoDefault (Some (LengthIs 32));
    MkColumn "preimage" BYTEA true NoDefault true (Some (LengthIs 32));
    col "amount_msat" BIGINT true NoDefault (Some Positive);
    MkColumn "sequence_num" INTEGER true (Serial 1) true None;
    col "status" (ENUM "invoice_status") true NoDefault None;
    col "finalized_at" TIMESTAMPTZ false NoDefault None]
    (Some ["hash"%string]) [] rows.

Definition htlcs_table (rows : list row) : table :=
  MkTable [
    col "settle_requested_at" TIMESTAMPTZ false NoDefault None;
    col "hash" BYTEA true NoDefault (Some (LengthIs 32));
    col "chan_id" BIGINT true NoDefault None;
    col "htlc_id" BIGINT true NoDefault None;
    col "amount_msat" BIGINT true NoDefault (Some Positive);
    col "node" BYTEA true NoDefault (Some (LengthIs 33));
    col "status" (ENUM "htlc_status") true NoDefault None;
    col "finalized_at" TIMESTAMPTZ false NoDefault None]
    (Some ["node"; "chan_id"; "htlc_id"]%string) [("hash", "invoices", "hash")]%string rows.

Definition migrated (invoices htlcs : list row) : schema :=
  MkSchema (<["invoices"%string := invoices_table invoices]>
              {["htlcs"%string := htlcs_table htlcs]})
    (<["invoice_status"%string := labels]> {["htlc_status"%string := labels]}).

Lemma migrated_ok : exec_all (up1 ++ up2 ++ up3 ++ up4) empty_schema = Good (migrated [] []).
Proof. vm_compute. reflexivity. Qed.

(** *** A database of the persister as rows of this schema. go-pg writes a
    [uint64] as the [int64] with the same bits. *)

Definition timestamp (t : option Time) : value :=
  match t with Some t => Timestamp t | None => Null end.

Definition invoice_label (s : InvoiceStatus) : string :=
  match s with
  | InvoiceStatusSettleRequested => "SETTLE_REQUESTED"
  | InvoiceStatusSettled => "SETTLED"
  | InvoiceStatusFailed => "FAILED"
  end.

Definition htlc_label (s : HtlcStatus) : string :=
  match s with
  | HtlcStatusSettleRequested => "SETTLE_REQUESTED"
  | HtlcStatusSettled => "SETTLED"
  | HtlcStatusFailed => "FAILED"
  end.

Definition invoice_row (hash : Hash) (r : Pg.dbInvoice) : row :=
  list_to_map [
    ("sequence_num", Int (Pg.i_SequenceNum r)); ("hash", Bytes hash);
    ("preimage", Bytes (Pg.i_Preimage r)); ("amount_msat", Int (Pg.i_AmountMsat r));
    ("settle_requested_at", Timestamp (Pg.i_SettleRequestedAt r));
    ("finalized_at", timestamp (Pg.i_FinalizedAt r));
    ("status", Label (invoice_label (Pg.i_Status r)))]%string.

Definition htlc_row (k : HtlcKey) (r : Pg.dbHtlc) : row :=
  list_to_map [
    ("node", Bytes (Node k)); ("chan_id", Int (i64 (ChanID k))); ("htlc_id", Int (i64 (HtlcID k)));
    ("hash", Bytes (Pg.h_Hash r)); ("amount_msat", Int (Pg.h_AmountMsat r));
    ("settle_requested_at", Timestamp (Pg.h_SettleRequestedAt r));
    ("finalized_at", timestamp (Pg.h_FinalizedAt r));
    ("status", Label (htlc_label (Pg.h_Status r)))]%string.

Definition represent (db : Pg.database) : schema :=
  migrated ((λ kr, invoice_row kr.1 kr.2) <$> map_to_list (Pg.invoices db))
    ((λ kr, htlc_row kr.1 kr.2) <$> map_to_list (Pg.htlcs db)).

(** *** Facts *)

Lemma invoice_row_get h r (g := get (invoice_row h r)) :
  g "settle_requested_at"%string = Timestamp (Pg.i_SettleRequestedAt r) ∧
  g "hash"%string = Bytes h ∧ g "preimage"%string = Bytes (Pg.i_Preimage r) ∧
  g "amount_msat"%string = Int (Pg.i_AmountMsat r) ∧
  g "sequence_num"%string = Int (Pg.i_SequenceNum r) ∧
  g "status"%string = Label (invoice_label (Pg.i_Status r)) ∧
  g "finalized_at"%string = timestamp (Pg.i_FinalizedAt r).
Proof. repeat split. Qed.

Lemma htlc_row_get k r (g := get (htlc_row k r)) :
  g "settle_requested_at"%string = Timestamp (Pg.h_SettleRequestedAt r) ∧
  g "hash"%string = Bytes (Pg.h_Hash r) ∧ g "chan_id"%string = Int (i64 (ChanID k)) ∧
  g "htlc_id"%string = Int (i64 (HtlcID k)) ∧ g "amount_msat"%string = Int (Pg.h_AmountMsat r) ∧
  g "node"%string = Bytes (Node k) ∧ g "status"%string = Label (htlc_label (Pg.h_Status r)) ∧
  g "finalized_at"%string = timestamp (Pg.h_FinalizedAt r).
Proof. repeat split. Qed.

(** A unique or primary key over the rows of a table given by a map. *)
Lemma fresh_map `{Countable K} {V} (f : K * V → row) names r (m : gmap K V) :
  Forall (λ n, get r n ≠ Null) names →
  fresh names r (f <$> map_to_list m) = true ↔
  map_Forall (λ k v, get (f (k, v)) <$> names ≠ get r <$> names) m.
Proof.
  intros Hn. unfold fresh. rewrite (bool_decide_eq_false_2 (Exists _ names)).
  2:{ intros (n & Hin & Hx)%Exists_exists. by apply (proj1 (Forall_forall _ _) Hn n Hin). }
  simpl. rewrite negb_true_iff, bool_decide_eq_false, map_Forall_to_list, Forall_forall, Exists_exists.
  split.
  - intros Hx [k v] Hkv Heq. apply Hx. exists (f (k, v)).
    split; [|done]. apply list_elem_of_fmap. by exists (k, v).
  - intros Hx (r' & ([k v] & -> & Hkv)%list_elem_of_fmap & Heq). by apply (Hx (k, v)).
Qed.

Lemma label_ok {A} (f : A → string) (x : A) name (ts : gmap string (list string)) :
  ts !! name = Some labels → f x ∈ labels → has_type ts (ENUM name) (Label (f x)) = true.
Proof. intros Ht Hx. simpl. rewrite Ht. by apply bool_decide_eq_true. Qed.

Lemma timestamp_ok ts t : has_type ts TIMESTAMPTZ (timestamp t) = true.
Proof. by destruct t. Qed.

Definition status_types : gmap string (list string) :=
  <["invoice_status"%string := labels]> {["htlc_status"%string := labels]}.

Lemma invoice_columns h r rows :
  is_i64 (Pg.i_AmountMsat r) → - 2 ^ 31 ≤ Pg.i_SequenceNum r < 2 ^ 31 →
  forallb (column_ok status_types (invoice_row h r)) (t_columns (invoices_table rows)) = true ↔
  length h = 32%nat ∧ length (Pg.i_Preimage r) = 32%nat ∧ 0 < Pg.i_AmountMsat r.
Proof.
  intros Ha Hs. destruct (invoice_row_get h r) as (G1 & G2 & G3 & G4 & G5 & G6 & G7).
  unfold invoices_table, col, column_ok. cbn [t_columns forallb c_name c_type c_not_null c_check].
  rewrite G1, G2, G3, G4, G5, G6, G7.
  rewrite (label_ok invoice_label) by (done || by destruct (Pg.i_Status r); repeat constructor).
  rewrite timestamp_ok. cbn [has_type passes andb negb].
  rewrite (bool_decide_eq_true_2 _ Ha), (bool_decide_eq_true_2 _ Hs).
  rewrite !andb_true_iff, !bool_decide_eq_true. intuition.
Qed.

Lemma htlc_columns k r rows :
  is_i64 (Pg.h_AmountMsat r) →
  forallb (column_ok status_types (htlc_row k r)) (t_columns (htlcs_table rows)) = true ↔
  length (Pg.h_Hash r) = 32%nat ∧ length (Node k) = 33%nat ∧ 0 < Pg.h_AmountMsat r.
Proof.
  intros Ha. destruct (htlc_row_get k r) as (G1 & G2 & G3 & G4 & G5 & G6 & G7 & G8).
  unfold htlcs_table, col, column_ok. cbn [t_columns forallb c_name c_type c_not_null c_check].
  rewrite G1, G2, G3, G4, G5, G6, G7, G8.
  rewrite (label_ok htlc_label) by (done || by destruct (Pg.h_Status r); repeat constructor).
  rewrite timestamp_ok. cbn [has_type passes andb negb].
  rewrite (bool_decide_eq_true_2 _ Ha), !(bool_decide_eq_true_2 _ (i64_range _)).
  rewrite !andb_true_iff, !bool_decide_eq_true. intuition.
Qed.

Lemma invoice_fresh h r (db : Pg.database) (name : string) (v : Hash → Pg.dbInvoice → value) :
  (∀ h r, get (invoice_row h r) name = v h r) → v h r ≠ Null →
  fresh [name] (invoice_row h r) ((λ kr, invoice_row kr.1 kr.2) <$> map_to_list (Pg.invoices db)) = true ↔
  map_Forall (λ h' r', v h' r' ≠ v h r) (Pg.invoices db).
Proof.
  intros Hg Hn. rewrite fresh_map by (repeat constructor; by rewrite Hg). simpl.
  split; intros Hf h' r' Hr; specialize (Hf h' r' Hr); simpl in *; rewrite !Hg in *; congruence.
Qed.

Lemma htlc_fresh k r (db : Pg.database) :
  HtlcKey_wf k → map_Forall (λ k _, HtlcKey_wf k) (Pg.htlcs db) →
  fresh ["node"; "chan_id"; "htlc_id"]%string (htlc_row k r)
    ((λ kr, htlc_row kr.1 kr.2) <$> map_to_list (Pg.htlcs db)) = true ↔ Pg.htlcs db !! k = None.
Proof.
  intros (_ & _ & Hc & Hi) Hwf. rewrite fresh_map by (repeat constructor; done).
  change (map_Forall (λ k' (_ : Pg.dbHtlc),
    [Bytes (Node k'); Int (i64 (ChanID k')); Int (i64 (HtlcID k'))] ≠
    [Bytes (Node k); Int (i64 (ChanID k)); Int (i64 (HtlcID k))]) (Pg.htlcs db) ↔ Pg.htlcs db !! k = None).
  split.
  - intros Hf. apply eq_None_not_Some. intros [r' Hr]. by apply (Hf k r' Hr).
  - intros Hn k' r' Hr [= H1 H2 H3]. destruct (Hwf k' r' Hr) as (_ & _ & Hc' & Hi').
    apply (f_equal u64) in H2, H3. rewrite !u64_i64 in H2, H3 by done.
    destruct k, k'; simpl in *; congruence.
Qed.

Lemma htlc_references k r (db : Pg.database) :
  references (represent db) (htlc_row k r) ("hash", "invoices", "hash")%string = true ↔
  is_Some (Pg.invoices db !! Pg.h_Hash r).
Proof.
  change (references (represent db) (htlc_row k r) ("hash", "invoices", "hash")%string) with
    (bool_decide (Bytes (Pg.h_Hash r) = Null) ||
     bool_decide (Exists (λ r', get r' "hash"%string = Bytes (Pg.h_Hash r))
       ((λ kr, invoice_row kr.1 kr.2) <$> map_to_list (Pg.invoices db)))).
  simpl. rewrite bool_decide_eq_true, Exists_exists. split.
  - intros (r' & ([h inv] & -> & Hin)%list_elem_of_fmap & Hg).
    destruct (invoice_row_get h inv) as (_ & G & _). simpl in Hg. rewrite G in Hg.
    injection Hg as <-. exists inv. by apply elem_of_map_to_list.
  - intros [inv Hinv]. exists (invoice_row (Pg.h_Hash r) inv). split; [|by destruct (invoice_row_get (Pg.h_Hash r) inv) as (_ & G & _)].
    apply list_elem_of_fmap. exists (Pg.h_Hash r, inv). split; [done|]. by apply elem_of_map_to_list.
Qed.

(** ** Properties *)

(** C24. The migrations produce the tables that the persister expects: run on an
    empty database they all succeed, and in the schema they leave, a row is
    accepted by PostgreSQL exactly when the model of [RequestSettle] accepts it
    (hashes and preimages of 32 bytes, nodes of 33, positive amounts, unique
    hash and preimage, unique circuit key, existing invoice). The sequence
    number is a 32-bit counter: it has to be new and in range. *)
Theorem schema_enforces_rows (db : Pg.database)
    (Hwf : map_Forall (λ k _, HtlcKey_wf k) (Pg.htlcs db)) :
  exec_all (up1 ++ up2 ++ up3 ++ up4) empty_schema = Good (migrated [] []) ∧
  (∀ h r, is_i64 (Pg.i_AmountMsat r) → - 2 ^ 31 ≤ Pg.i_SequenceNum r < 2 ^ 31 →
     map_Forall (λ _ r', Pg.i_SequenceNum r' ≠ Pg.i_SequenceNum r) (Pg.invoices db) →
     row_allowed (represent db) "invoices" (invoice_row h r) = true ↔ Pg.invoice_row_ok h r db) ∧
  (∀ k r, HtlcKey_wf k → is_i64 (Pg.h_AmountMsat r) →
     row_allowed (represent db) "htlcs" (htlc_row k r) = true ↔ Pg.htlc_row_ok k r db).
Proof.
  split; [exact migrated_ok|]. split.
  - intros h r Ha Hs Hseq.
    set (rows := (λ kr, invoice_row kr.1 kr.2) <$> map_to_list (Pg.invoices db)).
    assert (row_allowed (represent db) "invoices" (invoice_row h r) =
      forallb (column_ok status_types (invoice_row h r)) (t_columns (invoices_table rows)) &&
      (fresh ["preimage"%string] (invoice_row h r) rows &&
       (fresh ["sequence_num"%string] (invoice_row h r) rows && true)) &&
      fresh ["hash"%string] (invoice_row h r) rows && true) as -> by reflexivity.
    rewrite !andb_true_iff, invoice_columns by done. subst rows.
    rewrite (invoice_fresh _ _ _ _ (λ _ r, Bytes (Pg.i_Preimage r))) by done.
    rewrite (invoice_fresh _ _ _ _ (λ _ r, Int (Pg.i_SequenceNum r))) by done.
    rewrite (invoice_fresh _ _ _ _ (λ h _, Bytes h)) by done.
    unfold Pg.invoice_row_ok.
    assert (map_Forall (λ h' (_ : Pg.dbInvoice), Bytes h' ≠ Bytes h) (Pg.invoices db) ↔
      Pg.invoices db !! h = None) as ->.
    { split; [intros Hf; apply eq_None_not_Some; intros [r' Hr]; by apply (Hf h r' Hr)|].
      intros Hn h' r' Hr [= ->]. congruence. }
    assert (map_Forall (λ _ r', Bytes (Pg.i_Preimage r') ≠ Bytes (Pg.i_Preimage r)) (Pg.invoices db) ↔
      map_Forall (λ _ r', Pg.i_Preimage r' ≠ Pg.i_Preimage r) (Pg.invoices db)) as ->.
    { split; intros Hf h' r' Hr; specialize (Hf h' r' Hr); simpl in *; congruence. }
    assert (map_Forall (λ _ r', Int (Pg.i_SequenceNum r') ≠ Int (Pg.i_SequenceNum r)) (Pg.invoices db)).
    { intros h' r' Hr [= Heq]. by apply (Hseq h' r' Hr). }
    tauto.
  - intros k r Hk Ha. set (rows := (λ kr, htlc_row kr.1 kr.2) <$> map_to_list (Pg.htlcs db)).
    assert (row_allowed (represent db) "htlcs" (htlc_row k r) =
      forallb (column_ok status_types (htlc_row k r)) (t_columns (htlcs_table rows)) && true &&
      fresh ["node"; "chan_id"; "htlc_id"]%string (htlc_row k r) rows &&
      (references (represent db) (htlc_row k r) ("hash", "invoices", "hash")%string && true))
      as -> by reflexivity.
    rewrite !andb_true_iff, htlc_columns, htlc_references by done. subst rows.
    rewrite htlc_fresh by done. unfold Pg.htlc_row_ok. tauto.
Qed.

(** A column that must not be null and has no default is refused as soon as the
    table has a row. *)
Lemma add_not_null ts c t :
  c_not_null c = true → c_default c = NoDefault → t_rows t ≠ [] → ∃ e, add_column ts c t = Bad e.
Proof.
  intros Hn Hd Hr. unfold add_column. destruct (has_column t (c_name c)); [eauto|].
  destruct (t_rows t) as [|r rs]; [done|]. cbn [fill forallb]. rewrite Hd.
  assert (column_ok ts (<[c_name c := Null]> r) c = false) as ->; [|simpl; eauto].
  unfold column_ok, get. rewrite (lookup_insert_eq r). simpl. by rewrite Hn.
Qed.

Lemma exec_all_bad sts st sts' s :
  (∀ s', exec_all sts s = Good s' → ∃ e, exec st s' = Bad e) →
  ∃ e, exec_all (sts ++ st :: sts') s = Bad e.
Proof.
  revert s. induction sts as [|st0 sts IH]; intros s Hb; simpl.
  - destruct (Hb s eq_refl) as [e ->]. by exists e.
  - simpl in Hb. destruct (exec st0 s) as [s1|e]; simpl; [|by exists e]. by apply IH.
Qed.

(** Where the migrations do not work: [2_add.node.up.sql] adds a NOT NULL
    column without a default and fails on every database that has an htlc,
    [4_add_status.up.sql] likewise on every database that has an invoice, so
    that its UPDATE statements, which convert existing rows, only ever run on
    empty tables; [2_add.node.down.sql] fails on every database, because
    dropping the column "node" has already dropped the primary key it then asks
    to drop. *)
Theorem migrations_that_fail (s : schema) (t : table) :
  (tables s !! "htlcs"%string = Some t → t_rows t ≠ [] → ∃ e, exec_all up2 s = Bad e) ∧
  (tables s !! "invoices"%string = Some t → t_rows t ≠ [] → ∃ e, exec_all up4 s = Bad e) ∧
  (∀ ns, tables s !! "htlcs"%string = Some t → t_pkey t = Some ns → "node"%string ∈ ns →
     ∃ e, exec_all down2 s = Bad e).
Proof.
  split_and!.
  - intros Ht Hr. apply (exec_all_bad []). intros s' [= <-]. simpl. unfold with_table. rewrite Ht.
    destruct (add_not_null (types s) (col "node" BYTEA true NoDefault (Some (LengthIs 33))) t)
      as [e ->]; [done..|]. by exists e.
  - intros Ht Hr. apply (exec_all_bad [CreateType "invoice_status" labels]). intros s'. simpl.
    destruct (types s !! "invoice_status"%string); [done|]. intros [= <-]. unfold with_table; simpl.
    rewrite Ht. match goal with |- context [add_column ?ts ?c t] =>
      destruct (add_not_null ts c t) as [e ->]; [done..|] end. by exists e.
  - intros ns Ht Hp Hn. apply (exec_all_bad [DropColumn "htlcs" "node"]). intros s'. simpl.
    unfold with_table at 1. rewrite Ht. unfold drop_column.
    destruct (has_column t "node"); simpl; [|done]. intros [= <-]. unfold with_table; simpl.
    rewrite (lookup_insert_eq (tables s)). simpl. rewrite Hp, bool_decide_eq_true_2 by done. simpl. eauto.
Qed.

Module Witness.
Import RealLntypes PgFacts.Example.

(** An invoice and an htlc as the service stored them before version 2. *)
Definition old_rows : list row :=
  [list_to_map [("hash", Bytes (PreimageHash pre)); ("preimage", Bytes pre);
                ("amount_msat", Int 100); ("settled", Bool false)]%string].

Definition before_4 : schema :=
  MkSchema {["invoices"%string := MkTable [] (Some ["hash"%string]) [] old_rows]} ∅.

Lemma migrations_that_fail_witness :
  (∃ e, exec_all up4 before_4 = Bad e) ∧ ∃ e, exec_all down2 (migrated [] []) = Bad e.
Proof.
  split.
  - apply (proj1 (proj2 (migrations_that_fail before_4
      (MkTable [] (Some ["hash"%string]) [] old_rows)))); [reflexivity|discriminate].
  - apply (proj2 (proj2 (migrations_that_fail (migrated [] []) (htlcs_table [])))
      ["node"; "chan_id"; "htlc_id"]%string); [reflexivity|reflexivity|left].
Defined.

Lemma schema_enforces_rows_witness :
  row_allowed (represent Pg.empty_database) "invoices"
    (invoice_row (PreimageHash pre) (Pg.MkDbInvoice 1 pre 100 0 None InvoiceStatusSettleRequested)) = true.
Proof.
  apply (proj1 (proj2 (schema_enforces_rows Pg.empty_database (map_Forall_empty _)))
    (PreimageHash pre) (Pg.MkDbInvoice 1 pre 100 0 None InvoiceStatusSettleRequested)).
  - split; simpl; lia.
  - simpl; lia.
  - apply map_Forall_empty.
  - repeat split; try (simpl; lia); apply map_Forall_empty.
Defined.

End Witness.
End Migrations.
