(* ===== verification/Registry.v ===== *)
(** The invoice registry, [invoiceregistry.go], with its subscription manager,
    [subscription_manager.go].

    The registry is a single goroutine that serves one request at a time; one
    iteration of [invoiceEventLoop] is one call of [iteration]. Callbacks
    (resolvers of htlcs, accept subscribers) are identified by numbers and what
    they are called with is recorded, oldest first, in [effects]. Clock readings
    and failures of the database during an iteration are inputs ([Env]), one for
    each place of the code that can see one. *)

From stdpp Require Import numbers strings base fin_maps gmap list.
From stdpp Require Import options.
From S2P Require Import Prelude Sha256 Types SetIds HtlcSets StatelessData Persistence.

(** ** subscription_manager.go *)
Module Subs.

Abbreviation AcceptCallback := nat (only parsing).

Record subscriptionManager := MkSubs {
  acceptSubscriptions : gmap Z AcceptCallback;
  nextSubscriberId : Z;
  lastSubscriberRemovedAt : Time;
  gracePeriodWithoutSubscribers : Z
}.

(** [time.Time.Sub] saturates at the bounds of a [Duration]. *)
Definition Sub (t u : Time) : Z :=
  Z.max (- 2 ^ 63) (Z.min (2 ^ 63 - 1) (t - u)).

Definition newSubscriptionManager (grace : Z) : subscriptionManager :=
  MkSubs ∅ 0 Pg.zero_time grace.

Definition addAcceptSubscription (id : Z) (callback : AcceptCallback)
    (s : subscriptionManager) : subscriptionManager :=
  MkSubs (<[id := callback]> (acceptSubscriptions s)) (nextSubscriberId s)
    (lastSubscriberRemovedAt s) (gracePeriodWithoutSubscribers s).

Definition deleteAcceptSubscription (now : Time) (id : Z) (s : subscriptionManager) :
    subscriptionManager :=
  match acceptSubscriptions s !! id with
  | None => s
  | Some _ => MkSubs (delete id (acceptSubscriptions s)) (nextSubscriberId s) now
                (gracePeriodWithoutSubscribers s)
  end.

Definition generateSubscriptionId (s : subscriptionManager) : Z * subscriptionManager :=
  let n := u64 (nextSubscriberId s + 1) in
  (i64 n, MkSubs (acceptSubscriptions s) n (lastSubscriberRemovedAt s)
            (gracePeriodWithoutSubscribers s)).

Definition hasRecentSubscribers (now : Time) (s : subscriptionManager) : bool :=
  bool_decide (0 < size (acceptSubscriptions s))%nat ||
  (Sub now (lastSubscriberRemovedAt s) <=? gracePeriodWithoutSubscribers s).

End Subs.

Module Registry.
Import Subs.

Abbreviation Resolver := nat (only parsing).

Record RegistryConfig := MkRegistryConfig {
  FinalCltvRejectDelta : Z;
  HtlcHoldDuration : Z;
  AcceptTimeout : Z;
  PrivKey : bytes;
  AutoSettle : bool;
  GracePeriodWithoutSubscribers : Z
}.

(** The MPP record of the onion payload ([record.MPP]). *)
Record MPP := MkMPP { TotalMsat : Z; mpp_PaymentAddr : bytes }.

Record registryHtlc := MkRegistryHtlc {
  rHash : Hash;
  amtPaid : Z;
  expiry : Z;
  currentHeight : Z;
  circuitKey : HtlcKey;
  payload : option MPP;
  resolve : Resolver
}.

(** A call of a resolver, with the circuit key of the htlc it answers, or of an
    accept subscriber. *)
Inductive effect :=
  | Resolved (key : HtlcKey) (r : Resolver) (res : HtlcResolution)
  | Notified (cb : AcceptCallback) (hash : Hash) (setID : SetID).

(** What an iteration reads from the clock and from the database connection. *)
Record Env := MkEnv {
  t_tick : Time;      (** the clock when the loop waits for the next release *)
  t_expiry : Time;    (** [statelessData.expiry.Before(time.Now())] *)
  t_recent : Time;    (** [time.Since(s.lastSubscriberRemovedAt)] *)
  t_release : Time;   (** [time.Now().Add(i.cfg.HtlcHoldDuration)] *)
  t_accept : Time;    (** [time.Now().Add(i.cfg.AcceptTimeout)] *)
  t_remove : Time;    (** [s.lastSubscriberRemovedAt = time.Now()] *)
  t_db : Time;        (** [time.Now().UTC()] in the transaction *)
  db_Get : option string;
  db_RequestSettle : option string
}.

Record InvoiceRegistry {Q : Type} := MkRegistry {
  cdb : Pg.database;
  hodlSubscriptions : gmap HtlcKey (list Resolver);
  sets : gmap (list Z) Sets.htlcSetImpl;
  autoReleaseHeap : Q;
  subs : subscriptionManager;
  effects : list effect
}.
Arguments InvoiceRegistry : clear implicits.
Arguments MkRegistry {_} _ _ _ _ _ _.

Section Registry.
Context {Q : Type} `{PriorityQueue Q} `{Lntypes}.
Implicit Types (w : InvoiceRegistry Q) (h : registryHtlc) (env : Env).

Definition set_cdb (db : Pg.database) w : InvoiceRegistry Q :=
  MkRegistry db (hodlSubscriptions w) (sets w) (autoReleaseHeap w) (subs w) (effects w).
Definition set_hodl (m : gmap HtlcKey (list Resolver)) w : InvoiceRegistry Q :=
  MkRegistry (cdb w) m (sets w) (autoReleaseHeap w) (subs w) (effects w).
Definition set_sets (s : gmap (list Z) Sets.htlcSetImpl) w : InvoiceRegistry Q :=
  MkRegistry (cdb w) (hodlSubscriptions w) s (autoReleaseHeap w) (subs w) (effects w).
Definition set_heap (q : Q) w : InvoiceRegistry Q :=
  MkRegistry (cdb w) (hodlSubscriptions w) (sets w) q (subs w) (effects w).
Definition set_subs (s : subscriptionManager) w : InvoiceRegistry Q :=
  MkRegistry (cdb w) (hodlSubscriptions w) (sets w) (autoReleaseHeap w) s (effects w).
Definition emit (es : list effect) w : InvoiceRegistry Q :=
  MkRegistry (cdb w) (hodlSubscriptions w) (sets w) (autoReleaseHeap w) (subs w) (effects w ++ es).

(** [NewRegistry], on a given database. *)
Definition NewRegistry (cfg : RegistryConfig) (db : Pg.database) : InvoiceRegistry Q :=
  MkRegistry db ∅ Sets.newHtlcSets pq_new
    (newSubscriptionManager (GracePeriodWithoutSubscribers cfg)) [].

(** ** Subscriptions and timers *)

Definition hodlSubscribe (subscriber : Resolver) (key : HtlcKey) w : InvoiceRegistry Q :=
  let subscriptions := default [] (hodlSubscriptions w !! key) in
  set_hodl (<[key := subscriptions ++ [subscriber]]> (hodlSubscriptions w)) w.

Definition notifyHodlSubscribers (key : HtlcKey) (res : HtlcResolution) w : InvoiceRegistry Q :=
  match hodlSubscriptions w !! key with
  | None => w
  | Some subscribers =>
      set_hodl (delete key (hodlSubscriptions w))
        (emit ((λ s, Resolved key s res) <$> subscribers) w)
  end.

Definition notifySubscribers (hash : Hash) (setID : SetID) w : InvoiceRegistry Q :=
  emit ((λ cb, Notified cb hash setID) <$> map_vals (acceptSubscriptions (subs w))) w.

Definition startAcceptTimer (cfg : RegistryConfig) env (hash : Hash) w : InvoiceRegistry Q :=
  let releaseTime := Time.Add (t_accept env) (AcceptTimeout cfg) in
  set_heap (pq_Push (acceptTimeoutEvent hash releaseTime) (autoReleaseHeap w)) w.

Definition startHtlcTimer (hash : Hash) (key : HtlcKey) (releaseTime : Time) w :
    InvoiceRegistry Q :=
  set_heap (pq_Push (htlcReleaseEvent hash releaseTime key) (autoReleaseHeap w)) w.

(** ** Removing htlcs *)

Definition cancelSingleHtlc (hash : Hash) (key : HtlcKey) (result : FailResolutionResult) w :
    outcome (InvoiceRegistry Q) :=
  match Sets.get hash (sets w) with
  | None => Ok w
  | Some set =>
      match Sets.isComplete set with
      | Some _ => Ok w
      | None =>
          s' ← Sets.deleteHtlc key hash set (sets w);
          Ok (notifyHodlSubscribers key (NewFailResolution result) (set_sets s' w))
      end
  end.

(** [set.deleteAll] with a callback that sends one resolution. *)
Definition resolveAll (set : Sets.htlcSetImpl) (res : HtlcResolution) w :
    outcome (InvoiceRegistry Q) :=
  '(s', w') ← Sets.deleteAll (λ key w, notifyHodlSubscribers key res w) set (sets w) w;
  Ok (set_sets s' w').

Definition failInvoice (hash : Hash) w : outcome (InvoiceRegistry Q) :=
  match Sets.get hash (sets w) with
  | None => Ok w
  | Some set => resolveAll set (NewFailResolution ResultAcceptTimeout) w
  end.

Definition requestSettle (set : Sets.htlcSetImpl) w : outcome (InvoiceRegistry Q) :=
  resolveAll set (NewSettleResolution (Sets.preimage (Sets.params set)) ResultSettled) w.

Definition markSettleRequested env (set : Sets.htlcSetImpl) w :
    InvoiceRegistry Q * option Error :=
  let htlcMap := Sets.getHtlcMap set in
  let invoice := MkInvoiceCreationData (Sets.preimage (Sets.params set))
                   (u64 (Sets.value (Sets.params set))) (Sets.paymentAddr (Sets.params set)) in
  let '(db', err) := Pg.RequestSettle (db_RequestSettle env) (t_db env) invoice htlcMap (cdb w) in
  (set_cdb db' w,
   match err with
   | None => None
   | Some e => Some (ErrWrap "cannot request settle in database" e)
   end).

(** ** Incoming htlcs *)

(** Calling [h.resolve]. *)
Definition resolveHtlc h (res : HtlcResolution) w : InvoiceRegistry Q :=
  emit [Resolved (circuitKey h) (resolve h) res] w.

Definition resolveViaDb env h w : InvoiceRegistry Q * res bool :=
  match Pg.Get (db_Get env) (rHash h) (cdb w) with
  | Bad err => if decide (err = ErrInvoiceNotFound) then (w, Good false) else (w, Bad err)
  | Good (dbInvoice, htlcs) =>
      if bool_decide (size htlcs = 0%nat) then
        (w, Bad (ErrNew "unexpected unsettled invoice"))
      else
        match htlcs !! circuitKey h with
        | Some _ =>
            (resolveHtlc h (NewSettleResolution (PaymentPreimage (Pg.creation dbInvoice))
                              ResultReplayToSettled) w, Good true)
        | None => (resolveHtlc h (NewFailResolution ResultInvoiceNotOpen) w, Good true)
        end
  end.

(** The checks on a new htlc, in the order of the code: invoice expiry,
    overpayment of the set, block height. *)
Definition checkNewHtlc (cfg : RegistryConfig) env h (mpp : MPP) (sd : Stateless.statelessData)
    (setTotal : Z) : option FailResolutionResult :=
  if Time.Before (Stateless.expiry sd) (t_expiry env) then Some ResultInvoiceExpired
  else
    let newSetTotal := u64 (u64 setTotal + amtPaid h) in
    if TotalMsat mpp <? newSetTotal then Some ResultHtlcSetOverpayment
    else if expiry h <? u32 (i32 (currentHeight h + FinalCltvRejectDelta cfg)) then
      Some ResultExpiryTooSoon
    else None.

(** Store the htlc in its set; [None] when a new set cannot be started because
    no application listens. *)
Definition addToSet (cfg : RegistryConfig) env h (mpp : MPP) (sd : Stateless.statelessData)
    (set : option Sets.htlcSetImpl) w :
    outcome (option (Sets.htlcSetImpl * InvoiceRegistry Q)) :=
  match set with
  | None =>
      if negb (AutoSettle cfg) && negb (hasRecentSubscribers (t_recent env) (subs w)) then Ok None
      else
        '(set', s') ← Sets.add (Sets.MkParams (Stateless.sd_preimage sd) (Stateless.amtMsat sd)
                                  (mpp_PaymentAddr mpp))
                        (circuitKey h) (i64 (amtPaid h)) (sets w);
        Ok (Some (set', set_sets s' w))
  | Some set =>
      set' ← Sets.addHtlc (circuitKey h) (i64 (amtPaid h)) set;
      Ok (Some (set', set_sets (Sets.update (rHash h) set' (sets w)) w))
  end.

(** The end of [process]: the htlc is in [set]; hold it or complete the set. *)
Definition afterAccept (cfg : RegistryConfig) env h (sd : Stateless.statelessData)
    (set : Sets.htlcSetImpl) w : outcome (InvoiceRegistry Q * option Error) :=
  match Sets.isComplete set with
  | None =>
      let releaseTime := Time.Add (t_release env) (HtlcHoldDuration cfg) in
      let releaseTime := if Time.After releaseTime (Stateless.expiry sd)
                         then Stateless.expiry sd else releaseTime in
      Ok (startHtlcTimer (rHash h) (circuitKey h) releaseTime w, None)
  | Some setID =>
      let w1 := notifySubscribers (rHash h) setID (startAcceptTimer cfg env (rHash h) w) in
      if AutoSettle cfg then
        match markSettleRequested env set w1 with
        | (w2, Some err) => Ok (w2, Some err)
        | (w2, None) => w3 ← requestSettle set w2; Ok (w3, None)
        end
      else Ok (w1, None)
  end.

(** [process] once the payment parameters are known to be ours. *)
Definition processInvoiceHtlc (cfg : RegistryConfig) env h (mpp : MPP)
    (sd : Stateless.statelessData) w : outcome (InvoiceRegistry Q * option Error) :=
  let set := Sets.get (rHash h) (sets w) in
  if match set with Some s => Sets.accepted s (circuitKey h) | None => false end then
    Ok (hodlSubscribe (resolve h) (circuitKey h) w, None)
  else
    let setTotal := match set with Some s => Sets.totalSetAmt s | None => 0 end in
    match checkNewHtlc cfg env h mpp sd setTotal with
    | Some result => Ok (resolveHtlc h (NewFailResolution result) w, None)
    | None =>
        r ← addToSet cfg env h mpp sd set w;
        match r with
        | None => Ok (resolveHtlc h (NewFailResolution ResultNoAcceptSubscriber) w, None)
        | Some (set', w1) =>
            afterAccept cfg env h sd set' (hodlSubscribe (resolve h) (circuitKey h) w1)
        end
    end.

Definition process (cfg : RegistryConfig) env h w : outcome (InvoiceRegistry Q * option Error) :=
  match resolveViaDb env h w with
  | (w, Bad err) => Ok (w, Some err)
  | (w, Good true) => Ok (w, None)
  | (w, Good false) =>
      match payload h with
      | None => Ok (resolveHtlc h (NewFailResolution ResultHtlcInvoiceTypeMismatch) w, None)
      | Some mpp =>
          if decide (TotalMsat mpp = 0) then
            Ok (resolveHtlc h (NewFailResolution ResultHtlcSetTotalTooLow) w, None)
          else
            match Stateless.decodeStatelessData (PrivKey cfg) (mpp_PaymentAddr mpp) with
            | Bad err => Ok (w, Some err)
            | Good sd =>
                if decide (PreimageHash (Stateless.sd_preimage sd) ≠ rHash h) then
                  Ok (resolveHtlc h (NewFailResolution ResultAddressMismatch) w, None)
                else if decide (TotalMsat mpp ≠ u64 (Stateless.amtMsat sd)) then
                  Ok (resolveHtlc h (NewFailResolution ResultHtlcSetTotalMismatch) w, None)
                else processInvoiceHtlc cfg env h mpp sd w
            end
      end
  end.

(** ** Requests *)

(** [getAcceptedSet] returns (set, requestErr, err): [Bad err], [Good (Bad
    requestErr)] or [Good (Good set)]. *)
Definition getAcceptedSet env (hash : Hash) (setID : SetID) w :
    res (res Sets.htlcSetImpl) :=
  match Sets.get hash (sets w) with
  | None =>
      match Pg.Get (db_Get env) hash (cdb w) with
      | Bad err => if decide (err = ErrInvoiceNotFound) then Good (Bad ErrInvoiceNotFound)
                   else Bad err
      | Good (_, htlcs) =>
          if decide (setID ≠ SetID.newSetID (map_keys htlcs)) then Good (Bad ErrInvoiceNotFound)
          else Good (Bad ErrSettleRequested)
      end
  | Some set =>
      match Sets.isComplete set with
      | None => Good (Bad ErrInvoiceNotFound)
      | Some setHash =>
          if decide (setHash ≠ setID) then Good (Bad ErrInvoiceNotFound) else Good (Good set)
      end
  end.

(** The handlers return (requestErr, err): [Bad err] or [Good requestErr]. *)
Definition handleCancelRequest env (hash : Hash) (setID : SetID) w :
    outcome (InvoiceRegistry Q * res (option Error)) :=
  match getAcceptedSet env hash setID w with
  | Bad err => Ok (w, Bad err)
  | Good (Bad requestErr) => Ok (w, Good (Some requestErr))
  | Good (Good set) =>
      w' ← resolveAll set (NewFailResolution ResultInvoiceNotOpen) w;
      Ok (w', Good None)
  end.

Definition handleSettleRequest (cfg : RegistryConfig) env (hash : Hash) (setID : SetID) w :
    outcome (InvoiceRegistry Q * res (option Error)) :=
  match getAcceptedSet env hash setID w with
  | Bad err => Ok (w, Bad err)
  | Good (Bad requestErr) =>
      if decide (requestErr = ErrSettleRequested) then Ok (w, Good None)
      else Ok (w, Good (Some requestErr))
  | Good (Good set) =>
      if AutoSettle cfg then Ok (w, Good (Some ErrAutoSettling))
      else
        match markSettleRequested env set w with
        | (w1, Some err) => Ok (w1, Bad err)
        | (w1, None) => w2 ← requestSettle set w1; Ok (w2, Good None)
        end
  end.

Definition addAcceptSubscriber (id : Z) (callback : AcceptCallback) w : InvoiceRegistry Q :=
  Sets.forEach (λ set w,
      match Sets.isComplete set with
      | None => w
      | Some setID => emit [Notified callback (Sets.hash set) setID] w
      end)
    (sets w) (set_subs (addAcceptSubscription id callback (subs w)) w).

(** ** The event loop *)

(** What one iteration of the [select] receives. [EvFinal] is not an event of
    the registry: it is a transaction of a node settled handler, which shares
    the database. *)
Inductive event :=
  | EvTick (env : Env)
  | EvHtlc (env : Env) (htlc : registryHtlc)
  | EvSubscribe (id : Z) (callback : AcceptCallback)
  | EvUnsubscribe (env : Env) (id : Z)
  | EvSettle (env : Env) (hash : Hash) (setID : SetID)
  | EvCancel (env : Env) (hash : Hash) (setID : SetID)
  | EvShutdown
  | EvFinal (fault : option string) (now : Time) (key : HtlcKey) (settled : bool).

(** An iteration continues, with the response sent to the requester if there is
    one, or the loop returns. *)
Inductive loop_status :=
  | Continue (response : option (option Error))
  | Exit (err : Error).

Definition reply (r : InvoiceRegistry Q * res (option Error)) : InvoiceRegistry Q * loop_status :=
  match r with
  | (w, Bad err) => (w, Exit err)
  | (w, Good requestErr) => (w, Continue (Some requestErr))
  end.

(** The release tick fires when the head of the heap is due. *)
Definition releaseDue (now : Time) w : option (releaseEvent * Q) :=
  match pq_Pop (autoReleaseHeap w) with
  | Some (head, q') => if getReleaseTime head <=? now then Some (head, q') else None
  | None => None
  end.

Definition iteration (cfg : RegistryConfig) (ev : event) w :
    outcome (InvoiceRegistry Q * loop_status) :=
  match ev with
  | EvTick env =>
      match releaseDue (t_tick env) w with
      | None => Ok (w, Continue None)
      | Some (head, q') =>
          w' ← match head with
               | htlcReleaseEvent hash _ key =>
                   cancelSingleHtlc hash key ResultMppTimeout (set_heap q' w)
               | acceptTimeoutEvent hash _ => failInvoice hash (set_heap q' w)
               end;
          Ok (w', Continue None)
      end
  | EvHtlc env htlc =>
      '(w', _) ← process cfg env htlc w;
      Ok (w', Continue None)
  | EvSubscribe id callback => Ok (addAcceptSubscriber id callback w, Continue None)
  | EvUnsubscribe env id =>
      Ok (set_subs (deleteAcceptSubscription (t_remove env) id (subs w)) w, Continue None)
  | EvSettle env hash setID =>
      r ← handleSettleRequest cfg env hash setID w; Ok (reply r)
  | EvCancel env hash setID =>
      r ← handleCancelRequest env hash setID w; Ok (reply r)
  | EvShutdown => Ok (w, Exit ErrCanceled)
  | EvFinal fault now key settled =>
      Ok (set_cdb (Pg.MarkHtlcFinal fault now key settled (cdb w)).1 w, Continue None)
  end.

(** ** The process

    When the loop returns or panics the process ends; the next instance starts
    from the database. Effects already produced stay visible. *)
Definition restart (cfg : RegistryConfig) w : InvoiceRegistry Q :=
  emit (effects w) (NewRegistry cfg (cdb w)).

Definition is_Notified (e : effect) : bool :=
  match e with Notified _ _ _ => true | _ => false end.

(** The process is killed while it runs the iteration that leads from [w] to
    [w']: after the iteration's transaction has committed and [n] of its calls
    have been made, or before, when only calls of accept subscribers have been
    made (the code resolves no htlc before the transaction). *)
Definition killed (cfg : RegistryConfig) (committed : bool) (n : nat) w w' : InvoiceRegistry Q :=
  let calls := take n (drop (length (effects w)) (effects w')) in
  if committed then emit (effects w ++ calls) (NewRegistry cfg (cdb w'))
  else emit (effects w ++ filter is_Notified calls) (NewRegistry cfg (cdb w)).

Inductive sys_event :=
  | SysEvent (ev : event)
  | SysKill (committed : bool) (n : nat) (ev : event).

Definition sys_step (cfg : RegistryConfig) w (sev : sys_event) : InvoiceRegistry Q :=
  match sev with
  | SysEvent ev =>
      match iteration cfg ev w with
      | Ok (w', Continue _) => w'
      | Ok (w', Exit _) => restart cfg w'
      | Panic _ => restart cfg w
      end
  | SysKill committed n ev =>
      match iteration cfg ev w with
      | Ok (w', _) => killed cfg committed n w w'
      | Panic _ => restart cfg w
      end
  end.

Definition run (cfg : RegistryConfig) (evs : list sys_event) w : InvoiceRegistry Q :=
  foldl (sys_step cfg) w evs.

End Registry.
End Registry.
