(* ===== verification/RegistryFacts.v ===== *)
(** The invariant of the invoice registry and what one iteration of its event
    loop can do. [Inv] relates the in-memory sets, the resolver subscriptions,
    the release heap and the database; [step_ok] says what an iteration may add
    to the database and to the resolutions. Everything is proved for any
    priority queue that satisfies the interface. *)

From stdpp Require Import numbers strings base fin_maps gmap list.
From stdpp Require Import options.
From S2P Require Import Prelude Sha256 Types SetIds HtlcSets StatelessData Persistence PersistenceFacts Registry.

Set Default Proof Using "Type*".

Module RegFacts.
Import Subs Registry PgFacts.

(** ** Notifications *)

Section Notify.
Context {Q : Type} `{PriorityQueue Q} `{Lntypes}.
Implicit Types (w : InvoiceRegistry Q).

Definition notify_all (keys : list HtlcKey) (res : HtlcResolution) w : InvoiceRegistry Q :=
  foldl (λ w key, notifyHodlSubscribers key res w) w keys.

(** The resolutions sent for [keys], given the subscriptions [m]. *)
Definition resolutions (m : gmap HtlcKey (list nat)) (keys : list HtlcKey)
    (res : HtlcResolution) : list effect :=
  keys ≫= λ k, (λ s, Resolved k s res) <$> default [] (m !! k).

Lemma notify_fields k res w :
  cdb (notifyHodlSubscribers k res w) = cdb w ∧
  sets (notifyHodlSubscribers k res w) = sets w ∧
  autoReleaseHeap (notifyHodlSubscribers k res w) = autoReleaseHeap w ∧
  subs (notifyHodlSubscribers k res w) = subs w ∧
  hodlSubscriptions (notifyHodlSubscribers k res w) = delete k (hodlSubscriptions w) ∧
  effects (notifyHodlSubscribers k res w) =
    effects w ++ resolutions (hodlSubscriptions w) [k] res.
Proof.
  unfold notifyHodlSubscribers, resolutions.
  destruct (hodlSubscriptions w !! k) as [l|] eqn:E; simpl; rewrite E; simpl.
  - by rewrite app_nil_r.
  - rewrite delete_id, app_nil_r by done. done.
Qed.

Lemma notify_all_fields keys res w :
  cdb (notify_all keys res w) = cdb w ∧
  sets (notify_all keys res w) = sets w ∧
  autoReleaseHeap (notify_all keys res w) = autoReleaseHeap w ∧
  subs (notify_all keys res w) = subs w.
Proof.
  revert w. induction keys as [|k keys IH]; intros w; simpl; [done|].
  destruct (IH (notifyHodlSubscribers k res w)) as (-> & -> & -> & ->).
  destruct (notify_fields k res w) as (-> & -> & -> & -> & _). done.
Qed.

Lemma notify_all_hodl keys res w k :
  hodlSubscriptions (notify_all keys res w) !! k =
  if decide (k ∈ keys) then None else hodlSubscriptions w !! k.
Proof.
  revert w. induction keys as [|k' keys IH]; intros w.
  { rewrite decide_False; [done|apply not_elem_of_nil]. }
  change (notify_all (k' :: keys) res w)
    with (notify_all keys res (notifyHodlSubscribers k' res w)). rewrite IH.
  destruct (notify_fields k' res w) as (_ & _ & _ & _ & -> & _).
  destruct (decide (k = k')) as [->|].
  - rewrite lookup_delete_eq. rewrite (decide_True (P := k' ∈ k' :: keys)) by left.
    by case_decide.
  - rewrite lookup_delete_ne by done. repeat case_decide; set_solver.
Qed.

Lemma resolutions_delete m k keys res :
  k ∉ keys → resolutions (delete k m) keys res = resolutions m keys res.
Proof.
  intros Hk. unfold resolutions. induction keys as [|k' keys IH]; simpl; [done|].
  rewrite lookup_delete_ne by set_solver. f_equal. apply IH. set_solver.
Qed.

Lemma notify_all_effects keys res w :
  NoDup keys →
  effects (notify_all keys res w) = effects w ++ resolutions (hodlSubscriptions w) keys res.
Proof.
  revert w. induction keys as [|k keys IH]; intros w Hnd; simpl; [by rewrite app_nil_r|].
  apply NoDup_cons in Hnd as [Hk Hnd].
  fold (notify_all keys res (notifyHodlSubscribers k res w)). rewrite IH by done.
  destruct (notify_fields k res w) as (_ & _ & _ & _ & -> & ->).
  rewrite resolutions_delete by done. rewrite <- app_assoc. f_equal.
  unfold resolutions; simpl. by rewrite app_nil_r.
Qed.

Lemma elem_of_resolutions m keys res e :
  e ∈ resolutions m keys res ↔
  ∃ k s l, e = Resolved k s res ∧ k ∈ keys ∧ m !! k = Some l ∧ s ∈ l.
Proof.
  unfold resolutions. rewrite list_elem_of_bind. split.
  - intros (k & He & Hk). apply list_elem_of_fmap in He as (s & -> & Hs).
    destruct (m !! k) as [l|] eqn:E; simpl in Hs; [|by apply elem_of_nil in Hs].
    by exists k, s, l.
  - intros (k & s & l & -> & Hk & Hl & Hs). exists k. split; [|done].
    rewrite Hl; simpl. apply list_elem_of_fmap. eauto.
Qed.

(** [resolveAll] on a set that is stored under its own hash. *)
Lemma resolveAll_spec set res w :
  is_Some (sets w !! Sets.hash set) →
  ∃ w', resolveAll set res w = Ok w' ∧
    cdb w' = cdb w ∧ autoReleaseHeap w' = autoReleaseHeap w ∧ subs w' = subs w ∧
    sets w' = delete (Sets.hash set) (sets w) ∧
    (∀ k, hodlSubscriptions w' !! k =
       if decide (is_Some (Sets.htlcs set !! k)) then None else hodlSubscriptions w !! k) ∧
    effects w' = effects w ++
      resolutions (hodlSubscriptions w) (map_keys (Sets.htlcs set)) res.
Proof.
  intros [s Hs]. unfold resolveAll, Sets.deleteAll, Sets.delete_set. rewrite Hs; simpl.
  fold (notify_all (map_keys (Sets.htlcs set)) res w). eexists. split; [done|]. simpl.
  destruct (notify_all_fields (map_keys (Sets.htlcs set)) res w) as (-> & _ & -> & ->).
  split_and!; try done.
  - intros k. rewrite notify_all_hodl.
    destruct (decide (is_Some (Sets.htlcs set !! k))) as [Hk|Hk].
    + by rewrite decide_True by by apply elem_of_map_keys.
    + rewrite decide_False; [done|]. by rewrite elem_of_map_keys.
  - apply notify_all_effects, map_keys_NoDup.
Qed.

End Notify.

(** ** The invariant *)

Section Inv.
Context {Q : Type} `{PriorityQueue Q} `{!PriorityQueueLaws Q} `{Lntypes}.
Context (cfg : RegistryConfig).

(** The payment hash of the htlc with a given circuit key: lnd never reuses a
    circuit key, so it identifies one htlc. *)
Context (key_hash : HtlcKey → Hash).

(** The amount of the invoice with a given payment hash. Two payment addresses
    with the same payment hash and different amounts would be a collision of
    the preimage derivation. *)
Context (inv_amount : Hash → Z).

Implicit Types (w : InvoiceRegistry Q) (h : Hash) (s : Sets.htlcSetImpl).

(** Htlcs the nodes can send: amounts below the supply of bitcoin fit in an
    [int64]. *)
Record wf_htlc (htlc : registryHtlc) : Prop := {
  wf_key : key_hash (circuitKey htlc) = rHash htlc;
  wf_amt : 0 ≤ amtPaid htlc < 2 ^ 63;
  wf_total mpp : payload htlc = Some mpp → 0 ≤ TotalMsat mpp < 2 ^ 63;
  wf_addr mpp sd : payload htlc = Some mpp →
    Stateless.decodeStatelessData (PrivKey cfg) (mpp_PaymentAddr mpp) = Good sd →
    PreimageHash (Stateless.sd_preimage sd) = rHash htlc →
    Stateless.amtMsat sd = inv_amount (rHash htlc)
}.

Definition wf_event (ev : event) : Prop :=
  match ev with EvHtlc _ htlc => wf_htlc htlc | _ => True end.

(** A set stored under hash [h]. *)
Record set_ok h s : Prop := {
  so_hash : Sets.hash s = h;
  so_value : Sets.value (Sets.params s) = inv_amount h;
  so_keys : map_Forall (λ k a, key_hash k = h ∧ 0 ≤ a) (Sets.htlcs s);
  so_ne : Sets.htlcs s ≠ ∅;
  so_total : Sets.exact_total s ≤ inv_amount h < 2 ^ 63
}.

Definition held s (k : HtlcKey) : Prop := is_Some (Sets.htlcs s !! k).

(** A timer will release every htlc of the set. *)
Definition timers (q : Q) h s : Prop :=
  (∃ t, acceptTimeoutEvent h t ∈ pq_items q) ∨
  (Sets.isComplete s = None ∧ ∀ k, held s k → ∃ t, htlcReleaseEvent h t k ∈ pq_items q).

Record core w : Prop := {
  co_set h s : sets w !! h = Some s → set_ok h s;
  co_hodl k : is_Some (hodlSubscriptions w !! k) ↔
              ∃ s, sets w !! key_hash k = Some s ∧ held s k;
  co_hodl_ne k l : hodlSubscriptions w !! k = Some l → l ≠ [];
  co_timer h s : sets w !! h = Some s → timers (autoReleaseHeap w) h s
}.

(** What is stored is consistent and fully paid. *)
Record db_ok (db : Pg.database) : Prop := {
  do_cons : consistent db;
  do_key k r : Pg.htlcs db !! k = Some r → key_hash k = Pg.h_Hash r;
  do_paid h inv : Pg.invoices db !! h = Some inv →
    PreimageHash (Pg.i_Preimage inv) = h ∧
    Zsum (map_vals (Pg.htlcs_of h db)) = Pg.i_AmountMsat inv ∧
    Pg.i_AmountMsat inv = inv_amount h
}.

Definition disjoint_db w : Prop :=
  ∀ h, is_Some (sets w !! h) → Pg.invoices (cdb w) !! h = None.

Definition Inv w : Prop := core w ∧ db_ok (cdb w) ∧ disjoint_db w.

(** The preimage [p] settles htlc [k] according to the database. *)
Definition settled_in (db : Pg.database) (k : HtlcKey) (p : Preimage) : Prop :=
  ∃ r inv, Pg.htlcs db !! k = Some r ∧ Pg.invoices db !! Pg.h_Hash r = Some inv ∧
    Pg.i_Preimage inv = p ∧ Pg.h_Hash r = key_hash k.

(** A resolution agrees with the database. *)
Definition effect_ok (db : Pg.database) (e : effect) : Prop :=
  match e with
  | Resolved k _ (HtlcFailResolution _) => Pg.htlcs db !! k = None
  | Resolved k _ (HtlcSettleResolution p _) => settled_in db k p
  | Notified _ _ _ => True
  end.

Record step_ok w w' : Prop := {
  st_inv : Inv w';
  st_le : db_le (cdb w) (cdb w');
  st_eff : ∃ new, effects w' = effects w ++ new ∧ Forall (effect_ok (cdb w')) new
}.

(** *** Small facts *)

Lemma settled_in_mono db db' k p : db_le db db' → settled_in db k p → settled_in db' k p.
Proof.
  intros [Hi Hh _] (r & inv & Hr & Hinv & Hp & Hk).
  apply Hh in Hr as (r' & Hr' & E1 & _ & _). apply Hi in Hinv as (inv' & Hinv' & E2 & _).
  exists r', inv'. rewrite E1. split_and!; try done; congruence.
Qed.

Lemma no_row w k :
  db_ok (cdb w) → Pg.invoices (cdb w) !! key_hash k = None → Pg.htlcs (cdb w) !! k = None.
Proof.
  intros Hdb Hnone. destruct (Pg.htlcs (cdb w) !! k) as [r|] eqn:E; [|done]. exfalso.
  pose proof (do_key _ Hdb _ _ E) as Hk. apply (c_fk _ (do_cons _ Hdb)) in E.
  rewrite <- Hk, Hnone in E. by destruct E.
Qed.

Lemma exact_total_nonneg h s : set_ok h s → 0 ≤ Sets.exact_total s.
Proof.
  intros Hs. apply Zsum_nonneg, Forall_forall. intros a [k Hk]%elem_of_map_vals.
  by apply (so_keys _ _ Hs) in Hk as [_ ?].
Qed.

Lemma complete_iff h s :
  set_ok h s → Sets.isComplete s = None ↔ Sets.exact_total s < inv_amount h.
Proof.
  intros Hs. pose proof (exact_total_nonneg h s Hs). destruct Hs as [_ Hv _ _ Ht].
  rewrite Sets.isComplete_None, Sets.totalSetAmt_small, Hv by lia. lia.
Qed.

Lemma timers_push e q h s : timers q h s → timers (pq_Push e q) h s.
Proof.
  unfold timers. setoid_rewrite (pq_Push_items e q).
  intros [(t & Ht)|(Hc & Hk)]; [left; exists t; by right|right].
  split; [done|]. intros k (t & Ht)%Hk. exists t. by right.
Qed.

Lemma step_ok_refl w : Inv w → step_ok w w.
Proof. intros Hi. split; [done|done|]. exists []. by rewrite app_nil_r. Qed.

Lemma inv_restart w : db_ok (cdb w) → Inv (restart cfg w).
Proof.
  intros Hdb. split_and!; [|done|].
  - split; simpl.
    + intros h s. unfold Sets.newHtlcSets. by rewrite lookup_empty.
    + intros k. rewrite lookup_empty. unfold Sets.newHtlcSets. setoid_rewrite lookup_empty.
      split; [by intros []|by intros (? & ? & _)].
    + intros k l. by rewrite lookup_empty.
    + intros h s. unfold Sets.newHtlcSets. by rewrite lookup_empty.
  - intros h; simpl. unfold Sets.newHtlcSets. rewrite lookup_empty. by intros [].
Qed.

(** Replacing components that the invariant does not read. *)
Lemma core_ext w w' :
  sets w' = sets w → hodlSubscriptions w' = hodlSubscriptions w →
  (∀ h s, timers (autoReleaseHeap w) h s → timers (autoReleaseHeap w') h s) →
  core w → core w'.
Proof.
  intros Es Eh Ht [H1 H2 H3 H4]. split.
  - intros h s. rewrite Es. apply H1.
  - intros k. rewrite Es, Eh. apply H2.
  - intros k l. rewrite Eh. apply H3.
  - intros h s. rewrite Es. eauto.
Qed.

(** *** Removing a whole set *)

Lemma core_resolveAll set res w w' h :
  core w → sets w !! h = Some set → resolveAll set res w = Ok w' →
  core w' ∧ cdb w' = cdb w ∧ sets w' = delete h (sets w) ∧
  ∃ new, effects w' = effects w ++ new ∧
    Forall (λ e, ∃ k r, e = Resolved k r res ∧ held set k) new.
Proof.
  intros Hc Hs Hr. pose proof (co_set _ Hc _ _ Hs) as Hok.
  destruct (resolveAll_spec set res w) as (w2 & Hr2 & Ed & Eq & _ & Es & Eh & Ee).
  { rewrite (so_hash _ _ Hok). eauto. }
  rewrite Hr in Hr2. simplify_eq. rewrite (so_hash _ _ Hok) in Es.
  split_and!; [|done|done|].
  - split.
    + intros h' s'. rewrite Es, lookup_delete_Some. intros [_ ?]. by apply (co_set _ Hc).
    + intros k. rewrite Eh, Es. destruct (decide (key_hash k = h)) as [Hk|Hk].
      * rewrite Hk, lookup_delete_eq. split; [|by intros (? & ? & _)].
        case_decide as Hd; [by intros []|].
        intros (s' & Hs' & Hh)%(co_hodl _ Hc). rewrite Hk in Hs'. by simplify_eq.
      * rewrite lookup_delete_ne by done. rewrite <- (co_hodl _ Hc).
        rewrite decide_False; [done|]. intros [a Ha].
        apply (so_keys _ _ Hok) in Ha as [? _]. done.
    + intros k l. rewrite Eh. case_decide; [done|]. apply (co_hodl_ne _ Hc).
    + intros h' s'. rewrite Es, Eq, lookup_delete_Some. intros [_ ?].
      by apply (co_timer _ Hc).
  - eexists. split; [exact Ee|]. apply Forall_forall.
    intros e (k & r & l & -> & Hk & _)%elem_of_resolutions.
    exists k, r. split; [done|]. by apply elem_of_map_keys.
Qed.

(** Failing a set that is in memory. *)
Lemma step_fail_set set result w h :
  Inv w → sets w !! h = Some set →
  ∃ w', resolveAll set (NewFailResolution result) w = Ok w' ∧ step_ok w w'.
Proof.
  intros (Hc & Hdb & Hdis) Hs. pose proof (co_set _ Hc _ _ Hs) as Hok.
  destruct (resolveAll_spec set (NewFailResolution result) w) as (w' & Hr & _).
  { rewrite (so_hash _ _ Hok). eauto. }
  exists w'. split; [done|].
  apply (core_resolveAll _ _ _ _ h) in Hr as (Hc' & Ed & Es & new & Ee & Hnew); [|done..].
  split.
  - split_and!; [done|by rewrite Ed|]. intros h'. rewrite Es, Ed.
    intros [? [_ Hx]%lookup_delete_Some]. apply Hdis. eauto.
  - by rewrite Ed.
  - exists new. split; [done|]. eapply Forall_impl; [exact Hnew|].
    intros e (k & r & -> & [a Ha]); simpl. rewrite Ed. apply no_row; [done|].
    apply (so_keys _ _ Hok) in Ha as [Hk _]. rewrite Hk. apply Hdis. eauto.
Qed.

(** *** Settling a complete set *)

Lemma mark_fields env set w w1 o :
  markSettleRequested env set w = (w1, o) →
  sets w1 = sets w ∧ hodlSubscriptions w1 = hodlSubscriptions w ∧
  autoReleaseHeap w1 = autoReleaseHeap w ∧ effects w1 = effects w.
Proof.
  unfold markSettleRequested. destruct (Pg.RequestSettle _ _ _ _ _) as [db' err].
  by intros [= <- _].
Qed.

Lemma step_mark_fails env set w w1 e :
  Inv w → markSettleRequested env set w = (w1, Some e) → step_ok w w1.
Proof.
  intros (Hc & Hdb & Hdis) Hm.
  pose proof (mark_fields _ _ _ _ _ Hm) as (Es & Eh & Eq & Ee). revert Hm.
  unfold markSettleRequested. destruct (Pg.RequestSettle _ _ _ _ _) as [db' err] eqn:Hrs.
  intros [= Hw1 Herr]. destruct err as [e'|]; [|done].
  apply RequestSettle_err in Hrs as [Ei Ehh].
  assert (Hcdb : cdb w1 = db') by by subst. split.
  - split_and!.
    + eapply core_ext; [done..| |done]. by rewrite Eq.
    + rewrite Hcdb. destruct Hdb as [H1 H2 H3]. split.
      * by apply (consistent_same (cdb w)).
      * intros k r. rewrite Ehh. apply H2.
      * intros h inv. rewrite Ei. unfold Pg.htlcs_of. rewrite Ehh. apply H3.
    + intros h. rewrite Es, Hcdb, Ei. apply Hdis.
  - rewrite Hcdb. by apply db_le_same.
  - exists []. by rewrite app_nil_r.
Qed.

(** The database after a complete set has been stored. *)
Lemma db_ok_settle env set w w1 h :
  db_ok (cdb w) → set_ok h set → Sets.exact_total set = inv_amount h →
  markSettleRequested env set w = (w1, None) →
  db_ok (cdb w1) ∧ db_le (cdb w) (cdb w1) ∧
  (∀ h', h' ≠ h → Pg.invoices (cdb w1) !! h' = Pg.invoices (cdb w) !! h') ∧
  (∀ k, held set k → settled_in (cdb w1) k (Sets.preimage (Sets.params set))) ∧
  Pg.htlcs_of h (cdb w1) = Sets.htlcs set.
Proof.
  intros Hdb Hok Htot. unfold markSettleRequested. rewrite Sets.getHtlcMap_eq.
  destruct (Pg.RequestSettle _ _ _ _ _) as [db' [e|]] eqn:Hrs; [done|]. intros [= <-].
  simpl. pose proof (db_le_RequestSettle _ _ _ _ _ _ _ Hrs) as Hle.
  pose proof (consistent_RequestSettle _ _ _ _ _ _ _ (so_ne _ _ Hok) (do_cons _ Hdb) Hrs) as Hcons.
  apply RequestSettle_ok in Hrs as (_ & Hnone & _ & Ei & Eh & Hhs). simpl in *.
  assert (Hhash : PreimageHash (Sets.preimage (Sets.params set)) = h)
    by by rewrite <- (so_hash _ _ Hok).
  rewrite Hhash in *. rewrite (so_value _ _ Hok) in Ei.
  pose proof (exact_total_nonneg h set Hok) as Hnn. pose proof (so_total _ _ Hok) as Ht.
  assert (Hnew : ∀ k a, Sets.htlcs set !! k = Some a →
    Pg.htlcs db' !! k = Some (Pg.MkDbHtlc h a (Pg.timestamptz (t_db env)) None HtlcStatusSettleRequested)).
  { intros k a Ha. rewrite Eh. apply lookup_union_Some_l. unfold new_rows.
    by rewrite lookup_fmap, Ha. }
  split_and!; [|done| | |by eapply htlcs_of_new; [apply Hdb|..]].
  - split; [done| |].
    + intros k r. rewrite Eh, lookup_union_Some_raw. unfold new_rows. rewrite lookup_fmap.
      intros [(a & Ha & ->)%fmap_Some|[_ Hr]]; [|by apply (do_key _ Hdb)].
      by apply (so_keys _ _ Hok) in Ha as [? _].
    + intros h' inv. rewrite Ei, lookup_insert_Some. intros [[<- <-]|[Hn Hi]]; simpl.
      * rewrite i64_u64 by (unfold is_i64; lia).
        rewrite (htlcs_of_new (t_db env) (Sets.htlcs set) (cdb w)); [|apply Hdb|done|done].
        done.
      * rewrite (htlcs_of_old (t_db env) (Sets.htlcs set) (cdb w) db' h) by done.
        by apply (do_paid _ Hdb).
  - intros h' Hn. by rewrite Ei, lookup_insert_ne.
  - intros k [a Ha]. eexists _, _. split; [by apply Hnew|]; simpl.
    rewrite Ei, lookup_insert_eq. split_and!; [done|done|].
    by apply (so_keys _ _ Hok) in Ha as [? _].
Qed.

Lemma step_settle env set w w1 h id :
  Inv w → sets w !! h = Some set → Sets.isComplete set = Some id →
  markSettleRequested env set w = (w1, None) →
  ∃ w', requestSettle set w1 = Ok w' ∧ step_ok w w'.
Proof.
  intros (Hc & Hdb & Hdis) Hs Hcomp Hm. pose proof (co_set _ Hc _ _ Hs) as Hok.
  pose proof (mark_fields _ _ _ _ _ Hm) as (Es & Ehd & Eq & Ee).
  assert (Htot : Sets.exact_total set = inv_amount h).
  { pose proof (so_total _ _ Hok). destruct (decide (Sets.exact_total set < inv_amount h)) as [Hlt|];
      [|lia]. apply (complete_iff _ _ Hok) in Hlt. congruence. }
  destruct (db_ok_settle env set w w1 h) as (Hdb1 & Hle & Hoth & Hset & _); [done..|].
  assert (Hc1 : core w1) by (eapply core_ext; [done..| |done]; by rewrite Eq).
  rewrite <- Es in Hs. unfold requestSettle.
  destruct (resolveAll_spec set (NewSettleResolution (Sets.preimage (Sets.params set)) ResultSettled) w1)
    as (w' & Hr & _); [rewrite (so_hash _ _ Hok); eauto|].
  exists w'. split; [done|].
  apply (core_resolveAll _ _ _ _ h) in Hr as (Hc' & Ed & Es' & new & Ee' & Hnew); [|done..].
  split.
  - split_and!; [done|by rewrite Ed|]. intros h'. rewrite Es', Ed, Es.
    intros [? [Hn Hx]%lookup_delete_Some]. rewrite Hoth by done. apply Hdis. eauto.
  - by rewrite Ed.
  - exists new. rewrite Ee', Ee. split; [done|]. eapply Forall_impl; [exact Hnew|].
    intros e (k & r & -> & Hk); simpl. rewrite Ed. by apply Hset.
Qed.

(** *** Emitting and renaming steps *)

Definition is_notification (e : effect) : Prop :=
  match e with Notified _ _ _ => True | _ => False end.

Lemma step_ok_from w w1 w' new :
  cdb w1 = cdb w → effects w1 = effects w ++ new → Forall is_notification new →
  step_ok w1 w' → step_ok w w'.
Proof.
  intros Ed Ee Hn [Hi Hle (new' & Ee' & Hf)]. split; [done|by rewrite <- Ed|].
  exists (new ++ new'). rewrite Ee', Ee, <- app_assoc. split; [done|].
  apply Forall_app. split; [|done]. eapply Forall_impl; [exact Hn|]. by intros [].
Qed.

Lemma inv_emit es w : Inv w → Inv (emit es w).
Proof.
  intros (Hc & Hdb & Hdis). split_and!; [|done|done]. by eapply core_ext; [..|exact Hc].
Qed.

Lemma step_emit es w : Inv w → Forall (effect_ok (cdb w)) es → step_ok w (emit es w).
Proof. intros Hi Hes. split; [by apply inv_emit|done|]. by exists es. Qed.

(** *** Release ticks *)

Definition event_hash (e : releaseEvent) : Hash :=
  match e with htlcReleaseEvent h _ _ => h | acceptTimeoutEvent h _ => h end.

Lemma releaseDue_Some now w e q' :
  releaseDue now w = Some (e, q') →
  pq_Pop (autoReleaseHeap w) = Some (e, q') ∧ getReleaseTime e ≤ now.
Proof.
  unfold releaseDue. destruct (pq_Pop _) as [[e1 q1]|]; [|done].
  destruct (getReleaseTime e1 <=? now) eqn:E; [|done]. intros [= <- <-].
  split; [done|lia].
Qed.

(** An event other than the popped one is still queued. *)
Lemma pop_keeps q e q' e' :
  pq_Pop q = Some (e, q') → e' ∈ pq_items q → e' ≠ e → e' ∈ pq_items q'.
Proof.
  intros [Hp _]%pq_Pop_items. rewrite Hp, elem_of_cons. naive_solver.
Qed.

Lemma timers_pop_other q e q' h s :
  pq_Pop q = Some (e, q') → h ≠ event_hash e → timers q h s → timers q' h s.
Proof.
  intros Hp Hn [(t & Ht)|(Hc & Hk)].
  - left. exists t. eapply pop_keeps; [done..|]. by intros <-.
  - right. split; [done|]. intros k (t & Ht)%Hk. exists t.
    eapply pop_keeps; [done..|]. by intros <-.
Qed.

Lemma core_pop w e q' :
  core w → pq_Pop (autoReleaseHeap w) = Some (e, q') →
  (∀ s, sets w !! event_hash e = Some s → timers q' (event_hash e) s) →
  core (set_heap q' w).
Proof.
  intros [H1 H2 H3 H4] Hp Ht. split; simpl; try done.
  intros h s Hs. destruct (decide (h = event_hash e)) as [->|]; [by apply Ht|].
  eapply timers_pop_other; eauto.
Qed.

Lemma step_heap w q' : Inv w → core (set_heap q' w) → step_ok w (set_heap q' w).
Proof.
  intros (Hc & Hdb & Hdis) Hc'. split; [by split_and!|done|].
  exists []. by rewrite app_nil_r.
Qed.

Lemma resolveAll_set_heap set res w w' q :
  resolveAll set res w = Ok w' → resolveAll set res (set_heap q w) = Ok (set_heap q w').
Proof.
  assert (Hn : ∀ keys (x : InvoiceRegistry Q),
    notify_all keys res (set_heap q x) = set_heap q (notify_all keys res x)).
  { induction keys as [|k keys IH]; intros x; simpl; [done|].
    unfold notify_all in *; simpl. rewrite <- IH. f_equal.
    unfold notifyHodlSubscribers; simpl. by case_match. }
  unfold resolveAll, Sets.deleteAll; simpl. destruct (Sets.delete_set _ _); simpl; [|done].
  intros [= <-]. specialize (Hn (map_keys (Sets.htlcs set)) w). unfold notify_all in Hn.
  by rewrite Hn.
Qed.

Lemma step_accept_timeout w h t q' :
  Inv w → pq_Pop (autoReleaseHeap w) = Some (acceptTimeoutEvent h t, q') →
  ∃ w', failInvoice h (set_heap q' w) = Ok w' ∧ step_ok w w'.
Proof.
  intros Hi Hp. pose proof Hi as (Hc & Hdb & Hdis). unfold failInvoice, Sets.get; simpl.
  destruct (sets w !! h) as [set|] eqn:Hs.
  - destruct (step_fail_set set ResultAcceptTimeout w h Hi Hs) as (w' & Hr & Hok).
    pose proof (core_resolveAll _ _ _ _ _ Hc Hs Hr) as (Hc' & Ed & Es & _).
    exists (set_heap q' w'). split; [by apply resolveAll_set_heap|].
    destruct (resolveAll_spec set (NewFailResolution ResultAcceptTimeout) w) as (w2 & Hr2 & _ & Eq & _).
    { rewrite (so_hash _ _ (co_set _ Hc _ _ Hs)). eauto. }
    rewrite Hr in Hr2. simplify_eq. destruct Hok as [(_ & ? & ?) Hle Heff].
    split; [|done|done]. split_and!; [|done|done].
    eapply core_pop; [done|by rewrite Eq|]. intros s; simpl. rewrite Es, lookup_delete_eq. done.
  - eexists. split; [done|]. apply step_heap; [done|].
    eapply core_pop; [done..|]. simpl. by rewrite Hs.
Qed.

Lemma set_ok_delete h s k a :
  set_ok h s → Sets.htlcs s !! k = Some a → delete k (Sets.htlcs s) ≠ ∅ →
  set_ok h (Sets.MkSet (Sets.params s) (delete k (Sets.htlcs s))).
Proof.
  intros [H1 H2 H3 H4 H5] Hk Hne. split; simpl; try done.
  - by apply map_Forall_delete.
  - rewrite (Sets.exact_total_delete s k a) by done.
    apply H3 in Hk as [_ ?]. lia.
Qed.

(** The registry after [cancelSingleHtlc] has removed an htlc. *)
(** What [deleteHtlc] leaves of the sets. *)
Lemma deleteHtlc_result h s (k : HtlcKey) (a : Z) (ss s' : gmap (list Z) Sets.htlcSetImpl) :
  set_ok h s → Sets.htlcs s !! k = Some a → Sets.deleteHtlc k h s ss = Ok s' →
  (delete k (Sets.htlcs s) = ∅ ∧ s' = delete h ss) ∨
  (delete k (Sets.htlcs s) ≠ ∅ ∧
   s' = <[h := Sets.MkSet (Sets.params s) (delete k (Sets.htlcs s))]> ss).
Proof.
  intros Hok Hk. unfold Sets.deleteHtlc. rewrite Hk. cbn [Sets.htlcs]. case_bool_decide as Hsz.
  - rewrite map_size_empty_iff in Hsz. unfold Sets.delete_set, Sets.hash; simpl.
    pose proof (so_hash _ _ Hok) as Hh. unfold Sets.hash in Hh. rewrite Hh.
    unfold Sets.update. rewrite lookup_insert_eq, delete_insert_eq. intros [= <-]. by left.
  - rewrite map_size_empty_iff in Hsz. intros [= <-]. by right.
Qed.

Lemma core_cancel w h s (k : HtlcKey) (a : Z) (res : HtlcResolution) (q' : Q)
    (e : releaseEvent) (s' : gmap (list Z) Sets.htlcSetImpl) :
  core w → sets w !! h = Some s → Sets.isComplete s = None →
  Sets.htlcs s !! k = Some a →
  pq_Pop (autoReleaseHeap w) = Some (e, q') → (∃ t, e = htlcReleaseEvent h t k) →
  Sets.deleteHtlc k h s (sets w) = Ok s' →
  core (notifyHodlSubscribers k res (set_sets s' (set_heap q' w))).
Proof.
  intros Hc Hs Hinc Hk Hp [t ->] Hdel. pose proof (co_set _ Hc _ _ Hs) as Hok.
  pose proof (so_keys _ _ Hok _ _ Hk) as [Hkh Ha].
  set (s1 := Sets.MkSet (Sets.params s) (delete k (Sets.htlcs s))).
  pose proof (deleteHtlc_result _ _ _ _ _ _ Hok Hk Hdel) as Hs'. fold s1 in Hs'.
  destruct (notify_fields k res (set_sets s' (set_heap q' w))) as (_ & Es & Eq & _ & Eh & _).
  assert (Hoth : ∀ h', h' ≠ h → s' !! h' = sets w !! h').
  { intros h' Hn. destruct Hs' as [[_ ->]|[_ ->]];
      [by rewrite lookup_delete_ne|by rewrite lookup_insert_ne]. }
  assert (Hat : ∀ x, s' !! h = Some x → x = s1 ∧ delete k (Sets.htlcs s) ≠ ∅).
  { intros x. destruct Hs' as [[_ ->]|[? ->]]; [by rewrite lookup_delete_eq|].
    rewrite lookup_insert_eq. by intros [= <-]. }
  split; rewrite ?Es, ?Eq, ?Eh; simpl.
  - intros h' x Hx. destruct (decide (h' = h)) as [->|]; [|rewrite Hoth in Hx by done; by apply (co_set _ Hc)].
    apply Hat in Hx as [-> ?]. by eapply set_ok_delete.
  - intros k'. destruct (decide (k' = k)) as [->|Hkk].
    + rewrite lookup_delete_eq. split; [by intros []|]. intros (x & Hx & [b Hb]).
      rewrite Hkh in Hx. apply Hat in Hx as [-> _]. simpl in Hb. by rewrite lookup_delete_eq in Hb.
    + rewrite lookup_delete_ne by done. rewrite (co_hodl _ Hc).
      destruct (decide (key_hash k' = h)) as [Hk'|]; [|by rewrite Hoth].
      rewrite Hk', Hs. split.
      * intros (x & [= <-] & [b Hb]). exists s1.
        destruct Hs' as [[He _]|[_ ->]].
        { rewrite map_empty in He. specialize (He k'). rewrite lookup_delete_ne in He by done. congruence. }
        rewrite lookup_insert_eq. split; [done|]. exists b; simpl. by rewrite lookup_delete_ne.
      * intros (x & Hx & [b Hb]). apply Hat in Hx as [-> _]. exists s. split; [done|].
        simpl in Hb. rewrite lookup_delete_ne in Hb by done. by exists b.
  - intros k' l. rewrite lookup_delete_Some. intros [_ ?]. by eapply co_hodl_ne.
  - intros h' x Hx. destruct (decide (h' = h)) as [->|].
    + apply Hat in Hx as [-> Hne]. destruct (co_timer _ Hc _ _ Hs) as [(t' & Ht')|[_ Hev]].
      * left. exists t'. by eapply pop_keeps.
      * right. split.
        { apply (complete_iff h); [by eapply set_ok_delete|].
          apply (complete_iff _ _ Hok) in Hinc. unfold s1.
          rewrite (Sets.exact_total_delete s k a) by done. lia. }
        intros k' [b Hb]. simpl in Hb. apply lookup_delete_Some in Hb as [Hn Hb].
        destruct (Hev k') as [t' Ht']; [by exists b|]. exists t'. eapply pop_keeps; [done..|].
        intros [= _ <-]. done.
    + rewrite Hoth in Hx by done. eapply timers_pop_other; [done| |by apply (co_timer _ Hc)]. done.
Qed.

Lemma step_htlc_release w h t k q' :
  Inv w → pq_Pop (autoReleaseHeap w) = Some (htlcReleaseEvent h t k, q') →
  match cancelSingleHtlc h k ResultMppTimeout (set_heap q' w) with
  | Ok w' => step_ok w w'
  | Panic _ => ∃ s, sets w !! h = Some s ∧ Sets.isComplete s = None ∧ ¬ held s k
  end.
Proof.
  intros Hi Hp. pose proof Hi as (Hc & Hdb & Hdis). unfold cancelSingleHtlc, Sets.get; simpl.
  destruct (sets w !! h) as [s|] eqn:Hs.
  2:{ apply step_heap; [done|]. eapply core_pop; [done..|]. simpl. by rewrite Hs. }
  destruct (Sets.isComplete s) as [id|] eqn:Hcomp.
  { apply step_heap; [done|]. eapply core_pop; [done..|]; simpl. rewrite Hs. intros x [= <-].
    destruct (co_timer _ Hc _ _ Hs) as [(t' & Ht')|[? _]]; [|congruence].
    left. exists t'. by eapply pop_keeps. }
  destruct (Sets.htlcs s !! k) as [a|] eqn:Hk.
  2:{ unfold Sets.deleteHtlc. rewrite Hk; simpl. exists s. split_and!; try done.
      intros [? ?]. congruence. }
  pose proof (co_set _ Hc _ _ Hs) as Hok.
  destruct (Sets.deleteHtlc k h s (sets w)) as [s'|msg] eqn:Hdel; simpl.
  2:{ exfalso. revert Hdel. unfold Sets.deleteHtlc. rewrite Hk. case_bool_decide; [|done].
      unfold Sets.delete_set, Sets.hash; simpl. pose proof (so_hash _ _ Hok) as Hh.
      unfold Sets.hash in Hh. rewrite Hh. unfold Sets.update. by rewrite lookup_insert_eq. }
  assert (Hsub : ∀ h', is_Some (s' !! h') → is_Some (sets w !! h')).
  { intros h' Hx. revert Hdel. unfold Sets.deleteHtlc. rewrite Hk. case_bool_decide.
    - unfold Sets.delete_set. case_match; [|done]. intros [= <-]. destruct Hx as [x Hx].
      apply lookup_delete_Some in Hx as [_ Hx]. unfold Sets.update in Hx.
      apply lookup_insert_Some in Hx as [[<- _]|[_ ?]]; eauto.
    - intros [= <-]. destruct Hx as [x Hx]. unfold Sets.update in Hx.
      apply lookup_insert_Some in Hx as [[<- _]|[_ ?]]; eauto. }
  destruct (notify_fields k (NewFailResolution ResultMppTimeout) (set_sets s' (set_heap q' w)))
    as (Ed & Es & _ & _ & _ & Ee). simpl in Ed, Es. split.
  - split_and!.
    + by eapply core_cancel; eauto.
    + by rewrite Ed.
    + intros h'. rewrite Es, Ed. intros Hx. by apply Hdis, Hsub.
  - by rewrite Ed.
  - eexists. split; [exact Ee|]. apply Forall_forall.
    intros e (k' & r & l & -> & ->%list_elem_of_singleton & _)%elem_of_resolutions. simpl.
    rewrite Ed. apply no_row; [done|].
    apply (so_keys _ _ Hok) in Hk as [-> _]. apply Hdis. eauto.
Qed.

(** *** Incoming htlcs *)

Lemma step_resolve_fail w htlc result :
  Inv w → key_hash (circuitKey htlc) = rHash htlc →
  Pg.invoices (cdb w) !! rHash htlc = None →
  step_ok w (resolveHtlc htlc (NewFailResolution result) w).
Proof.
  intros Hi Hk Hnone. apply step_emit; [done|]. apply Forall_singleton; simpl.
  apply no_row; [apply Hi|by rewrite Hk].
Qed.

(** Another resolver for an htlc that is already held. *)
Lemma step_hodlSubscribe w k r s :
  Inv w → sets w !! key_hash k = Some s → held s k → step_ok w (hodlSubscribe r k w).
Proof.
  intros ([H1 H2 H3 H4] & Hdb & Hdis) Hs Hk. split.
  - split_and!; [|done|done]. split; simpl; try done.
    + intros k'. rewrite <- H2. destruct (decide (k' = k)) as [->|].
      * rewrite lookup_insert_eq. split; [|eauto]. intros _. apply H2. eauto.
      * by rewrite lookup_insert_ne.
    + intros k' l. rewrite lookup_insert_Some. intros [[_ <-]|[_ ?]]; [|eauto].
      by destruct (default [] _).
  - done.
  - exists []. by rewrite app_nil_r.
Qed.

(** A new htlc stored in its set, with its timer. *)
Lemma core_add w h k r set' q' :
  core w → key_hash k = h → set_ok h set' →
  (∀ k', held set' k' ↔ k' = k ∨ ∃ s, sets w !! h = Some s ∧ held s k') →
  (∀ h' s, timers (autoReleaseHeap w) h' s → timers q' h' s) → timers q' h set' →
  core (set_heap q' (hodlSubscribe r k (set_sets (<[h := set']> (sets w)) w))).
Proof.
  intros Hc Hk Hok Hheld Hq Ht. split; simpl.
  - intros h' s. rewrite lookup_insert_Some. intros [[<- <-]|[_ ?]]; [done|].
    by apply (co_set _ Hc).
  - intros k'. destruct (decide (k' = k)) as [->|Hn].
    + rewrite Hk, !lookup_insert_eq. split; [|eauto]. intros _. exists set'. split; [done|].
      apply Hheld. by left.
    + rewrite lookup_insert_ne by done. rewrite (co_hodl _ Hc).
      destruct (decide (key_hash k' = h)) as [Hk'|]; [|by rewrite lookup_insert_ne].
      rewrite Hk', lookup_insert_eq. split.
      * intros (s & Hs & Hh). exists set'. split; [done|]. apply Hheld. eauto.
      * intros (s & [= <-] & Hh). apply Hheld in Hh as [?|?]; [done|eauto].
  - intros k' l. rewrite lookup_insert_Some. intros [[_ <-]|[_ ?]].
    + by destruct (default [] _).
    + by eapply co_hodl_ne.
  - intros h' s. rewrite lookup_insert_Some. intros [[<- <-]|[_ ?]]; [done|].
    by apply Hq, (co_timer _ Hc).
Qed.

(** The set an accepted htlc ends up in. *)
(** The total an htlc claims is the amount of its invoice. *)
Lemma claimed_total htlc mpp sd :
  wf_htlc htlc → payload htlc = Some mpp →
  Stateless.decodeStatelessData (PrivKey cfg) (mpp_PaymentAddr mpp) = Good sd →
  PreimageHash (Stateless.sd_preimage sd) = rHash htlc →
  TotalMsat mpp = u64 (Stateless.amtMsat sd) →
  0 ≤ inv_amount (rHash htlc) < 2 ^ 63 ∧ TotalMsat mpp = inv_amount (rHash htlc).
Proof.
  intros Hwf Hpl Hdec Hhash Htm. pose proof (wf_total _ Hwf _ Hpl) as Htot.
  pose proof (wf_addr _ Hwf _ _ Hpl Hdec Hhash) as Hia.
  assert (Hr64 : is_i64 (Stateless.amtMsat sd)).
  { revert Hdec. unfold Stateless.decodeStatelessData, mbind, result_bind.
    destruct (MakePreimage _); [|done]. intros [= <-]. apply i64_range. }
  rewrite <- Hia, Htm. rewrite Htm in Htot. unfold is_i64, u64 in *.
  destruct (decide (0 ≤ Stateless.amtMsat sd)).
  - rewrite Z.mod_small; lia.
  - exfalso. assert (Stateless.amtMsat sd `mod` 2 ^ 64 = Stateless.amtMsat sd + 2 ^ 64) as Hm.
    { symmetry. apply (Z.mod_unique _ _ (-1)); lia. } lia.
Qed.

Lemma addToSet_spec env htlc mpp sd w :
  core w → wf_htlc htlc → payload htlc = Some mpp →
  Stateless.decodeStatelessData (PrivKey cfg) (mpp_PaymentAddr mpp) = Good sd →
  PreimageHash (Stateless.sd_preimage sd) = rHash htlc →
  TotalMsat mpp = u64 (Stateless.amtMsat sd) →
  (∀ s, sets w !! rHash htlc = Some s → Sets.htlcs s !! circuitKey htlc = None) →
  checkNewHtlc cfg env htlc mpp sd
    (match sets w !! rHash htlc with Some s => Sets.totalSetAmt s | None => 0 end) = None →
  ∃ o, addToSet cfg env htlc mpp sd (sets w !! rHash htlc) w = Ok o ∧
  ∀ set' w1, o = Some (set', w1) →
    w1 = set_sets (<[rHash htlc := set']> (sets w)) w ∧ set_ok (rHash htlc) set' ∧
    (∀ k', held set' k' ↔ k' = circuitKey htlc ∨
       ∃ s, sets w !! rHash htlc = Some s ∧ held s k').
Proof.
  intros Hc Hwf Hpl Hdec Hhash Htm Hnew Hchk.
  pose proof (wf_amt _ Hwf) as Hamt.
  pose proof (wf_addr _ Hwf _ _ Hpl Hdec Hhash) as Hia.
  destruct (claimed_total _ _ _ Hwf Hpl Hdec Hhash Htm) as [Hpos Htm'].
  assert (Hle : ∀ t, 0 ≤ t < 2 ^ 63 → checkNewHtlc cfg env htlc mpp sd t = None →
    t + amtPaid htlc ≤ inv_amount (rHash htlc)).
  { intros t Ht. unfold checkNewHtlc. destruct (Time.Before _ _); [by intros|].
    rewrite (u64_small t), (u64_small (t + _)) by lia.
    destruct (TotalMsat mpp <? t + amtPaid htlc) eqn:E; [done|]. intros _. lia. }
  unfold addToSet. destruct (sets w !! rHash htlc) as [s|] eqn:Hs.
  - pose proof (co_set _ Hc _ _ Hs) as Hok. specialize (Hnew _ eq_refl).
    pose proof (exact_total_nonneg _ _ Hok) as Hnn. pose proof (so_total _ _ Hok) as Hst.
    rewrite Sets.totalSetAmt_small in Hchk by lia. apply Hle in Hchk; [|lia].
    unfold Sets.addHtlc. rewrite Hnew; simpl. eexists. split; [done|].
    intros set' w1 [= <- <-]. split; [done|]. rewrite i64_small by lia. split.
    + destruct Hok as [O1 O2 O3 O4 O5]. split; simpl; try done.
      * apply map_Forall_insert; [done|]. split; [|done]. split; [apply Hwf|lia].
      * apply insert_non_empty.
      * rewrite Sets.exact_total_add by done. lia.
    + intros k'. unfold held; simpl. destruct (decide (k' = circuitKey htlc)) as [->|].
      * rewrite lookup_insert_eq. naive_solver.
      * rewrite lookup_insert_ne by done. naive_solver.
  - apply Hle in Hchk; [|lia].
    destruct (negb (AutoSettle cfg) && _); [exists None; split; [done|by intros]|].
    unfold Sets.add, Sets.addHtlc; simpl. rewrite Hhash, Hs, lookup_empty; simpl.
    eexists. split; [done|]. intros set' w1 [= <- <-]. split; [done|].
    rewrite i64_small by lia. split.
    + split; simpl; try done.
      * apply map_Forall_insert; [apply lookup_empty|]. split; [|apply map_Forall_empty].
        split; [apply Hwf|lia].
      * unfold Sets.exact_total; simpl. rewrite map_vals_insert by apply lookup_empty.
        unfold map_vals. rewrite map_to_list_empty; simpl. lia.
    + intros k'. unfold held; simpl. destruct (decide (k' = circuitKey htlc)) as [->|].
      * rewrite lookup_insert_eq. naive_solver.
      * rewrite lookup_insert_ne, lookup_empty by done. split; [by intros []|naive_solver].
Qed.

(** The timers of an incomplete set that has a new htlc. *)
Lemma timers_new w h k t set' :
  core w → Sets.isComplete set' = None →
  (∀ k', held set' k' ↔ k' = k ∨ ∃ s, sets w !! h = Some s ∧ held s k') →
  timers (pq_Push (htlcReleaseEvent h t k) (autoReleaseHeap w)) h set'.
Proof.
  intros Hc Hinc Hheld. unfold timers. setoid_rewrite (pq_Push_items _ (autoReleaseHeap w)).
  destruct (sets w !! h) as [s|] eqn:Hs.
  - destruct (co_timer _ Hc _ _ Hs) as [(t' & Ht')|[_ Hev]].
    + left. exists t'. by right.
    + right. split; [done|]. intros k' [->|(x & [= <-] & Hx)]%Hheld.
      * exists t. left.
      * destruct (Hev _ Hx) as [t' Ht']. exists t'. by right.
  - right. split; [done|]. intros k' [->|(x & [=] & _)]%Hheld. exists t. left.
Qed.

(** After a new htlc has been stored: start its timer or complete the set. *)
Lemma step_afterAccept env htlc sd w set' :
  Inv w → wf_htlc htlc → Pg.invoices (cdb w) !! rHash htlc = None →
  set_ok (rHash htlc) set' →
  (∀ k', held set' k' ↔ k' = circuitKey htlc ∨
     ∃ s, sets w !! rHash htlc = Some s ∧ held s k') →
  ∃ w' e, afterAccept cfg env htlc sd set'
    (hodlSubscribe (resolve htlc) (circuitKey htlc)
       (set_sets (<[rHash htlc := set']> (sets w)) w)) = Ok (w', e) ∧ step_ok w w'.
Proof.
  intros (Hc & Hdb & Hdis) Hwf Hnone Hok Hheld.
  set (w1 := hodlSubscribe _ _ _). unfold afterAccept.
  assert (Hdis' : ∀ q, disjoint_db (set_heap q w1)).
  { intros q h; simpl. intros [x Hx]. apply lookup_insert_Some in Hx as [[<- _]|[_ Hx]]; [done|].
    apply Hdis. eauto. }
  destruct (Sets.isComplete set') as [id|] eqn:Hcomp.
  - assert (Hi2 : Inv (startAcceptTimer cfg env (rHash htlc) w1)).
    { split_and!; [|done|apply Hdis']. apply core_add; try done; [apply Hwf|by intros; apply timers_push|].
      left. eexists. rewrite pq_Push_items. left. }
    set (w2 := startAcceptTimer cfg env (rHash htlc) w1) in *.
    assert (Hs2 : sets w2 !! rHash htlc = Some set') by apply lookup_insert_eq.
    set (w3 := notifySubscribers (rHash htlc) id w2).
    assert (Hi3 : Inv w3) by by apply inv_emit.
    assert (Hnot : ∃ new, effects w3 = effects w ++ new ∧ Forall is_notification new).
    { eexists. split; [done|]. apply Forall_forall. intros e (cb & -> & _)%list_elem_of_fmap. done. }
    destruct Hnot as (new & Enew & Hnew).
    assert (Hlift : ∀ w', step_ok w3 w' → step_ok w w').
    { intros w'. by apply (step_ok_from _ _ _ new). }
    destruct (AutoSettle cfg).
    + destruct (markSettleRequested env set' w3) as [w4 [e|]] eqn:Hm.
      * eexists _, _. split; [done|]. apply Hlift. by eapply step_mark_fails.
      * destruct (step_settle env set' w3 w4 (rHash htlc) id) as (w5 & Hr & Hst); [done..|].
        rewrite Hr. eexists _, _. split; [done|]. by apply Hlift.
    + eexists _, _. split; [done|]. apply Hlift, step_ok_refl. done.
  - eexists _, _. split; [done|]. unfold startHtlcTimer. split.
    + split_and!; [|done|apply Hdis']. apply core_add; try done; [apply Hwf|by intros; apply timers_push|].
      by apply (timers_new w).
    + done.
    + exists []. by rewrite app_nil_r.
Qed.

(** An htlc whose invoice may already be stored. *)
Lemma resolveViaDb_cases env htlc w :
  Inv w → key_hash (circuitKey htlc) = rHash htlc →
  match resolveViaDb env htlc w with
  | (w', Bad _) => w' = w
  | (w', Good true) => step_ok w w'
  | (w', Good false) => w' = w ∧ Pg.invoices (cdb w) !! rHash htlc = None
  end.
Proof.
  intros Hi Hk. pose proof Hi as (_ & Hdb & _). unfold resolveViaDb.
  destruct (Pg.Get _ _ _) as [[inv hs]|err] eqn:HG.
  - apply Get_Good in HG as (_ & -> & r & Hr & ->). case_bool_decide; [done|].
    destruct (Pg.htlcs_of _ _ !! circuitKey htlc) as [a|] eqn:Hh.
    + apply htlcs_of_Some in Hh as (row & Hrow & Hrh & _).
      apply step_emit; [done|]. apply Forall_singleton; simpl.
      exists row, r. rewrite Hrh. split_and!; try done.
    + apply step_emit; [done|]. apply Forall_singleton; simpl.
      destruct (Pg.htlcs (cdb w) !! circuitKey htlc) as [row|] eqn:Hrow; [|done].
      apply (do_key _ Hdb) in Hrow as Hkr. exfalso. apply eq_None_not_Some in Hh. apply Hh.
      exists (Pg.h_AmountMsat row). apply htlcs_of_Some. exists row.
      split_and!; [done|by rewrite <- Hkr|done].
  - case_decide as He; [|done]. subst err. split; [done|]. unfold Pg.Get in HG.
    destruct (db_Get env); [done|]. by apply Get_NotFound in HG.
Qed.

(** [process] never panics and keeps the invariant. *)
Lemma process_ok env htlc w :
  Inv w → wf_htlc htlc → ∃ w' e, process cfg env htlc w = Ok (w', e) ∧ step_ok w w'.
Proof.
  intros Hi Hwf. pose proof Hi as (Hc & Hdb & Hdis). pose proof (wf_key _ Hwf) as Hk.
  unfold process. pose proof (resolveViaDb_cases env htlc w Hi Hk) as Hrv.
  destruct (resolveViaDb env htlc w) as [w' [[|]|err]].
  { eauto. }
  2:{ subst w'. eexists _, _. split; [done|by apply step_ok_refl]. }
  destruct Hrv as [-> Hnone].
  assert (Hfail : ∀ result, ∃ w' e,
    Ok (resolveHtlc htlc (NewFailResolution result) w, @None Error) = Ok (w', e) ∧ step_ok w w').
  { intros result. eexists _, _. split; [done|]. by apply step_resolve_fail. }
  destruct (payload htlc) as [mpp|] eqn:Hpl; [|done].
  destruct (decide (TotalMsat mpp = 0)) as [|Htm0]; [done|].
  destruct (Stateless.decodeStatelessData _ _) as [sd|err] eqn:Hdec.
  2:{ eexists _, _. split; [done|by apply step_ok_refl]. }
  destruct (decide (PreimageHash _ ≠ _)) as [|Hh%dec_stable]; [done|].
  destruct (decide (TotalMsat mpp ≠ _)) as [|Ht%dec_stable]; [done|].
  unfold processInvoiceHtlc, Sets.get.
  destruct (match sets w !! rHash htlc with Some s => Sets.accepted s (circuitKey htlc) | None => false end)
    eqn:Hacc.
  - destruct (sets w !! rHash htlc) as [s|] eqn:Hs; [|done].
    apply Sets.accepted_spec in Hacc. eexists _, _. split; [done|].
    eapply step_hodlSubscribe; [done|by rewrite Hk|done].
  - destruct (checkNewHtlc _ _ _ _ _ _) as [result|] eqn:Hchk; [done|].
    destruct (addToSet_spec env htlc mpp sd w) as (o & Ho & Hspec); try done.
    { intros s Hs. rewrite Hs in Hacc. by apply Sets.accepted_false. }
    rewrite Ho; simpl. destruct o as [[set' w1]|]; [|done].
    destruct (Hspec _ _ eq_refl) as (-> & Hok & Hheld). by apply step_afterAccept.
Qed.

(** *** Requests and the event loop *)

Lemma getAcceptedSet_Good env h id w s :
  getAcceptedSet env h id w = Good (Good s) →
  sets w !! h = Some s ∧ Sets.isComplete s = Some id.
Proof.
  unfold getAcceptedSet, Sets.get. destruct (sets w !! h) as [s'|].
  - destruct (Sets.isComplete s') eqn:E; [|done]. case_decide; [done|].
    intros [= ->]. by subst.
  - repeat case_match; done.
Qed.

Lemma handleCancel_ok env h id w :
  Inv w → ∃ w' r, handleCancelRequest env h id w = Ok (w', r) ∧ step_ok w w'.
Proof.
  intros Hi. unfold handleCancelRequest.
  destruct (getAcceptedSet env h id w) as [[s|e]|e] eqn:Hg; [|by eauto using step_ok_refl..].
  apply getAcceptedSet_Good in Hg as [Hs _].
  destruct (step_fail_set s ResultInvoiceNotOpen w h Hi Hs) as (w' & -> & Hst); eauto.
Qed.

Lemma handleSettle_ok env h id w :
  Inv w → ∃ w' r, handleSettleRequest cfg env h id w = Ok (w', r) ∧ step_ok w w'.
Proof.
  intros Hi. unfold handleSettleRequest.
  destruct (getAcceptedSet env h id w) as [[s|e]|e] eqn:Hg;
    [|case_decide; by eauto using step_ok_refl|by eauto using step_ok_refl].
  apply getAcceptedSet_Good in Hg as [Hs Hcomp].
  destruct (AutoSettle cfg); [by eauto using step_ok_refl|].
  destruct (markSettleRequested env s w) as [w1 [e|]] eqn:Hm.
  - eauto using step_mark_fails.
  - destruct (step_settle env s w w1 h id) as (w' & Hr & Hst); [done..|].
    rewrite Hr. by eexists _, _.
Qed.

Lemma addAcceptSubscriber_fields id cb w :
  ∃ new, addAcceptSubscriber id cb w =
    emit new (set_subs (addAcceptSubscription id cb (subs w)) w) ∧ Forall is_notification new.
Proof.
  unfold addAcceptSubscriber, Sets.forEach.
  generalize (set_subs (addAcceptSubscription id cb (subs w)) w) as x.
  induction (map_vals (sets w)) as [|s l IH]; intros x; simpl.
  - exists []. split; [|done]. destruct x; unfold emit; simpl. by rewrite app_nil_r.
  - destruct (Sets.isComplete s) as [sid|]; [|done].
    destruct (IH (emit [Notified cb (Sets.hash s) sid] x)) as (new & -> & Hn).
    exists (Notified cb (Sets.hash s) sid :: new). split; [|by constructor].
    unfold emit; simpl. by rewrite <- app_assoc.
Qed.

Lemma inv_set_subs m w : Inv w → Inv (set_subs m w).
Proof.
  intros (Hc & Hdb & Hdis). split_and!; [|done|done]. by eapply core_ext; [..|exact Hc].
Qed.

Lemma step_final fault now key settled w :
  Inv w → step_ok w (set_cdb (Pg.MarkHtlcFinal fault now key settled (cdb w)).1 w).
Proof.
  intros (Hc & [Hcons Hkey Hpaid] & Hdis).
  destruct (Pg.MarkHtlcFinal _ _ _ _ _) as [db' o] eqn:Hm. simpl.
  pose proof (db_le_MarkHtlcFinal _ _ _ _ _ _ _ Hm) as Hle.
  assert (Hrows : ∀ h inv', Pg.invoices db' !! h = Some inv' → ∃ inv,
    Pg.invoices (cdb w) !! h = Some inv ∧ Pg.i_Preimage inv' = Pg.i_Preimage inv ∧
    Pg.i_AmountMsat inv' = Pg.i_AmountMsat inv).
  { apply MarkHtlcFinal_cases in Hm as [[-> _]|(o' & _ & Hm)]; [eauto|].
    apply markHtlcFinal_Good in Hm as (r & inv & _ & Hi & _ & _ & _ & Hcase).
    destruct Hcase as [(_ & -> & _)|(_ & _ & -> & _)]; [eauto|]. intros h inv'.
    rewrite lookup_insert_Some. intros [[<- <-]|[_ ?]]; eauto. }
  split; simpl; [|done|exists []; by rewrite app_nil_r].
  split_and!; [by eapply core_ext; [..|exact Hc]| |].
  - split; simpl.
    + by eapply consistent_MarkHtlcFinal.
    + apply MarkHtlcFinal_cases in Hm as [[-> _]|(o' & _ & Hm)]; [done|].
      apply markHtlcFinal_Good in Hm as (r & inv & Hr & _ & _ & _ & -> & _). intros k r'.
      rewrite lookup_insert_Some. intros [[<- <-]|[_ ?]]; [by apply Hkey in Hr|eauto].
    + intros h inv' (inv & Hinv & -> & ->)%Hrows.
      rewrite (htlcs_of_MarkHtlcFinal _ _ _ _ _ _ _ h Hm). by apply Hpaid.
  - intros h Hs. apply Hdis in Hs. simpl. apply eq_None_not_Some. intros [inv' Hx].
    apply Hrows in Hx as (inv & Hinv & _). simpl in Hs. congruence.
Qed.

(** A panic can only come from a release event whose set has been replaced. *)
Definition stale_release (ev : event) w : Prop :=
  ∃ env h t k q' s, ev = EvTick env ∧
    releaseDue (t_tick env) w = Some (htlcReleaseEvent h t k, q') ∧
    sets w !! h = Some s ∧ Sets.isComplete s = None ∧ ¬ held s k.

Lemma iteration_ok ev w :
  Inv w → wf_event ev →
  match iteration cfg ev w with
  | Ok (w', _) => step_ok w w'
  | Panic _ => stale_release ev w
  end.
Proof.
  intros Hi Hwf. destruct ev as [env|env htlc|id cb|env id|env h id|env h id| |fault now key settled];
    simpl.
  - destruct (releaseDue _ w) as [[e q']|] eqn:Hd; [|by apply step_ok_refl].
    apply releaseDue_Some in Hd as Hp. destruct Hp as [Hp _].
    destruct e as [h t k|h t].
    + pose proof (step_htlc_release w h t k q' Hi Hp) as Hst.
      destruct (cancelSingleHtlc _ _ _ _) as [w'|]; simpl; [done|].
      destruct Hst as (s & Hs & Hinc & Hn). by exists env, h, t, k, q', s.
    + destruct (step_accept_timeout w h t q' Hi Hp) as (w' & -> & Hst). done.
  - destruct (process_ok env htlc w Hi Hwf) as (w' & e & -> & Hst). done.
  - destruct (addAcceptSubscriber_fields id cb w) as (new & -> & Hn).
    eapply (step_ok_from _ _ _ []); [| | |apply step_emit]; simpl.
    + done.
    + by rewrite app_nil_r.
    + done.
    + by apply inv_set_subs.
    + eapply Forall_impl; [exact Hn|]. by intros [].
  - eapply (step_ok_from _ (set_subs _ w) _ []); [done|simpl; by rewrite app_nil_r|done|].
    by apply step_ok_refl, inv_set_subs.
  - destruct (handleSettle_ok env h id w Hi) as (w' & r & -> & Hst). by destruct r.
  - destruct (handleCancel_ok env h id w Hi) as (w' & r & -> & Hst). by destruct r.
  - by apply step_ok_refl.
  - by apply step_final.
Qed.

Lemma step_restart w w' : step_ok w w' → step_ok w (restart cfg w').
Proof.
  intros [(_ & Hdb & _) Hle Heff]. split; [by apply inv_restart|done|done].
Qed.

Lemma step_killed committed n w w' :
  Inv w → step_ok w w' → step_ok w (killed cfg committed n w w').
Proof.
  intros (_ & Hdb & _) [(_ & Hdb' & _) Hle (new & Ee & Hnew)]. unfold killed.
  rewrite Ee, drop_app_length. destruct committed.
  - split; [by apply (inv_restart (emit _ (NewRegistry cfg (cdb w'))))|done|].
    exists (take n new). split; [done|]. by apply Forall_take.
  - split; [by apply (inv_restart (emit _ (NewRegistry cfg (cdb w))))|done|].
    eexists. split; [done|]. apply Forall_forall.
    intros e [He _]%list_elem_of_filter. by destruct e.
Qed.

Definition wf_sys_event (sev : sys_event) : Prop :=
  match sev with SysEvent ev => wf_event ev | SysKill _ _ ev => wf_event ev end.

Lemma sys_step_ok sev w : Inv w → wf_sys_event sev → step_ok w (sys_step cfg w sev).
Proof.
  intros Hi Hwf. destruct sev as [ev|c n ev]; simpl in *;
    pose proof (iteration_ok ev w Hi Hwf) as Hit.
  - destruct (iteration cfg ev w) as [[w' [resp|err]]|msg];
      [done|by apply step_restart|by apply step_restart, step_ok_refl].
  - destruct (iteration cfg ev w) as [[w' st]|msg];
      [by apply step_killed|by apply step_restart, step_ok_refl].
Qed.

(** *** Runs *)

Lemma effect_ok_settle_mono db db' k r p x :
  db_le db db' → effect_ok db (Resolved k r (HtlcSettleResolution p x)) →
  effect_ok db' (Resolved k r (HtlcSettleResolution p x)).
Proof. apply settled_in_mono. Qed.

(** Along a run the invariant holds, the database only grows, and every
    resolution agreed with the database of its own time. *)
Lemma run_ok evs w :
  Inv w → Forall wf_sys_event evs →
  Inv (run cfg evs w) ∧ db_le (cdb w) (cdb (run cfg evs w)) ∧
  ∃ new, effects (run cfg evs w) = effects w ++ new ∧
    Forall (λ e, ∃ db, db_le (cdb w) db ∧ db_le db (cdb (run cfg evs w)) ∧ effect_ok db e) new.
Proof.
  revert w. induction evs as [|ev evs IH]; intros w Hi Hevs; simpl.
  { split_and!; [done|done|]. exists []. by rewrite app_nil_r. }
  apply Forall_cons in Hevs as [Hev Hevs].
  destruct (sys_step_ok ev w Hi Hev) as [Hi' Hle (new & Ee & Hnew)].
  fold (run cfg evs (sys_step cfg w ev)).
  destruct (IH _ Hi' Hevs) as (Hi2 & Hle2 & new2 & Ee2 & Hnew2).
  split_and!; [done|by etrans|]. exists (new ++ new2). rewrite Ee2, Ee, <- app_assoc.
  split; [done|]. apply Forall_app. split.
  - eapply Forall_impl; [exact Hnew|]. eauto.
  - eapply Forall_impl; [exact Hnew2|]. intros e (db & H1 & H2 & H3). exists db.
    split_and!; [by etrans|done|done].
Qed.

Lemma inv_start db : db_ok db → Inv (NewRegistry cfg db).
Proof. intros Hdb. by apply (inv_restart (NewRegistry cfg db)). Qed.

Lemma db_ok_empty : db_ok Pg.empty_database.
Proof.
  split; simpl; [apply consistent_empty| |]; intros ??; by rewrite lookup_empty.
Qed.

End Inv.
End RegFacts.
