(* ===== verification/RegistryExample.v ===== *)
(** A concrete deployment of the registry: one invoice of 100 msat, created with
    the stateless encoding, and the htlcs that pay it. The witnesses of the
    registry theorems and the traces of its corner cases are evaluated here. *)

From stdpp Require Import numbers strings base fin_maps gmap list.
From stdpp Require Import options.
From S2P Require Import Prelude Sha256 Types SetIds HtlcSets StatelessData Persistence PersistenceFacts Registry RegistryFacts.

Module RegExample.
Import Subs Registry RegFacts RealLntypes ListQueue.

Definition sec : Z := Time.Second.
Definition T0 : Time := 1666000000 * sec.

Definition deployment (autoSettle : bool) : RegistryConfig :=
  MkRegistryConfig 10 (30 * sec) (60 * sec) (seqZ 7 32) autoSettle (10 * sec).

(** The payment address and preimage of the invoice. *)
Definition encoded : bytes * Preimage := Eval vm_compute in
  match Stateless.encodeStatelessData (Good (seqZ 0 16)) (seqZ 7 32) 100 (T0 + 3600 * sec) with
  | Good r => r
  | Bad _ => ([], [])
  end.
Definition addr : bytes := encoded.1.
Definition pre : Preimage := encoded.2.
Definition hash : Hash := Eval vm_compute in PreimageHash pre.

Definition node : bytes := 2 :: replicate 32 5.
Definition key (n : Z) : HtlcKey := MkHtlcKey node 10 n.

Definition htlc (n amt : Z) (r : nat) : registryHtlc :=
  MkRegistryHtlc hash amt 1000 100 (key n) (Some (MkMPP 100 addr)) r.

(** The clock shows [t] seconds after [T0]; the database answers. *)
Definition at_time (t : Z) : Env :=
  let now := T0 + t * sec in MkEnv now now now now now now now None None.

Definition ev_htlc (t n amt : Z) (r : nat) : event := EvHtlc (at_time t) (htlc n amt r).
Definition setID (ns : list Z) : SetID := SetID.newSetID (key <$> ns).

Definition registry := InvoiceRegistry queue.
Definition first_start (b : bool) : registry := NewRegistry (deployment b) Pg.empty_database.
Definition run_from (b : bool) (evs : list sys_event) : registry :=
  run (deployment b) evs (first_start b).

(** The complete set of the htlcs 1 and 2. *)
Definition the_set : Sets.htlcSetImpl :=
  Sets.MkSet (Sets.MkParams pre 100 addr) (<[key 2 := 40]> (<[key 1 := 60]> ∅)).

(** An application subscribes, two htlcs complete the invoice. *)
Definition accepted_evs : list sys_event :=
  SysEvent <$> [EvSubscribe 1 7; ev_htlc 1 1 60 11; ev_htlc 2 2 40 12].

Definition key_hash (k : HtlcKey) : Hash := hash.
Definition inv_amount (h : Hash) : Z := 100.

Lemma wf_example b n amt r :
  0 ≤ amt < 2 ^ 63 → wf_htlc (deployment b) key_hash inv_amount (htlc n amt r).
Proof.
  intros Hamt. split; simpl.
  - done.
  - done.
  - intros mpp [= <-]. simpl. lia.
  - intros mpp sd [= <-] Hd _. vm_compute in Hd. by injection Hd as <-.
Qed.

Lemma accepted_wf b : Forall (wf_sys_event (deployment b) key_hash inv_amount) accepted_evs.
Proof.
  unfold accepted_evs; simpl. repeat (apply Forall_cons; split); simpl;
    try done; apply wf_example; lia.
Qed.

End RegExample.
