(* ===== verification/RegistrySafety.v ===== *)
(** What the invoice registry guarantees over whole executions: any sequence of
    htlcs, subscriptions, settle and cancel requests, release ticks, database
    faults, finalizations by the node handlers, shutdowns, panics and kills,
    starting from an empty database. *)

From stdpp Require Import numbers strings base fin_maps gmap list.
From stdpp Require Import options.
From S2P Require Import Prelude Sha256 Types SetIds HtlcSets StatelessData Persistence PersistenceFacts Registry RegistryFacts RegistryExample.

Set Default Proof Using "Type*".

Module RegSafety.
Import Subs Registry PgFacts RegFacts.

Section Reach.
Context {Q : Type} `{PriorityQueue Q} `{!PriorityQueueLaws Q} `{Lntypes}.
Context (cfg : RegistryConfig) (key_hash : HtlcKey → Hash) (inv_amount : Hash → Z).
Implicit Types (w : InvoiceRegistry Q).

(** The histories of a deployment: see [wf_htlc] for what is asked of htlcs. *)
Definition history (evs : list sys_event) : Prop :=
  Forall (wf_sys_event cfg key_hash inv_amount) evs.

Definition start : InvoiceRegistry Q := NewRegistry cfg Pg.empty_database.

Definition reachable w : Prop := ∃ evs, history evs ∧ w = run cfg evs start.

Lemma inv_start_empty : Inv key_hash inv_amount start.
Proof. apply inv_start, db_ok_empty. Qed.

Lemma reachable_inv w : reachable w → Inv key_hash inv_amount w.
Proof.
  intros (evs & Hh & ->). by destruct (run_ok cfg key_hash inv_amount evs start inv_start_empty Hh).
Qed.

Lemma reachable_start : reachable start.
Proof. exists []. split; [constructor|done]. Qed.

Lemma reachable_run evs w : reachable w → history evs → reachable (run cfg evs w).
Proof.
  intros (evs0 & Hh & ->) Hevs. exists (evs0 ++ evs). split.
  - by apply Forall_app.
  - unfold run. by rewrite foldl_app.
Qed.

(** *** Without auto-settle, only a settle request writes an invoice *)

Lemma notify_all_cdb keys res w : cdb (notify_all keys res w) = cdb w.
Proof. by destruct (notify_all_fields keys res w) as (-> & _). Qed.

Lemma resolveAll_cdb set res w w' : resolveAll set res w = Ok w' → cdb w' = cdb w.
Proof.
  unfold resolveAll, Sets.deleteAll. destruct (Sets.delete_set _ _); simpl; [|done].
  intros [= <-]. simpl. apply notify_all_cdb.
Qed.

Lemma cancelSingle_cdb hash key res w w' :
  cancelSingleHtlc hash key res w = Ok w' → cdb w' = cdb w.
Proof.
  unfold cancelSingleHtlc. destruct (Sets.get _ _) as [s|]; [|by intros [= <-]].
  destruct (Sets.isComplete s); [by intros [= <-]|].
  destruct (Sets.deleteHtlc _ _ _ _) as [s'|]; simpl; [|done]. intros [= <-].
  by destruct (notify_fields key (NewFailResolution res) (set_sets s' w)) as (-> & _).
Qed.

Lemma failInvoice_cdb hash w w' : failInvoice hash w = Ok w' → cdb w' = cdb w.
Proof.
  unfold failInvoice. destruct (Sets.get _ _); [|by intros [= <-]]. apply resolveAll_cdb.
Qed.

Lemma addToSet_cdb env htlc mpp sd o w set' w' :
  addToSet cfg env htlc mpp sd o w = Ok (Some (set', w')) → cdb w' = cdb w.
Proof.
  unfold addToSet. destruct o as [s|].
  - destruct (Sets.addHtlc _ _ _); simpl; [|done]. by intros [= <- <-].
  - destruct (_ && _); [done|]. destruct (Sets.add _ _ _ _) as [[??]|]; simpl; [|done].
    by intros [= <- <-].
Qed.

(** [RequestSettle] is the only write of [process], and only with auto-settle. *)
Lemma process_call env htlc w w' e :
  process cfg env htlc w = Ok (w', e) →
  cdb w' = cdb w ∨
  AutoSettle cfg = true ∧ ∃ inv hs, cdb w' =
    (Pg.RequestSettle (db_RequestSettle env) (t_db env) inv hs (cdb w)).1.
Proof.
  unfold process.
  assert (Hrv : cdb (resolveViaDb env htlc w).1 = cdb w)
    by (unfold resolveViaDb; repeat (case_match; simpl); done).
  destruct (resolveViaDb env htlc w) as [w1 [[|]|err]]; simpl in Hrv;
    [by intros [= <- _]; left| |by intros [= <- _]; left]. rewrite <- Hrv.
  destruct (payload htlc) as [mpp|]; [|by intros [= <- _]; left].
  case_decide; [by intros [= <- _]; left|].
  destruct (Stateless.decodeStatelessData _ _) as [sd|]; [|by intros [= <- _]; left].
  case_decide; [by intros [= <- _]; left|]. case_decide; [by intros [= <- _]; left|].
  unfold processInvoiceHtlc.
  destruct (match Sets.get _ _ with Some _ => _ | None => _ end); [by intros [= <- _]; left|].
  destruct (checkNewHtlc _ _ _ _ _ _); [by intros [= <- _]; left|].
  destruct (addToSet _ _ _ _ _ _ _) as [[[set' w2]|]|] eqn:Hadd; simpl;
    [|by intros [= <- _]; left|done].
  apply addToSet_cdb in Hadd. rewrite <- Hadd. unfold afterAccept.
  destruct (Sets.isComplete set') as [id|]; [|by intros [= <- _]; left].
  destruct (AutoSettle cfg); [|by intros [= <- _]; left].
  unfold markSettleRequested. simpl.
  destruct (Pg.RequestSettle _ _ _ _ _) as [db' [err|]] eqn:Hrs.
  - intros [= <- _]. right. split; [done|]. eexists _, _. by rewrite Hrs.
  - unfold requestSettle. destruct (resolveAll _ _ _) as [w3|] eqn:Hra; simpl; [|done].
    apply resolveAll_cdb in Hra. intros [= <- _]. right. split; [done|]. eexists _, _.
    by rewrite Hrs, Hra.
Qed.

Lemma process_cdb env htlc w w' e :
  AutoSettle cfg = false → process cfg env htlc w = Ok (w', e) → cdb w' = cdb w.
Proof. intros Ha [?|[? _]]%process_call; congruence. Qed.

Lemma addAccept_cdb id cb w : cdb (addAcceptSubscriber id cb w) = cdb w.
Proof. by destruct (addAcceptSubscriber_fields id cb w) as (new & -> & _). Qed.

(** The invoices an iteration adds to the database. *)
(** A settle request that adds an invoice stores the complete set it names. *)
Lemma settle_new_invoice env h' id w w' st h :
  Inv key_hash inv_amount w → AutoSettle cfg = false →
  handleSettleRequest cfg env h' id w = Ok (w', st) →
  Pg.invoices (cdb w) !! h = None → is_Some (Pg.invoices (cdb w') !! h) →
  h' = h ∧ ∃ s, sets w !! h = Some s ∧ Sets.isComplete s = Some id ∧
    Pg.htlcs_of h (cdb w') = Sets.htlcs s.
Proof.
  intros Hi Ha Hit Hnone Hsome.
  assert (Hdiff : cdb w' ≠ cdb w).
  { intros E. rewrite E, Hnone in Hsome. by destruct Hsome. }
  unfold handleSettleRequest in Hit.
  destruct (getAcceptedSet env h' id w) as [[s|e]|e] eqn:Hg;
    [|exfalso; apply Hdiff; by case_decide; simplify_eq/=|exfalso; apply Hdiff; by simplify_eq/=].
  apply getAcceptedSet_Good in Hg as [Hs Hcomp]. rewrite Ha in Hit.
  destruct (markSettleRequested env s w) as [w1 [e|]] eqn:Hm.
  { exfalso. simplify_eq/=. revert Hm. unfold markSettleRequested.
    destruct (Pg.RequestSettle _ _ _ _ _) as [db' err] eqn:Hrs. intros [= <- Herr].
    destruct err; [|done]. apply RequestSettle_err in Hrs as [E _]. simpl in *.
    rewrite E, Hnone in Hsome. by destruct Hsome. }
  destruct (requestSettle s w1) as [w2|] eqn:Hr; simplify_eq/=.
  apply resolveAll_cdb in Hr. revert Hm. unfold markSettleRequested. rewrite Sets.getHtlcMap_eq.
  destruct (Pg.RequestSettle _ _ _ _ _) as [db' [err|]] eqn:Hrs; intros [= <-]. simpl in Hr.
  pose proof (co_set _ _ _ (proj1 Hi) _ _ Hs) as Hok.
  apply RequestSettle_ok in Hrs as (_ & Hn & _ & Ei & Eh & _). simpl in *.
  assert (Hhash : PreimageHash (Sets.preimage (Sets.params s)) = h')
    by by rewrite <- (so_hash _ _ _ _ Hok).
  rewrite Hhash in *. rewrite Hr, Ei, lookup_insert_is_Some in Hsome.
  destruct Hsome as [->|[_ Hx]]; [|rewrite Hnone in Hx; by destruct Hx].
  split; [done|]. exists s. split_and!; try done. rewrite Hr.
  eapply htlcs_of_new; [|done|done]. by destruct Hi as (_ & [] & _).
Qed.

Lemma iteration_new_invoice ev w w' st h :
  Inv key_hash inv_amount w → AutoSettle cfg = false →
  iteration cfg ev w = Ok (w', st) →
  Pg.invoices (cdb w) !! h = None → is_Some (Pg.invoices (cdb w') !! h) →
  ∃ env id s, ev = EvSettle env h id ∧ sets w !! h = Some s ∧ Sets.isComplete s = Some id ∧
    Pg.htlcs_of h (cdb w') = Sets.htlcs s.
Proof.
  intros Hi Ha Hit Hnone Hsome.
  assert (Hsame : cdb w' = cdb w → ∃ env id s, ev = EvSettle env h id ∧
    sets w !! h = Some s ∧ Sets.isComplete s = Some id ∧ Pg.htlcs_of h (cdb w') = Sets.htlcs s).
  { intros E. rewrite E, Hnone in Hsome. by destruct Hsome. }
  destruct ev as [env|env htlc|id cb|env id|env h' id|env h' id| |fault now key settled]; simpl in Hit.
  - destruct (releaseDue _ _) as [[[]?]|]; [| |apply Hsame; by simplify_eq].
    + destruct (cancelSingleHtlc _ _ _ _) eqn:Hx; simplify_eq/=.
      apply Hsame. by apply cancelSingle_cdb in Hx.
    + destruct (failInvoice _ _) eqn:Hx; simplify_eq/=. apply Hsame. by apply failInvoice_cdb in Hx.
  - destruct (process _ _ _ _) as [[]|] eqn:Hx; simplify_eq/=. apply Hsame. by eapply process_cdb.
  - simplify_eq. apply Hsame, addAccept_cdb.
  - simplify_eq. by apply Hsame.
  - destruct (handleSettleRequest cfg env h' id w) as [[w2 o]|] eqn:Hx; [|done].
    simpl in Hit. assert (w2 = w') as -> by (unfold reply in Hit; destruct o as [[]|]; by simplify_eq/=).
    destruct (settle_new_invoice env h' id w w' o h) as (-> & s & Hs); [done..|].
    by exists env, id, s.
  - unfold handleCancelRequest in Hit. destruct (getAcceptedSet _ _ _ _) as [[s|]|];
      [|apply Hsame; by simplify_eq/=..].
    destruct (resolveAll _ _ _) eqn:Hx; simplify_eq/=. apply Hsame. by apply resolveAll_cdb in Hx.
  - simplify_eq. by apply Hsame.
  - simplify_eq/=. destruct (Pg.MarkHtlcFinal _ _ _ _ _) as [db' o] eqn:Hm. simpl in *.
    exfalso. apply MarkHtlcFinal_cases in Hm as [[-> _]|(o' & _ & Hm)].
    { rewrite Hnone in Hsome. by destruct Hsome. }
    apply markHtlcFinal_Good in Hm as (r & inv & _ & Hinv & _ & _ & _ & Hcase).
    destruct Hcase as [(_ & E & _)|(_ & _ & E & _)]; rewrite E in Hsome.
    + rewrite Hnone in Hsome. by destruct Hsome.
    + apply lookup_insert_is_Some in Hsome as [Hx|[_ Hx]]; [congruence|].
      rewrite Hnone in Hx. by destruct Hx.
Qed.

(** *** The registry after an invoice has been stored *)

Lemma stored_getAcceptedSet env h inv id w :
  Inv key_hash inv_amount w → db_Get env = None → Pg.invoices (cdb w) !! h = Some inv →
  getAcceptedSet env h id w =
    Good (Bad (if decide (id = SetID.newSetID (map_keys (Pg.htlcs_of h (cdb w))))
               then ErrSettleRequested else ErrInvoiceNotFound)).
Proof.
  intros (_ & _ & Hdis) Hdb Hinv. unfold getAcceptedSet, Sets.get.
  destruct (sets w !! h) as [s|] eqn:Hs.
  { specialize (Hdis h). rewrite Hs, Hinv in Hdis. by discriminate Hdis. }
  unfold Pg.Get. rewrite Hdb, Hinv. repeat case_decide; done.
Qed.

(** Everything [RequestSettle] needs is there for a set whose invoice is not
    stored. *)
Lemma mark_succeeds `{!LntypesLaws} env h s w :
  db_ok key_hash inv_amount (cdb w) → Pg.invoices (cdb w) !! h = None →
  set_ok key_hash inv_amount h s → db_RequestSettle env = None →
  length (Sets.preimage (Sets.params s)) = 32%nat → 0 < inv_amount h →
  map_Forall (λ k a, length (Node k) = 33%nat ∧ 0 < a) (Sets.htlcs s) →
  ∃ w1, markSettleRequested env s w = (w1, None).
Proof.
  intros Hdb Hnone Hok Henv Hlen Hpos Hrows. unfold markSettleRequested. rewrite Henv.
  assert (Hhash : PreimageHash (Sets.preimage (Sets.params s)) = h)
    by by rewrite <- (so_hash _ _ _ _ Hok).
  destruct (RequestSettle_succeeds (t_db env)
    (MkInvoiceCreationData (Sets.preimage (Sets.params s)) (u64 (Sets.value (Sets.params s)))
       (Sets.paymentAddr (Sets.params s))) (Sets.getHtlcMap s) (cdb w)) as [db' ->]; simpl; eauto.
  - by rewrite Hhash.
  - intros h' inv Hinv Hpre. pose proof (do_paid _ _ _ Hdb _ _ Hinv) as (Hp & _).
    rewrite Hpre, Hhash in Hp. congruence.
  - pose proof (so_total _ _ _ _ Hok). rewrite (so_value _ _ _ _ Hok), i64_u64; [done|].
    unfold is_i64. lia.
  - rewrite Sets.getHtlcMap_eq. intros k a Ha. apply Hrows in Ha as Hr. destruct Hr.
    split_and!; [|done|done]. apply (no_row key_hash inv_amount); [done|].
    apply (so_keys _ _ _ _ Hok) in Ha as [-> _]. done.
Qed.

(** What backs a settle resolution. *)
Lemma settle_effect_paid (evs : list sys_event) (Hh : history evs)
  (k : HtlcKey) (r : nat) (p : Preimage) (x : SettleResolutionResult)
  (He : Resolved k r (HtlcSettleResolution p x) ∈ effects (run cfg evs start)) :
  let db := cdb (run cfg evs start) in
  ∃ row inv,
    Pg.htlcs db !! k = Some row ∧ Pg.h_Hash row = key_hash k ∧
    Pg.invoices db !! key_hash k = Some inv ∧
    Pg.i_Preimage inv = p ∧ PreimageHash p = key_hash k ∧
    Zsum (map_vals (Pg.htlcs_of (key_hash k) db)) = Pg.i_AmountMsat inv ∧
    Pg.i_AmountMsat inv = inv_amount (key_hash k).
Proof.
  destruct (run_ok cfg key_hash inv_amount evs start inv_start_empty Hh)
    as ((_ & Hdb & _) & _ & new & Ee & Hnew).
  rewrite Ee in He. simpl in He. rewrite Forall_forall in Hnew.
  destruct (Hnew _ He) as (db & _ & Hle & Hok).
  apply (effect_ok_settle_mono _ _ _ _ _ _ _ Hle) in Hok as (row & inv & Hr & Hi & <- & Hk).
  rewrite Hk in Hi. destruct (do_paid _ _ _ Hdb _ _ Hi) as (Hp & Hsum & Hamt).
  exists row, inv. by split_and!.
Qed.

(** ** Safety *)

(** A preimage is released only for money: in every history, whatever
    crashes and faults it contains, each resolution that settles an htlc is
    backed by a row of that htlc and a row of its invoice in the database, the
    preimage released is the stored one and hashes to the payment hash, and the
    htlcs stored for the invoice add up exactly to the invoiced amount. *)
Theorem settled_htlcs_are_paid (evs : list sys_event) (Hh : history evs)
  (k : HtlcKey) (r : nat) (p : Preimage) (x : SettleResolutionResult)
  (He : Resolved k r (HtlcSettleResolution p x) ∈ effects (run cfg evs start)) :
  let db := cdb (run cfg evs start) in
  ∃ row inv,
    Pg.htlcs db !! k = Some row ∧ Pg.h_Hash row = key_hash k ∧
    Pg.invoices db !! key_hash k = Some inv ∧
    Pg.i_Preimage inv = p ∧ PreimageHash p = key_hash k ∧
    Zsum (map_vals (Pg.htlcs_of (key_hash k) db)) = Pg.i_AmountMsat inv ∧
    Pg.i_AmountMsat inv = inv_amount (key_hash k).
Proof. by eapply settle_effect_paid. Qed.


(** C9. Without auto-settle nothing is settled that the application did not ask
    for: an invoice enters the database only in a step that serves a settle
    request for its hash, while its set is complete, and the set id of the
    request is the id of exactly the htlcs that are stored. *)
Theorem settle_needs_request (evs : list sys_event) (Hh : history evs)
  (sev : sys_event) (Hwf : wf_sys_event cfg key_hash inv_amount sev)
  (Ha : AutoSettle cfg = false) (w : InvoiceRegistry Q) (Hw : w = run cfg evs start)
  (h : Hash) (Hnone : Pg.invoices (cdb w) !! h = None)
  (Hsome : is_Some (Pg.invoices (cdb (sys_step cfg w sev)) !! h)) :
  ∃ env id s,
    (sev = SysEvent (EvSettle env h id) ∨ ∃ n, sev = SysKill true n (EvSettle env h id)) ∧
    sets w !! h = Some s ∧ Sets.isComplete s = Some id ∧
    Pg.htlcs_of h (cdb (sys_step cfg w sev)) = Sets.htlcs s ∧
    id = SetID.newSetID (map_keys (Pg.htlcs_of h (cdb (sys_step cfg w sev)))).
Proof.
  assert (Hi : Inv key_hash inv_amount w) by (apply reachable_inv; by exists evs).
  assert (Hfin : ∀ ev w' st, iteration cfg ev w = Ok (w', st) →
    is_Some (Pg.invoices (cdb w') !! h) → ∃ env id s, ev = EvSettle env h id ∧
    sets w !! h = Some s ∧ Sets.isComplete s = Some id ∧
    Pg.htlcs_of h (cdb w') = Sets.htlcs s ∧ id = SetID.newSetID (map_keys (Pg.htlcs_of h (cdb w')))).
  { intros ev w' st Hit Hs.
    destruct (iteration_new_invoice ev w w' st h Hi Ha Hit Hnone Hs) as (env & id & s & E & Hset & Hcomp & Ehs).
    exists env, id, s. split_and!; try done. rewrite Ehs. by apply Sets.isComplete_Some in Hcomp as [_ ->]. }
  assert (Habs : is_Some (Pg.invoices (cdb w) !! h) → False)
    by (rewrite Hnone; by intros []).
  clear Hw Hnone. destruct sev as [ev|c n ev]; simpl in Hsome |- *;
    destruct (iteration cfg ev w) as [[w' st]|msg] eqn:Hit; [| |..]; try done.
  - destruct st; destruct (Hfin _ _ _ Hit Hsome) as (env & id & s & -> & Hrest);
      exists env, id, s; (split; [by left|done]).
  - destruct c; [|done]. destruct (Hfin _ _ _ Hit Hsome) as (env & id & s & -> & Hrest).
    exists env, id, s. split; [right; by exists n|done].
Qed.

(** Requests for a stored invoice are idempotent, at any later time and in
    any later instance of the process: settling the stored set again succeeds
    and changes nothing, cancelling it is refused because settle was requested,
    and any other set id is unknown. *)
Theorem stored_invoice_requests (evs1 evs2 : list sys_event) (Hh1 : history evs1)
  (Hh2 : history evs2) (w1 w2 : InvoiceRegistry Q) (Hw1 : w1 = run cfg evs1 start)
  (Hw2 : w2 = run cfg evs2 w1) (h : Hash) (Hs : is_Some (Pg.invoices (cdb w1) !! h))
  (env : Env) (Henv : db_Get env = None) (id : SetID) :
  let stored := SetID.newSetID (map_keys (Pg.htlcs_of h (cdb w1))) in
  handleSettleRequest cfg env h id w2 =
    Ok (w2, Good (if decide (id = stored) then None else Some ErrInvoiceNotFound)) ∧
  handleCancelRequest env h id w2 =
    Ok (w2, Good (Some (if decide (id = stored) then ErrSettleRequested
                        else ErrInvoiceNotFound))).
Proof.
  assert (Hi1 : Inv key_hash inv_amount w1) by (apply reachable_inv; by exists evs1).
  destruct (run_ok cfg key_hash inv_amount evs2 w1 Hi1 Hh2) as (Hi2 & Hle & _).
  rewrite <- Hw2 in Hi2, Hle. pose proof (le_frozen _ _ Hle _ Hs) as Efr.
  destruct Hs as [inv Hinv]. apply (le_invoices _ _ Hle) in Hinv as (inv' & Hinv' & _).
  unfold handleSettleRequest, handleCancelRequest.
  rewrite (stored_getAcceptedSet env h inv' id w2) by done. rewrite Efr.
  by destruct (decide (id = _)).
Qed.

(** Settling a complete set works: with a database that answers, the
    request succeeds, the invoice and its htlcs are stored, every resolver
    waiting for one of the htlcs is called with the preimage and the set leaves
    the memory of the registry. *)
Lemma settle_complete_set `{!LntypesLaws} (w : InvoiceRegistry Q) (Hr : reachable w)
  (Ha : AutoSettle cfg = false) (env : Env) (Henv : db_RequestSettle env = None)
  (h : Hash) (s : Sets.htlcSetImpl) (id : SetID) (Hs : sets w !! h = Some s)
  (Hcomp : Sets.isComplete s = Some id)
  (Hlen : length (Sets.preimage (Sets.params s)) = 32%nat) (Hpos : 0 < inv_amount h)
  (Hrows : map_Forall (λ k a, length (Node k) = 33%nat ∧ 0 < a) (Sets.htlcs s)) :
  ∃ w', handleSettleRequest cfg env h id w = Ok (w', Good None) ∧
    sets w' = delete h (sets w) ∧
    Pg.htlcs_of h (cdb w') = Sets.htlcs s ∧
    (∀ k, held s k → settled_in key_hash (cdb w') k (Sets.preimage (Sets.params s))) ∧
    (∀ k, held s k → hodlSubscriptions w' !! k = None) ∧
    ∃ new, effects w' = effects w ++ new ∧
      ∀ k l r, held s k → hodlSubscriptions w !! k = Some l → r ∈ l →
        Resolved k r (HtlcSettleResolution (Sets.preimage (Sets.params s)) ResultSettled) ∈ new.
Proof.
  apply reachable_inv in Hr as Hi.
  pose proof Hi as (Hc & Hdb & Hdis). pose proof (co_set _ _ _ Hc _ _ Hs) as Hok.
  destruct (mark_succeeds env h s w Hdb) as [w1 Hm]; [by apply Hdis; eauto|done..|].
  pose proof (mark_fields _ _ _ _ _ Hm) as (Es & Eh & _ & Ee).
  destruct (resolveAll_spec s (NewSettleResolution (Sets.preimage (Sets.params s)) ResultSettled) w1)
    as (w' & Hra & Ed & _ & _ & Es' & Eh' & Ee').
  { rewrite (so_hash _ _ _ _ Hok), Es. eauto. }
  assert (Hg : getAcceptedSet env h id w = Good (Good s)).
  { unfold getAcceptedSet, Sets.get. rewrite Hs, Hcomp. by rewrite decide_False by naive_solver. }
  assert (Hsr : handleSettleRequest cfg env h id w = Ok (w', Good None)).
  { unfold handleSettleRequest. rewrite Hg, Ha, Hm. unfold requestSettle. by rewrite Hra. }
  exists w'. split; [done|].
  assert (Hnone : Pg.invoices (cdb w) !! h = None) by (apply Hdis; eauto).
  assert (Htot : Sets.exact_total s = inv_amount h).
  { pose proof (so_total _ _ _ _ Hok).
    destruct (decide (Sets.exact_total s < inv_amount h)) as [Hlt|]; [|lia].
    apply (complete_iff _ _ _ _ Hok) in Hlt. congruence. }
  destruct (db_ok_settle key_hash inv_amount env s w w1 h) as (_ & _ & _ & Hset & Hrd); [done..|].
  rewrite <- Ed in Hset, Hrd. split_and!; try done.
  - by rewrite Es', (so_hash _ _ _ _ Hok), Es.
  - intros k Hk. rewrite Eh'. by rewrite decide_True.
  - eexists. split; [by rewrite Ee', Ee|]. intros k l r Hk Hl Hin. apply elem_of_resolutions.
    exists k, r, l. rewrite Eh. split_and!; try done. by apply elem_of_map_keys.
Qed.

End Reach.

(** ** The example deployment *)

Module Witness.
Import RealLntypes ListQueue RegExample.

Definition settle_ev (t : Z) : sys_event :=
  SysEvent (EvSettle (at_time t) hash (setID [1; 2])).
Definition settled_evs : list sys_event := accepted_evs ++ [settle_ev 3].

(** A replay of the first htlc after a kill. *)
Definition replay_evs : list sys_event :=
  [SysKill true 0 (EvTick (at_time 4)); SysEvent (ev_htlc 5 1 60 13)].

Lemma settled_history : history (deployment false) key_hash inv_amount settled_evs.
Proof. apply Forall_app. split; [apply accepted_wf|]. by repeat constructor. Qed.

Lemma replay_history : history (deployment false) key_hash inv_amount replay_evs.
Proof.
  apply Forall_cons; split; [done|]. apply Forall_singleton. apply wf_example. lia.
Qed.

Abbreviation settled :=
  (run (Q := queue) (deployment false) settled_evs (start (deployment false))).
Abbreviation accepted :=
  (run (Q := queue) (deployment false) accepted_evs (start (deployment false))).
Abbreviation replayed := (run (Q := queue) (deployment false) replay_evs settled).

Lemma settled_htlcs_are_paid_witness :
  ∃ row inv,
    Pg.htlcs (cdb settled) !! key 1 = Some row ∧ Pg.h_Hash row = key_hash (key 1) ∧
    Pg.invoices (cdb settled) !! key_hash (key 1) = Some inv ∧
    Pg.i_Preimage inv = pre ∧ PreimageHash pre = key_hash (key 1) ∧
    Zsum (map_vals (Pg.htlcs_of (key_hash (key 1)) (cdb settled))) = Pg.i_AmountMsat inv ∧
    Pg.i_AmountMsat inv = inv_amount (key_hash (key 1)).
Proof.
  assert (He : Resolved (key 1) 11 (HtlcSettleResolution pre ResultSettled) ∈ effects settled).
  { apply (list_elem_of_lookup_2 _ 1). vm_compute. reflexivity. }
  exact (settled_htlcs_are_paid (Q := queue) (deployment false) key_hash inv_amount settled_evs
           settled_history (key 1) 11 pre ResultSettled He).
Defined.



Lemma settle_needs_request_witness :
  ∃ env id s,
    (settle_ev 3 = SysEvent (EvSettle env hash id) ∨
     ∃ n, settle_ev 3 = SysKill true n (EvSettle env hash id)) ∧
    sets accepted !! hash = Some s ∧ Sets.isComplete s = Some id ∧
    Pg.htlcs_of hash (cdb (sys_step (deployment false) accepted (settle_ev 3))) = Sets.htlcs s ∧
    id = SetID.newSetID (map_keys
           (Pg.htlcs_of hash (cdb (sys_step (deployment false) accepted (settle_ev 3))))).
Proof.
  apply (settle_needs_request (Q := queue) (deployment false) key_hash inv_amount accepted_evs
           (accepted_wf false) (settle_ev 3) I eq_refl accepted eq_refl hash).
  - vm_compute. reflexivity.
  - vm_compute. eexists. reflexivity.
Defined.

Lemma stored_invoice_requests_witness :
  handleSettleRequest (deployment false) (at_time 9) hash (setID [1; 2])
    replayed =
    Ok (replayed, Good None).
Proof.
  destruct (stored_invoice_requests (Q := queue) (deployment false) key_hash inv_amount settled_evs replay_evs
    settled_history replay_history settled replayed
    eq_refl eq_refl hash) with (env := at_time 9) (id := setID [1; 2]) as [Hs _].
  - vm_compute. eexists. reflexivity.
  - reflexivity.
  - rewrite Hs. clear Hs. rewrite decide_True; [reflexivity|]. vm_compute. reflexivity.
Defined.

End Witness.
End RegSafety.
