(* ===== verification/RegistryLiveness.v ===== *)
(** Progress of the invoice registry: no htlc is lost, every htlc that is held
    is released by the timers, panics are exactly the stale release events, the
    order in which Go iterates over a set is irrelevant, and the life cycle of
    an invoice. *)

From stdpp Require Import numbers strings base fin_maps gmap list.
From stdpp Require Import options.
From S2P Require Import Prelude Sha256 Types SetIds HtlcSets StatelessData Persistence PersistenceFacts Registry RegistryFacts RegistryExample RegistrySafety.

Set Default Proof Using "Type*".

Module RegLive.
Import Subs Registry PgFacts RegFacts RegSafety.

Section Live.
Context {Q : Type} `{PriorityQueue Q} `{!PriorityQueueLaws Q} `{Lntypes}.
Context (cfg : RegistryConfig) (key_hash : HtlcKey → Hash) (inv_amount : Hash → Z).
Implicit Types (w : InvoiceRegistry Q).

(** ** Answers to incoming htlcs *)

(** The resolver [r] waits for the outcome of [k], or has been called between
    [w] and [w']. *)
Definition answered (k : HtlcKey) (r : nat) w w' : Prop :=
  (∃ l, hodlSubscriptions w' !! k = Some l ∧ r ∈ l) ∨
  (∃ res new, effects w' = effects w ++ new ∧ Resolved k r res ∈ new).

Lemma answered_resolveHtlc htlc res w :
  answered (circuitKey htlc) (resolve htlc) w (resolveHtlc htlc res w).
Proof. right. eexists res, _. split; [done|]. by left. Qed.

Lemma hodlSubscribe_lookup r k w :
  ∃ l, hodlSubscriptions (hodlSubscribe r k w) !! k = Some l ∧ r ∈ l.
Proof.
  simpl. rewrite lookup_insert_eq. eexists. split; [done|]. apply elem_of_app. right. by left.
Qed.

Lemma answered_afterAccept env htlc sd set w w1 w' e :
  effects w1 = effects w → (∃ l, hodlSubscriptions w1 !! circuitKey htlc = Some l ∧ resolve htlc ∈ l) →
  is_Some (sets w1 !! Sets.hash set) → held set (circuitKey htlc) →
  afterAccept cfg env htlc sd set w1 = Ok (w', e) →
  answered (circuitKey htlc) (resolve htlc) w w'.
Proof.
  intros Ee (l & Hl & Hin) Hset Hk. unfold afterAccept.
  destruct (Sets.isComplete set) as [id|].
  2:{ intros [= <- _]. left. eauto. }
  destruct (AutoSettle cfg); [|intros [= <- _]; left; eauto].
  destruct (markSettleRequested env set _) as [w2 [err|]] eqn:Hm.
  - apply mark_fields in Hm as (_ & Eh & _). intros [= <- _]. left. exists l. by rewrite Eh.
  - apply mark_fields in Hm as (Es & Eh & _ & Ef). unfold requestSettle.
    destruct (resolveAll_spec set
      (NewSettleResolution (Sets.preimage (Sets.params set)) ResultSettled) w2)
      as (w3 & -> & _ & _ & _ & _ & _ & E3); [by rewrite Es|].
    intros [= <- _]. right. rewrite E3, Ef. simpl. rewrite Ee, <- app_assoc.
    eexists _, _. split; [done|]. apply elem_of_app. right. apply elem_of_resolutions.
    exists (circuitKey htlc), (resolve htlc), l. rewrite Eh. split_and!; try done.
    by apply elem_of_map_keys.
Qed.

Lemma process_answer env htlc w w' e :
  Inv key_hash inv_amount w → wf_htlc cfg key_hash inv_amount htlc →
  process cfg env htlc w = Ok (w', e) →
  answered (circuitKey htlc) (resolve htlc) w w' ∨ (w' = w ∧ is_Some e).
Proof.
  intros Hi Hwf. pose proof Hi as (Hc & _). unfold process.
  assert (Hrv : ∀ w1 b, resolveViaDb env htlc w = (w1, b) →
    match b with Good true => answered (circuitKey htlc) (resolve htlc) w w1 | _ => w1 = w end).
  { intros w1 b. unfold resolveViaDb. destruct (Pg.Get _ _ _) as [[inv hs]|err].
    - case_bool_decide; [by intros [= <- <-]|].
      destruct (hs !! circuitKey htlc); intros [= <- <-]; apply answered_resolveHtlc.
    - case_decide; by intros [= <- <-]. }
  destruct (resolveViaDb env htlc w) as [w1 [[|]|err]]; specialize (Hrv _ _ eq_refl); simpl in Hrv.
  { intros [= <- _]. by left. }
  2:{ intros [= <- <-]. right. by eauto. }
  subst w1.
  assert (Hf : ∀ result (w2 : InvoiceRegistry Q) (e2 : option Error),
    Ok (resolveHtlc htlc (NewFailResolution result) w, None) = Ok (w2, e2) →
    answered (circuitKey htlc) (resolve htlc) w w2 ∨ (w2 = w ∧ is_Some e2)).
  { intros result w2 e2 [= <- _]. left. apply answered_resolveHtlc. }
  destruct (payload htlc) as [mpp|] eqn:Hpl; [|apply Hf]. case_decide; [apply Hf|].
  destruct (Stateless.decodeStatelessData _ _) as [sd|] eqn:Hdec.
  2:{ intros [= <- <-]. right. by eauto. }
  destruct (decide (PreimageHash _ ≠ _)) as [|Hh%dec_stable]; [apply Hf|].
  destruct (decide (TotalMsat mpp ≠ _)) as [|Ht%dec_stable]; [apply Hf|].
  unfold processInvoiceHtlc, Sets.get.
  destruct (match sets w !! rHash htlc with Some s => Sets.accepted s (circuitKey htlc) | None => false end)
    eqn:Hacc.
  { intros [= <- _]. left. left. apply hodlSubscribe_lookup. }
  destruct (checkNewHtlc _ _ _ _ _ _) as [result|] eqn:Hchk; [apply Hf|].
  destruct (addToSet_spec cfg key_hash inv_amount env htlc mpp sd w) as (o & Ho & Hspec); try done.
  { intros s Hs. rewrite Hs in Hacc. by apply Sets.accepted_false. }
  rewrite Ho; simpl. destruct o as [[set' w1]|]; [|apply Hf].
  destruct (Hspec _ _ eq_refl) as (-> & Hok & Hheld). intros Haa. left.
  eapply answered_afterAccept; [| | | |exact Haa].
  - done.
  - apply hodlSubscribe_lookup.
  - rewrite (so_hash _ _ _ _ Hok). simpl. rewrite lookup_insert_eq. eauto.
  - apply Hheld. by left.
Qed.

(** ** Release by the timers *)

(** The loop serves [n] release ticks in a row. *)
Fixpoint ticks (env : Env) (n : nat) w : outcome (InvoiceRegistry Q) :=
  match n with
  | O => Ok w
  | S n' => '(w', _) ← iteration cfg (EvTick env) w; ticks env n' w'
  end.

(** Resolvers are only removed, and each one removed is called, in [new], with a
    failure. *)
Definition releases w w' (new : list effect) (k : HtlcKey) : Prop :=
  hodlSubscriptions w' !! k = hodlSubscriptions w !! k ∨
  (hodlSubscriptions w' !! k = None ∧
   ∀ l r, hodlSubscriptions w !! k = Some l → r ∈ l →
     ∃ f, Resolved k r (HtlcFailResolution f) ∈ new).

Definition released w w' : Prop :=
  ∃ new, effects w' = effects w ++ new ∧ ∀ k, releases w w' new k.

#[local] Instance released_preorder : PreOrder released.
Proof.
  split.
  - intros w. exists []. split; [by rewrite app_nil_r|by left].
  - intros a b c (n1 & E1 & H1) (n2 & E2 & H2). exists (n1 ++ n2).
    split; [by rewrite E2, E1, <- app_assoc|]. intros k. unfold releases. setoid_rewrite elem_of_app.
    destruct (H1 k) as [K1|[K1 A1]], (H2 k) as [K2|[K2 A2]].
    + left. congruence.
    + right. split; [done|]. rewrite <- K1. intros l r Hl Hr. destruct (A2 l r Hl Hr); eauto.
    + right. split; [congruence|]. intros l r Hl Hr. destruct (A1 l r Hl Hr); eauto.
    + right. split; [done|]. intros l r Hl Hr. destruct (A1 l r Hl Hr); eauto.
Qed.

Lemma released_notify k f w : released w (notifyHodlSubscribers k (NewFailResolution f) w).
Proof.
  destruct (notify_fields k (NewFailResolution f) w) as (_ & _ & _ & _ & Eh & Ee).
  eexists. split; [exact Ee|]. intros k'. unfold releases. rewrite Eh.
  destruct (decide (k' = k)) as [->|].
  - right. rewrite lookup_delete_eq. split; [done|]. intros l r Hl Hr. exists f.
    apply elem_of_resolutions. exists k, r, l. split_and!; try done. by left.
  - left. by rewrite lookup_delete_ne.
Qed.

Lemma released_notify_all keys f w : released w (notify_all keys (NewFailResolution f) w).
Proof.
  revert w. induction keys as [|k keys IH]; intros w; [done|].
  transitivity (notifyHodlSubscribers k (NewFailResolution f) w); [apply released_notify|apply IH].
Qed.

(** Fields other than the resolvers do not matter. *)
Lemma released_ext w w1 w' :
  hodlSubscriptions w1 = hodlSubscriptions w → effects w1 = effects w →
  released w1 w' → released w w'.
Proof. unfold released, releases. by intros -> ->. Qed.

Lemma tick_released env w w' st :
  iteration cfg (EvTick env) w = Ok (w', st) → released w w'.
Proof.
  simpl. destruct (releaseDue _ w) as [[[h t k|h t] q']|]; [| |by intros [= <- _]].
  - unfold cancelSingleHtlc. destruct (Sets.get _ _) as [s|]; simpl;
      [|intros [= <- _]; by eapply released_ext; [..|done]].
    destruct (Sets.isComplete s); simpl; [intros [= <- _]; by eapply released_ext; [..|done]|].
    destruct (Sets.deleteHtlc _ _ _ _) as [s'|]; simpl; [|done]. intros [= <- _].
    eapply released_ext; [| |apply released_notify]; done.
  - unfold failInvoice. destruct (Sets.get _ _) as [s|]; simpl;
      [|intros [= <- _]; by eapply released_ext; [..|done]].
    unfold resolveAll, Sets.deleteAll. destruct (Sets.delete_set _ _) as [s'|]; simpl; [|done].
    intros [= <- _]. fold (notify_all (map_keys (Sets.htlcs s)) (NewFailResolution ResultAcceptTimeout)
      (set_heap q' w)).
    apply (released_notify_all (map_keys (Sets.htlcs s)) ResultAcceptTimeout (set_heap q' w)).
Qed.

(** Every tick that is due takes one event from the heap. *)
Lemma tick_heap env w w' st e q' :
  pq_Pop (autoReleaseHeap w) = Some (e, q') → getReleaseTime e ≤ t_tick env →
  iteration cfg (EvTick env) w = Ok (w', st) → autoReleaseHeap w' = q'.
Proof.
  intros Hp He. simpl. unfold releaseDue. rewrite Hp.
  replace (getReleaseTime e <=? t_tick env) with true by lia. destruct e as [h t k|h t].
  - unfold cancelSingleHtlc. destruct (Sets.get _ _) as [s|]; simpl; [|by intros [= <- _]].
    destruct (Sets.isComplete s); simpl; [by intros [= <- _]|].
    destruct (Sets.deleteHtlc _ _ _ _) as [s'|]; simpl; [|done]. intros [= <- _].
    by destruct (notify_fields k (NewFailResolution ResultMppTimeout) (set_sets s' (set_heap q' w)))
      as (_ & _ & -> & _).
  - unfold failInvoice. destruct (Sets.get _ _) as [s|]; simpl; [|by intros [= <- _]].
    unfold resolveAll, Sets.deleteAll. destruct (Sets.delete_set _ _) as [s'|]; simpl; [|done].
    intros [= <- _]. simpl.
    by destruct (notify_all_fields (map_keys (Sets.htlcs s)) (NewFailResolution ResultAcceptTimeout)
      (set_heap q' w)) as (_ & _ & E & _).
Qed.

(** With an empty heap nothing is held. *)
Lemma idle_empty w :
  Inv key_hash inv_amount w → pq_items (autoReleaseHeap w) = [] →
  sets w = ∅ ∧ hodlSubscriptions w = ∅.
Proof.
  intros (Hc & _) Hq.
  assert (Hs : sets w = ∅).
  { apply map_empty. intros h. destruct (sets w !! h) as [s|] eqn:Hs; [|done]. exfalso.
    destruct (co_timer _ _ _ Hc _ _ Hs) as [(t & Ht)|[_ Hk]].
    - rewrite Hq in Ht. by apply elem_of_nil in Ht.
    - pose proof (so_ne _ _ _ _ (co_set _ _ _ Hc _ _ Hs)) as Hne.
      apply map_choose in Hne as (k & a & Ha). destruct (Hk k) as [t Ht]; [by exists a|].
      rewrite Hq in Ht. by apply elem_of_nil in Ht. }
  split; [done|]. apply map_empty. intros k.
  destruct (hodlSubscriptions w !! k) as [l|] eqn:E; [|done]. exfalso.
  destruct (proj1 (co_hodl _ _ _ Hc k)) as (s & Hx & _); [eauto|]. by rewrite Hs, lookup_empty in Hx.
Qed.

Lemma ticks_ok env n w :
  Inv key_hash inv_amount w → length (pq_items (autoReleaseHeap w)) = n →
  Forall (λ e, getReleaseTime e ≤ t_tick env) (pq_items (autoReleaseHeap w)) →
  match ticks env n w with
  | Ok w' => released w w' ∧ sets w' = ∅ ∧ hodlSubscriptions w' = ∅
  | Panic _ => ∃ m w1, (m < n)%nat ∧ ticks env m w = Ok w1 ∧ stale_release (EvTick env) w1
  end.
Proof.
  revert w. induction n as [|n IH]; intros w Hi Hlen Hdue.
  { simpl. apply nil_length_inv in Hlen. split; [done|]. by apply idle_empty. }
  destruct (pq_Pop (autoReleaseHeap w)) as [[e q']|] eqn:Hp.
  2:{ apply pq_Pop_None in Hp. by rewrite Hp in Hlen. }
  pose proof (pq_Pop_items _ _ _ Hp) as [Hperm _].
  rewrite Hperm in Hlen, Hdue. simpl in Hlen. apply Forall_cons in Hdue as [He Hdue].
  pose proof (iteration_ok cfg key_hash inv_amount (EvTick env) w Hi I) as Hit.
  unfold ticks; fold ticks. destruct (iteration cfg (EvTick env) w) as [[w1 st]|msg] eqn:Heq.
  - pose proof (tick_heap _ _ _ _ _ _ Hp He Heq) as Eq. apply tick_released in Heq as Hrel.
    specialize (IH w1 (st_inv _ _ _ _ Hit)). rewrite Eq in IH.
    specialize (IH ltac:(lia) Hdue). unfold mbind, outcome_bind.
    destruct (ticks env n w1) as [w'|msg].
    + destruct IH as (? & ? & ?). split_and!; try done. by transitivity w1.
    + destruct IH as (m & w2 & Hm & Ht & Hst). exists (S m), w2. split_and!; [lia| |done].
      unfold ticks; fold ticks. rewrite Heq. done.
  - exists 0%nat, w. split_and!; [lia|done|done].
Qed.

(** ** The life cycle of an invoice *)

Inductive phase := Open | Partial | Accepted | SettleRequested | Settled | Failed.

(** The phase of payment hash [h]: memory before the settle request, database
    after it. *)
Definition phase_of (h : Hash) w : phase :=
  match Pg.invoices (cdb w) !! h with
  | Some inv =>
      match Pg.i_Status inv with
      | InvoiceStatusSettleRequested => SettleRequested
      | InvoiceStatusSettled => Settled
      | InvoiceStatusFailed => Failed
      end
  | None =>
      match sets w !! h with
      | None => Open
      | Some s => match Sets.isComplete s with None => Partial | Some _ => Accepted end
      end
  end.

(** The specification: before the settle request a payment may be partial,
    complete or gone; a settle request needs a complete set (which auto-settle
    completes and requests in one step); a final invoice stays final. *)
Definition transition (auto : bool) (p p' : phase) : bool :=
  match p, p' with
  | (Open | Partial | Accepted), (Open | Partial | Accepted) => true
  | Accepted, SettleRequested => true
  | (Open | Partial), SettleRequested => auto
  | SettleRequested, (SettleRequested | Settled | Failed) => true
  | Settled, Settled | Failed, Failed => true
  | _, _ => false
  end.

Lemma phase_stored h w inv :
  Pg.invoices (cdb w) !! h = Some inv →
  phase_of h w = match Pg.i_Status inv with
                 | InvoiceStatusSettleRequested => SettleRequested
                 | InvoiceStatusSettled => Settled
                 | InvoiceStatusFailed => Failed
                 end.
Proof. intros E. unfold phase_of. by rewrite E. Qed.

Lemma phase_memory h w :
  Pg.invoices (cdb w) !! h = None →
  phase_of h w = Open ∨ phase_of h w = Partial ∨ phase_of h w = Accepted.
Proof. intros E. unfold phase_of. rewrite E. repeat case_match; auto. Qed.

(** An invoice an iteration adds to the database has status settle-requested. *)
Lemma iteration_new_status ev w w' st h inv :
  iteration cfg ev w = Ok (w', st) → Pg.invoices (cdb w) !! h = None →
  Pg.invoices (cdb w') !! h = Some inv → Pg.i_Status inv = InvoiceStatusSettleRequested.
Proof.
  intros Hit Hnone Hsome.
  assert (Hsame : cdb w' = cdb w → Pg.i_Status inv = InvoiceStatusSettleRequested) by congruence.
  assert (Hreq : ∀ f t i hs, cdb w' = (Pg.RequestSettle f t i hs (cdb w)).1 →
    Pg.i_Status inv = InvoiceStatusSettleRequested).
  { intros f t i hs E. destruct (Pg.RequestSettle f t i hs (cdb w)) as [db' [e|]] eqn:Hrs.
    - apply RequestSettle_err in Hrs as [Ei _]. simpl in E. congruence.
    - apply RequestSettle_ok in Hrs as (_ & _ & _ & Ei & _). simpl in E.
      rewrite E, Ei, lookup_insert_Some in Hsome. destruct Hsome as [[_ <-]|[_ ?]]; [done|congruence]. }
  destruct ev as [env|env htlc|id cb|env id|env h' id|env h' id| |fault now key settled]; simpl in Hit.
  - destruct (releaseDue _ _) as [[[]?]|]; [| |apply Hsame; by simplify_eq].
    + destruct (cancelSingleHtlc _ _ _ _) eqn:Hx; simplify_eq/=.
      apply Hsame. by apply cancelSingle_cdb in Hx.
    + destruct (failInvoice _ _) eqn:Hx; simplify_eq/=. apply Hsame. by apply failInvoice_cdb in Hx.
  - destruct (process _ _ _ _) as [[]|] eqn:Hx; simplify_eq/=.
    apply process_call in Hx as [?|(_ & i & hs & E)]; eauto.
  - simplify_eq. apply Hsame, addAccept_cdb.
  - simplify_eq. by apply Hsame.
  - destruct (handleSettleRequest cfg env h' id w) as [[w1 r]|] eqn:Hx; simpl in Hit; [|done].
    assert (w1 = w') as -> by by destruct r; simplify_eq/=. clear Hit. revert Hx.
    unfold handleSettleRequest. destruct (getAcceptedSet _ _ _ _) as [[s|e]|e];
      [|by case_decide; intros [= <- _]; apply Hsame|by intros [= <- _]; apply Hsame].
    destruct (AutoSettle cfg); [by intros [= <- _]; apply Hsame|].
    unfold markSettleRequested.
    destruct (Pg.RequestSettle _ _ _ _ _) as [db' [e|]] eqn:Hrs.
    + intros [= <- _]. eapply Hreq. by rewrite Hrs.
    + unfold requestSettle. destruct (resolveAll _ _ _) as [w3|] eqn:Hra; simpl; [|done].
      apply resolveAll_cdb in Hra. intros [= <- _]. eapply Hreq. by rewrite Hrs, Hra.
  - unfold handleCancelRequest in Hit. destruct (getAcceptedSet _ _ _ _) as [[s|]|];
      [|apply Hsame; by simplify_eq/=..].
    destruct (resolveAll _ _ _) eqn:Hx; simplify_eq/=. apply Hsame. by apply resolveAll_cdb in Hx.
  - injection Hit as <- <-. by apply Hsame.
  - simplify_eq/=. destruct (Pg.MarkHtlcFinal _ _ _ _ _) as [db' o] eqn:Hm. simpl in *.
    apply MarkHtlcFinal_cases in Hm as [[-> _]|(o' & _ & Hm)]; [congruence|].
    apply markHtlcFinal_Good in Hm as (r & i & _ & Hinv & _ & _ & _ & Hcase).
    destruct Hcase as [(_ & E & _)|(_ & _ & E & _)]; rewrite E in Hsome; [congruence|].
    apply lookup_insert_Some in Hsome as [[Hx _]|[_ ?]]; congruence.
Qed.

(** The database after a step is the one before or the one after its iteration. *)
Lemma sys_step_cdb sev w :
  cdb (sys_step cfg w sev) = cdb w ∨
  ∃ ev w' st, iteration cfg ev w = Ok (w', st) ∧ cdb (sys_step cfg w sev) = cdb w'.
Proof.
  destruct sev as [ev|c n ev]; simpl; destruct (iteration cfg ev w) as [[w' st]|] eqn:E; [| |..];
    try by left.
  - right. exists ev, w', st. by destruct st.
  - destruct c; [|by left]. right. by exists ev, w', st.
Qed.

(** ** The calls made for one htlc *)

Definition resolves (k : HtlcKey) (e : effect) : Prop :=
  match e with Resolved k' _ _ => k' = k | Notified _ _ _ => False end.

#[global] Instance resolves_dec k e : Decision (resolves k e).
Proof. destruct e; simpl; apply _. Defined.

Lemma filter_resolves k k' (l : list nat) res :
  filter (resolves k) ((λ r, Resolved k' r res) <$> l) =
  if decide (k = k') then (λ r, Resolved k' r res) <$> l else [].
Proof.
  induction l as [|r l IH]; [by case_decide|]. rewrite fmap_cons, filter_cons, IH.
  unfold resolves at 1. repeat case_decide; congruence.
Qed.

Lemma filter_resolutions k m keys res :
  NoDup keys →
  filter (resolves k) (resolutions m keys res) =
  if decide (k ∈ keys) then (λ r, Resolved k r res) <$> default [] (m !! k) else [].
Proof.
  induction keys as [|k' keys IH]; intros Hnd; [done|]. apply NoDup_cons in Hnd as [Hk' Hnd].
  change (resolutions m (k' :: keys) res)
    with (((λ s, Resolved k' s res) <$> default [] (m !! k')) ++ resolutions m keys res).
  rewrite filter_app, filter_resolves, IH by done.
  destruct (decide (k = k')) as [->|Hne].
  - rewrite (decide_False (P := k' ∈ keys)), decide_True, app_nil_r by (done || left). done.
  - by rewrite (decide_ext (k ∈ k' :: keys) (k ∈ keys)) by (clear -Hne; set_solver).
Qed.

(** ** Properties *)

(** No htlc is lost when it arrives: [process] does not panic, and its
    resolver is called at once or is registered for the outcome of the set;
    only when [process] reports an error (of the database or of the payment
    address) is the htlc left unanswered, and then nothing has changed. *)
Lemma htlc_answered_or_held w (Hr : reachable cfg key_hash inv_amount w) (env : Env)
  (htlc : registryHtlc) (Hwf : wf_htlc cfg key_hash inv_amount htlc) :
  ∃ w' e, process cfg env htlc w = Ok (w', e) ∧
    ((∃ l, hodlSubscriptions w' !! circuitKey htlc = Some l ∧ resolve htlc ∈ l) ∨
     (∃ res new, effects w' = effects w ++ new ∧
        Resolved (circuitKey htlc) (resolve htlc) res ∈ new) ∨
     (w' = w ∧ is_Some e)).
Proof.
  apply reachable_inv in Hr as Hi.
  destruct (process_ok cfg key_hash inv_amount env htlc w Hi Hwf) as (w' & e & Hp & _).
  exists w', e. split; [done|].
  destruct (process_answer _ _ _ _ _ Hi Hwf Hp) as [[?|?]|?]; auto.
Qed.

(** Nothing is held forever: when the clock has passed the queued release
    times, as many ticks as the heap has events call every waiting resolver
    with a failure, in the calls these ticks make, and leave no set and no
    subscription behind, unless one of the ticks meets a stale release event. *)
Lemma timers_release_all w (Hr : reachable cfg key_hash inv_amount w) (env : Env)
  (Hdue : Forall (λ e, getReleaseTime e ≤ t_tick env) (pq_items (autoReleaseHeap w))) :
  match ticks env (pq_Len (autoReleaseHeap w)) w with
  | Ok w' => sets w' = ∅ ∧ hodlSubscriptions w' = ∅ ∧
      ∃ new, effects w' = effects w ++ new ∧
        ∀ k l r, hodlSubscriptions w !! k = Some l → r ∈ l →
          ∃ f, Resolved k r (HtlcFailResolution f) ∈ new
  | Panic _ => ∃ m w1, (m < pq_Len (autoReleaseHeap w))%nat ∧ ticks env m w = Ok w1 ∧
      stale_release (EvTick env) w1
  end.
Proof.
  apply reachable_inv in Hr as Hi. rewrite pq_Len_items.
  pose proof (ticks_ok env _ w Hi eq_refl Hdue) as Ht.
  destruct (ticks env _ w) as [w'|msg]; [|done]. destruct Ht as ((new & Ee & Hh) & Hs & He).
  split_and!; [done|done|]. exists new. split; [done|]. intros k l r Hl Hin.
  destruct (Hh k) as [E|[_ Ha]]; [|eauto]. by rewrite He, Hl, lookup_empty in E.
Qed.

(** C16. The only panic of the registry is the release of a stale event: an
    iteration panics exactly when a due htlc release event refers to a hash
    whose current set is incomplete and does not contain the htlc. *)
Theorem panic_iff_stale_release w (Hr : reachable cfg key_hash inv_amount w) (ev : event)
  (Hwf : wf_event cfg key_hash inv_amount ev) :
  (∃ msg, iteration cfg ev w = Panic msg) ↔ stale_release ev w.
Proof.
  apply reachable_inv in Hr as Hi. split.
  - intros [msg Hp]. pose proof (iteration_ok cfg key_hash inv_amount ev w Hi Hwf) as Hok.
    by rewrite Hp in Hok.
  - intros (env & h & t & k & q' & s & -> & Hd & Hs & Hinc & Hn). simpl. rewrite Hd.
    unfold cancelSingleHtlc, Sets.get; simpl. rewrite Hs, Hinc. unfold Sets.deleteHtlc.
    destruct (Sets.htlcs s !! k) as [a|] eqn:E; [by destruct Hn; exists a|]. by eexists.
Qed.

(** C8. The registry refines the life cycle of an invoice: in every reachable
    state, every step (crashes included) moves every payment hash along a
    transition of the specification. *)
Theorem registry_refines_lifecycle w (Hr : reachable cfg key_hash inv_amount w)
  (sev : sys_event) (Hwf : wf_sys_event cfg key_hash inv_amount sev) (h : Hash) :
  transition (AutoSettle cfg) (phase_of h w) (phase_of h (sys_step cfg w sev)) = true.
Proof.
  apply reachable_inv in Hr as Hi.
  pose proof (sys_step_ok cfg key_hash inv_amount sev w Hi Hwf) as [_ Hle _].
  destruct (Pg.invoices (cdb w) !! h) as [inv|] eqn:Hinv.
  { destruct (le_invoices _ _ Hle _ _ Hinv) as (inv' & Hinv' & _ & _ & _ & Hst).
    rewrite (phase_stored _ _ _ Hinv), (phase_stored _ _ _ Hinv').
    destruct (Pg.i_Status inv) eqn:E; [by destruct (Pg.i_Status inv')| |];
      rewrite Hst, E by done; done. }
  pose proof (phase_memory _ _ Hinv) as Hp.
  destruct (Pg.invoices (cdb (sys_step cfg w sev)) !! h) as [inv'|] eqn:Hinv'.
  2:{ apply phase_memory in Hinv'. by destruct Hp as [-> | [-> | ->]], Hinv' as [-> | [-> | ->]]. }
  rewrite (phase_stored _ _ _ Hinv').
  destruct (sys_step_cdb sev w) as [E|(ev & w' & st & Hit & E)]; rewrite E in Hinv'; [congruence|].
  rewrite (iteration_new_status _ _ _ _ _ _ Hit Hinv Hinv').
  destruct (AutoSettle cfg) eqn:Ha; [by destruct Hp as [-> | [-> | ->]]|].
  destruct (iteration_new_invoice cfg key_hash inv_amount ev w w' st h Hi Ha Hit Hinv)
    as (env & id & s & _ & Hs & Hcomp & _); [eauto|].
  unfold phase_of. by rewrite Hinv, Hs, Hcomp.
Qed.

(** C27. What a request to cancel does, in every reachable state. If the invoice
    has a complete set with the id of the request, then the request succeeds:
    every resolver that waits for an htlc of the set, and there is at least one
    for each htlc, is called exactly once, in the order of its arrival among those
    for the htlc, to fail it as not open, and nothing else is called; the set and
    these subscriptions are gone, and the database, the timers, the subscribers,
    the other sets and the other subscriptions are as they were. Otherwise
    nothing changes, and the answer is [ErrInvoiceNotFound], or
    [ErrSettleRequested] if a settle request for the set is stored; an error of
    the database, which is asked only if there is no set, ends the loop. *)
Theorem cancel_request_outcomes w (Hr : reachable cfg key_hash inv_amount w) (env : Env) (h : Hash)
  (id : SetID) :
  let refused st := iteration cfg (EvCancel env h id) w = Ok (w, st) in
  match sets w !! h with
  | Some s =>
      if decide (Sets.isComplete s = Some id) then
        ∃ w' calls, iteration cfg (EvCancel env h id) w = Ok (w', Continue (Some None)) ∧
          effects w' = effects w ++ calls ∧ Forall (λ e, ∃ k, resolves k e) calls ∧
          (∀ k, filter (resolves k) calls =
             if decide (held s k)
             then (λ r, Resolved k r (NewFailResolution ResultInvoiceNotOpen)) <$>
                  default [] (hodlSubscriptions w !! k)
             else []) ∧
          (∀ k, held s k → filter (resolves k) calls ≠ []) ∧
          (∀ k, hodlSubscriptions w' !! k =
             if decide (held s k) then None else hodlSubscriptions w !! k) ∧
          sets w' = delete h (sets w) ∧ cdb w' = cdb w ∧
          autoReleaseHeap w' = autoReleaseHeap w ∧ subs w' = subs w
      else refused (Continue (Some (Some ErrInvoiceNotFound)))
  | None =>
      match db_Get env with
      | Some e => refused (Exit (ErrExternal e))
      | None =>
          if decide (is_Some (Pg.invoices (cdb w) !! h) ∧
                     id = SetID.newSetID (map_keys (Pg.htlcs_of h (cdb w))))
          then refused (Continue (Some (Some ErrSettleRequested)))
          else refused (Continue (Some (Some ErrInvoiceNotFound)))
      end
  end.
Proof.
  apply reachable_inv in Hr as ([Hset Hhodl Hne _] & _). simpl.
  unfold handleCancelRequest, getAcceptedSet, Sets.get.
  destruct (sets w !! h) as [s|] eqn:Hs.
  - pose proof (Hset _ _ Hs) as Hok. pose proof (so_hash _ _ _ _ Hok) as Eh.
    case_decide as Hc; [|destruct (Sets.isComplete s); [|done]; by rewrite decide_True by congruence].
    rewrite Hc, decide_False by (by intros []).
    destruct (resolveAll_spec s (NewFailResolution ResultInvoiceNotOpen) w) as (w' & Hw' & E1 & E2 & E3 & E4 & E5 & E6);
      [rewrite Eh; eauto|].
    assert (Hf : ∀ k, filter (resolves k) (resolutions (hodlSubscriptions w) (map_keys (Sets.htlcs s))
        (NewFailResolution ResultInvoiceNotOpen)) =
        if decide (held s k) then (λ r, Resolved k r (NewFailResolution ResultInvoiceNotOpen)) <$>
          default [] (hodlSubscriptions w !! k) else []).
    { intros k. rewrite filter_resolutions by apply map_keys_NoDup.
      by rewrite (decide_ext (k ∈ map_keys (Sets.htlcs s)) (held s k)) by apply elem_of_map_keys. }
    rewrite Hw'. simpl. eexists w', _. split_and!; try done.
    + apply Forall_forall. intros e (k & r & l & -> & _)%elem_of_resolutions. by exists k.
    + intros k Hk. rewrite Hf, decide_True by done.
      destruct (proj2 (Hhodl k)) as [l Hl].
      { exists s. split; [|done]. destruct Hk as [a Ha]. apply (so_keys _ _ _ _ Hok) in Ha as [-> _]. done. }
      rewrite Hl. simpl. apply Hne in Hl. by destruct l.
    + by rewrite E4, Eh.
  - unfold Pg.Get. destruct (db_Get env) as [e|]; [done|].
    destruct (Pg.invoices (cdb w) !! h) as [inv|] eqn:Hinv.
    + destruct (decide (id = SetID.newSetID (map_keys (Pg.htlcs_of h (cdb w))))) as [E|E].
      * rewrite decide_True by (split; [by eexists|done]). rewrite decide_False by (by intros []). done.
      * rewrite decide_False by (by intros [_ ?]). by rewrite decide_True.
    + rewrite decide_False by (by intros [[? ?] _]). by rewrite decide_True.
Qed.

End Live.

(** ** The example deployment *)

Module Witness.
Import RealLntypes ListQueue RegExample.

Definition wf (b : bool) (evs : list sys_event) : Prop :=
  history (deployment b) key_hash inv_amount evs.

Ltac solve_history :=
  repeat (apply Forall_cons; split); simpl; try done; apply wf_example; lia.

Definition from_start (b : bool) (evs : list sys_event) : InvoiceRegistry queue :=
  run (deployment b) evs (start (deployment b)).

Lemma from_start_reachable b evs :
  wf b evs → reachable (deployment b) key_hash inv_amount (from_start b evs).
Proof. intros Hh. by exists evs. Qed.

Definition subscribed : list sys_event := [SysEvent (EvSubscribe 1 7)].
Definition partial : list sys_event := subscribed ++ [SysEvent (ev_htlc 1 1 60 11)].

(** The application cancels the complete set; later another payment of the same
    invoice starts. *)
Definition cancelled : list sys_event :=
  accepted_evs ++ [SysEvent (EvCancel (at_time 3) hash (setID [1; 2]))].
Definition stale : list sys_event := cancelled ++ [SysEvent (ev_htlc 5 3 60 13)].

Lemma subscribed_wf : wf false subscribed.
Proof. by repeat constructor. Qed.
Lemma partial_wf : wf false partial.
Proof. solve_history. Qed.
Lemma accepted_evs_wf : wf false accepted_evs.
Proof. apply accepted_wf. Qed.
Lemma stale_wf : wf false stale.
Proof. solve_history. Qed.

Lemma panic_iff_stale_release_witness :
  (∃ msg, iteration (deployment false) (EvTick (at_time 32)) (from_start false stale) = Panic msg) ↔
  stale_release (EvTick (at_time 32)) (from_start false stale).
Proof.
  exact (panic_iff_stale_release (deployment false) key_hash inv_amount (from_start false stale)
           (from_start_reachable false stale stale_wf) (EvTick (at_time 32)) I).
Defined.

Lemma registry_refines_lifecycle_witness :
  phase_of hash (from_start false accepted_evs) = Accepted ∧
  transition false (phase_of hash (from_start false accepted_evs))
    (phase_of hash (sys_step (deployment false) (from_start false accepted_evs)
       (SysEvent (EvSettle (at_time 3) hash (setID [1; 2]))))) = true.
Proof.
  split; [vm_compute; reflexivity|].
  exact (registry_refines_lifecycle (deployment false) key_hash inv_amount
           (from_start false accepted_evs)
           (from_start_reachable false accepted_evs accepted_evs_wf)
           (SysEvent (EvSettle (at_time 3) hash (setID [1; 2]))) I hash).
Defined.

Lemma cancel_request_outcomes_witness :
  ∃ w' calls,
    iteration (deployment false) (EvCancel (at_time 3) hash (setID [1; 2])) (from_start false accepted_evs) =
      Ok (w', Continue (Some None)) ∧
    effects w' = effects (from_start false accepted_evs) ++ calls ∧ sets w' = ∅ ∧
    filter (resolves (key 2)) calls = [Resolved (key 2) 12 (NewFailResolution ResultInvoiceNotOpen)].
Proof.
  pose proof (cancel_request_outcomes (deployment false) key_hash inv_amount (from_start false accepted_evs)
    (from_start_reachable false accepted_evs accepted_evs_wf) (at_time 3) hash (setID [1; 2])) as Hc.
  cbv zeta in Hc.
  assert (Hs : sets (from_start false accepted_evs) !! hash = Some the_set) by (vm_compute; reflexivity).
  rewrite Hs, decide_True in Hc by (vm_compute; reflexivity).
  destruct Hc as (w' & calls & Hi & He & _ & Hf & _ & _ & Es & _). exists w', calls.
  split_and!; [exact Hi|exact He|rewrite Es; vm_compute; reflexivity|].
  rewrite Hf. vm_compute. reflexivity.
Defined.

(** *** Corner cases, as executions of the model *)

(** The stale release event of [panic_iff_stale_release] is reachable: an
    accepted invoice is cancelled, its first htlc's release event stays in the
    heap, another payment of the same invoice starts, and the old event then
    stops the process with [deleteHtlc]'s panic. *)
Theorem cancel_then_repay_panics :
  wf false stale ∧
  iteration (deployment false) (EvTick (at_time 32)) (from_start false stale) =
    Panic "htlc not found".
Proof. split; [exact stale_wf|]. vm_compute. reflexivity. Qed.

(** A second payment is accepted in full at 45 s; the accept timer of the
    cancelled one is due at 62 s. *)
Definition repaid : list sys_event :=
  cancelled ++ (SysEvent <$> [EvTick (at_time 32); ev_htlc 40 3 60 13; ev_htlc 45 4 40 14]).

Lemma repaid_wf : wf false repaid.
Proof. solve_history. Qed.

(** An accept timer is not stopped with the set it was started for: after a
    cancel, a second payment that is accepted in full at 45 s, with an accept
    timeout of 60 s, is failed as timed out at 62 s. *)
Theorem stale_accept_timer_fails_new_set :
  wf false repaid ∧
  phase_of hash (from_start false repaid) = Accepted ∧
  AcceptTimeout (deployment false) = 60 * sec ∧
  let w' := from_start false (repaid ++ [SysEvent (EvTick (at_time 62))]) in
  phase_of hash w' = Open ∧
  drop 4 (effects w') =
    [Resolved (key 3) 13 (HtlcFailResolution ResultAcceptTimeout);
     Resolved (key 4) 14 (HtlcFailResolution ResultAcceptTimeout)].
Proof. split; [exact repaid_wf|]. vm_compute. repeat split. Qed.

(** An htlc of amount zero joins the set. *)
Definition zero_htlc : list sys_event :=
  subscribed ++ (SysEvent <$> [ev_htlc 1 1 0 11; ev_htlc 2 2 100 12]).

Lemma zero_htlc_wf : wf false zero_htlc.
Proof. solve_history. Qed.

(** An htlc of amount zero is accepted into the set, and the settle request
    of the complete set then violates the [amount_msat > 0] constraint of the
    htlcs table: the error is not the requester's but ends the event loop. *)
Theorem zero_amount_htlc_stops_registry :
  wf false zero_htlc ∧
  phase_of hash (from_start false zero_htlc) = Accepted ∧
  match iteration (deployment false) (EvSettle (at_time 3) hash (setID [1; 2]))
          (from_start false zero_htlc) with
  | Ok (_, Exit err) => err = ErrWrap "cannot request settle in database"
      (ErrWrap "cannot insert htlc" (ErrExternal "htlcs: constraint violation"))
  | _ => False
  end.
Proof. split; [exact zero_htlc_wf|]. vm_compute. repeat split. Qed.

(** The faults of the model roll a transaction back. If the connection breaks
    after the commit, the transaction is reported as failed although it is stored.
    For a settle request this ends the loop and is the same as a process that is
    killed after the commit ([SysKill true 0]). With auto-settle the error is only
    logged: the set stays in memory, and its accept timer fails htlcs whose settle
    request is stored. *)
Definition unacknowledged : Env :=
  let now := T0 + 2 * sec in MkEnv now now now now now now now None (Some "connection reset"%string).

Definition lost_commit : registry :=
  set_cdb (cdb (from_start true accepted_evs))
    (from_start true (SysEvent <$> [EvSubscribe 1 7; ev_htlc 1 1 60 11; EvHtlc unacknowledged (htlc 2 40 12)])).

Theorem lost_commit_fails_stored_htlcs :
  Pg.h_Status <$> Pg.htlcs (cdb lost_commit) !! key 1 = Some HtlcStatusSettleRequested ∧
  let w' := run (deployment true) (SysEvent <$> [EvTick (at_time 62); EvTick (at_time 62)]) lost_commit in
  drop (length (effects lost_commit)) (effects w') =
    [Resolved (key 1) 11 (HtlcFailResolution ResultAcceptTimeout);
     Resolved (key 2) 12 (HtlcFailResolution ResultAcceptTimeout)].
Proof. vm_compute. repeat split. Qed.

End Witness.
End RegLive.
