(* ===== verification/RegistryTyping.v ===== *)
(** The Go types of the registry and the database. Arrays are lists and machine
    integers are [Z] in the model; here every value that the registry keeps,
    stores or sends is shown to be one that its Go type has: hashes, preimages,
    payment addresses and set ids are [ [32]byte ], nodes are [ [33]byte ], ids are
    [uint64] and amounts [int64]. In Go the compiler guarantees this; the lemmas
    are for the models that join the registry with the muxes. Callbacks are numbers
    in the model: [owns] says which htlc a resolver was made for, and is kept as
    well. *)

From stdpp Require Import numbers strings base fin_maps gmap list.
From stdpp Require Import options.
From S2P Require Import Prelude Sha256 Types SetIds HtlcSets StatelessData Persistence PersistenceFacts Registry RegistryFacts RegistryExample.

Set Default Proof Using "Type*".

Module RegTyping.
Import Subs Registry PgFacts RegFacts.

(** A Go array of [n] bytes. *)
Definition array (n : nat) (b : bytes) : Prop := length b = n ∧ Forall is_byte b.

Record typed_set (s : Sets.htlcSetImpl) : Prop := {
  ts_preimage : array 32 (Sets.preimage (Sets.params s));
  ts_value : is_i64 (Sets.value (Sets.params s));
  ts_addr : array 32 (Sets.paymentAddr (Sets.params s));
  ts_htlcs : map_Forall (λ k a, HtlcKey_wf k ∧ is_i64 a) (Sets.htlcs s)
}.

Record typed_db (db : Pg.database) : Prop := {
  td_invoices : map_Forall (λ h r, array 32 h ∧ array 32 (Pg.i_Preimage r) ∧
    is_i64 (Pg.i_AmountMsat r)) (Pg.invoices db);
  td_htlcs : map_Forall (λ k r, HtlcKey_wf k ∧ array 32 (Pg.h_Hash r) ∧
    is_i64 (Pg.h_AmountMsat r)) (Pg.htlcs db)
}.

Section Owned.
Context (owns : HtlcKey → nat → Prop).

Definition typed_resolution (res : HtlcResolution) : Prop :=
  match res with HtlcSettleResolution p _ => array 32 p | HtlcFailResolution _ => True end.

Definition typed_effect (e : effect) : Prop :=
  match e with
  | Resolved key r res => HtlcKey_wf key ∧ owns key r ∧ typed_resolution res
  | Notified _ hash setID => array 32 hash ∧ array 32 setID
  end.

Definition typed_release (e : releaseEvent) : Prop :=
  match e with
  | htlcReleaseEvent hash _ key => array 32 hash ∧ HtlcKey_wf key
  | acceptTimeoutEvent hash _ => array 32 hash
  end.

Record typed_htlc (htlc : registryHtlc) : Prop := {
  th_hash : array 32 (rHash htlc);
  th_amt : is_u64 (amtPaid htlc);
  th_key : HtlcKey_wf (circuitKey htlc);
  th_owns : owns (circuitKey htlc) (resolve htlc);
  th_mpp mpp : payload htlc = Some mpp → is_u64 (TotalMsat mpp) ∧ array 32 (mpp_PaymentAddr mpp)
}.

Definition typed_event (ev : event) : Prop :=
  match ev with
  | EvHtlc _ htlc => typed_htlc htlc
  | EvSubscribe id _ => is_i64 id
  | EvSettle _ hash setID | EvCancel _ hash setID => array 32 hash ∧ array 32 setID
  | EvFinal _ _ key _ => HtlcKey_wf key
  | _ => True
  end.

Definition typed_sys_event (sev : sys_event) : Prop :=
  match sev with SysEvent ev => typed_event ev | SysKill _ _ ev => typed_event ev end.

(** ** The database *)

Lemma array_PreimageHash `{Lntypes} `{!LntypesLaws} p : array 32 (PreimageHash p).
Proof. split; [apply PreimageHash_length|apply PreimageHash_bytes]. Qed.

Lemma array_newSetID keys : array 32 (SetID.newSetID keys).
Proof. rewrite SetID.newSetID_sha. split; [apply Sha.sha256_length|apply Sha.sha256_bytes]. Qed.

Lemma typed_RequestSettle `{Lntypes} `{!LntypesLaws} fault now invoice hs db :
  typed_db db → array 32 (PaymentPreimage invoice) →
  map_Forall (λ k a, HtlcKey_wf k ∧ is_i64 a) hs →
  typed_db (Pg.RequestSettle fault now invoice hs db).1.
Proof.
  intros [Hi Hh] Hp Hhs. destruct (Pg.RequestSettle fault now invoice hs db) as [db' [e|]] eqn:Hrs; simpl.
  { apply RequestSettle_err in Hrs as [Ei Eh]. split; [by rewrite Ei|by rewrite Eh]. }
  apply RequestSettle_ok in Hrs as (_ & _ & _ & Ei & Eh & _). split.
  - rewrite Ei. apply map_Forall_insert_2; [|done].
    split; [apply array_PreimageHash|]. split; [done|]. apply i64_range.
  - rewrite Eh. intros k r [Hr|[_ Hr]]%lookup_union_Some_raw; [|by apply Hh].
    unfold new_rows in Hr. rewrite lookup_fmap in Hr. apply fmap_Some in Hr as (a & Ha & ->).
    apply Hhs in Ha as [? ?]. split; [done|]. split; [apply array_PreimageHash|done].
Qed.

Lemma typed_MarkHtlcFinal fault now key settled db :
  typed_db db → typed_db (Pg.MarkHtlcFinal fault now key settled db).1.
Proof.
  intros Htd. destruct (Pg.MarkHtlcFinal _ _ _ _ _) as [db' o] eqn:Hm; simpl.
  apply MarkHtlcFinal_cases in Hm as [[-> _]|(h & _ & Htx)]; [done|].
  destruct Htd as [Hi Hh].
  apply markHtlcFinal_Good in Htx as (r & inv & Hr & Hinv & _ & _ & Eh & Hcase). split.
  - destruct Hcase as [(_ & -> & _)|(_ & _ & -> & _)]; [done|].
    apply map_Forall_insert_2; [|done]. exact (Hi _ _ Hinv).
  - rewrite Eh. apply map_Forall_insert_2; [|done]. exact (Hh _ _ Hr).
Qed.

(** ** The registry *)

Section Typing.
Context {Q : Type} `{PriorityQueue Q} `{!PriorityQueueLaws Q} `{Lntypes} `{!LntypesLaws}.
Context (cfg : RegistryConfig).
Implicit Types (w : InvoiceRegistry Q) (s : Sets.htlcSetImpl).

Record typed w : Prop := {
  ty_db : typed_db (cdb w);
  ty_hodl : map_Forall (λ k rs, HtlcKey_wf k ∧ Forall (owns k) rs) (hodlSubscriptions w);
  ty_sets : map_Forall (λ h s, array 32 h ∧ typed_set s) (sets w);
  ty_heap : Forall typed_release (pq_items (autoReleaseHeap w));
  ty_subs : map_Forall (λ id _, is_i64 id) (acceptSubscriptions (subs w));
  ty_effects : Forall typed_effect (effects w)
}.

Lemma typed_emit es w : Forall typed_effect es → typed w → typed (emit es w).
Proof. intros ? []; split; simpl; [done..|]. by apply Forall_app. Qed.

Lemma typed_set_cdb db w : typed_db db → typed w → typed (set_cdb db w).
Proof. by intros ? []. Qed.

Lemma typed_set_sets ss w :
  map_Forall (λ h s, array 32 h ∧ typed_set s) ss → typed w → typed (set_sets ss w).
Proof. by intros ? []. Qed.

Lemma typed_push e w :
  typed_release e → typed w → typed (set_heap (pq_Push e (autoReleaseHeap w)) w).
Proof. intros ? []; split; simpl; [done..| |done|done]. rewrite pq_Push_items. by constructor. Qed.

Lemma typed_pop e q' w :
  pq_Pop (autoReleaseHeap w) = Some (e, q') → typed w → typed_release e ∧ typed (set_heap q' w).
Proof.
  intros [Hp _]%pq_Pop_items []. rewrite Hp in *.
  match goal with Hf : Forall _ (_ :: _) |- _ => apply Forall_cons in Hf as [??] end. by split.
Qed.

Lemma typed_resolveHtlc htlc res w :
  typed_htlc htlc → typed_resolution res → typed w → typed (resolveHtlc htlc res w).
Proof. intros [] ? ?. apply typed_emit; [|done]. constructor; [done|constructor]. Qed.

Lemma typed_hodlSubscribe r k w : HtlcKey_wf k → owns k r → typed w → typed (hodlSubscribe r k w).
Proof.
  intros Hk Hr [? Hh]; split; simpl; try done. apply map_Forall_insert_2; [|done]. split; [done|].
  apply Forall_app. split; [|by constructor].
  destruct (hodlSubscriptions w !! k) as [l|] eqn:E; [exact (proj2 (Hh _ _ E))|constructor].
Qed.

Lemma typed_notify k res w : typed_resolution res → typed w → typed (notifyHodlSubscribers k res w).
Proof.
  intros Hres Hw. unfold notifyHodlSubscribers.
  destruct (hodlSubscriptions w !! k) as [l|] eqn:Hk; [|done].
  pose proof (ty_hodl w Hw k l Hk) as [Hwf Hown].
  assert (typed (emit ((λ r, Resolved k r res) <$> l) w)) as [].
  { apply typed_emit; [|done]. apply Forall_fmap. eapply Forall_impl; [exact Hown|]. by intros x. }
  split; try done. by apply map_Forall_delete.
Qed.

Lemma typed_notify_all keys res w : typed_resolution res → typed w → typed (notify_all keys res w).
Proof.
  intros Hres. revert w. induction keys as [|k keys IH]; intros w Hw; simpl; [done|].
  by apply IH, typed_notify.
Qed.

Lemma typed_resolveAll set res w w' :
  typed_resolution res → typed w → resolveAll set res w = Ok w' → typed w'.
Proof.
  intros Hres Hw. unfold resolveAll, Sets.deleteAll, Sets.delete_set.
  destruct (sets w !! Sets.hash set); simpl; [|done]. intros [= <-].
  apply typed_set_sets; [|by apply (typed_notify_all (map_keys (Sets.htlcs set)))].
  apply map_Forall_delete, ty_sets, Hw.
Qed.

Lemma get_typed hash w s : typed w → Sets.get hash (sets w) = Some s → array 32 hash ∧ typed_set s.
Proof. intros Hw Hs. exact (ty_sets w Hw _ _ Hs). Qed.

Lemma typed_cancelSingle hash key result w w' :
  typed w → cancelSingleHtlc hash key result w = Ok w' → typed w'.
Proof.
  intros Hw. unfold cancelSingleHtlc.
  destruct (Sets.get hash (sets w)) as [s|] eqn:Hs; [|by intros [= <-]].
  apply get_typed in Hs as [Hh [? ? ? Hk]]; [|done].
  destruct (Sets.isComplete s); [by intros [= <-]|]. unfold Sets.deleteHtlc, Sets.update.
  destruct (Sets.htlcs s !! key); simpl; [|done].
  set (s1 := Sets.MkSet (Sets.params s) (delete key (Sets.htlcs s))).
  assert (map_Forall (λ h s, array 32 h ∧ typed_set s) (<[hash := s1]> (sets w))) as Hs1.
  { apply map_Forall_insert_2; [|apply ty_sets, Hw]. split; [done|].
    split; simpl; try done. by apply map_Forall_delete. }
  case_bool_decide; simpl.
  - unfold Sets.delete_set. destruct (<[hash := s1]> (sets w) !! _); simpl; [|done].
    intros [= <-]. apply typed_notify, typed_set_sets; [done| |done]. by apply map_Forall_delete.
  - intros [= <-]. by apply typed_notify, typed_set_sets.
Qed.

Lemma typed_failInvoice hash w w' : typed w → failInvoice hash w = Ok w' → typed w'.
Proof.
  intros Hw. unfold failInvoice. destruct (Sets.get _ _); [|by intros [= <-]].
  by apply typed_resolveAll.
Qed.

Lemma typed_mark env s w : typed_set s → typed w → typed (markSettleRequested env s w).1.
Proof.
  intros [? ? ? Hk] Hw. unfold markSettleRequested.
  match goal with |- context [Pg.RequestSettle ?f ?n ?i ?m ?d] =>
    pose proof (typed_RequestSettle f n i m d) as Hrs;
    destruct (Pg.RequestSettle f n i m d) as [db' o] end.
  simpl in *. apply typed_set_cdb; [|done].
  apply Hrs; [apply Hw|done|]. by rewrite Sets.getHtlcMap_eq.
Qed.

Lemma typed_addHtlc key amt s s' :
  typed_set s → HtlcKey_wf key → is_i64 amt → Sets.addHtlc key amt s = Ok s' → typed_set s'.
Proof.
  intros [? ? ? Hk] ? ?. unfold Sets.addHtlc. destruct (Sets.htlcs s !! key); [done|].
  intros [= <-]. split; simpl; try done. by apply map_Forall_insert_2.
Qed.

Lemma typed_decode privKey a sd :
  Stateless.decodeStatelessData privKey a = Good sd →
  array 32 (Stateless.sd_preimage sd) ∧ is_i64 (Stateless.amtMsat sd).
Proof.
  unfold Stateless.decodeStatelessData. rewrite MakePreimage_32 by apply Sha.hmac_length. simpl.
  intros [= <-]; simpl. split; [split; [apply Sha.hmac_length|apply Sha.hmac_bytes]|apply i64_range].
Qed.

Lemma typed_addToSet env htlc mpp sd w s' w' :
  typed_htlc htlc → payload htlc = Some mpp → array 32 (Stateless.sd_preimage sd) →
  is_i64 (Stateless.amtMsat sd) → typed w →
  addToSet cfg env htlc mpp sd (Sets.get (rHash htlc) (sets w)) w = Ok (Some (s', w')) →
  typed_set s' ∧ typed w'.
Proof.
  intros [? ? ? ? Hmpp] Hp Hpre Hamt Hw. destruct (Hmpp _ Hp) as [_ Haddr]. unfold addToSet.
  destruct (Sets.get _ _) as [s|] eqn:Hs.
  - apply get_typed in Hs as [Hh Hts]; [|done].
    destruct (Sets.addHtlc _ _ s) as [s1|] eqn:Ha; simpl; [|done]. intros [= <- <-].
    apply typed_addHtlc in Ha; [|done|done|apply i64_range]. split; [done|].
    apply typed_set_sets; [|done]. apply map_Forall_insert_2; [done|apply ty_sets, Hw].
  - destruct (_ && _); [done|]. unfold Sets.add. simpl.
    destruct (sets w !! _); [done|]. destruct (Sets.addHtlc _ _ _) as [s1|] eqn:Ha; simpl; [|done].
    intros [= <- <-]. apply typed_addHtlc in Ha; [|by split|done|apply i64_range].
    split; [done|]. apply typed_set_sets; [|done].
    apply map_Forall_insert_2; [split; [apply array_PreimageHash|done]|apply ty_sets, Hw].
Qed.

Lemma typed_notifySubscribers hash setID w :
  array 32 hash → array 32 setID → typed w → typed (notifySubscribers hash setID w).
Proof.
  intros ???. apply typed_emit; [|done]. apply Forall_fmap, Forall_true. by intros x.
Qed.

Lemma isComplete_typed s id : Sets.isComplete s = Some id → array 32 id.
Proof. unfold Sets.isComplete. case_bool_decide; [done|]. intros [= <-]. apply array_newSetID. Qed.

Lemma typed_afterAccept env htlc sd s w w' e :
  typed_htlc htlc → typed_set s → typed w →
  afterAccept cfg env htlc sd s w = Ok (w', e) → typed w'.
Proof.
  intros Hh Hs Hw. unfold afterAccept. destruct (Sets.isComplete s) as [id|] eqn:Hc.
  - apply isComplete_typed in Hc.
    set (w1 := notifySubscribers _ _ _). assert (typed w1) as Hw1.
    { apply typed_notifySubscribers; [apply Hh|done|]. apply typed_push; [apply Hh|done]. }
    destruct (AutoSettle cfg); [|by intros [= <- _]].
    pose proof (typed_mark env s w1 Hs Hw1) as Hm.
    destruct (markSettleRequested env s w1) as [w2 [err|]]; simpl in Hm; [by intros [= <- _]|].
    destruct (requestSettle s w2) as [w3|] eqn:Hr; simpl; [|done]. intros [= <- _].
    eapply typed_resolveAll; [|exact Hm|exact Hr]. apply Hs.
  - intros [= <- _]. apply typed_push; [split; apply Hh|done].
Qed.

Lemma typed_processInvoice env htlc mpp sd w w' e :
  typed_htlc htlc → payload htlc = Some mpp → array 32 (Stateless.sd_preimage sd) →
  is_i64 (Stateless.amtMsat sd) → typed w →
  processInvoiceHtlc cfg env htlc mpp sd w = Ok (w', e) → typed w'.
Proof.
  intros Hh Hp Hpre Hamt Hw. unfold processInvoiceHtlc.
  match goal with |- (if ?b then _ else _) = _ → _ => destruct b end.
  { intros [= <- _]. apply typed_hodlSubscribe; [apply Hh..|done]. }
  destruct (checkNewHtlc _ _ _ _ _ _); [intros [= <- _]; by apply typed_resolveHtlc|].
  destruct (addToSet _ _ _ _ _ _ _) as [[[s' w1]|]|] eqn:Ha; simpl; [|intros [= <- _]|done].
  - apply typed_addToSet in Ha as [Hs' Hw1]; [|done..]. apply typed_afterAccept; [done..|].
    apply typed_hodlSubscribe; [apply Hh..|done].
  - by apply typed_resolveHtlc.
Qed.

Lemma typed_resolveViaDb env htlc w : typed_htlc htlc → typed w → typed (resolveViaDb env htlc w).1.
Proof.
  intros Hh Hw. unfold resolveViaDb.
  destruct (Pg.Get _ _ _) as [[inv hs]|err] eqn:HG; [|by case_decide].
  apply Get_Good in HG as (_ & _ & r & Hr & ->).
  apply (td_invoices _ (ty_db w Hw)) in Hr as (_ & ? & _).
  case_bool_decide; [done|]. case_match; by apply typed_resolveHtlc.
Qed.

Lemma typed_process env htlc w w' e :
  typed_htlc htlc → typed w → process cfg env htlc w = Ok (w', e) → typed w'.
Proof.
  intros Hh Hw. unfold process. pose proof (typed_resolveViaDb env htlc w Hh Hw) as Hv.
  destruct (resolveViaDb env htlc w) as [w1 [[|]|err]]; simpl in Hv; [by intros [= <- _]| |by intros [= <- _]].
  destruct (payload htlc) as [mpp|] eqn:Hp; [|intros [= <- _]; by apply typed_resolveHtlc].
  case_decide; [intros [= <- _]; by apply typed_resolveHtlc|].
  destruct (Stateless.decodeStatelessData _ _) as [sd|err] eqn:Hd; [|by intros [= <- _]].
  apply typed_decode in Hd as [Hpre Hamt].
  case_decide; [intros [= <- _]; by apply typed_resolveHtlc|].
  case_decide; [intros [= <- _]; by apply typed_resolveHtlc|].
  by apply typed_processInvoice.
Qed.

Lemma typed_getAcceptedSet env hash setID w s :
  typed w → getAcceptedSet env hash setID w = Good (Good s) → typed_set s.
Proof.
  intros Hw. unfold getAcceptedSet. destruct (Sets.get _ _) as [s1|] eqn:Hs.
  - apply get_typed in Hs as [_ Hs]; [|done].
    destruct (Sets.isComplete s1); [|done]. case_decide; [done|]. by intros [= <-].
  - destruct (Pg.Get _ _ _) as [[]|]; case_decide; done.
Qed.

Lemma typed_cancel env hash setID w w' r :
  typed w → handleCancelRequest env hash setID w = Ok (w', r) → typed w'.
Proof.
  intros Hw. unfold handleCancelRequest.
  destruct (getAcceptedSet _ _ _ _) as [[s|e]|e]; [|by intros [= <- _]..].
  destruct (resolveAll _ _ _) as [w1|] eqn:Hr; simpl; [|done]. intros [= <- _].
  by eapply typed_resolveAll; [| |exact Hr].
Qed.

Lemma typed_settle env hash setID w w' r :
  typed w → handleSettleRequest cfg env hash setID w = Ok (w', r) → typed w'.
Proof.
  intros Hw. unfold handleSettleRequest.
  destruct (getAcceptedSet _ _ _ _) as [[s|e]|e] eqn:Hg; [|case_decide; by intros [= <- _]|by intros [= <- _]].
  apply typed_getAcceptedSet in Hg as Hs; [|done].
  destruct (AutoSettle cfg); [by intros [= <- _]|].
  pose proof (typed_mark env s w Hs Hw) as Hm.
  destruct (markSettleRequested env s w) as [w2 [err|]]; simpl in Hm; [by intros [= <- _]|].
  destruct (requestSettle s w2) as [w3|] eqn:Hr; simpl; [|done]. intros [= <- _].
  eapply typed_resolveAll; [|exact Hm|exact Hr]. apply Hs.
Qed.

Lemma typed_addAcceptSubscriber id cb w :
  is_i64 id → typed w → typed (addAcceptSubscriber id cb w).
Proof.
  intros Hid Hw. unfold addAcceptSubscriber, Sets.forEach.
  assert (Forall typed_set (map_vals (sets w))) as Hss.
  { apply Forall_forall. intros s [k Hk]%elem_of_map_vals. exact (proj2 (ty_sets w Hw _ _ Hk)). }
  assert (typed (set_subs (addAcceptSubscription id cb (subs w)) w)) as Hw1.
  { destruct Hw. split; simpl; try done. by apply map_Forall_insert_2. }
  revert Hw1. generalize (set_subs (addAcceptSubscription id cb (subs w)) w).
  induction Hss as [|s ss Hs _ IH]; intros w1 Hw1; simpl; [done|]. apply IH.
  destruct (Sets.isComplete s) as [sid|] eqn:Hc; [|done]. apply isComplete_typed in Hc.
  apply typed_emit; [|done]. repeat constructor; [apply array_PreimageHash..|apply Hc|apply Hc].
Qed.

Lemma typed_iteration ev w w' st :
  typed_event ev → typed w → iteration cfg ev w = Ok (w', st) → typed w'.
Proof.
  intros Hev Hw. destruct ev as [env|env htlc|id cb|env id|env h id|env h id| |fault now key settled]; simpl.
  - unfold releaseDue. destruct (pq_Pop _) as [[e q']|] eqn:Hp; [|by intros [= <- _]].
    apply typed_pop in Hp as [He Hq]; [|done].
    destruct (getReleaseTime e <=? _); [|by intros [= <- _]]. destruct e.
    + destruct (cancelSingleHtlc _ _ _ _) eqn:Hc; simpl; [|done]. intros [= <- _].
      by eapply typed_cancelSingle.
    + destruct (failInvoice _ _) eqn:Hc; simpl; [|done]. intros [= <- _]. by eapply typed_failInvoice.
  - destruct (process _ _ _ _) as [[w1 e]|] eqn:Hp; simpl; [|done]. intros [= <- _].
    by eapply typed_process.
  - intros [= <- _]. by apply typed_addAcceptSubscriber.
  - intros [= <- _]. destruct Hw. split; simpl; try done. unfold deleteAcceptSubscription.
    case_match; [|done]. by apply map_Forall_delete.
  - destruct (handleSettleRequest _ _ _ _ _) as [[w1 r]|] eqn:Hp; simpl; [|done].
    apply typed_settle in Hp; [|done]. destruct r; by intros [= <- _].
  - destruct (handleCancelRequest _ _ _ _) as [[w1 r]|] eqn:Hp; simpl; [|done].
    apply typed_cancel in Hp; [|done]. destruct r; by intros [= <- _].
  - by intros [= <- _].
  - intros [= <- _]. apply typed_set_cdb; [|done]. apply typed_MarkHtlcFinal, Hw.
Qed.

Lemma typed_new db es : typed_db db → Forall typed_effect es → typed (emit es (NewRegistry cfg db)).
Proof.
  intros ? ?. apply typed_emit; [done|]. split; simpl; [done| | | | |constructor];
    try apply map_Forall_empty. rewrite pq_new_items. constructor.
Qed.

Lemma typed_sys_step sev w : typed_sys_event sev → typed w → typed (sys_step cfg w sev).
Proof.
  intros Hev Hw. destruct sev as [ev|c n ev]; simpl in *;
    destruct (iteration cfg ev w) as [[w' st]|] eqn:Hit;
    try (apply typed_new; apply Hw).
  - apply typed_iteration in Hit; [|done..]. destruct st; [done|]. apply typed_new; apply Hit.
  - apply typed_iteration in Hit; [|done..]. unfold killed.
    assert (Forall typed_effect (take n (drop (length (effects w)) (effects w')))) as Hn.
    { apply Forall_take, Forall_drop, Hit. }
    destruct c; (apply typed_new; [first [apply Hit|apply Hw]|]); apply Forall_app; (split; [apply Hw|]); [done|].
    apply Forall_forall. intros e [_ He]%list_elem_of_filter. by apply (proj1 (Forall_forall _ _) Hn).
Qed.

End Typing.
End Owned.

(** More resolvers may be known than are used. *)
Lemma typed_mono {Q} `{PriorityQueue Q} (owns owns' : HtlcKey → nat → Prop) (w : InvoiceRegistry Q) :
  (∀ k r, owns k r → owns' k r) → typed owns w → typed owns' w.
Proof.
  intros Hle []. split; try done.
  - eapply map_Forall_impl; [done|]. intros k l [? Hl]. split; [done|].
    eapply Forall_impl; [exact Hl|]. apply Hle.
  - eapply Forall_impl; [done|]. intros [k r res|cb h i]; simpl; [|done]. naive_solver.
Qed.

Module Witness.
Import RealLntypes ListQueue RegExample.

Lemma array_dec_intro n b :
  bool_decide (length b = n ∧ Forall is_byte b) = true → array n b.
Proof. apply bool_decide_eq_true. Qed.

Lemma htlc_typed (owns : HtlcKey → nat → Prop) n amt r :
  is_u64 n → is_u64 amt → owns (key n) r → typed_htlc owns (htlc n amt r).
Proof.
  intros Hn Ha Hr. split; simpl; [by apply array_dec_intro|done| |done|].
  - split; [done|]. split; [by apply (array_dec_intro 33)|]. split; [|done]. unfold is_u64; simpl; lia.
  - intros mpp [= <-]. split; [unfold is_u64; simpl; lia|]. by apply array_dec_intro.
Qed.

End Witness.
End RegTyping.
