(* ===== verification/RegistryAnnounce.v ===== *)
(** Announcements of the invoice registry: whoever is subscribed learns of every
    set that is complete. [announces w w'] says what the calls made between two
    states cover; it is a preorder, every operation of the registry satisfies
    it, and so does an iteration of the event loop. *)

From stdpp Require Import numbers strings base fin_maps gmap list.
From stdpp Require Import options.
From S2P Require Import Prelude Sha256 Types SetIds HtlcSets StatelessData Persistence PersistenceFacts Registry RegistryFacts.

Set Default Proof Using "Type*".

Module RegAnnounce.
Import Subs Registry PgFacts RegFacts.

Section Announce.
Context {Q : Type} `{PriorityQueue Q} `{!PriorityQueueLaws Q} `{Lntypes}.
Implicit Types (w : InvoiceRegistry Q).

(** The set with id [id] is complete under the hash [h]. *)
Definition complete w (h : Hash) (id : SetID) : Prop :=
  ∃ s, sets w !! h = Some s ∧ Sets.isComplete s = Some id.

Definition subscribed w (i : Z) (cb : nat) : Prop :=
  acceptSubscriptions (subs w) !! i = Some cb.

(** The calls of accept subscribers among [es] go to subscribers of [w]. *)
Definition only_subscribers w (es : list effect) : Prop :=
  ∀ cb h id, Notified cb h id ∈ es → ∃ i, subscribed w i cb.

(** Between [w] and [w'] the subscribers are the same, the calls [new] are added,
    and a set that is complete in [w'] was complete in [w] already or all
    subscribers have been called with it. *)
Record announcing w w' (new : list effect) : Prop := {
  an_subs : subs w' = subs w;
  an_effects : effects w' = effects w ++ new;
  an_sets h id : complete w' h id →
    complete w h id ∨ ∀ i cb, subscribed w i cb → Notified cb h id ∈ new;
  an_only : only_subscribers w new
}.

Definition announces w w' : Prop := ∃ new, announcing w w' new.

#[export] Instance announces_preorder : PreOrder announces.
Proof.
  split.
  - intros w. exists []. split; [done|by rewrite app_nil_r|by left|].
    intros ??? []%elem_of_nil.
  - intros w1 w2 w3 [n1 [S1 E1 C1 O1]] [n2 [S2 E2 C2 O2]]. exists (n1 ++ n2).
    unfold only_subscribers, subscribed in *. rewrite S1 in *. split.
    + by rewrite S2.
    + by rewrite E2, E1, <- app_assoc.
    + intros h id Hc. setoid_rewrite elem_of_app.
      destruct (C2 _ _ Hc) as [[|]%C1|]; [auto|right|right]; intros i cb Hs; eauto.
    + intros cb h id [|]%elem_of_app; eauto.
Qed.

(** A step that calls no subscriber and completes no set. *)
Lemma announces_ext w w' new :
  subs w' = subs w → effects w' = effects w ++ new → Forall (λ e, ¬ is_notification e) new →
  (∀ h id, complete w' h id → complete w h id) → announces w w'.
Proof.
  intros Es He Hn Hc. exists new. split; [done..|auto|].
  intros cb h id Hin. by destruct (proj1 (Forall_forall _ _) Hn _ Hin).
Qed.

(** Neither calls nor sets. *)
Lemma announces_same w w' :
  subs w' = subs w → effects w' = effects w →
  (∀ h id, complete w' h id → complete w h id) → announces w w'.
Proof. intros. apply (announces_ext _ _ []); [done|by rewrite app_nil_r|constructor|done]. Qed.

Lemma resolutions_quiet m keys res : Forall (λ e, ¬ is_notification e) (resolutions m keys res).
Proof. apply Forall_forall. intros e (k & r & l & -> & _)%elem_of_resolutions. by intros []. Qed.

Lemma complete_same w w' h id : sets w' = sets w → complete w' h id → complete w h id.
Proof. unfold complete. by intros ->. Qed.

(** Removing sets completes none. *)
Lemma complete_delete w w' h0 h id :
  sets w' = delete h0 (sets w) → complete w' h id → complete w h id.
Proof. intros E (s & Hs & Hid). rewrite E, lookup_delete_Some in Hs. exists s. tauto. Qed.

Lemma announces_notify k res w : announces w (notifyHodlSubscribers k res w).
Proof.
  destruct (notify_fields k res w) as (_ & Es & _ & Esub & _ & Ee).
  eapply announces_ext; [done|exact Ee|apply resolutions_quiet|]. intros h id. by apply complete_same.
Qed.

Lemma announces_notify_all keys res w : announces w (notify_all keys res w).
Proof.
  revert w. induction keys as [|k keys IH]; intros w; [done|].
  transitivity (notifyHodlSubscribers k res w); [apply announces_notify|apply IH].
Qed.

Lemma announces_resolveAll set res w w' : resolveAll set res w = Ok w' → announces w w'.
Proof.
  unfold resolveAll, Sets.deleteAll, Sets.delete_set.
  destruct (sets w !! Sets.hash set) as [x|]; simpl; [|done]. intros [= <-].
  fold (notify_all (map_keys (Sets.htlcs set)) res w).
  transitivity (notify_all (map_keys (Sets.htlcs set)) res w); [apply announces_notify_all|].
  destruct (notify_all_fields (map_keys (Sets.htlcs set)) res w) as (_ & Es & _).
  apply announces_same; [done..|].
  intros h id. apply complete_delete with (h0 := Sets.hash set). simpl. by rewrite Es.
Qed.

Lemma announces_mark env set w : announces w (markSettleRequested env set w).1.
Proof.
  unfold markSettleRequested. destruct (Pg.RequestSettle _ _ _ _ _) as [db' err].
  by apply announces_same.
Qed.

(** All subscribers are called, and nobody else. *)
Lemma elem_of_notifications hash id w cb :
  Notified cb hash id ∈ ((λ cb, Notified cb hash id) <$> map_vals (acceptSubscriptions (subs w))) ↔
  ∃ i, subscribed w i cb.
Proof.
  rewrite list_elem_of_fmap. setoid_rewrite elem_of_map_vals. unfold subscribed. naive_solver.
Qed.

(** A new subscriber is called with every complete set. *)
Lemma forEach_notifies cb (ss : list Sets.htlcSetImpl) w :
  ∃ new, foldl (λ w set, match Sets.isComplete set with
                         | None => w
                         | Some setID => emit [Notified cb (Sets.hash set) setID] w
                         end) w ss = emit new w ∧
    (∀ s id, s ∈ ss → Sets.isComplete s = Some id → Notified cb (Sets.hash s) id ∈ new) ∧
    ∀ cb' h id, Notified cb' h id ∈ new → cb' = cb.
Proof.
  revert w. induction ss as [|s ss IH]; intros w; simpl.
  - exists []. split; [destruct w; unfold emit; simpl; by rewrite app_nil_r|].
    split; by intros ??? []%elem_of_nil || intros ?? []%elem_of_nil.
  - destruct (Sets.isComplete s) as [sid|] eqn:Hs.
    + destruct (IH (emit [Notified cb (Sets.hash s) sid] w)) as (new & -> & Hnew & Honly).
      exists (Notified cb (Sets.hash s) sid :: new).
      split_and!; [unfold emit; simpl; by rewrite <- app_assoc| |].
      * intros s' id [->|Hin]%elem_of_cons Hid; [simplify_eq; by left|right; by apply Hnew].
      * intros cb' h id [[= -> _ _]|]%elem_of_cons; eauto.
    + destruct (IH w) as (new & -> & Hnew & Honly). exists new. split_and!; [done| |done].
      intros s' id [->|Hin]%elem_of_cons Hid; [congruence|by apply Hnew].
Qed.

Context (cfg : RegistryConfig) (key_hash : HtlcKey → Hash) (inv_amount : Hash → Z).

(** The sets in memory are well formed; part of [core]. *)
Definition sets_ok w : Prop := map_Forall (set_ok key_hash inv_amount) (sets w).

Lemma core_sets_ok w : core key_hash inv_amount w → sets_ok w.
Proof. intros Hc h s. apply (co_set _ _ _ Hc). Qed.

(** A new subscriber is called with all complete sets; nobody else is called. *)
Lemma addAcceptSubscriber_announces i cb w :
  sets_ok w → ∃ new,
    addAcceptSubscriber i cb w = emit new (set_subs (addAcceptSubscription i cb (subs w)) w) ∧
    (∀ h id, complete w h id → Notified cb h id ∈ new) ∧
    ∀ cb' h id, Notified cb' h id ∈ new → cb' = cb.
Proof.
  intros Hc. unfold addAcceptSubscriber, Sets.forEach.
  destruct (forEach_notifies cb (map_vals (sets w)) (set_subs (addAcceptSubscription i cb (subs w)) w))
    as (new & -> & Hnew & Honly).
  exists new. split_and!; [done| |done]. intros h id (s & Hs & Hid).
  rewrite <- (so_hash _ _ _ _ (Hc _ _ Hs)). apply Hnew; [|done]. apply elem_of_map_vals. eauto.
Qed.

(** An htlc leaves a set that stays incomplete. *)
Lemma announces_cancelSingle hash k result w w' :
  sets_ok w → cancelSingleHtlc hash k result w = Ok w' → announces w w'.
Proof.
  intros Hc. unfold cancelSingleHtlc, Sets.get. destruct (sets w !! hash) as [s|] eqn:Hs;
    [|by intros [= <-]].
  destruct (Sets.isComplete s) eqn:Hinc; [by intros [= <-]|].
  destruct (Sets.deleteHtlc k hash s (sets w)) as [s'|] eqn:Hdel; simpl; [|done]. intros [= <-].
  etrans; [|apply announces_notify].
  apply announces_same; [done..|].
  pose proof (Hc _ _ Hs) as Hok.
  destruct (Sets.htlcs s !! k) as [a|] eqn:Hk; [|unfold Sets.deleteHtlc in Hdel; by rewrite Hk in Hdel].
  destruct (deleteHtlc_result _ _ _ _ _ _ _ _ Hok Hk Hdel) as [[_ ->]|[Hne ->]]; intros h id.
  { by apply complete_delete with (h0 := hash). }
  intros (x & Hx & Hid). simpl in Hx. apply lookup_insert_Some in Hx as [[<- <-]|[_ Hx]]; [|by exists x].
  exfalso. pose proof (set_ok_delete _ _ _ _ _ _ Hok Hk Hne) as Hok'.
  assert (Hn : Sets.isComplete (Sets.MkSet (Sets.params s) (delete k (Sets.htlcs s))) = None).
  { apply (complete_iff _ _ _ _ Hok'). apply (complete_iff _ _ _ _ Hok) in Hinc.
    rewrite (Sets.exact_total_delete s k a) by done.
    pose proof (so_keys _ _ _ _ Hok _ _ Hk) as [_ ?]. lia. }
  congruence.
Qed.

Lemma announces_failInvoice hash w w' : failInvoice hash w = Ok w' → announces w w'.
Proof.
  unfold failInvoice. destruct (Sets.get _ _); [apply announces_resolveAll|by intros [= <-]].
Qed.

(** A set that an accepted htlc completes is announced. *)
Lemma announces_afterAccept env htlc sd set' r w w' e :
  afterAccept cfg env htlc sd set'
    (hodlSubscribe r (circuitKey htlc) (set_sets (<[rHash htlc := set']> (sets w)) w)) = Ok (w', e) →
  announces w w'.
Proof.
  unfold afterAccept. destruct (Sets.isComplete set') as [id|] eqn:Hcomp.
  - set (w3 := notifySubscribers _ _ _).
    assert (H3 : announces w w3).
    { eexists. split; [done|done| |].
      - intros h id' (s & Hs & Hid). simpl in Hs.
        apply lookup_insert_Some in Hs as [[<- <-]|[_ Hs]]; [|left; by exists s].
        right. intros i cb Hsub. assert (id' = id) as -> by congruence. simpl.
        apply (elem_of_notifications (rHash htlc) id w). eauto.
      - intros cb h id' Hin. pose proof Hin as (cb' & [= -> -> ->] & _)%list_elem_of_fmap.
        by apply (elem_of_notifications (rHash htlc) id w). }
    destruct (AutoSettle cfg); [|by intros [= <- _]].
    pose proof (announces_mark env set' w3) as Hm.
    destruct (markSettleRequested env set' w3) as [w4 [err|]]; simpl in Hm;
      [intros [= <- _]; by etrans|].
    unfold requestSettle. destruct (resolveAll _ _ w4) as [w5|] eqn:Hr; simpl; [|done].
    intros [= <- _]. apply announces_resolveAll in Hr. by do 2 (etrans; [done|]).
  - intros [= <- _]. apply announces_same; [done..|].
    intros h id (s & Hs & Hid). simpl in Hs.
    apply lookup_insert_Some in Hs as [[<- <-]|[_ Hs]]; [congruence|by exists s].
Qed.

Lemma announces_resolveHtlc htlc res w : announces w (resolveHtlc htlc res w).
Proof. eapply announces_ext; [done|done| |done]. constructor; [by intros []|constructor]. Qed.

Lemma announces_resolveViaDb env htlc w : announces w (resolveViaDb env htlc w).1.
Proof.
  unfold resolveViaDb. destruct (Pg.Get _ _ _) as [[inv hs]|err].
  - case_bool_decide; [done|]. destruct (hs !! _); apply announces_resolveHtlc.
  - by case_decide.
Qed.

Lemma addToSet_sets env htlc mpp sd w set' w1 :
  PreimageHash (Stateless.sd_preimage sd) = rHash htlc →
  addToSet cfg env htlc mpp sd (sets w !! rHash htlc) w = Ok (Some (set', w1)) →
  w1 = set_sets (<[rHash htlc := set']> (sets w)) w.
Proof.
  intros Hh. unfold addToSet. destruct (sets w !! rHash htlc) as [s|].
  - destruct (Sets.addHtlc _ _ _); simpl; [|done]. by intros [= <- <-].
  - case_match; [done|]. unfold Sets.add; simpl. rewrite Hh. case_match; [done|].
    destruct (Sets.addHtlc _ _ _); simpl; [|done]. by intros [= <- <-].
Qed.

Lemma announces_process env htlc w w' e : process cfg env htlc w = Ok (w', e) → announces w w'.
Proof.
  unfold process. pose proof (announces_resolveViaDb env htlc w) as Hrv.
  destruct (resolveViaDb env htlc w) as [w1 [[|]|err]]; simpl in Hrv;
    [by intros [= <- _]| |by intros [= <- _]].
  intros Hp. transitivity w1; [done|]. revert Hp. clear Hrv. clear w.
  assert (Hf : ∀ result, Ok (resolveHtlc htlc (NewFailResolution result) w1, @None Error) = Ok (w', e) →
    announces w1 w') by (intros ? [= <- _]; apply announces_resolveHtlc).
  destruct (payload htlc) as [mpp|]; [|apply Hf]. case_decide; [apply Hf|].
  destruct (Stateless.decodeStatelessData _ _) as [sd|]; [|by intros [= <- _]].
  destruct (decide (PreimageHash _ ≠ _)) as [|Hh%dec_stable]; [apply Hf|]. case_decide; [apply Hf|].
  unfold processInvoiceHtlc, Sets.get.
  destruct (match sets w1 !! rHash htlc with Some s => Sets.accepted s (circuitKey htlc) | None => false end).
  { intros [= <- _]. by apply announces_same. }
  destruct (checkNewHtlc _ _ _ _ _ _); [apply Hf|].
  destruct (addToSet _ _ _ _ _ _ _) as [[[set' w2]|]|] eqn:Hadd; simpl; [|apply Hf|done].
  apply addToSet_sets in Hadd as ->; [|done]. apply announces_afterAccept.
Qed.

Lemma announces_requests env hash id w w' r :
  handleCancelRequest env hash id w = Ok (w', r) ∨ handleSettleRequest cfg env hash id w = Ok (w', r) →
  announces w w'.
Proof.
  unfold handleCancelRequest, handleSettleRequest.
  destruct (getAcceptedSet env hash id w) as [[s|e]|e].
  - intros [Hx|Hx].
    + destruct (resolveAll _ _ _) eqn:Hr; simplify_eq/=. by apply announces_resolveAll in Hr.
    + destruct (AutoSettle cfg); [by simplify_eq|]. pose proof (announces_mark env s w) as Hm.
      destruct (markSettleRequested env s w) as [w1 [err|]]; simplify_eq/=; [done|].
      destruct (requestSettle s w1) eqn:Hr; simplify_eq/=. apply announces_resolveAll in Hr. by etrans.
  - case_decide; intros [[= <- _]|[= <- _]]; done.
  - by intros [[= <- _]|[= <- _]].
Qed.

Lemma announces_iteration ev w w' st :
  (∀ i cb, ev ≠ EvSubscribe i cb) → (∀ env i, ev ≠ EvUnsubscribe env i) →
  sets_ok w → iteration cfg ev w = Ok (w', st) → announces w w'.
Proof.
  intros Hns Hnu Hc. destruct ev as [env|env htlc|id cb|env id|env h id|env h id| |fault now key settled]; simpl.
  - destruct (releaseDue _ w) as [[e q']|] eqn:Hd; [|by intros [= <- _]].
    assert (H1 : announces w (set_heap q' w))
      by (by apply announces_same).
    destruct e as [h t k|h t].
    + destruct (cancelSingleHtlc _ _ _ _) as [w1|] eqn:Hx; simpl; [|done]. intros [= <- _].
      etrans; [exact H1|]. by eapply announces_cancelSingle; [|exact Hx].
    + destruct (failInvoice _ _) as [w1|] eqn:Hx; simpl; [|done]. intros [= <- _].
      etrans; [exact H1|]. by apply announces_failInvoice in Hx.
  - destruct (process _ _ _ _) as [[w1 e]|] eqn:Hx; simpl; [|done]. intros [= <- _].
    by eapply announces_process.
  - by destruct (Hns id cb).
  - by destruct (Hnu env id).
  - destruct (handleSettleRequest _ _ _ _ _) as [[w1 r]|] eqn:Hx; simpl; [|done].
    unfold reply. destruct r; intros [= <- _]; eapply announces_requests; eauto.
  - destruct (handleCancelRequest _ _ _ _) as [[w1 r]|] eqn:Hx; simpl; [|done].
    unfold reply. destruct r; intros [= <- _]; eapply announces_requests; eauto.
  - by intros [= <- _].
  - intros [= <- _]. by apply announces_same.
Qed.

End Announce.
End RegAnnounce.
