(* ===== verification/RegistryResolvers.v ===== *)
(** Resolvers are conserved: the callback of an htlc that is handed to the
    registry is kept until it is called, and it is called once. [accounts] is
    the balance of one operation: what waits afterwards and what was called is,
    as a multiset, what waited before and what was handed in. *)

From stdpp Require Import numbers strings base fin_maps gmap list.
From stdpp Require Import options.
From S2P Require Import Prelude Sha256 Types SetIds HtlcSets StatelessData Persistence PersistenceFacts Registry RegistryFacts.

Set Default Proof Using "Type*".

Module RegResolvers.
Import Subs Registry PgFacts RegFacts.

(** The resolvers a map of subscriptions holds. *)
Definition held_in (m : gmap HtlcKey (list nat)) : list (HtlcKey * nat) :=
  map_to_list m ≫= λ '(k, l), (λ r, (k, r)) <$> l.

Lemma held_in_delete m k l :
  m !! k = Some l → held_in m ≡ₚ ((λ r, (k, r)) <$> l) ++ held_in (delete k m).
Proof. intros Hk. unfold held_in. by rewrite <- (map_to_list_delete m k l Hk). Qed.

Lemma held_in_insert m k l :
  m !! k = None → held_in (<[k := l]> m) ≡ₚ ((λ r, (k, r)) <$> l) ++ held_in m.
Proof. intros Hk. unfold held_in. by rewrite map_to_list_insert by done. Qed.

(** Another resolver for the htlc [k]. *)
Lemma held_in_append m k r :
  held_in (<[k := default [] (m !! k) ++ [r]]> m) ≡ₚ (k, r) :: held_in m.
Proof.
  destruct (m !! k) as [l|] eqn:Hk; simpl.
  - rewrite <- insert_delete_eq, held_in_insert by apply lookup_delete_eq.
    rewrite (held_in_delete m k l) by done. rewrite fmap_app. simpl.
    rewrite <- app_assoc. symmetry. apply Permutation_middle.
  - by rewrite held_in_insert.
Qed.

Lemma elem_of_held_in m k r : (k, r) ∈ held_in m ↔ ∃ l, m !! k = Some l ∧ r ∈ l.
Proof.
  unfold held_in. rewrite list_elem_of_bind. split.
  - intros ([k' l] & Hin & Hm%elem_of_map_to_list). apply list_elem_of_fmap in Hin as (r' & [= -> ->] & Hr).
    eauto.
  - intros (l & Hm & Hr). exists (k, l). split; [|by apply elem_of_map_to_list].
    apply list_elem_of_fmap. eauto.
Qed.

(** The resolvers that have been called. *)
Definition call (e : effect) : option (HtlcKey * nat) :=
  match e with Resolved k r _ => Some (k, r) | Notified _ _ _ => None end.
Definition called (es : list effect) : list (HtlcKey * nat) := omap call es.

Lemma called_app es es' : called (es ++ es') = called es ++ called es'.
Proof. apply omap_app. Qed.

Lemma called_notifications es : Forall is_notification es → called es = [].
Proof. induction 1 as [|[] es]; [done|done|]. simpl. by unfold called in *. Qed.

Lemma called_resolutions m keys res :
  called (resolutions m keys res) = keys ≫= λ k, (λ r, (k, r)) <$> default [] (m !! k).
Proof.
  unfold resolutions. induction keys as [|k keys IH]; [done|].
  rewrite !bind_cons, called_app, IH. f_equal.
  generalize (default [] (m !! k)) as l. induction l as [|r l IHl]; [done|].
  rewrite !fmap_cons, <- IHl. done.
Qed.

Section Accounts.
Context {Q : Type} `{PriorityQueue Q} `{!PriorityQueueLaws Q} `{Lntypes}.
Implicit Types (w : InvoiceRegistry Q).

Definition waiting w : list (HtlcKey * nat) := held_in (hodlSubscriptions w).

Definition accounts (handed : list (HtlcKey * nat)) w w' : Prop :=
  ∃ new, effects w' = effects w ++ new ∧ waiting w' ++ called new ≡ₚ handed ++ waiting w.

Lemma accounts_trans a b w w1 w2 : accounts a w w1 → accounts b w1 w2 → accounts (a ++ b) w w2.
Proof.
  intros (n1 & E1 & P1) (n2 & E2 & P2). exists (n1 ++ n2). split; [by rewrite E2, E1, <- app_assoc|].
  rewrite called_app. rewrite (Permutation_app_comm (called n1)), app_assoc, P2.
  rewrite <- app_assoc, P1, app_assoc. by rewrite (Permutation_app_comm b a).
Qed.

(** A step that leaves the subscriptions alone and calls no resolver. *)
Lemma accounts_same w w' new :
  hodlSubscriptions w' = hodlSubscriptions w → effects w' = effects w ++ new →
  Forall is_notification new → accounts [] w w'.
Proof.
  intros Eh Ee Hn. exists new. split; [done|]. unfold waiting. rewrite Eh.
  by rewrite called_notifications, app_nil_r.
Qed.

Lemma accounts_quiet w w' :
  hodlSubscriptions w' = hodlSubscriptions w → effects w' = effects w → accounts [] w w'.
Proof. intros. apply (accounts_same _ _ []); [done|by rewrite app_nil_r|constructor]. Qed.

Lemma accounts_refl w : accounts [] w w.
Proof. by apply accounts_quiet. Qed.

(** First a step to which nothing is handed. *)
Lemma accounts_seq h w w1 w2 : accounts [] w w1 → accounts h w1 w2 → accounts h w w2.
Proof. apply (accounts_trans [] h). Qed.

Lemma accounts_notify k res w : accounts [] w (notifyHodlSubscribers k res w).
Proof.
  destruct (notify_fields k res w) as (_ & _ & _ & _ & Eh & Ee). eexists. split; [exact Ee|].
  unfold waiting. rewrite Eh, called_resolutions. simpl. rewrite app_nil_r.
  destruct (hodlSubscriptions w !! k) as [l|] eqn:Hk; simpl.
  - rewrite (held_in_delete _ _ _ Hk). apply Permutation_app_comm.
  - by rewrite delete_id, app_nil_r.
Qed.

Lemma accounts_notify_all keys res w : accounts [] w (notify_all keys res w).
Proof.
  revert w. induction keys as [|k keys IH]; intros w; [apply accounts_refl|].
  by apply (accounts_seq _ _ _ _ (accounts_notify k res w)).
Qed.

Lemma accounts_resolveAll set res w w' : resolveAll set res w = Ok w' → accounts [] w w'.
Proof.
  unfold resolveAll, Sets.deleteAll. destruct (Sets.delete_set _ _) as [s'|]; simpl; [|done].
  intros [= <-]. fold (notify_all (map_keys (Sets.htlcs set)) res w).
  eapply accounts_seq; [apply accounts_notify_all|]. by apply accounts_quiet.
Qed.

Lemma accounts_hodlSubscribe r k w : accounts [(k, r)] w (hodlSubscribe r k w).
Proof.
  exists []. split; [by rewrite app_nil_r|]. unfold waiting. simpl.
  by rewrite held_in_append, app_nil_r.
Qed.

Lemma accounts_resolveHtlc htlc res w :
  accounts [(circuitKey htlc, resolve htlc)] w (resolveHtlc htlc res w).
Proof. eexists. split; [done|]. apply Permutation_app_comm. Qed.

Lemma accounts_mark env set w : accounts [] w (markSettleRequested env set w).1.
Proof.
  unfold markSettleRequested. destruct (Pg.RequestSettle _ _ _ _ _) as [db' err].
  by apply accounts_quiet.
Qed.

Lemma accounts_cancelSingle hash k result w w' :
  cancelSingleHtlc hash k result w = Ok w' → accounts [] w w'.
Proof.
  unfold cancelSingleHtlc. destruct (Sets.get _ _) as [s|]; [|by intros [= <-]; apply accounts_refl].
  destruct (Sets.isComplete s); [by intros [= <-]; apply accounts_refl|].
  destruct (Sets.deleteHtlc _ _ _ _) as [s'|]; simpl; [|done]. intros [= <-].
  eapply accounts_seq; [|apply accounts_notify]. by apply accounts_quiet.
Qed.

Lemma accounts_failInvoice hash w w' : failInvoice hash w = Ok w' → accounts [] w w'.
Proof.
  unfold failInvoice. destruct (Sets.get _ _); [apply accounts_resolveAll|].
  intros [= <-]. apply accounts_refl.
Qed.

Context (cfg : RegistryConfig).

Lemma accounts_afterAccept env htlc sd set w w' e :
  afterAccept cfg env htlc sd set w = Ok (w', e) → accounts [] w w'.
Proof.
  unfold afterAccept. destruct (Sets.isComplete set) as [id|].
  2:{ intros [= <- _]. by apply accounts_quiet. }
  set (w1 := notifySubscribers _ _ _).
  assert (H1 : accounts [] w w1).
  { eapply accounts_same; [done|done|]. apply Forall_forall. by intros e2 (cb & -> & _)%list_elem_of_fmap. }
  destruct (AutoSettle cfg); [|by intros [= <- _]].
  pose proof (accounts_mark env set w1) as Hm.
  destruct (markSettleRequested env set w1) as [w2 [err|]]; simpl in Hm.
  - intros [= <- _]. by apply (accounts_seq _ w w1).
  - unfold requestSettle. destruct (resolveAll _ _ w2) as [w3|] eqn:Hr; simpl; [|done]. intros [= <- _].
    apply accounts_resolveAll in Hr. apply (accounts_seq _ w w1); [done|]. by apply (accounts_seq _ w1 w2).
Qed.

Lemma addToSet_quiet env htlc mpp sd o w set' w1 :
  addToSet cfg env htlc mpp sd o w = Ok (Some (set', w1)) → accounts [] w w1.
Proof.
  unfold addToSet. destruct o as [s|].
  - destruct (Sets.addHtlc _ _ _); simpl; [|done]. intros [= <- <-]. by apply accounts_quiet.
  - case_match; [done|]. destruct (Sets.add _ _ _ _) as [[]|]; simpl; [|done].
    intros [= <- <-]. by apply accounts_quiet.
Qed.

(** An htlc is accounted for, unless [process] reports an error and does
    nothing. *)
Lemma accounts_process env htlc w w' e :
  process cfg env htlc w = Ok (w', e) →
  accounts [(circuitKey htlc, resolve htlc)] w w' ∨ (w' = w ∧ is_Some e).
Proof.
  unfold process.
  destruct (resolveViaDb env htlc w) as [w1 b] eqn:Hrv.
  assert (Hb : match b with
    | Good true => accounts [(circuitKey htlc, resolve htlc)] w w1 | _ => w1 = w end).
  { revert Hrv. unfold resolveViaDb. destruct (Pg.Get _ _ _) as [[inv hs]|err].
    - case_bool_decide; [by intros [= <- <-]|].
      destruct (hs !! _); intros [= <- <-]; apply accounts_resolveHtlc.
    - case_decide; by intros [= <- <-]. }
  clear Hrv. destruct b as [[|]|err]; [by intros [= <- _]; left|subst w1|intros [= <- <-]; subst; right; eauto].
  assert (Hf : ∀ result, Ok (resolveHtlc htlc (NewFailResolution result) w, @None Error) = Ok (w', e) →
    accounts [(circuitKey htlc, resolve htlc)] w w' ∨ (w' = w ∧ is_Some e))
    by (intros ? [= <- _]; left; apply accounts_resolveHtlc).
  destruct (payload htlc) as [mpp|]; [|apply Hf]. case_decide; [apply Hf|].
  destruct (Stateless.decodeStatelessData _ _) as [sd|]; [|intros [= <- <-]; eauto].
  case_decide; [apply Hf|]. case_decide; [apply Hf|]. unfold processInvoiceHtlc.
  case_match; [intros [= <- _]; left; apply accounts_hodlSubscribe|].
  destruct (checkNewHtlc _ _ _ _ _ _); [apply Hf|].
  destruct (addToSet _ _ _ _ _ _ _) as [[[set' w2]|]|] eqn:Hadd; simpl; [|apply Hf|done].
  intros Haa%accounts_afterAccept. left. apply addToSet_quiet in Hadd.
  apply (accounts_seq _ w w2); [done|].
  by apply (accounts_trans [(circuitKey htlc, resolve htlc)] [] w2 _ w' (accounts_hodlSubscribe _ _ _)).
Qed.

Lemma accounts_requests env hash id w w' r :
  handleCancelRequest env hash id w = Ok (w', r) ∨ handleSettleRequest cfg env hash id w = Ok (w', r) →
  accounts [] w w'.
Proof.
  unfold handleCancelRequest, handleSettleRequest.
  destruct (getAcceptedSet env hash id w) as [[s|e]|e].
  - intros [Hx|Hx].
    + destruct (resolveAll _ _ _) eqn:Hr; simplify_eq/=. by apply accounts_resolveAll in Hr.
    + destruct (AutoSettle cfg); [simplify_eq; apply accounts_refl|]. pose proof (accounts_mark env s w) as Hm.
      destruct (markSettleRequested env s w) as [w1 [err|]]; simplify_eq/=; [done|].
      destruct (requestSettle s w1) eqn:Hr; simplify_eq/=. apply accounts_resolveAll in Hr.
      by apply (accounts_seq _ w w1).
  - case_decide; intros [[= <- _]|[= <- _]]; apply accounts_refl.
  - intros [[= <- _]|[= <- _]]; apply accounts_refl.
Qed.

(** The resolver an event hands over. *)
Definition handed (ev : event) : list (HtlcKey * nat) :=
  match ev with EvHtlc _ htlc => [(circuitKey htlc, resolve htlc)] | _ => [] end.

Lemma accounts_iteration ev w w' st :
  iteration cfg ev w = Ok (w', st) → accounts (handed ev) w w' ∨ w' = w.
Proof.
  destruct ev as [env|env htlc|id cb|env id|env h id|env h id| |fault now key settled]; simpl.
  - destruct (releaseDue _ w) as [[e q']|]; [|intros [= <- _]; by right]. left.
    apply (accounts_seq _ w (set_heap q' w)); [by apply accounts_quiet|].
    destruct e as [h t k|h t].
    + destruct (cancelSingleHtlc _ _ _ _) as [w1|] eqn:Hx; simplify_eq/=. by eapply accounts_cancelSingle.
    + destruct (failInvoice _ _) as [w1|] eqn:Hx; simplify_eq/=. by eapply accounts_failInvoice.
  - destruct (process _ _ _ _) as [[w1 e]|] eqn:Hx; simpl; [|done]. intros [= <- _].
    apply accounts_process in Hx as [|[? _]]; auto.
  - intros [= <- _]. left. destruct (addAcceptSubscriber_fields id cb w) as (new & -> & Hn).
    by apply (accounts_same _ _ new).
  - intros [= <- _]. left. by apply accounts_quiet.
  - destruct (handleSettleRequest _ _ _ _ _) as [[w1 r]|] eqn:Hx; simpl; [|done]. left.
    unfold reply in *. destruct r; simplify_eq/=; eapply accounts_requests; eauto.
  - destruct (handleCancelRequest _ _ _ _) as [[w1 r]|] eqn:Hx; simpl; [|done]. left.
    unfold reply in *. destruct r; simplify_eq/=; eapply accounts_requests; eauto.
  - intros [= <- _]. by right.
  - intros [= <- _]. left. by apply accounts_quiet.
Qed.

(** ** Restarts and kills *)

Definition sys_handed (sev : sys_event) : list (HtlcKey * nat) :=
  match sev with SysEvent ev | SysKill _ _ ev => handed ev end.

(** Resolvers may be lost, with the process, but not doubled. *)
Definition spends (h : list (HtlcKey * nat)) w w' : Prop :=
  ∃ new, effects w' = effects w ++ new ∧ waiting w' ++ called new ⊆+ h ++ waiting w.

Lemma iteration_spends ev w w' st : iteration cfg ev w = Ok (w', st) → spends (handed ev) w w'.
Proof.
  intros [(new & Ee & Hp)| -> ]%accounts_iteration.
  - exists new. split; [done|]. by rewrite Hp.
  - exists []. split; [by rewrite app_nil_r|]. rewrite app_nil_r. by apply submseteq_inserts_l.
Qed.

(** A process that ends keeps none. *)
Lemma spends_lost h w db es new :
  (∃ w', spends h w w' ∧ ∃ all, effects w' = effects w ++ all ∧ called new ⊆+ called all) →
  es = effects w ++ new → spends h w (emit es (NewRegistry cfg db)).
Proof.
  intros (w' & (new' & Ee & Hs) & all & Ee' & Hsub) ->. rewrite Ee in Ee'. simplify_eq.
  exists new. split; [done|]. unfold waiting, held_in; simpl. rewrite map_to_list_empty. simpl.
  etrans; [exact Hsub|]. etrans; [|exact Hs]. by apply submseteq_inserts_l.
Qed.

Lemma called_sublist es es' : es `sublist_of` es' → called es ⊆+ called es'.
Proof.
  intros Hs. apply sublist_submseteq. unfold called. induction Hs as [|e es es' _ IH|e es es' _ IH]; simpl.
  - constructor.
  - destruct (call e); [by constructor|done].
  - destruct (call e); [by constructor|done].
Qed.

Lemma spends_restart h w w' : spends h w w' → spends h w (restart cfg w').
Proof.
  intros Hs. destruct Hs as (new & Ee & Hp) eqn:E. clear E.
  apply (spends_lost h w (cdb w') _ new); [|done]. exists w'. split; [by exists new|]. by exists new.
Qed.

Lemma spends_refl h w : spends h w w.
Proof. exists []. rewrite !app_nil_r. split; [done|]. by apply submseteq_inserts_l. Qed.

Lemma sys_step_spends sev w : spends (sys_handed sev) w (sys_step cfg w sev).
Proof.
  destruct sev as [ev|c n ev]; simpl; destruct (iteration cfg ev w) as [[w' st]|msg] eqn:Hit;
    [|by apply spends_restart, spends_refl| |by apply spends_restart, spends_refl];
    pose proof (iteration_spends _ _ _ _ Hit) as Hs.
  - destruct st; [done|by apply spends_restart].
  - destruct Hs as (new & Ee & Hp) eqn:E. clear E. unfold killed. rewrite Ee, drop_app_length.
    destruct c; (eapply spends_lost; [|done]); exists w'; (split; [by exists new|]); exists new;
      (split; [done|]); apply called_sublist.
    + apply sublist_take.
    + etrans; [apply sublist_filter|apply sublist_take].
Qed.

End Accounts.
End RegResolvers.
