(* ===== verification/Interceptor.v ===== *)
(** The connection to one lnd node: [interceptor.go].

    [start] runs two goroutines: [htlcReceiveLoop], which turns intercepted
    htlcs of the stream into [interceptedHtlc]s for the mux, and its own loop,
    which forwards block heights to the mux and queued replies to the stream.
    Replies are queued by the [reply] callback of an htlc, a closure over the
    buffered channel [replyChan] and the flag [replyChanClosed].

    - [reply] is the callback called by one goroutine at a time; [conn_step] is
      the connection as a state machine over the events of both loops;
    - [Race] is the same callback called by two goroutines, step by step;
    - [Shutdown] is the rendezvous of block heights with the mux loop while the
      mux stops. *)

From stdpp Require Import numbers strings relations base fin_maps gmap list.
From stdpp Require Import options.
From S2P Require Import Prelude Sha256 Types.

Module Interceptor.

Definition resolutionQueueSize : nat := 100.

(** [routerrpc.ResolveHoldForwardAction]. *)
Inductive action_t := SETTLE | FAIL | RESUME.

Record interceptedHtlcResponse := MkResponse {
  action : action_t;
  resp_preimage : bytes;
  failureMessage : bytes;
  failureCode : Z
}.

Record queuedReply := MkQueuedReply {
  incomingKey : CircuitKey;
  q_hash : Hash;
  resp : interceptedHtlcResponse
}.

(** [routerrpc.ForwardHtlcInterceptRequest], the fields the code reads. *)
Record InterceptRequest := MkRequest {
  IncomingCircuitKey : CircuitKey;
  PaymentHash : bytes;
  OnionBlob : bytes;
  req_IncomingAmountMsat : Z;
  req_OutgoingAmountMsat : Z;
  req_IncomingExpiry : Z;
  req_OutgoingExpiry : Z;
  OutgoingRequestedChanId : Z
}.

(** [routerrpc.ForwardHtlcInterceptResponse]. *)
Record InterceptResponse := MkRpcResponse {
  rpc_key : CircuitKey;
  rpc_action : action_t;
  rpc_preimage : bytes;
  rpc_failureMessage : bytes;
  rpc_failureCode : Z
}.

(** [interceptedHtlc]; its [reply] callback is [reply] below, applied to the
    key and the hash of the htlc. *)
Record interceptedHtlc := MkIntercepted {
  i_circuitKey : CircuitKey;
  i_hash : Hash;
  onionBlob : bytes;
  incomingAmountMsat : Z;
  outgoingAmountMsat : Z;
  incomingExpiry : Z;
  outgoingExpiry : Z;
  outgoingChanID : Z
}.

Definition newCircuitKeyFromRPC (key : CircuitKey) : CircuitKey :=
  MkCircuitKey (ck_ChanID key) (ck_HtlcID key).

(** ** The reply channel *)

Record replyChan := MkReplyChan {
  buf : list queuedReply;     (** what the channel holds, oldest first *)
  chan_closed : bool;         (** the channel itself *)
  replyChanClosed : bool      (** the flag of the closure *)
}.

Definition new_replyChan : replyChan := MkReplyChan [] false false.

Definition reply (htlc : interceptedHtlc) (r : interceptedHtlcResponse) (c : replyChan) :
    outcome (replyChan * option Error) :=
  if replyChanClosed c then Ok (c, Some (ErrNew "reply channel closed"))
  else
    let item := MkQueuedReply (i_circuitKey htlc) (i_hash htlc) r in
    if chan_closed c then Panic "send on closed channel"
    else if decide (length (buf c) < resolutionQueueSize)%nat then
      Ok (MkReplyChan (buf c ++ [item]) false (replyChanClosed c), None)
    else Ok (MkReplyChan (buf c) true true, Some (ErrNew "reply channel full")).

(** Receiving: [None] when the channel is empty and open (the case is not
    ready), [Some None] when it is closed and empty. *)
Definition take_reply (c : replyChan) : option (option queuedReply * replyChan) :=
  match buf c with
  | item :: buf' => Some (Some item, MkReplyChan buf' (chan_closed c) (replyChanClosed c))
  | [] => if chan_closed c then Some (None, c) else None
  end.

Definition rpcResp (item : queuedReply) : InterceptResponse :=
  MkRpcResponse (MkCircuitKey (ck_ChanID (incomingKey item)) (ck_HtlcID (incomingKey item)))
    (action (resp item)) (resp_preimage (resp item)) (failureMessage (resp item))
    (failureCode (resp item)).

(** One received request, up to the hand-over to the mux. *)
Definition receive `{Lntypes} (htlc : InterceptRequest) : res interceptedHtlc :=
  hash ← MakeHash (PaymentHash htlc);
  Good (MkIntercepted (newCircuitKeyFromRPC (IncomingCircuitKey htlc)) hash (OnionBlob htlc)
          (req_IncomingAmountMsat htlc) (req_OutgoingAmountMsat htlc)
          (req_IncomingExpiry htlc) (req_OutgoingExpiry htlc) (OutgoingRequestedChanId htlc)).

(** ** The connection after the initial block height *)

Record conn := MkConn {
  chan : replyChan;
  errChan : option Error;          (** buffered, capacity one *)
  receiving : bool;                (** [htlcReceiveLoop] has not returned *)
  to_mux : list interceptedHtlc;   (** htlcs handed to the mux *)
  heights : list Z;                (** heights handed to the mux *)
  sent : list InterceptResponse;   (** responses sent on the stream *)
  gauge : Z                        (** [disconnectedNodesGaugeMetric] *)
}.

Inductive conn_event :=
  | CReceive (r : res InterceptRequest)    (** [recv()] returns in [htlcReceiveLoop] *)
  | CReply (htlc : interceptedHtlc) (r : interceptedHtlcResponse)
  | CError                                 (** [<-errChan] *)
  | CBlock (height : Z)                    (** [<-blockChan], taken by the mux *)
  | CTake (send : option Error)            (** [<-replyChan] and the result of [send] *)
  | CBlockError (err : Error)              (** [<-blockErrChan] *)
  | CDone.                                 (** [<-ctx.Done()] *)

Definition set_chan (x : replyChan) (c : conn) : conn :=
  MkConn x (errChan c) (receiving c) (to_mux c) (heights c) (sent c) (gauge c).
Definition set_received (e : option Error) (b : bool) (l : list interceptedHtlc) (c : conn) : conn :=
  MkConn (chan c) e b l (heights c) (sent c) (gauge c).
Definition add_height (h : Z) (c : conn) : conn :=
  MkConn (chan c) (errChan c) (receiving c) (to_mux c) (heights c ++ [h]) (sent c) (gauge c).
Definition add_sent (r : InterceptResponse) (c : conn) : conn :=
  MkConn (chan c) (errChan c) (receiving c) (to_mux c) (heights c) (sent c ++ [r]) (gauge c).

Section Conn.
Context `{Lntypes}.

(** An event changes the connection and may end [start] with an error; [None]
    when the event cannot happen. The replies that were accepted, those whose
    callback returned nil, are reported. *)
Inductive conn_status :=
  | Running (accepted : list queuedReply)
  | Returned (err : Error).

Definition conn_step (ev : conn_event) (c : conn) : outcome (option (conn * conn_status)) :=
  match ev with
  | CReceive r =>
      if receiving c then
        match r with
        | Bad err => Ok (Some (set_received (Some err) false (to_mux c) c, Running []))
        | Good req =>
            match receive req with
            | Bad err => Ok (Some (set_received (Some err) false (to_mux c) c, Running []))
            | Good h => Ok (Some (set_received (errChan c) true (to_mux c ++ [h]) c, Running []))
            end
        end
      else Ok None
  | CReply htlc r =>
      '(x, err) ← reply htlc r (chan c);
      Ok (Some (set_chan x c,
            Running (match err with
                     | None => [MkQueuedReply (i_circuitKey htlc) (i_hash htlc) r]
                     | Some _ => []
                     end)))
  | CError =>
      match errChan c with
      | Some err => Ok (Some (c, Returned (ErrWrap "stream error" err)))
      | None => Ok None
      end
  | CBlock h => Ok (Some (add_height h c, Running []))
  | CTake send =>
      match take_reply (chan c) with
      | None => Ok None
      | Some (None, _) => Ok (Some (c, Returned (ErrNew "reply channel full")))
      | Some (Some item, x) =>
          match send with
          | None => Ok (Some (add_sent (rpcResp item) (set_chan x c), Running []))
          | Some err => Ok (Some (set_chan x c, Returned (ErrWrap "cannot send" err)))
          end
      end
  | CBlockError err => Ok (Some (c, Returned (ErrWrap "block error" err)))
  | CDone => Ok (Some (c, Returned ErrCanceled))
  end.

(** The loop of [start] and its receive goroutine over a sequence of events;
    the run ends when [start] returns. *)
Fixpoint conn_run (evs : list conn_event) (c : conn) : outcome (conn * list queuedReply * option Error) :=
  match evs with
  | [] => Ok (c, [], None)
  | ev :: evs' =>
      r ← conn_step ev c;
      match r with
      | None => conn_run evs' c
      | Some (c', Returned err) => Ok (c', [], Some err)
      | Some (c', Running acc) =>
          '(c2, acc2, e) ← conn_run evs' c'; Ok (c2, acc ++ acc2, e)
      end
  end.

(** The beginning of [start]: connect, register for blocks, wait for the first
    block. *)
Inductive first_block :=
  | FirstBlock (height : Z)
  | FirstBlockError (err : Error)
  | FirstBlockTimeout
  | FirstBlockDone.

Definition start_connect (interceptor_err block_err : option Error) (b : first_block) (g : Z) :
    res conn :=
  match interceptor_err, block_err with
  | Some err, _ => Bad err
  | None, Some err => Bad err
  | None, None =>
      match b with
      | FirstBlock h => Good (MkConn new_replyChan None true [] [h] [] (g - 1))
      | FirstBlockError err => Bad err
      | FirstBlockTimeout => Bad (ErrNew "initial block height not received")
      | FirstBlockDone => Bad ErrCanceled
      end
  end.

(** One call of [start]: its error, the gauge when it has returned (the
    deferred increment included), and what it did. *)
Definition start (interceptor_err block_err : option Error) (b : first_block)
    (evs : list conn_event) (g : Z) : outcome (option Error * Z * option conn) :=
  match start_connect interceptor_err block_err b g with
  | Bad err => Ok (Some err, g, None)
  | Good c =>
      '(c', _, e) ← conn_run evs c;
      Ok (e, match e with Some _ => gauge c' + 1 | None => gauge c' end, Some c')
  end.

(** The decision of [run] after [start] has returned [err]: stop, or retry. *)
Definition run_retries (err : option Error) : bool :=
  match err with
  | None => false
  | Some e => if decide (e = ErrCanceled) then false else true
  end.

(** ** Facts *)

(** The flag and the channel agree between calls. *)
Definition chan_ok (c : replyChan) : Prop :=
  chan_closed c = replyChanClosed c ∧ (length (buf c) ≤ resolutionQueueSize)%nat.

Lemma reply_ok htlc r c :
  chan_ok c → ∃ c' e, reply htlc r c = Ok (c', e) ∧ chan_ok c' ∧
    buf c' = buf c ++ (match e with
                       | None => [MkQueuedReply (i_circuitKey htlc) (i_hash htlc) r]
                       | Some _ => [] end).
Proof.
  intros [Hc Hl]. unfold reply. destruct (replyChanClosed c) eqn:Hf.
  { eexists _, _. split; [done|]. split; [by split; rewrite ?Hf|]. by rewrite app_nil_r. }
  rewrite Hc. case_decide as Hlt.
  - eexists _, _. split; [done|]. split; [|done]. split; simpl; [done|].
    rewrite length_app; simpl. lia.
  - eexists _, _. split; [done|]. split; [by split|]. simpl. by rewrite app_nil_r.
Qed.

Lemma take_reply_ok c o c' :
  chan_ok c → take_reply c = Some (o, c') →
  chan_ok c' ∧ buf c = option_list o ++ buf c'.
Proof.
  intros [Hc Hl]. unfold take_reply. destruct (buf c) as [|item l] eqn:E.
  - destruct (chan_closed c) eqn:Hx; [|done]. intros [= <- <-].
    split; [split; [congruence|by rewrite E]|]. by rewrite E.
  - intros [= <- <-]. split; [split; simpl in *; [done|lia]|done].
Qed.

(** Replies are neither lost, duplicated nor reordered between [c] and [c']:
    what was queued and what has been accepted since is what was sent followed
    by what is queued; a reply whose send fails ends the connection. *)
Definition delivery (c c' : conn) (acc : list queuedReply) (e : option Error) : Prop :=
  chan_ok (chan c') ∧ gauge c' = gauge c ∧
  ∃ delivered lost, sent c' = sent c ++ (rpcResp <$> delivered) ∧
    buf (chan c) ++ acc = delivered ++ lost ++ buf (chan c') ∧
    (e = None → lost = []) ∧ (length lost ≤ 1)%nat.

Lemma delivery_refl c e : chan_ok (chan c) → delivery c c [] e.
Proof.
  intros Hok. split_and!; try done. exists [], []. simpl. rewrite !app_nil_r.
  split_and!; try done. lia.
Qed.

(** A step that touches neither the queue nor the stream. *)
Lemma delivery_skip c c1 c' acc e :
  chan c1 = chan c → sent c1 = sent c → gauge c1 = gauge c →
  delivery c1 c' acc e → delivery c c' acc e.
Proof. unfold delivery. by intros -> -> ->. Qed.

Lemma conn_run_delivery evs c :
  chan_ok (chan c) →
  ∃ c' acc e, conn_run evs c = Ok (c', acc, e) ∧ delivery c c' acc e.
Proof.
  revert c. induction evs as [|ev evs IH]; intros c Hok; simpl.
  { eexists _, _, _. split; [done|]. by apply delivery_refl. }
  assert (Hret : ∀ err : Error, ∃ c' acc e, Ok (c, [], Some err) = Ok (c', acc, e) ∧ delivery c c' acc e).
  { intros err. eexists _, _, _. split; [done|]. by apply delivery_refl. }
  assert (Hcont : ∀ c1, chan c1 = chan c → sent c1 = sent c → gauge c1 = gauge c →
    ∃ c' acc e, ('(c2, acc2, e) ← conn_run evs c1; Ok (c2, [] ++ acc2, e)) = Ok (c', acc, e) ∧
      delivery c c' acc e).
  { intros c1 E1 E2 E3. destruct (IH c1) as (c' & acc & e & -> & Hd); [by rewrite E1|].
    eexists _, _, _. split; [done|]. by eapply delivery_skip. }
  destruct ev as [r|htlc r| |h|send|err|]; simpl.
  - destruct (receiving c); simpl; [|by apply IH].
    destruct r as [req|err]; simpl; [destruct (receive req)|]; simpl; by apply Hcont.
  - destruct (reply_ok htlc r (chan c) Hok) as (x & e0 & -> & Hx & Hb). simpl.
    destruct (IH (set_chan x c)) as (c' & acc & e & -> & H2 & H3 & d & lost & Hs & Hd & Hl); [done|].
    eexists _, _, _. split; [done|]. split_and!; try done. exists d, lost. split; [done|].
    split; [|done]. rewrite <- Hd; simpl. rewrite Hb, <- app_assoc. by destruct e0.
  - destruct (errChan c); simpl; [apply Hret|by apply IH].
  - by apply Hcont.
  - destruct (take_reply (chan c)) as [[[item|] x]|] eqn:Ht; simpl; [|apply Hret|by apply IH].
    apply take_reply_ok in Ht as [Hx Hb]; [|done]. simpl in Hb. destruct send as [err|]; simpl.
    + eexists _, _, _. split; [done|]. split_and!; try done. exists [], [item]; simpl.
      rewrite !app_nil_r. split_and!; try done.
    + destruct (IH (add_sent (rpcResp item) (set_chan x c)))
        as (c' & acc & e & -> & H2 & H3 & d & lost & Hs & Hd & Hl); [done|].
      eexists _, _, _. split; [done|]. split_and!; try done. exists (item :: d), lost. split_and!.
      * rewrite Hs; simpl. by rewrite <- app_assoc.
      * rewrite Hb; simpl. f_equal. done.
      * apply Hl.
      * apply Hl.
  - apply Hret.
  - apply Hret.
Qed.

(** *** Properties *)


(** The gauge of disconnected nodes is balanced: whatever happens, when
    [start] has returned with an error the gauge has the value it had before. *)
Theorem disconnected_gauge_balanced (ierr berr : option Error) (b : first_block)
  (evs : list conn_event) (g : Z) :
  ∃ e g' c, start ierr berr b evs g = Ok (e, g', c) ∧ (is_Some e → g' = g).
Proof.
  unfold start. destruct (start_connect ierr berr b g) as [c|err] eqn:E.
  - assert (Hc : gauge c = g - 1 ∧ chan c = new_replyChan).
    { revert E. unfold start_connect. repeat case_match; try done. by intros [= <-]. }
    destruct Hc as [Hg Hch].
    destruct (conn_run_delivery evs c) as (c' & acc & e & -> & _ & Hg' & _).
    { rewrite Hch. split; simpl; [done|lia]. }
    eexists _, _, _. split; [done|]. destruct e; [intros _; lia|by intros []].
  - by eexists _, _, _.
Qed.

End Conn.

(** When the queue is full the connection is given up, not the mux: the
    reply is refused, every later reply on this connection is refused, and the
    loop returns "reply channel full" once the hundred queued replies are
    sent. *)
Theorem full_queue_ends_connection `{Lntypes} (htlc : interceptedHtlc)
  (r : interceptedHtlcResponse) (c : conn) (Hok : chan_ok (chan c))
  (Hopen : replyChanClosed (chan c) = false)
  (Hfull : length (buf (chan c)) = resolutionQueueSize) :
  ∃ x, reply htlc r (chan c) = Ok (x, Some (ErrNew "reply channel full")) ∧
    (∀ htlc' r', reply htlc' r' x = Ok (x, Some (ErrNew "reply channel closed"))) ∧
    conn_run (replicate resolutionQueueSize (CTake None) ++ [CTake None]) (set_chan x c) =
      Ok (MkConn (MkReplyChan [] true true) (errChan c) (receiving c) (to_mux c) (heights c)
            (sent c ++ (rpcResp <$> buf (chan c))) (gauge c), [],
          Some (ErrNew "reply channel full")).
Proof.
  destruct Hok as [Hcl _]. unfold reply. rewrite Hopen, Hcl, Hopen.
  rewrite decide_False by (rewrite Hfull; lia). eexists. split; [done|]. split; [done|].
  rewrite <- Hfull. clear Hfull Hopen Hcl. generalize (buf (chan c)) as l.
  intros l. revert c. induction l as [|item l IH]; intros c; simpl.
  - by rewrite app_nil_r.
  - specialize (IH (add_sent (rpcResp item) (set_chan (MkReplyChan l true true) c))).
    unfold set_chan, add_sent in *; simpl in *. rewrite IH. simpl. by rewrite <- app_assoc.
Qed.

Import RealLntypes.

Definition full_conn : conn :=
  MkConn (MkReplyChan
    (replicate 100 (MkQueuedReply (MkCircuitKey 1 2) [] (MkResponse RESUME [] [] 0))) false false)
    None true [] [] [] 0.

Lemma full_queue_ends_connection_witness :
  ∃ x, reply (MkIntercepted (MkCircuitKey 1 3) [] [] 0 0 0 0 0) (MkResponse RESUME [] [] 0)
         (chan full_conn) = Ok (x, Some (ErrNew "reply channel full")).
Proof.
  destruct (full_queue_ends_connection (MkIntercepted (MkCircuitKey 1 3) [] [] 0 0 0 0 0)
    (MkResponse RESUME [] [] 0) full_conn) as (x & Hx & _).
  - split; [reflexivity|]. simpl. unfold resolutionQueueSize. lia.
  - reflexivity.
  - reflexivity.
  - exists x. exact Hx.
Defined.

End Interceptor.

(** ** The callback called by two goroutines

    The callback of an htlc is called by the goroutine of the mux ([RESUME],
    [FAIL]) and by the goroutine of the registry (resolutions). These are the
    atomic steps of a call: reading the flag, the non-blocking send, the close
    and the write of the flag. *)
Module Race.
Import Interceptor.

Inductive pc :=
  | Called (item : queuedReply)     (** about to read [replyChanClosed] *)
  | Checked (item : queuedReply)    (** the flag was false; about to [select] *)
  | Full (item : queuedReply)       (** in [default]; about to [close] *)
  | Closed                          (** about to write the flag *)
  | Done (err : option Error).

(** One step of a call on the shared channel. *)
Definition call_step (p : pc) (c : replyChan) : outcome (pc * replyChan) :=
  match p with
  | Called item =>
      if replyChanClosed c then Ok (Done (Some (ErrNew "reply channel closed")), c)
      else Ok (Checked item, c)
  | Checked item =>
      if chan_closed c then Panic "send on closed channel"
      else if decide (length (buf c) < resolutionQueueSize)%nat then
        Ok (Done None, MkReplyChan (buf c ++ [item]) (chan_closed c) (replyChanClosed c))
      else Ok (Full item, c)
  | Full item =>
      if chan_closed c then Panic "close of closed channel"
      else Ok (Closed, MkReplyChan (buf c) true (replyChanClosed c))
  | Closed => Ok (Done (Some (ErrNew "reply channel full")), MkReplyChan (buf c) (chan_closed c) true)
  | Done e => Ok (Done e, c)
  end.

(** Two calls and the loop of [start], which takes replies. *)
Record state := MkState { first : pc; second : pc; shared : replyChan }.

Inductive step : state → outcome state → Prop :=
  | step_first p p2 c p' c' :
      call_step p c = Ok (p', c') → step (MkState p p2 c) (Ok (MkState p' p2 c'))
  | step_first_panics p p2 c msg :
      call_step p c = Panic msg → step (MkState p p2 c) (Panic msg)
  | step_second p1 p c p' c' :
      call_step p c = Ok (p', c') → step (MkState p1 p c) (Ok (MkState p1 p' c'))
  | step_second_panics p1 p c msg :
      call_step p c = Panic msg → step (MkState p1 p c) (Panic msg)
  | step_take p1 p2 c o c' :
      take_reply c = Some (o, c') → step (MkState p1 p2 c) (Ok (MkState p1 p2 c')).

Inductive reaches : state → outcome state → Prop :=
  | reaches_refl s : reaches s (Ok s)
  | reaches_step s s' o : step s (Ok s') → reaches s' o → reaches s o
  | reaches_panic s msg : step s (Panic msg) → reaches s (Panic msg).

(** Run one call to its end: the atomic [reply] of the sequential model. *)
Fixpoint run_call (n : nat) (p : pc) (c : replyChan) : outcome (pc * replyChan) :=
  match n with
  | O => Ok (p, c)
  | S n' => '(p', c') ← call_step p c; run_call n' p' c'
  end.

Definition item1 : queuedReply :=
  MkQueuedReply (MkCircuitKey 1 1) [] (MkResponse RESUME [] [] 0).
Definition item2 : queuedReply :=
  MkQueuedReply (MkCircuitKey 1 2) [] (MkResponse FAIL [] [] 0).

(** One call runs to completion as the atomic [reply] does: the steps of the
    concurrent model refine the sequential one. *)
Theorem call_refines_reply (htlc : interceptedHtlc) (r : interceptedHtlcResponse) (c : replyChan) :
  run_call 4 (Called (MkQueuedReply (i_circuitKey htlc) (i_hash htlc) r)) c =
  match reply htlc r c with
  | Ok (c', e) => Ok (Done e, c')
  | Panic msg => Panic msg
  end.
Proof.
  unfold reply. destruct c as [b cl fl]; simpl. destruct fl; simpl; [done|].
  destruct cl; simpl; [done|]. destruct (decide (length b < resolutionQueueSize)%nat); done.
Qed.

(** The callback is not safe for the two goroutines that call it: with a
    full queue both calls can see the flag unset, one closes the channel, and
    the other panics, either in [close] or in its send; a panic in either
    goroutine ends the process. *)
Theorem concurrent_replies_panic (b : list queuedReply) (Hb : length b = resolutionQueueSize) :
  let s := MkState (Called item1) (Called item2) (MkReplyChan b false false) in
  reaches s (Panic "send on closed channel") ∧ reaches s (Panic "close of closed channel").
Proof.
  assert (Hfull : ∀ x, call_step (Checked x) (MkReplyChan b false false) =
                       Ok (Full x, MkReplyChan b false false)).
  { intros x. unfold call_step; simpl. rewrite decide_False by (rewrite Hb; lia). done. }
  split.
  - eapply reaches_step; [apply step_first; reflexivity|].
    eapply reaches_step; [apply step_second; reflexivity|].
    eapply reaches_step; [apply step_first, Hfull|].
    eapply reaches_step; [apply step_first; reflexivity|].
    apply reaches_panic. by apply step_second_panics.
  - eapply reaches_step; [apply step_first; reflexivity|].
    eapply reaches_step; [apply step_second; reflexivity|].
    eapply reaches_step; [apply step_first, Hfull|].
    eapply reaches_step; [apply step_second, Hfull|].
    eapply reaches_step; [apply step_first; reflexivity|].
    apply reaches_panic. by apply step_second_panics.
Qed.

Lemma concurrent_replies_panic_witness :
  reaches (MkState (Called item1) (Called item2) (MkReplyChan (replicate 100 item1) false false))
    (Panic "send on closed channel").
Proof.
  destruct (concurrent_replies_panic (replicate 100 item1)) as [Hp _].
  - reflexivity.
  - exact Hp.
Defined.

End Race.

(** ** Stopping the mux

    [Mux.Run] returns when its context is done: it cancels the context of the
    interceptor and waits for it. Block heights are sent on an unbuffered
    channel, so a send completes only with a receive of the mux loop. *)
Module Shutdown.

Inductive ipc :=
  | Connecting                (** in [lnd.HtlcInterceptor] or [RegisterBlockEpochNtfn] *)
  | AwaitingBlock             (** the [select] on the initial block *)
  | SendingInitial (h : Z)    (** [i.heightChan <- int(block.Height)] *)
  | Looping                   (** the main [select] *)
  | SendingHeight (h : Z)     (** the inner [select] on [heightChan] and [ctx.Done()] *)
  | Retrying                  (** [start] has failed; the retry delay of [run] *)
  | Exited.

Record state := MkState {
  mux_running : bool;   (** the mux loop still receives *)
  cancelled : bool;     (** the context of the interceptor is done *)
  at_pc : ipc
}.

Inductive step : state → state → Prop :=
  (** [Mux.Run] leaves its loop and cancels. *)
  | step_mux_exits c p : step (MkState true c p) (MkState false true p)
  | step_connected m c : step (MkState m c Connecting) (MkState m c AwaitingBlock)
  | step_connect_fails m c : step (MkState m c Connecting) (MkState m c Retrying)
  | step_first_block m c h : step (MkState m c AwaitingBlock) (MkState m c (SendingInitial h))
  | step_first_fails m c : step (MkState m c AwaitingBlock) (MkState m c Retrying)
  | step_first_done m : step (MkState m true AwaitingBlock) (MkState m true Exited)
  (** The rendezvous of the initial height with the mux loop. *)
  | step_initial c h : step (MkState true c (SendingInitial h)) (MkState true c Looping)
  | step_block m c h : step (MkState m c Looping) (MkState m c (SendingHeight h))
  | step_loop_fails m c : step (MkState m c Looping) (MkState m c Retrying)
  | step_loop_done m : step (MkState m true Looping) (MkState m true Exited)
  | step_height c h : step (MkState true c (SendingHeight h)) (MkState true c Looping)
  | step_height_done m h : step (MkState m true (SendingHeight h)) (MkState m true Exited)
  | step_retry m c : step (MkState m c Retrying) (MkState m c Connecting)
  | step_retry_done m : step (MkState m true Retrying) (MkState m true Exited).

Definition initial : state := MkState true false Connecting.

(** [Mux.Run] can return: the interceptor has exited. *)
Definition stopped (s : state) : Prop := mux_running s = false ∧ at_pc s = Exited.

(** A stopping mux waits for the interceptor in vain exactly when the
    interceptor is sending its initial block height: from any other point it
    can always run to its end, there it is stuck for ever, because this send,
    unlike the one in the loop, does not watch the context. *)
Theorem shutdown_deadlock_iff (s : state) (Hr : rtc step initial s) (Hm : mux_running s = false) :
  (¬ ∃ s', rtc step s s' ∧ stopped s') ↔ ∃ h, at_pc s = SendingInitial h.
Proof.
  assert (Hc : ∀ x, rtc step initial x → mux_running x = false → cancelled x = true).
  { intros x Hx. apply (rtc_ind_r (R := step) (λ y, mux_running y = false → cancelled y = true) initial);
      [done| |done]. intros y z _ Hyz IH. destruct Hyz; simpl in *; auto; congruence. }
  specialize (Hc s Hr Hm). destruct s as [m c p]; simpl in *. subst m c. split.
  - intros Hno. destruct p as [| |h| |h| |]; [..|by exists h| | | |]; exfalso; apply Hno;
      (exists (MkState false true Exited); split; [|done]).
    + eapply rtc_l; [apply step_connected|]. apply rtc_once, step_first_done.
    + apply rtc_once, step_first_done.
    + apply rtc_once, step_loop_done.
    + apply rtc_once, step_height_done.
    + apply rtc_once, step_retry_done.
    + done.
  - intros [h ->] (s' & Hs & _ & He). revert He.
    assert (Hstuck : s' = MkState false true (SendingInitial h)); [|by rewrite Hstuck].
    apply (rtc_ind_r (R := step) (λ y, y = MkState false true (SendingInitial h))
             (MkState false true (SendingInitial h))); [done| |done].
    intros y z _ Hyz ->. by inversion Hyz.
Qed.

(** The mux is told to stop while the interceptor reconnects. *)
Lemma shutdown_deadlock_iff_witness :
  rtc step initial (MkState false true (SendingInitial 100)) ∧
  ¬ ∃ s', rtc step (MkState false true (SendingInitial 100)) s' ∧ stopped s'.
Proof.
  assert (Hr : rtc step initial (MkState false true (SendingInitial 100))).
  { eapply rtc_l; [apply step_connected|]. eapply rtc_l; [apply (step_first_block _ _ 100)|].
    apply rtc_once. apply step_mux_exits. }
  split; [exact Hr|].
  apply (shutdown_deadlock_iff (MkState false true (SendingInitial 100)) Hr eq_refl).
  exists 100. reflexivity.
Defined.

End Shutdown.
