(* ===== verification/InvoiceCreator.v ===== *)
(** Creating invoices: [invoice_creator.go], with the key ring that signs them,
    [keyring.go].

    The elliptic curve (btcec, ecdsa) and the encoding of payment requests
    (zpay32) are code outside the repository: classes [Btcec] and [Zpay32] with
    what their documentation promises. *)

From stdpp Require Import numbers strings base fin_maps gmap list.
From stdpp Require Import options.
From S2P Require Import Prelude Sha256 Types StatelessData.

(** ** github.com/btcsuite/btcd/btcec and its ecdsa package *)

Class Btcec := {
  PrivateKey : Type;
  PublicKey : Type;
  PrivKeyFromBytes : bytes → PrivateKey * PublicKey;
  Serialize : PrivateKey → bytes;
  SerializeCompressed : PublicKey → bytes;
  ParsePubKey : bytes → res PublicKey;
  ScalarMult : PrivateKey → PublicKey → PublicKey;
  ecdsa_Sign : PrivateKey → bytes → bytes;
  SignCompact : PrivateKey → bytes → bool → res bytes;
  (** the scalars below the group order *)
  valid_scalar : bytes → Prop
}.

Class BtcecLaws `{Btcec} : Prop := {
  (** a scalar below the group order is not reduced *)
  Serialize_FromBytes k : length k = 32%nat → valid_scalar k → Serialize (PrivKeyFromBytes k).1 = k;
  (** 33 bytes that parse are a compressed key, whose encoding is unique *)
  Serialize_Parse b p : length b = PubKey.PubKeySize → ParsePubKey b = Good p → SerializeCompressed p = b;
  (** a * (b * G) = b * (a * G) *)
  ScalarMult_comm a b :
    ScalarMult (PrivKeyFromBytes a).1 (PrivKeyFromBytes b).2 =
    ScalarMult (PrivKeyFromBytes b).1 (PrivKeyFromBytes a).2
}.

(** A group that satisfies the laws: keys are byte strings under exclusive or. *)
Module XorGroup.

#[export] Instance xor_btcec : Btcec := {
  PrivateKey := bytes;
  PublicKey := bytes;
  PrivKeyFromBytes b := (copy_array 32 b, 2 :: copy_array 32 b);
  Serialize k := k;
  SerializeCompressed p := p;
  ParsePubKey b := if decide (length b = PubKey.PubKeySize) then Good b
                   else Bad (ErrExternal "malformed public key");
  ScalarMult k p := 2 :: zip_with Z.lxor k (tail p);
  ecdsa_Sign k m := k ++ m;
  SignCompact k m _ := Good (k ++ m);
  valid_scalar _ := True
}.

#[export] Instance xor_btcec_laws : BtcecLaws.
Proof.
  split; simpl.
  - intros k Hk _. by apply copy_array_id.
  - intros b p Hb. rewrite decide_True by done. by intros [= <-].
  - intros a b. f_equal. generalize (copy_array 32 b) as l'. generalize (copy_array 32 a) as l. intros l.
    induction l as [|x l IH]; intros [|y l']; simpl; [done..|].
    by rewrite Z.lxor_comm, IH.
Qed.

End XorGroup.

(** ** keyring.go *)
Module KeyRing.

Section WithBtcec.
Context `{Btcec}.

Record KeyRing := MkKeyRing { pubKey : PublicKey; privKey : PrivateKey }.

Record KeyLocator := MkKeyLocator { Family : Z; Index : Z }.
Record KeyDescriptor := MkKeyDescriptor { kd_KeyLocator : KeyLocator; kd_PubKey : PublicKey }.

Definition NewKeyRing (key : bytes) : KeyRing :=
  let '(privKey, pubKey) := PrivKeyFromBytes key in MkKeyRing pubKey privKey.

Definition DeriveNextKey (keyFam : Z) (b : KeyRing) : outcome (res KeyDescriptor) :=
  Panic "not implemented".

Definition DeriveKey (keyLoc : KeyLocator) (b : KeyRing) : res KeyDescriptor :=
  Good (MkKeyDescriptor keyLoc (pubKey b)).

Definition DerivePrivKey (keyDesc : KeyLocator) (b : KeyRing) : res PrivateKey :=
  Good (privKey b).

Definition ECDH (pub : PublicKey) (b : KeyRing) : res bytes :=
  let s := ScalarMult (privKey b) pub in Good (Sha.sha256 (SerializeCompressed s)).

(** [chainhash.HashB] and [chainhash.DoubleHashB]. *)
Definition message_digest (msg : bytes) (doubleHash : bool) : bytes :=
  if doubleHash then Sha.sha256 (Sha.sha256 msg) else Sha.sha256 msg.

Definition SignMessage (keyLoc : KeyLocator) (msg : bytes) (doubleHash : bool) (b : KeyRing) :
    res bytes :=
  privKey ← DerivePrivKey keyLoc b;
  Good (ecdsa_Sign privKey (message_digest msg doubleHash)).

Definition SignMessageCompact (keyLoc : KeyLocator) (msg : bytes) (doubleHash : bool)
    (b : KeyRing) : res bytes :=
  privKey ← DerivePrivKey keyLoc b;
  SignCompact privKey (message_digest msg doubleHash) true.

End WithBtcec.

Lemma NewKeyRing_privKey `{Btcec} (key : bytes) : privKey (NewKeyRing key) = (PrivKeyFromBytes key).1.
Proof. unfold NewKeyRing. by destruct (PrivKeyFromBytes key). Qed.

(** The key ring is one identity: every locator yields the same key pair, the
    one of the configured key, and ECDH with it is a key agreement: two rings
    derive the same shared secret from each other's public keys. *)
Theorem keyring_identity `{Btcec} `{!BtcecLaws} (a b : bytes) (l1 l2 : KeyLocator) :
  (∃ d1 d2, DeriveKey l1 (NewKeyRing a) = Good d1 ∧ DeriveKey l2 (NewKeyRing a) = Good d2 ∧
     kd_PubKey d1 = kd_PubKey d2 ∧ kd_PubKey d1 = (PrivKeyFromBytes a).2) ∧
  DerivePrivKey l1 (NewKeyRing a) = Good (PrivKeyFromBytes a).1 ∧
  ECDH (pubKey (NewKeyRing b)) (NewKeyRing a) = ECDH (pubKey (NewKeyRing a)) (NewKeyRing b).
Proof.
  unfold DeriveKey, DerivePrivKey, ECDH, NewKeyRing.
  pose proof (ScalarMult_comm a b) as Hc.
  destruct (PrivKeyFromBytes a) as [ka pa], (PrivKeyFromBytes b) as [kb pb]. simpl in *.
  split; [by eexists _, _|]. split; [done|]. by rewrite Hc.
Qed.

Lemma keyring_identity_witness :
  ECDH (H := XorGroup.xor_btcec) (pubKey (NewKeyRing (replicate 32 7))) (NewKeyRing (replicate 32 9)) =
  ECDH (H := XorGroup.xor_btcec) (pubKey (NewKeyRing (replicate 32 9))) (NewKeyRing (replicate 32 7)).
Proof.
  exact (proj2 (proj2 (keyring_identity (H := XorGroup.xor_btcec)
    (H0 := XorGroup.xor_btcec_laws) (replicate 32 9) (replicate 32 7)
    (MkKeyLocator 0 0) (MkKeyLocator 6 0)))).
Defined.

End KeyRing.

(** ** invoice_creator.go *)
Module Creator.
Import KeyRing.

(** The bytes [b[:]] after [b[0] |= 1 << 7]. *)
Definition force_high_bit (b : bytes) : bytes :=
  match b with [] => [] | x :: b' => Z.lor x 128 :: b' end.

Definition virtualChannelFromNode (key : bytes) : Z :=
  Uint64 (force_high_bit (copy_array 8 (drop (PubKey.PubKeySize - 8) key))).

(** *** zpay32, code outside the repository *)

Record HopHint {K : Type} := MkHopHint {
  NodeID : K;
  ChannelID : Z;
  FeeBaseMSat : Z;
  FeeProportionalMillionths : Z;
  CLTVExpiryDelta : Z
}.
Arguments HopHint : clear implicits.
Arguments MkHopHint {_} _ _ _ _ _.

(** The functional options the code passes, in order. *)
Inductive zopt {K : Type} :=
  | Amount (msat : Z)
  | Expiry (d : Z)
  | Description (memo : string)
  | DescriptionHash (h : Hash)
  | CLTVExpiry (delta : Z)
  | RouteHint (hints : list (HopHint K))
  | Features
  | PaymentAddrOpt (addr : bytes).
Arguments zopt : clear implicits.

Section Create.
Context `{Btcec} `{Lntypes} {Net : Type}.

Class Zpay32 := {
  PayReq : Type;
  NewInvoice : Net → Hash → Time → list (zopt PublicKey) → res PayReq;
  Encode : PayReq → (bytes → res bytes) → res string
}.

Context `{Zpay32}.

Record InvoiceCreatorConfig := MkCreatorConfig {
  cfg_KeyRing : KeyRing;
  GwPubKeys : list bytes;
  ActiveNetParams : Net;
  cfg_RoutingPolicy : RoutingPolicy
}.

Record InvoiceCreator := MkInvoiceCreator {
  keyRing : KeyRing;
  gwPubKeys : list PublicKey;
  activeNetParams : Net;
  idKeyDesc : KeyDescriptor;
  routingPolicy : RoutingPolicy
}.

(** [keychain.KeyFamilyNodeKey] is 6. *)
Definition nodeKeyLocator : KeyLocator := MkKeyLocator 6 0.

Fixpoint parsePubKeys (keys : list bytes) : res (list PublicKey) :=
  match keys with
  | [] => Good []
  | k :: keys' => p ← ParsePubKey k; ps ← parsePubKeys keys'; Good (p :: ps)
  end.

Definition NewInvoiceCreator (cfg : InvoiceCreatorConfig) : res InvoiceCreator :=
  idKeyDesc ← DeriveKey nodeKeyLocator (cfg_KeyRing cfg);
  parsedPubKeys ← parsePubKeys (GwPubKeys cfg);
  Good (MkInvoiceCreator (cfg_KeyRing cfg) parsedPubKeys (ActiveNetParams cfg) idKeyDesc
          (cfg_RoutingPolicy cfg)).

Definition NodePubKeys (c : InvoiceCreator) : list PublicKey := gwPubKeys c.
Definition Network (c : InvoiceCreator) : Net := activeNetParams c.

Definition creator_PubKey (c : InvoiceCreator) : outcome PublicKey :=
  match DeriveKey (MkKeyLocator 0 0) (keyRing c) with
  | Good key => Ok (kd_PubKey key)
  | Bad _ => Panic "DeriveKey"
  end.

(** The root package's [Invoice]. *)
Record CreatedInvoice := MkCreatedInvoice {
  CreationDate : Time;
  PaymentRequest : string;
  ci_data : InvoiceCreationData
}.

Definition hopHint (c : InvoiceCreator) (gwPubKey : PublicKey) : HopHint PublicKey :=
  let pubKey := PubKey.NewPubKeyFromKey (SerializeCompressed gwPubKey) in
  MkHopHint gwPubKey (virtualChannelFromNode pubKey)
    (u32 (FeeBaseMsat (routingPolicy c))) (u32 (FeeRatePpm (routingPolicy c)))
    (u16 (CltvDelta (routingPolicy c))).

Definition options (c : InvoiceCreator) (amtMSat expiry : Z) (memo : string)
    (descHash : option Hash) (cltvDelta : Z) (paymentAddr : bytes) : list (zopt PublicKey) :=
  (if 0 <? amtMSat then [Amount (u64 amtMSat)] else []) ++
  [Expiry expiry] ++
  (if bool_decide (0 < String.length memo)%nat || bool_decide (descHash = None)
   then [Description memo] else []) ++
  (match descHash with Some h => [DescriptionHash h] | None => [] end) ++
  [CLTVExpiry cltvDelta] ++
  ((λ k, RouteHint [hopHint c k]) <$> gwPubKeys c) ++
  [Features; PaymentAddrOpt paymentAddr].

(** [featureMgr] is the result of [feature.NewManager]; [now] and [rand] are the
    clock and the random bytes. *)
Definition Create (featureMgr : res unit) (now : Time) (rand : res bytes) (c : InvoiceCreator)
    (amtMSat expiry : Z) (memo : string) (descHash : option Hash) (cltvDelta : Z) :
    res (CreatedInvoice * Preimage) :=
  _ ← featureMgr;
  privKey ← DerivePrivKey (kd_KeyLocator (idKeyDesc c)) (keyRing c);
  let expiryTime := Time.Add now expiry in
  '(paymentAddr, preimage) ←
    Stateless.encodeStatelessData rand (Serialize privKey) amtMSat expiryTime;
  let paymentHash := PreimageHash preimage in
  payReq ← NewInvoice (activeNetParams c) paymentHash now
             (options c amtMSat expiry memo descHash cltvDelta paymentAddr);
  payReqString ← Encode payReq (λ msg,
    SignMessageCompact (kd_KeyLocator (idKeyDesc c)) msg false (keyRing c));
  Good (MkCreatedInvoice now payReqString
          (MkInvoiceCreationData preimage (u64 amtMSat) paymentAddr), preimage).

(** ** Facts *)

Lemma Create_Good fm now rand c amt exp memo dh cltv inv p :
  Create fm now rand c amt exp memo dh cltv = Good (inv, p) →
  Stateless.encodeStatelessData rand (Serialize (privKey (keyRing c))) amt (Time.Add now exp) =
    Good (PaymentAddr (ci_data inv), p) ∧
  PaymentPreimage (ci_data inv) = p ∧ Value (ci_data inv) = u64 amt ∧
  ∃ req, NewInvoice (activeNetParams c) (PreimageHash p) now
           (options c amt exp memo dh cltv (PaymentAddr (ci_data inv))) = Good req.
Proof.
  unfold Create, mbind, result_bind. destruct fm; [|done]. simpl.
  destruct (Stateless.encodeStatelessData _ _ _ _) as [[addr pre]|] eqn:Henc; [|done].
  destruct (NewInvoice _ _ _ _) as [req|] eqn:Hnew; [|done].
  destruct (Encode _ _) eqn:Hs; [|done]. intros [= <- <-]. simpl. eauto.
Qed.

Lemma NewInvoiceCreator_keyRing cfg c : NewInvoiceCreator cfg = Good c → keyRing c = cfg_KeyRing cfg.
Proof.
  unfold NewInvoiceCreator, DeriveKey, mbind, result_bind.
  destruct (parsePubKeys _); [|done]. by intros [= <-].
Qed.

Lemma parsePubKeys_Good `{!BtcecLaws} keys ps :
  Forall (λ k, length k = PubKey.PubKeySize) keys → parsePubKeys keys = Good ps →
  SerializeCompressed <$> ps = keys.
Proof.
  intros Hk. revert ps. induction Hk as [|k keys Hk _ IH]; intros ps; simpl.
  { by intros [= <-]. }
  unfold mbind, result_bind. destruct (ParsePubKey k) as [p|] eqn:Hp; [|done].
  destruct (parsePubKeys keys) as [ps'|]; [|done]. intros [= <-]. simpl.
  rewrite (Serialize_Parse k p) by done. f_equal. by apply IH.
Qed.

Lemma route_hints c amt exp memo dh cltv addr :
  (options c amt exp memo dh cltv addr ≫= λ o, match o with RouteHint hs => hs | _ => [] end) =
  hopHint c <$> gwPubKeys c.
Proof.
  unfold options. rewrite !bind_app.
  assert (Hh : (((λ k, RouteHint [hopHint c k]) <$> gwPubKeys c) ≫=
    λ o, match o with RouteHint hs => hs | _ => [] end) = hopHint c <$> gwPubKeys c).
  { induction (gwPubKeys c) as [|k l IH]; [done|]. rewrite fmap_cons, bind_cons, IH. done. }
  rewrite Hh. destruct (0 <? amt), (bool_decide _ || _), dh; simpl; by rewrite app_nil_r.
Qed.

End Create.

Lemma byte_or_128 x : is_byte x → Z.lor x 128 = 128 + x `mod` 128.
Proof.
  intros Hx. unfold is_byte in Hx.
  assert (Hall : forallb (λ n, Z.lor (Z.of_nat n) 128 =? 128 + Z.of_nat n `mod` 128) (seq 0 256) = true)
    by (vm_compute; reflexivity).
  rewrite forallb_forall in Hall. specialize (Hall (Z.to_nat x)).
  rewrite Z2Nat.id in Hall by lia. apply Z.eqb_eq, Hall. apply in_seq. lia.
Qed.

Lemma be_get_cons x b : be_get (x :: b) = x * 256 ^ Z.of_nat (length b) + be_get b.
Proof.
  induction b as [|y b IH] using rev_ind.
  { unfold be_get; simpl. lia. }
  rewrite app_comm_cons, !be_get_snoc, IH, length_app; simpl.
  replace (Z.of_nat (length b + 1)) with (Z.succ (Z.of_nat (length b))) by lia.
  rewrite Z.pow_succ_r by lia. lia.
Qed.

(** The virtual channel of a node: the last 63 bits of its key, with the high
    bit set. *)
Lemma virtualChannel_bits key :
  length key = PubKey.PubKeySize → Forall is_byte key →
  virtualChannelFromNode key = 2 ^ 63 + be_get (drop 25 key) `mod` 2 ^ 63.
Proof.
  intros Hlen Hb. unfold virtualChannelFromNode, PubKey.PubKeySize in *. simpl.
  rewrite copy_array_id by (rewrite length_drop; lia).
  assert (Hl : length (drop 25 key) = 8%nat) by (rewrite length_drop; lia).
  apply (Forall_drop _ 25) in Hb. revert Hl Hb. generalize (drop 25 key) as b. intros b Hl Hb.
  destruct b as [|x b]; [done|]. simpl in Hl. apply Forall_cons in Hb as [Hx Hb]. simpl.
  unfold Uint64. rewrite !be_get_cons, byte_or_128 by done.
  pose proof (be_get_range b Hb) as Hr. replace (length b) with 7%nat in * by lia.
  unfold is_byte in Hx. change (256 ^ Z.of_nat 7) with (2 ^ 56) in *.
  pose proof (Z.div_mod x 128). pose proof (Z.mod_pos_bound x 128).
  set (m := x `mod` 128) in *. set (d := x / 128) in *. rewrite <- (Z.mod_unique _ (2 ^ 63) d (m * 2 ^ 56 + be_get b)); lia.
Qed.

(** For the gateway nodes of the configuration, in order, the payment request
    carries one route hint with the node's virtual channel, and the policy
    truncated to the widths of the hint. *)
Lemma hop_hints_match_nodes {Net} `{Btcec} `{!BtcecLaws} (cfg : InvoiceCreatorConfig (Net := Net))
  (c : InvoiceCreator (Net := Net)) (Hc : NewInvoiceCreator cfg = Good c)
  (Hk : Forall (λ k, length k = PubKey.PubKeySize) (GwPubKeys cfg))
  (amt exp cltv : Z) (memo : string) (dh : option Hash) (addr : bytes) :
  ((λ h, (SerializeCompressed (NodeID h), ChannelID h, FeeBaseMSat h,
          FeeProportionalMillionths h, CLTVExpiryDelta h)) <$>
    (options c amt exp memo dh cltv addr ≫=
       λ o, match o with RouteHint hs => hs | _ => [] end)) =
  (λ k, (k, virtualChannelFromNode k, u32 (FeeBaseMsat (cfg_RoutingPolicy cfg)),
         u32 (FeeRatePpm (cfg_RoutingPolicy cfg)), u16 (CltvDelta (cfg_RoutingPolicy cfg)))) <$> GwPubKeys cfg.
Proof.
  rewrite route_hints. revert Hc. unfold NewInvoiceCreator, DeriveKey, mbind, result_bind.
  destruct (parsePubKeys (GwPubKeys cfg)) as [ps|] eqn:Hps; [|done]. intros [= <-]. simpl.
  pose proof (parsePubKeys_Good _ _ Hk Hps) as Hser. rewrite <- Hser in Hk |- *.
  rewrite <- !list_fmap_compose. apply list_fmap_ext. intros i p Hp. simpl.
  rewrite Forall_fmap, Forall_lookup in Hk. specialize (Hk _ _ Hp). simpl in Hk.
  unfold PubKey.NewPubKeyFromKey. by rewrite copy_array_id.
Qed.

(** ** Properties *)

(** C39. The virtual channel of a node never collides with a real channel (whose
    id is below 2^63), is a valid 64-bit id, and two nodes share it exactly when
    the last 63 bits of their keys agree. *)
Theorem virtual_channel_distinct (k1 k2 : bytes)
  (Hl1 : length k1 = PubKey.PubKeySize) (Hl2 : length k2 = PubKey.PubKeySize)
  (Hb1 : Forall is_byte k1) (Hb2 : Forall is_byte k2) :
  2 ^ 63 ≤ virtualChannelFromNode k1 < 2 ^ 64 ∧
  (virtualChannelFromNode k1 = virtualChannelFromNode k2 ↔
   be_get (drop 25 k1) `mod` 2 ^ 63 = be_get (drop 25 k2) `mod` 2 ^ 63).
Proof.
  rewrite !virtualChannel_bits by done.
  pose proof (Z.mod_pos_bound (be_get (drop 25 k1)) (2 ^ 63)). split; [lia|]. split; lia.
Qed.

Lemma virtual_channel_distinct_witness :
  2 ^ 63 ≤ virtualChannelFromNode (replicate 33 1) < 2 ^ 64 ∧
  (virtualChannelFromNode (replicate 33 1) = virtualChannelFromNode (replicate 33 2) ↔
   be_get (drop 25 (replicate 33 1)) `mod` 2 ^ 63 = be_get (drop 25 (replicate 33 2)) `mod` 2 ^ 63).
Proof.
  apply (virtual_channel_distinct (replicate 33 1) (replicate 33 2)).
  - reflexivity.
  - reflexivity.
  - apply Forall_replicate. split; lia.
  - apply Forall_replicate. split; lia.
Defined.

End Creator.
