(* ===== verification/Mux.v ===== *)
(** The multiplexer of one lnd node: [mux.go].

    [ProcessHtlc] decides about one intercepted htlc: it answers it, hands it to
    the invoice registry with a callback for its resolution, or returns an
    error. [mux_step] is one iteration of the loop of [Run]. The onion code of
    lnd is outside the repository: class [Onion]. *)

From stdpp Require Import numbers strings base fin_maps gmap list.
From stdpp Require Import options.
From S2P Require Import Prelude Sha256 Types SetIds StatelessData Registry Interceptor InvoiceCreator.

Module Mux.
Import Interceptor.

(** ** lnd's wire and onion packages *)

Inductive FailCode :=
  | CodeInvalidOnionHmac
  | CodeInvalidOnionVersion
  | CodeInvalidOnionKey
  | CodeFeeInsufficient
  | CodeIncorrectCltvExpiry
  | CodeOther (code : Z).

Inductive FailureMessage :=
  | FailFinalIncorrectHtlcAmount (amt : Z)
  | FailFinalExpiryTooSoon
  | FailMPPTimeout
  | FailIncorrectDetails (amt height : Z).

(** The final hop payload ([hop.Payload]). *)
Record OnionPayload := MkOnionPayload {
  AmountToForward : Z;
  OutgoingCTLV : Z;
  MultiPath : option Registry.MPP
}.

(** [hop.OnionProcessor], [hop.Iterator] and [hop.ErrorEncrypter]. The processor is
    built on a replay log, which it asks to [Put] the hash prefix and the expiry of
    every packet. *)
Class Onion := {
  Iterator : Type;
  Obfuscator : Type;
  DecodeHopIterator : (bytes → Z → option Error) → bytes → Hash → Z → result FailCode Iterator;
  HopPayload : Iterator → res OnionPayload;
  ExtractErrorEncrypter : Iterator → result FailCode Obfuscator;
  EncryptFirstHop : Obfuscator → FailureMessage → res bytes
}.

(** The replay log of the mux keeps nothing and accepts every packet, so that an
    htlc that lnd offers again can be decoded again. *)
Definition Put (hash : bytes) (cltv : Z) : option Error := None.

(** [lnrpc.Failure_FailureCode]: INVALID_ONION_VERSION is 15, INVALID_ONION_HMAC
    16 and INVALID_ONION_KEY 17. *)
Definition marshallFailureCode (code : FailCode) : res Z :=
  match code with
  | CodeInvalidOnionHmac => Good 16
  | CodeInvalidOnionVersion => Good 15
  | CodeInvalidOnionKey => Good 17
  | CodeFeeInsufficient | CodeIncorrectCltvExpiry => Good 0
  | CodeOther _ => Bad (ErrNew "unsupported code")
  end.

Section Mux.
Context `{Onion}.

Record MuxConfig := MkMux {
  lnd_PubKey : bytes;
  routingPolicy : RoutingPolicy;
  virtualChannel : Z
}.

(** [New]: the parts of a [Mux] that decide about htlcs. *)
Definition New (connectedNode : bytes) (policy : RoutingPolicy) : MuxConfig :=
  MkMux connectedNode policy (Creator.virtualChannelFromNode connectedNode).

(** What [ProcessHtlc] does with an htlc. *)
Inductive mux_action :=
  | MuxReply (r : interceptedHtlcResponse)
  | MuxNotify (h : Registry.registryHtlc)
      (resolve : HtlcResolution → res interceptedHtlcResponse)
  | MuxError (err : Error).

(** The closure [fail]. *)
Definition fail (code : FailCode) : mux_action :=
  match marshallFailureCode code with
  | Bad err => MuxError err
  | Good rpcCode => MuxReply (MkResponse FAIL (replicate 32 0) [] rpcCode)
  end.

(** The closure [failLocal]: the response, or the error of the encryption. *)
Definition failLocal (obfuscator : Obfuscator) (m : FailureMessage) : res interceptedHtlcResponse :=
  reason ← EncryptFirstHop obfuscator m;
  Good (MkResponse FAIL (replicate 32 0) reason 0).

Definition reply_or_error (r : res interceptedHtlcResponse) : mux_action :=
  match r with Good x => MuxReply x | Bad err => MuxError err end.

Definition expectedFee (p : RoutingPolicy) (outgoing : Z) : Z :=
  u64 (u64 (FeeBaseMsat p) + u64 (u64 (FeeRatePpm p) * outgoing) / 1000000).

(** The checks of the routing policy. *)
Definition checkPolicy (p : RoutingPolicy) (htlc : interceptedHtlc) : option FailCode :=
  if incomingAmountMsat htlc <?
     u64 (outgoingAmountMsat htlc + expectedFee p (outgoingAmountMsat htlc))
  then Some CodeFeeInsufficient
  else if incomingExpiry htlc <? u32 (outgoingExpiry htlc + u32 (CltvDelta p))
  then Some CodeIncorrectCltvExpiry
  else None.

(** The closure [resolve]. *)
Definition resolve (htlc : interceptedHtlc) (obfuscator : Obfuscator) (r : HtlcResolution) :
    res interceptedHtlcResponse :=
  match r with
  | HtlcSettleResolution p _ => Good (MkResponse SETTLE p [] 0)
  | HtlcFailResolution outcome =>
      failLocal obfuscator
        (if decide (outcome = ResultMppTimeout) then FailMPPTimeout
         else FailIncorrectDetails (outgoingAmountMsat htlc) 0)
  end.

(** [rid] identifies the callback handed to the registry. *)
Definition ProcessHtlc (p : MuxConfig) (htlc : interceptedHtlc) (height : Z) (rid : nat) :
    mux_action :=
  match checkPolicy (routingPolicy p) htlc with
  | Some code => fail code
  | None =>
      match DecodeHopIterator Put (onionBlob htlc) (i_hash htlc) (u32 height) with
      | Bad failCode => fail failCode
      | Good iterator =>
          match HopPayload iterator with
          | Bad err => MuxError err
          | Good payload =>
              match ExtractErrorEncrypter iterator with
              | Bad failCode => fail failCode
              | Good obfuscator =>
                  if decide (AmountToForward payload ≠ outgoingAmountMsat htlc) then
                    reply_or_error (failLocal obfuscator
                      (FailFinalIncorrectHtlcAmount (outgoingAmountMsat htlc)))
                  else if decide (OutgoingCTLV payload ≠ outgoingExpiry htlc) then
                    reply_or_error (failLocal obfuscator FailFinalExpiryTooSoon)
                  else
                    let htlcKey := MkHtlcKey (lnd_PubKey p) (ck_ChanID (i_circuitKey htlc))
                                     (ck_HtlcID (i_circuitKey htlc)) in
                    MuxNotify
                      (Registry.MkRegistryHtlc (i_hash htlc) (outgoingAmountMsat htlc)
                         (outgoingExpiry htlc) (i32 height) htlcKey (MultiPath payload) rid)
                      (resolve htlc obfuscator)
              end
          end
      end
  end.

(** ** The loop of [Run] *)

Record mux_state := MkMuxState {
  height : option Z;       (** [None] until the first height has arrived *)
  m_chan : replyChan;      (** the reply channel of the connection *)
  notified : list Registry.registryHtlc;
  next_rid : nat
}.

Inductive mux_event :=
  | MHeight (receivedHeight : Z)
  | MHtlc (htlc : interceptedHtlc)
  | MDone.

Inductive mux_status := MRunning | MReturned (err : option Error).

Definition mux_step (p : MuxConfig) (ev : mux_event) (s : mux_state) :
    outcome (mux_state * mux_status) :=
  match height s, ev with
  | _, MDone => Ok (s, MReturned None)
  | None, MHeight h => Ok (MkMuxState (Some h) (m_chan s) (notified s) (next_rid s), MRunning)
  | None, MHtlc _ => Ok (s, MRunning)
  | Some cur, MHeight h =>
      Ok (MkMuxState (Some (if cur <? h then h else cur)) (m_chan s) (notified s) (next_rid s),
          MRunning)
  | Some cur, MHtlc htlc =>
      if decide (outgoingChanID htlc ≠ virtualChannel p) then
        '(c, _) ← reply htlc (MkResponse RESUME (replicate 32 0) [] 0) (m_chan s);
        Ok (MkMuxState (height s) c (notified s) (next_rid s), MRunning)
      else
        match ProcessHtlc p htlc cur (next_rid s) with
        | MuxReply r =>
            '(c, err) ← reply htlc r (m_chan s);
            Ok (MkMuxState (height s) c (notified s) (next_rid s),
                match err with None => MRunning | Some e => MReturned (Some e) end)
        | MuxNotify h _ =>
            Ok (MkMuxState (height s) (m_chan s) (notified s ++ [h]) (S (next_rid s)), MRunning)
        | MuxError err => Ok (s, MReturned (Some err))
        end
  end.

(** ** Facts *)

(** The policy check without wrap-around. *)
Lemma checkPolicy_exact (p : RoutingPolicy) (htlc : interceptedHtlc) :
  is_u64 (FeeBaseMsat p) → is_u64 (FeeRatePpm p) → is_u32 (CltvDelta p) →
  is_u64 (outgoingAmountMsat htlc) → is_u32 (outgoingExpiry htlc) →
  FeeRatePpm p * outgoingAmountMsat htlc < 2 ^ 64 →
  outgoingAmountMsat htlc + FeeBaseMsat p +
    FeeRatePpm p * outgoingAmountMsat htlc / 1000000 < 2 ^ 64 →
  outgoingExpiry htlc + CltvDelta p < 2 ^ 32 →
  checkPolicy p htlc = None ↔
    outgoingAmountMsat htlc + FeeBaseMsat p + FeeRatePpm p * outgoingAmountMsat htlc / 1000000
      ≤ incomingAmountMsat htlc ∧
    outgoingExpiry htlc + CltvDelta p ≤ incomingExpiry htlc.
Proof.
  unfold is_u64, is_u32. intros Hb Hr Hd Ho He Hm Hs Hx. unfold checkPolicy, expectedFee.
  assert (0 ≤ FeeRatePpm p * outgoingAmountMsat htlc) by nia.
  assert (0 ≤ FeeRatePpm p * outgoingAmountMsat htlc / 1000000) by (apply Z.div_pos; lia).
  rewrite (u64_small (FeeBaseMsat p)), (u64_small (FeeRatePpm p)),
    (u64_small (FeeRatePpm p * _)), (u64_small (FeeBaseMsat p + _)),
    (u64_small (outgoingAmountMsat htlc + _)), (u32_small (CltvDelta p)),
    (u32_small (outgoingExpiry htlc + _)) by (unfold is_u64, is_u32; lia).
  destruct (_ <? _) eqn:E1; [split; [done|lia]|].
  destruct (incomingExpiry htlc <? _) eqn:E2; split; [done|lia|lia|done].
Qed.

(** Everything [ProcessHtlc] has checked when it calls the registry. *)
Lemma ProcessHtlc_Notify p htlc h rid rh f :
  ProcessHtlc p htlc h rid = MuxNotify rh f →
  checkPolicy (routingPolicy p) htlc = None ∧
  ∃ it pl ob, DecodeHopIterator Put (onionBlob htlc) (i_hash htlc) (u32 h) = Good it ∧
    HopPayload it = Good pl ∧ ExtractErrorEncrypter it = Good ob ∧
    AmountToForward pl = outgoingAmountMsat htlc ∧ OutgoingCTLV pl = outgoingExpiry htlc ∧
    rh = Registry.MkRegistryHtlc (i_hash htlc) (outgoingAmountMsat htlc) (outgoingExpiry htlc)
           (i32 h) (MkHtlcKey (lnd_PubKey p) (ck_ChanID (i_circuitKey htlc))
             (ck_HtlcID (i_circuitKey htlc))) (MultiPath pl) rid ∧
    f = resolve htlc ob.
Proof.
  unfold ProcessHtlc, fail, reply_or_error.
  destruct (checkPolicy _ _) as [code|] eqn:Hc; [by destruct (marshallFailureCode code)|].
  destruct (DecodeHopIterator _ _ _ _) as [it|code] eqn:Hd; [|by destruct (marshallFailureCode code)].
  destruct (HopPayload it) as [pl|] eqn:Hp; [|done].
  destruct (ExtractErrorEncrypter it) as [ob|code] eqn:Ho; [|by destruct (marshallFailureCode code)].
  case_decide as Ha; [by destruct (failLocal _ _)|].
  case_decide as He; [by destruct (failLocal _ _)|].
  intros [= <- <-]. split; [done|]. by exists it, pl, ob.
Qed.

(** ** Properties *)

(** C30. What the registry is told is what was paid, as long as the unsigned
    arithmetic of the policy check does not wrap: if the fee rate times the
    outgoing amount, and that amount plus the fee, are below 2^64, and the outgoing
    expiry plus the cltv delta is below 2^32, then an htlc reaches the registry
    only when its amount and expiry are those of the sender's onion and the
    incoming htlc exceeds them by the fee and the cltv delta of the policy, and
    the registry sees its payment hash, amount, expiry and the node's circuit key.
    Beyond these bounds it does not hold ([fee_check_wraps]). *)
Theorem registry_htlc_paid_for (p : MuxConfig) (htlc : interceptedHtlc) (h : Z) (rid : nat)
  (rh : Registry.registryHtlc) (f : HtlcResolution → res interceptedHtlcResponse)
  (Hp : ProcessHtlc p htlc h rid = MuxNotify rh f)
  (Hb : is_u64 (FeeBaseMsat (routingPolicy p))) (Hr : is_u64 (FeeRatePpm (routingPolicy p)))
  (Hd : is_u32 (CltvDelta (routingPolicy p)))
  (Ho : is_u64 (outgoingAmountMsat htlc)) (He : is_u32 (outgoingExpiry htlc))
  (Hm : FeeRatePpm (routingPolicy p) * outgoingAmountMsat htlc < 2 ^ 64)
  (Hs : outgoingAmountMsat htlc + FeeBaseMsat (routingPolicy p) +
          FeeRatePpm (routingPolicy p) * outgoingAmountMsat htlc / 1000000 < 2 ^ 64)
  (Hx : outgoingExpiry htlc + CltvDelta (routingPolicy p) < 2 ^ 32) :
  Registry.rHash rh = i_hash htlc ∧
  Registry.circuitKey rh = MkHtlcKey (lnd_PubKey p) (ck_ChanID (i_circuitKey htlc))
                             (ck_HtlcID (i_circuitKey htlc)) ∧
  Registry.amtPaid rh + FeeBaseMsat (routingPolicy p) +
    FeeRatePpm (routingPolicy p) * Registry.amtPaid rh / 1000000 ≤ incomingAmountMsat htlc ∧
  Registry.expiry rh + CltvDelta (routingPolicy p) ≤ incomingExpiry htlc ∧
  ∃ it pl, DecodeHopIterator Put (onionBlob htlc) (i_hash htlc) (u32 h) = Good it ∧
    HopPayload it = Good pl ∧ Registry.payload rh = MultiPath pl ∧
    AmountToForward pl = Registry.amtPaid rh ∧ OutgoingCTLV pl = Registry.expiry rh.
Proof.
  apply ProcessHtlc_Notify in Hp as (Hc & it & pl & ob & Hdec & Hpl & _ & Ha & Hex & -> & _).
  apply checkPolicy_exact in Hc as [Hfee Hcltv]; [|done..]. simpl.
  split_and!; try done. by exists it, pl.
Qed.

(** The answer of the registry is the answer lnd gets: a settle resolution
    becomes a SETTLE with the preimage; a failure becomes an encrypted
    mpp-timeout message if the set timed out and an incorrect-details message
    for the htlc's amount otherwise. *)
Theorem resolution_reply (p : MuxConfig) (htlc : interceptedHtlc) (h : Z) (rid : nat)
  (rh : Registry.registryHtlc) (f : HtlcResolution → res interceptedHtlcResponse)
  (Hp : ProcessHtlc p htlc h rid = MuxNotify rh f) :
  (∀ pre x, f (HtlcSettleResolution pre x) = Good (MkResponse SETTLE pre [] 0)) ∧
  ∃ ob, ∀ outcome,
    match EncryptFirstHop ob (if decide (outcome = ResultMppTimeout) then FailMPPTimeout
                              else FailIncorrectDetails (Registry.amtPaid rh) 0) with
    | Good reason => f (HtlcFailResolution outcome) = Good (MkResponse FAIL (replicate 32 0) reason 0)
    | Bad err => f (HtlcFailResolution outcome) = Bad err
    end.
Proof.
  apply ProcessHtlc_Notify in Hp as (_ & it & pl & ob & _ & _ & _ & _ & _ & -> & ->).
  split; [done|]. exists ob. intros outcome. simpl. unfold failLocal, mbind, result_bind.
  by destruct (EncryptFirstHop _ _).
Qed.

(** A malformed payload stops the multiplexer: an htlc for the virtual
    channel that satisfies the policy and whose onion decodes, but whose
    payload does not parse, is not answered; [Run] returns the parse error,
    which ends the process. *)
Theorem malformed_payload_stops_mux (p : MuxConfig) (htlc : interceptedHtlc) (s : mux_state)
  (cur : Z) (it : Iterator) (err : Error) (Hh : height s = Some cur)
  (Hv : outgoingChanID htlc = virtualChannel p)
  (Hc : checkPolicy (routingPolicy p) htlc = None)
  (Hd : DecodeHopIterator Put (onionBlob htlc) (i_hash htlc) (u32 cur) = Good it)
  (He : HopPayload it = Bad err) :
  mux_step p (MHtlc htlc) s = Ok (s, MReturned (Some err)).
Proof.
  unfold mux_step, ProcessHtlc. rewrite Hh, Hc, Hd, He.
  rewrite decide_False; [done|]. intros Hn. by apply Hn.
Qed.

(** Htlcs that are not for the multiplexer pass: one whose outgoing channel
    is not the virtual channel gets a RESUME under its own key and changes
    nothing else, even when the reply queue refuses it. *)
Theorem foreign_htlc_resumed (p : MuxConfig) (htlc : interceptedHtlc) (s : mux_state) (cur : Z)
  (Hh : height s = Some cur) (Hv : outgoingChanID htlc ≠ virtualChannel p)
  (Hok : chan_ok (m_chan s)) :
  ∃ c, mux_step p (MHtlc htlc) s =
         Ok (MkMuxState (height s) c (notified s) (next_rid s), MRunning) ∧ chan_ok c ∧
    (buf c = buf (m_chan s) ++ [MkQueuedReply (i_circuitKey htlc) (i_hash htlc)
                                  (MkResponse RESUME (replicate 32 0) [] 0)] ∨
     buf c = buf (m_chan s)).
Proof.
  unfold mux_step. rewrite Hh, decide_True by done.
  destruct (reply_ok htlc (MkResponse RESUME (replicate 32 0) [] 0) (m_chan s) Hok)
    as (c & e & -> & Hc & Hb).
  exists c. split; [done|]. split; [done|]. rewrite Hb. destruct e; [right|by left].
  by rewrite app_nil_r.
Qed.

(** The heights the loop has received. *)
Fixpoint mux_run (p : MuxConfig) (evs : list mux_event) (s : mux_state) :
    outcome (mux_state * mux_status) :=
  match evs with
  | [] => Ok (s, MRunning)
  | ev :: evs' =>
      '(s', st) ← mux_step p ev s;
      match st with MRunning => mux_run p evs' s' | _ => Ok (s', st) end
  end.

(** The mux works with the best block: after any sequence of heights its
    height is the largest of them. *)
Theorem height_is_maximum (p : MuxConfig) (h : Z) (hs : list Z) (c : replyChan)
  (n : list Registry.registryHtlc) (r : nat) :
  mux_run p (MHeight <$> h :: hs) (MkMuxState None c n r) =
  Ok (MkMuxState (Some (foldr Z.max h hs)) c n r, MRunning).
Proof.
  simpl. revert h. induction hs as [|x hs IH]; intros h; simpl; [done|]. rewrite IH.
  assert (E : ∀ l a b, foldr Z.max (Z.max a b) l = Z.max a (foldr Z.max b l)).
  { induction l as [|y l IHl]; intros a b; simpl; [done|]. rewrite IHl. lia. }
  do 4 f_equal. rewrite <- E. f_equal. destruct (h <? x) eqn:Hx; lia.
Qed.

End Mux.

(** C31. A payer who follows the hop hint passes, if the policy fits in the widths
    of the hint (32 bits for the fees, 16 bits for the cltv delta), the amount
    times the fee rate fits in 63 bits and the expiry in 31 bits: then an htlc that
    carries the fee of the hint that the creator makes for a gateway, and its cltv
    delta, satisfies the policy check of the mux. *)
Theorem hop_hint_satisfies_policy {Net} `{Btcec} (c : Creator.InvoiceCreator (Net := Net))
  (gw : PublicKey)
  (Hbase : 0 ≤ FeeBaseMsat (Creator.routingPolicy c) < 2 ^ 32)
  (Hppm : 0 ≤ FeeRatePpm (Creator.routingPolicy c) < 2 ^ 32)
  (Hcltv : 0 ≤ CltvDelta (Creator.routingPolicy c) < 2 ^ 16) (htlc : interceptedHtlc)
  (Ha : 0 ≤ outgoingAmountMsat htlc < 2 ^ 63)
  (Hm : FeeRatePpm (Creator.routingPolicy c) * outgoingAmountMsat htlc < 2 ^ 63)
  (He : 0 ≤ outgoingExpiry htlc < 2 ^ 31) :
  let hint := Creator.hopHint c gw in
  outgoingAmountMsat htlc + Creator.FeeBaseMSat hint +
    Creator.FeeProportionalMillionths hint * outgoingAmountMsat htlc / 1000000
    ≤ incomingAmountMsat htlc →
  outgoingExpiry htlc + Creator.CLTVExpiryDelta hint ≤ incomingExpiry htlc →
  checkPolicy (Creator.routingPolicy c) htlc = None.
Proof.
  simpl. set (pol := Creator.routingPolicy c) in *.
  rewrite !u32_small, u16_small by (unfold is_u32; lia). intros Hamt Hexp.
  assert (Hdiv : FeeRatePpm pol * outgoingAmountMsat htlc / 1000000 < 2 ^ 62).
  { apply Z.div_lt_upper_bound; lia. }
  apply checkPolicy_exact; unfold is_u64, is_u32; try lia.
Qed.

Definition a_ring : KeyRing.KeyRing (H := XorGroup.xor_btcec) := KeyRing.NewKeyRing (replicate 32 9).

Lemma hop_hint_satisfies_policy_witness :
  checkPolicy (MkRoutingPolicy 40 1000 100)
    (MkIntercepted (MkCircuitKey 1 1) [] [] 2001200 2000000 140 100 7) = None.
Proof.
  apply (hop_hint_satisfies_policy (Net := unit) (H := XorGroup.xor_btcec)
    (Creator.MkInvoiceCreator a_ring [KeyRing.pubKey a_ring] tt
       (KeyRing.MkKeyDescriptor Creator.nodeKeyLocator (KeyRing.pubKey a_ring))
       (MkRoutingPolicy 40 1000 100)) (KeyRing.pubKey a_ring)); simpl; try lia.
  - vm_compute. discriminate.
  - vm_compute. discriminate.
Defined.

(** Without the condition on the width it fails: the hint carries the lower 16
    bits of a larger cltv delta, and an htlc that follows it exactly is failed. *)
Theorem wide_cltv_delta_fails {Net} `{Btcec} (c : Creator.InvoiceCreator (Net := Net)) (gw : PublicKey)
  (Hcltv : 2 ^ 16 ≤ CltvDelta (Creator.routingPolicy c) < 2 ^ 31) (htlc : interceptedHtlc)
  (He : 0 ≤ outgoingExpiry htlc < 2 ^ 31)
  (Hexp : incomingExpiry htlc = outgoingExpiry htlc + Creator.CLTVExpiryDelta (Creator.hopHint c gw)) :
  checkPolicy (Creator.routingPolicy c) htlc ≠ None.
Proof.
  simpl in Hexp. set (pol := Creator.routingPolicy c) in *. unfold checkPolicy.
  destruct (_ <? u64 _); [done|].
  rewrite (u32_small (CltvDelta pol)), u32_small by (unfold is_u32; lia).
  assert (u16 (CltvDelta pol) < 2 ^ 16) by (unfold u16; apply Z.mod_pos_bound; lia).
  by rewrite (proj2 (Z.ltb_lt _ _)) by lia.
Qed.

(** The fee check wraps around: whatever the base fee is, an htlc that claims
    to forward an amount less than that fee below 2^64 needs to carry only the
    wrapped sum. *)
Theorem fee_check_wraps (pol : RoutingPolicy) (htlc : interceptedHtlc)
  (Hppm : FeeRatePpm pol = 0) (Hbase : 0 < FeeBaseMsat pol < 2 ^ 63)
  (Hout : 2 ^ 64 - FeeBaseMsat pol ≤ outgoingAmountMsat htlc < 2 ^ 64)
  (Hin : outgoingAmountMsat htlc + FeeBaseMsat pol - 2 ^ 64 ≤ incomingAmountMsat htlc)
  (Hexp : u32 (outgoingExpiry htlc + u32 (CltvDelta pol)) ≤ incomingExpiry htlc) :
  checkPolicy pol htlc = None.
Proof.
  unfold checkPolicy, expectedFee. rewrite Hppm, (u64_small 0), Z.mul_0_l, (u64_small 0) by lia.
  change (0 / 1000000) with 0. rewrite Z.add_0_r, !(u64_small (FeeBaseMsat pol)) by lia.
  replace (u64 _) with (outgoingAmountMsat htlc + FeeBaseMsat pol - 2 ^ 64).
  - by rewrite !(proj2 (Z.ltb_ge _ _)).
  - unfold u64. apply Z.mod_unique with 1; lia.
Qed.

(** ** A concrete onion processor *)

Module Witness.

(** Onions are one byte: 0 does not decode, 1 has a malformed payload, any other
    one is a payload of 100 msat with expiry 100. *)
#[local] Instance byte_onion : Onion := {
  Iterator := Z;
  Obfuscator := unit;
  DecodeHopIterator _ b _ _ :=
    match b with [x] => if decide (x = 0) then Bad CodeInvalidOnionHmac else Good x
               | _ => Bad CodeInvalidOnionVersion end;
  HopPayload x := if decide (x = 1) then Bad (ErrExternal "malformed payload")
                  else Good (MkOnionPayload 100 100 None);
  ExtractErrorEncrypter _ := Good tt;
  EncryptFirstHop _ m := Good (match m with FailMPPTimeout => [23] | _ => [15] end)
}.

Definition mux : MuxConfig := MkMux (replicate 33 2) (MkRoutingPolicy 40 0 0) 7.
Definition an_htlc (onion : Z) : interceptedHtlc :=
  MkIntercepted (MkCircuitKey 1 1) [] [onion] 100 100 140 100 7.

Definition an_registryHtlc : Registry.registryHtlc :=
  Registry.MkRegistryHtlc [] 100 100 90 (MkHtlcKey (replicate 33 2) 1 1) None 5.

Definition an_obfuscator : Obfuscator := tt.
Definition malformed : Iterator := 1.
Definition a_resolve : HtlcResolution → res interceptedHtlcResponse :=
  resolve (an_htlc 2) an_obfuscator.

Lemma an_htlc_processed :
  ProcessHtlc mux (an_htlc 2) 90 5 = MuxNotify an_registryHtlc a_resolve.
Proof. reflexivity. Qed.

Lemma registry_htlc_paid_for_witness :
  Registry.amtPaid an_registryHtlc + 0 + 0 * Registry.amtPaid an_registryHtlc / 1000000 ≤ 100.
Proof.
  apply (registry_htlc_paid_for mux (an_htlc 2) 90 5 an_registryHtlc a_resolve
           an_htlc_processed); vm_compute; repeat split; discriminate.
Defined.

Lemma resolution_reply_witness :
  a_resolve (HtlcSettleResolution [1] ResultSettled) = Good (MkResponse SETTLE [1] [] 0).
Proof.
  exact (proj1 (resolution_reply mux (an_htlc 2) 90 5 an_registryHtlc a_resolve
                  an_htlc_processed) [1] ResultSettled).
Defined.

Lemma malformed_payload_stops_mux_witness :
  mux_step mux (MHtlc (an_htlc 1)) (MkMuxState (Some 90) new_replyChan [] 0) =
  Ok (MkMuxState (Some 90) new_replyChan [] 0, MReturned (Some (ErrExternal "malformed payload"))).
Proof.
  apply (malformed_payload_stops_mux mux (an_htlc 1) (MkMuxState (Some 90) new_replyChan [] 0) 90 malformed
    (ErrExternal "malformed payload")); reflexivity.
Defined.

Lemma foreign_htlc_resumed_witness :
  ∃ c, mux_step mux (MHtlc (MkIntercepted (MkCircuitKey 1 1) [] [2] 100 100 140 100 8))
         (MkMuxState (Some 90) new_replyChan [] 0) =
       Ok (MkMuxState (Some 90) c [] 0, MRunning).
Proof.
  destruct (foreign_htlc_resumed mux (MkIntercepted (MkCircuitKey 1 1) [] [2] 100 100 140 100 8)
    (MkMuxState (Some 90) new_replyChan [] 0) 90) as (c & Hc & _).
  - reflexivity.
  - simpl. lia.
  - split; [reflexivity|]. simpl. lia.
  - exists c. exact Hc.
Defined.

End Witness.
End Mux.
