(* ===== verification/SettledHandler.v ===== *)
(** Final resolutions: [node_settled_handler.go] records what lnd reports about
    htlcs, [settled_handler.go] wakes the callers that wait for an invoice. *)

From stdpp Require Import numbers strings relations base fin_maps gmap list.
From stdpp Require Import options.
From S2P Require Import Prelude Sha256 Types Persistence PersistenceFacts.

(** ** node_settled_handler.go *)
Module NodeSettled.
Import PgFacts.

(** [routerrpc.HtlcEvent]: final htlc events carry the outcome. *)
Inductive HtlcEvent :=
  | FinalHtlcEvent (key : CircuitKey) (settled : bool)
  | OtherHtlcEvent (key : CircuitKey).

(** The clock and the database connection of one transaction. *)
Record txEnv := MkTxEnv { tx_now : Time; tx_fault : option string }.

(** The new database, the calls of [finalCallback] and the error. *)
Definition handleFinalHtlc (node : bytes) (env : txEnv) (key : CircuitKey) (settled : bool)
    (db : Pg.database) : Pg.database * list (Hash * bool) * option Error :=
  let htlcKey := MkHtlcKey node (ck_ChanID key) (ck_HtlcID key) in
  match Pg.MarkHtlcFinal (tx_fault env) (tx_now env) htlcKey settled db with
  | (db', Bad err) =>
      if decide (err = ErrHtlcAlreadyFinal) then (db', [], None)
      else if decide (err = ErrHtlcNotFound) then (db', [], None)
      else (db', [], Some (ErrWrap "unable to finalize htlc" err))
  | (db', Good (Some invoiceHash)) => (db', [(invoiceHash, settled)], None)
  | (db', Good None) => (db', [], None)
  end.

Section Handler.
Context `{Lntypes}.

(** The database is shared: the registry stores settle requests and the handlers
    of the other nodes mark htlcs while this handler runs. [others key], and the
    calls that come with an event, are the transactions that commit before the
    handler's own transaction for it.

    The loop over the pending htlcs; [lookup] is [lnd.LookupHtlc]. *)
Fixpoint lookupPending (node : bytes) (others : CircuitKey → list call) (env : CircuitKey → txEnv)
    (lookup : CircuitKey → res bool) (keys : list CircuitKey) (db : Pg.database) :
    Pg.database * list (Hash * bool) * option Error :=
  match keys with
  | [] => (db, [], None)
  | key :: keys' =>
      let db := (run_calls (others key) db).1 in
      match lookup key with
      | Bad err =>
          if decide (err = ErrLndHtlcNotFound) then lookupPending node others env lookup keys' db
          else (db, [], Some err)
      | Good settled =>
          match handleFinalHtlc node (env key) key settled db with
          | (db1, cbs, Some err) => (db1, cbs, Some err)
          | (db1, cbs, None) =>
              let '(db2, cbs2, e) := lookupPending node others env lookup keys' db1 in
              (db2, cbs ++ cbs2, e)
          end
      end
  end.

(** What [recv] returns, the environment of the transaction that handles it, and
    the transactions of others before it. *)
Record received := MkReceived { rc_others : list call; rc_env : txEnv; rc_event : res HtlcEvent }.

(** The loop over the stream; the handler is still running at the end of the
    events received so far. *)
Fixpoint receiveEvents (node : bytes) (events : list received) (db : Pg.database) :
    Pg.database * list (Hash * bool) * option Error :=
  match events with
  | [] => (db, [], None)
  | ev :: events' =>
      let db := (run_calls (rc_others ev) db).1 in
      match rc_event ev with
      | Bad err => (db, [], Some err)
      | Good (OtherHtlcEvent _) => receiveEvents node events' db
      | Good (FinalHtlcEvent key settled) =>
          match handleFinalHtlc node (rc_env ev) key settled db with
          | (db1, cbs, Some err) => (db1, cbs, Some err)
          | (db1, cbs, None) =>
              let '(db2, cbs2, e) := receiveEvents node events' db1 in (db2, cbs ++ cbs2, e)
          end
      end
  end.

(** [keys] lists the pending htlcs in the order of Go's map iteration. *)
Definition subscribeEvents (notifier_err : option Error) (pending_fault : option string)
    (node : bytes) (others : CircuitKey → list call) (env : CircuitKey → txEnv)
    (lookup : CircuitKey → res bool) (order : list CircuitKey → list CircuitKey)
    (events : list received) (db : Pg.database) : Pg.database * list (Hash * bool) * option Error :=
  match notifier_err with
  | Some err => (db, [], Some err)
  | None =>
      match Pg.GetPendingHtlcs pending_fault node db with
      | Bad err => (db, [], Some err)
      | Good pending =>
          match lookupPending node others env lookup (order (elements pending)) db with
          | (db1, cbs, Some err) => (db1, cbs, Some err)
          | (db1, cbs, None) =>
              let '(db2, cbs2, e) := receiveEvents node events db1 in (db2, cbs ++ cbs2, e)
          end
      end
  end.
End Handler.

(** What [Run] does when [subscribeEvents] has returned [err]. *)
Inductive retry := RetryNow | RetryLater | Stop.

Definition Run_next (err : Error) : retry :=
  if decide (err = ErrDeadlineExceeded) then RetryNow
  else if decide (err = ErrCanceled) then Stop
  else RetryLater.

(** *** Facts *)

Definition htlc_key (node : bytes) (key : CircuitKey) : HtlcKey :=
  MkHtlcKey node (ck_ChanID key) (ck_HtlcID key).

Definition circuit_key (k : HtlcKey) : CircuitKey := MkCircuitKey (ChanID k) (HtlcID k).

Definition final_status (settled : bool) : HtlcStatus :=
  if settled then HtlcStatusSettled else HtlcStatusFailed.

(** The htlc is stored with this outcome. *)
Definition recorded (node : bytes) (key : CircuitKey) (settled : bool) (db : Pg.database) : Prop :=
  ∃ r, Pg.htlcs db !! htlc_key node key = Some r ∧ Pg.h_Status r = final_status settled.

Section Facts.
Context `{Lntypes}.
Context (outcome : CircuitKey → bool) (node : bytes).

(** What is stored as final is what happened to the htlcs of the node. *)
Definition truthful (db : Pg.database) : Prop :=
  ∀ k r, Pg.htlcs db !! k = Some r → Node k = node → ¬ htlc_pending r →
    Pg.h_Status r = final_status (outcome (circuit_key k)).

(** A transaction of another goroutine; if it marks an htlc of the node, then with
    its outcome. *)
Definition honest (c : call) : Prop :=
  call_ok c ∧
  match c with
  | CallMarkHtlcFinal _ _ k settled => Node k = node → settled = outcome (circuit_key k)
  | _ => True
  end.

Definition honest_event (ev : received) : Prop :=
  Forall honest (rc_others ev) ∧
  ∀ key settled, rc_event ev = Good (FinalHtlcEvent key settled) → settled = outcome key.

Definition good (db : Pg.database) : Prop := consistent db ∧ truthful db.

(** [db'] is a later, still truthful database. *)
Definition later (db db' : Pg.database) : Prop := good db' ∧ db_le db db'.

Lemma later_trans a b c : later a b → later b c → later a c.
Proof. intros [_ H1] [H2 H3]. split; [done|]. by etrans. Qed.

Lemma recorded_later key settled db db' :
  later db db' → recorded node key settled db → recorded node key settled db'.
Proof.
  intros [_ Hle] (r & Hr & Hs). destruct (le_htlcs _ _ Hle _ _ Hr) as (r' & Hr' & _ & _ & E).
  exists r'. split; [done|]. rewrite E; [done|]. rewrite Hs. by destruct settled.
Qed.

Lemma mark_later fault now k settled db db' o :
  (Node k = node → settled = outcome (circuit_key k)) → good db →
  Pg.MarkHtlcFinal fault now k settled db = (db', o) → later db db'.
Proof.
  intros Hs [Hc Ht] Hm. split; [|by eapply db_le_MarkHtlcFinal].
  split; [by eapply consistent_MarkHtlcFinal|].
  apply MarkHtlcFinal_cases in Hm as [[-> _]|(h & _ & Htx)]; [done|].
  apply markHtlcFinal_Good in Htx as (r0 & inv & _ & _ & _ & _ & Eh & _).
  intros k' r Hr Hn Hp. rewrite Eh, lookup_insert_Some in Hr.
  destruct Hr as [[<- <-]|[_ Hr]]; [|by apply Ht]. simpl. by rewrite Hs.
Qed.

Lemma request_later fault now invoice hs db db' o :
  hs ≠ ∅ → good db → Pg.RequestSettle fault now invoice hs db = (db', o) → later db db'.
Proof.
  intros Hne [Hc Ht] Hm. split; [|by eapply db_le_RequestSettle].
  split; [by eapply consistent_RequestSettle|]. destruct o as [e|].
  { apply RequestSettle_err in Hm as [_ Eh]. intros k r. rewrite Eh. apply Ht. }
  apply RequestSettle_ok in Hm as (_ & _ & _ & _ & Eh & _). intros k r Hr Hn Hp.
  rewrite Eh, lookup_union_Some_raw in Hr. destruct Hr as [Hr|[_ Hr]]; [|by apply Ht].
  unfold new_rows in Hr. rewrite lookup_fmap, fmap_Some in Hr. destruct Hr as (a & _ & ->). by destruct Hp.
Qed.

Lemma calls_later cs db : Forall honest cs → good db → later db (run_calls cs db).1.
Proof.
  intros Hcs. revert db. induction Hcs as [|c cs [Hok Hc] _ IH]; intros db Hg; simpl; [by split|].
  destruct (do_call c db) as [db1 o] eqn:E.
  assert (later db db1) as Hl.
  { destruct c as [f now inv hs|f now key st]; simpl in *.
    - destruct (Pg.RequestSettle f now inv hs db) eqn:E2. simplify_eq/=. by eapply request_later.
    - destruct (Pg.MarkHtlcFinal f now key st db) eqn:E2. simplify_eq/=. by eapply mark_later. }
  specialize (IH db1 (proj1 Hl)). destruct (run_calls cs db1) as [db2 outs]. by eapply later_trans.
Qed.

(** The handler leaves the report of lnd in the row, if there is one. *)
Lemma handleFinalHtlc_later env key db db' cbs e :
  good db → handleFinalHtlc node env key (outcome key) db = (db', cbs, e) →
  later db db' ∧ (e = None → is_Some (Pg.htlcs db !! htlc_key node key) →
                  recorded node key (outcome key) db').
Proof.
  intros Hg. unfold handleFinalHtlc. fold (htlc_key node key).
  destruct (Pg.MarkHtlcFinal _ _ _ _ _) as [db1 o] eqn:Hm. intros Hres.
  assert (db1 = db' ∧ (e = None → tx_fault env = None)) as [-> Hf].
  { revert Hm Hres. unfold Pg.MarkHtlcFinal. destruct (tx_fault env) as [f|].
    - intros [= <- <-]. rewrite !decide_False by done. intros [= <- _ <-].
      split; [done|by intros [=]].
    - intros _. destruct o as [[h|]|err]; [..|repeat case_decide]; by intros [= <- _ _]. }
  clear Hres. assert (circuit_key (htlc_key node key) = key) as Ek by (by destruct key).
  assert (later db db') as Hl by (eapply mark_later; [|done..]; intros _; by rewrite Ek).
  split; [done|]. intros He [r Hr]. destruct Hl as [[Hc' Ht'] Hle].
  destruct (le_htlcs _ _ Hle _ _ Hr) as (r' & Hr' & _). exists r'. split; [done|].
  rewrite Hf in Hm by done. rewrite <- Ek. apply Ht'; [done..|].
  eapply markHtlcFinal_done; [exact (proj1 Hg)|exact Hm|exact Hr'].
Qed.

Lemma row_later k db db' : later db db' → is_Some (Pg.htlcs db !! k) → is_Some (Pg.htlcs db' !! k).
Proof. intros [_ Hle] [r Hr]. apply (le_htlcs _ _ Hle) in Hr as (r' & ? & _). eauto. Qed.

Lemma lookupPending_later others env lookup keys db db' cbs e :
  (∀ key, Forall honest (others key)) → (∀ key settled, lookup key = Good settled → settled = outcome key) →
  good db → lookupPending node others env lookup keys db = (db', cbs, e) →
  later db db' ∧ (e = None → ∀ key settled, key ∈ keys → lookup key = Good settled →
    is_Some (Pg.htlcs db !! htlc_key node key) → recorded node key (outcome key) db').
Proof.
  intros Hoth Hlk. revert db db' cbs e. induction keys as [|k keys IH]; intros db db' cbs e Hg; simpl.
  { intros [= <- _ _]. split; [by split|]. intros _ key settled Hk. by apply elem_of_nil in Hk. }
  pose proof (calls_later (others k) db (Hoth k) Hg) as Hl0. set (db0 := (run_calls (others k) db).1) in *.
  destruct (lookup k) as [settled|err] eqn:Hl.
  - pose proof (Hlk _ _ Hl) as ->. destruct (handleFinalHtlc _ _ _ _ _) as [[db1 c1] e1] eqn:Hh.
    apply handleFinalHtlc_later in Hh as [Hl1 Hrec]; [|apply Hl0].
    pose proof (later_trans _ _ _ Hl0 Hl1) as Hl01.
    destruct e1 as [e1|]; [by intros [= <- _ <-]|].
    destruct (lookupPending _ _ _ _ _ db1) as [[db2 c2] e2] eqn:Hr. intros [= <- _ <-].
    apply IH in Hr as [Hl2 Hrec2]; [|apply Hl1]. split; [by eapply later_trans|].
    intros He key st [->|Hin]%elem_of_cons Hk Hrow.
    + eapply recorded_later; [done|]. apply Hrec; [done|]. by eapply row_later.
    + eapply Hrec2; [done..|]. by eapply row_later.
  - case_decide; [|intros [= <- _ <-]; by split]. intros Hr. apply IH in Hr as [Hl1 Hrec]; [|apply Hl0].
    split; [by eapply later_trans|]. intros He key st [->|Hin]%elem_of_cons Hk Hrow; [congruence|].
    eapply Hrec; [done..|]. by eapply row_later.
Qed.

Lemma receiveEvents_later events db db' cbs e :
  Forall honest_event events → good db → receiveEvents node events db = (db', cbs, e) → later db db'.
Proof.
  intros Hev. revert db db' cbs e. induction Hev as [|ev events [Hoth Hf] _ IH]; intros db db' cbs e Hg; simpl.
  { intros [= <- _ _]. by split. }
  pose proof (calls_later _ db Hoth Hg) as Hl0. set (db0 := (run_calls (rc_others ev) db).1) in *.
  destruct (rc_event ev) as [[k settled|k]|err] eqn:Hre.
  - pose proof (Hf _ _ eq_refl) as ->. destruct (handleFinalHtlc _ _ _ _ _) as [[db1 c1] e1] eqn:Hh.
    apply handleFinalHtlc_later in Hh as [Hl1 _]; [|apply Hl0].
    pose proof (later_trans _ _ _ Hl0 Hl1) as Hl01.
    destruct e1 as [e1|]; [by intros [= <- _ _]|].
    destruct (receiveEvents _ _ db1) as [[db2 c2] e2] eqn:Hr. intros [= <- _ _].
    apply IH in Hr; [|apply Hl1]. by eapply later_trans.
  - intros Hr. apply IH in Hr; [|apply Hl0]. by eapply later_trans.
  - by intros [= <- _ _].
Qed.
End Facts.

Lemma receiveEvents_app `{Lntypes} node evs evs' db :
  receiveEvents node (evs ++ evs') db =
  match receiveEvents node evs db with
  | (db1, c1, Some e) => (db1, c1, Some e)
  | (db1, c1, None) => let '(db2, c2, e) := receiveEvents node evs' db1 in (db2, c1 ++ c2, e)
  end.
Proof.
  revert db. induction evs as [|ev evs IH]; intros db; simpl; [by destruct (receiveEvents _ _ _) as [[??]?]|].
  destruct (rc_event ev) as [[k settled|k]|err]; [|by rewrite IH|done].
  destruct (handleFinalHtlc _ _ _ _ _) as [[db1 c1] [e|]]; [done|]. rewrite IH.
  destruct (receiveEvents node evs db1) as [[db2 c2] [e|]]; [done|].
  destruct (receiveEvents node evs' db2) as [[db3 c3] e3]. by rewrite app_assoc.
Qed.

(** *** Properties *)

(** C28. Every final resolution is recorded as lnd reports it, while the registry
    and the other handlers use the same database. [outcome] is what happened to
    the htlcs of the node; lnd's lookups and events agree with it, and so does
    what is stored as final at the start and by others. As long as the handler
    has not returned an error: every htlc that was pending when it subscribed and
    that lnd knows as resolved, and every htlc of a final event whose row was
    stored when the event was handled, has a row with the status of its outcome,
    settled or failed. The settle request of an htlc is stored before lnd is told
    to settle it ([settle_responses_are_paid]); a row that is stored later than
    its event is found by the lookups of the next subscription. *)
Theorem final_resolutions_recorded `{Lntypes} (outcome : CircuitKey → bool) (node : bytes)
  (db : Pg.database) (Hc : consistent db) (Hdb : truthful outcome node db)
  (others : CircuitKey → list call) (Hothers : ∀ key, Forall (honest outcome node) (others key))
  (env : CircuitKey → txEnv) (lookup : CircuitKey → res bool)
  (Hlookup : ∀ key settled, lookup key = Good settled → settled = outcome key)
  (order : list CircuitKey → list CircuitKey) (Horder : ∀ l, order l ≡ₚ l)
  (events : list received) (Hevents : Forall (honest_event outcome node) events)
  (db' : Pg.database) (cbs : list (Hash * bool))
  (Hrun : subscribeEvents None None node others env lookup order events db = (db', cbs, None))
  (key : CircuitKey) :
  (∀ r settled, Pg.htlcs db !! htlc_key node key = Some r → htlc_pending r → lookup key = Good settled →
     recorded node key (outcome key) db') ∧
  (∀ before ev settled after, events = before ++ ev :: after →
     rc_event ev = Good (FinalHtlcEvent key settled) →
     let handled := subscribeEvents None None node others env lookup order before db in
     is_Some (Pg.htlcs (run_calls (rc_others ev) handled.1.1).1 !! htlc_key node key) →
     recorded node key (outcome key) db').
Proof.
  revert Hrun. unfold subscribeEvents; simpl.
  set (keys := elements _). destruct (lookupPending _ _ _ _ _ db) as [[db1 c1] [e|]] eqn:Hl; [done|].
  destruct (receiveEvents node events db1) as [[db2 c2] e2] eqn:Hr. intros [= -> _ ->].
  eapply lookupPending_later in Hl as [[Hg1 Hle1] Hrec]; [|done..].
  assert (later outcome node db1 db') as Hl2 by by eapply receiveEvents_later.
  split.
  - intros r settled Hrow Hp Hlk. eapply recorded_later; [done|]. eapply Hrec; [done| |done|by eexists].
    rewrite Horder. unfold keys. apply elem_of_elements.
    apply elem_of_list_to_set, list_elem_of_fmap. destruct key as [c i].
    exists (MkHtlcKey node c i, r). split; [done|]. apply list_elem_of_filter. split; [done|].
    by apply elem_of_map_to_list.
  - intros before ev settled after -> Hev.
    apply Forall_app in Hevents as [Hbefore [[Hoth Hf] Hafter]%Forall_cons].
    rewrite receiveEvents_app in Hr.
    destruct (receiveEvents node before db1) as [[db3 c3] [e3|]] eqn:Hr3; [done|]. simpl. intros Hrow.
    eapply receiveEvents_later in Hr3 as [Hg3 _]; [|done..]. revert Hr. simpl. rewrite Hev.
    pose proof (Hf _ _ Hev) as ->.
    destruct (handleFinalHtlc _ _ _ _ _) as [[db4 c4] e4] eqn:Hh.
    apply handleFinalHtlc_later in Hh as [Hl4 Hrec4]; [|by eapply calls_later].
    destruct e4 as [e4|]; [done|].
    destruct (receiveEvents node after db4) as [[db5 c5] e5] eqn:Hr5. intros [= -> _ ->].
    eapply receiveEvents_later in Hr5; [|done|apply Hl4].
    eapply recorded_later; [done|]. by apply Hrec4.
Qed.

(** A final event that repeats what the lookup already recorded is not
    ignored when it was the last htlc of its invoice: the second report is an
    error that ends the subscription. *)
Theorem duplicate_final_event_ends_subscription (db db1 : Pg.database) (Hc : consistent db)
  (node : bytes) (now now' : Time) (key : CircuitKey) (h : Hash) (cbs : list (Hash * bool))
  (Hfirst : handleFinalHtlc node (MkTxEnv now None) key true db = (db1, (h, true) :: cbs, None)) :
  handleFinalHtlc node (MkTxEnv now' None) key true db1 =
  (db1, [], Some (ErrWrap "unable to finalize htlc" ErrHtlcReceivedButInvoiceAlreadySettled)).
Proof.
  revert Hfirst. unfold handleFinalHtlc; simpl. set (k := MkHtlcKey _ _ _).
  destruct (Pg.markHtlcFinal_tx now k true db) as [[db2 [h2|]]|e] eqn:Htx;
    [| |repeat case_decide; done]; [|done].
  intros [= -> -> ->].
  apply markHtlcFinal_Good in Htx as (r & inv & Hr & Hinv & _ & _ & Eh & Hcase).
  destruct Hcase as [([=] & _)|([= ->] & _ & Ei & _)].
  unfold Pg.markHtlcFinal_tx, Pg.selectInvoiceForUpdate, Pg.getHtlcHash, mbind, result_bind.
  rewrite Eh, lookup_insert_eq. simpl. rewrite Ei, lookup_insert_eq. done.
Qed.

(** *** The invoice of two htlcs of [PgFacts.Example] *)

Module Witness.
Import RealLntypes PgFacts.Example.

Definition ck1 : CircuitKey := MkCircuitKey 10 11.
Definition ck2 : CircuitKey := MkCircuitKey 11 12.
Definition tx (t : Z) : txEnv := MkTxEnv t None.
Definition lnd_lookup (k : CircuitKey) : res bool :=
  if decide (k = ck1) then Good true else Bad ErrLndHtlcNotFound.

Lemma requested_consistent : consistent requested.
Proof.
  apply (consistent_RequestSettle None 1 inv hs Pg.empty_database requested None).
  - exact hs_nonempty.
  - exact consistent_empty.
  - vm_compute. reflexivity.
Qed.

(** lnd has settled both htlcs. The first is pending when the handler subscribes;
    the registry stores another invoice, and then the event of the second comes. *)
Definition other_inv : InvoiceCreationData := MkInvoiceCreationData (2 :: replicate 31 0) 5 (2 :: replicate 31 0).
Definition other_call : call :=
  CallRequestSettle None 8 other_inv {[MkHtlcKey node 12 13 := 5]}.
Definition stream : list received :=
  [MkReceived [other_call] (tx 9) (Good (FinalHtlcEvent ck2 true))].
Definition handled : Pg.database * list (Hash * bool) * option Error :=
  subscribeEvents None None node (λ _, []) (λ _, tx 7) lnd_lookup id stream requested.

Lemma surjective_pairing3 {A B C} (p : A * B * C) : p = (p.1.1, p.1.2, p.2).
Proof. by destruct p as [[]]. Qed.

Lemma requested_truthful : truthful (λ _, true) node requested.
Proof.
  refine (proj2 (proj1 (request_later (λ _, true) node None 1 inv hs Pg.empty_database requested None
    hs_nonempty _ _))); [|vm_compute; reflexivity].
  split; [exact consistent_empty|]. intros k r. simpl. by rewrite lookup_empty.
Qed.

Lemma final_resolutions_recorded_witness :
  handled.2 = None ∧ recorded node ck1 true handled.1.1 ∧ recorded node ck2 true handled.1.1.
Proof.
  assert (He : handled.2 = None) by (vm_compute; reflexivity). split; [exact He|].
  assert (Hrun : subscribeEvents None None node (λ _, []) (λ _, tx 7) lnd_lookup id stream requested =
    (handled.1.1, handled.1.2, None)) by (rewrite <- He; exact (surjective_pairing3 handled)).
  assert (Hlk : ∀ key settled, lnd_lookup key = Good settled → settled = true)
    by (intros key settled; unfold lnd_lookup; case_decide; [by intros [= <-]|by intros [=]]).
  assert (Hev : Forall (honest_event (λ _, true) node) stream).
  { apply Forall_singleton. split; [apply Forall_singleton; split; [|exact I]|].
    - intros E. apply (f_equal (.!! MkHtlcKey node 12 13)) in E. vm_compute in E. discriminate E.
    - by intros key settled [= _ <-]. }
  assert (Ho : ∀ key : CircuitKey, Forall (honest (λ _, true) node) ((λ _, []) key)) by (intros; constructor).
  assert (Hid : ∀ l : list CircuitKey, id l ≡ₚ l) by done.
  clear He. revert Hrun. generalize (handled.1.2) as cbs. generalize (handled.1.1) as db'.
  intros db' cbs Hrun.
  pose proof (final_resolutions_recorded (λ _, true) node requested requested_consistent
    requested_truthful (λ _, []) Ho (λ _, tx 7) lnd_lookup Hlk id Hid stream Hev db' cbs Hrun) as Hthm.
  split.
  - apply (proj1 (Hthm ck1) (Pg.MkDbHtlc (PreimageHash pre) 70 0 None HtlcStatusSettleRequested) true);
      vm_compute; reflexivity.
  - apply (proj2 (Hthm ck2) [] (MkReceived [other_call] (tx 9) (Good (FinalHtlcEvent ck2 true))) true []);
      [reflexivity|reflexivity|]. exists (Pg.MkDbHtlc (PreimageHash pre) 30 0 None HtlcStatusSettleRequested).
    vm_compute. reflexivity.
Defined.

Definition first_final : Pg.database := (Pg.MarkHtlcFinal None 5 k1 true requested).1.
Definition second_final : Pg.database := (Pg.MarkHtlcFinal None 6 k2 true first_final).1.

Lemma duplicate_final_event_ends_subscription_witness :
  handleFinalHtlc node (MkTxEnv 8 None) ck2 true second_final =
  (second_final, [],
   Some (ErrWrap "unable to finalize htlc" ErrHtlcReceivedButInvoiceAlreadySettled)).
Proof.
  apply (duplicate_final_event_ends_subscription first_final second_final) with
    (now := 6) (h := PreimageHash pre) (cbs := []).
  - apply (consistent_MarkHtlcFinal None 5 k1 true requested first_final (Good None)
             requested_consistent).
    vm_compute. reflexivity.
  - vm_compute. reflexivity.
Defined.

End Witness.
End NodeSettled.

(** ** settled_handler.go

    Callers of [WaitForInvoiceFinalStatus] run concurrently with the node
    handlers: the steps are the critical section that registers a channel, the
    database read, the receive, the transactions and, some time after its
    transaction, [InvoiceSettled]. A channel has capacity one and is closed
    after its only send. *)
Module Settled.
Import PgFacts NodeSettled.

Inductive waitChan := ChanOpen | ChanSent (settled : bool) | ChanDrained.

(** Where a call of [WaitForInvoiceFinalStatus] is. *)
Inductive call_state :=
  | Subscribed (hash : Hash)                    (** registered; about to read the database *)
  | Waiting (hash : Hash)                       (** in the [select] *)
  | Returned (hash : Hash) (result : res bool).

Definition call_hash (c : call_state) : Hash :=
  match c with Subscribed h | Waiting h | Returned h _ => h end.

Record SettledHandler := MkHandler {
  db : Pg.database;
  waiters : gmap (list Z) (list nat);
  chans : gmap nat waitChan;
  callers : gmap nat call_state;
  callbacks : list (Hash * bool)   (** transactions whose [InvoiceSettled] has not run *)
}.

Definition NewSettledHandler (d : Pg.database) : SettledHandler := MkHandler d ∅ ∅ ∅ [].

(** [waiter <- settled; close(waiter)] for every waiter. *)
Fixpoint sendAll (settled : bool) (ws : list nat) (cs : gmap nat waitChan) :
    outcome (gmap nat waitChan) :=
  match ws with
  | [] => Ok cs
  | waiter :: ws' =>
      match cs !! waiter with
      | Some ChanOpen => sendAll settled ws' (<[waiter := ChanSent settled]> cs)
      | Some _ => Panic "send on closed channel"
      | None => Panic "blocked on nil channel"
      end
  end.

Definition InvoiceSettled (hash : Hash) (settled : bool) (p : SettledHandler) :
    outcome SettledHandler :=
  cs ← sendAll settled (default [] (waiters p !! hash)) (chans p);
  Ok (MkHandler (db p) (<[hash := []]> (waiters p)) cs (callers p) (callbacks p)).

Definition set_caller (id : nat) (c : call_state) (p : SettledHandler) : SettledHandler :=
  MkHandler (db p) (waiters p) (chans p) (<[id := c]> (callers p)) (callbacks p).

(** The first critical section of [WaitForInvoiceFinalStatus]. *)
Definition wait_subscribe (id : nat) (hash : Hash) (p : SettledHandler) : SettledHandler :=
  MkHandler (db p) (<[hash := default [] (waiters p !! hash) ++ [id]]> (waiters p))
    (<[id := ChanOpen]> (chans p)) (<[id := Subscribed hash]> (callers p)) (callbacks p).

(** Its database read. *)
Definition wait_check (fault : option string) (hash : Hash) (p : SettledHandler) : call_state :=
  match Pg.Get fault hash (db p) with
  | Bad err => Returned hash (Bad err)
  | Good (invoice, _) =>
      if IsFinal (Pg.Status invoice) then
        Returned hash (Good (bool_decide (Pg.Status invoice = InvoiceStatusSettled)))
      else Waiting hash
  end.

Inductive event :=
  | EWait (id : nat) (hash : Hash)
  | ECheck (id : nat) (fault : option string)
  | EReceive (id : nat)
  | ECancel (id : nat)
  | EFinal (node : bytes) (env : txEnv) (key : CircuitKey) (settled : bool)
  | ECallback (n : nat)
  | ERequest (fault : option string) (now : Time) (invoice : InvoiceCreationData)
      (hs : gmap HtlcKey Z).

(** [None] when the event cannot happen in the state. *)
Definition step `{Lntypes} (ev : event) (p : SettledHandler) : outcome (option SettledHandler) :=
  match ev with
  | EWait id hash =>
      match callers p !! id with
      | None => Ok (Some (wait_subscribe id hash p))
      | Some _ => Ok None
      end
  | ECheck id fault =>
      match callers p !! id with
      | Some (Subscribed hash) => Ok (Some (set_caller id (wait_check fault hash p) p))
      | _ => Ok None
      end
  | EReceive id =>
      match callers p !! id, chans p !! id with
      | Some (Waiting hash), Some (ChanSent b) =>
          Ok (Some (MkHandler (db p) (waiters p) (<[id := ChanDrained]> (chans p))
                      (<[id := Returned hash (Good b)]> (callers p)) (callbacks p)))
      | _, _ => Ok None
      end
  | ECancel id =>
      match callers p !! id with
      | Some (Waiting hash) => Ok (Some (set_caller id (Returned hash (Bad ErrCanceled)) p))
      | _ => Ok None
      end
  | EFinal node env key settled =>
      let '(d, cbs, _) := handleFinalHtlc node env key settled (db p) in
      Ok (Some (MkHandler d (waiters p) (chans p) (callers p) (callbacks p ++ cbs)))
  | ECallback n =>
      match callbacks p !! n with
      | Some (hash, settled) =>
          p' ← InvoiceSettled hash settled
                 (MkHandler (db p) (waiters p) (chans p) (callers p) (delete n (callbacks p)));
          Ok (Some p')
      | None => Ok None
      end
  | ERequest fault now invoice hs =>
      Ok (Some (MkHandler (Pg.RequestSettle fault now invoice hs (db p)).1 (waiters p) (chans p)
                  (callers p) (callbacks p)))
  end.

Fixpoint run `{Lntypes} (evs : list event) (p : SettledHandler) : outcome SettledHandler :=
  match evs with
  | [] => Ok p
  | ev :: evs' => r ← step ev p; run evs' (default p r)
  end.

(** *** The invariant *)

(** The outcome of an invoice that is final in the database. *)
Definition final_status (d : Pg.database) (h : Hash) : option bool :=
  match Pg.invoices d !! h with
  | Some inv =>
      match Pg.i_Status inv with
      | InvoiceStatusSettled => Some true
      | InvoiceStatusFailed => Some false
      | InvoiceStatusSettleRequested => None
      end
  | None => None
  end.

Definition registered (id : nat) (h : Hash) (p : SettledHandler) : Prop :=
  id ∈ default [] (waiters p !! h).

Record Inv (p : SettledHandler) : Prop := {
  i_nodup h : NoDup (default [] (waiters p !! h));
  i_open id h : registered id h p →
    chans p !! id = Some ChanOpen ∧ ∃ c, callers p !! id = Some c ∧ call_hash c = h;
  i_sent id c b : callers p !! id = Some c → chans p !! id = Some (ChanSent b) →
    final_status (db p) (call_hash c) = Some b;
  i_listening id h : callers p !! id = Some (Subscribed h) ∨ callers p !! id = Some (Waiting h) →
    registered id h p ∨ ∃ b, chans p !! id = Some (ChanSent b);
  i_pending id h b : callers p !! id = Some (Waiting h) → registered id h p →
    final_status (db p) h = Some b → (h, b) ∈ callbacks p;
  i_callbacks h b : (h, b) ∈ callbacks p → final_status (db p) h = Some b;
  i_result id h b : callers p !! id = Some (Returned h (Good b)) → final_status (db p) h = Some b
}.

Lemma final_status_mono d d' h b :
  db_le d d' → final_status d h = Some b → final_status d' h = Some b.
Proof.
  intros Hle. unfold final_status. destruct (Pg.invoices d !! h) as [inv|] eqn:E; [|done].
  destruct (le_invoices _ _ Hle _ _ E) as (inv' & -> & _ & _ & _ & Hst).
  destruct (Pg.i_Status inv) eqn:Es; [done|..]; intros [= <-]; rewrite Hst by done; by rewrite Es.
Qed.

(** A transaction of a node handler makes at most the reported invoice final. *)
Lemma handleFinalHtlc_final node env key settled d d' cbs e :
  handleFinalHtlc node env key settled d = (d', cbs, e) →
  db_le d d' ∧
  (∀ h b, final_status d' h = Some b → final_status d h = Some b ∨ (h, b) ∈ cbs) ∧
  (∀ h b, (h, b) ∈ cbs → final_status d' h = Some b).
Proof.
  unfold handleFinalHtlc. destruct (Pg.MarkHtlcFinal _ _ _ _ _) as [d1 o] eqn:Hm. intros Hres.
  pose proof (db_le_MarkHtlcFinal _ _ _ _ _ _ _ Hm) as Hle.
  assert (Hd : d1 = d' ∧ cbs = match o with Good (Some h) => [(h, settled)] | _ => [] end).
  { destruct o as [[h|]|err]; [..|repeat case_decide]; by simplify_eq. }
  destruct Hd as [-> ->]. clear Hres. split; [done|].
  apply MarkHtlcFinal_cases in Hm as [[-> [err ->]]|(o' & -> & Htx)].
  { split; [by left|]. intros h b Hin. by apply elem_of_nil in Hin. }
  apply markHtlcFinal_Good in Htx as (r & inv & _ & Hinv & _ & _ & _ & Hcase).
  unfold final_status. destruct Hcase as [(-> & Ei & _)|(-> & _ & Ei & _)]; rewrite Ei.
  { split; [by left|]. intros h b Hin. by apply elem_of_nil in Hin. }
  split.
  - intros h b. destruct (decide (h = Pg.h_Hash r)) as [->|].
    + rewrite lookup_insert_eq. simpl. intros Hb. right. apply list_elem_of_singleton.
      f_equal. destruct settled; congruence.
    + rewrite lookup_insert_ne by done. by left.
  - intros h b [= -> ->]%list_elem_of_singleton. rewrite lookup_insert_eq. by destruct settled.
Qed.

Lemma request_final `{Lntypes} fault now invoice hs d h b :
  final_status (Pg.RequestSettle fault now invoice hs d).1 h = Some b → final_status d h = Some b.
Proof.
  destruct (Pg.RequestSettle fault now invoice hs d) as [d' [e|]] eqn:Hrs; simpl; unfold final_status.
  - by apply RequestSettle_err in Hrs as [-> _].
  - apply RequestSettle_ok in Hrs as (_ & Hn & _ & -> & _).
    destruct (decide (h = PreimageHash (PaymentPreimage invoice))) as [->|].
    + by rewrite lookup_insert_eq.
    + by rewrite lookup_insert_ne.
Qed.

(** The database grows and newly final invoices have a callback. *)
Lemma Inv_db p d cbs :
  Inv p → db_le (db p) d →
  (∀ h b, final_status d h = Some b → final_status (db p) h = Some b ∨ (h, b) ∈ cbs) →
  (∀ h b, (h, b) ∈ cbs → final_status d h = Some b) →
  Inv (MkHandler d (waiters p) (chans p) (callers p) (callbacks p ++ cbs)).
Proof.
  intros [H1 H2 H3 H4 H5 H6 H7] Hle Hnew Hcbs. split; simpl; try done.
  - intros id c b Hc Hs. eapply final_status_mono; eauto.
  - intros id h b Hw Hr Hf. apply elem_of_app. destruct (Hnew _ _ Hf); [left|by right]. eauto.
  - intros h b [Hin|Hin]%elem_of_app; [|eauto]. eapply final_status_mono; eauto.
  - intros id h b Hr. eapply final_status_mono; eauto.
Qed.

Lemma sendAll_ok b ws cs :
  NoDup ws → (∀ id, id ∈ ws → cs !! id = Some ChanOpen) →
  ∃ cs', sendAll b ws cs = Ok cs' ∧
    ∀ id, cs' !! id = if decide (id ∈ ws) then Some (ChanSent b) else cs !! id.
Proof.
  intros Hnd. revert cs. induction Hnd as [|w ws Hw Hnd IH]; intros cs Hopen.
  { exists cs. split; [done|]. intros id. rewrite decide_False; [done|apply not_elem_of_nil]. }
  cbn [sendAll]. rewrite Hopen by left. destruct (IH (<[w := ChanSent b]> cs)) as (cs' & -> & Hcs').
  { intros id Hid. rewrite lookup_insert_ne by set_solver. apply Hopen. by right. }
  exists cs'. split; [done|]. intros id. rewrite Hcs'.
  destruct (decide (id = w)) as [->|].
  - rewrite lookup_insert_eq, (decide_True (P := w ∈ w :: ws)) by left. by case_decide.
  - rewrite lookup_insert_ne by done. repeat case_decide; set_solver.
Qed.

(** Delivering a callback. *)
Lemma Inv_callback p hash b n :
  Inv p → callbacks p !! n = Some (hash, b) →
  ∃ p', InvoiceSettled hash b
      (MkHandler (db p) (waiters p) (chans p) (callers p) (delete n (callbacks p))) = Ok p' ∧ Inv p' ∧
    db p' = db p ∧ callers p' = callers p.
Proof.
  intros [H1 H2 H3 H4 H5 H6 H7] Hn. unfold InvoiceSettled; simpl.
  assert (Hfin : final_status (db p) hash = Some b) by (apply H6; by eapply list_elem_of_lookup_2).
  destruct (sendAll_ok b (default [] (waiters p !! hash)) (chans p)) as (cs & -> & Hcs); [done| |].
  { intros id Hid. by apply (H2 id hash). }
  eexists. split; [done|]. split; [|done].
  assert (Hreg : ∀ id h, registered id h (MkHandler (db p) (<[hash:=[]]> (waiters p)) cs (callers p)
      (delete n (callbacks p))) → h ≠ hash ∧ registered id h p).
  { intros id h. unfold registered; simpl. destruct (decide (h = hash)) as [->|].
    - rewrite lookup_insert_eq. simpl. intros Hx. by apply elem_of_nil in Hx.
    - by rewrite lookup_insert_ne. }
  split; simpl.
  - intros h. destruct (decide (h = hash)) as [->|].
    + rewrite lookup_insert_eq. simpl. constructor.
    + by rewrite lookup_insert_ne.
  - intros id h [Hne Hr]%Hreg. apply H2 in Hr as (Ho & c & Hc & Hh). split; [|by exists c].
    rewrite Hcs, decide_False; [done|]. intros Hin. apply (H2 id hash) in Hin as (_ & c' & Hc' & Hh').
    simplify_eq.
  - intros id c b' Hc. rewrite Hcs. case_decide as Hin; [|by eauto].
    intros [= <-]. apply (H2 id hash) in Hin as (_ & c' & Hc' & <-). by simplify_eq.
  - intros id h Hc. rewrite Hcs. case_decide as Hin; [right; eauto|].
    destruct (H4 _ _ Hc) as [Hr|?]; [|by right]. left. unfold registered in *; simpl.
    destruct (decide (h = hash)) as [->|]; [done|]. by rewrite lookup_insert_ne.
  - intros id h b' Hw [Hne Hr]%Hreg Hf. pose proof (H5 _ _ _ Hw Hr Hf) as Hin.
    apply list_elem_of_lookup_1 in Hin as [i Hi]. apply list_elem_of_lookup.
    destruct (decide (i < n)%nat).
    + exists i. by rewrite list_lookup_delete_lt.
    + destruct (decide (i = n)) as [->|]; [congruence|]. exists (pred i).
      rewrite list_lookup_delete_ge by lia. by replace (S (pred i)) with i by lia.
  - intros h b' Hin%list_elem_of_delete_inv. by apply H6.
  - eauto.
Qed.

(** A call that registers. *)
Lemma Inv_subscribe p id hash :
  Inv p → callers p !! id = None → Inv (wait_subscribe id hash p).
Proof.
  intros [H1 H2 H3 H4 H5 H6 H7] Hnew.
  assert (Hfresh : ∀ h, ¬ registered id h p).
  { intros h Hr. apply H2 in Hr as (_ & c & Hc & _). congruence. }
  assert (Hreg : ∀ id' h, registered id' h (wait_subscribe id hash p) ↔
    (id' = id ∧ h = hash) ∨ registered id' h p).
  { intros id' h. unfold registered; simpl. destruct (decide (h = hash)) as [->|].
    - rewrite lookup_insert_eq. simpl. rewrite elem_of_app, list_elem_of_singleton. naive_solver.
    - rewrite lookup_insert_ne by done. naive_solver. }
  split; simpl.
  - intros h. destruct (decide (h = hash)) as [->|]; [|by rewrite lookup_insert_ne].
    rewrite lookup_insert_eq. simpl. apply NoDup_app. split_and!; [done| |apply NoDup_singleton].
    intros x Hx ->%list_elem_of_singleton. by eapply Hfresh.
  - intros id' h [[-> ->]|Hr]%Hreg.
    + rewrite !lookup_insert_eq. split; [done|]. by eexists.
    + assert (id' ≠ id) by (intros ->; by eapply Hfresh). rewrite !lookup_insert_ne by done. by apply H2.
  - intros id' c b. destruct (decide (id' = id)) as [->|]; [by rewrite !lookup_insert_eq|].
    rewrite !lookup_insert_ne by done. apply H3.
  - intros id' h Hc. rewrite Hreg. destruct (decide (id' = id)) as [->|].
    + rewrite !lookup_insert_eq in *. destruct Hc as [[= ->]|[=]]. by left; left.
    + rewrite !lookup_insert_ne in * by done. apply H4 in Hc. naive_solver.
  - intros id' h b. rewrite Hreg. destruct (decide (id' = id)) as [->|].
    + by rewrite lookup_insert_eq.
    + rewrite lookup_insert_ne by done. naive_solver.
  - done.
  - intros id' h b. destruct (decide (id' = id)) as [->|].
    + by rewrite lookup_insert_eq.
    + rewrite lookup_insert_ne by done. apply H7.
Qed.

(** A call that moves on: to waiting, when the invoice is not final, or to a
    correct result. *)
Lemma Inv_set_caller p id c c' :
  Inv p → callers p !! id = Some c → call_hash c' = call_hash c →
  (∀ h, c' ≠ Subscribed h) →
  (∀ h, c' = Waiting h → c = Subscribed h ∧ final_status (db p) h = None) →
  (∀ h b, c' = Returned h (Good b) → final_status (db p) h = Some b) →
  Inv (set_caller id c' p).
Proof.
  intros [H1 H2 H3 H4 H5 H6 H7] Hc Hh Hs Hw Hr. split; simpl; try done.
  - intros id' h Hreg. destruct (H2 id' h Hreg) as (Ho & x & Hx & Hxh). split; [done|].
    destruct (decide (id' = id)) as [->|]; [|rewrite lookup_insert_ne by done; eauto].
    rewrite lookup_insert_eq. exists c'. split; [done|]. congruence.
  - intros id' x b. destruct (decide (id' = id)) as [->|].
    + rewrite lookup_insert_eq. intros [= <-]. rewrite Hh. by apply H3.
    + rewrite lookup_insert_ne by done. apply H3.
  - intros id' h. destruct (decide (id' = id)) as [->|].
    + rewrite lookup_insert_eq. intros [[= ->]|[= ->]]; [by destruct (Hs h)|].
      destruct (Hw h eq_refl) as [-> _]. apply H4. by left.
    + rewrite lookup_insert_ne by done. apply H4.
  - intros id' h b. destruct (decide (id' = id)) as [->|].
    + rewrite lookup_insert_eq. intros [= ->]. destruct (Hw h eq_refl) as [_ ?]. congruence.
    + rewrite lookup_insert_ne by done. apply H5.
  - intros id' h b. destruct (decide (id' = id)) as [->|].
    + rewrite lookup_insert_eq. intros [= ->]. by apply Hr.
    + rewrite lookup_insert_ne by done. apply H7.
Qed.

Lemma wait_check_spec fault hash p :
  match wait_check fault hash p with
  | Subscribed _ => False
  | Waiting h => h = hash ∧ final_status (db p) h = None
  | Returned h (Good b) => h = hash ∧ final_status (db p) h = Some b
  | Returned h (Bad _) => h = hash
  end.
Proof.
  unfold wait_check. destruct (Pg.Get fault hash (db p)) as [[inv hs]|e] eqn:HG; [|done].
  apply Get_Good in HG as (_ & _ & r & Hr & ->). unfold final_status. simpl.
  destruct (Pg.i_Status r) eqn:E; simpl; rewrite Hr, E; done.
Qed.

(** The receive of a waiting call. *)
Lemma Inv_receive p id hash b :
  Inv p → callers p !! id = Some (Waiting hash) → chans p !! id = Some (ChanSent b) →
  Inv (MkHandler (db p) (waiters p) (<[id := ChanDrained]> (chans p))
         (<[id := Returned hash (Good b)]> (callers p)) (callbacks p)).
Proof.
  intros Hi Hc Hs. pose proof (i_sent _ Hi _ _ _ Hc Hs) as Hf. simpl in Hf.
  assert (Hi2 : Inv (set_caller id (Returned hash (Good b)) p)).
  { eapply Inv_set_caller; try done. by intros h b' [= <- <-]. }
  destruct Hi2 as [H1 H2 H3 H4 H5 H6 H7]. split; simpl in *; try done.
  - intros id' h Hr. specialize (H2 id' h Hr). destruct H2 as [Ho Hx].
    assert (id' ≠ id) by congruence. by rewrite lookup_insert_ne.
  - intros id' c b'. destruct (decide (id' = id)) as [->|].
    + by rewrite (lookup_insert_eq (chans p)).
    + rewrite (lookup_insert_ne (chans p)) by done. apply H3.
  - intros id' h Hx. destruct (decide (id' = id)) as [->|].
    + rewrite lookup_insert_eq in Hx. by destruct Hx.
    + destruct (H4 id' h Hx) as [?|[b' ?]]; [by left|right]. exists b'. by rewrite lookup_insert_ne.
Qed.

Lemma step_ok `{Lntypes} ev p :
  Inv p → ∃ o, step ev p = Ok o ∧ Inv (default p o).
Proof.
  intros Hi. destruct ev as [id h|id fault|id|id|node env key settled|n|fault now inv hs]; simpl.
  - destruct (callers p !! id) eqn:Hc; eexists; (split; [done|]); simpl; [done|].
    by apply Inv_subscribe.
  - destruct (callers p !! id) as [[h|h|h r]|] eqn:Hc; eexists; (split; [done|]); simpl; try done.
    pose proof (wait_check_spec fault h p) as Hw.
    destruct (wait_check fault h p) as [h'|h'|h' [b|e]]; simpl in Hw; [done|..];
      (eapply Inv_set_caller; [done|exact Hc|simpl|..]); try naive_solver.
  - destruct (callers p !! id) as [[h|h|h r]|] eqn:Hc; try by (eexists; split; [done|]).
    destruct (chans p !! id) as [[|b|]|] eqn:Hs; try by (eexists; split; [done|]).
    eexists. split; [done|]. simpl. by apply Inv_receive.
  - destruct (callers p !! id) as [[h|h|h r]|] eqn:Hc; eexists; (split; [done|]); simpl; try done.
    by eapply Inv_set_caller.
  - destruct (handleFinalHtlc _ _ _ _ _) as [[d cbs] e] eqn:Hh. eexists. split; [done|]. simpl.
    apply handleFinalHtlc_final in Hh as (Hle & Hnew & Hcbs). by apply Inv_db.
  - destruct (callbacks p !! n) as [[h b]|] eqn:Hn; [|by eexists].
    destruct (Inv_callback p h b n Hi Hn) as (p' & -> & Hi' & _). by eexists.
  - eexists. split; [done|]. simpl.
    destruct (Pg.RequestSettle fault now inv hs (db p)) as [d o] eqn:Hrs.
    rewrite <- (app_nil_r (callbacks p)). apply Inv_db; [done|by eapply db_le_RequestSettle| |].
    + intros h b. rewrite <- (f_equal fst Hrs). simpl. left. by eapply request_final.
    + intros h b Hin. by apply elem_of_nil in Hin.
Qed.

Lemma waits_ok `{Lntypes} evs p : Inv p → ∃ p', run evs p = Ok p' ∧ Inv p'.
Proof.
  revert p. induction evs as [|ev evs IH]; intros p Hi; simpl; [eauto|].
  destruct (step_ok ev p Hi) as (o & -> & Hi'). by apply IH.
Qed.

Lemma Inv_new d : Inv (NewSettledHandler d).
Proof.
  split; unfold registered; simpl; intros *; rewrite ?lookup_empty; simpl; try done.
  - constructor.
  - intros Hx. by apply elem_of_nil in Hx.
  - by intros [|].
  - intros Hx. by apply elem_of_nil in Hx.
Qed.

(** The outcome of a final invoice reaches a caller that waits for it. *)
Lemma wakeup `{Lntypes} p id h b :
  Inv p → callers p !! id = Some (Waiting h) → final_status (db p) h = Some b →
  chans p !! id = Some (ChanSent b) ∨
  ∃ n p', callbacks p !! n = Some (h, b) ∧ step (ECallback n) p = Ok (Some p') ∧
    ∃ p'', step (EReceive id) p' = Ok (Some p'') ∧
      callers p'' !! id = Some (Returned h (Good b)).
Proof.
  intros Hi Hwait Hfinal.
  destruct (i_listening _ Hi id h) as [Hreg|[b' Hs]]; [by right| |].
  2:{ left. pose proof (i_sent _ Hi _ _ _ Hwait Hs) as Hf. simpl in Hf. congruence. }
  right. pose proof (i_pending _ Hi _ _ _ Hwait Hreg Hfinal) as Hin.
  apply list_elem_of_lookup_1 in Hin as [n Hn]. exists n.
  destruct (Inv_callback p h b n Hi Hn) as (p' & Hset & Hi' & Hdb & Hcalls).
  exists p'. simpl. rewrite Hn, Hset. split; [done|]. split; [done|].
  destruct (i_listening _ Hi' id h) as [Hreg'|[b' Hs]]; [right; by rewrite Hcalls| |].
  { exfalso. revert Hset Hreg'. unfold InvoiceSettled; simpl.
    destruct (sendAll _ _ _); simpl; [|done]. intros [= <-]. unfold registered; simpl.
    rewrite lookup_insert_eq. simpl. intros Hx. by apply elem_of_nil in Hx. }
  rewrite Hcalls, Hwait, Hs. eexists. split; [done|]. simpl. rewrite lookup_insert_eq.
  rewrite <- Hcalls in Hwait. pose proof (i_sent _ Hi' _ _ _ Hwait Hs) as Hf. simpl in Hf.
  rewrite Hdb in Hf. congruence.
Qed.

(** *** Properties *)

(** C29. Waiting for an invoice is sound: over every interleaving of callers,
    node handlers and settle requests no send blocks or panics, and a caller is
    only told an outcome that the database holds. *)
Theorem wait_result_correct `{Lntypes} (d : Pg.database) (evs : list event) :
  ∃ p, run evs (NewSettledHandler d) = Ok p ∧
    ∀ id h b, callers p !! id = Some (Returned h (Good b)) → final_status (db p) h = Some b.
Proof.
  destruct (waits_ok evs (NewSettledHandler d) (Inv_new d)) as (p & Hr & Hi).
  exists p. split; [done|]. apply (i_result _ Hi).
Qed.

(** No wake-up is lost: when a caller waits although the invoice is already
    final in the database, in any interleaving, the call of [InvoiceSettled]
    for it is still to come, and afterwards the caller receives the outcome. *)
Theorem no_lost_wakeup `{Lntypes} (d : Pg.database) (evs : list event) (p : SettledHandler)
  (Hrun : run evs (NewSettledHandler d) = Ok p) (id : nat) (h : Hash) (b : bool)
  (Hwait : callers p !! id = Some (Waiting h)) (Hfinal : final_status (db p) h = Some b) :
  chans p !! id = Some (ChanSent b) ∨
  ∃ n p', callbacks p !! n = Some (h, b) ∧ step (ECallback n) p = Ok (Some p') ∧
    ∃ p'', step (EReceive id) p' = Ok (Some p'') ∧
      callers p'' !! id = Some (Returned h (Good b)).
Proof.
  destruct (waits_ok evs (NewSettledHandler d) (Inv_new d)) as (p0 & Hr & Hi). rewrite Hrun in Hr.
  injection Hr as <-. by apply wakeup.
Qed.

Module Witness.
Import RealLntypes PgFacts.Example NodeSettled.Witness.

(** The caller registers and reads the database before the last htlc is final. *)
Definition history : list event :=
  [EWait 1 (PreimageHash pre); ECheck 1 None; EFinal node (tx 5) ck1 true;
   EFinal node (tx 6) ck2 true].
Definition waiting : SettledHandler :=
  match run history (NewSettledHandler requested) with
  | Ok p => p
  | Panic _ => NewSettledHandler requested
  end.

Lemma no_lost_wakeup_witness :
  chans waiting !! 1%nat = Some (ChanSent true) ∨
  ∃ n p', callbacks waiting !! n = Some (PreimageHash pre, true) ∧
    step (ECallback n) waiting = Ok (Some p') ∧
    ∃ p'', step (EReceive 1) p' = Ok (Some p'') ∧
      callers p'' !! 1%nat = Some (Returned (PreimageHash pre) (Good true)).
Proof.
  apply (no_lost_wakeup requested history waiting).
  - vm_compute. reflexivity.
  - vm_compute. reflexivity.
  - vm_compute. reflexivity.
Defined.

End Witness.
End Settled.
