(* ===== verification/System.v ===== *)
(** Components put together: from the reports of the lnd nodes, through the
    node settled handlers and the database, to the callers that wait for the
    final status of an invoice. *)

From stdpp Require Import numbers strings relations base fin_maps gmap list.
From stdpp Require Import options.
From S2P Require Import Prelude Sha256 Types Persistence PersistenceFacts SettledHandler.

Module Settlement.
Import PgFacts NodeSettled Settled.

(** ** The database along a history of the settled handler *)

Definition event_db `{Lntypes} (ev : event) (d : Pg.database) : Pg.database :=
  match ev with
  | EFinal node env key settled => (handleFinalHtlc node env key settled d).1.1
  | ERequest fault now invoice hs => (Pg.RequestSettle fault now invoice hs d).1
  | _ => d
  end.

Lemma step_db `{Lntypes} ev p o : step ev p = Ok o → db (default p o) = event_db ev (db p).
Proof.
  destruct ev; simpl; try (repeat case_match; by intros [= <-]).
  destruct (callbacks p !! n) as [[h b]|]; [|by intros [= <-]].
  unfold InvoiceSettled; simpl. destruct (sendAll _ _ _); by intros [= <-].
Qed.

(** What lnd says about the htlcs of one invoice; [v] is the fate of each. *)
Section Fate.
Context `{Lntypes} (v : HtlcKey → bool) (h : Hash) (d : Pg.database).

Definition htlc_of (key : HtlcKey) (d : Pg.database) : Prop :=
  ∃ r, Pg.htlcs d !! key = Some r ∧ Pg.h_Hash r = h.

Definition event_key (node : bytes) (key : CircuitKey) : HtlcKey :=
  MkHtlcKey node (ck_ChanID key) (ck_HtlcID key).

(** Every report about an htlc of the invoice states its fate, and the registry
    only stores sets that are not empty. *)
Definition truthful (ev : event) : Prop :=
  match ev with
  | EFinal node _ key settled => htlc_of (event_key node key) d → settled = v (event_key node key)
  | ERequest _ _ _ hs => hs ≠ ∅
  | _ => True
  end.

(** The report about [key] reaches the database. *)
Definition reports (key : HtlcKey) (ev : event) : Prop :=
  match ev with
  | EFinal node env ck _ => event_key node ck = key ∧ tx_fault env = None
  | _ => False
  end.

Definition fate (b : bool) : HtlcStatus := if b then HtlcStatusSettled else HtlcStatusFailed.

(** The htlcs of the invoice after some of them have been reported. *)
Record progressed (d' : Pg.database) : Prop := {
  pg_cons : consistent d';
  pg_invoice : is_Some (Pg.invoices d' !! h);
  pg_htlcs key : htlc_of key d' ↔ htlc_of key d;
  pg_status key r : Pg.htlcs d' !! key = Some r → Pg.h_Hash r = h →
    htlc_pending r ∨ Pg.h_Status r = fate (v key)
}.

Definition settled_down (key : HtlcKey) (d' : Pg.database) : Prop :=
  ∀ r, Pg.htlcs d' !! key = Some r → ¬ htlc_pending r.

Lemma progressed_request fault now invoice hs d1 :
  hs ≠ ∅ → progressed d1 → progressed (Pg.RequestSettle fault now invoice hs d1).1 ∧
  ∀ key, htlc_of key d → settled_down key d1 →
    settled_down key (Pg.RequestSettle fault now invoice hs d1).1.
Proof.
  intros Hne [Hc Hi Hk Hs]. destruct (Pg.RequestSettle fault now invoice hs d1) as [d2 o] eqn:Hrs; simpl.
  pose proof (consistent_RequestSettle _ _ _ _ _ _ _ Hne Hc Hrs) as Hc2. destruct o as [e|].
  { apply RequestSettle_err in Hrs as [Ei Eh]. split.
    - split; [done|by rewrite Ei|intros key; unfold htlc_of; rewrite Eh; apply Hk|].
      intros key r. rewrite Eh. apply Hs.
    - intros key _ Hd r. rewrite Eh. apply Hd. }
  apply RequestSettle_ok in Hrs as (_ & Hn & _ & Ei & Eh & Hnew).
  set (H0 := PreimageHash (PaymentPreimage invoice)) in *.
  assert (h ≠ H0) as Hh by (intros <-; rewrite Hn in Hi; by destruct Hi).
  assert (∀ key r, Pg.h_Hash r = h → Pg.htlcs d2 !! key = Some r ↔ Pg.htlcs d1 !! key = Some r) as Hrow.
  { intros key r Hr. rewrite Eh, lookup_union_Some_raw. unfold new_rows.
    rewrite lookup_fmap, fmap_Some, fmap_None. split.
    - intros [(a & _ & ->)|[_ ?]]; [by simpl in Hr|done].
    - intros Hkr. right. split; [|done].
      destruct (hs !! key) as [a|] eqn:E; [|done]. apply Hnew in E as [? _]. congruence. }
  split.
  - split; [done|rewrite Ei, lookup_insert_ne by done; done| |].
    + intros key. rewrite <- Hk. unfold htlc_of. split; intros (r & Hr & Hrh); exists r;
        (split; [by apply Hrow|done]).
    + intros key r Hr Hrh. apply Hrow in Hr; [|done]. by apply Hs.
  - intros key Hkey Hd r Hr. apply Hk in Hkey as (r1 & Hr1 & Hrh1).
    apply Hrow in Hr1 as Hr2; [|done]. simplify_eq. by apply Hd.
Qed.

Lemma progressed_final node env key settled d1 :
  truthful (EFinal node env key settled) → progressed d1 →
  progressed (handleFinalHtlc node env key settled d1).1.1 ∧
  (∀ k, htlc_of k d → settled_down k d1 → settled_down k (handleFinalHtlc node env key settled d1).1.1) ∧
  (tx_fault env = None → settled_down (event_key node key) (handleFinalHtlc node env key settled d1).1.1).
Proof.
  intros Ht [Hc Hi Hk Hs]. unfold handleFinalHtlc. fold (event_key node key).
  destruct (Pg.MarkHtlcFinal _ _ _ _ _) as [d2 o] eqn:Hm.
  assert ((match o with
    | Good (Some invoiceHash) => (d2, [(invoiceHash, settled)], None)
    | Good None => (d2, [], None)
    | Bad err => if decide (err = ErrHtlcAlreadyFinal) then (d2, [], None)
        else if decide (err = ErrHtlcNotFound) then (d2, [], None)
        else (d2, [], Some (ErrWrap "unable to finalize htlc" err))
    end : Pg.database * list (Hash * bool) * option Error).1.1 = d2) as ->.
  { destruct o as [[]|]; [done..|repeat case_decide; done]. }
  pose proof (consistent_MarkHtlcFinal _ _ _ _ _ _ _ Hc Hm) as Hc2.
  assert (tx_fault env = None → settled_down (event_key node key) d2) as Hdone.
  { intros Hf r Hr. rewrite Hf in Hm. exact (markHtlcFinal_done _ _ _ _ _ _ _ Hc Hm Hr). }
  apply MarkHtlcFinal_cases in Hm as [[-> _]|(o' & _ & Htx)]; [by split; [split|split]|].
  apply markHtlcFinal_Good in Htx as (r & inv & Hr & Hinv & _ & _ & Eh & Hcase).
  split; [split; [done| | |]|split; [|done]].
  - destruct Hcase as [(_ & -> & _)|(_ & _ & -> & _)]; [done|].
    apply lookup_insert_is_Some'. by right.
  - intros k. rewrite <- Hk. unfold htlc_of. rewrite Eh.
    destruct (decide (k = event_key node key)) as [->|].
    + rewrite lookup_insert_eq, Hr. split; intros (x & [= <-] & Hx);
        eexists; (split; [reflexivity|exact Hx]).
    + by rewrite lookup_insert_ne.
  - intros k x. rewrite Eh, lookup_insert_Some. intros [[<- <-]|[_ Hx]] Hh; [|by apply Hs].
    right. simpl in *. assert (settled = v (event_key node key)) as ->; [|by destruct (v _)].
    apply Ht, Hk. by exists r.
  - intros k _ Hd x. rewrite Eh, lookup_insert_Some. intros [[<- <-]|[_ Hx]]; [|by apply Hd].
    unfold htlc_pending. by destruct settled.
Qed.

Lemma progressed_event ev d1 :
  truthful ev → progressed d1 → progressed (event_db ev d1) ∧
  (∀ k, htlc_of k d → settled_down k d1 ∨ reports k ev → settled_down k (event_db ev d1)).
Proof.
  intros Ht Hp. destruct ev as [| | | |node env key settled| |fault now invoice hs]; simpl;
    try (split; [done|by intros k _ [|]]).
  - destruct (progressed_final node env key settled d1 Ht Hp) as (H1 & H2 & H3).
    split; [done|]. intros k Hk [Hd|[<- Hf]]; eauto.
  - destruct (progressed_request fault now invoice hs d1 Ht Hp) as [H1 H2].
    split; [done|]. intros k Hk [Hd|[]]; eauto.
Qed.

Lemma progressed_run evs p p' :
  run evs p = Ok p' → Forall truthful evs → progressed (db p) →
  progressed (db p') ∧
  (∀ k, htlc_of k d → settled_down k (db p) ∨ Exists (reports k) evs → settled_down k (db p')).
Proof.
  revert p. induction evs as [|ev evs IH]; intros p; simpl.
  { intros [= <-] _ Hp. split; [done|]. intros k _ [?|He]; [done|]. by apply Exists_nil in He. }
  destruct (step ev p) as [o|] eqn:Hst; simpl; [|done].
  intros Hrun [Ht Hts]%Forall_cons Hp.
  destruct (progressed_event ev (db p) Ht Hp) as [Hp1 Hd1]. rewrite <- (step_db _ _ _ Hst) in Hp1, Hd1.
  destruct (IH _ Hrun Hts Hp1) as [Hp2 Hd2]. split; [done|].
  intros k Hk [Hd|He]; apply Hd2; [done|left; by auto|done|].
  apply Exists_cons in He as [He|He]; [left; by auto|by right].
Qed.

(** All htlcs reported: the invoice has the outcome of its htlcs. *)
Lemma progressed_outcome d' :
  progressed d' → (∀ k, htlc_of k d → settled_down k d') →
  final_status d' h =
  Some (bool_decide (map_Forall (λ k r, Pg.h_Hash r = h → v k = true) (Pg.htlcs d))).
Proof.
  intros [Hc [inv Hi] Hk Hs] Hd. pose proof (c_status _ Hc _ _ Hi) as Hst.
  assert (∀ k r, Pg.htlcs d' !! k = Some r → Pg.h_Hash r = h → Pg.h_Status r = fate (v k)) as Hfate.
  { intros k r Hr Hh. destruct (Hs k r Hr Hh) as [Hp|]; [|done].
    exfalso. eapply Hd; [apply Hk; by exists r|exact Hr|exact Hp]. }
  unfold final_status. rewrite Hi. destruct (Pg.i_Status inv); simpl in Hst.
  - destruct Hst as [_ (k & r & Hr & Hh & Hp)]. exfalso. eapply Hd; [apply Hk; by exists r|exact Hr|exact Hp].
  - destruct Hst as [Hall _]. f_equal. symmetry. apply bool_decide_eq_true. intros k r Hr Hh.
    assert (htlc_of k d') as (r' & Hr' & Hh') by (apply Hk; by exists r).
    pose proof (Hall k r' Hr' Hh') as Hx. unfold htlc_settled in Hx. rewrite (Hfate k r') in Hx by done.
    by destruct (v k).
  - destruct Hst as (k & r & Hr & Hh & Hf). f_equal. symmetry. apply bool_decide_eq_false. intros Hall.
    assert (htlc_of k d) as (r' & Hr' & Hh') by (apply Hk; by exists r).
    unfold htlc_failed in Hf. rewrite (Hfate k r), (Hall k r' Hr' Hh') in Hf by done. done.
Qed.

Lemma progressed_start :
  consistent d → is_Some (Pg.invoices d !! h) → all_htlcs d h htlc_pending → progressed d.
Proof. intros Hc Hi Hp. split; [done..|]. intros k r Hr Hh. left. by eapply Hp. Qed.

End Fate.
(** C11. A settlement runs to its end. Take a stored invoice whose htlcs are all
    pending, and any interleaving of node handlers, settle requests and callers
    in which lnd reports each of these htlcs at least once through a working
    connection, in any order, possibly repeatedly or with failed transactions in
    between, but never with two different outcomes. Then nothing blocks or
    panics and the invoice is final: SETTLED if every htlc settled and FAILED
    otherwise. Every caller that was answered was told this outcome, and one
    that still waits has it in its channel, or the call of [InvoiceSettled] that
    delivers it is due. *)
Theorem settlement_completes `{Lntypes} (v : HtlcKey → bool) (h : Hash) (d : Pg.database)
    (evs : list event) (Hc : consistent d) (Hi : is_Some (Pg.invoices d !! h))
    (Hp : all_htlcs d h htlc_pending) (Ht : Forall (truthful v h d) evs)
    (Hr : ∀ k, htlc_of h k d → Exists (reports k) evs) :
  let b := bool_decide (map_Forall (λ k r, Pg.h_Hash r = h → v k = true) (Pg.htlcs d)) in
  ∃ p, run evs (NewSettledHandler d) = Ok p ∧ final_status (db p) h = Some b ∧
    (∀ id b', callers p !! id = Some (Returned h (Good b')) → b' = b) ∧
    (∀ id, callers p !! id = Some (Waiting h) → chans p !! id = Some (ChanSent b) ∨
       ∃ n p' p'', callbacks p !! n = Some (h, b) ∧ step (ECallback n) p = Ok (Some p') ∧
         step (EReceive id) p' = Ok (Some p'') ∧
         callers p'' !! id = Some (Returned h (Good b))).
Proof.
  intros b. destruct (waits_ok evs (NewSettledHandler d) (Inv_new d)) as (p & Hrun & Hinv).
  destruct (progressed_run v h d evs _ _ Hrun Ht) as [Hpr Hd]; [by apply progressed_start|].
  assert (final_status (db p) h = Some b) as Hf.
  { apply (progressed_outcome v h d); [done|]. intros k Hk. apply Hd; [done|]. right. by apply Hr. }
  exists p. split; [done|]. split; [done|]. split.
  - intros id b' Hid. apply (i_result _ Hinv) in Hid. congruence.
  - intros id Hw. destruct (wakeup p id h b Hinv Hw Hf) as [?|(n & p' & ? & ? & p'' & ? & ?)];
      [by left|]. right. by exists n, p', p''.
Qed.

(** ** The invoice of two htlcs of [pg_test.go], both settled, then one failed *)

Module Witness.
Import RealLntypes PgFacts.Example NodeSettled.Witness.

(** A failed transaction, a repeated report, and a caller in between. *)
Definition history : list event :=
  [EFinal node (MkTxEnv 5 (Some "connection reset"%string)) ck1 true;
   EWait 1 (PreimageHash pre); EFinal node (tx 6) ck2 true; ECheck 1 None;
   EFinal node (tx 7) ck2 true; EFinal node (tx 8) ck1 true].

Lemma pending_htlcs : all_htlcs requested (PreimageHash pre) htlc_pending.
Proof.
  refine (proj1 (bool_decide_eq_true (map_Forall (λ _ r, Pg.h_Hash r = PreimageHash pre →
    Pg.h_Status r = HtlcStatusSettleRequested) (Pg.htlcs requested))) _).
  vm_compute. reflexivity.
Qed.

Lemma only_htlcs k r : Pg.htlcs requested !! k = Some r → k = k1 ∨ k = k2.
Proof.
  revert k r. refine (proj1 (bool_decide_eq_true (map_Forall (λ k _, k = k1 ∨ k = k2)
    (Pg.htlcs requested))) _).
  vm_compute. reflexivity.
Qed.

Lemma settlement_completes_witness :
  ∃ p, run history (NewSettledHandler requested) = Ok p ∧
    final_status (db p) (PreimageHash pre) = Some true.
Proof.
  destruct (settlement_completes (λ _, true) (PreimageHash pre) requested history) as (p & Hrun & Hf & _).
  - exact requested_consistent.
  - vm_compute. eauto.
  - exact pending_htlcs.
  - repeat constructor.
  - intros k (r & Hr & _). apply only_htlcs in Hr as [->| ->].
    + do 5 apply Exists_cons_tl. apply Exists_cons_hd. split; reflexivity.
    + do 2 apply Exists_cons_tl. apply Exists_cons_hd. split; reflexivity.
  - exists p. split; [exact Hrun|]. rewrite Hf. vm_compute. reflexivity.
Defined.

End Witness.
End Settlement.
