(* ===== verification/Server.v ===== *)
(** The grpc service, [cmd/lnmuxd/server.go], and the calls of the registry it
    and the muxes use ([RequestSettle], [CancelInvoice], [SubscribeAccept] and
    [NotifyExitHopHtlc] of [invoiceregistry.go]). *)

From stdpp Require Import numbers strings sorting base fin_maps gmap list.
From stdpp Require Import options.
From S2P Require Import Prelude Sha256 Types SetIds HtlcSets StatelessData Persistence PersistenceFacts Registry RegistryFacts RegistrySafety InvoiceCreator.

(** ** Calls of the registry from other goroutines

    A caller selects between handing its request to the event loop and the
    [quit] channel, and then between the response and [quit]. [Run] closes
    [quit] only when the loop returns nil or a cancellation. *)
Module Calls.
Import Registry.

(** [errors.Is(err, context.Canceled)]. *)
Fixpoint is_canceled (err : Error) : bool :=
  match err with
  | ErrCanceled => true
  | ErrWrap _ e => is_canceled e
  | _ => false
  end.

(** The goroutine of [Run]: serving, or returned with [quit] closed or not. *)
Inductive run_state := Serving | Stopped (quit_closed : bool).

(** The end of [Run] when the loop has returned. *)
Definition Run_end (err : option Error) : run_state * option Error :=
  match err with
  | None => (Stopped true, None)
  | Some e => if is_canceled e then (Stopped true, None) else (Stopped false, Some e)
  end.

(** A caller's [select] on handing over its request. *)
Inductive handover := Accepted | ShuttingDown | BlockedForever.

Definition hand_over (r : run_state) : handover :=
  match r with
  | Serving => Accepted
  | Stopped true => ShuttingDown
  | Stopped false => BlockedForever
  end.

(** What the caller of [RequestSettle] or [CancelInvoice] gets; the caller never
    returns when no case of its [select] becomes ready. *)
Inductive answer := Answer (err : option Error) | NoAnswer.

Section WithQueue.
Context {Q : Type} `{PriorityQueue Q} `{Lntypes}.
Implicit Types (w : InvoiceRegistry Q).

(** A request served by the loop. *)
Definition request (cfg : RegistryConfig) (ev : event) w :
    outcome (InvoiceRegistry Q * run_state * answer) :=
  '(w', st) ← iteration cfg ev w;
  Ok (match st with
      | Continue (Some requestErr) => (w', Serving, Answer requestErr)
      | Continue None => (w', Serving, NoAnswer)
      | Exit err =>
          let r := (Run_end (Some err)).1 in
          (w', r, match hand_over r with
                  | ShuttingDown => Answer (Some ErrShuttingDown)
                  | _ => NoAnswer
                  end)
      end).

Definition RequestSettle (cfg : RegistryConfig) (env : Env) (hash : Hash) (setID : SetID) w :=
  request cfg (EvSettle env hash setID) w.

Definition CancelInvoice (cfg : RegistryConfig) (env : Env) (hash : Hash) (setID : SetID) w :=
  request cfg (EvCancel env hash setID) w.

(** [SubscribeAccept]: the id of the new subscription; the loop then sees
    [EvSubscribe]. *)
Definition SubscribeAccept (callback : Subs.AcceptCallback) w : InvoiceRegistry Q * event :=
  let '(id, s) := Subs.generateSubscriptionId (subs w) in (set_subs s w, EvSubscribe id callback).

(** [NotifyExitHopHtlc], called by a mux. *)
Definition NotifyExitHopHtlc (r : run_state) : handover := hand_over r.

End WithQueue.

(** When the event loop fails, its clients hang: a settle request whose
    database write fails ends the loop without closing [quit]; the requester
    gets no answer, and every later caller, a mux with an htlc included, blocks
    for ever. A cancelled loop, in contrast, releases them. *)
Theorem loop_error_blocks_clients {Q} `{PriorityQueue Q} `{Lntypes} (cfg : RegistryConfig)
  (w : InvoiceRegistry Q) (env : Env) (h : Hash) (id : SetID) (s : Sets.htlcSetImpl)
  (Ha : AutoSettle cfg = false) (Hg : getAcceptedSet env h id w = Good (Good s))
  (w1 : InvoiceRegistry Q) (err : Error)
  (Hm : markSettleRequested env s w = (w1, Some err)) (Hc : is_canceled err = false) :
  RequestSettle cfg env h id w = Ok (w1, Stopped false, NoAnswer) ∧
  NotifyExitHopHtlc (Stopped false) = BlockedForever ∧
  NotifyExitHopHtlc (Run_end (Some ErrCanceled)).1 = ShuttingDown.
Proof.
  split; [|done]. unfold RequestSettle, request, iteration, handleSettleRequest.
  rewrite Hg, Ha, Hm. simpl. by rewrite Hc.
Qed.

End Calls.

(** ** cmd/lnmuxd/server.go *)
Module Server.
Import Registry Calls.

Definition finalCltvExpiry : Z := 40.
Definition subscriberQueueSize : nat := 100.

(** An rpc fails with a grpc status or with a plain error (code Unknown). *)
Inductive code := NotFound | Unavailable | FailedPrecondition | Internal | InvalidArgument
  | ResourceExhausted.

Inductive rpc_error := Status (c : code) (err : Error) | Plain (err : Error).

(** [lnmuxrpc.InvoiceStatus]. *)
Inductive protoStatus := UNKNOWN | FAILED | SETTLE_REQUESTED | SETTLED.

Record protoInvoice := MkProtoInvoice {
  p_Hash : bytes;
  p_Preimage : bytes;
  p_AmountMsat : Z;
  p_Status : protoStatus;
  p_SettleRequestedAt : Z;
  p_FinalizedAt : Z;
  p_SequenceNumber : Z
}.

Definition invoiceStatusToProto (s : InvoiceStatus) : protoStatus :=
  match s with
  | InvoiceStatusSettled => SETTLED
  | InvoiceStatusSettleRequested => SETTLE_REQUESTED
  | InvoiceStatusFailed => FAILED
  end.

Section Rpcs.
Context {Q : Type} `{PriorityQueue Q} `{Lntypes}.
Implicit Types (w : InvoiceRegistry Q).

Definition parseSetID (setIDBytes : bytes) : res SetID :=
  if decide (length setIDBytes = 32%nat) then Good (copy_array 32 setIDBytes)
  else Bad (ErrNew "invalid set id").

(** The state after the rpc, and its result: [None] when the call hangs. *)
Definition settle_status (err : option Error) : result rpc_error unit :=
  match err with
  | None => Good tt
  | Some e =>
      if decide (e = ErrInvoiceNotFound) then Bad (Status NotFound e)
      else if decide (e = ErrAutoSettling) then Bad (Status Unavailable e)
      else Bad (Status Internal e)
  end.

Definition SettleInvoice (cfg : RegistryConfig) (env : Env) (req_Hash req_SetId : bytes) w :
    outcome (InvoiceRegistry Q * run_state * option (result rpc_error unit)) :=
  match MakeHash req_Hash with
  | Bad err => Ok (w, Serving, Some (Bad (Plain err)))
  | Good hash =>
      match parseSetID req_SetId with
      | Bad err => Ok (w, Serving, Some (Bad (Plain err)))
      | Good setID =>
          '(w', r, a) ← Calls.RequestSettle cfg env hash setID w;
          Ok (w', r, match a with Answer e => Some (settle_status e) | NoAnswer => None end)
      end
  end.

Definition cancel_status (err : option Error) : result rpc_error unit :=
  match err with
  | None => Good tt
  | Some e =>
      if decide (e = ErrInvoiceNotFound) then Bad (Status NotFound e)
      else if decide (e = ErrSettleRequested) then Bad (Status FailedPrecondition e)
      else Bad (Status Internal e)
  end.

Definition CancelInvoice (cfg : RegistryConfig) (env : Env) (req_Hash req_SetId : bytes) w :
    outcome (InvoiceRegistry Q * run_state * option (result rpc_error unit)) :=
  match MakeHash req_Hash with
  | Bad err => Ok (w, Serving, Some (Bad (Plain err)))
  | Good hash =>
      match parseSetID req_SetId with
      | Bad err => Ok (w, Serving, Some (Bad (Plain err)))
      | Good setID =>
          '(w', r, a) ← Calls.CancelInvoice cfg env hash setID w;
          Ok (w', r, match a with Answer e => Some (cancel_status e) | NoAnswer => None end)
      end
  end.

Definition dbInvoiceToProto (invoice : Pg.Invoice) : protoInvoice :=
  let preimage := PreimageHash (PaymentPreimage (Pg.creation invoice)) in
  MkProtoInvoice (PaymentPreimage (Pg.creation invoice)) preimage
    (u64 (Value (Pg.creation invoice))) (invoiceStatusToProto (Pg.Status invoice))
    (u64 (Time.Unix (Pg.SettleRequestedAt invoice))) (u64 (Time.Unix (Pg.FinalizedAt invoice)))
    (Pg.SequenceNum invoice).

(** The invoices and the first and last sequence numbers. *)
Definition ListInvoices (fault : option string) (maxInvoicesCount sequenceStart : Z)
    (db : Pg.database) : result rpc_error (list protoInvoice * Z * Z) :=
  if decide (maxInvoicesCount = 0) then
    Bad (Status InvalidArgument (ErrNew "should provide 'max_invoices_count' field"))
  else
    match Pg.GetInvoices fault (i64 maxInvoicesCount) (i64 sequenceStart) db with
    | Bad err => Bad (Status Internal err)
    | Good dbInvoices =>
        Good (dbInvoiceToProto <$> dbInvoices,
              match dbInvoices with [] => 0 | x :: _ => Pg.SequenceNum x end,
              match last dbInvoices with None => 0 | Some x => Pg.SequenceNum x end)
    end.

(** [WaitForInvoiceFinalStatus], with the result of the settled handler. *)
Definition WaitForInvoiceFinalStatus (wait : Hash → res bool) (req_Hash : bytes) :
    result rpc_error protoStatus :=
  match MakeHash req_Hash with
  | Bad err => Bad (Plain err)
  | Good hash =>
      match wait hash with
      | Bad err => if decide (err = ErrInvoiceNotFound) then Bad (Status NotFound err)
                   else Bad (Status Internal err)
      | Good settled => Good (if settled then SETTLED else FAILED)
      end
  end.

(** *** AddInvoice and GetInfo *)

Context `{Btcec} {Net : Type} `{!Creator.Zpay32 (Net := Net)}.

(** [time.Duration(req.ExpirySecs) * time.Second]. *)
Definition expiryDuration (secs : Z) : Z := i64 (secs * Time.Second).

Definition AddInvoice (featureMgr : res unit) (now : Time) (rand : res bytes)
    (c : Creator.InvoiceCreator (Net := Net)) (expirySecs amtMsat : Z) (description : string)
    (descriptionHash : bytes) : result rpc_error (string * bytes * bytes) :=
  if expirySecs <=? 0 then Bad (Status InvalidArgument (ErrNew "expiry_secs not specified"))
  else if amtMsat <=? 0 then Bad (Status InvalidArgument (ErrNew "amt_msat not specified"))
  else
    match (match descriptionHash with
           | [] => Good None
           | _ => hash ← MakeHash descriptionHash; Good (Some hash)
           end : res (option Hash)) with
    | Bad err => Bad (Status InvalidArgument (ErrWrap "invalid desc hash" err))
    | Good descHash =>
        match Creator.Create featureMgr now rand c amtMsat (expiryDuration expirySecs) description
                descHash finalCltvExpiry with
        | Bad err => Bad (Status Internal err)
        | Good (invoice, preimage) =>
            Good (Creator.PaymentRequest invoice, PreimageHash preimage, preimage)
        end
    end.

Record info := MkInfo {
  info_AutoSettle : bool;
  info_Nodes : list bytes;
  info_PubKey : bytes;
  info_Network : string
}.

Definition GetInfo (cfg : RegistryConfig) (name : Net → string) (c : Creator.InvoiceCreator (Net := Net)) :
    outcome info :=
  let network := name (Creator.Network c) in
  pubKey ← Creator.creator_PubKey c;
  Ok (MkInfo (AutoSettle cfg) (SerializeCompressed <$> Creator.NodePubKeys c)
        (SerializeCompressed pubKey)
        (if bool_decide (network = "testnet3") then "testnet" else network)).

End Rpcs.

(** *** SubscribeInvoiceAccepted *)

Record subscriber := MkSubscriber {
  bufferChan : list (Hash * SetID);
  buffer_closed : bool;
  closed : bool
}.

Definition new_subscriber : subscriber := MkSubscriber [] false false.

(** The accept callback. [done] says whether the context is done; when that case
    and the send are both ready, Go chooses: [prefer_done]. *)
Definition accept_callback (done prefer_done : bool) (e : Hash * SetID) (s : subscriber) :
    outcome subscriber :=
  if closed s then Ok s
  else if buffer_closed s then Panic "send on closed channel"
  else if decide (length (bufferChan s) < subscriberQueueSize)%nat then
    if done && prefer_done then Ok (MkSubscriber (bufferChan s) true true)
    else Ok (MkSubscriber (bufferChan s ++ [e]) false false)
  else Ok (MkSubscriber (bufferChan s) true true).

(** The loop of the rpc: the event sent to the client, or the end. *)
Inductive sub_result := SubSent (e : Hash * SetID) | SubEnd (err : option rpc_error).

Definition subscriber_take (send_err : option Error) (s : subscriber) :
    option (sub_result * subscriber) :=
  match bufferChan s with
  | e :: l =>
      let s' := MkSubscriber l (buffer_closed s) (closed s) in
      Some (match send_err with None => SubSent e | Some err => SubEnd (Some (Plain err)) end, s')
  | [] => if buffer_closed s
          then Some (SubEnd (Some (Status ResourceExhausted (ErrNew "buffer overflow"))), s)
          else None
  end.

(** ** Properties *)

(** The listing swaps the payment hash and the preimage of an invoice: the
    field [hash] is the preimage and the field [preimage] its hash; and an
    invoice that is not final has a finalization time far in the future. *)
Theorem listing_swaps_hash_and_preimage `{Lntypes} (r : Pg.dbInvoice) :
  let p := dbInvoiceToProto (Pg.unmarshallDbInvoice r) in
  p_Hash p = Pg.i_Preimage r ∧ p_Preimage p = PreimageHash (Pg.i_Preimage r) ∧
  (Pg.i_FinalizedAt r = None → p_FinalizedAt p = 2 ^ 64 - 62135596800).
Proof.
  split_and!; [done|done|]. intros E. simpl. rewrite E. vm_compute. reflexivity.
Qed.

(** The expiry of an invoice is exact up to 292 years and wraps beyond: from
    9223372037 seconds on, the duration is negative, so that the new invoice
    has already expired. *)
Theorem expiry_duration_bounds :
  (∀ secs, 0 < secs ≤ 9223372036 → expiryDuration secs = secs * Time.Second) ∧
  (∀ secs, 9223372037 ≤ secs ≤ 18446744073 → expiryDuration secs < 0).
Proof.
  unfold expiryDuration, Time.Second. split; intros secs Hs.
  - apply i64_small. lia.
  - unfold i64. rewrite <- (Z.mod_unique (secs * 10 ^ 9 + 2 ^ 63) (2 ^ 64) 1
      (secs * 10 ^ 9 + 2 ^ 63 - 2 ^ 64)); lia.
Qed.

End Server.
