(* ===== verification/ServerFacts.v ===== *)
(** The grpc service over whole executions: settling is durable and the listing is
    complete page by page. *)

From stdpp Require Import numbers strings sorting base fin_maps gmap list.
From stdpp Require Import options.
From S2P Require Import Prelude Sha256 Types SetIds HtlcSets StatelessData Persistence PersistenceFacts Registry RegistryFacts RegistryExample RegistrySafety InvoiceCreator Server.

Set Default Proof Using "Type*".

Module Listing.
Import Pg PgFacts.

Definition seqs (db : database) : list Z := i_SequenceNum <$> map_vals (invoices db).

(** Sequence numbers are handed out once. *)
Definition seq_ok (db : database) : Prop :=
  NoDup (seqs db) ∧ Forall (λ n, n < next_sequence db) (seqs db).

Lemma seqs_insert h r db m n :
  invoices db !! h = None →
  seqs (MkDatabase (<[h := r]> (invoices db)) m n) ≡ₚ i_SequenceNum r :: seqs db.
Proof. intros Hn. unfold seqs. simpl. by rewrite map_vals_insert. Qed.

Lemma seqs_update (m : gmap (list Z) dbInvoice) h r r' :
  m !! h = Some r → i_SequenceNum r' = i_SequenceNum r →
  i_SequenceNum <$> map_vals (<[h := r']> m) ≡ₚ i_SequenceNum <$> map_vals m.
Proof.
  intros Hr Hs. rewrite <- (insert_delete_eq m h r'), (map_vals_insert (delete h m)) by apply lookup_delete_eq.
  rewrite (map_vals_delete m h r) by done. simpl. by rewrite Hs.
Qed.

Lemma insert_htlcs_seq now hash rows db db' :
  insert_htlcs now hash rows db = Good db' →
  invoices db' = invoices db ∧ next_sequence db' = next_sequence db.
Proof.
  revert db. induction rows as [|[k a] rows IH]; intros db; simpl; [by intros [= <-]|].
  unfold insert_htlc. case_decide; [|done]. by intros [-> ->]%IH.
Qed.

Lemma seq_ok_call `{Lntypes} c db : seq_ok db → seq_ok (do_call c db).1.
Proof.
  intros [Hnd Hlt]. destruct c as [f now inv hs|f now key st]; simpl.
  - unfold RequestSettle. destruct f; [done|]. unfold insert_invoice. case_decide as Hrow; simpl.
    + destruct (insert_htlcs _ _ _ _) as [db2|e] eqn:Hi; simpl.
      * apply insert_htlcs_seq in Hi as [Ei En]. simpl in *. unfold seq_ok, seqs. rewrite Ei, En.
        rewrite (map_vals_insert (invoices db)) by apply Hrow. simpl. fold (seqs db). split.
        { constructor; [|done]. intros Hin. rewrite Forall_forall in Hlt. specialize (Hlt _ Hin). simpl in Hlt. lia. }
        constructor; [simpl; lia|]. eapply Forall_impl; [exact Hlt|]. simpl. lia.
      * split; [done|]. eapply Forall_impl; [exact Hlt|]. simpl. lia.
    + split; [done|]. eapply Forall_impl; [exact Hlt|]. simpl. lia.
  - destruct (MarkHtlcFinal f now key st db) as [db' o] eqn:Hm. simpl.
    assert (Hseq : next_sequence db' = next_sequence db).
    { revert Hm. unfold MarkHtlcFinal. destruct f; [by intros [= <- _]|].
      unfold markHtlcFinal_tx, mbind, result_bind. destruct (selectInvoiceForUpdate _ _) as [[h i]|];
        [|by intros [= <- _]]. case_decide; [by intros [= <- _]|]. unfold finalizeHTLC, finalizeInvoice.
      repeat case_match; simplify_eq/=; by intros [= <- _]. }
    apply MarkHtlcFinal_cases in Hm as [[-> _]|(o' & _ & Htx)]; [by split|].
    apply markHtlcFinal_Good in Htx as (r & inv & _ & Hinv & _ & _ & _ & Hcase).
    unfold seq_ok, seqs. rewrite Hseq.
    destruct Hcase as [(_ & -> & _)|(_ & _ & -> & _)]; [by split|].
    by rewrite (seqs_update _ _ inv).
Qed.

Lemma seq_ok_run `{Lntypes} cs db : seq_ok db → seq_ok (run_calls cs db).1.
Proof.
  revert db. induction cs as [|c cs IH]; intros db Hs; simpl; [done|].
  pose proof (seq_ok_call c db Hs) as Hs1. destruct (do_call c db) as [db1 o]. simpl in Hs1.
  specialize (IH db1 Hs1). by destruct (run_calls cs db1).
Qed.

Lemma filter_keeps_all {A} (P : A → Prop) `{∀ x, Decision (P x)} l : Forall P l → filter P l = l.
Proof. induction 1 as [|x l Hx _ IH]; [done|]. by rewrite filter_cons_True, IH. Qed.

Lemma filter_drops_all {A} (P : A → Prop) `{∀ x, Decision (P x)} l :
  Forall (λ x, ¬ P x) l → filter P l = [].
Proof. induction 1 as [|x l Hx _ IH]; [done|]. by rewrite filter_cons_False, IH. Qed.

(** The stored invoices from a sequence number on, in their order. *)
Definition rows_from (start : Z) (db : database) : list dbInvoice :=
  merge_sort seq_le (filter (λ r, start ≤ i_SequenceNum r) (map_vals (invoices db))).

#[local] Instance seq_le_trans : Transitive seq_le.
Proof. unfold seq_le. intros a b c. lia. Qed.
#[local] Instance seq_le_total : Total seq_le.
Proof. unfold seq_le. intros a b. lia. Qed.

Lemma NoDup_seq_inj (l : list dbInvoice) x y :
  NoDup (i_SequenceNum <$> l) → x ∈ l → y ∈ l → i_SequenceNum x = i_SequenceNum y → x = y.
Proof.
  intros Hnd [i Hi]%list_elem_of_lookup_1 [j Hj]%list_elem_of_lookup_1 E.
  assert (i = j) as ->; [|congruence]. eapply NoDup_lookup; [exact Hnd|..];
    rewrite list_lookup_fmap; [rewrite Hi|rewrite Hj]; simpl; [done|by f_equal].
Qed.

Lemma rows_from_split db start n p d x :
  seq_ok db → rows_from start db = p ++ d → last p = Some x → n = i_SequenceNum x + 1 →
  rows_from n db = d.
Proof.
  intros [Hnd _] Hrows Hx ->. unfold seqs in Hnd.
  set (rows := map_vals (invoices db)) in *.
  assert (Hperm : p ++ d ≡ₚ filter (λ r, start ≤ i_SequenceNum r) rows)
    by (rewrite <- Hrows; apply merge_sort_Permutation).
  assert (Hss : StronglySorted seq_le (p ++ d))
    by (rewrite <- Hrows; apply (StronglySorted_merge_sort seq_le)).
  assert (Hsub : ∀ y, y ∈ p ++ d → y ∈ rows ∧ start ≤ i_SequenceNum y).
  { intros y Hy. rewrite Hperm in Hy. apply list_elem_of_filter in Hy. naive_solver. }
  assert (Hndp : NoDup (i_SequenceNum <$> p ++ d)).
  { rewrite Hperm. eapply sublist_NoDup; [exact Hnd|]. apply fmap_sublist, sublist_filter. }
  destruct p as [|p0 p'] using rev_ind; [done|]. clear IHp'. rewrite last_snoc in Hx. simplify_eq.
  rewrite <- app_assoc in *. simpl in *.
  assert (Hafter : Forall (λ y, i_SequenceNum x + 1 ≤ i_SequenceNum y) d).
  { apply Forall_forall. intros y Hy. apply StronglySorted_app_1_r in Hss.
    apply StronglySorted_cons in Hss as [Hall _]. rewrite Forall_forall in Hall. specialize (Hall _ Hy).
    rewrite fmap_app, NoDup_app in Hndp. destruct Hndp as (_ & _ & Hnd2). simpl in Hnd2.
    apply NoDup_cons in Hnd2 as [Hnin _]. unfold seq_le in Hall.
    assert (i_SequenceNum y ≠ i_SequenceNum x); [|lia]. intros E. apply Hnin. rewrite <- E.
    by apply list_elem_of_fmap_2. }
  assert (Hbefore : Forall (λ y, ¬ i_SequenceNum x + 1 ≤ i_SequenceNum y) (p' ++ [x])).
  { apply Forall_app. split; [|apply Forall_singleton; lia]. apply Forall_forall. intros y Hy.
    apply (StronglySorted_app_1_elem_of seq_le p' (x :: d) y x) in Hss; [|done|left].
    unfold seq_le in Hss. lia. }
  assert (Hd : rows_from (i_SequenceNum x + 1) db ≡ₚ d).
  { unfold rows_from. rewrite merge_sort_Permutation. fold rows.
    rewrite <- (list_filter_filter_l (λ r, i_SequenceNum x + 1 ≤ i_SequenceNum r)
      (λ r, start ≤ i_SequenceNum r)).
    - rewrite <- Hperm. change (x :: d) with ([x] ++ d). rewrite (app_assoc p' [x] d), filter_app.
      by rewrite filter_drops_all, filter_keeps_all.
    - intros y Hy. destruct (Hsub x) as [_ Hs]; [set_solver|]. lia. }
  apply (StronglySorted_unique_strong seq_le).
  - intros y z Hy Hz Hyz Hzy. rewrite Hd in Hy. unfold seq_le in *.
    apply (NoDup_seq_inj rows); [done|apply Hsub; set_solver|apply Hsub; set_solver|lia].
  - apply (StronglySorted_merge_sort seq_le).
  - apply StronglySorted_app_1_r in Hss. by apply StronglySorted_cons in Hss as [_ ?].
  - done.
Qed.
Lemma seq_ok_empty : seq_ok empty_database.
Proof. split; constructor. Qed.

(** C38. Paging through the listing is complete: after any sequence of
    transactions the invoices from a sequence number on are, in order, one page
    followed by the invoices after the last one of that page; an empty page
    means that there are none. *)
Theorem listing_pages_complete `{Lntypes} (cs : list call) (start max : Z) (Hmax : 0 < max)
  (page : list Invoice)
  (Hpage : GetInvoices None max start (run_calls cs empty_database).1 = Good page) :
  let db := (run_calls cs empty_database).1 in
  (length page ≤ Z.to_nat max)%nat ∧
  match last page with
  | None => rows_from start db = []
  | Some x => unmarshallDbInvoice <$> rows_from start db =
              page ++ (unmarshallDbInvoice <$> rows_from (SequenceNum x + 1) db)
  end.
Proof.
  simpl. pose proof (seq_ok_run cs _ seq_ok_empty) as Hs.
  set (d := (run_calls cs empty_database).1) in *. revert Hpage. unfold GetInvoices; simpl.
  fold (rows_from start d). intros [= <-].
  split; [rewrite length_fmap, length_take; lia|]. rewrite fmap_last.
  destruct (last (take (Z.to_nat max) (rows_from start d))) as [x|] eqn:Hx; simpl.
  - rewrite (rows_from_split d start (i_SequenceNum x + 1) (take (Z.to_nat max) (rows_from start d))
      (drop (Z.to_nat max) (rows_from start d)) x); [|done|by rewrite take_drop|done|done].
    by rewrite <- fmap_app, take_drop.
  - apply last_None in Hx. destruct (rows_from start d) as [|y l]; [done|].
    destruct (Z.to_nat max) eqn:E; [lia|done].
Qed.

Import RealLntypes Example.

Lemma listing_pages_complete_witness :
  ∃ page, GetInvoices None 10 0 (run_calls calls empty_database).1 = Good page ∧
  (length page ≤ Z.to_nat 10)%nat ∧
  match last page with
  | None => rows_from 0 (run_calls calls empty_database).1 = []
  | Some x => unmarshallDbInvoice <$> rows_from 0 (run_calls calls empty_database).1 =
      page ++ (unmarshallDbInvoice <$>
                 rows_from (SequenceNum x + 1) (run_calls calls empty_database).1)
  end.
Proof.
  destruct (GetInvoices None 10 0 (run_calls calls empty_database).1) as [page|e] eqn:E.
  - exists page. split; [reflexivity|].
    apply (listing_pages_complete calls 0 10 eq_refl page E).
  - exfalso. unfold GetInvoices in E. discriminate E.
Defined.

End Listing.

(** ** The service on top of the registry *)
Module Service.
Import Registry RegFacts RegSafety PgFacts Calls Server.

Section Durable.
Context {Q : Type} `{PriorityQueue Q} `{!PriorityQueueLaws Q} `{Lntypes}.
Context (cfg : RegistryConfig) (key_hash : HtlcKey → Hash) (inv_amount : Hash → Z).
Implicit Types (w : InvoiceRegistry Q).

(** A settle request that succeeded is stored under its set id. *)
Lemma settle_success_stored env h id w w1 :
  Inv key_hash inv_amount w → handleSettleRequest cfg env h id w = Ok (w1, Good None) →
  is_Some (Pg.invoices (cdb w1) !! h) ∧ id = SetID.newSetID (map_keys (Pg.htlcs_of h (cdb w1))).
Proof.
  intros Hi. unfold handleSettleRequest.
  destruct (getAcceptedSet env h id w) as [[s|e]|e] eqn:Hg; [| |done].
  - apply getAcceptedSet_Good in Hg as [Hs Hcomp]. destruct (AutoSettle cfg); [done|].
    destruct (markSettleRequested env s w) as [w' [e|]] eqn:Hm; [done|].
    pose proof Hi as (Hc & Hdb & _). pose proof (co_set _ _ _ Hc _ _ Hs) as Hok.
    assert (Htot : Sets.exact_total s = inv_amount h).
    { pose proof (so_total _ _ _ _ Hok).
      destruct (decide (Sets.exact_total s < inv_amount h)) as [Hlt|]; [|lia].
      apply (complete_iff _ _ _ _ Hok) in Hlt. congruence. }
    destruct (db_ok_settle key_hash inv_amount env s w w' h) as (_ & _ & _ & Hset & Hrd); [done..|].
    unfold requestSettle. destruct (resolveAll _ _ _) as [w2|] eqn:Hr; simpl; [|done].
    apply resolveAll_cdb in Hr. intros [= <-]. rewrite Hr, Hrd. split.
    + pose proof (so_ne _ _ _ _ Hok) as Hne. apply map_choose in Hne as (k & a & Ha).
      destruct (Hset k) as (row & inv & _ & Hinv & _ & Hk); [by exists a|].
      apply (so_keys _ _ _ _ Hok) in Ha as [Hkh _]. rewrite Hk, Hkh in Hinv. eauto.
    + by apply Sets.isComplete_Some in Hcomp as [_ ->].
  - case_decide as He; [|done]. intros [= <-]. subst e. revert Hg. unfold getAcceptedSet.
    destruct (Sets.get h (sets w)) as [s|]; [by repeat case_match|].
    destruct (Pg.Get _ _ _) as [[inv hs]|err] eqn:HG; [|by case_decide].
    apply Get_Good in HG as (_ & -> & r & Hr & _). case_decide as Hid; [done|]. intros _.
    rewrite Hr. split; [eauto|done].
Qed.

(** C10. A successful SettleInvoice is durable: whatever happens afterwards,
    crashes and restarts included, the same call succeeds again without effect
    and CancelInvoice fails with FailedPrecondition. *)
Theorem settle_rpc_is_durable w (Hr : reachable cfg key_hash inv_amount w) (env : Env)
  (req_Hash req_SetId : bytes) (w1 : InvoiceRegistry Q)
  (Hset : SettleInvoice cfg env req_Hash req_SetId w = Ok (w1, Serving, Some (Good tt)))
  (evs : list sys_event) (Hevs : history cfg key_hash inv_amount evs) (env' : Env)
  (Henv : db_Get env' = None) :
  let w2 := run cfg evs w1 in
  SettleInvoice cfg env' req_Hash req_SetId w2 = Ok (w2, Serving, Some (Good tt)) ∧
  CancelInvoice cfg env' req_Hash req_SetId w2 =
    Ok (w2, Serving, Some (Bad (Status FailedPrecondition ErrSettleRequested))).
Proof.
  apply reachable_inv in Hr as Hi. revert Hset. unfold SettleInvoice, CancelInvoice.
  destruct (MakeHash req_Hash) as [h|]; [|done]. destruct (parseSetID req_SetId) as [id|]; [|done].
  unfold Calls.RequestSettle, Calls.CancelInvoice, request. simpl.
  destruct (handleSettleRequest cfg env h id w) as [[w' r]|] eqn:Hs; simpl; [|done].
  destruct r as [[e|]|e]; simpl;
    [by unfold settle_status; repeat case_decide| |by destruct (is_canceled e)].
  intros [= <-].
  assert (Hi1 : Inv key_hash inv_amount w').
  { pose proof (iteration_ok cfg key_hash inv_amount (EvSettle env h id) w Hi I) as Hit.
    simpl in Hit. rewrite Hs in Hit. simpl in Hit. apply Hit. }
  apply settle_success_stored in Hs as [Hst Hid]; [|done].
  destruct (run_ok cfg key_hash inv_amount evs w' Hi1 Hevs) as (Hi2 & Hle & _).
  pose proof (le_frozen _ _ Hle _ Hst) as Efr. destruct Hst as [inv Hinv].
  apply (le_invoices _ _ Hle) in Hinv as (inv' & Hinv' & _).
  unfold handleSettleRequest, handleCancelRequest.
  rewrite (stored_getAcceptedSet key_hash inv_amount env' h inv' id) by done.
  rewrite Efr. by destruct (decide (id = _)).
Qed.

End Durable.

Module Witness.
Import RealLntypes ListQueue RegExample RegSafety.Witness.

(** The client settles the set of the two htlcs that have been accepted. *)
Abbreviation settled_rpc :=
  (SettleInvoice (Q := queue) (deployment false) (at_time 3) hash (setID [1; 2]) accepted).

Lemma settle_rpc_is_durable_witness :
  ∃ w1, settled_rpc = Ok (w1, Serving, Some (Good tt)) ∧
    let w2 := run (Q := queue) (deployment false) replay_evs w1 in
    SettleInvoice (deployment false) (at_time 9) hash (setID [1; 2]) w2 =
      Ok (w2, Serving, Some (Good tt)) ∧
    CancelInvoice (deployment false) (at_time 9) hash (setID [1; 2]) w2 =
      Ok (w2, Serving, Some (Bad (Status FailedPrecondition ErrSettleRequested))).
Proof.
  destruct settled_rpc as [[[w1 r] a]|] eqn:E.
  - assert (Hra : r = Serving ∧ a = Some (Good tt)).
    { assert (Hv : (match settled_rpc with Ok x => Some (x.1.2, x.2) | Panic _ => None end) =
        Some (Serving, Some (Good tt))) by (vm_compute; reflexivity).
      rewrite E in Hv. injection Hv as -> ->. split; reflexivity. }
    destruct Hra as [-> ->]. exists w1. split; [reflexivity|].
    exact (settle_rpc_is_durable (Q := queue) (deployment false) key_hash inv_amount accepted
      (ex_intro _ accepted_evs (conj (accepted_wf false) eq_refl)) (at_time 3) hash (setID [1; 2]) w1 E
      replay_evs replay_history (at_time 9) eq_refl).
  - exfalso. assert (Hv : (match settled_rpc with Ok _ => true | Panic _ => false end) = true)
      by (vm_compute; reflexivity).
    rewrite E in Hv. discriminate Hv.
Defined.

(** The database refuses the write of a settle request. *)
Definition broken_db : Env :=
  let now := T0 + 3 * sec in MkEnv now now now now now now now None (Some "connection lost").

Lemma loop_error_blocks_clients_witness :
  ∃ w1, Calls.RequestSettle (deployment false) broken_db hash (setID [1; 2]) accepted =
          Ok (w1, Stopped false, NoAnswer) ∧
    NotifyExitHopHtlc (Stopped false) = BlockedForever ∧
    NotifyExitHopHtlc (Run_end (Some ErrCanceled)).1 = ShuttingDown.
Proof.
  destruct (markSettleRequested broken_db the_set accepted) as [w1 o] eqn:E.
  exists w1. refine (loop_error_blocks_clients (Q := queue) (deployment false) accepted broken_db
    hash (setID [1; 2]) the_set eq_refl _ w1
    (ErrWrap "cannot request settle in database" (ErrExternal "connection lost")) _ eq_refl).
  - vm_compute. reflexivity.
  - rewrite E. f_equal. change o with ((w1, o).2). rewrite <- E. vm_compute. reflexivity.
Defined.

End Witness.
End Service.
