(* ===== verification/Subscriptions.v ===== *)
(** Clients that listen for accepted invoices: the rpc [SubscribeInvoiceAccepted]
    of [cmd/lnmuxd/server.go], one goroutine per client, together with the event
    loop of the registry that calls their callbacks.

    A [system] is one process: the registry, the calls its loop still has to make
    in the current iteration, and the streams in the order in which the clients
    connected; a stream's callback is known to the registry by its position. The
    goroutines interleave freely: [act] names what one of them does next and
    [perform] does it, or is [None] when that goroutine cannot do it now. *)

From stdpp Require Import numbers strings base fin_maps gmap list.
From stdpp Require Import options.
From S2P Require Import Prelude Sha256 Types SetIds HtlcSets StatelessData Persistence PersistenceFacts Registry RegistryFacts RegistryExample RegistrySafety RegistryAnnounce InvoiceCreator Server.

Set Default Proof Using "Type*".

Module Subscriptions.
Import Subs Registry PgFacts RegFacts RegAnnounce Calls Server.

(** Where the handler of a client is: handing its subscription to the loop, in
    its own loop, in the deferred [cancel] or returned. *)
Inductive stream_pc :=
  | Connecting
  | Streaming
  | Cancelling (result : option rpc_error)
  | Returned (result : option rpc_error).

Record stream := MkStream {
  s_id : Z;                       (** [subscriberId] *)
  s_pc : stream_pc;
  s_sub : subscriber;             (** [bufferChan] and [closed] *)
  s_done : bool;                  (** [subscription.Context()] is done *)
  s_sent : list (Hash * SetID)    (** what [subscription.Send] delivered *)
}.

Definition set_pc (p : stream_pc) (st : stream) : stream :=
  MkStream (s_id st) p (s_sub st) (s_done st) (s_sent st).
Definition set_sub (u : subscriber) (st : stream) : stream :=
  MkStream (s_id st) (s_pc st) u (s_done st) (s_sent st).

Section Subscriptions.
Context {Q : Type} `{PriorityQueue Q} `{!PriorityQueueLaws Q} `{Lntypes}.
Context (cfg : RegistryConfig).

Record system := MkSystem {
  reg : InvoiceRegistry Q;
  running : run_state;
  calls : list effect;
  streams : list stream
}.

Definition start_system (db : Pg.database) : system := MkSystem (NewRegistry cfg db) Serving [] [].

Inductive act :=
  | Connect                                   (** a client calls the rpc *)
  | Subscribe (n : nat)                       (** the loop takes the subscription *)
  | LoopEvent (ev : event)                    (** the loop serves another event *)
  | Deliver (prefer_done : bool)              (** the loop makes its next call *)
  | ContextDone (n : nat)                     (** the client is gone *)
  | Send (n : nat) (send_err : option Error)  (** the handler takes from its queue *)
  | Leave (n : nat)                           (** the handler sees the context done *)
  | Unsubscribe (n : nat) (env : Env)         (** the loop takes the cancellation *)
  | Quit (n : nat).                           (** the handler sees [quit] closed *)

Definition set_stream (n : nat) (st : stream) (s : system) : system :=
  MkSystem (reg s) (running s) (calls s) (<[n := st]> (streams s)).

(** The loop serves one event; a panic ends the process. *)
Definition serve (ev : event) (s : system) : option system :=
  match running s, calls s with
  | Serving, [] =>
      match iteration cfg ev (reg s) with
      | Ok (w', status) =>
          Some (MkSystem w'
                  (match status with Continue _ => Serving | Exit err => (Run_end (Some err)).1 end)
                  (drop (length (effects (reg s))) (effects w')) (streams s))
      | Panic _ => None
      end
  | _, _ => None
  end.

Definition is_subscription (ev : event) : bool :=
  match ev with EvSubscribe _ _ | EvUnsubscribe _ _ => true | _ => false end.

(** The calls of an iteration, one after the other; those of resolvers are not
    a client's matter. *)
Definition deliver (prefer_done : bool) (s : system) : option system :=
  match calls s with
  | [] => None
  | Resolved _ _ _ :: es => Some (MkSystem (reg s) (running s) es (streams s))
  | Notified n h id :: es =>
      st ← streams s !! n;
      match accept_callback (s_done st) prefer_done (h, id) (s_sub st) with
      | Ok u => Some (MkSystem (reg s) (running s) es (<[n := set_sub u st]> (streams s)))
      | Panic _ => None
      end
  end.

Definition send (n : nat) (send_err : option Error) (st : stream) (s : system) : option system :=
  '(r, u) ← subscriber_take send_err (s_sub st);
  Some (set_stream n
    (match r with
     | SubSent e => MkStream (s_id st) (s_pc st) u (s_done st) (s_sent st ++ [e])
     | SubEnd err => set_pc (Cancelling err) (set_sub u st)
     end) s).

Definition perform (a : act) (s : system) : option system :=
  match a with
  | Connect =>
      match SubscribeAccept (length (streams s)) (reg s) with
      | (w', EvSubscribe id _) =>
          Some (MkSystem w' (running s) (calls s)
                  (streams s ++ [MkStream id Connecting new_subscriber false []]))
      | _ => None
      end
  | Subscribe n =>
      st ← streams s !! n;
      match s_pc st with
      | Connecting => set_stream n (set_pc Streaming st) <$> serve (EvSubscribe (s_id st) n) s
      | _ => None
      end
  | LoopEvent ev => if is_subscription ev then None else serve ev s
  | Deliver prefer_done => deliver prefer_done s
  | ContextDone n =>
      st ← streams s !! n;
      Some (set_stream n (MkStream (s_id st) (s_pc st) (s_sub st) true (s_sent st)) s)
  | Send n send_err =>
      st ← streams s !! n;
      match s_pc st with Streaming => send n send_err st s | _ => None end
  | Leave n =>
      st ← streams s !! n;
      match s_pc st with
      | Streaming => if s_done st then Some (set_stream n (set_pc (Cancelling None) st) s) else None
      | _ => None
      end
  | Unsubscribe n env =>
      st ← streams s !! n;
      match s_pc st with
      | Cancelling r => set_stream n (set_pc (Returned r) st) <$> serve (EvUnsubscribe env (s_id st)) s
      | _ => None
      end
  | Quit n =>
      st ← streams s !! n;
      match hand_over (running s), s_pc st with
      | ShuttingDown, Connecting =>
          Some (set_stream n (set_pc (Returned (Some (Plain ErrShuttingDown))) st) s)
      | ShuttingDown, Cancelling r => Some (set_stream n (set_pc (Returned r) st) s)
      | _, _ => None
      end
  end.

Fixpoint performs (acts : list act) (s : system) : option system :=
  match acts with
  | [] => Some s
  | a :: acts' => s' ← perform a s; performs acts' s'
  end.

(** ** The invariant *)

Context (key_hash : HtlcKey → Hash) (inv_amount : Hash → Z).

Definition wf_act (a : act) : Prop :=
  match a with LoopEvent ev => wf_event cfg key_hash inv_amount ev | _ => True end.

(** The subscription is known to the registry. *)
Definition registered (p : stream_pc) : bool :=
  match p with Streaming | Cancelling _ => true | _ => false end.

(** The handler has not left its loop. *)
Definition is_open (p : stream_pc) : bool :=
  match p with Connecting | Streaming => true | _ => false end.

(** What the client with callback [n] is told by the calls [es]. *)
Definition told (n : nat) (es : list effect) : list (Hash * SetID) :=
  omap (λ e, match e with
             | Notified m h id => if decide (m = n) then Some (h, id) else None
             | Resolved _ _ _ => None
             end) es.

(** The client has, or will be sent, the announcement of a set. *)
Definition informed (calls : list effect) (n : nat) (st : stream) (h : Hash) (id : SetID) : Prop :=
  (h, id) ∈ s_sent st ++ bufferChan (s_sub st) ∨ Notified n h id ∈ calls.

Record stream_ok (s : system) (n : nat) (st : stream) : Prop := {
  st_id : s_id st = i64 (Z.of_nat n + 1);
  st_chan : buffer_closed (s_sub st) = closed (s_sub st);
  st_bound : (length (bufferChan (s_sub st)) ≤ subscriberQueueSize)%nat;
  st_reg : registered (s_pc st) = true → subscribed (reg s) (s_id st) n;
  st_informed h id : s_pc st = Streaming → closed (s_sub st) = false → complete (reg s) h id →
    informed (calls s) n st h id;
  st_order : is_open (s_pc st) = true → ∃ rest,
    told n (effects (reg s)) = s_sent st ++ bufferChan (s_sub st) ++ rest ∧
    (closed (s_sub st) = false → rest = told n (calls s))
}.

Record sys_ok (s : system) : Prop := {
  sy_inv : Inv key_hash inv_amount (reg s);
  sy_next : nextSubscriberId (subs (reg s)) = Z.of_nat (length (streams s));
  sy_streams n st : streams s !! n = Some st → stream_ok s n st;
  sy_subs i n : subscribed (reg s) i n → ∃ st, streams s !! n = Some st ∧ s_id st = i ∧
    (running s = Serving → registered (s_pc st) = true);
  sy_calls n h id : Notified n h id ∈ calls s → (n < length (streams s))%nat;
  sy_told n h id : Notified n h id ∈ effects (reg s) → (n < length (streams s))%nat
}.

(** *** Small facts *)

Lemma id_inj (n m : nat) :
  Z.of_nat n + 1 < 2 ^ 64 → Z.of_nat m + 1 < 2 ^ 64 →
  i64 (Z.of_nat n + 1) = i64 (Z.of_nat m + 1) → n = m.
Proof.
  intros Hn Hm E. apply (f_equal u64) in E. rewrite !u64_i64 in E by (unfold is_u64; lia). lia.
Qed.

Lemma told_app n es es' : told n (es ++ es') = told n es ++ told n es'.
Proof. apply omap_app. Qed.

Lemma told_nobody n es : (∀ h id, Notified n h id ∉ es) → told n es = [].
Proof.
  induction es as [|e es IH]; intros Hes; [done|].
  change (e :: es) with ([e] ++ es). rewrite told_app.
  rewrite IH by (intros h id Hin; apply (Hes h id); by right).
  destruct e as [|m h id]; [done|]. unfold told; simpl. case_decide; [|done]. subst.
  destruct (Hes h id). by left.
Qed.

(** Calls that the loop adds to its list go to the end of what is told. *)
Lemma order_new n (old new : list effect) (sent queue rest : list (Hash * SetID)) (b : bool) :
  told n old = sent ++ queue ++ rest → (b = false → rest = []) →
  ∃ rest', told n (old ++ new) = sent ++ queue ++ rest' ∧ (b = false → rest' = told n new).
Proof.
  intros E Hr. exists (rest ++ told n new). rewrite told_app, E, !app_assoc. split; [done|].
  by intros ->%Hr.
Qed.

(** What is asked of a stream depends on the registry and the pending calls. *)
Lemma stream_ok_ext s s' n st :
  reg s' = reg s → calls s' = calls s → stream_ok s n st → stream_ok s' n st.
Proof.
  intros Er Ec [S1 S2 S3 S4 S5 S6]. split; [done..| | |]; rewrite Er, ?Ec; done.
Qed.

(** A handler does something of its own. *)
Lemma sys_ok_set_stream n st st' s :
  sys_ok s → streams s !! n = Some st → s_id st' = s_id st → stream_ok s n st' →
  (running s = Serving → registered (s_pc st) = true → registered (s_pc st') = true) →
  sys_ok (set_stream n st' s).
Proof.
  intros [I1 I2 I3 I4 I5 I6] Hn Eid Hok Hreg. pose proof (lookup_lt_Some _ _ _ Hn) as Hlt.
  split; simpl; [done|by rewrite length_insert| | |by rewrite length_insert..].
  - intros m st2 Hm. apply (stream_ok_ext s); [done..|].
    destruct (decide (m = n)) as [->|].
    + rewrite list_lookup_insert_eq in Hm by done. by simplify_eq.
    + rewrite list_lookup_insert_ne in Hm by done. by apply I3.
  - intros i m (st2 & Hm & Hi & Hr)%I4. destruct (decide (m = n)) as [->|].
    + exists st'. simplify_eq. rewrite list_lookup_insert_eq by done. split_and!; auto.
    + exists st2. by rewrite list_lookup_insert_ne.
Qed.

Lemma serve_Some ev s s' :
  serve ev s = Some s' →
  running s = Serving ∧ calls s = [] ∧ streams s' = streams s ∧
  ∃ st, iteration cfg ev (reg s) = Ok (reg s', st) ∧
    calls s' = drop (length (effects (reg s))) (effects (reg s')).
Proof.
  unfold serve. destruct (running s); [|done]. destruct (calls s); [|done].
  destruct (iteration cfg ev (reg s)) as [[w' st]|] eqn:E; [|done]. intros [= <-]. simpl. eauto 6.
Qed.

(** *** The loop *)

Lemma sys_ok_loop ev s s' :
  sys_ok s → is_subscription ev = false → wf_event cfg key_hash inv_amount ev →
  serve ev s = Some s' → sys_ok s'.
Proof.
  intros [I1 I2 I3 I4 I5 I6] Hev Hwf (Hrun & Hcalls & Estr & status & Hit & Enew)%serve_Some.
  pose proof (iteration_ok cfg key_hash inv_amount ev (reg s) I1 Hwf) as Hok. rewrite Hit in Hok.
  destruct (announces_iteration cfg key_hash inv_amount ev (reg s) (reg s') status)
    as (new & [Es Ee Hc Ho]); [by intros ?? ->|by intros ?? ->|by apply core_sets_ok, I1|done|].
  rewrite Ee, drop_app_length in Enew. unfold subscribed, only_subscribers in *.
  assert (Hnew : ∀ n h id, Notified n h id ∈ new → (n < length (streams s))%nat).
  { intros n h id (i & (st & Hn & _)%I4)%Ho. by eapply lookup_lt_Some. }
  split; rewrite ?Es, ?Estr; [apply Hok|done| | | |].
  - intros n st Hn. destruct (I3 _ _ Hn) as [S1 S2 S3 S4 S5 S6]. unfold subscribed in *.
    split; unfold subscribed; rewrite ?Es, ?Enew; [done..| |].
    + intros h id Hp Hcl Hco. destruct (Hc _ _ Hco) as [Hold|Hall].
      * left. destruct (S5 h id Hp Hcl Hold) as [?|Hin]; [done|]. rewrite Hcalls in Hin.
        by apply elem_of_nil in Hin.
      * right. eapply Hall, S4. by rewrite Hp.
    + intros Hp. destruct (S6 Hp) as (rest & Er & Hr). rewrite Ee.
      rewrite Hcalls in Hr. by eapply order_new.
  - intros i n. unfold subscribed. rewrite Es. intros (st & Hn & Hi & Hr)%I4. exists st.
    split_and!; auto.
  - intros n h id. rewrite Enew. apply Hnew.
  - intros n h id. rewrite Ee. intros [|]%elem_of_app; eauto.
Qed.

(** The loop takes a new subscription. *)
Lemma sys_ok_subscribe n st s s' :
  sys_ok s → Z.of_nat (length (streams s)) < 2 ^ 64 →
  streams s !! n = Some st → s_pc st = Connecting →
  serve (EvSubscribe (s_id st) n) s = Some s' → sys_ok (set_stream n (set_pc Streaming st) s').
Proof.
  intros [I1 I2 I3 I4 I5 I6] Hlen Hn Hpc (Hrun & Hcalls & Estr & status & Hit & Enew)%serve_Some.
  pose proof (lookup_lt_Some _ _ _ Hn) as Hlt.
  pose proof (iteration_ok cfg key_hash inv_amount (EvSubscribe (s_id st) n) (reg s) I1 I) as Hok.
  rewrite Hit in Hok. simpl in Hit.
  destruct (addAcceptSubscriber_announces key_hash inv_amount (s_id st) n (reg s))
    as (new & Eadd & Hall & Honly); [by apply core_sets_ok, I1|].
  rewrite Eadd in Hit. injection Hit as Ereg _. rewrite <- Ereg in Enew. simpl in Enew.
  rewrite drop_app_length in Enew.
  assert (Hco : ∀ h id, complete (reg s') h id → complete (reg s) h id) by by rewrite <- Ereg.
  assert (Hsub : ∀ i m, subscribed (reg s') i m ↔
    (i = s_id st ∧ m = n) ∨ (i ≠ s_id st ∧ subscribed (reg s) i m)).
  { intros i m. rewrite <- Ereg. unfold subscribed; simpl. rewrite lookup_insert_Some. naive_solver. }
  assert (Eeff : effects (reg s') = effects (reg s) ++ new) by by rewrite <- Ereg.
  assert (Horder : ∀ m st2, streams s !! m = Some st2 → is_open (s_pc st2) = true → ∃ rest,
    told m (effects (reg s')) = s_sent st2 ++ bufferChan (s_sub st2) ++ rest ∧
    (closed (s_sub st2) = false → rest = told m (calls s'))).
  { intros m st2 Hm Hp. destruct (st_order _ _ _ (I3 _ _ Hm) Hp) as (rest & Er & Hr).
    rewrite Eeff, Enew. rewrite Hcalls in Hr. by eapply order_new. }
  split; simpl; [apply Hok|by rewrite length_insert, Estr, <- Ereg| | | |].
  - intros m st2 Hm. rewrite Estr in Hm. destruct (decide (m = n)) as [->|Hmn].
    + rewrite list_lookup_insert_eq in Hm by done. injection Hm as <-.
      destruct (I3 _ _ Hn) as [S1 S2 S3 S4 S5 S6]. split; simpl; try done.
      * intros _. apply Hsub. by left.
      * intros h id _ _ Hc. right. rewrite Enew. by apply Hall, Hco.
      * intros _. apply (Horder n st Hn). by rewrite Hpc.
    + rewrite list_lookup_insert_ne in Hm by done.
      pose proof (lookup_lt_Some _ _ _ Hm) as Hlt2.
      destruct (I3 _ _ Hm) as [S1 S2 S3 S4 S5 S6], (I3 _ _ Hn) as [T1 _ _ _ _ _]. split; simpl; try done.
      * intros Hr. apply Hsub. right. split; [|by apply S4].
        rewrite S1, T1. intros E. apply Hmn. apply id_inj; [lia..|done].
      * intros h id Hp Hcl Hc%Hco. destruct (S5 h id Hp Hcl Hc) as [|Hin]; [by left|].
        rewrite Hcalls in Hin. by apply elem_of_nil in Hin.
      * by apply Horder.
  - intros i m [[-> ->]|[_ (st2 & Hm & Hi & Hr)%I4]]%Hsub; rewrite Estr.
    + exists (set_pc Streaming st). by rewrite list_lookup_insert_eq.
    + assert (m ≠ n) by (intros ->; simplify_eq; by rewrite Hpc in Hr; discriminate Hr).
      exists st2. rewrite list_lookup_insert_ne by done. split_and!; auto.
  - intros m h id. rewrite Enew, length_insert, Estr. by intros ->%Honly.
  - intros m h id. rewrite Eeff, length_insert, Estr. intros [?| ->%Honly]%elem_of_app; eauto.
Qed.

(** The loop takes a cancellation. *)
Lemma sys_ok_unsubscribe n env r st s s' :
  sys_ok s → Z.of_nat (length (streams s)) < 2 ^ 64 →
  streams s !! n = Some st → s_pc st = Cancelling r →
  serve (EvUnsubscribe env (s_id st)) s = Some s' → sys_ok (set_stream n (set_pc (Returned r) st) s').
Proof.
  intros [I1 I2 I3 I4 I5 I6] Hlen Hn Hpc (Hrun & Hcalls & Estr & status & Hit & Enew)%serve_Some.
  pose proof (lookup_lt_Some _ _ _ Hn) as Hlt.
  assert (Hreg : subscribed (reg s) (s_id st) n) by (apply (I3 _ _ Hn); by rewrite Hpc).
  simpl in Hit. unfold deleteAcceptSubscription in Hit. rewrite Hreg in Hit.
  injection Hit as Ereg _. rewrite <- Ereg in Enew. simpl in Enew. rewrite drop_all in Enew.
  assert (Hsub : ∀ i m, subscribed (reg s') i m ↔ i ≠ s_id st ∧ subscribed (reg s) i m).
  { intros i m. rewrite <- Ereg. unfold subscribed; simpl. rewrite lookup_delete_Some. naive_solver. }
  assert (Eeff : effects (reg s') = effects (reg s)) by by rewrite <- Ereg.
  split; simpl; [rewrite <- Ereg; by apply inv_set_subs|by rewrite length_insert, Estr, <- Ereg| | | |].
  - intros m st2 Hm. rewrite Estr in Hm. destruct (decide (m = n)) as [->|Hmn].
    + rewrite list_lookup_insert_eq in Hm by done. injection Hm as <-.
      destruct (I3 _ _ Hn) as [S1 S2 S3 S4 S5 S6]. by split.
    + rewrite list_lookup_insert_ne in Hm by done. pose proof (lookup_lt_Some _ _ _ Hm) as Hlt2.
      destruct (I3 _ _ Hm) as [S1 S2 S3 S4 S5 S6], (I3 _ _ Hn) as [T1 _ _ _ _ _]. split; simpl; try done.
      * intros Hr. apply Hsub. split; [|by apply S4].
        rewrite S1, T1. intros E. apply Hmn. apply id_inj; [lia..|done].
      * rewrite Enew, <- Hcalls. by rewrite <- Ereg.
      * by rewrite Eeff, Enew, <- Hcalls.
  - intros i m [Hi (st2 & Hm & Hid & Hr)%I4]%Hsub; rewrite Estr.
    assert (m ≠ n) by (intros ->; congruence).
    exists st2. rewrite list_lookup_insert_ne by done. split_and!; auto.
  - intros m h id. rewrite Enew. by intros []%elem_of_nil.
  - intros m h id. rewrite Eeff, length_insert, Estr. apply I6.
Qed.

(** *** Callbacks *)

(** The callback never sends on a closed channel, keeps the bound of the queue,
    and while the queue stays open the event is queued. *)
Lemma accept_callback_spec done prefer e u :
  buffer_closed u = closed u → (length (bufferChan u) ≤ subscriberQueueSize)%nat →
  ∃ u', accept_callback done prefer e u = Ok u' ∧ buffer_closed u' = closed u' ∧
    (length (bufferChan u') ≤ subscriberQueueSize)%nat ∧
    ((closed u' = true ∧ bufferChan u' = bufferChan u) ∨
     (closed u = false ∧ closed u' = false ∧ bufferChan u' = bufferChan u ++ [e])).
Proof.
  intros Hb Hlen. unfold accept_callback. destruct (closed u) eqn:Hc.
  { exists u. rewrite Hc. split_and!; auto. }
  rewrite Hb. case_decide; [destruct (done && prefer)|].
  - eexists. split_and!; auto.
  - eexists. split_and!; [done|done| |auto]. cbn [bufferChan]. rewrite length_app. simpl length. lia.
  - eexists. split_and!; auto.
Qed.

Lemma informed_tail e es n st h id :
  e ≠ Notified n h id → informed (e :: es) n st h id → informed es n st h id.
Proof. intros He [?|[?|?]%elem_of_cons]; [by left|congruence|by right]. Qed.

Lemma told_cons n e es :
  told n (e :: es) = told n [e] ++ told n es.
Proof. apply (told_app n [e] es). Qed.

(** The loop drops a call that is not the stream's. *)
Lemma stream_ok_other e es s s' n st :
  calls s = e :: es → calls s' = es → reg s' = reg s → (∀ h id, e ≠ Notified n h id) →
  stream_ok s n st → stream_ok s' n st.
Proof.
  intros Hcalls Ec Er He [S1 S2 S3 S4 S5 S6]. split; rewrite ?Er, ?Ec; try done.
  - intros h id Hp Hcl Hco. specialize (S5 h id Hp Hcl Hco). rewrite Hcalls in S5.
    by eapply informed_tail.
  - intros Hp. destruct (S6 Hp) as (rest & E & Hr). exists rest. split; [done|].
    intros ->%Hr. rewrite Hcalls, told_cons, told_nobody; [done|].
    intros h id Hin%list_elem_of_singleton. by apply (He h id).
Qed.

(** The callback of the stream is called. *)
Lemma stream_ok_called h id es s s' n st u :
  calls s = Notified n h id :: es → calls s' = es → reg s' = reg s → stream_ok s n st →
  buffer_closed u = closed u → (length (bufferChan u) ≤ subscriberQueueSize)%nat →
  (closed u = true ∧ bufferChan u = bufferChan (s_sub st)) ∨
  (closed (s_sub st) = false ∧ closed u = false ∧ bufferChan u = bufferChan (s_sub st) ++ [(h, id)]) →
  stream_ok s' n (set_sub u st).
Proof.
  intros Hcalls Ec Er [S1 S2 S3 S4 S5 S6] U1 U2 U3. split; rewrite ?Er, ?Ec; try done.
  - intros h' id' Hp Hcl Hco. simpl in Hp, Hcl. destruct U3 as [[? _]|(Hcl0 & _ & Hbuf)]; [congruence|].
    unfold informed; simpl. rewrite Hbuf, app_assoc, elem_of_app.
    specialize (S5 h' id' Hp Hcl0 Hco). rewrite Hcalls in S5.
    destruct S5 as [?|[[= <- <-]|?]%elem_of_cons]; [by left; left|left; right; by left|by right].
  - intros Hp. destruct (S6 Hp) as (rest & E & Hr). simpl.
    destruct U3 as [[Hcl Hbuf]|(Hcl0 & Hcl & Hbuf)]; rewrite E, Hbuf.
    + exists rest. split; [done|]. congruence.
    + rewrite (Hr Hcl0), Hcalls, told_cons. exists (told n es). split; [|done].
      rewrite <- app_assoc. do 2 f_equal. unfold told at 1; simpl. by rewrite decide_True.
Qed.

Lemma sys_ok_deliver p s s' : sys_ok s → deliver p s = Some s' → sys_ok s'.
Proof.
  intros [I1 I2 I3 I4 I5 I6]. unfold deliver. destruct (calls s) as [|e es] eqn:Hcalls; [done|].
  assert (Hrest : ∀ n h id, Notified n h id ∈ es → (n < length (streams s))%nat).
  { intros n h id Hin. eapply I5. by right. }
  destruct e as [k r res|n h id].
  - intros [= <-]. split; simpl; try done. intros n st Hn.
    eapply stream_ok_other; [exact Hcalls|done|done|done|]. by apply I3.
  - destruct (streams s !! n) as [st|] eqn:Hn; simpl; [|done].
    pose proof (lookup_lt_Some _ _ _ Hn) as Hlt. pose proof (I3 _ _ Hn) as Hst.
    destruct (accept_callback_spec (s_done st) p (h, id) (s_sub st)) as (u & -> & U1 & U2 & U3);
      [apply Hst..|].
    intros [= <-]. split; simpl; rewrite ?length_insert; try done.
    + intros m st2 Hm. destruct (decide (m = n)) as [->|Hmn].
      * rewrite list_lookup_insert_eq in Hm by done. injection Hm as <-. by eapply stream_ok_called.
      * rewrite list_lookup_insert_ne in Hm by done.
        eapply stream_ok_other; [exact Hcalls|done|done|congruence|]. by apply I3.
    + intros i m (st2 & Hm & Hi & Hr)%I4. destruct (decide (m = n)) as [->|].
      * exists (set_sub u st). simplify_eq. by rewrite list_lookup_insert_eq.
      * exists st2. by rewrite list_lookup_insert_ne.
Qed.

(** The handler takes from its queue. *)
Lemma sys_ok_send n err st s s' :
  sys_ok s → streams s !! n = Some st → s_pc st = Streaming → send n err st s = Some s' → sys_ok s'.
Proof.
  intros Hok Hn Hpc. destruct (sy_streams _ Hok _ _ Hn) as [S1 S2 S3 S4 S5 S6].
  unfold send, subscriber_take. destruct (bufferChan (s_sub st)) as [|e l] eqn:Hb.
  { destruct (buffer_closed (s_sub st)) eqn:Hbc; simpl; [|done]. intros [= <-].
    apply (sys_ok_set_stream n st); try done.
    split; simpl; [done|by rewrite Hbc|rewrite Hb; simpl; lia| |done..].
    intros _. apply S4. by rewrite Hpc. }
  simpl in S3. destruct err as [err|]; simpl; intros [= <-];
    apply (sys_ok_set_stream n st); try done; split; simpl; try (done || lia).
  - intros _. apply S4. by rewrite Hpc.
  - intros h id _ Hcl Hco. destruct (S5 h id Hpc Hcl Hco) as [Hin|]; [left|by right]; simpl.
    by rewrite Hb in Hin; rewrite <- app_assoc.
  - intros _. destruct S6 as (rest & E & Hr); [by rewrite Hpc|]. exists rest. rewrite E.
    by rewrite <- app_assoc.
Qed.

(** *** Every action *)

Lemma sys_ok_connect s s' :
  sys_ok s → perform Connect s = Some s' → Z.of_nat (length (streams s')) < 2 ^ 64 → sys_ok s'.
Proof.
  intros [I1 I2 I3 I4 I5 I6]. simpl. intros [= <-]; simpl. rewrite length_app; simpl. intros Hlen.
  assert (Hu : u64 (nextSubscriberId (subs (reg s)) + 1) = Z.of_nat (length (streams s)) + 1).
  { rewrite I2. apply u64_small. lia. }
  split; simpl; rewrite ?length_app; simpl.
  - by apply inv_set_subs.
  - rewrite Hu. lia.
  - intros n st Hn. apply lookup_app_Some in Hn as [Hn|[Hge Hn]].
    + destruct (I3 _ _ Hn) as [S1 S2 S3 S4 S5 S6]. by split.
    + apply list_lookup_singleton_Some in Hn as [Hz <-]. assert (n = length (streams s)) as -> by lia.
      split; simpl; [by rewrite Hu|done|lia|done|done|]. intros _. exists []. simpl.
      rewrite !told_nobody; [done|intros h id Hin%I5; lia|intros h id Hin%I6; lia].
  - intros i n (st & Hn & ?)%I4. exists st. split; [|done]. by apply lookup_app_l_Some.
  - intros n h id ?%I5. lia.
  - intros n h id ?%I6. lia.
Qed.

Lemma perform_streams a s s' :
  perform a s = Some s' → (length (streams s) ≤ length (streams s'))%nat.
Proof.
  assert (Hserve : ∀ ev s2, serve ev s = Some s2 → length (streams s2) = length (streams s))
    by by intros ev s2 (_ & _ & -> & _)%serve_Some.
  destruct a as [|n|ev|p|n|n err|n|n env|n]; simpl.
  - intros [= <-]; simpl. rewrite length_app. lia.
  - destruct (streams s !! n) as [st|]; simpl; [|done]. destruct (s_pc st); try done.
    intros (s2 & Hs & ->)%fmap_Some. simpl. rewrite length_insert. by rewrite (Hserve _ _ Hs).
  - destruct (is_subscription ev); [done|]. intros Hs. by rewrite (Hserve _ _ Hs).
  - unfold deliver. destruct (calls s) as [|[]]; [done|by intros [= <-]|].
    destruct (streams s !! _); simpl; [|done]. destruct (accept_callback _ _ _ _); [|done].
    intros [= <-]; simpl. by rewrite length_insert.
  - destruct (streams s !! n); simpl; [|done]. intros [= <-]; simpl. by rewrite length_insert.
  - destruct (streams s !! n) as [st|]; simpl; [|done]. destruct (s_pc st); try done. unfold send.
    destruct (subscriber_take _ _) as [[]|]; simpl; [|done]. intros [= <-]; simpl. by rewrite length_insert.
  - destruct (streams s !! n) as [st|]; simpl; [|done]. destruct (s_pc st); try done.
    destruct (s_done st); [|done]. intros [= <-]; simpl. by rewrite length_insert.
  - destruct (streams s !! n) as [st|]; simpl; [|done]. destruct (s_pc st); try done.
    intros (s2 & Hs & ->)%fmap_Some. simpl. rewrite length_insert. by rewrite (Hserve _ _ Hs).
  - destruct (streams s !! n) as [st|]; simpl; [|done].
    destruct (hand_over _), (s_pc st); try done; intros [= <-]; simpl; by rewrite length_insert.
Qed.

Lemma sys_ok_perform a s s' :
  wf_act a → sys_ok s → perform a s = Some s' → Z.of_nat (length (streams s')) < 2 ^ 64 → sys_ok s'.
Proof.
  intros Hwf Hok Hp Hlen. pose proof (perform_streams _ _ _ Hp) as Hle.
  assert (Hlen1 : Z.of_nat (length (streams s)) < 2 ^ 64) by lia. clear Hle.
  destruct a as [|n|ev|p|n|n err|n|n env|n]; [by eapply sys_ok_connect|..]; simpl in Hp;
    try (destruct (streams s !! n) as [st|] eqn:Hn; simpl in Hp; [|done];
         pose proof (sy_streams _ Hok _ _ Hn) as [S1 S2 S3 S4 S5 S6]).
  - destruct (s_pc st) eqn:Hpc; try done. apply fmap_Some in Hp as (s2 & Hs & ->).
    by eapply sys_ok_subscribe.
  - destruct (is_subscription ev) eqn:Hs; [done|]. by eapply sys_ok_loop.
  - by eapply sys_ok_deliver.
  - injection Hp as <-. by apply (sys_ok_set_stream n st).
  - destruct (s_pc st) eqn:Hpc; try done. by eapply sys_ok_send.
  - destruct (s_pc st) eqn:Hpc; try done. destruct (s_done st); [|done]. injection Hp as <-.
    by apply (sys_ok_set_stream n st).
  - destruct (s_pc st) eqn:Hpc; try done. apply fmap_Some in Hp as (s2 & Hs & ->).
    by eapply sys_ok_unsubscribe.
  - destruct (hand_over _) eqn:Hh; try done. assert (running s ≠ Serving) by (by intros E; rewrite E in Hh).
    destruct (s_pc st) eqn:Hpc; try done; injection Hp as <-;
      by apply (sys_ok_set_stream n st).
Qed.

Lemma sys_ok_start db : db_ok key_hash inv_amount db → sys_ok (start_system db).
Proof.
  intros Hdb. split; simpl.
  - by apply inv_start.
  - done.
  - intros n st. by rewrite lookup_nil.
  - intros i n. unfold subscribed; simpl. by rewrite lookup_empty.
  - intros n h id []%elem_of_nil.
  - intros n h id []%elem_of_nil.
Qed.

Lemma performs_streams acts s s' :
  performs acts s = Some s' → (length (streams s) ≤ length (streams s'))%nat.
Proof.
  revert s. induction acts as [|a acts IH]; intros s; simpl; [by intros [= <-]|].
  destruct (perform a s) as [s1|] eqn:Ha; simpl; [|done]. intros Hr%IH.
  apply perform_streams in Ha. lia.
Qed.

Lemma sys_ok_performs acts s s' :
  Forall wf_act acts → sys_ok s → performs acts s = Some s' →
  Z.of_nat (length (streams s')) < 2 ^ 64 → sys_ok s'.
Proof.
  revert s. induction acts as [|a acts IH]; intros s Hwf Hok; simpl; [by intros [= <-]|].
  apply Forall_cons in Hwf as [Ha Hwf].
  destruct (perform a s) as [s1|] eqn:Hp; simpl; [|done]. intros Hr Hlen.
  eapply IH; [done| |done|done]. eapply sys_ok_perform; [done..|].
  apply performs_streams in Hr. lia.
Qed.

(** ** Properties *)

(** C13. A client that listens for accepted invoices misses none: whatever
    the clients, the event loop and the nodes do and however they interleave,
    what a client in its stream has been sent, followed by its queue, is what
    the registry has told it, in order and each call once, up to the point
    where its queue overflowed; while it has not overflowed, only the calls the
    loop has pending are missing, and every set that is now complete in the
    registry, also one completed before the client connected, is among what the
    client has been sent, has queued or is about to be told. *)
Theorem open_stream_is_informed (db : Pg.database) (Hdb : db_ok key_hash inv_amount db)
  (acts : list act) (Hacts : Forall wf_act acts) (s : system)
  (Hs : performs acts (start_system db) = Some s) (Hlen : Z.of_nat (length (streams s)) < 2 ^ 64)
  (n : nat) (st : stream) (Hn : streams s !! n = Some st) (Hpc : s_pc st = Streaming) :
  (∃ rest, told n (effects (reg s)) = s_sent st ++ bufferChan (s_sub st) ++ rest ∧
     (closed (s_sub st) = false → rest = told n (calls s))) ∧
  (closed (s_sub st) = false → ∀ h x id, sets (reg s) !! h = Some x → Sets.isComplete x = Some id →
     (h, id) ∈ s_sent st ∨ (h, id) ∈ bufferChan (s_sub st) ∨ Notified n h id ∈ calls s).
Proof.
  pose proof (sys_ok_performs _ _ _ Hacts (sys_ok_start _ Hdb) Hs Hlen) as Hok.
  destruct (sy_streams _ Hok _ _ Hn) as [_ _ _ _ Hinf Hord]. split; [apply Hord; by rewrite Hpc|].
  intros Hopen h x id Hx Hid.
  destruct (Hinf h id Hpc Hopen) as [[|]%elem_of_app|]; [by exists x|auto..].
Qed.

(** C33. Clients neither block the registry nor leak in it: the queue of a
    client is bounded, a call that the event loop has to make can always be
    made at once, whatever the client does, and while the registry serves, its
    accept subscriptions are exactly the streams that are open or are being
    closed, each under an id of its own. *)
Theorem streams_do_not_block (db : Pg.database) (Hdb : db_ok key_hash inv_amount db)
  (acts : list act) (Hacts : Forall wf_act acts) (s : system)
  (Hs : performs acts (start_system db) = Some s) (Hlen : Z.of_nat (length (streams s)) < 2 ^ 64) :
  Forall (λ st, length (bufferChan (s_sub st)) ≤ subscriberQueueSize)%nat (streams s) ∧
  (∀ e es prefer, calls s = e :: es → ∃ s', perform (Deliver prefer) s = Some s' ∧ calls s' = es) ∧
  (running s = Serving → ∀ i n, acceptSubscriptions (subs (reg s)) !! i = Some n ↔
     ∃ st, streams s !! n = Some st ∧ s_id st = i ∧ registered (s_pc st) = true) ∧
  NoDup (s_id <$> streams s).
Proof.
  pose proof (sys_ok_performs _ _ _ Hacts (sys_ok_start _ Hdb) Hs Hlen) as Hok. split_and!.
  - apply Forall_lookup. intros n st Hn. apply (sy_streams _ Hok _ _ Hn).
  - intros e es prefer He. simpl. unfold deliver. rewrite He. destruct e as [|n h id]; [by eexists|].
    destruct (lookup_lt_is_Some_2 (streams s) n) as [st Hn].
    { apply (sy_calls _ Hok n h id). rewrite He. by left. }
    rewrite Hn. simpl. destruct (sy_streams _ Hok _ _ Hn) as [_ S2 S3 _ _ _].
    destruct (accept_callback_spec (s_done st) prefer (h, id) (s_sub st) S2 S3) as (u & -> & _).
    by eexists.
  - intros Hrun i n. split.
    + intros (st & Hn & Hi & Hr)%(sy_subs _ Hok). exists st. auto.
    + intros (st & Hn & <- & Hr). by apply (sy_streams _ Hok _ _ Hn).
  - apply NoDup_alt. intros i j x (st & -> & Hi)%list_lookup_fmap_Some (st' & E & Hj)%list_lookup_fmap_Some.
    rewrite (st_id _ _ _ (sy_streams _ Hok _ _ Hi)), (st_id _ _ _ (sy_streams _ Hok _ _ Hj)) in E.
    apply lookup_lt_Some in Hi, Hj. apply id_inj; [lia..|done].
Qed.

End Subscriptions.

(** ** A client that is connected when an invoice is accepted, and a late one *)

Module Witness.
Import RealLntypes ListQueue RegExample.

Definition two_clients : list act :=
  [Connect; Subscribe 0; LoopEvent (ev_htlc 1 1 60 11); LoopEvent (ev_htlc 2 2 40 12); Deliver false;
   Send 0 None; Connect; Subscribe 1; Deliver false].

Definition first_state : system (Q := queue) := start_system (deployment false) Pg.empty_database.

Definition last_state : system (Q := queue) :=
  default first_state (performs (deployment false) two_clients first_state).

Lemma two_clients_wf : Forall (wf_act (deployment false) key_hash inv_amount) two_clients.
Proof. repeat (apply Forall_cons; split); simpl; try done; apply wf_example; lia. Qed.

Lemma two_clients_run : performs (deployment false) two_clients first_state = Some last_state.
Proof. vm_compute. reflexivity. Qed.

Definition late : stream :=
  MkStream 2 Streaming (MkSubscriber [(hash, setID [1; 2])] false false) false [].


Lemma open_stream_is_informed_witness :
  (hash, setID [1; 2]) ∈ s_sent late ∨ (hash, setID [1; 2]) ∈ bufferChan (s_sub late) ∨
  Notified 1 hash (setID [1; 2]) ∈ calls last_state.
Proof.
  destruct (open_stream_is_informed (deployment false) key_hash inv_amount Pg.empty_database
    (db_ok_empty key_hash inv_amount) two_clients two_clients_wf last_state two_clients_run) with (n := 1%nat)
    (st := late) as [_ Hall]; [vm_compute; reflexivity..|].
  apply (Hall eq_refl hash the_set); vm_compute; reflexivity.
Defined.

Lemma streams_do_not_block_witness :
  running last_state = Serving ∧ acceptSubscriptions (subs (reg last_state)) !! 2 = Some 1%nat ∧
  NoDup (s_id <$> streams last_state).
Proof.
  destruct (streams_do_not_block (deployment false) key_hash inv_amount Pg.empty_database
    (db_ok_empty key_hash inv_amount) two_clients two_clients_wf last_state two_clients_run)
    as (_ & _ & Hsubs & Hnd); [vm_compute; reflexivity|].
  split; [vm_compute; reflexivity|]. split; [|exact Hnd].
  apply Hsubs; [vm_compute; reflexivity|]. exists late.
  split; [vm_compute; reflexivity|]. split; reflexivity.
Defined.

End Witness.
End Subscriptions.
