(* ===== verification/Payments.v ===== *)
(** Paying an invoice in parts: the htlcs of a multi-part payment, in any order,
    against the registry ([process] of [invoiceregistry.go]), for an invoice that
    [AddInvoice] has created. *)

From stdpp Require Import numbers strings base fin_maps gmap list.
From stdpp Require Import options.
From S2P Require Import Prelude Sha256 Types SetIds HtlcSets StatelessData Persistence PersistenceFacts Registry RegistryFacts RegistryExample RegistrySafety InvoiceCreator Server.

Set Default Proof Using "Type*".

Module Payments.
Import Subs Registry PgFacts RegFacts RegSafety Calls Server.

(** ** The htlcs of a list of parts *)

Definition key_amt (p : Env * registryHtlc) : HtlcKey * Z := (circuitKey p.2, amtPaid p.2).
Definition keys (ps : list (Env * registryHtlc)) : list HtlcKey := (key_amt <$> ps).*1.
Definition total (ps : list (Env * registryHtlc)) : Z := Zsum (key_amt <$> ps).*2.
Definition pay (ps : list (Env * registryHtlc)) : list sys_event :=
  (λ p, SysEvent (EvHtlc p.1 p.2)) <$> ps.

Lemma total_cons p ps : total (p :: ps) = amtPaid p.2 + total ps.
Proof. done. Qed.

Definition added (ps : list (Env * registryHtlc)) (m : gmap HtlcKey Z) : gmap HtlcKey Z :=
  foldl (λ m p, <[circuitKey p.2 := amtPaid p.2]> m) m ps.

Lemma added_snoc ps p m : added (ps ++ [p]) m = <[circuitKey p.2 := amtPaid p.2]> (added ps m).
Proof. unfold added. by rewrite foldl_app. Qed.

(** [ps] are different htlcs, none of them in [m]. *)
Definition fresh (ps : list (Env * registryHtlc)) (m : gmap HtlcKey Z) : Prop :=
  NoDup (keys ps) ∧ ∀ k, k ∈ keys ps → m !! k = None.

Lemma fresh_cons p ps m :
  fresh (p :: ps) m → m !! circuitKey p.2 = None ∧ fresh ps (<[circuitKey p.2 := amtPaid p.2]> m).
Proof.
  intros [[Hn Hnd]%NoDup_cons Hm]. split; [apply Hm; by left|]. split; [done|].
  intros k Hk. rewrite lookup_insert_ne; [|by intros <-]. apply Hm. by right.
Qed.

Lemma fresh_snoc ps p m :
  fresh (ps ++ [p]) m → fresh ps m ∧ added ps m !! circuitKey p.2 = None.
Proof.
  revert m. induction ps as [|q ps IH]; intros m Hf.
  { apply fresh_cons in Hf as [Hn _]. split; [|done]. split; [constructor|]. by intros k []%elem_of_nil. }
  pose proof Hf as [Hnd Hm]. apply fresh_cons in Hf as [Hn Hf]. destruct (IH _ Hf) as [_ Hp].
  split; [|done]. unfold keys in *. rewrite !fmap_app in Hnd. split.
  - by apply NoDup_app in Hnd as [? _].
  - intros k Hk. apply Hm. rewrite !fmap_app, elem_of_app. by left.
Qed.

Lemma added_facts ps m :
  fresh ps m →
  Zsum (map_vals (added ps m)) = Zsum (map_vals m) + total ps ∧
  map_keys (added ps m) ≡ₚ keys ps ++ map_keys m.
Proof.
  revert m. induction ps as [|p ps IH]; intros m Hf; [by split; [unfold total; simpl; lia|]|].
  apply fresh_cons in Hf as [Hn Hf]. destruct (IH _ Hf) as [E1 E2].
  change (added (p :: ps) m) with (added ps (<[circuitKey p.2 := amtPaid p.2]> m)).
  rewrite E1, E2, map_vals_insert, map_keys_insert by done. rewrite Zsum_cons, total_cons. split; [lia|].
  symmetry. apply Permutation_middle.
Qed.

Section Waits.
Context {Q : Type} `{PriorityQueue Q}.
Implicit Types (w : InvoiceRegistry Q).

(** The resolver [r] waits for the outcome of [k]. *)
Definition waits w (k : HtlcKey) (r : nat) : Prop :=
  ∃ l, hodlSubscriptions w !! k = Some l ∧ r ∈ l.

Lemma waits_hodlSubscribe w k r k' r' :
  waits (hodlSubscribe r k w) k' r' ↔ waits w k' r' ∨ (k' = k ∧ r' = r).
Proof.
  unfold waits; simpl. destruct (decide (k' = k)) as [->|Hn].
  - rewrite lookup_insert_eq. destruct (hodlSubscriptions w !! k) as [l|]; simpl.
    + split.
      * intros (l' & [= <-] & [|]%elem_of_app); [eauto|]. set_solver.
      * intros [(l' & [= <-] & ?)|[_ ->]]; eexists; (split; [done|]); set_solver.
    + split; [intros (l' & [= <-] & ?)|intros [(l' & [=] & _)|[_ ->]]; eexists; (split; [done|])]; set_solver.
  - rewrite lookup_insert_ne by done. naive_solver.
Qed.

End Waits.

Section Parts.
Context {Q : Type} `{PriorityQueue Q} `{!PriorityQueueLaws Q} `{Lntypes} `{!LntypesLaws}.
Context (cfg : RegistryConfig) (key_hash : HtlcKey → Hash) (inv_amount : Hash → Z).
Context (pre : Preimage) (addr : bytes) (amt : Z) (exp : Time).
Implicit Types (w : InvoiceRegistry Q).

Abbreviation hash := (PreimageHash pre).

(** An htlc that pays a part of the invoice in time, and what the registry reads
    while it processes it. *)
Record part_ok (p : Env * registryHtlc) : Prop := {
  pt_wf : wf_htlc cfg key_hash inv_amount p.2;
  pt_hash : rHash p.2 = hash;
  pt_payload : payload p.2 = Some (MkMPP amt addr);
  pt_amt : 0 < amtPaid p.2;
  pt_node : length (Node (circuitKey p.2)) = 33%nat;
  pt_cltv : u32 (i32 (currentHeight p.2 + FinalCltvRejectDelta cfg)) ≤ expiry p.2;
  pt_time : t_expiry p.1 ≤ exp;
  pt_get : db_Get p.1 = None;
  pt_store : db_RequestSettle p.1 = None
}.

(** The set that holds the htlcs [m]. *)
Definition part_set (m : gmap HtlcKey Z) : Sets.htlcSetImpl :=
  Sets.MkSet (Sets.MkParams pre amt addr) m.

(** The registry holds the htlcs [m] for the invoice, which is not stored. *)
Definition holds w (m : gmap HtlcKey Z) : Prop :=
  Pg.invoices (cdb w) !! hash = None ∧
  (sets w !! hash = Some (part_set m) ∨ (sets w !! hash = None ∧ m = ∅)).

Definition listening w : Prop := AutoSettle cfg = true ∨ acceptSubscriptions (subs w) ≠ ∅.

Context (Hlen : length pre = 32%nat) (Hamt : 0 < amt < 2 ^ 63).
Context (Hdec : Stateless.decodeStatelessData (PrivKey cfg) addr =
                  Good (Stateless.MkStatelessData amt exp pre)).

Lemma part_total m : 0 ≤ Zsum (map_vals m) < 2 ^ 63 → Sets.totalSetAmt (part_set m) = Zsum (map_vals m).
Proof. apply (Sets.totalSetAmt_small (part_set m)). Qed.

Lemma listening_adds w env :
  listening w → negb (AutoSettle cfg) && negb (hasRecentSubscribers (t_recent env) (subs w)) = false.
Proof.
  intros [->|Hne]; [done|]. unfold hasRecentSubscribers. rewrite bool_decide_true; [by rewrite andb_false_r|].
  assert (size (acceptSubscriptions (subs w)) ≠ 0%nat); [|lia]. by rewrite map_size_empty_iff.
Qed.

(** A part that the invoice still needs is added to the set. *)
Lemma process_part env x w m :
  part_ok (env, x) → holds w m → listening w → m !! circuitKey x = None →
  0 ≤ Zsum (map_vals m) → Zsum (map_vals m) + amtPaid x ≤ amt →
  process cfg env x w =
    afterAccept cfg env x (Stateless.MkStatelessData amt exp pre)
      (part_set (<[circuitKey x := amtPaid x]> m))
      (hodlSubscribe (resolve x) (circuitKey x)
         (set_sets (<[hash := part_set (<[circuitKey x := amtPaid x]> m)]> (sets w)) w)).
Proof.
  intros [_ Hh Hp Ha _ Hc Ht Hg _] [Hnone Hset] Hl Hnew Hpos Hle. simpl in *.
  unfold process, resolveViaDb, Pg.Get. rewrite Hg, Hh, Hnone, decide_True by done. rewrite Hp. simpl.
  rewrite decide_False by lia. rewrite Hdec. simpl. rewrite decide_False by (by intros Hn; apply Hn).
  rewrite decide_False by (intros Hn; apply Hn; rewrite u64_small; lia).
  assert (Hchk : ∀ t, t = Zsum (map_vals m) →
    checkNewHtlc cfg env x (MkMPP amt addr) (Stateless.MkStatelessData amt exp pre) t = None).
  { intros t ->. unfold checkNewHtlc, Time.Before; simpl. replace (exp <? t_expiry env) with false by lia.
    rewrite (u64_small (Zsum _)), (u64_small (Zsum _ + _)) by lia. replace (amt <? _) with false by lia.
    by replace (expiry x <? _) with false by lia. }
  unfold processInvoiceHtlc, Sets.get. rewrite Hh. destruct Hset as [Hs|[Hs ->]]; rewrite Hs.
  - replace (Sets.accepted _ _) with false
      by (symmetry; apply Sets.accepted_false; exact Hnew).
    rewrite Hchk by (apply part_total; lia). unfold addToSet, Sets.addHtlc; simpl. rewrite Hnew. simpl.
    by rewrite Hh, i64_small by lia.
  - rewrite Hchk by done. unfold addToSet. rewrite listening_adds by done.
    unfold Sets.add, Sets.addHtlc; simpl. rewrite Hs, lookup_empty. simpl. by rewrite i64_small by lia.
Qed.

(** The amounts and keys are those of parts. *)
Definition good (m : gmap HtlcKey Z) : Prop :=
  map_Forall (λ k a, key_hash k = hash ∧ length (Node k) = 33%nat ∧ 0 < a) m.

Lemma good_insert p m : part_ok p → good m → good (<[circuitKey p.2 := amtPaid p.2]> m).
Proof.
  intros Hp Hm. apply map_Forall_insert_2; [|done]. destruct Hp as [Hwf Hh _ Ha Hn _ _ _ _].
  split_and!; [|done|done]. by rewrite (wf_key _ _ _ _ Hwf), Hh.
Qed.

Lemma total_nonneg ps : Forall part_ok ps → 0 ≤ total ps.
Proof.
  intros Hps. apply Zsum_nonneg. rewrite Forall_fmap, Forall_fmap. eapply Forall_impl; [exact Hps|].
  intros p Hp. pose proof (pt_amt _ Hp). simpl. lia.
Qed.

(** *** All parts but the last *)

(** Nothing but the set, the resolvers and the timers has changed. *)
Record holding w w' (ps : list (Env * registryHtlc)) (m : gmap HtlcKey Z) : Prop := {
  ho_cdb : cdb w' = cdb w;
  ho_subs : subs w' = subs w;
  ho_effects : effects w' = effects w;
  ho_holds : holds w' (added ps m);
  ho_good : good (added ps m);
  ho_waits k r : waits w k r → waits w' k r;
  ho_parts p : p ∈ ps → waits w' (circuitKey p.2) (resolve p.2)
}.

Lemma pay_parts ps w m :
  Forall part_ok ps → holds w m → good m → listening w → fresh ps m →
  0 ≤ Zsum (map_vals m) → Zsum (map_vals m) + total ps < amt →
  holding w (run cfg (pay ps) w) ps m.
Proof.
  revert w m. induction ps as [|p ps IH]; intros w m Hps Hh Hg Hl Hf Hpos Hlt.
  { split; try done. intros p []%elem_of_nil. }
  apply Forall_cons in Hps as [Hp Hps]. apply fresh_cons in Hf as [Hn Hf].
  destruct p as [env x]. simpl in Hn, Hf. pose proof (total_nonneg _ Hps) as Hnn.
  pose proof (pt_amt _ Hp) as Hpa. rewrite total_cons in Hlt. simpl in Hpa, Hlt.
  set (m' := <[circuitKey x := amtPaid x]> m) in *.
  assert (Hsum : Zsum (map_vals m') = amtPaid x + Zsum (map_vals m))
    by (unfold m'; by rewrite map_vals_insert, Zsum_cons).
  assert (Hstep : ∃ w1, process cfg env x w = Ok (w1, None) ∧ cdb w1 = cdb w ∧ subs w1 = subs w ∧
    effects w1 = effects w ∧ sets w1 !! hash = Some (part_set m') ∧
    ∀ k r, waits w1 k r ↔ waits w k r ∨ (k = circuitKey x ∧ r = resolve x)).
  { rewrite (process_part env x w m) by (done || lia). unfold afterAccept. fold m'.
    replace (Sets.isComplete (part_set m')) with (@None SetID).
    2:{ symmetry. apply Sets.isComplete_None. rewrite part_total by lia. simpl. lia. }
    eexists. split_and!; [done..| |]; [apply lookup_insert_eq|]. intros k r.
    apply (waits_hodlSubscribe (set_sets _ w)). }
  destruct Hstep as (w1 & Hproc & E1 & E2 & E3 & E4 & E5).
  assert (Hrun : run cfg (pay ((env, x) :: ps)) w = run cfg (pay ps) w1).
  { unfold run, pay. simpl. by rewrite Hproc. }
  rewrite Hrun. destruct (IH w1 m') as [I1 I2 I3 I4 I5 I6 I7]; try done.
  - split; [rewrite E1; apply Hh|by left].
  - by apply (good_insert (env, x)).
  - unfold listening. by rewrite E2.
  - lia.
  - lia.
  - split; [congruence..|done|done| |].
    + intros k r Hw. apply I6, E5. by left.
    + intros p [->|Hin]%elem_of_cons; [|by apply I7]. apply I6, E5. by right.
Qed.

(** *** The last part *)

Lemma part_set_ok m :
  inv_amount hash = amt → good m → m ≠ ∅ → Zsum (map_vals m) ≤ amt →
  set_ok key_hash inv_amount hash (part_set m).
Proof.
  intros Hia Hg Hne Hle. split; simpl; [done..| |done|].
  - eapply map_Forall_impl; [exact Hg|]. intros k a (? & _ & ?). split; [done|lia].
  - unfold Sets.exact_total; simpl. rewrite Hia. lia.
Qed.

Lemma part_complete m :
  Zsum (map_vals m) = amt → Sets.isComplete (part_set m) = Some (SetID.newSetID (map_keys m)).
Proof. intros Hs. apply Sets.isComplete_Some. rewrite part_total by lia. done. Qed.

(** The application is told, and the set is held. *)
Definition accepted w w' (ps : list (Env * registryHtlc)) : Prop :=
  let id := SetID.newSetID (keys ps) in
  (∃ s, sets w' !! hash = Some s ∧ Sets.isComplete s = Some id ∧ map_keys (Sets.htlcs s) ≡ₚ keys ps) ∧
  effects w' = effects w ++ ((λ cb, Notified cb hash id) <$> map_vals (acceptSubscriptions (subs w))) ∧
  cdb w' = cdb w ∧
  ∀ p, p ∈ ps → waits w' (circuitKey p.2) (resolve p.2).

(** Every htlc is settled at once. *)
Definition settled w w' (ps : list (Env * registryHtlc)) : Prop :=
  ∃ new, effects w' = effects w ++ new ∧ ∀ p, p ∈ ps →
    Resolved (circuitKey p.2) (resolve p.2) (HtlcSettleResolution pre ResultSettled) ∈ new ∧
    settled_in key_hash (cdb w') (circuitKey p.2) pre.

(** An auto-settling registry stores the complete set [m] and calls the resolvers
    that wait in [w2]. *)
Lemma settle_at_once env x (m : gmap HtlcKey Z) (w2 : InvoiceRegistry Q) :
  db_ok key_hash inv_amount (cdb w2) → Pg.invoices (cdb w2) !! hash = None → inv_amount hash = amt →
  db_RequestSettle env = None → AutoSettle cfg = true →
  good m → m ≠ ∅ → Zsum (map_vals m) = amt → sets w2 !! hash = Some (part_set m) →
  ∃ w' new, afterAccept cfg env x (Stateless.MkStatelessData amt exp pre) (part_set m) w2 = Ok (w', None) ∧
    effects w' = effects w2 ++ new ∧ ∀ k, k ∈ map_keys m →
      settled_in key_hash (cdb w') k pre ∧
      ∀ r, waits w2 k r → Resolved k r (HtlcSettleResolution pre ResultSettled) ∈ new.
Proof.
  intros Hdb Hnone Hia Henv Hauto Hg Hne Hsum Hs. unfold afterAccept. rewrite part_complete, Hauto by done.
  set (w3 := notifySubscribers _ _ _).
  assert (Hok : set_ok key_hash inv_amount hash (part_set m)) by (apply part_set_ok; (done || lia)).
  destruct (mark_succeeds key_hash inv_amount env hash (part_set m) w3) as [w4 Hm]; [done..|lia| |].
  { eapply map_Forall_impl; [exact Hg|]. by intros k a (_ & ? & ?). }
  destruct (db_ok_settle key_hash inv_amount env (part_set m) w3 w4 hash) as (_ & _ & _ & Hset & _);
    [done|done|unfold Sets.exact_total; simpl; lia|done|].
  rewrite Hm. pose proof (mark_fields _ _ _ _ _ Hm) as (Es & Ehd & _ & Ee). unfold requestSettle.
  destruct (resolveAll_spec (part_set m) (NewSettleResolution pre ResultSettled) w4)
    as (w5 & Hr & Ed & _ & _ & _ & _ & E5).
  { rewrite Es. unfold Sets.hash; simpl. rewrite Hs. eauto. }
  simpl. rewrite Hr. simpl. eexists _, _. split; [done|].
  rewrite E5, Ee. simpl. rewrite <- app_assoc. split; [done|]. intros k Hk. split.
  - rewrite Ed. apply Hset. by apply elem_of_map_keys in Hk.
  - intros r (l & Hl' & Hrl). apply elem_of_app. right. apply elem_of_resolutions.
    exists k, r, l. rewrite Ehd. by split_and!.
Qed.

(** The last part completes the set: [w1] holds the other parts [ps]. *)
Lemma last_part ps env x w w1 :
  Inv key_hash inv_amount w1 → inv_amount hash = amt → part_ok (env, x) → listening w →
  holding w w1 ps ∅ → fresh (ps ++ [(env, x)]) ∅ → 0 ≤ total ps →
  total (ps ++ [(env, x)]) = amt →
  ∃ w', process cfg env x w1 = Ok (w', None) ∧
    if AutoSettle cfg then settled w w' (ps ++ [(env, x)]) else accepted w w' (ps ++ [(env, x)]).
Proof.
  intros (_ & Hdb & _) Hia Hp Hl [E1 E2 E3 Hh Hg Hw Hps] Hf Hnn Htot.
  destruct (added_facts _ _ Hf) as [Hsum Hkeys]. rewrite Htot, map_vals_empty in Hsum. simpl in Hsum.
  rewrite map_keys_empty, app_nil_r in Hkeys. apply fresh_snoc in Hf as [Hf1 Hnew]. simpl in Hnew.
  destruct (added_facts _ _ Hf1) as [Hsum1 _]. rewrite map_vals_empty in Hsum1. simpl in Hsum1.
  rewrite added_snoc in Hsum, Hkeys. simpl in Hsum, Hkeys.
  pose proof (map_vals_insert (added ps ∅) (circuitKey x) (amtPaid x) Hnew) as Hv.
  rewrite (process_part env x w1 (added ps ∅)); [|done|done|unfold listening; by rewrite E2|done|lia|].
  2:{ rewrite Hv, Zsum_cons in Hsum. lia. }
  set (m' := <[circuitKey x := amtPaid x]> (added ps ∅)) in *. set (w2 := hodlSubscribe _ _ _).
  assert (Hwaits : ∀ p, p ∈ ps ++ [(env, x)] → waits w2 (circuitKey p.2) (resolve p.2)).
  { intros p [Hin| ->%list_elem_of_singleton]%elem_of_app; apply (waits_hodlSubscribe (set_sets _ w1));
      [left; by apply Hps|by right]. }
  destruct (AutoSettle cfg) eqn:Hauto.
  - destruct (settle_at_once env x m' w2) as (w' & new & Haa & Ee & Hall);
      [done|apply Hh|done|by apply (pt_store _ Hp)|done|by apply (good_insert (env, x))|
       apply insert_non_empty|done|apply lookup_insert_eq|].
    exists w'. split; [done|]. exists new. split; [by rewrite Ee; simpl; rewrite E3|]. intros p Hin.
    destruct (Hall (circuitKey p.2)) as [Hset Hres]; [|auto].
    rewrite Hkeys. apply list_elem_of_fmap. exists (key_amt p). split; [done|]. apply list_elem_of_fmap. eauto.
  - unfold afterAccept.
    assert (Hid : SetID.newSetID (map_keys m') = SetID.newSetID (keys (ps ++ [(env, x)]))) by by rewrite Hkeys.
    rewrite part_complete, Hid, Hauto by done.
    eexists. split; [done|]. pose proof (pt_hash _ Hp) as Hrh. simpl in Hrh.
    split_and!; [|by simpl; rewrite E2, E3, Hrh|exact E1|exact Hwaits].
    exists (part_set m'). by rewrite part_complete, Hid by done; simpl; rewrite lookup_insert_eq.
Qed.

(** All parts. *)
Lemma pay_all ps w :
  Inv key_hash inv_amount w → inv_amount hash = amt → Forall part_ok ps → NoDup (keys ps) → total ps = amt →
  listening w → Pg.invoices (cdb w) !! hash = None → sets w !! hash = None →
  let w' := run cfg (pay ps) w in
  if AutoSettle cfg then settled w w' ps else accepted w w' ps.
Proof.
  intros Hi Hia Hps Hnd Htot Hl Hnone Hno. destruct ps as [|[env x] ps _] using rev_ind.
  { unfold total in Htot; simpl in Htot. lia. }
  apply Forall_app in Hps as [Hps [Hp _]%Forall_cons].
  assert (Hf : fresh (ps ++ [(env, x)]) ∅) by by split.
  pose proof (fresh_snoc _ _ _ Hf) as [Hf1 _]. pose proof (total_nonneg _ Hps) as Hnn.
  assert (Htot1 : total (ps ++ [(env, x)]) = total ps + amtPaid x).
  { unfold total. rewrite !fmap_app, Zsum_app. simpl. lia. }
  pose proof (pt_amt _ Hp) as Hpa. simpl in Hpa.
  assert (Hhold : holding w (run cfg (pay ps) w) ps ∅).
  { apply pay_parts; [done|split; auto|apply map_Forall_empty|done|done| |];
      rewrite map_vals_empty; simpl; lia. }
  assert (Hi1 : Inv key_hash inv_amount (run cfg (pay ps) w)).
  { apply (run_ok cfg key_hash inv_amount); [done|]. unfold pay. rewrite Forall_fmap.
    eapply Forall_impl; [exact Hps|]. intros p Hq. apply (pt_wf _ Hq). }
  destruct (last_part ps env x w _ Hi1 Hia Hp Hl Hhold Hf Hnn Htot) as (w' & Hproc & Hres).
  replace (run cfg (pay (ps ++ [(env, x)])) w) with w'; [done|].
  unfold pay, run. rewrite fmap_app, foldl_app. simpl. fold (pay ps) (run cfg (pay ps) w).
  by rewrite Hproc.
Qed.

End Parts.

(** C12. An invoice from AddInvoice can be paid in parts: htlcs with different
    circuit keys that carry the payment address and the total of the created
    invoice, in time, whose amounts add up to it, one of them or many, in any
    order: without auto-settle the registry holds them all, and after the last
    one, not before, every accept subscriber is told once, with the id of
    exactly this set; with auto-settle all of them are settled with the
    preimage that AddInvoice returned, and the settlement is stored. *)
Theorem added_invoice_is_payable {Q Net} `{PriorityQueue Q} `{!PriorityQueueLaws Q} `{Lntypes}
  `{!LntypesLaws} `{Btcec} `{!Creator.Zpay32 (Net := Net)}
  (cfg : RegistryConfig) (key_hash : HtlcKey → Hash) (inv_amount : Hash → Z)
  (w : InvoiceRegistry Q) (Hw : reachable cfg key_hash inv_amount w)
  (c : Creator.InvoiceCreator (Net := Net))
  (Hkey : PrivKey cfg = Serialize (KeyRing.privKey (Creator.keyRing c)))
  (fm : res unit) (now : Time) (rand : bytes) (secs amt : Z) (memo : string)
  (Hsecs : 0 < secs ≤ 9223372036) (Hamt : 0 < amt < 2 ^ 63)
  (Hnow : Time.representable (now + secs * Time.Second))
  (inv : Creator.CreatedInvoice) (pre : Preimage)
  (Hc : Creator.Create fm now (Good rand) c amt (expiryDuration secs) memo None finalCltvExpiry =
          Good (inv, pre))
  (Hfresh : Pg.invoices (cdb w) !! PreimageHash pre = None) (Hnoset : sets w !! PreimageHash pre = None)
  (Hlisten : listening cfg w) (parts : list (Env * registryHtlc))
  (Hparts : Forall (part_ok cfg key_hash inv_amount pre (PaymentAddr (Creator.ci_data inv)) amt
              ((now + secs * Time.Second) / Time.Second * Time.Second)) parts)
  (Hkeys : NoDup (keys parts)) (Htotal : total parts = amt) :
  let w' := run cfg (pay parts) w in
  if AutoSettle cfg then settled key_hash pre w w' parts else accepted pre w w' parts.
Proof.
  apply reachable_inv in Hw as Hi. apply Creator.Create_Good in Hc as (Henc & _ & _ & _).
  unfold expiryDuration in Henc. rewrite i64_small in Henc by (unfold Time.Second; lia).
  destruct (Stateless.decode_encode rand (Serialize (KeyRing.privKey (Creator.keyRing c))) amt
    (now + secs * Time.Second)) as (addr & p & He & _ & Hlen & Hd); [unfold is_i64; lia|done|].
  unfold Time.Add in Henc. rewrite Henc in He. injection He as <- <-. rewrite <- Hkey in Hd.
  apply (pay_all cfg key_hash inv_amount pre (PaymentAddr (Creator.ci_data inv)) amt
    ((now + secs * Time.Second) / Time.Second * Time.Second)); try done.
  destruct parts as [|q parts]; [unfold total in Htotal; simpl in Htotal; lia|].
  apply Forall_cons in Hparts as [[Hwf Hh Hp _ _ _ _ _ _] _].
  rewrite <- Hh. symmetry. apply (wf_addr _ _ _ _ Hwf _ _ Hp Hd). by rewrite Hh.
Qed.

(** ** Two htlcs pay an invoice *)

Module Witness.
Import RealLntypes ListQueue RegExample.

(** A payment request that is its hash and nothing else. *)
Definition plain_zpay : Creator.Zpay32 (Net := unit) (H := XorGroup.xor_btcec) :=
  {| Creator.PayReq := Hash; Creator.NewInvoice := λ _ h _ _, Good h;
     Creator.Encode := λ _ _, Good "lnbc"%string |}.

Definition creator : Creator.InvoiceCreator (Net := unit) (H := XorGroup.xor_btcec) :=
  Creator.MkInvoiceCreator (KeyRing.NewKeyRing (seqZ 7 32)) [] tt
    (KeyRing.MkKeyDescriptor Creator.nodeKeyLocator (KeyRing.pubKey (KeyRing.NewKeyRing (seqZ 7 32)))) (MkRoutingPolicy 40 0 0).

Definition created : Creator.CreatedInvoice :=
  Creator.MkCreatedInvoice T0 "lnbc" (MkInvoiceCreationData pre 100 addr).

Definition two_parts : list (Env * registryHtlc) := [(at_time 1, htlc 1 60 11); (at_time 2, htlc 2 40 12)].

Definition listener : list sys_event := [SysEvent (EvSubscribe 1 7)].

Abbreviation waiting_client := (run (Q := queue) (deployment false) listener (start (deployment false))).

Lemma two_parts_ok b :
  Forall (part_ok (deployment b) key_hash inv_amount pre addr 100 (T0 + 3600 * sec)) two_parts.
Proof.
  repeat (apply Forall_cons; split); [| |constructor];
    (split; [apply wf_example; lia|reflexivity|reflexivity|reflexivity|reflexivity|
             vm_compute; discriminate|vm_compute; discriminate|reflexivity|reflexivity]).
Qed.

Lemma added_invoice_is_payable_witness :
  accepted pre waiting_client (run (deployment false) (pay two_parts) waiting_client) two_parts.
Proof.
  refine (added_invoice_is_payable (Q := queue) (Net := unit) (H2 := XorGroup.xor_btcec)
    (H3 := plain_zpay) (deployment false) key_hash inv_amount waiting_client
    (ex_intro _ listener (conj _ eq_refl)) creator eq_refl (Good tt) T0 (seqZ 0 16)
    3600 100 "coffee" _ _ _ created pre _ _ _ _ two_parts (two_parts_ok false) _ eq_refl).
  - apply Forall_singleton. exact I.
  - lia.
  - lia.
  - vm_compute. split; [discriminate|reflexivity].
  - vm_compute. reflexivity.
  - vm_compute. reflexivity.
  - vm_compute. reflexivity.
  - right. vm_compute. discriminate.
  - vm_compute. apply NoDup_cons. split; [|apply NoDup_singleton]. intros Hin.
    apply list_elem_of_singleton in Hin. discriminate Hin.
Defined.

End Witness.
End Payments.
