(* ===== verification/Lnd.v ===== *)
(** The connection to one lnd node: [lnd/client.go].

    The rpc replies of lnd are arguments of the operations. The semantic version
    package, the network parameters of btcd and the status codes of grpc are
    outside the repository: classes [Semver], [Chaincfg] and [GrpcStatus]. *)

From stdpp Require Import numbers strings relations base fin_maps gmap list.
From stdpp Require Import options.
From S2P Require Import Prelude Sha256 Types Persistence PersistenceFacts SettledHandler.

(** github.com/hashicorp/go-version. *)
Class Semver := {
  Version : Type;
  NewSemver : string → res Version;
  GreaterThanOrEqual : Version → Version → bool
}.

(** github.com/btcsuite/btcd/chaincfg. *)
Class Chaincfg := {
  Params : Type;
  Name : Params → string;
  MainNetParams : Params;
  TestNet3Params : Params;
  RegressionNetParams : Params;
  SimNetParams : Params
}.

(** The names the package documents. *)
Class ChaincfgLaws `{Chaincfg} : Prop := {
  MainNet_Name : Name MainNetParams = "mainnet";
  TestNet3_Name : Name TestNet3Params = "testnet3";
  Regression_Name : Name RegressionNetParams = "regtest";
  SimNet_Name : Name SimNetParams = "simnet"
}.

(** google.golang.org/grpc/status and codes. *)
Inductive grpc_code := OK | Canceled | DeadlineExceeded | NotFound | OtherCode (n : Z).

#[global] Instance grpc_code_eq_dec : EqDecision grpc_code.
Proof. solve_decision. Defined.

(** [status.Code] of a non-nil error; it is [OK] for nil. *)
Class GrpcStatus := { status_Code : Error → grpc_code }.

(** The code of an error that came from a failed rpc is not [OK]. *)
Class GrpcStatusLaws `{GrpcStatus} : Prop := { status_Code_not_OK e : status_Code e ≠ OK }.

Definition Code `{GrpcStatus} (err : option Error) : grpc_code :=
  match err with None => OK | Some e => status_Code e end.

(** Instances that satisfy the laws. *)
Module LndInstances.

Inductive net := Main | Test3 | Reg | Sim.

#[export] Instance btcd_nets : Chaincfg := {
  Params := net;
  Name n := match n with Main => "mainnet" | Test3 => "testnet3" | Reg => "regtest" | Sim => "simnet" end;
  MainNetParams := Main; TestNet3Params := Test3; RegressionNetParams := Reg; SimNetParams := Sim
}.

#[export] Instance btcd_nets_laws : ChaincfgLaws.
Proof. by split. Qed.

(** Versions that are compared by length. *)
#[export] Instance length_semver : Semver := {
  Version := nat;
  NewSemver s := Good (String.length s);
  GreaterThanOrEqual a b := bool_decide (b ≤ a)%nat
}.

#[export] Instance canceled_status : GrpcStatus := {
  status_Code e := if decide (e = ErrCanceled) then Canceled
                   else if decide (e = ErrExternal "not found") then NotFound else OtherCode 2
}.

#[export] Instance canceled_status_laws : GrpcStatusLaws.
Proof. split. intros e. simpl. by repeat case_decide. Qed.

End LndInstances.

Module Lnd.
Import NodeSettled PgFacts.

Section Client.
Context `{Semver} `{Chaincfg} `{GrpcStatus}.

Record Config := MkConfig { Network : Params; cfg_PubKey : bytes }.

(** The replies of lnd to one round of requests. *)
Record nodeInfo := MkNodeInfo {
  Chains : list string;          (** the networks *)
  IdentityPubkey : bytes;        (** hexadecimal *)
  RequireHtlcInterceptor : bool;
  StoreFinalHtlcResolutions : bool
}.

Record replies := MkReplies { GetVersion : res string; GetInfo : res nodeInfo }.

Record lndClient := MkLndClient { cfg : Config; configCheckPassed : bool }.

(** Package variable; the error is dropped, the variable is then nil. *)
Definition minRequiredLndVersion : option Version :=
  match NewSemver "v0.16.0-beta.rc2" with Good v => Some v | Bad _ => None end.

(** The name lnd gives to a network. *)
Definition lnd_network (network : string) : string :=
  if bool_decide (network = "testnet3") then "testnet" else network.

Definition checkInfo (c : Config) (info : nodeInfo) : outcome (option Error) :=
  match Chains info with
  | [] => Panic "index out of range"
  | lndNetwork :: _ =>
      if bool_decide (lndNetwork ≠ lnd_network (Name (Network c))) then
        Ok (Some (ErrNew "unexpected network"))
      else
        match PubKey.NewPubKeyFromStr (IdentityPubkey info) with
        | Bad err => Ok (Some (ErrWrap "invalid identity pubkey" err))
        | Good pubKey =>
            if bool_decide (pubKey ≠ cfg_PubKey c) then Ok (Some (ErrNew "unexpected pubkey"))
            else if negb (RequireHtlcInterceptor info) then Ok (Some ErrInterceptorNotRequired)
            else if negb (StoreFinalHtlcResolutions info) then
              Ok (Some ErrFinalHtlcResolutionsNotStored)
            else Ok None
        end
  end.

Definition checkReplies (c : Config) (r : replies) : outcome (option Error) :=
  match GetVersion r with
  | Bad err => Ok (Some err)
  | Good ver =>
      match NewSemver ver with
      | Bad err => Ok (Some err)
      | Good lndVersion =>
          match minRequiredLndVersion with
          | None => Panic "nil pointer dereference"
          | Some min =>
              if negb (GreaterThanOrEqual lndVersion min) then
                Ok (Some (ErrNew "minimum required version"))
              else
                match GetInfo r with
                | Bad err => Ok (Some err)
                | Good info => checkInfo c info
                end
          end
      end
  end.

(** The calls hold [configCheckLock], so they happen one after another. *)
Definition tryValidateConfig (r : replies) (l : lndClient) : outcome (lndClient * option Error) :=
  if configCheckPassed l then Ok (l, None)
  else
    err ← checkReplies (cfg l) r;
    Ok (match err with None => MkLndClient (cfg l) true | Some _ => l end, err).

(** [conn_err] is the error of [loadGrpcConn]. A failed validation is logged. *)
Definition NewLndClient (conn_err : option Error) (r : replies) (c : Config) :
    outcome (res lndClient) :=
  match conn_err with
  | Some err => Ok (Bad err)
  | None => '(l, _) ← tryValidateConfig r (MkLndClient c false); Ok (Good l)
  end.

Definition client_PubKey (l : lndClient) : bytes := cfg_PubKey (cfg l).
Definition client_Network (l : lndClient) : Params := Network (cfg l).

(** [HtlcInterceptor] and [RegisterBlockEpochNtfn] open a stream once the
    configuration has been validated; [open] is the result of opening it. *)
Definition open_validated {S : Type} (r : replies) (open : res S) (l : lndClient) :
    outcome (lndClient * res S) :=
  '(l', err) ← tryValidateConfig r l;
  Ok (l', match err with Some e => Bad e | None => open end).

Definition HtlcInterceptor {S : Type} (r : replies) (open : res S) (l : lndClient) :=
  open_validated r open l.
Definition RegisterBlockEpochNtfn {S : Type} (r : replies) (open : res S) (l : lndClient) :=
  open_validated r open l.

Definition mapGrpcError (err : option Error) : option Error :=
  match Code err with
  | OK => None
  | DeadlineExceeded => Some ErrDeadlineExceeded
  | Canceled => Some ErrCanceled
  | _ => err
  end.

(** The events of the stream of [SubscribeHtlcEvents]. *)
Inductive streamEvent := SubscribedEvent | StreamHtlc (e : HtlcEvent).

(** A receive on the stream; the event is nil when an error was mapped to nil. *)
Definition recv (x : res streamEvent) : res (option streamEvent) :=
  match x with
  | Good e => Good (Some e)
  | Bad err => match mapGrpcError (Some err) with Some e => Bad e | None => Good None end
  end.

(** The subscription: what the returned closure will yield. An empty stream
    has not delivered anything yet ([None]). *)
Definition HtlcNotifier (open_err : option Error) (stream : list (res streamEvent)) :
    outcome (option (res (list (res (option streamEvent))))) :=
  match mapGrpcError open_err with
  | Some err => Ok (Some (Bad err))
  | None =>
      if decide (open_err ≠ None) then Panic "nil pointer dereference"
      else
        match stream with
        | [] => Ok None
        | first :: rest =>
            match recv first with
            | Bad err => Ok (Some (Bad err))
            | Good None => Panic "nil pointer dereference"
            | Good (Some SubscribedEvent) => Ok (Some (Good (recv <$> rest)))
            | Good (Some (StreamHtlc _)) =>
                Ok (Some (Bad (ErrNew "stream did not start with subscribed event")))
            end
        end
  end.

(** [resp] is the reply to [LookupHtlcResolution]. *)
Definition LookupHtlc (resp : res bool) : res bool :=
  match resp with
  | Bad err => if decide (status_Code err = NotFound) then Bad ErrLndHtlcNotFound else Bad err
  | Good settled => Good settled
  end.

(** *** Facts *)

(** What a validated node has answered. *)
Definition valid_replies (c : Config) (r : replies) : Prop :=
  ∃ ver v min info net rest,
    GetVersion r = Good ver ∧ NewSemver ver = Good v ∧ minRequiredLndVersion = Some min ∧
    GreaterThanOrEqual v min = true ∧ GetInfo r = Good info ∧ Chains info = net :: rest ∧
    net = lnd_network (Name (Network c)) ∧
    PubKey.NewPubKeyFromStr (IdentityPubkey info) = Good (cfg_PubKey c) ∧
    RequireHtlcInterceptor info = true ∧ StoreFinalHtlcResolutions info = true.

Lemma checkInfo_None c info :
  checkInfo c info = Ok None ↔
  ∃ net rest, Chains info = net :: rest ∧ net = lnd_network (Name (Network c)) ∧
    PubKey.NewPubKeyFromStr (IdentityPubkey info) = Good (cfg_PubKey c) ∧
    RequireHtlcInterceptor info = true ∧ StoreFinalHtlcResolutions info = true.
Proof.
  unfold checkInfo. split.
  - destruct (Chains info) as [|net rest]; [done|]. case_bool_decide as Hn; [done|].
    destruct (PubKey.NewPubKeyFromStr _) as [pk|]; [|done].
    case_bool_decide as Hp; [done|]. subst pk.
    destruct (RequireHtlcInterceptor info), (StoreFinalHtlcResolutions info); try done.
    intros _. by exists net, rest.
  - intros (net & rest & -> & -> & -> & -> & ->).
    by rewrite !bool_decide_eq_false_2 by (intros Hx; by apply Hx).
Qed.

Lemma checkReplies_None c r : checkReplies c r = Ok None ↔ valid_replies c r.
Proof.
  unfold checkReplies, valid_replies. split.
  - destruct (GetVersion r) as [ver|]; [|done]. destruct (NewSemver ver) as [v|] eqn:Hv; [|done].
    destruct minRequiredLndVersion as [min|]; [|done].
    destruct (GreaterThanOrEqual v min) eqn:Hge; [|done]. simpl.
    destruct (GetInfo r) as [info|]; [|done].
    rewrite checkInfo_None. intros (net & rest & Hi).
    by exists ver, v, min, info, net, rest.
  - intros (ver & v & min & info & net & rest & -> & -> & -> & -> & -> & Hi). simpl.
    apply checkInfo_None. by exists net, rest.
Qed.

(** A sequence of validations, each with the replies of its time, and their
    results. *)
Fixpoint validations (rs : list replies) (l : lndClient) :
    outcome (lndClient * list (option Error)) :=
  match rs with
  | [] => Ok (l, [])
  | r :: rs' =>
      '(l1, err) ← tryValidateConfig r l;
      '(l2, errs) ← validations rs' l1; Ok (l2, err :: errs)
  end.

Lemma validations_cfg rs l l' errs : validations rs l = Ok (l', errs) → cfg l' = cfg l.
Proof.
  revert l l' errs. induction rs as [|r rs IH]; intros l l' errs; simpl; [by intros [= <- _]|].
  unfold tryValidateConfig. destruct (configCheckPassed l); simpl.
  - destruct (validations rs l) as [[l2 es]|] eqn:E; simpl; [|done]. intros [= <- _]. eauto.
  - destruct (checkReplies (cfg l) r) as [[e|]|]; simpl; [| |done].
    + destruct (validations rs l) as [[l2 es]|] eqn:E; simpl; [|done]. intros [= <- _]. eauto.
    + destruct (validations rs (MkLndClient (cfg l) true)) as [[l2 es]|] eqn:E; simpl; [|done].
      intros [= <- _]. by apply IH in E.
Qed.

(** Once it has passed, the validation is not repeated. *)
Lemma validations_passed rs l :
  configCheckPassed l = true → validations rs l = Ok (l, replicate (length rs) None).
Proof.
  intros Hp. induction rs as [|r rs IH]; simpl; [done|].
  unfold tryValidateConfig. rewrite Hp. simpl. by rewrite IH.
Qed.

End Client.

(** ** Properties *)

(** C34. The configuration check is sound and done once: over any sequence of
    connection attempts, an attempt succeeds exactly when its replies or those
    of an earlier one satisfied every requirement (version, network, identity,
    required interceptor, stored final resolutions); the first that does is the
    last one whose replies are looked at. *)
Theorem validation_sound_and_once `{Semver} `{Chaincfg} (c : Config) (rs : list replies)
  (l : lndClient) (errs : list (option Error))
  (Hrun : validations rs (MkLndClient c false) = Ok (l, errs)) :
  cfg l = c ∧ length errs = length rs ∧
  (∀ i, errs !! i = Some None ↔
        (i < length rs)%nat ∧ ∃ j r, (j ≤ i)%nat ∧ rs !! j = Some r ∧ valid_replies c r) ∧
  (∀ i rs', errs !! i = Some None →
     ∃ l', validations (take (S i) rs ++ rs') (MkLndClient c false) =
             Ok (l', take (S i) errs ++ replicate (length rs') None)).
Proof.
  split; [by apply validations_cfg in Hrun|].
  revert l errs Hrun. induction rs as [|r rs IH]; intros l errs; simpl.
  { intros [= <- <-]. split_and!; [done| |done]. intros i. split; [done|]. intros [? _]. lia. }
  unfold tryValidateConfig. simpl.
  destruct (checkReplies c r) as [[e|]|] eqn:Hc; simpl; [| |done].
  - destruct (validations rs _) as [[l2 es]|] eqn:Hv; simpl; [|done]. intros [= <- <-].
    destruct (IH l2 es) as (Hlen & Hok & Honce); [done|]. simpl. split_and!; [by f_equal| |].
    + intros [|i]; simpl.
      * split; [done|]. intros (_ & j & r' & Hj & Hr & Hval). destruct j; [|lia].
        injection Hr as <-. apply checkReplies_None in Hval. congruence.
      * rewrite Hok. split.
        -- intros (Hi & j & r' & Hj & Hr). split; [lia|]. exists (S j), r'. split; [lia|done].
        -- intros (Hi & [|j] & r' & Hj & Hr & Hval).
           { injection Hr as <-. apply checkReplies_None in Hval. congruence. }
           split; [lia|]. exists j, r'. split; [lia|done].
    + intros [|i] rs' Hi; [done|]. destruct (Honce i rs' Hi) as (l' & Hl').
      simpl in Hl'. exists l'. simpl. unfold tryValidateConfig. simpl. by rewrite ?Hc, Hl'.
  - rewrite validations_passed by done. simpl. intros [= <- <-]. split_and!.
    + simpl. by rewrite length_replicate.
    + intros i. split.
      * intros Hi. apply lookup_lt_Some in Hi. simpl in Hi. rewrite length_replicate in Hi.
        split; [done|]. exists 0%nat, r. split; [lia|]. split; [done|].
        by apply checkReplies_None.
      * intros [Hi _]. destruct i; simpl; [done|]. apply lookup_replicate. split; [done|lia].
    + intros i rs' _. simpl. unfold tryValidateConfig. simpl. rewrite ?Hc. simpl.
      rewrite validations_passed by done. simpl. eexists. do 2 f_equal.
      rewrite length_app, replicate_add, take_replicate, length_take. done.
Qed.

(** C35. The htlc stream is handed out only once lnd has confirmed it, and nothing
    after the confirmation is lost: the notifier never dereferences nil, it
    succeeds exactly when the first message of the stream is the subscribed
    event, and the receiver then yields every following event in order; a stream
    error stops the handler of the node when it stands for a cancellation, is
    retried at once when it stands for a deadline, and after a delay otherwise. *)
Theorem notifier_contract `{GrpcStatus} `{!GrpcStatusLaws} (open_err : option Error)
  (stream : list (res streamEvent)) :
  (∃ r, HtlcNotifier open_err stream = Ok r) ∧
  (∀ evs, HtlcNotifier open_err stream = Ok (Some (Good evs)) ↔
     open_err = None ∧ ∃ rest, stream = Good SubscribedEvent :: rest ∧ evs = recv <$> rest) ∧
  (∀ e, recv (Good e) = Good (Some e)) ∧
  (∀ err, ∃ err', recv (Bad err) = Bad err' ∧
     (Run_next err' = Stop ↔
        status_Code err = Canceled ∨ (err = ErrCanceled ∧ status_Code err ≠ DeadlineExceeded)) ∧
     (Run_next err' = RetryNow ↔
        status_Code err = DeadlineExceeded ∨
        (err = ErrDeadlineExceeded ∧ status_Code err ≠ Canceled))).
Proof.
  assert (Hrecv : ∀ err, ∃ err', recv (Bad err) = Bad err' ∧
    err' = match status_Code err with
           | Canceled => ErrCanceled | DeadlineExceeded => ErrDeadlineExceeded | _ => err end).
  { intros err. unfold recv, mapGrpcError, Code. pose proof (status_Code_not_OK err).
    destruct (status_Code err); [done|eauto..]. }
  assert (Hopen : ∀ e, ∃ e', mapGrpcError (Some e) = Some e').
  { intros e. unfold mapGrpcError, Code. pose proof (status_Code_not_OK e).
    destruct (status_Code e); [done|eauto..]. }
  split_and!.
  - unfold HtlcNotifier. destruct open_err as [e|]; [destruct (Hopen e) as [e' ->]; eauto|].
    simpl. destruct stream as [|[[|ev]|err] rest]; simpl; eauto.
    destruct (Hrecv err) as (e' & Hr & _). unfold recv in Hr. rewrite Hr. eauto.
  - intros evs. unfold HtlcNotifier. destruct open_err as [e|].
    { destruct (Hopen e) as [e' ->]. split; [done|by intros []]. }
    simpl. destruct stream as [|[[|ev]|err] rest]; simpl.
    + split; [done|by intros (_ & ? & ? & _)].
    + split; [intros [= <-]; eauto|by intros (_ & ? & [= <-] & ->)].
    + split; [done|by intros (_ & ? & ? & _)].
    + destruct (Hrecv err) as (e' & Hr & _). unfold recv in Hr. rewrite Hr.
      split; [done|by intros (_ & ? & ? & _)].
  - done.
  - intros err. destruct (Hrecv err) as (err' & Hr & ->). eexists. split; [done|].
    unfold Run_next. pose proof (status_Code_not_OK err). destruct (status_Code err) eqn:Hcode;
      repeat case_decide; naive_solver.
Qed.

Module Witness.
Import LndInstances.

Definition node_key : bytes := 2 :: replicate 32 5.
Definition config : Config := MkConfig Test3 node_key.

(** The node is first too old, then well configured, then gone. *)
Definition old_node : replies := MkReplies (Good "v0.15"%string) (Bad (ErrExternal "unused")).
Definition good_node : replies :=
  MkReplies (Good "v0.16.0-beta.rc2"%string)
    (Good (MkNodeInfo ["testnet"%string] (PubKey.EncodeToString node_key) true true)).
Definition gone_node : replies :=
  MkReplies (Bad (ErrExternal "unavailable")) (Bad (ErrExternal "unavailable")).

Lemma validation_sound_and_once_witness :
  validations [old_node; good_node; gone_node] (MkLndClient config false) =
    Ok (MkLndClient config true, [Some (ErrNew "minimum required version"); None; None]) ∧
  ∃ j r, (j ≤ 1)%nat ∧ [old_node; good_node; gone_node] !! j = Some r ∧ valid_replies config r.
Proof.
  split; [vm_compute; reflexivity|].
  destruct (validation_sound_and_once config [old_node; good_node; gone_node]
    (MkLndClient config true) [Some (ErrNew "minimum required version"); None; None])
    as (_ & _ & Hok & _).
  - vm_compute. reflexivity.
  - apply (Hok 1%nat). reflexivity.
Defined.

Lemma notifier_contract_witness :
  HtlcNotifier None [Good SubscribedEvent;
      Good (StreamHtlc (FinalHtlcEvent (MkCircuitKey 10 11) true)); Bad ErrCanceled] =
    Ok (Some (Good [Good (Some (StreamHtlc (FinalHtlcEvent (MkCircuitKey 10 11) true)));
                    Bad ErrCanceled])).
Proof.
  apply (proj1 (proj2 (notifier_contract None [Good SubscribedEvent;
      Good (StreamHtlc (FinalHtlcEvent (MkCircuitKey 10 11) true)); Bad ErrCanceled]))).
  split; [reflexivity|]. eexists. split; [reflexivity|]. vm_compute. reflexivity.
Defined.

End Witness.
End Lnd.
