(* ===== verification/LndConnection.v ===== *)
(** The connection to an lnd node and the block stream on it:
    [lnd/connection.go] and the goroutine of [RegisterBlockEpochNtfn] in
    [lnd/client.go].

    Credentials, macaroons and the grpc client are outside the repository:
    class [Grpc]. *)

From stdpp Require Import numbers strings relations base list.
From stdpp Require Import options.
From S2P Require Import Prelude Sha256 Types StatelessData.

(** google.golang.org/grpc with its credentials, gopkg.in/macaroon.v2 and lnd's
    macaroons package. *)
Class Grpc := {
  TransportCredentials : Type;
  Macaroon : Type;
  MacaroonCredential : Type;
  ClientConn : Type;
  ClientInterceptor : Type;
  DialOption : Type;
  NewClientTLSFromFile : string → res TransportCredentials;
  UnmarshalBinary : bytes → res Macaroon;
  NewMacaroonCredential : Macaroon → res MacaroonCredential;
  WithTransportCredentials : TransportCredentials → DialOption;
  MaxCallRecvMsgSize : Z → DialOption;
  WithPerRPCCredentials : MacaroonCredential → DialOption;
  WithUnaryInterceptor : list ClientInterceptor → DialOption;
  WithStreamInterceptor : list ClientInterceptor → DialOption;
  Dial : string → list DialOption → res ClientConn
}.

(** ** connection.go *)
Module Conn.

Definition unaryTimeout : Z := 60 * Time.Second.
Definition streamTimeout : Z := 30 * (60 * Time.Second).

(** [context.Context] as far as the interceptors use it: its deadline. *)
Record Context := MkContext { ctx_deadline : option Time }.

Definition WithTimeout (now : Time) (timeout : Z) (ctx : Context) : Context :=
  let d := Time.Add now timeout in
  MkContext (Some match ctx_deadline ctx with
                  | Some cur => if Time.Before cur d then cur else d
                  | None => d
                  end).

Section Dial.
Context `{Grpc}.

(** [ReadFile] is [os.ReadFile]; the interceptors are built by the packages they
    come from and by [timeoutUnaryInterceptor] and [timeoutStreamInterceptor]. *)
Definition loadGrpcConn (ReadFile : string → res bytes)
    (unaryChain streamChain : Z → list ClientInterceptor) (tlsPath macaroonPath url : string) :
    res ClientConn :=
  tlsCreds ← NewClientTLSFromFile tlsPath;
  macaroonBytes ← ReadFile macaroonPath;
  mac ← UnmarshalBinary macaroonBytes;
  macCreds ← NewMacaroonCredential mac;
  Dial url [
    WithTransportCredentials tlsCreds;
    MaxCallRecvMsgSize (1 * 1024 * 1024 * 50);
    WithPerRPCCredentials macCreds;
    WithUnaryInterceptor (unaryChain unaryTimeout);
    WithStreamInterceptor (streamChain streamTimeout)].

End Dial.

(** What the interceptors do around a call; [now] is the clock. *)
Definition timeoutUnaryInterceptor {R} (timeout : Z) (now : Time) (invoker : Context → R)
    (ctx : Context) : R := invoker (WithTimeout now timeout ctx).

Definition timeoutStreamInterceptor {R} (timeout : Z) (now : Time) (streamer : Context → R)
    (ctx : Context) : R := streamer (WithTimeout now timeout ctx).

(** The deadline of a call is never later than that of its caller or than the
    timeout, and is one of the two. *)
Lemma WithTimeout_deadline now timeout ctx :
  ∃ d, ctx_deadline (WithTimeout now timeout ctx) = Some d ∧ d ≤ now + timeout ∧
    (∀ d0, ctx_deadline ctx = Some d0 → d ≤ d0) ∧
    (d = now + timeout ∨ ctx_deadline ctx = Some d).
Proof.
  unfold WithTimeout, Time.Before, Time.Add. destruct (ctx_deadline ctx) as [c|]; simpl.
  - destruct (Z.ltb_spec c (now + timeout)); eexists; (split; [done|]).
    + split_and!; [lia|by intros d0 [= ->]|by right].
    + split_and!; [lia|intros d0 [= <-]; lia|by left].
  - eexists. split; [done|]. split_and!; [lia|done|by left].
Qed.

End Conn.

(** ** The goroutine of [RegisterBlockEpochNtfn] *)
Module Epochs.

(** A block is its height. *)
Inductive goroutine :=
  | InRecv                    (** in [stream.Recv()] *)
  | SendingBlock (b : Z)      (** in [blockChan <- event] *)
  | SendingErr (e : Error)    (** in [errChan <- err] *)
  | Done.

Record state := MkState {
  stream : list (res Z);      (** what lnd has yet to send *)
  pc : goroutine;
  reading : bool;             (** the interceptor still selects on the channels *)
  blocks : list Z;            (** what it has taken from [blockChan] *)
  error : option Error        (** and from [errChan] *)
}.

Definition start (input : list (res Z)) : state := MkState input InRecv true [] None.

Inductive step : state → state → Prop :=
  | recv_block b rest rd bs e :
      step (MkState (Good b :: rest) InRecv rd bs e) (MkState rest (SendingBlock b) rd bs e)
  | recv_error err rest rd bs e :
      step (MkState (Bad err :: rest) InRecv rd bs e) (MkState rest (SendingErr err) rd bs e)
  | take_block rest b bs e :
      step (MkState rest (SendingBlock b) true bs e) (MkState rest InRecv true (bs ++ [b]) e)
  | take_error rest err bs e :
      step (MkState rest (SendingErr err) true bs e) (MkState rest Done true bs (Some err))
  | reader_leaves rest p bs e :
      step (MkState rest p true bs e) (MkState rest p false bs e).

(** What the goroutine holds. *)
Definition in_flight (p : goroutine) : list (res Z) :=
  match p with SendingBlock b => [Good b] | SendingErr e => [Bad e] | _ => [] end.

Definition delivered (s : state) : list (res Z) :=
  (Good <$> blocks s) ++ (Bad <$> option_list (error s)).

Record Inv (input : list (res Z)) (s : state) : Prop := {
  ei_order : delivered s ++ in_flight (pc s) ++ stream s = input;
  ei_error : error s = None ∨ pc s = Done
}.

Lemma inv_epochs input s : rtc step (start input) s → Inv input s.
Proof.
  intros Hr. apply (rtc_ind_r (R := step) (Inv input) (start input)) with (z := s); [by split; [|left]| |done].
  intros y z _ Hstep [Ho He].
  destruct Hstep as [b rest rd bs e|err rest rd bs e|rest b bs e|rest err bs e|rest p bs e];
    unfold delivered in *; simpl in *; (split; simpl; [|by auto || destruct He; auto]); try done;
    (destruct He as [->|?]; [|done]); simpl in *; rewrite ?app_nil_r in *; rewrite <- Ho.
  - unfold delivered; simpl. by rewrite fmap_app, app_nil_r, <- app_assoc.
  - unfold delivered; simpl. by rewrite <- app_assoc.
Qed.

(** C36. The interceptor sees the block stream of lnd as it is: what it has read
    from the two channels, followed by the at most one message that the
    goroutine holds and by what lnd has yet to send, is the stream; nothing is
    reordered, dropped or duplicated, an error is read only after every block
    before it, and the goroutine ends exactly when the error has been read. *)
Theorem block_stream_in_order (input : list (res Z)) (s : state) (Hr : rtc step (start input) s) :
  delivered s ++ in_flight (pc s) ++ stream s = input ∧
  (length (in_flight (pc s)) ≤ 1)%nat ∧
  (∀ e, error s = Some e → ∃ rest, input = (Good <$> blocks s) ++ Bad e :: rest) ∧
  (error s ≠ None ↔ pc s = Done).
Proof.
  destruct (inv_epochs input s Hr) as [Ho He]. split_and!; [done|by destruct (pc s); simpl; lia| |].
  - intros e Hs. exists (in_flight (pc s) ++ stream s). rewrite <- Ho. unfold delivered.
    by rewrite Hs, <- app_assoc.
  - split; [by destruct He|]. intros Hd Hn.
    assert (rtc step (start input) s → pc s = Done → error s ≠ None) as Hx; [|by apply Hx].
    clear. intros Hr. apply (rtc_ind_r (R := step) (λ s, pc s = Done → error s ≠ None) (start input)) with (z := s);
      [done| |done].
    intros y z _ Hstep IH. by destruct Hstep.
Qed.

Lemma block_stream_in_order_witness :
  delivered (MkState [Bad ErrCanceled] InRecv true [100; 101] None) ++ [] ++ [Bad ErrCanceled] =
  [Good 100; Good 101; Bad ErrCanceled].
Proof.
  apply (proj1 (block_stream_in_order [Good 100; Good 101; Bad ErrCanceled]
    (MkState [Bad ErrCanceled] InRecv true [100; 101] None)
    ltac:(eapply rtc_l; [apply recv_block|]; eapply rtc_l; [apply take_block|];
          eapply rtc_l; [apply recv_block|]; eapply rtc_l; [apply take_block|]; apply rtc_refl))).
Defined.

(** The channels are unbuffered and the goroutine does not watch a context: once
    the interceptor has left for another reason than an error of this stream,
    the goroutine never ends, although the stream is cancelled with the context
    of the interceptor. Every reconnect leaves one behind. *)
Theorem block_goroutine_leaks s s' (Hl : reading s = false) (Hp : pc s ≠ Done)
    (Hr : rtc step s s') : pc s' ≠ Done ∧ reading s' = false.
Proof.
  induction Hr as [|x y z Hxy _ IH]; [done|]. apply IH; by destruct Hxy.
Qed.

End Epochs.
