(* ===== verification/Lock.v ===== *)
(** Leader election: [dlock/dlock.go] and [initServiceWithLock] of
    [cmd/lnmuxd/run.go].

    Several processes compete for one Kubernetes lease under the identities of
    their configurations; one that has acquired it runs the service. The elector
    of client-go is outside the repository. Its documented behaviour is part of
    the steps: a candidate takes the lease when it has no holder, when the holder
    has the identity of the candidate, or when it was not renewed for
    [LeaseDuration]; a leader tries to renew it every [RetryPeriod] and gives up
    after it has failed for [RenewDeadline]; giving up releases the lease if that
    still works, and calls [OnStoppedLeading]. There is no fencing: client-go does
    not promise that there is only one leader. How late a leader may notice that
    its time is over is the parameter [stall]. *)

From stdpp Require Import numbers strings base list.
From stdpp Require Import options.
From S2P Require Import Prelude Sha256 Types StatelessData.

Module DLock.

(** The first part of [New]: the client configuration and the identity under
    which the process competes. [BuildConfigFromFlags], [InClusterConfig] and
    [uuid] are the results of the calls of those names. *)
Definition lockIdentity {Kube} (BuildConfigFromFlags : string → res Kube) (InClusterConfig : res Kube)
    (uuid : bytes) (devKubeConfig : string) (id : bytes) : res (Kube * bytes) :=
  if decide (devKubeConfig ≠ "") then
    kubeConfig ← BuildConfigFromFlags devKubeConfig;
    Good (kubeConfig, if decide (id = []) then uuid else id)
  else
    kubeConfig ← InClusterConfig;
    Good (kubeConfig, id).

(** A random identity is generated in development only: a deployed instance
    whose ID is left empty competes under the empty identity. *)
Theorem deployed_identity_not_generated {Kube} (build : string → res Kube) (k : Kube) (uuid : bytes) :
  lockIdentity build (Good k) uuid "" [] = Good (k, []).
Proof. done. Qed.

(** The durations of the [LeaderElectionConfig]. *)
Definition LeaseDuration : Z := 60 * Time.Second.
Definition RenewDeadline : Z := 15 * Time.Second.
Definition RetryPeriod : Z := 5 * Time.Second.

(** Where the goroutine of [initServiceWithLock] is. *)
Inductive phase :=
  | Acquiring   (** in the [select] of [dlock.New] *)
  | Running     (** in [run] *)
  | Unlocking   (** [cancel] has been called; [wg.Wait] waits for the elector *)
  | Exited.

(** Where [RunOrDie] is. *)
Inductive elector_pc :=
  | Competing   (** acquires the lease *)
  | Leading     (** renews the lease *)
  | Stopping    (** does not renew it any more; about to call [OnStoppedLeading] *)
  | ElectorDone.

Record proc := MkProc {
  identity : bytes;
  at_phase : phase;
  lockAcquired : bool;  (** the channel is closed *)
  ctx_done : bool;      (** the context of the error group *)
  cancelled : bool;     (** the context derived in [dlock.New] was cancelled by [cancel] *)
  elector : elector_pc;
  renewed : Z           (** when this process last wrote the lease *)
}.

Definition fresh (id : bytes) : proc := MkProc id Acquiring false false false Competing 0.

(** The derived context is done when its parent is. *)
Definition lock_ctx_done (p : proc) : bool := ctx_done p || cancelled p.

(** The lease: [HolderIdentity], which is empty when nobody holds it, and the time
    of the last write. *)
Record state := MkState { now : Z; holder : bytes; written : Z; procs : list proc }.

Definition initial (ids : list bytes) : state := MkState 0 [] 0 (fresh <$> ids).

Definition set_proc (i : nat) (p : proc) (s : state) : state :=
  MkState (now s) (holder s) (written s) (<[i := p]> (procs s)).

Definition set_phase (ph : phase) (cancel : bool) (p : proc) : proc :=
  MkProc (identity p) ph (lockAcquired p) (ctx_done p) (cancelled p || cancel) (elector p) (renewed p).

Definition set_elector (e : elector_pc) (p : proc) : proc :=
  MkProc (identity p) (at_phase p) (lockAcquired p) (ctx_done p) (cancelled p) e (renewed p).

Inductive event :=
  | Advance (d : Z)          (** time passes *)
  | Elect (i : nat)          (** the elector of [i] gets the lease: [OnStartedLeading] *)
  | Renew (i : nat)          (** the elector of [i] renews the lease *)
  | StopRenewing (i : nat) (released : bool)  (** the context is done, or renewing has failed *)
  | StoppedLeading (i : nat) (** [OnStoppedLeading] runs and [RunOrDie] returns *)
  | StopCompeting (i : nat)  (** the context is done before [i] was elected *)
  | StartRun (i : nat)       (** [dlock.New] sees [lockAcquired] *)
  | Cancel (i : nat)         (** a signal, or another goroutine of the group returned an error *)
  | GiveUp (i : nat)         (** [dlock.New] sees its context done *)
  | RunReturns (i : nat)     (** [run] returns and [unlock] calls [cancel] *)
  | Exit (i : nat)           (** [wg.Wait] passes, the process ends *)
  | Crash (i : nat).         (** the process is killed *)

(** The candidate may take or keep the lease. *)
Definition available (p : proc) (s : state) : bool :=
  bool_decide (holder s = []) || bool_decide (holder s = identity p) ||
  (written s + LeaseDuration <=? now s).

(** The lease is written for [i]. *)
Definition write (i : nat) (p : proc) (s : state) : state :=
  MkState (now s) (identity p) (now s)
    (<[i := MkProc (identity p) (at_phase p) true (ctx_done p) (cancelled p) Leading (now s)]> (procs s)).

Section Steps.
Context (stall : Z).

(** A leader that has not renewed the lease has given up by then. *)
Definition deadline (p : proc) : Z := renewed p + RetryPeriod + RenewDeadline + stall.

Definition in_time (t : Z) (p : proc) : bool :=
  match elector p with Leading => t <=? deadline p | _ => true end.

(** One step of a process that has not exited, when it is enabled. *)
Definition proc_step (ev : event) (i : nat) (p : proc) (s : state) : option state :=
  match ev, elector p, at_phase p with
  | Elect _, Competing, _ => if available p s then Some (write i p s) else None
  | Renew _, Leading, _ => if available p s then Some (write i p s) else None
  | StopRenewing _ released, Leading, _ =>
      if lock_ctx_done p || (renewed p + RenewDeadline <=? now s)
      then
        let mine := released && bool_decide (holder s = identity p) in
        Some (MkState (now s) (if mine then [] else holder s) (written s)
                (<[i := set_elector Stopping p]> (procs s)))
      else None
  | StoppedLeading _, Stopping, _ =>
      let p' := set_elector ElectorDone p in
      Some (set_proc i (if lock_ctx_done p then p' else set_phase Exited false p') s)
  | StopCompeting _, Competing, _ =>
      if lock_ctx_done p then Some (set_proc i (set_elector ElectorDone p) s) else None
  | StartRun _, _, Acquiring =>
      if lockAcquired p then Some (set_proc i (set_phase Running false p) s) else None
  | Cancel _, _, _ =>
      Some (set_proc i (MkProc (identity p) (at_phase p) (lockAcquired p) true (cancelled p) (elector p) (renewed p)) s)
  | GiveUp _, _, Acquiring =>
      if lock_ctx_done p then Some (set_proc i (set_phase Unlocking true p) s) else None
  | RunReturns _, _, Running => Some (set_proc i (set_phase Unlocking true p) s)
  | Exit _, ElectorDone, Unlocking => Some (set_proc i (set_phase Exited false p) s)
  | Crash _, _, _ => Some (set_proc i (set_phase Exited false (set_elector ElectorDone p)) s)
  | _, _, _ => None
  end.

Definition of_event (ev : event) : option nat :=
  match ev with
  | Advance _ => None
  | Elect i | Renew i | StopRenewing i _ | StoppedLeading i | StopCompeting i | StartRun i | Cancel i
  | GiveUp i | RunReturns i | Exit i | Crash i => Some i
  end.

Definition step (ev : event) (s : state) : option state :=
  match ev with
  | Advance d =>
      if (0 <=? d) && forallb (in_time (now s + d)) (procs s)
      then Some (MkState (now s + d) (holder s) (written s) (procs s)) else None
  | _ =>
      i ← of_event ev;
      p ← procs s !! i;
      match at_phase p with Exited => None | _ => proc_step ev i p s end
  end.

(** The state after the events of a trace; an event that is not enabled does
    not happen. *)
Fixpoint run (evs : list event) (s : state) : state :=
  match evs with
  | [] => s
  | ev :: evs' => run evs' (default s (step ev s))
  end.

(** The process runs the service, was not told to stop, and its elector has not
    given up. *)
Definition serving (s : state) (i : nat) : Prop :=
  ∃ p, procs s !! i = Some p ∧ at_phase p = Running ∧ ctx_done p = false ∧ elector p ≠ Stopping.

(** ** Invariant *)

Context (ids : list bytes).
Context (Hstall : 0 ≤ stall) (Hshort : RetryPeriod + RenewDeadline + stall < LeaseDuration).
Context (Hids : NoDup ids) (Hne : [] ∉ ids).
Set Default Proof Using "Type*".

(** A leader is the holder of the lease and has renewed it in time. *)
Definition leads (s : state) (p : proc) : Prop :=
  holder s = identity p ∧ written s = renewed p ∧ now s ≤ deadline p.

Record proc_ok (s : state) (p : proc) : Prop := {
  po_lead : elector p = Leading → leads s p;
  po_running : at_phase p = Running → lockAcquired p = true;
  po_cancelled : cancelled p = true → at_phase p = Unlocking ∨ at_phase p = Exited;
  po_acquired : lockAcquired p = true → elector p ≠ Competing;
  po_done : elector p = ElectorDone → at_phase p = Exited ∨ lock_ctx_done p = true
}.

Definition Inv (s : state) : Prop :=
  identity <$> procs s = ids ∧ ∀ i p, procs s !! i = Some p → proc_ok s p.

Lemma inv_initial : Inv (initial ids).
Proof.
  split; simpl.
  - rewrite <- list_fmap_compose. rewrite <- (list_fmap_id ids) at 2. by apply list_fmap_ext.
  - intros i p. rewrite list_lookup_fmap, fmap_Some. intros (id & _ & ->). by split.
Qed.

Lemma same_identity s i j p q :
  Inv s → procs s !! i = Some p → procs s !! j = Some q → identity p = identity q → i = j.
Proof.
  intros [Hid _] Hi Hj E. eapply NoDup_lookup; [exact Hids| |]; rewrite <- Hid, list_lookup_fmap.
  - by rewrite Hi.
  - rewrite Hj. simpl. by rewrite E.
Qed.

Lemma identity_nonempty s i p : Inv s → procs s !! i = Some p → identity p ≠ [].
Proof.
  intros [Hid _] Hi E. apply Hne. rewrite <- Hid, <- E. apply list_elem_of_fmap. exists p.
  split; [done|]. by eapply list_elem_of_lookup_2.
Qed.

(** Whoever may take the lease is the only one that can lead. *)
Lemma available_exclusive s i j p q :
  Inv s → procs s !! i = Some p → procs s !! j = Some q → available p s = true →
  elector q = Leading → i = j.
Proof.
  intros Hinv Hi Hj Ha Hq. destruct (po_lead _ _ (proj2 Hinv _ _ Hj) Hq) as (Hh & Hw & Ht).
  unfold available in Ha. rewrite !orb_true_iff in Ha. destruct Ha as [[Ha|Ha]|Ha].
  - apply bool_decide_eq_true in Ha. rewrite Hh in Ha. by apply (identity_nonempty _ _ _ Hinv) in Hj.
  - apply bool_decide_eq_true in Ha. eapply same_identity; [done..|congruence].
  - apply Z.leb_le in Ha. unfold deadline in Ht. lia.
Qed.

(** A step of [i] that leaves the other leaders their lease. *)
Lemma inv_update i p p' s s' :
  Inv s → procs s !! i = Some p → procs s' = <[i := p']> (procs s) → identity p' = identity p →
  proc_ok s' p' → (∀ j q, j ≠ i → procs s !! j = Some q → elector q = Leading → leads s' q) → Inv s'.
Proof.
  intros [Hid Hok] Hi Es Eid Hp' Hothers. split.
  - rewrite Es, list_fmap_insert, Eid, <- Hid. apply list_insert_id. by rewrite list_lookup_fmap, Hi.
  - intros j q. rewrite Es. destruct (decide (j = i)) as [->|Hji].
    + rewrite list_lookup_insert_eq by (by eapply lookup_lt_Some). by intros [= <-].
    + rewrite list_lookup_insert_ne by done. intros Hj. destruct (Hok _ _ Hj) as [H1 H2 Hc H3 H4]. split; eauto.
Qed.

(** A step of [i] that does not touch the lease. *)
Lemma inv_set_proc i p p' s :
  Inv s → procs s !! i = Some p → identity p' = identity p → proc_ok s p' → Inv (set_proc i p' s).
Proof.
  intros Hinv Hi Eid Hp'. eapply inv_update; [done..| |].
  - destruct Hp' as [H1 H2 Hc H3 H4]. by split.
  - intros j q _ Hj Hq. by apply (proj2 Hinv _ _ Hj).
Qed.

Lemma inv_write i p s :
  Inv s → procs s !! i = Some p → available p s = true → at_phase p ≠ Exited → Inv (write i p s).
Proof.
  intros Hinv Hi Ha Hx. pose proof (proj2 Hinv _ _ Hi) as [_ H2 Hc _ _].
  eapply inv_update; [done..| |].
  - split; simpl; [|by auto..|done|done]. intros _. split_and!; [done..|].
    unfold deadline, RetryPeriod, RenewDeadline, Time.Second; simpl. lia.
  - intros j q Hji Hj Hq. by destruct Hji; eapply eq_sym, available_exclusive.
Qed.

Lemma inv_stop_renewing i p released s :
  Inv s → procs s !! i = Some p → elector p = Leading →
  Inv (MkState (now s) (if released && bool_decide (holder s = identity p) then [] else holder s) (written s)
         (<[i := set_elector Stopping p]> (procs s))).
Proof.
  intros Hinv Hi He. pose proof (proj2 Hinv _ _ Hi) as Hok. destruct Hok as [H1 H2 Hc H3 H4].
  eapply inv_update; [done..| |].
  - split; simpl; try done.
  - intros j q Hji Hj Hq. destruct (po_lead _ _ (proj2 Hinv _ _ Hj) Hq) as (Hh & ? & ?).
    destruct (H1 He) as (Hh' & _). exfalso. apply Hji. eapply same_identity; [done..|congruence].
Qed.

(** A step that keeps the elector. *)
Lemma proc_ok_same s p p' :
  proc_ok s p → identity p' = identity p → renewed p' = renewed p → elector p' = elector p →
  lockAcquired p' = lockAcquired p →
  (lock_ctx_done p = true → lock_ctx_done p' = true) → (at_phase p = Exited → at_phase p' = Exited) →
  (at_phase p' = Running → lockAcquired p' = true) →
  (cancelled p' = true → at_phase p' = Unlocking ∨ at_phase p' = Exited) → proc_ok s p'.
Proof.
  intros [H1 H2 Hc H3 H4] Ei Er Ee El Hd Hx Hr Hc'. split; [|done|done| |].
  - rewrite Ee. intros He. destruct (H1 He) as (Hh & Hw & Ht). split_and!; [congruence..|].
    unfold deadline. by rewrite Er.
  - by rewrite Ee, El.
  - rewrite Ee. intros He. destruct (H4 He); auto.
Qed.

(** A step after which the elector has returned. *)
Lemma proc_ok_done s p p' :
  proc_ok s p → elector p' = ElectorDone → lockAcquired p' = lockAcquired p → cancelled p' = cancelled p →
  (at_phase p' = Exited ∨ at_phase p' = at_phase p ∧ lock_ctx_done p' = true) → proc_ok s p'.
Proof.
  intros [H1 H2 Hc H3 H4] Ee El Ec Hx.
  split; rewrite ?Ee, ?El, ?Ec; [done| | |done|]; destruct Hx as [Hx|[Hx ?]]; rewrite Hx; auto; done.
Qed.

Lemma inv_proc_step ev i p s s' :
  Inv s → procs s !! i = Some p → at_phase p ≠ Exited → proc_step ev i p s = Some s' → Inv s'.
Proof.
  intros Hinv Hi Hx. pose proof (proj2 Hinv _ _ Hi) as Hok.
  destruct ev; unfold proc_step; destruct (elector p) eqn:He; try done;
    try (destruct (at_phase p) eqn:Hph; try done).
  all: repeat match goal with
    | |- context [if ?b then Some _ else None] => destruct b eqn:?; [|done]
    end; intros [= <-].
  all: try (by apply inv_write; rewrite ?Hph).
  all: try (by apply inv_stop_renewing).
  all: try (destruct (lock_ctx_done p) eqn:?).
  all: eapply inv_set_proc; [done..|].
  all: try (by eapply proc_ok_done; simpl; rewrite ?orb_false_r; eauto).
  all: pose proof Hok as [_ H2 Hc _ _].
  all: eapply proc_ok_same; simpl; first [exact Hok|eauto].
  all: unfold lock_ctx_done in *; simpl; rewrite ?orb_true_r, ?orb_false_r, ?Hph in *; auto; try done.
  all: by intros Hcc; destruct (Hc Hcc).
Qed.

Lemma inv_advance d s s' : Inv s → step (Advance d) s = Some s' → Inv s'.
Proof.
  intros [Hid Hok]. simpl. destruct (0 <=? d); simpl; [|done].
  destruct (forallb _ _) eqn:Hf; [|done]. intros [= <-]. split; [done|]. simpl.
  intros i p Hi. destruct (Hok _ _ Hi) as [H1 H2 Hc H3 H4]. split; [|done..].
  intros He. destruct (H1 He) as (Hh & Hw & _). split_and!; [done..|].
  rewrite forallb_forall in Hf. specialize (Hf p). unfold in_time in Hf. rewrite He in Hf. simpl.
  apply Z.leb_le, Hf, list_elem_of_In. by eapply list_elem_of_lookup_2.
Qed.

Lemma step_proc ev s s' :
  step ev s = Some s' → (∃ d, ev = Advance d) ∨
  ∃ i p, procs s !! i = Some p ∧ at_phase p ≠ Exited ∧ proc_step ev i p s = Some s'.
Proof.
  intros Hs. destruct (of_event ev) as [i|] eqn:He; [right|left; by destruct ev; eauto].
  assert (E : step ev s = (p ← procs s !! i; match at_phase p with Exited => None | _ => proc_step ev i p s end))
    by (by destruct ev; simplify_eq/=).
  rewrite E, bind_Some in Hs. destruct Hs as (p & Hp & Hs). exists i, p.
  by destruct (at_phase p).
Qed.

Lemma inv_step ev s s' : Inv s → step ev s = Some s' → Inv s'.
Proof.
  intros Hinv Hs. destruct (step_proc _ _ _ Hs) as [[d ->]|(i & p & Hp & Hx & Hst)].
  - by eapply inv_advance.
  - by eapply inv_proc_step.
Qed.

Lemma inv_run evs s : Inv s → Inv (run evs s).
Proof.
  revert s. induction evs as [|ev evs IH]; intros s Hi; simpl; [done|]. apply IH.
  destruct (step ev s) as [s'|] eqn:E; simpl; [by eapply inv_step|done].
Qed.

(** Who serves leads. *)
Lemma serving_leads s i :
  Inv s → serving s i → ∃ p, procs s !! i = Some p ∧ elector p = Leading.
Proof.
  intros Hinv (p & Hi & Hr & Hc & Hs). exists p. split; [done|].
  destruct (proj2 Hinv _ _ Hi) as [_ H2 Hcc H3 H4].
  destruct (elector p); [by destruct (H3 (H2 Hr))|done|done|].
  destruct (H4 eq_refl) as [|Hd]; [congruence|]. unfold lock_ctx_done in Hd. rewrite Hc in Hd. simpl in Hd.
  destruct (Hcc Hd); congruence.
Qed.

Lemma one_serves s i j :
  Inv s → serving s i → serving s j →
  i = j ∧ ids !! i = Some (holder s) ∧ now s < written s + LeaseDuration.
Proof.
  intros Hinv Hi Hj. apply serving_leads in Hi as (p & Hi & Hp); [|done].
  apply serving_leads in Hj as (q & Hj & Hq); [|done].
  destruct (po_lead _ _ (proj2 Hinv _ _ Hi) Hp) as (Eh & Ew & Ht).
  destruct (po_lead _ _ (proj2 Hinv _ _ Hj) Hq) as (Eh' & _).
  split_and!; [eapply same_identity; [done..|congruence]| |].
  - rewrite <- (proj1 Hinv), list_lookup_fmap, Hi. simpl. by rewrite Eh.
  - unfold deadline in Ht. lia.
Qed.
End Steps.

(** ** Properties *)

(** C37. The lease excludes, as far as an election without fencing can: if the
    candidates compete under identities that are distinct and not empty, and a
    leader that cannot renew notices it at most [stall] too late, where
    [RetryPeriod + RenewDeadline + stall] is less than [LeaseDuration] (so up to
    40 seconds), then whatever the order of elections, renewals, released, lost
    and expired leases, cancellations, crashes and exits, at most one process
    runs the service without having been told to stop and without its elector
    having given up; its identity is the holder of the lease, which has not
    expired. *)
Theorem at_most_one_serving (stall : Z) (ids : list bytes) (evs : list event) (i j : nat)
  (Hstall : 0 ≤ stall) (Hshort : RetryPeriod + RenewDeadline + stall < LeaseDuration)
  (Hids : NoDup ids) (Hne : [] ∉ ids)
  (Hi : serving (run stall evs (initial ids)) i) (Hj : serving (run stall evs (initial ids)) j) :
  let s := run stall evs (initial ids) in
  i = j ∧ ids !! i = Some (holder s) ∧ now s < written s + LeaseDuration.
Proof.
  eapply one_serves; [exact Hstall|exact Hshort|exact Hids|exact Hne| |exact Hi|exact Hj].
  apply inv_run; [done..|]. by apply inv_initial.
Qed.

(** Two replicas, [a] and [b]. *)
Definition replicas : list bytes := [[97]; [98]].

(** The first is elected and crashes; the second takes the lease
    over once it has expired, and not before. *)
Definition takeover : list event :=
  [Elect 0; StartRun 0; Elect 1; Advance (4 * Time.Second); Renew 0; Crash 0; Elect 1;
   Advance (60 * Time.Second); Elect 1; StartRun 1].

Lemma at_most_one_serving_witness :
  serving (run Time.Second takeover (initial replicas)) 1 ∧
  replicas !! 1%nat =
    Some (holder (run Time.Second takeover (initial replicas))).
Proof.
  assert (Hs : serving (run Time.Second takeover (initial replicas)) 1)
    by (eexists; split_and!; vm_compute; done).
  split; [exact Hs|].
  refine (proj1 (proj2 (at_most_one_serving Time.Second replicas takeover 1 1 _ _ _ _ Hs Hs)));
    [by vm_compute|by vm_compute|by apply (bool_decide_unpack _); vm_compute..].
Defined.

(** Both conditions are needed. Two deployed replicas whose ID is left empty, or
    is the same, are elected at once. *)
Theorem shared_identity_not_excluded :
  ∀ id, serving (run 0 [Elect 0; StartRun 0; Elect 1; StartRun 1] (initial [id; id])) 0 ∧
    serving (run 0 [Elect 0; StartRun 0; Elect 1; StartRun 1] (initial [id; id])) 1.
Proof.
  intros id. unfold run, step, initial; simpl. unfold available; simpl.
  rewrite (bool_decide_eq_true_2 (id = id)) by done. rewrite !orb_true_r. simpl.
  split; eexists; split_and!; done.
Qed.

(** And a leader that is suspended for longer than the lease lasts still serves
    when the next one has been elected. *)
Theorem stalled_leader_not_excluded :
  let s := run (60 * Time.Second) [Elect 0; StartRun 0; Advance (60 * Time.Second); Elect 1; StartRun 1]
             (initial replicas) in
  serving s 0 ∧ serving s 1.
Proof. split; eexists; split_and!; vm_compute; done. Qed.

(** The lease does not cover the shutdown: the elector runs on the context
    that is cancelled to stop the service, so the lease is released when the
    shutdown begins, and a second process can serve while [run] of the first
    has not returned. *)
Theorem lease_released_before_run_returns :
  ∃ evs p, let s := run 0 evs (initial replicas) in
    procs s !! 0%nat = Some p ∧ at_phase p = Running ∧ serving s 1 ∧ holder s = [98] ∧
    RunReturns 0 ∉ evs.
Proof.
  exists [Elect 0; StartRun 0; Cancel 0; StopRenewing 0 true; StoppedLeading 0; Elect 1; StartRun 1].
  eexists. simpl. split_and!; [vm_compute; reflexivity|done|eexists; split_and!; vm_compute; done|vm_compute; done|].
  intros Hin. repeat (apply elem_of_cons in Hin as [[=]|Hin]). by apply elem_of_nil in Hin.
Qed.

End DLock.
