(* ===== verification/Daemon.v ===== *)
(** The daemon: its configuration, [cmd/lnmuxd/config.go], its logger,
    [cmd/lnmuxd/log.go], and how [cmd/lnmuxd/run.go] puts the components together;
    with the constructors of [persistence/pg.go].

    The yaml parser, the environment, zap, the database driver and the tcp
    listener are arguments. Go strings that hold hexadecimal digits are [bytes]. *)

From stdpp Require Import numbers strings sorting base fin_maps gmap list.
From stdpp Require Import options.
From S2P Require Import Prelude Sha256 Types SetIds StatelessData Registry Interceptor InvoiceCreator Mux SettledHandler Lnd.

(** ** config.go *)
Module Config.

Record LndNode := MkLndNode {
  n_PubKey : bytes;
  MacaroonPath : string;
  TlsCertPath : string;
  LndUrl : string;
  Priority : Z
}.

Record LndConfig := MkLndConfig { Nodes : list LndNode; c_Network : string }.

Record DbConfig := MkDbConfig {
  DSN : bytes;
  PoolSize : Z;
  MinIdleConns : Z;
  MaxConnAge : Z;
  PoolTimeout : Z;
  IdleTimeout : Z
}.

Record LoggingConfig := MkLoggingConfig {
  Level : string;
  Format : string;
  WithCaller : bool;
  GrpcLogging : bool;
  GrpcPayloadLogging : bool
}.

Record DistributedLockConfig := MkLockConfig {
  Namespace : string;
  LockName : string;
  LockID : bytes;
  DevKubeConfig : string
}.

Record Config := MkConfig {
  c_Lnd : LndConfig;
  DB : DbConfig;
  IdentityKey : bytes;
  c_AutoSettle : bool;
  ListenAddress : string;
  InstrumentationAddress : string;
  Logging : LoggingConfig;
  DistributedLock : DistributedLockConfig;
  c_RoutingPolicy : option RoutingPolicy
}.

Definition DefaultListenAddress : string := "localhost:19090".
Definition DefaultInstrumentationAddress : string := "localhost:2112".
Definition PostgresDSNEnvKey : string := "LNMUX_PERSISTENCE_POSTGRES_DSN".
Definition IdentityKeyEnvKey : string := "LNMUX_IDENTITY_KEY".
Definition DistributedLockIDEnvKey : string := "LNMUX_DISTRIBUTEDLOCK_ID".

Definition GetIdentityKey (c : Config) : res bytes :=
  match PubKey.DecodeString (IdentityKey c) with
  | Bad err => Bad (ErrNew "invalid identity key")
  | Good keySlice =>
      if decide (length keySlice ≠ 32%nat) then Bad (ErrNew "invalid identity key length")
      else Good (copy_array 32 keySlice)
  end.

Definition defaultRoutingPolicy : RoutingPolicy := MkRoutingPolicy 40 0 0.

Definition GetRoutingPolicy (c : Config) : RoutingPolicy :=
  match c_RoutingPolicy c with
  | None => defaultRoutingPolicy
  | Some p => MkRoutingPolicy (CltvDelta p) (FeeBaseMsat p) (FeeRatePpm p)
  end.

(** [loadStringEnvVariable]: the new value of the variable. *)
Definition loadStringEnvVariable (env : string → option bytes) (key : string) (value : bytes) : bytes :=
  match env key with Some val => val | None => value end.

(** [file] is the result of reading the file; [Unmarshal] and [UnmarshalStrict]
    are the yaml parser. *)
Definition loadConfig (file : res string) (Unmarshal UnmarshalStrict : string → res Config)
    (nonStrictConfig : bool) (env : string → option bytes) : res Config :=
  yamlFile ← file;
  cfg ← (if nonStrictConfig then Unmarshal yamlFile else UnmarshalStrict yamlFile);
  let db := DB cfg in
  let lock := DistributedLock cfg in
  Good (MkConfig (c_Lnd cfg)
          (MkDbConfig (loadStringEnvVariable env PostgresDSNEnvKey (DSN db)) (PoolSize db)
             (MinIdleConns db) (MaxConnAge db) (PoolTimeout db) (IdleTimeout db))
          (loadStringEnvVariable env IdentityKeyEnvKey (IdentityKey cfg)) (c_AutoSettle cfg)
          (ListenAddress cfg) (InstrumentationAddress cfg) (Logging cfg)
          (MkLockConfig (Namespace lock) (LockName lock)
             (loadStringEnvVariable env DistributedLockIDEnvKey (LockID lock)) (DevKubeConfig lock))
          (c_RoutingPolicy cfg)).

Lemma GetIdentityKey_Good c key :
  GetIdentityKey c = Good key →
  length key = 32%nat ∧ PubKey.DecodeString (IdentityKey c) = Good key.
Proof.
  unfold GetIdentityKey. destruct (PubKey.DecodeString _) as [k|]; [|done].
  case_decide as Hk; [done|]. intros [= <-]. split; [apply copy_array_length|].
  by rewrite copy_array_id.
Qed.

(** The identity key of the environment wins and survives the encoding: for
    every 32-byte key, a configuration loaded with its hexadecimal form in the
    environment yields that key, whatever the file says; an identity key is
    accepted only when it decodes to 32 bytes. *)
Theorem identity_key_roundtrip (file : res string) (un us : string → res Config) (ns : bool)
  (env : string → option bytes) (c : Config) (Hload : loadConfig file un us ns env = Good c) :
  (∀ key, length key = 32%nat → Forall is_byte key →
     env IdentityKeyEnvKey = Some (PubKey.EncodeToString key) → GetIdentityKey c = Good key) ∧
  (∀ key, GetIdentityKey c = Good key →
     length key = 32%nat ∧ PubKey.DecodeString (IdentityKey c) = Good key).
Proof.
  split.
  - intros key Hlen Hb Henv. revert Hload. unfold loadConfig, mbind, result_bind.
    destruct file as [f|]; [|done]. destruct (if ns then _ else _) as [c0|]; [|done].
    intros [= <-]. unfold GetIdentityKey, loadStringEnvVariable. simpl. rewrite Henv.
    rewrite PubKey.Decode_Encode by done. case_decide; [done|]. by rewrite copy_array_id.
  - intros key. apply GetIdentityKey_Good.
Qed.

Definition no_logging : LoggingConfig := MkLoggingConfig "" "" false false false.
Definition no_lock : DistributedLockConfig := MkLockConfig "" "" [] "".
Definition local_db : DbConfig := MkDbConfig [1] 10 0 0 0 0.

Definition file_config : Config :=
  MkConfig (MkLndConfig [] "regtest") local_db [] false "" "" no_logging no_lock None.
Definition environment (k : string) : option bytes :=
  if bool_decide (k = IdentityKeyEnvKey) then Some (PubKey.EncodeToString (replicate 32 171)) else None.

Lemma identity_key_roundtrip_witness :
  ∃ c, loadConfig (Good "yaml"%string) (λ _, Good file_config) (λ _, Good file_config) false environment =
         Good c ∧ GetIdentityKey c = Good (replicate 32 171).
Proof.
  eexists. split; [reflexivity|].
  apply (proj1 (identity_key_roundtrip (Good "yaml"%string) (λ _, Good file_config)
    (λ _, Good file_config) false environment _ eq_refl)).
  - reflexivity.
  - apply Forall_replicate. split; lia.
  - reflexivity.
Defined.

End Config.

(** ** log.go *)
Module Log.

Inductive zapLevel :=
  DebugLevel | InfoLevel | WarnLevel | ErrorLevel | DPanicLevel | PanicLevel | FatalLevel.

(** The [switch], on the level in lower case and without surrounding space. *)
Definition parseLevel (level : string) : option zapLevel :=
  if bool_decide (level ∈ [""; "d"; "debug"]%string) then Some DebugLevel
  else if bool_decide (level ∈ ["info"; "i"]%string) then Some InfoLevel
  else if bool_decide (level ∈ ["w"; "warn"; "warning"]%string) then Some WarnLevel
  else if bool_decide (level ∈ ["e"; "error"; "errors"]%string) then Some ErrorLevel
  else if bool_decide (level ∈ ["dp"; "dpanic"]%string) then Some DPanicLevel
  else if bool_decide (level ∈ ["p"; "panic"; "panics"]%string) then Some PanicLevel
  else if bool_decide (level ∈ ["f"; "fatal"; "fatals"]%string) then Some FatalLevel
  else None.

(** The fields of [zap.Config] that depend on the arguments. *)
Record zapConfig := MkZapConfig {
  z_Level : zapLevel;
  z_Encoding : string;
  z_caller : bool;          (** [EncodeCaller] is kept *)
  z_color : bool            (** [EncodeLevel] adds color *)
}.

(** [TrimLower] is [strings.TrimSpace] after [strings.ToLower]; [Build] is
    [zap.Config.Build]. *)
Definition initLogger (TrimLower : string → string) (Build : zapConfig → option Error)
    (level format : string) (withCaller : bool) : res zapConfig :=
  match parseLevel (TrimLower level) with
  | None => Bad (ErrNew "unknown level")
  | Some l =>
      let console := bool_decide (format = "") in
      let config := MkZapConfig l (if console then "console"%string else format) withCaller console in
      match Build config with Some err => Bad err | None => Good config end
  end.

End Log.

(** ** run.go *)
Module Daemon.
Import Lnd Config Registry.

(** [network]: the first case of the [switch] for testnet3 is empty, and Go does
    not fall through. *)
Definition network `{Chaincfg} (s : string) : res Params :=
  if bool_decide (s = Name MainNetParams) then Good MainNetParams
  else if bool_decide (s = Name TestNet3Params) then Bad (ErrNew "unsupported network")
  else if bool_decide (s = "testnet") then Good TestNet3Params
  else if bool_decide (s = Name RegressionNetParams) then Good RegressionNetParams
  else if bool_decide (s = Name SimNetParams) then Good SimNetParams
  else Bad (ErrNew "unsupported network").

Section Setup.
Context `{Semver} `{Chaincfg} `{Btcec}.

(** [connect] and [ask] are the connection and the first replies of a node. *)
Context (connect : LndNode → option Error) (ask : LndNode → replies).

(** The loop of [initLndClients]. *)
Fixpoint initNodes (net : Params) (nodes : list LndNode) (seenPubKeys : gset (list Z)) :
    outcome (res (list lndClient)) :=
  match nodes with
  | [] => Ok (Good [])
  | node :: nodes' =>
      match PubKey.NewPubKeyFromStr (n_PubKey node) with
      | Bad err => Ok (Bad (ErrNew "cannot parse pubkey"))
      | Good pubkey =>
          l ← NewLndClient (connect node) (ask node) (Lnd.MkConfig net pubkey);
          match l with
          | Bad err => Ok (Bad err)
          | Good lnd =>
              if decide (client_PubKey lnd ∈ seenPubKeys) then Ok (Bad (ErrNew "duplicate lnd node"))
              else
                rest ← initNodes net nodes' ({[client_PubKey lnd]} ∪ seenPubKeys);
                Ok (lnds ← rest; Good (lnd :: lnds))
          end
      end
  end.

Definition initLndClients (cfg : LndConfig) : outcome (res (list lndClient * Params)) :=
  match network (c_Network cfg) with
  | Bad err => Ok (Bad err)
  | Good net => r ← initNodes net (Nodes cfg) ∅; Ok (nodes ← r; Good (nodes, net))
  end.

(** [subscription_manager.go]. *)
Definition DefaultGracePeriodWithoutSubscribers : Z := 30 * Time.Second.

Definition registryConfig (cfg : Config) (identityKey : bytes) : RegistryConfig :=
  MkRegistryConfig 10 (30 * Time.Second) (60 * Time.Second) identityKey (c_AutoSettle cfg)
    DefaultGracePeriodWithoutSubscribers.

(** The options of go-pg that are set from the configuration; [o_url] stands for
    what [pg.ParseURL] puts into the others. *)
Record pgOptions := MkPgOptions {
  o_url : bytes;
  o_PoolSize : Z;
  o_MinIdleConns : Z;
  o_MaxConnAge : Z;
  o_PoolTimeout : Z;
  o_IdleTimeout : Z
}.

(** [PostgresPersister]: its connection, which may be nil. *)
Record PostgresPersister := MkPersister { conn : option pgOptions }.

Definition NewPostgresPersisterFromOptions (options : pgOptions) : PostgresPersister :=
  MkPersister (Some options).

Definition NewPostgresPersisterFromDSN (ParseURL : bytes → res pgOptions) (dsn : bytes) :
    res PostgresPersister :=
  options ← ParseURL dsn; Good (NewPostgresPersisterFromOptions options).

(** [select1] is the result of the query. *)
Definition Ping (select1 : pgOptions → option Error) (p : PostgresPersister) : option Error :=
  match conn p with None => None | Some options => select1 options end.

Definition initPersistence (ParseURL : bytes → res pgOptions) (select1 : pgOptions → option Error)
    (cfg : Config) : res PostgresPersister :=
  options ← ParseURL (DSN (DB cfg));
  let options := MkPgOptions (o_url options) (PoolSize (DB cfg)) (MinIdleConns (DB cfg))
                   (MaxConnAge (DB cfg)) (PoolTimeout (DB cfg)) (IdleTimeout (DB cfg)) in
  let db := NewPostgresPersisterFromOptions options in
  match Ping select1 db with Some err => Bad err | None => Good db end.

(** The interceptors of the grpc server, for unary calls and for streams. *)
Inductive serverInterceptor := PrometheusInterceptor | ZapInterceptor | ZapPayloadInterceptor.

Definition interceptors (l : LoggingConfig) : list serverInterceptor :=
  [PrometheusInterceptor] ++ (if GrpcLogging l then [ZapInterceptor] else []) ++
  (if GrpcPayloadLogging l then [ZapPayloadInterceptor] else []).

(** The components that [run] starts. *)
Record service := MkService {
  s_db : PostgresPersister;
  s_creator : Creator.InvoiceCreator (Net := Params);
  s_registry : RegistryConfig;
  s_muxes : list Mux.MuxConfig;
  s_interceptors : list serverInterceptor;
  s_listenAddress : string
}.

(** [run] up to the start of the goroutines; [ParseURL] and [select1] are those of
    [initPersistence], [listen] is the result of [net.Listen]. *)
Definition setup (ParseURL : bytes → res pgOptions) (select1 : pgOptions → option Error)
    (listen : string → option Error) (cfg : Config) : outcome (res service) :=
  match initPersistence ParseURL select1 cfg with
  | Bad err => Ok (Bad err)
  | Good db =>
      r ← initLndClients (c_Lnd cfg);
      Ok ('(lnds, activeNetParams) ← r;
          identityKey ← GetIdentityKey cfg;
          let keyRing := KeyRing.NewKeyRing identityKey in
          let routingPolicy := GetRoutingPolicy cfg in
          let gwPubKeys := client_PubKey <$> lnds in
          creator ← Creator.NewInvoiceCreator
                      (Creator.MkCreatorConfig keyRing gwPubKeys activeNetParams routingPolicy);
          let listenAddress := if bool_decide (ListenAddress cfg = "") then DefaultListenAddress
                               else ListenAddress cfg in
          match listen listenAddress with
          | Some err => Bad err
          | None =>
              Good (MkService db creator (registryConfig cfg identityKey)
                      ((λ lnd, Mux.New (client_PubKey lnd) routingPolicy) <$> lnds)
                      (interceptors (Logging cfg)) listenAddress)
          end)
  end.

(** [New] is [dlock.New]; without a lock there is nothing to release. *)
Definition initDistributedLock {U} (New : DistributedLockConfig → res U)
    (cfg : DistributedLockConfig) : res (option U) :=
  if bool_decide (LockName cfg = "") then Good None
  else releaseLock ← New cfg; Good (Some releaseLock).

(** The instrumentation server: its address, its routes and the timeout that
    bounds the time to read a header. *)
Record httpServer := MkHttpServer { Addr : string; routes : list string; ReadHeaderTimeout : Z }.

Definition initInstrumentationServer (instAddress : string) : httpServer :=
  MkHttpServer
    (if bool_decide (instAddress = "") then DefaultInstrumentationAddress else instAddress)
    ["/metrics"; "/debug/pprof"; "/debug/pprof/cmdline"; "/debug/pprof/profile";
     "/debug/pprof/symbol"; "/debug/pprof/trace"; "/debug/pprof/allocs"; "/debug/pprof/block";
     "/debug/pprof/goroutine"; "/debug/pprof/heap"; "/debug/pprof/mutex";
     "/debug/pprof/threadcreate"]%string
    (10 * Time.Second).

(** [initServiceWithLock] is called with its first two arguments and the
    configuration that [run] closes over. *)
Definition runAction (loaded : res Config) (TrimLower : string → string)
    (Build : Log.zapConfig → option Error)
    (initServiceWithLock : string → DistributedLockConfig → Config → option Error) : option Error :=
  match loaded with
  | Bad err => Some err
  | Good cfg =>
      match Log.initLogger TrimLower Build (Level (Logging cfg)) (Format (Logging cfg))
              (WithCaller (Logging cfg)) with
      | Bad err => Some err
      | Good _ => initServiceWithLock (InstrumentationAddress cfg) (DistributedLock cfg) cfg
      end
  end.

(** ** Facts *)

Lemma NewLndClient_PubKey e r c l : NewLndClient e r c = Ok (Good l) → cfg l = c.
Proof.
  unfold NewLndClient, tryValidateConfig. destruct e; [done|]. simpl.
  destruct (checkReplies c r) as [[err|]|]; simpl; [by intros [= <-]..|done].
Qed.

Lemma NewPubKeyFromStr_length s k : PubKey.NewPubKeyFromStr s = Good k → length k = PubKey.PubKeySize.
Proof.
  unfold PubKey.NewPubKeyFromStr, PubKey.NewPubKeyFromBytes, mbind, result_bind. case_decide; [|done].
  destruct (PubKey.DecodeString s); [|done]. case_decide; [|done]. intros [= <-].
  apply copy_array_length.
Qed.

Lemma initNodes_Good net nodes seen lnds :
  initNodes net nodes seen = Ok (Good lnds) →
  Forall2 (λ n l, PubKey.NewPubKeyFromStr (n_PubKey n) = Good (client_PubKey l)) nodes lnds ∧
  NoDup (client_PubKey <$> lnds) ∧ (∀ k, k ∈ client_PubKey <$> lnds → k ∉ seen) ∧
  Forall (λ l, client_Network l = net) lnds.
Proof.
  revert seen lnds. induction nodes as [|n nodes IH]; intros seen lnds; cbn [initNodes].
  { intros [= <-]. split_and!; [done|constructor|by intros k ?%elem_of_nil|done]. }
  destruct (PubKey.NewPubKeyFromStr (n_PubKey n)) as [pk|] eqn:Hpk; [|done].
  destruct (NewLndClient _ _ _) as [[l|]|] eqn:Hl; cbn; [|done|done].
  apply NewLndClient_PubKey in Hl. case_decide as Hin; [done|].
  destruct (initNodes _ _ _) as [[lnds'|]|] eqn:Hrest; cbn; [|done|done]. intros [= <-].
  apply IH in Hrest as (Hf & Hnd & Hfresh & Hnet).
  assert (El : client_PubKey l = pk) by (unfold client_PubKey; by rewrite Hl). split_and!.
  - constructor; [by rewrite Hpk, El|done].
  - cbn. constructor; [|done]. intros Hx%Hfresh. set_solver.
  - intros k [->|Hk]%elem_of_cons; [done|]. apply Hfresh in Hk. set_solver.
  - constructor; [|done]. unfold client_Network. by rewrite Hl.
Qed.

Lemma clients_lengths nodes lnds :
  Forall2 (λ n l, PubKey.NewPubKeyFromStr (n_PubKey n) = Good (client_PubKey l)) nodes lnds →
  Forall (λ k, length k = PubKey.PubKeySize) (client_PubKey <$> lnds).
Proof.
  induction 1 as [|n l nodes lnds Hk _ IH]; constructor; [|done].
  by eapply NewPubKeyFromStr_length.
Qed.

End Setup.

(** ** Properties *)

(** The supported networks are those under lnd's own names, and the client
    then expects lnd to report the configured name; btcd's name of the test
    network, which has a case of its own, is rejected. *)
Theorem network_names `{Chaincfg} `{!ChaincfgLaws} (s : string) :
  (∀ p, network s = Good p ↔
     (s = "mainnet" ∧ p = MainNetParams) ∨ (s = "testnet" ∧ p = TestNet3Params) ∨
     (s = "regtest" ∧ p = RegressionNetParams) ∨ (s = "simnet" ∧ p = SimNetParams)) ∧
  (∀ p, network s = Good p → lnd_network (Name p) = s) ∧
  network "testnet3" = Bad (ErrNew "unsupported network").
Proof.
  assert (Hiff : ∀ p, network s = Good p ↔
     (s = "mainnet" ∧ p = MainNetParams) ∨ (s = "testnet" ∧ p = TestNet3Params) ∨
     (s = "regtest" ∧ p = RegressionNetParams) ∨ (s = "simnet" ∧ p = SimNetParams)).
  { intros p. unfold network.
    rewrite MainNet_Name, TestNet3_Name, Regression_Name, SimNet_Name.
    repeat case_bool_decide; subst; naive_solver. }
  split_and!; [done| |].
  - intros p [[-> ->]|[[-> ->]|[[-> ->]|[-> ->]]]]%Hiff; unfold lnd_network;
      by rewrite ?MainNet_Name, ?TestNet3_Name, ?Regression_Name, ?SimNet_Name.
  - unfold network. by rewrite MainNet_Name, TestNet3_Name.
Qed.

Lemma policy_fits_hint (pol : RoutingPolicy) :
  u32 (FeeBaseMsat pol) = FeeBaseMsat pol ∧ u32 (FeeRatePpm pol) = FeeRatePpm pol ∧
  u16 (CltvDelta pol) = CltvDelta pol ↔
  0 ≤ FeeBaseMsat pol < 2 ^ 32 ∧ 0 ≤ FeeRatePpm pol < 2 ^ 32 ∧ 0 ≤ CltvDelta pol < 2 ^ 16.
Proof. unfold u32, u16. rewrite !Z.mod_small_iff by lia. lia. Qed.

(** C15. The parts of the daemon fit together: one mux per configured node, for
    distinct keys, enforcing the configured policy; every invoice carries, in
    order, one hop hint per mux, with the key and the virtual channel that mux
    intercepts and with the policy truncated to the widths of the hint. The hint
    tells the policy that the mux enforces exactly if the base fee and the fee
    rate fit in 32 bits and the cltv delta in 16 bits, which nothing checks. The
    creator encodes payment addresses with the private key that btcec makes of
    the identity key, whose bytes the registry decodes with: these are the same
    if the identity key is a valid scalar, below the order of the group, which is
    not checked either. *)
Theorem deployment_coherent `{Semver} `{Chaincfg} `{Btcec} `{!BtcecLaws}
  (connect : LndNode → option Error) (ask : LndNode → replies)
  (ParseURL : bytes → res pgOptions) (select1 : pgOptions → option Error)
  (listen : string → option Error) (cfg : Config) (s : service)
  (Hrun : setup connect ask ParseURL select1 listen cfg = Ok (Good s)) :
  let pol := GetRoutingPolicy cfg in
  Forall2 (λ n m, PubKey.NewPubKeyFromStr (n_PubKey n) = Good (Mux.lnd_PubKey m) ∧ Mux.routingPolicy m = pol)
    (Nodes (c_Lnd cfg)) (s_muxes s) ∧
  NoDup (Mux.lnd_PubKey <$> s_muxes s) ∧
  (∀ amt exp cltv memo dh addr,
     (λ h, (SerializeCompressed (Creator.NodeID h), Creator.ChannelID h, Creator.FeeBaseMSat h,
            Creator.FeeProportionalMillionths h, Creator.CLTVExpiryDelta h)) <$>
       (Creator.options (s_creator s) amt exp memo dh cltv addr ≫=
          λ o, match o with Creator.RouteHint hs => hs | _ => [] end) =
     (λ m, (Mux.lnd_PubKey m, Mux.virtualChannel m, u32 (FeeBaseMsat pol), u32 (FeeRatePpm pol),
            u16 (CltvDelta pol))) <$> s_muxes s) ∧
  (u32 (FeeBaseMsat pol) = FeeBaseMsat pol ∧ u32 (FeeRatePpm pol) = FeeRatePpm pol ∧
   u16 (CltvDelta pol) = CltvDelta pol ↔
   0 ≤ FeeBaseMsat pol < 2 ^ 32 ∧ 0 ≤ FeeRatePpm pol < 2 ^ 32 ∧ 0 ≤ CltvDelta pol < 2 ^ 16) ∧
  KeyRing.privKey (Creator.keyRing (s_creator s)) = (PrivKeyFromBytes (PrivKey (s_registry s))).1 ∧
  (valid_scalar (PrivKey (s_registry s)) →
   PrivKey (s_registry s) = Serialize (KeyRing.privKey (Creator.keyRing (s_creator s)))).
Proof.
  revert Hrun. unfold setup, initLndClients, mbind, outcome_bind, result_bind.
  destruct (initPersistence _ _ _) as [db|]; [|done].
  destruct (network _) as [net|]; [|done].
  destruct (initNodes _ _ _ _ _) as [[lnds|]|] eqn:Hn; [|done|done].
  destruct (GetIdentityKey cfg) as [ik|] eqn:Hik; [|done].
  destruct (Creator.NewInvoiceCreator (Net := Params) _) as [c|] eqn:Hc; [|done].
  destruct (listen _); [done|]. intros [= <-]. cbn.
  apply initNodes_Good in Hn as (Hf & Hnd & _ & _).
  pose proof (Creator.NewInvoiceCreator_keyRing _ _ Hc) as Hring. split_and!.
  - apply Forall2_fmap_r. eapply Forall2_impl; [exact Hf|]. done.
  - by rewrite <- list_fmap_compose.
  - intros amt exp cltv memo dh addr.
    pose proof (Creator.hop_hints_match_nodes _ c Hc (clients_lengths _ _ Hf) amt exp cltv memo dh addr) as Hh.
    etrans; [exact Hh|]. cbn [Creator.GwPubKeys]. by rewrite <- !list_fmap_compose.
  - apply policy_fits_hint.
  - rewrite Hring. cbn. apply KeyRing.NewKeyRing_privKey.
  - intros Hv. rewrite Hring. cbn.
    rewrite KeyRing.NewKeyRing_privKey. symmetry. apply Serialize_FromBytes; [|done].
    by apply GetIdentityKey_Good in Hik as [? _].
Qed.

(** A regtest deployment with two nodes. *)
Module Witness.
Import LndInstances.

Definition key1 : bytes := 2 :: replicate 32 5.
Definition key2 : bytes := 3 :: replicate 32 6.

Definition config : Config :=
  MkConfig (MkLndConfig [MkLndNode (PubKey.EncodeToString key1) "" "" "" 0;
                         MkLndNode (PubKey.EncodeToString key2) "" "" "" 0] "regtest")
    local_db (PubKey.EncodeToString (replicate 32 171)) true "" "" no_logging no_lock (Some (MkRoutingPolicy 50 1000 10)).

Definition offline (n : LndNode) : replies :=
  MkReplies (Bad (ErrExternal "unavailable")) (Bad (ErrExternal "unavailable")).

Lemma network_names_witness : lnd_network (Name (Chaincfg := btcd_nets) Test3) = "testnet"%string.
Proof.
  apply (proj1 (proj2 (network_names (H := btcd_nets) "testnet"))). vm_compute. reflexivity.
Defined.

Definition parsed (dsn : bytes) : res pgOptions := Good (MkPgOptions dsn 0 0 0 0 0).

Abbreviation started :=
  (setup (H1 := XorGroup.xor_btcec) (λ _, None) offline parsed (λ _, None) (λ _, None) config).

Lemma deployment_coherent_witness :
  ∃ s, started = Ok (Good s) ∧ NoDup (Mux.lnd_PubKey <$> s_muxes s) ∧
    PrivKey (s_registry s) =
      Serialize (Btcec := XorGroup.xor_btcec) (KeyRing.privKey (Creator.keyRing (s_creator s))).
Proof.
  destruct started as [[s|e]|m] eqn:E; [|vm_compute in E; discriminate E..].
  exists s. split; [reflexivity|].
  destruct (deployment_coherent (H1 := XorGroup.xor_btcec) (H2 := XorGroup.xor_btcec_laws)
    (λ _, None) offline parsed (λ _, None) (λ _, None) config s E) as (_ & Hnd & _ & _ & _ & Hkey).
  split; [exact Hnd|]. apply Hkey. exact I.
Defined.

End Witness.
End Daemon.
