(* ===== verification/CommandLine.v ===== *)
(** The command line: [cmd/lnmuxd/main.go], the commands of [run.go] and
    [migrate.go], and how their actions read the flags. The library that parses
    the arguments, github.com/urfave/cli, is the parameter [Run] of [main]. *)

From stdpp Require Import numbers strings base list.
From stdpp Require Import options.
From S2P Require Import Prelude Types Migrations Daemon.

Module CommandLine.
Import Config.
Local Open Scope string_scope.

(** ** The application *)

Inductive Flag :=
  | BoolFlag (name usage : string)
  | StringFlag (name : string) (aliases : list string).

(** What an action sees: the values of the flags and the arguments. *)
Record Context := MkContext {
  c_String : string → string;
  c_Bool : string → bool;
  c_Args : list string
}.

(** An action prints lines and may fail. *)
Definition action : Type := Context → list string * option Error.

Record Command := MkCommand { command_Name : string; Action : action }.
Record App := MkApp { app_Name : string; Commands : list Command; Flags : list Flag }.

Definition nonStrictConfigName : string := "non-strict-config".

Definition nonStrictConfigFlag : Flag :=
  BoolFlag nonStrictConfigName "If set to true, unknown config fields are silently ignored".

Section Main.
(** The environment of the process, reading files, yaml and the rest of the
    actions. *)
Context (env : string → option bytes) (ReadFile : string → res string).
Context (Unmarshal UnmarshalStrict : string → res Config).

Definition loadConfig (c : Context) : res Config :=
  Config.loadConfig (ReadFile (c_String c "config")) Unmarshal UnmarshalStrict
    (c_Bool c nonStrictConfigName) env.

(** *** [migrate] *)

Context (ShowCommandHelp : string → option Error) (ParseURL : Config → option Error).
Context (discover : string → option Error) (run_migrations : Config → list string → res (Z * Z)).
Context (show : Z → string).

(** The versions before and after the migrations, as they are printed. *)
Definition report (versions : Z * Z) : string :=
  let '(oldVersion, newVersion) := versions in
  if bool_decide (newVersion ≠ oldVersion) then
    "migrated from version " +:+ show oldVersion +:+ " to " +:+ show newVersion
  else "version is " +:+ show oldVersion.

Definition migrateAction (c : Context) : list string * option Error :=
  match c_Args c with
  | [] => ([], ShowCommandHelp "migrate")
  | args =>
      match cfg ← loadConfig c;
            Migrations.migrateAction (Good cfg) ParseURL discover (run_migrations cfg args) with
      | Bad err => ([], Some err)
      | Good versions => ([report versions], None)
      end
  end.

Definition migrateCommand : Command := MkCommand "migrate" migrateAction.

(** *** [run] *)

Context (TrimLower : string → string) (Build : Log.zapConfig → option Error).
Context (initServiceWithLock : string → DistributedLockConfig → Config → option Error).

Definition runCommand : Command :=
  MkCommand "run" (λ c, ([], Daemon.runAction (loadConfig c) TrimLower Build initServiceWithLock)).

(** *** [main] *)

Definition app : App :=
  MkApp "lnmuxd" [migrateCommand; runCommand] [StringFlag "config" ["c"]; nonStrictConfigFlag].

(** What [main] prints, and the status the process exits with when it returns. *)
Definition main (Run : App → list string → list string * option Error) (show_error : Error → string)
    (args : list string) : list string * Z :=
  match Run app args with
  | (printed, Some err) => ((printed ++ [show_error err])%list, 0%Z)
  | (printed, None) => (printed, 0%Z)
  end.

(** ** Properties *)

(** The names under which a flag can be read. *)
Definition flag_names (f : Flag) : list string :=
  match f with BoolFlag n _ => [n] | StringFlag n aliases => n :: aliases end.

(** Commands and flags can be told apart, and the flags that [loadConfig] reads
    are declared. *)
Lemma app_well_formed :
  NoDup (command_Name <$> Commands app) ∧ NoDup (Flags app ≫= flag_names) ∧
  StringFlag "config" ["c"] ∈ Flags app ∧ nonStrictConfigFlag ∈ Flags app.
Proof.
  split_and!; [by apply (bool_decide_unpack _); vm_compute..|by left|by right; left].
Qed.

(** Both commands work on the same configuration, and neither does anything
    without one: with arguments, an error of [loadConfig] is the error of the
    action, and nothing is printed. *)
Lemma actions_need_config c err cmd :
  cmd ∈ Commands app → c_Args c ≠ [] → loadConfig c = Bad err → Action cmd c = ([], Some err).
Proof.
  intros Hc Ha Hl. repeat setoid_rewrite elem_of_cons in Hc. destruct Hc as [-> |[-> |[]%elem_of_nil]]; simpl.
  - unfold migrateAction. destruct (c_Args c); [done|]. by rewrite Hl.
  - by rewrite Hl.
Qed.

(** A migration that is not needed reports the version it found. *)
Lemma migrate_reports c cfg v1 v2 :
  c_Args c ≠ [] → loadConfig c = Good cfg → ParseURL cfg = None →
  discover "persistence/migrations" = None → run_migrations cfg (c_Args c) = Good (v1, v2) →
  migrateAction c = ([report (v1, v2)], None).
Proof.
  intros Ha Hl Hp Hd Hr. unfold migrateAction. destruct (c_Args c) as [|a args]; [done|]. rewrite Hl. simpl.
  unfold Migrations.migrateAction. simpl. rewrite Hp. unfold Migrations.DiscoverSQLMigrations. simpl.
  by rewrite Hd, Hr.
Qed.

(** The exit status does not tell failure from success: [main] prints the error
    of the command and returns. *)
Theorem exit_status_hides_failure Run show_error args : (main Run show_error args).2 = 0%Z.
Proof. unfold main. by destruct (Run app args) as [? []]. Qed.

End Main.
End CommandLine.
