(* ===== verification/Process.v ===== *)
(** The goroutines of the daemon and how they end.

    [run] of [cmd/lnmuxd/run.go] starts an error group: the registry, a mux per
    node, the grpc server and a goroutine that stops it. [Mux.Run] starts two
    goroutines of its own, the interceptor (with its receive loop) and the node
    settled handler, and waits for them. Every goroutine is given by where it
    blocks; what it exchanges is modelled in the files of the components.

    Steps have a cause. [Own] steps are those a goroutine takes because of the
    program: a channel operation whose two sides are ready, a [select] with a
    ready case, a call that returns because its context is done or because it was
    told to stop. [Env] steps are up to lnd, the database, the clients and the
    clock: messages that arrive, connections that are made or fail, calls that
    return an error by themselves. Everything may interleave, but that the daemon
    ends must not depend on an [Env] step.

    Once the context of a stream is done the stream receives nothing new, but
    messages it has received before may still be delivered, and a [select] may
    prefer them, or a timer that has fired, to [ctx.Done()]: [m_blocks] and
    [m_htlcs] count the messages that have arrived and have not been read. Turns of
    a loop that leave the goroutine where it was (the registry serves a request,
    the interceptor sends a response) are not steps. *)

From stdpp Require Import numbers relations base list.
From stdpp Require Import options.
From S2P Require Import Prelude.

Module Process.

Inductive cause := Own | Env.

(** The goroutine of [Registry.Run]; [quit_closed] is set by a regular end. *)
Inductive registry_pc := RegServing | RegStopped (quit_closed : bool).

(** The goroutine of [Mux.Run]. *)
Inductive loop_pc :=
  | FirstHeight          (** the [select] before the loop *)
  | Selecting            (** the [select] of the loop *)
  | Notifying            (** in [registry.NotifyExitHopHtlc] *)
  | Ended (err : bool)   (** the deferred [cancel] has run; in [wg.Wait] *)
  | LoopReturned.

(** The goroutine of [interceptor.run]. *)
Inductive icpt_pc :=
  | Connecting           (** [HtlcInterceptor] and [RegisterBlockEpochNtfn] *)
  | AwaitingBlock        (** the [select] on the initial block *)
  | SendingInitial       (** [i.heightChan <- int(block.Height)] *)
  | Looping              (** the main [select] *)
  | SendingHeight        (** the inner [select] on [heightChan] and [ctx.Done()] *)
  | Draining (retry : bool)  (** [start] has cancelled its context; in [wg.Wait] *)
  | Retrying (fired : bool)  (** the retry delay of [run]; its timer has fired *)
  | IcptExited.

(** The goroutine of [htlcReceiveLoop]. *)
Inductive recv_pc := RecvOff | Receiving | Handing.

(** The goroutine of [NodeSettledHandler.Run]. *)
Inductive settled_pc := Subscribed | SettledRetrying (fired : bool) | SettledExited.

Record mux := MkMux {
  m_loop : loop_pc;
  m_icpt : icpt_pc;
  m_recv : recv_pc;
  m_settled : settled_pc;
  m_blocks : nat;   (** blocks that have arrived on the stream of [RegisterBlockEpochNtfn] *)
  m_htlcs : nat     (** htlcs that have arrived on the stream of [HtlcInterceptor] *)
}.

(** The context of a mux is derived from that of the group and cancelled when
    its loop has ended. *)
Definition mux_done (ctx_done : bool) (m : mux) : bool :=
  ctx_done || match m_loop m with Ended _ | LoopReturned => true | _ => false end.

Definition receives_height (p : loop_pc) : bool :=
  match p with FirstHeight | Selecting => true | _ => false end.

(** [start] has opened its streams and has not cancelled its context. *)
Definition streaming (i : icpt_pc) : bool :=
  match i with AwaitingBlock | SendingInitial | Looping | SendingHeight => true | _ => false end.

(** The context of [start] is done. *)
Definition start_done (c : bool) (m : mux) : bool :=
  mux_done c m || match m_icpt m with Draining _ => true | _ => false end.

(** ** Steps of one mux; [c] says whether the context of the group is done. *)
Inductive mux_step (c : bool) (r : registry_pc) : cause → mux → mux → Prop :=
  (** the loop of [Run] *)
  | loop_initial p k s b q : receives_height p = true →
      mux_step c r Own (MkMux p SendingInitial k s b q) (MkMux Selecting Looping Receiving s b q)
  | loop_height p k s b q : receives_height p = true →
      mux_step c r Own (MkMux p SendingHeight k s b q) (MkMux Selecting Looping k s b q)
  | loop_replies i s b q :
      mux_step c r Own (MkMux Selecting i Handing s b q) (MkMux Selecting i Receiving s b q)
  | loop_notifies i s b q :
      mux_step c r Own (MkMux Selecting i Handing s b q) (MkMux Notifying i Receiving s b q)
  | loop_fails i s b q :
      mux_step c r Own (MkMux Selecting i Handing s b q) (MkMux (Ended true) i Receiving s b q)
  | loop_notified i k s b q : r = RegServing ∨ r = RegStopped true →
      mux_step c r Own (MkMux Notifying i k s b q) (MkMux Selecting i k s b q)
  | loop_done p i k s b q : c = true → receives_height p = true →
      mux_step c r Own (MkMux p i k s b q) (MkMux (Ended false) i k s b q)
  (** the interceptor connects; a call that sees its context done may return
      [context.Canceled] or an error of grpc *)
  | icpt_connected p k s b q : mux_done c (MkMux p Connecting k s b q) = false →
      mux_step c r Env (MkMux p Connecting k s b q) (MkMux p AwaitingBlock k s b q)
  | icpt_connect_fails p k s b q :
      mux_step c r Env (MkMux p Connecting k s b q) (MkMux p (Retrying false) k s b q)
  | icpt_connect_done p k s b q : mux_done c (MkMux p Connecting k s b q) = true →
      mux_step c r Own (MkMux p Connecting k s b q) (MkMux p IcptExited k s b q)
  | icpt_connect_cancelled p k s b q : mux_done c (MkMux p Connecting k s b q) = true →
      mux_step c r Own (MkMux p Connecting k s b q) (MkMux p (Retrying false) k s b q)
  (** the [select] on the initial block; failing is an error of the stream or the
      timeout *)
  | icpt_first_block p k s b q :
      mux_step c r Own (MkMux p AwaitingBlock k s (S b) q) (MkMux p SendingInitial k s b q)
  | icpt_first_fails p k s b q :
      mux_step c r Env (MkMux p AwaitingBlock k s b q) (MkMux p (Retrying false) k s 0 0)
  | icpt_first_done p k s b q : mux_done c (MkMux p AwaitingBlock k s b q) = true →
      mux_step c r Own (MkMux p AwaitingBlock k s b q) (MkMux p IcptExited k s 0 0)
  (** the main [select]; a response can be sent until the context is done, after
      which sending fails *)
  | icpt_block p k s b q :
      mux_step c r Own (MkMux p Looping k s (S b) q) (MkMux p SendingHeight k s b q)
  | icpt_fails p k s b q :
      mux_step c r Env (MkMux p Looping k s b q) (MkMux p (Draining true) k s b q)
  | icpt_loop_done p k s b q : mux_done c (MkMux p Looping k s b q) = true →
      mux_step c r Own (MkMux p Looping k s b q) (MkMux p (Draining false) k s b q)
  | icpt_height_done p k s b q : mux_done c (MkMux p SendingHeight k s b q) = true →
      mux_step c r Own (MkMux p SendingHeight k s b q) (MkMux p (Draining false) k s b q)
  | icpt_drained p d s b q :
      mux_step c r Own (MkMux p (Draining d) RecvOff s b q)
        (MkMux p (if d then Retrying false else IcptExited) RecvOff s 0 0)
  | icpt_timer p k s b q : mux_done c (MkMux p (Retrying false) k s b q) = false →
      mux_step c r Env (MkMux p (Retrying false) k s b q) (MkMux p (Retrying true) k s b q)
  | icpt_retry p k s b q :
      mux_step c r Own (MkMux p (Retrying true) k s b q) (MkMux p Connecting k s b q)
  | icpt_retry_done p k s f b q : mux_done c (MkMux p (Retrying f) k s b q) = true →
      mux_step c r Own (MkMux p (Retrying f) k s b q) (MkMux p IcptExited k s b q)
  (** its streams *)
  | block_arrives p i k s b q : mux_done c (MkMux p i k s b q) = false → streaming i = true →
      mux_step c r Env (MkMux p i k s b q) (MkMux p i k s (S b) q)
  | htlc_arrives p i k s b q : mux_done c (MkMux p i k s b q) = false → streaming i = true →
      mux_step c r Env (MkMux p i k s b q) (MkMux p i k s b (S q))
  (** its receive loop *)
  | recv_htlc p i s b q :
      mux_step c r Own (MkMux p i Receiving s b (S q)) (MkMux p i Handing s b q)
  | recv_fails p i s b q :
      mux_step c r Env (MkMux p i Receiving s b q) (MkMux p i RecvOff s b q)
  | recv_cancelled p i s b q : start_done c (MkMux p i Receiving s b q) = true →
      mux_step c r Own (MkMux p i Receiving s b q) (MkMux p i RecvOff s b q)
  | recv_done p i s b q : start_done c (MkMux p i Handing s b q) = true →
      mux_step c r Own (MkMux p i Handing s b q) (MkMux p i RecvOff s b q)
  (** the node settled handler *)
  | settled_fails p i k b q :
      mux_step c r Env (MkMux p i k Subscribed b q) (MkMux p i k (SettledRetrying false) b q)
  | settled_done p i k b q : mux_done c (MkMux p i k Subscribed b q) = true →
      mux_step c r Own (MkMux p i k Subscribed b q) (MkMux p i k SettledExited b q)
  | settled_cancelled p i k b q : mux_done c (MkMux p i k Subscribed b q) = true →
      mux_step c r Own (MkMux p i k Subscribed b q) (MkMux p i k (SettledRetrying false) b q)
  | settled_timer p i k b q : mux_done c (MkMux p i k (SettledRetrying false) b q) = false →
      mux_step c r Env (MkMux p i k (SettledRetrying false) b q) (MkMux p i k (SettledRetrying true) b q)
  | settled_retry p i k b q :
      mux_step c r Own (MkMux p i k (SettledRetrying true) b q) (MkMux p i k Subscribed b q)
  | settled_retry_done p i k f b q : mux_done c (MkMux p i k (SettledRetrying f) b q) = true →
      mux_step c r Own (MkMux p i k (SettledRetrying f) b q) (MkMux p i k SettledExited b q).

(** ** Steps of the group *)

Record daemon := MkDaemon {
  ctx_done : bool;            (** the context of the error group *)
  registry : registry_pc;
  muxes : list mux;
  serving : bool;             (** [grpcServer.Serve] has not returned *)
  stopper : bool              (** [grpcServer.Stop] has not been called *)
}.

(** The context of the group is cancelled from outside of [run]. *)
Definition cancelled (s : daemon) : daemon :=
  MkDaemon true (registry s) (muxes s) (serving s) (stopper s).

Inductive inner : cause → daemon → daemon → Prop :=
  | step_registry_done ms v t :
      inner Own (MkDaemon true RegServing ms v t) (MkDaemon true (RegStopped true) ms v t)
  (** the event loop returns an error, which cancels the group *)
  | step_registry_fails c ms v t :
      inner Env (MkDaemon c RegServing ms v t) (MkDaemon true (RegStopped false) ms v t)
  | step_mux c r ms v t a i m m' :
      ms !! i = Some m → mux_step c r a m m' →
      inner a (MkDaemon c r ms v t) (MkDaemon c r (<[i := m']> ms) v t)
  (** [wg.Wait] of a mux passes; an error cancels the group *)
  | step_mux_returns c r ms v t i e k b q :
      ms !! i = Some (MkMux (Ended e) IcptExited k SettledExited b q) →
      inner Own (MkDaemon c r ms v t)
        (MkDaemon (c || e) r (<[i := MkMux LoopReturned IcptExited k SettledExited b q]> ms) v t)
  (** [Serve] returns an error by itself, or because [Stop] was called *)
  | step_serve_fails c r ms t :
      inner Env (MkDaemon c r ms true t) (MkDaemon true r ms false t)
  | step_serve_stopped c r ms :
      inner Own (MkDaemon c r ms true false) (MkDaemon true r ms false false)
  | step_stop r ms v :
      inner Own (MkDaemon true r ms v true) (MkDaemon true r ms v false).

Inductive step (a : cause) (s : daemon) : daemon → Prop :=
  | step_inner s' : inner a s s' → step a s s'
  | step_cancel : a = Env → ctx_done s = false → step a s (cancelled s).

(** A step of either cause. *)
Definition any_step (s s' : daemon) : Prop := ∃ a, step a s s'.

(** [run] starts everything. *)
Definition started (n : nat) : daemon :=
  MkDaemon false RegServing (replicate n (MkMux FirstHeight Connecting RecvOff Subscribed 0 0)) true true.

(** [group.Wait] returns. *)
Definition finished (s : daemon) : Prop :=
  (∃ q, registry s = RegStopped q) ∧ Forall (λ m, m_loop m = LoopReturned) (muxes s) ∧
  serving s = false ∧ stopper s = false.

(** A mux that will never return: its interceptor offers the initial height to
    a loop that has ended, or its loop offers an htlc to a registry that has
    failed. *)
Definition hung (r : registry_pc) (m : mux) : Prop :=
  ((∃ b, m_loop m = Ended b) ∧ m_icpt m = SendingInitial) ∨
  (m_loop m = Notifying ∧ r = RegStopped false).

(** ** Measure *)

Definition loop_rank (p : loop_pc) : nat :=
  match p with FirstHeight => 4 | Notifying => 4 | Selecting => 3 | Ended _ => 1 | LoopReturned => 0 end.

Definition icpt_rank (p : icpt_pc) : nat :=
  match p with
  | SendingInitial => 8 | SendingHeight => 7 | Looping => 6 | Draining _ => 5
  | AwaitingBlock => 3 | Retrying true => 3 | Connecting => 2 | Retrying false => 1 | IcptExited => 0
  end.

Definition recv_rank (p : recv_pc) : nat :=
  match p with RecvOff => 0 | Receiving => 1 | Handing => 3 end.

Definition settled_rank (p : settled_pc) : nat :=
  match p with SettledRetrying true => 3 | Subscribed => 2 | SettledRetrying false => 1 | SettledExited => 0 end.

(** What the messages that have arrived can still cause. *)
Definition mux_backlog (m : mux) : nat := 6 * m_blocks m + 3 * m_htlcs m.

Definition mux_rank (m : mux) : nat :=
  loop_rank (m_loop m) + icpt_rank (m_icpt m) + recv_rank (m_recv m) + settled_rank (m_settled m) +
  mux_backlog m.

Definition backlog (s : daemon) : nat := sum_list_with mux_backlog (muxes s).

Definition rank (s : daemon) : nat :=
  match registry s with RegServing => 1 | _ => 0 end + sum_list_with mux_rank (muxes s) +
  (if serving s then 1 else 0) + (if stopper s then 1 else 0).

Lemma sum_insert (f : mux → nat) i m m' ms :
  ms !! i = Some m → (sum_list_with f (<[i := m']> ms) + f m = sum_list_with f ms + f m')%nat.
Proof.
  revert i. induction ms as [|x ms IH]; intros [|i] Hi; simplify_eq/=; [lia|].
  specialize (IH i Hi). lia.
Qed.

(** ** Every step after the cancellation comes closer to the end. *)

Lemma mux_step_rank a r m m' : mux_step true r a m m' → (mux_rank m' < mux_rank m)%nat.
Proof.
  intros Hs; inversion Hs; subst; unfold mux_done, mux_rank, mux_backlog in *; simpl in *; try done;
    repeat match goal with
      | H : receives_height ?p = true |- _ => destruct p; try discriminate H; clear H
      | |- context [recv_rank ?k] => is_var k; destruct k
      | |- context [icpt_rank (if ?b then _ else _)] => is_var b; destruct b
      | |- context [if ?b then _ else _] => is_var b; destruct b
      end; simpl; lia.
Qed.

Lemma mux_rank_le m : (mux_rank m ≤ 18 + mux_backlog m)%nat.
Proof. destruct m as [[] [| | | | | |[]|] [] [|[]|] b q]; unfold mux_rank; simpl; lia. Qed.

Lemma rank_le s : (rank s ≤ 18 * length (muxes s) + backlog s + 3)%nat.
Proof.
  unfold rank, backlog.
  enough (sum_list_with mux_rank (muxes s) ≤ 18 * length (muxes s) + sum_list_with mux_backlog (muxes s))%nat.
  { destruct (registry s), (serving s), (stopper s); lia. }
  induction (muxes s) as [|m ms IH]; simpl; [done|]. pose proof (mux_rank_le m). lia.
Qed.

Lemma step_rank a s s' : step a s s' → ctx_done s = true → ctx_done s' = true ∧ (rank s' < rank s)%nat.
Proof.
  intros [? Hs|] Hc; [|congruence].
  destruct Hs as [| |c r ms v t a i m m' Hi Hm|c r ms v t i e k b q Hi| | |]; simpl in Hc; simplify_eq;
    (split; [done|]); unfold rank; simpl.
  1-2,5-7: try destruct v; try destruct t; lia.
  - pose proof (sum_insert mux_rank _ _ m' _ Hi). apply mux_step_rank in Hm. lia.
  - pose proof (sum_insert mux_rank _ _ (MkMux LoopReturned IcptExited k SettledExited b q) _ Hi).
    unfold mux_rank, mux_backlog in *; simpl in *. lia.
Qed.

Lemma nsteps_rank n s s' :
  nsteps any_step n s s' → ctx_done s = true → ctx_done s' = true ∧ (n + rank s' ≤ rank s)%nat.
Proof.
  induction 1 as [|n x y z [a Hxy] _ IH]; intros Hc; [split; [done|lia]|].
  destruct (step_rank _ _ _ Hxy Hc) as [Hy ?]. destruct (IH Hy). split; [done|lia].
Qed.

(** ** A mux has returned, can return, can move, or is hung. *)

Lemma mux_progress r m (Hr : r ≠ RegServing) :
  m_loop m = LoopReturned ∨ hung r m ∨
  (∃ e k b q, m = MkMux (Ended e) IcptExited k SettledExited b q) ∨ ∃ m', mux_step true r Own m m'.
Proof.
  destruct m as [p i k st b q]. destruct st as [|f|].
  - do 3 right. eexists. by apply settled_done.
  - do 3 right. eexists. by apply settled_retry_done.
  - destruct p; [do 3 right; eexists; by apply loop_done..| | |by left].
    { destruct r as [|[]]; [done| |by right; left; right].
      do 3 right. eexists. apply loop_notified. by right. }
    right. destruct i as [| | | | |d|f|].
    3: by left; left; eauto.
    7: by right; left; eauto.
    all: do 2 right.
    + eexists. by apply icpt_connect_done.
    + eexists. by apply icpt_first_done.
    + eexists. by apply icpt_loop_done.
    + eexists. by apply icpt_height_done.
    + destruct k; eexists; [apply icpt_drained|by apply recv_cancelled|by apply recv_done].
    + eexists. by apply icpt_retry_done.
Qed.

Lemma progress s (Hc : ctx_done s = true) :
  finished s ∨ (∃ m, m ∈ muxes s ∧ hung (registry s) m) ∨ ∃ s', inner Own s s'.
Proof.
  destruct s as [c r ms v t]; simpl in *; subst c.
  destruct r as [|g]; [do 2 right; eexists; apply step_registry_done|].
  destruct t; [do 2 right; eexists; apply step_stop|].
  destruct v; [do 2 right; eexists; apply step_serve_stopped|].
  enough (Forall (λ m, m_loop m = LoopReturned) ms ∨ (∃ m, m ∈ ms ∧ hung (RegStopped g) m) ∨
    ∃ i m, ms !! i = Some m ∧ ((∃ e k b q, m = MkMux (Ended e) IcptExited k SettledExited b q) ∨
      ∃ m', mux_step true (RegStopped g) Own m m')) as [?|[?|(i & m & Hi & Hm)]].
  { by left; repeat split; eauto. }
  { by right; left. }
  { do 2 right. destruct Hm as [(e & k & b & q & ->)|[m' Hm]]; eexists;
      [by eapply step_mux_returns|by eapply step_mux]. }
  induction ms as [|m ms IH]; [by left; constructor|].
  destruct (mux_progress (RegStopped g) m) as [?|[?|?]]; [done| | |].
  - destruct IH as [?|[(m' & ? & ?)|(i & m' & ? & ?)]]; [left; by constructor| |].
    + right; left. exists m'. split; [by right|done].
    + do 2 right. by exists (S i), m'.
  - right; left. exists m. split; [left|done].
  - do 2 right. by exists 0%nat, m.
Qed.

(** ** A hung mux stays hung. *)

Lemma hung_mux_step c r a m m' : hung r m → mux_step c r a m m' → hung r m'.
Proof.
  intros [[[e He] Hi]|[Hl ->]] Hs; inversion Hs; subst; simpl in *; simplify_eq;
    try (left; by eauto); try (right; done); destruct_or?; simplify_eq.
Qed.

Lemma hung_step a s s' i m :
  step a s s' → muxes s !! i = Some m → hung (registry s) m →
  ∃ m', muxes s' !! i = Some m' ∧ hung (registry s') m'.
Proof.
  intros [? Hs|] Hi Hh; [|by eauto].
  destruct Hs as [| |c r ms v t a j n n' Hj Hn|c r ms v t j e k b q Hj| | |]; simpl in *; try (by eauto).
  - exists m. split; [done|]. destruct Hh as [?|[? ?]]; [by left|done].
  - exists m. split; [done|]. destruct Hh as [?|[? ?]]; [by left|done].
  - destruct (decide (i = j)) as [->|]; [|rewrite list_lookup_insert_ne by done; eauto].
    simplify_eq. exists n'. split; [|by eapply hung_mux_step].
    apply list_lookup_insert_eq. by eapply lookup_lt_Some.
  - destruct (decide (i = j)) as [->|]; [|rewrite list_lookup_insert_ne by done; eauto].
    simplify_eq. destruct Hh as [[_ ?]|[? _]]; done.
Qed.

Lemma hung_forever s s' i m :
  rtc any_step s s' → muxes s !! i = Some m → hung (registry s) m →
  ∃ m', muxes s' !! i = Some m' ∧ hung (registry s') m'.
Proof.
  intros Hs; revert m. induction Hs as [|x y z [a Hxy] _ IH]; intros m Hi Hh; [by eauto|].
  destruct (hung_step _ _ _ _ _ Hxy Hi Hh) as (m' & ? & ?). by eapply IH.
Qed.

Lemma hung_not_finished s i m :
  muxes s !! i = Some m → hung (registry s) m → ¬ finished s.
Proof.
  intros Hi Hh (_ & Hf & _). pose proof (Forall_lookup_1 _ _ _ _ Hf Hi) as Hl. simpl in Hl.
  destruct Hh as [[[b Hb] _]|[? _]]; congruence.
Qed.

(** ** A regular end of the registry, and no interceptor that can get its first height *)

(** No initial height is being sent, and none can be: no block has arrived at an
    interceptor that waits for its first one. *)
Definition no_initial (m : mux) : Prop :=
  m_icpt m ≠ SendingInitial ∧ (m_icpt m = AwaitingBlock → m_blocks m = 0%nat).

Definition clean (s : daemon) : Prop :=
  ctx_done s = true ∧ registry s = RegStopped true ∧ Forall no_initial (muxes s).

Lemma clean_mux_step a r m m' : mux_step true r a m m' → no_initial m → no_initial m'.
Proof.
  unfold no_initial. intros Hs; inversion Hs; subst; simpl in *; try naive_solver.
  destruct d; naive_solver.
Qed.

Lemma clean_step s s' : any_step s s' → clean s → clean s'.
Proof.
  intros [a [? Hs|]] (Hc & Hr & Hf); [|done].
  destruct Hs as [| |c r ms v t a j n n' Hj Hn|c r ms v t j e k b q Hj| | |];
    simpl in *; simplify_eq; repeat split; simpl; try done; try (by apply Forall_insert).
  apply Forall_insert; [done|]. eapply clean_mux_step; [done|].
  exact (Forall_lookup_1 _ _ _ _ Hf Hj).
Qed.

Lemma clean_run n s s' : nsteps any_step n s s' → clean s → clean s'.
Proof. induction 1; eauto using clean_step. Qed.

Lemma clean_not_hung s m : clean s → m ∈ muxes s → ¬ hung (registry s) m.
Proof.
  intros (_ & Hr & Hf) Hm [[_ Hi]|[_ ?]]; [|congruence].
  by destruct (proj1 (Forall_forall _ _) Hf m Hm).
Qed.

(** C17. Once the context of the error group is done, the daemon takes at most 18
    steps per mux and three more, plus six for each block and three for each htlc
    that had arrived and not been read, whatever its goroutines and their
    environment do and in any order. Until then some goroutine can move by
    itself, without waiting for lnd, the database or a client, unless
    [group.Wait] has returned or some mux is hung: its interceptor sends the
    initial height to a loop that has ended, or its loop hands an htlc to a
    registry that failed without closing [quit]. A hung mux keeps [group.Wait]
    from ever returning; and when the registry ended regularly and no interceptor
    was sending its initial height or had its first block waiting, every execution
    that cannot continue by itself has returned from [group.Wait]. *)
Theorem shutdown_terminates (n : nat) (s s' : daemon) (Hc : ctx_done s = true)
    (Hs : nsteps any_step n s s') :
  (n ≤ 18 * length (muxes s) + backlog s + 3)%nat ∧
  (finished s' ∨ (∃ m, m ∈ muxes s' ∧ hung (registry s') m) ∨ ∃ s'', step Own s' s'') ∧
  (∀ m, m ∈ muxes s → hung (registry s) m → ¬ finished s') ∧
  (clean s → finished s' ∨ ∃ s'', step Own s' s'').
Proof.
  destruct (nsteps_rank _ _ _ Hs Hc) as [Hc' Hn]. pose proof (rank_le s).
  assert (Hp : finished s' ∨ (∃ m, m ∈ muxes s' ∧ hung (registry s') m) ∨ ∃ s'', step Own s' s'').
  { destruct (progress s' Hc') as [?|[?|[s'' ?]]]; [by left|by right; left|].
    do 2 right. exists s''. by apply step_inner. }
  repeat split; [lia|done| |].
  - intros m [i Hi]%list_elem_of_lookup_1 Hh.
    destruct (hung_forever s s' i m) as (m' & ? & ?); [apply rtc_nsteps; by exists n|done..|].
    by eapply hung_not_finished.
  - intros Hcl. pose proof (clean_run _ _ _ Hs Hcl).
    destruct Hp as [?|[(m & ? & Hh)|?]]; [by left| |by right].
    exfalso. by eapply clean_not_hung.
Qed.

(** ** Executions *)

Module Witness.

(** A mux at rest, with a block and an htlc that have not been read. *)
Definition idle_mux : mux := MkMux Selecting Looping Receiving Subscribed 1 1.
Definition sent_mux : mux := MkMux (Ended false) SendingInitial RecvOff Subscribed 0 0.

(** A signal while both nodes are connected. *)
Definition cancelled : daemon :=
  MkDaemon true (RegStopped true) [idle_mux; idle_mux] true true.

Lemma shutdown_terminates_witness :
  (1 ≤ 57)%nat ∧ clean cancelled ∧
  (finished (MkDaemon true (RegStopped true) [idle_mux; idle_mux] true false) ∨
   ∃ s, step Own (MkDaemon true (RegStopped true) [idle_mux; idle_mux] true false) s).
Proof.
  assert (clean cancelled) as Hcl by (repeat split; repeat constructor; discriminate).
  destruct (shutdown_terminates 1 cancelled
    (MkDaemon true (RegStopped true) [idle_mux; idle_mux] true false)) as (Hn & _ & _ & Hf).
  - reflexivity.
  - apply nsteps_once. exists Own. apply step_inner, step_stop.
  - split; [exact Hn|]. split; [exact Hcl|exact (Hf Hcl)].
Defined.

(** A step of the only mux. *)
Lemma mux_moves a c r m m' v t s :
  mux_step c r a m m' → rtc any_step (MkDaemon c r [m'] v t) s → rtc any_step (MkDaemon c r [m] v t) s.
Proof.
  intros Hm. apply rtc_l. exists a. apply step_inner. by apply (step_mux c r [m] v t a 0 m m').
Qed.

(** From the start: the first block arrives, then the signal; the loop sees the
    signal, and the interceptor prefers the block to it. *)
Lemma initial_height_hangs :
  ∃ s, rtc any_step (started 1) s ∧ ∃ m, m ∈ muxes s ∧ hung (registry s) m.
Proof.
  exists (MkDaemon true RegServing [sent_mux] true true). split.
  - eapply mux_moves; [by apply icpt_connected|]. eapply mux_moves; [by apply block_arrives|].
    eapply rtc_l; [exists Env; by apply step_cancel|]. eapply mux_moves; [by apply loop_done|].
    eapply mux_moves; [apply icpt_first_block|]. apply rtc_refl.
  - exists sent_mux. split; [left|]. left. split; [by exists false|done].
Qed.

(** From the start: an htlc is handed over while the registry fails. *)
Lemma failed_registry_hangs :
  ∃ s, rtc any_step (started 1) s ∧ ∃ m, m ∈ muxes s ∧ hung (registry s) m.
Proof.
  exists (MkDaemon true (RegStopped false) [MkMux Notifying Looping Receiving Subscribed 0 0] true true).
  split.
  - eapply mux_moves; [by apply icpt_connected|]. eapply mux_moves; [by apply block_arrives|].
    eapply mux_moves; [apply icpt_first_block|]. eapply mux_moves; [by apply loop_initial|].
    eapply mux_moves; [by apply htlc_arrives|]. eapply mux_moves; [apply recv_htlc|].
    eapply mux_moves; [apply loop_notifies|].
    eapply rtc_l; [exists Env; apply step_inner, step_registry_fails|]. apply rtc_refl.
  - eexists. split; [left|]. by right.
Qed.

End Witness.
End Process.

(** ** [initServiceWithLock]

    The outer error group: a goroutine that waits for a signal, the
    instrumentation server, the goroutine that closes it, and the one that takes
    the lock and calls [run]. Cancelling its context cancels the context of
    [run], which is derived from it. *)
Module Service.
Import Process.

Inductive svc :=
  | Locking                (** in [initDistributedLock] *)
  | SettingUp              (** in [run], before its error group *)
  | Running (d : daemon)   (** in [group.Wait] of [run] *)
  | Unlocking              (** in the deferred [releaseLock] *)
  | Returned.

Record group := MkGroup {
  g_done : bool;           (** the context of the group *)
  g_signal : bool;         (** the goroutine that waits for a signal is there *)
  g_http : bool;           (** [ListenAndServe] has not returned *)
  g_closer : bool;         (** [instServer.Close] has not been called *)
  g_svc : svc
}.

Definition cancel_svc (v : svc) : svc :=
  match v with Running d => Running (cancelled d) | _ => v end.

Definition started_with (done : bool) (n : nat) : daemon :=
  if done then cancelled (started n) else started n.

(** [n] nodes; [lock] says whether a distributed lock is configured. *)
Inductive gstep (n : nat) (lock : bool) : cause → group → group → Prop :=
  (** "user requested termination" *)
  | signal_arrives d h c v :
      gstep n lock Env (MkGroup d true h c v) (MkGroup true false h c (cancel_svc v))
  | signal_done h c v :
      gstep n lock Own (MkGroup true true h c v) (MkGroup true false h c v)
  (** [ListenAndServe] returns an error by itself, or because of [Close] *)
  | http_fails d s c v :
      gstep n lock Env (MkGroup d s true c v) (MkGroup true s false c (cancel_svc v))
  | http_returns d s v :
      gstep n lock Own (MkGroup d s true false v) (MkGroup true s false false (cancel_svc v))
  | http_closed s h v :
      gstep n lock Own (MkGroup true s h true v) (MkGroup true s h false v)
  (** the lock: not configured, acquired, failed, or given up with the context *)
  | lock_skipped d s h c : lock = false →
      gstep n lock Own (MkGroup d s h c Locking) (MkGroup d s h c SettingUp)
  | lock_acquired d s h c : lock = true →
      gstep n lock Env (MkGroup d s h c Locking) (MkGroup d s h c SettingUp)
  | lock_fails d s h c : lock = true →
      gstep n lock Env (MkGroup d s h c Locking) (MkGroup true s h c Returned)
  | lock_cancelled s h c : lock = true →
      gstep n lock Own (MkGroup true s h c Locking) (MkGroup true s h c Returned)
  | setup_fails d s h c :
      gstep n lock Env (MkGroup d s h c SettingUp) (MkGroup true s h c Unlocking)
  | run_starts d s h c :
      gstep n lock Own (MkGroup d s h c SettingUp) (MkGroup d s h c (Running (started_with d n)))
  | run_steps d s h c a x x' : inner a x x' →
      gstep n lock a (MkGroup d s h c (Running x)) (MkGroup d s h c (Running x'))
  (** [run] only returns after its context is done: because of [ctx], or with
      the error that cancelled it *)
  | run_returns d s h c x : finished x →
      gstep n lock Own (MkGroup d s h c (Running x)) (MkGroup true s h c Unlocking)
  | unlocked d s h c :
      gstep n lock Own (MkGroup d s h c Unlocking) (MkGroup d s h c Returned).

(** A step of either cause. *)
Definition any_gstep (n : nat) (lock : bool) (g g' : group) : Prop := ∃ a, gstep n lock a g g'.

Definition launched : group := MkGroup false true true true Locking.

(** [group.Wait] of [initServiceWithLock] returns and the process ends. *)
Definition ended (g : group) : Prop :=
  g_signal g = false ∧ g_http g = false ∧ g_closer g = false ∧ g_svc g = Returned.

Definition svc_rank (n : nat) (v : svc) : nat :=
  match v with
  | Locking => 18 * n + 7 | SettingUp => 18 * n + 6 | Running d => 2 + rank d | Unlocking => 1 | Returned => 0
  end.

Definition group_rank (n : nat) (g : group) : nat :=
  Nat.b2n (g_signal g) + Nat.b2n (g_http g) + Nat.b2n (g_closer g) + svc_rank n (g_svc g).

Definition group_backlog (g : group) : nat :=
  match g_svc g with Running d => backlog d | _ => 0 end.

(** The context of [run] is derived and there are [n] muxes. *)
Definition group_ok (n : nat) (g : group) : Prop :=
  match g_svc g with
  | Running d => (g_done g = true → ctx_done d = true) ∧ length (muxes d) = n
  | _ => True
  end.

Lemma inner_muxes a x x' : inner a x x' → length (muxes x') = length (muxes x).
Proof. destruct 1; simpl; rewrite ?length_insert; done. Qed.

Lemma inner_done a x x' : inner a x x' → ctx_done x = true → ctx_done x' = true.
Proof. destruct 1; simpl; intros; subst; done. Qed.

Lemma started_with_ok d n :
  (d = true → ctx_done (started_with d n) = true) ∧ length (muxes (started_with d n)) = n.
Proof. split; [by destruct d|]. destruct d; simpl; by rewrite length_replicate. Qed.

Lemma started_rank n : (rank (started n) ≤ 18 * n + 3)%nat.
Proof.
  pose proof (rank_le (started n)) as Hle. simpl in Hle. rewrite length_replicate in Hle.
  replace (backlog (started n)) with 0%nat in Hle; [lia|]. unfold backlog; simpl.
  clear Hle. induction n as [|n IH]; simpl; [done|]. by rewrite <- IH.
Qed.

Lemma group_step_ok n lock a g g' : gstep n lock a g g' → group_ok n g → group_ok n g'.
Proof.
  unfold group_ok. destruct 1; simpl; try done; try (by destruct v; simpl; naive_solver).
  - intros _. apply started_with_ok.
  - intros [Hd Hl]. split; [|by erewrite inner_muxes]. intros. eapply inner_done; eauto.
Qed.

Lemma cancelled_rank d : rank (cancelled d) = rank d.
Proof. done. Qed.

Lemma group_step_rank n lock a g g' :
  gstep n lock a g g' → group_ok n g → g_done g = true →
  g_done g' = true ∧ (group_rank n g' < group_rank n g)%nat.
Proof.
  unfold group_ok, group_rank. destruct 1; simpl; intros Hok Hdone; try subst d; (split; [done|]);
    try (destruct v; simpl; rewrite ?cancelled_rank; lia); try lia.
  - pose proof (started_rank n). unfold rank in *; simpl in *. lia.
  - destruct Hok as [Hd _]. destruct (step_rank a x x') as [_ ?]; [by apply step_inner|auto|]. lia.
Qed.

Lemma group_run_rank n lock k g g' :
  nsteps (any_gstep n lock) k g g' → group_ok n g → g_done g = true →
  g_done g' = true ∧ group_ok n g' ∧ (k + group_rank n g' ≤ group_rank n g)%nat.
Proof.
  induction 1 as [|k x y z [a Hxy] _ IH]; intros Hok Hd; [split_and!; [done..|lia]|].
  destruct (group_step_rank _ _ _ _ _ Hxy Hok Hd) as [Hd' ?].
  destruct (IH (group_step_ok _ _ _ _ _ Hxy Hok) Hd') as (? & ? & ?). split_and!; [done..|lia].
Qed.

Lemma group_rank_le n g : group_ok n g → (group_rank n g ≤ 18 * n + group_backlog g + 10)%nat.
Proof.
  unfold group_ok, group_rank, group_backlog. destruct g as [d s h c v]; simpl. intros Hok.
  assert (svc_rank n v ≤ 18 * n + group_backlog (MkGroup d s h c v) + 7)%nat;
    [|unfold group_backlog in *; simpl in *; destruct s, h, c; simpl; lia].
  unfold group_backlog; simpl. destruct v as [| |x| |]; simpl; [lia|lia| |lia|lia].
  destruct Hok as [_ Hl]. pose proof (rank_le x). rewrite Hl in *. lia.
Qed.

(** [run] of the state waits for a mux that will never return. *)
Definition blocked (g : group) : Prop :=
  ∃ d m, g_svc g = Running d ∧ m ∈ muxes d ∧ hung (registry d) m.

Lemma group_progress n lock g :
  group_ok n g → g_done g = true → ended g ∨ blocked g ∨ ∃ g', gstep n lock Own g g'.
Proof.
  destruct g as [d s h c v]; simpl. intros Hok ->. unfold group_ok in Hok; simpl in Hok.
  destruct s; [do 2 right; eexists; apply signal_done|].
  destruct c; [do 2 right; eexists; apply http_closed|].
  destruct h; [do 2 right; eexists; apply http_returns|].
  destruct v as [| |x| |].
  - do 2 right. destruct lock; eexists; [by apply lock_cancelled|by apply lock_skipped].
  - do 2 right. eexists. apply run_starts.
  - destruct (progress x) as [Hf|[(m & Hm & Hh)|[x' Hx]]]; [by apply Hok| | |].
    + do 2 right. eexists. by apply run_returns.
    + right; left. by exists x, m.
    + do 2 right. eexists. by apply run_steps.
  - do 2 right. eexists. apply unlocked.
  - left. by repeat split.
Qed.

Lemma launched_ok n lock g : rtc (any_gstep n lock) launched g → group_ok n g.
Proof.
  intros Hr. apply (rtc_ind_r (R := any_gstep n lock) (group_ok n) launched) with (z := g); [done| |done].
  intros y z _ [a Hs]. by eapply group_step_ok.
Qed.

(** C18. The process ends: in every reachable state in which one of the goroutines
    has failed or a signal has arrived, at most 18 steps per node and ten more
    follow, plus six for each block and three for each htlc that had arrived and
    not been read, whatever the goroutines of the service and their environment
    do and in any order; the execution can always go on by itself, without an
    error or a message from outside, until the process has ended with every
    goroutine returned and the lock released, unless a mux is hung, which keeps
    [run] from returning and the lock from being released by it. *)
Theorem service_terminates (n k : nat) (lock : bool) (g g' : group)
    (Hr : rtc (any_gstep n lock) launched g)
    (Hd : g_done g = true) (Hs : nsteps (any_gstep n lock) k g g') :
  (k ≤ 18 * n + group_backlog g + 10)%nat ∧ (ended g' ∨ blocked g' ∨ ∃ g'', gstep n lock Own g' g'').
Proof.
  pose proof (launched_ok n lock g Hr) as Hok.
  destruct (group_run_rank _ _ _ _ _ Hs Hok Hd) as (Hd' & Hok' & Hk).
  pose proof (group_rank_le n g Hok). split; [lia|]. by apply group_progress.
Qed.

Lemma service_terminates_witness :
  (1 ≤ 18 * 2 + 10)%nat ∧
  (ended (MkGroup true false true true (Running (cancelled (started 2)))) ∨
   blocked (MkGroup true false true true (Running (cancelled (started 2)))) ∨
   ∃ g, gstep 2 false Own (MkGroup true false true true (Running (cancelled (started 2)))) g).
Proof.
  apply (service_terminates 2 1 false (MkGroup true false true true SettingUp)).
  - eapply rtc_l; [exists Own; by apply lock_skipped|].
    eapply rtc_l; [exists Env; apply signal_arrives|apply rtc_refl].
  - reflexivity.
  - apply nsteps_once. exists Own. apply (run_starts 2 false true).
Defined.

End Service.
