(* ===== verification/Pipeline.v ===== *)
(** The path of a payment through the daemon: the muxes of the nodes, the
    registry they share, and what lnd is answered.

    A mux hands an htlc to the registry together with a callback; the registry
    calls it, at once or much later, with a resolution, and the callback answers
    lnd. The callbacks are kept in a table, by the number the registry knows them
    by; a number is used once, also across restarts of the process. *)

From stdpp Require Import numbers strings base fin_maps gmap list.
From stdpp Require Import options.
From S2P Require Import Prelude Sha256 Types SetIds HtlcSets StatelessData Persistence PersistenceFacts Registry RegistryFacts RegistryExample RegistrySafety RegistryTyping Interceptor InvoiceCreator Mux.

Set Default Proof Using "Type*".

Module Pipeline.
Import Interceptor Subs Registry PgFacts RegFacts RegSafety RegTyping.

Section Pipeline.
Context {Q : Type} `{PriorityQueue Q} `{!PriorityQueueLaws Q} `{Lntypes} `{!LntypesLaws}.
Context `{Mux.Onion}.
Context (cfg : RegistryConfig) (muxes : list Mux.MuxConfig).

(** A callback that the registry may call: the mux and the htlc it belongs to,
    and what it answers. *)
Record callback := MkCallback {
  cb_mux : nat;
  cb_htlc : interceptedHtlc;
  cb_resolve : HtlcResolution → res interceptedHtlcResponse
}.

(** A call of the reply function of an htlc. *)
Record answer := MkAnswer { a_mux : nat; a_htlc : interceptedHtlc; a_resp : interceptedHtlcResponse }.

Record pipeline := MkPipeline {
  reg : InvoiceRegistry Q;
  callbacks : gmap nat callback;
  next_rid : nat;
  answers : list answer
}.

Definition start_pipeline : pipeline := MkPipeline (start cfg) ∅ 0 [].

(** The callback is called; an error is logged. *)
Definition answer_of (cbs : gmap nat callback) (e : effect) : list answer :=
  match e with
  | Resolved _ r res =>
      match cbs !! r with
      | Some cb =>
          match cb_resolve cb res with
          | Good resp => [MkAnswer (cb_mux cb) (cb_htlc cb) resp]
          | Bad _ => []
          end
      | None => []
      end
  | Notified _ _ _ => []
  end.

(** One turn of the registry, with the calls it makes. *)
Definition turn (sev : sys_event) (s : pipeline) : pipeline :=
  let w' := sys_step cfg (reg s) sev in
  let calls := drop (length (effects (reg s))) (effects w') in
  MkPipeline w' (callbacks s) (next_rid s) (answers s ++ (calls ≫= answer_of (callbacks s))).

Inductive pipe_event :=
  (** mux [j], at a height, takes an htlc; the registry, if it gets it, works in
      [env] and may be killed meanwhile *)
  | PHtlc (j : nat) (height : Z) (htlc : interceptedHtlc) (env : Env) (kill : option (bool * nat))
  (** another event of the registry *)
  | PRegistry (sev : sys_event).

Definition sys_of (kill : option (bool * nat)) (ev : event) : sys_event :=
  match kill with None => SysEvent ev | Some (committed, n) => SysKill committed n ev end.

Definition say (j : nat) (htlc : interceptedHtlc) (r : interceptedHtlcResponse) (s : pipeline) :
    pipeline :=
  MkPipeline (reg s) (callbacks s) (next_rid s) (answers s ++ [MkAnswer j htlc r]).

Definition pipe_step (ev : pipe_event) (s : pipeline) : pipeline :=
  match ev with
  | PHtlc j height htlc env kill =>
      match muxes !! j with
      | None => s
      | Some p =>
          if decide (outgoingChanID htlc ≠ Mux.virtualChannel p) then
            say j htlc (MkResponse RESUME (replicate 32 0) [] 0) s
          else
            match Mux.ProcessHtlc p htlc height (next_rid s) with
            | Mux.MuxReply r => say j htlc r s
            | Mux.MuxNotify h f =>
                turn (sys_of kill (EvHtlc env h))
                  (MkPipeline (reg s) (<[next_rid s := MkCallback j htlc f]> (callbacks s))
                     (S (next_rid s)) (answers s))
            | Mux.MuxError _ => s
            end
      end
  | PRegistry sev => turn sev s
  end.

Definition pipe_run (evs : list pipe_event) : pipeline := foldl (λ s ev, pipe_step ev s) start_pipeline evs.

(** The key under which the registry knows an htlc of a mux. *)
Definition key_of (p : Mux.MuxConfig) (htlc : interceptedHtlc) : HtlcKey :=
  MkHtlcKey (Mux.lnd_PubKey p) (ck_ChanID (i_circuitKey htlc)) (ck_HtlcID (i_circuitKey htlc)).

(** ** Well-formed histories *)

Context (key_hash : HtlcKey → Hash) (inv_amount : Hash → Z).

Definition wf_pipe (ev : pipe_event) : Prop :=
  match ev with
  | PHtlc j height htlc env kill =>
      ∀ p rid h f, muxes !! j = Some p → Mux.ProcessHtlc p htlc height rid = Mux.MuxNotify h f →
        wf_htlc cfg key_hash inv_amount h ∧ typed_htlc (λ _ _, True) h
  | PRegistry sev =>
      match sev with SysEvent ev | SysKill _ _ ev =>
        typed_event (λ _ _, False) ev ∧ wf_event cfg key_hash inv_amount ev end
  end.

(** ** Invariant *)

(** A callback of mux [j], made by [ProcessHtlc]. *)
Definition callback_ok (cb : callback) : Prop :=
  ∃ p ob, muxes !! cb_mux cb = Some p ∧
    outgoingChanID (cb_htlc cb) = Mux.virtualChannel p ∧
    Mux.checkPolicy (Mux.routingPolicy p) (cb_htlc cb) = None ∧
    cb_resolve cb = Mux.resolve (cb_htlc cb) ob ∧
    key_hash (key_of p (cb_htlc cb)) = i_hash (cb_htlc cb).

Definition owner (cbs : gmap nat callback) (k : HtlcKey) (r : nat) : Prop :=
  ∃ cb p, cbs !! r = Some cb ∧ muxes !! cb_mux cb = Some p ∧ k = key_of p (cb_htlc cb).

(** A SETTLE comes from a settle resolution of the registry for that htlc. *)
Definition answer_ok (s : pipeline) (a : answer) : Prop :=
  action (a_resp a) = SETTLE →
  ∃ cb p r x, callback_ok cb ∧ cb_mux cb = a_mux a ∧ cb_htlc cb = a_htlc a ∧
    muxes !! a_mux a = Some p ∧
    Resolved (key_of p (a_htlc a)) r (HtlcSettleResolution (resp_preimage (a_resp a)) x)
      ∈ effects (reg s).

Record pipe_ok (s : pipeline) : Prop := {
  po_reach : ∃ evs, history cfg key_hash inv_amount evs ∧ reg s = run cfg evs (start cfg);
  po_typed : typed (owner (callbacks s)) (reg s);
  po_fresh : map_Forall (λ r _, (r < next_rid s)%nat) (callbacks s);
  po_callbacks : map_Forall (λ _ cb, callback_ok cb) (callbacks s);
  po_answers : Forall (answer_ok s) (answers s)
}.

(** An htlc that is handed over in a state is typed for the callbacks after it. *)
Lemma typed_htlc_owner h (owns : HtlcKey → nat → Prop) :
  typed_htlc (λ _ _, True) h → owns (circuitKey h) (resolve h) → typed_htlc owns h.
Proof. by intros [] ?. Qed.

Lemma typed_event_any (owns : HtlcKey → nat → Prop) ev :
  typed_event (λ _ _, False) ev → typed_event owns ev.
Proof. destruct ev as [|env h| | | | | |]; simpl; try done. by intros []. Qed.

Lemma owner_insert cbs r cb k r' :
  cbs !! r = None → owner cbs k r' → owner (<[r := cb]> cbs) k r'.
Proof.
  intros Hn (cb' & p & Hr & Hp & ->). exists cb', p. split; [|done].
  rewrite lookup_insert_ne; [done|]. intros ->. congruence.
Qed.

Lemma run_snoc evs sev : run cfg (evs ++ [sev]) (start cfg) = sys_step cfg (run cfg evs (start cfg)) sev.
Proof. unfold run. by rewrite foldl_app. Qed.

(** One turn of the registry keeps the invariant. *)
Lemma pipe_ok_turn sev s :
  wf_sys_event cfg key_hash inv_amount sev → typed_sys_event (owner (callbacks s)) sev →
  pipe_ok s → pipe_ok (turn sev s).
Proof.
  intros Hwf Hty [(evs & Hh & Hreg) Htyped Hfresh Hcbs Hans].
  assert (Inv key_hash inv_amount (reg s)) as Hinv.
  { apply (reachable_inv cfg). by exists evs. }
  destruct (sys_step_ok cfg key_hash inv_amount sev (reg s) Hinv Hwf) as [_ _ (new & Ee & _)].
  pose proof (typed_sys_step (owner (callbacks s)) cfg sev (reg s) Hty Htyped) as Htyped'.
  assert (∀ e, e ∈ effects (reg s) → e ∈ effects (sys_step cfg (reg s) sev)) as Hkeep.
  { intros e He. rewrite Ee. apply elem_of_app. by left. }
  split; simpl; [|done..|].
  - exists (evs ++ [sev]). split; [by apply Forall_app; split; [|constructor]|].
    by rewrite run_snoc, Hreg.
  - apply Forall_app. split.
    + eapply Forall_impl; [exact Hans|]. intros a Ha Hs.
      destruct (Ha Hs) as (cb & p & r & x & H3 & H4 & H5 & H6 & H7). exists cb, p, r, x.
      split_and!; [done..|by apply Hkeep].
    + rewrite Ee, drop_app_length. apply Forall_forall. intros a (e & Ha & He)%list_elem_of_bind Hs.
      assert (typed_effect (owner (callbacks s)) e) as Hte.
      { apply (proj1 (Forall_forall _ _) (ty_effects _ _ Htyped') e). rewrite Ee. apply elem_of_app. by right. }
      destruct e as [k r res|]; [|by apply elem_of_nil in Ha]. simpl in Ha.
      destruct (callbacks s !! r) as [cb|] eqn:Hcb; [|by apply elem_of_nil in Ha].
      destruct Hte as (_ & (cb' & p & Hcb' & Hp & ->) & _). simplify_eq.
      pose proof (Hcbs _ _ Hcb) as Hok. pose proof Hok as (p' & ob & Hp' & _ & _ & Hres & _). simplify_eq.
      rewrite Hres in Ha. destruct res as [f|pre x]; simpl in Ha.
      * unfold Mux.failLocal, mbind, result_bind in Ha.
        destruct (Mux.EncryptFirstHop _ _); [|by apply elem_of_nil in Ha].
        by apply list_elem_of_singleton in Ha as ->.
      * apply list_elem_of_singleton in Ha as ->. exists cb, p, r, x. simpl. split_and!; try done.
        rewrite Ee. apply elem_of_app. by right.
Qed.

Lemma fail_not_settle code r : Mux.fail code = Mux.MuxReply r → action r = FAIL.
Proof. unfold Mux.fail. destruct (Mux.marshallFailureCode code); [|done]. by intros [= <-]. Qed.

Lemma failLocal_not_settle ob m r :
  Mux.reply_or_error (Mux.failLocal ob m) = Mux.MuxReply r → action r = FAIL.
Proof.
  unfold Mux.reply_or_error, Mux.failLocal, mbind, result_bind.
  destruct (Mux.EncryptFirstHop ob m); [|done]. by intros [= <-].
Qed.

(** The mux itself never settles. *)
Lemma ProcessHtlc_reply p htlc height rid r :
  Mux.ProcessHtlc p htlc height rid = Mux.MuxReply r → action r = FAIL.
Proof.
  unfold Mux.ProcessHtlc.
  destruct (Mux.checkPolicy _ _); [apply fail_not_settle|].
  destruct (Mux.DecodeHopIterator _ _ _ _); [|apply fail_not_settle].
  destruct (Mux.HopPayload _); [|done].
  destruct (Mux.ExtractErrorEncrypter _); [|apply fail_not_settle].
  case_decide; [apply failLocal_not_settle|]. case_decide; [apply failLocal_not_settle|done].
Qed.

Lemma pipe_ok_say j htlc r s : action r ≠ SETTLE → pipe_ok s → pipe_ok (say j htlc r s).
Proof.
  intros Hr []. split; simpl; [done..|]. apply Forall_app. split; [done|].
  constructor; [|constructor]. by intros Hs.
Qed.

Lemma pipe_ok_step ev s : wf_pipe ev → pipe_ok s → pipe_ok (pipe_step ev s).
Proof.
  intros Hwf Hok. destruct ev as [j height htlc env kill|sev]; simpl.
  - destruct (muxes !! j) as [p|] eqn:Hj; [|done]. case_decide as Hv; [by apply pipe_ok_say|].
    destruct (Mux.ProcessHtlc _ _ _ _) as [r|h f|] eqn:Hp; [| |done].
    { apply pipe_ok_say; [|done]. apply ProcessHtlc_reply in Hp. by rewrite Hp. }
    destruct (Hwf p _ h f Hj Hp) as [Hwh Hth].
    apply Mux.ProcessHtlc_Notify in Hp as (Hc & it & pl & ob & _ & _ & _ & _ & _ & -> & ->).
    destruct Hok as [Hreach Hty Hfresh Hcbs Hans]. simpl in *.
    assert (callbacks s !! next_rid s = None) as Hnone.
    { apply eq_None_not_Some. intros [cb Hcb]. apply Hfresh in Hcb. simpl in Hcb. lia. }
    assert (callback_ok (MkCallback j htlc (Mux.resolve htlc ob))) as Hcb.
    { exists p, ob. simpl. split_and!; try done. by apply (wf_key _ _ _ _ Hwh). }
    apply pipe_ok_turn; simpl.
    + by destruct kill as [[]|].
    + assert (typed_htlc (owner (<[next_rid s := MkCallback j htlc (Mux.resolve htlc ob)]> (callbacks s)))
        (MkRegistryHtlc (i_hash htlc) (outgoingAmountMsat htlc) (outgoingExpiry htlc) (i32 height)
           (MkHtlcKey (Mux.lnd_PubKey p) (ck_ChanID (i_circuitKey htlc)) (ck_HtlcID (i_circuitKey htlc)))
           (Mux.MultiPath pl) (next_rid s))) as Ht.
      { apply typed_htlc_owner; [done|]. simpl. exists (MkCallback j htlc (Mux.resolve htlc ob)), p.
        by rewrite lookup_insert_eq. }
      by destruct kill as [[]|].
    + split; simpl; [done| | | |].
      * eapply typed_mono; [|exact Hty]. intros k r. by apply owner_insert.
      * apply map_Forall_insert_2; [lia|]. eapply map_Forall_impl; [exact Hfresh|].
        intros r cb; simpl; lia.
      * by apply map_Forall_insert_2.
      * done.
  - apply pipe_ok_turn; [..|done]; by destruct sev; destruct Hwf; try apply typed_event_any.
Qed.

Lemma pipe_ok_start : pipe_ok start_pipeline.
Proof.
  split; simpl.
  - exists []. split; [constructor|done].
  - apply (typed_new _ cfg Pg.empty_database []); [|constructor]. split; apply map_Forall_empty.
  - apply map_Forall_empty.
  - apply map_Forall_empty.
  - constructor.
Qed.

Lemma pipe_ok_run evs : Forall wf_pipe evs → pipe_ok (pipe_run evs).
Proof.
  unfold pipe_run. generalize pipe_ok_start. generalize start_pipeline.
  induction evs as [|ev evs IH]; intros s Hs Hevs; [done|].
  apply Forall_cons in Hevs as [Hev Hevs]. simpl. apply IH; [|done]. by apply pipe_ok_step.
Qed.

(** End to end, lnd is told to settle an htlc only for money: in every
    history of the daemon, over all its nodes and with restarts, faults and
    kills, each answer SETTLE goes to an htlc of the virtual channel of that
    node, which passed the fee and cltv checks, carries a preimage of the
    payment hash of that htlc, and at that htlc's key the database holds the
    settle request of an invoice with this preimage whose stored htlcs add up
    to the invoiced amount. *)
Lemma settle_answers_are_paid (evs : list pipe_event) (Hevs : Forall wf_pipe evs) (a : answer)
    (Ha : a ∈ answers (pipe_run evs)) (Hs : action (a_resp a) = SETTLE) :
  let db := cdb (reg (pipe_run evs)) in
  let h := i_hash (a_htlc a) in
  ∃ p row inv, muxes !! a_mux a = Some p ∧
    outgoingChanID (a_htlc a) = Mux.virtualChannel p ∧
    Mux.checkPolicy (Mux.routingPolicy p) (a_htlc a) = None ∧
    PreimageHash (resp_preimage (a_resp a)) = h ∧
    Pg.htlcs db !! key_of p (a_htlc a) = Some row ∧ Pg.h_Hash row = h ∧
    Pg.invoices db !! h = Some inv ∧ Pg.i_Preimage inv = resp_preimage (a_resp a) ∧
    Zsum (map_vals (Pg.htlcs_of h db)) = Pg.i_AmountMsat inv ∧ Pg.i_AmountMsat inv = inv_amount h.
Proof.
  destruct (pipe_ok_run evs Hevs) as [(sevs & Hh & Hreg) _ _ _ Hans].
  apply (proj1 (Forall_forall _ _) Hans a Ha) in Hs as (cb & p & r & x & Hcb & Hm & Hht & Hp & He).
  destruct Hcb as (p' & ob & Hp' & Hv & Hc & _ & Hk). rewrite Hm, Hht in *.
  assert (p' = p) as -> by congruence. rewrite Hreg in He |- *.
  destruct (settle_effect_paid cfg key_hash inv_amount sevs Hh _ _ _ _ He)
    as (row & inv & H3 & H4 & H5 & H6 & H7 & H8 & H9).
  rewrite Hk in *. by exists p, row, inv.
Qed.

End Pipeline.

(** ** Two htlcs of one node complete an invoice *)

Module Witness.
Import RealLntypes ListQueue RegExample.

(** An onion is the amount; the payload names the invoice of the example. *)
#[local] Instance amount_onion : Mux.Onion := {
  Mux.Iterator := Z;
  Mux.Obfuscator := unit;
  Mux.DecodeHopIterator put b h cltv :=
    match put h cltv, b with None, [x] => Good x | _, _ => Bad Mux.CodeInvalidOnionVersion end;
  Mux.HopPayload x := Good (Mux.MkOnionPayload x 1000 (Some (MkMPP 100 addr)));
  Mux.ExtractErrorEncrypter _ := Good tt;
  Mux.EncryptFirstHop _ _ := Good [15]
}.

Definition the_mux : Mux.MuxConfig := Mux.MkMux node (MkRoutingPolicy 40 0 0) 7.

Definition offered (n amt : Z) : interceptedHtlc :=
  MkIntercepted (MkCircuitKey 10 n) hash [amt] amt amt 1040 1000 7.

Lemma offered_wf b muxes c height env kill n amt :
  muxes !! c = Some the_mux → is_u64 n → 0 ≤ amt < 2 ^ 63 →
  wf_pipe (deployment b) muxes key_hash inv_amount (PHtlc c height (offered n amt) env kill).
Proof.
  intros Hc Hn Ha p rid h f Hm Hp. rewrite Hc in Hm. injection Hm as <-.
  apply Mux.ProcessHtlc_Notify in Hp as (_ & it & pl & ob & [= <-] & [= <-] & _ & _ & _ & -> & _).
  split; [by destruct (wf_example b n amt rid Ha); split|].
  destruct (RegTyping.Witness.htlc_typed (λ _ _, True) n amt rid) as [T1 T2 T3 T4 T5];
    [done|unfold is_u64; lia|done|]. by split.
Qed.

End Witness.
End Pipeline.
