(* ===== verification/PipelineAnswers.v ===== *)
(** What lnd is answered, end to end: never more than it asked, and a settle
    request of the application reaches lnd for every htlc of the set. The
    accounts of the registry ([RegistryResolvers.v]) are carried over to the
    answers of the muxes. *)

From stdpp Require Import numbers strings base fin_maps gmap list.
From stdpp Require Import options.
From S2P Require Import Prelude Sha256 Types SetIds HtlcSets StatelessData Persistence PersistenceFacts Registry RegistryFacts RegistrySafety RegistryTyping RegistryLiveness RegistryResolvers Interceptor InvoiceCreator Mux Pipeline.

Set Default Proof Using "Type*".

Module PipeAnswers.
Import Interceptor Subs Registry PgFacts RegFacts RegSafety RegTyping RegResolvers Pipeline.

Section Answers.
Context {Q : Type} `{PriorityQueue Q} `{!PriorityQueueLaws Q} `{Lntypes} `{!LntypesLaws}.
Context `{Mux.Onion}.
Context (cfg : RegistryConfig) (muxes : list Mux.MuxConfig).
Context (key_hash : HtlcKey → Hash) (inv_amount : Hash → Z).
Implicit Types (s : pipeline (Q := Q)).

(** The htlcs lnd asked about, with the mux of the node. *)
Definition asked (evs : list pipe_event) : list (nat * interceptedHtlc) :=
  omap (λ ev, match ev with PHtlc j _ htlc _ _ => Some (j, htlc) | PRegistry _ => None end) evs.

Definition answered_htlc (a : answer) : nat * interceptedHtlc := (a_mux a, a_htlc a).

(** The htlc of a resolver. *)
Definition htlc_of (cbs : gmap nat callback) (kr : HtlcKey * nat) : option (nat * interceptedHtlc) :=
  cb ← cbs !! kr.2; Some (cb_mux cb, cb_htlc cb).

(** The htlcs the registry holds. *)
Definition outstanding s : list (nat * interceptedHtlc) := omap (htlc_of (callbacks s)) (waiting (reg s)).

Lemma answers_of_calls cbs es :
  answered_htlc <$> (es ≫= answer_of cbs) ⊆+ omap (htlc_of cbs) (called es).
Proof.
  induction es as [|e es IH]; [done|]. rewrite bind_cons, fmap_app. destruct e as [k r res|]; [|done].
  simpl. unfold htlc_of at 1; simpl. destruct (cbs !! r) as [cb|]; simpl; [|done].
  destruct (cb_resolve cb res); simpl; [by apply submseteq_skip|by apply submseteq_cons].
Qed.

(** A turn of the registry answers what waited or has been handed in. *)
Lemma turn_accounts sev s :
  (answered_htlc <$> answers (turn cfg sev s)) ++ outstanding (turn cfg sev s) ⊆+
  omap (htlc_of (callbacks s)) (sys_handed sev) ++ (answered_htlc <$> answers s) ++ outstanding s.
Proof.
  destruct (sys_step_spends cfg sev (reg s)) as (new & Ee & Hp).
  unfold turn, outstanding; simpl. rewrite Ee, drop_app_length, fmap_app, <- app_assoc.
  rewrite (Permutation_app_swap_app (omap _ _)). apply submseteq_skips_l.
  apply (submseteq_omap (htlc_of (callbacks s))) in Hp. rewrite !omap_app in Hp.
  etrans; [|exact Hp]. rewrite Permutation_app_comm. apply submseteq_skips_l, answers_of_calls.
Qed.

(** A new callback does not change whose htlcs are held. *)
Lemma outstanding_insert w cbs r cb :
  typed (owner muxes cbs) w → cbs !! r = None →
  omap (htlc_of (<[r := cb]> cbs)) (waiting (Q := Q) w) = omap (htlc_of cbs) (waiting w).
Proof.
  intros Hty Hr. apply list_omap_ext, Forall2_same_length_lookup_2; [done|].
  intros i [k r'] kr' Hi Hi'. simplify_eq. unfold htlc_of; simpl. rewrite lookup_insert_ne; [done|].
  intros <-. apply list_elem_of_lookup_2, elem_of_held_in in Hi as (l & Hl & Hin).
  apply (ty_hodl _ _ Hty) in Hl as [_ Hl]. apply (proj1 (Forall_forall _ _) Hl) in Hin as (? & ? & ? & _).
  congruence.
Qed.

Lemma step_accounts ev s :
  wf_pipe cfg muxes key_hash inv_amount ev → pipe_ok cfg muxes key_hash inv_amount s →
  (answered_htlc <$> answers (pipe_step cfg muxes ev s)) ++ outstanding (pipe_step cfg muxes ev s) ⊆+
  asked [ev] ++ (answered_htlc <$> answers s) ++ outstanding s.
Proof.
  intros Hwf Hok. destruct ev as [j height htlc env kill|sev]; simpl.
  - assert (Hsay : ∀ r, (answered_htlc <$> answers (say j htlc r s)) ++ outstanding (say j htlc r s) ⊆+
      (j, htlc) :: (answered_htlc <$> answers s) ++ outstanding s).
    { intros r. simpl. rewrite fmap_app. simpl. rewrite <- app_assoc. simpl.
      by rewrite <- Permutation_middle. }
    destruct (muxes !! j) as [p|] eqn:Hj; [|by apply submseteq_cons]. case_decide; [apply Hsay|].
    destruct (Mux.ProcessHtlc _ _ _ _) as [r|h f|] eqn:Hp; [apply Hsay| |by apply submseteq_cons].
    etrans; [apply turn_accounts|]. simpl. unfold outstanding at 1; simpl.
    pose proof Hok as [_ Hty Hfresh _ _].
    assert (Hnone : callbacks s !! next_rid s = None).
    { apply eq_None_not_Some. intros [cb Hcb]. apply Hfresh in Hcb. simpl in Hcb. lia. }
    rewrite outstanding_insert by done.
    apply Mux.ProcessHtlc_Notify in Hp as (_ & it & pl & ob & _ & _ & _ & _ & _ & -> & _).
    assert (Hh : ∀ h0, sys_handed (sys_of kill (EvHtlc env h0)) = [(circuitKey h0, resolve h0)])
      by by destruct kill as [[]|].
    rewrite Hh. simpl. unfold htlc_of at 1; simpl. rewrite lookup_insert_eq. simpl. done.
  - etrans; [apply turn_accounts|]. simpl.
    replace (sys_handed sev) with (@nil (HtlcKey * nat)); [done|].
    destruct sev as [ev|c n ev], Hwf as [Hty _]; destruct ev; try done; by destruct Hty.
Qed.

(** lnd is never answered more than it asked: in every history of the
    daemon, counting repetitions, the htlcs that have been answered and those
    the registry still holds are among the htlcs lnd has offered; so an htlc
    that was offered once is answered at most once and, once answered, is no
    longer held. *)
Lemma answers_match_offers (evs : list pipe_event)
  (Hevs : Forall (wf_pipe cfg muxes key_hash inv_amount) evs) :
  (answered_htlc <$> answers (pipe_run (Q := Q) cfg muxes evs)) ++ outstanding (pipe_run cfg muxes evs) ⊆+
  asked evs.
Proof.
  revert Hevs.
  induction evs as [|ev evs IH] using rev_ind; intros Hevs.
  - done.
  - apply Forall_app in Hevs as [Hevs [Hev _]%Forall_cons].
    unfold pipe_run. rewrite foldl_app. simpl. fold (pipe_run (Q := Q) cfg muxes evs).
    etrans; [apply step_accounts; [done|by apply pipe_ok_run]|].
    unfold asked. rewrite omap_app. fold (asked evs) (asked [ev]).
    rewrite Permutation_app_comm. by apply submseteq_skips_r, IH.
Qed.

(** A resolver that waits belongs to a callback of a mux. *)
Lemma waiting_callback s k l r :
  pipe_ok cfg muxes key_hash inv_amount s → hodlSubscriptions (reg s) !! k = Some l → r ∈ l →
  ∃ cb p ob, callbacks s !! r = Some cb ∧ muxes !! cb_mux cb = Some p ∧ key_of p (cb_htlc cb) = k ∧
    cb_resolve cb = Mux.resolve (cb_htlc cb) ob.
Proof.
  intros [_ Hty _ Hcbs _] Hl Hin. apply (ty_hodl _ _ Hty) in Hl as [_ Hl].
  apply (proj1 (Forall_forall _ _) Hl) in Hin as (cb & p & Hcb & Hp & ->).
  apply Hcbs in Hcb as Hok. destruct Hok as (p' & ob & Hp' & _ & _ & Hres & _). by exists cb, p, ob.
Qed.

(** The calls of a turn are answered. *)
Lemma turn_answers sev s new k r res cb resp :
  effects (sys_step cfg (reg s) sev) = effects (reg s) ++ new → Resolved k r res ∈ new →
  callbacks s !! r = Some cb → cb_resolve cb res = Good resp →
  MkAnswer (cb_mux cb) (cb_htlc cb) resp ∈ answers (turn cfg sev s).
Proof.
  intros Ee Hin Hcb Hresp. simpl. rewrite Ee, drop_app_length, elem_of_app. right.
  apply list_elem_of_bind. exists (Resolved k r res). split; [|done]. simpl. rewrite Hcb, Hresp. by left.
Qed.

(** A settle request of the application reaches lnd: when it names a
    complete set of positive amounts and the database works, the invoice is
    stored with its htlcs, the set leaves the registry, and for every htlc of
    the set lnd gets SETTLE with the preimage of the invoice, from every mux
    callback that waits for it, of which there is at least one. *)
Lemma settle_reaches_lnd (evs : list pipe_event)
  (Hevs : Forall (wf_pipe cfg muxes key_hash inv_amount) evs) (s : pipeline)
  (Hs : s = pipe_run cfg muxes evs) (Ha : AutoSettle cfg = false)
  (env : Env) (Henv : db_RequestSettle env = None) (h : Hash) (x : Sets.htlcSetImpl) (id : SetID)
  (Hx : sets (reg s) !! h = Some x) (Hid : Sets.isComplete x = Some id) (Hpos : 0 < inv_amount h)
  (Hamts : map_Forall (λ _ a, 0 < a) (Sets.htlcs x)) :
  let s' := pipe_step cfg muxes (PRegistry (SysEvent (EvSettle env h id))) s in
  let p := Sets.preimage (Sets.params x) in
  sets (reg s') = delete h (sets (reg s)) ∧ Pg.htlcs_of h (cdb (reg s')) = Sets.htlcs x ∧
  ∀ k, is_Some (Sets.htlcs x !! k) →
    settled_in key_hash (cdb (reg s')) k p ∧
    ∃ l, hodlSubscriptions (reg s) !! k = Some l ∧ l ≠ [] ∧
      ∀ r, r ∈ l → ∃ cb m, callbacks s !! r = Some cb ∧ muxes !! cb_mux cb = Some m ∧
        key_of m (cb_htlc cb) = k ∧
        MkAnswer (cb_mux cb) (cb_htlc cb) (MkResponse SETTLE p [] 0) ∈ answers s'.
Proof.
  pose proof (pipe_ok_run (Q := Q) cfg muxes key_hash inv_amount evs Hevs) as Hok. rewrite <- Hs in Hok.
  pose proof Hok as [(sevs & Hh & Hreg) Hty _ _ _].
  assert (Hr : reachable cfg key_hash inv_amount (reg s)) by by exists sevs.
  destruct (ty_sets _ _ Hty _ _ Hx) as [_ Hts].
  destruct (settle_complete_set cfg key_hash inv_amount (reg s) Hr Ha env Henv h x id Hx Hid)
    as (w' & Hset & Es & Erd & Hdb & _ & new & Ee & Hres).
  { apply (ts_preimage _ Hts). }
  { done. }
  { intros k a Hk. split; [by apply (ts_htlcs _ Hts) in Hk as [[] _]|by apply Hamts in Hk]. }
  assert (Hstep : sys_step cfg (reg s) (SysEvent (EvSettle env h id)) = w')
    by (simpl; by rewrite Hset).
  apply reachable_inv in Hr as Hi.
  intros s' p.
  assert (Ereg : reg s' = w') by exact Hstep. rewrite Ereg. split_and!; [done|done|].
  intros k Hk. split; [by apply Hdb|].
  destruct (proj2 (co_hodl _ _ _ (proj1 Hi) k)) as [l Hl].
  { exists x. split; [|done]. destruct Hk as [a Hk].
    by apply (so_keys _ _ _ _ (co_set _ _ _ (proj1 Hi) _ _ Hx)) in Hk as [-> _]. }
  exists l. split_and!; [done|by apply (co_hodl_ne _ _ _ (proj1 Hi) k)|]. intros r Hin.
  destruct (waiting_callback s k l r Hok Hl Hin) as (cb & m & ob & Hcb & Hm & Hkey & Hcr).
  exists cb, m. split_and!; try done.
  eapply turn_answers; [by rewrite Hstep|by eapply Hres|done|by rewrite Hcr].
Qed.

(** ** Release by the timers *)

Definition tick_event (env : Env) : pipe_event := PRegistry (SysEvent (EvTick env)).

(** [n] release ticks of the registry, with their answers. *)
Definition pipe_ticks (env : Env) (n : nat) s : pipeline :=
  foldl (λ s ev, pipe_step cfg muxes ev s) s (replicate n (tick_event env)).

Lemma iteration_tick env w w' st :
  iteration (Q := Q) cfg (EvTick env) w = Ok (w', st) → st = Continue None.
Proof.
  simpl. destruct (releaseDue _ w) as [[[] q']|]; [| |by intros [= _ <-]].
  - destruct (cancelSingleHtlc _ _ _ _); simpl; [|done]. by intros [= _ <-].
  - destruct (failInvoice _ _); simpl; [|done]. by intros [= _ <-].
Qed.

Lemma pipe_ticks_ok env n s w' :
  pipe_ok cfg muxes key_hash inv_amount s → RegLive.ticks cfg env n (reg s) = Ok w' →
  reg (pipe_ticks env n s) = w' ∧ callbacks (pipe_ticks env n s) = callbacks s ∧
  ∃ new, effects w' = effects (reg s) ++ new ∧
    answers (pipe_ticks env n s) = answers s ++ (new ≫= answer_of (callbacks s)).
Proof.
  revert s. induction n as [|n IH]; intros s Hok; cbn [RegLive.ticks].
  { intros [= <-]. split_and!; try done. exists []. by rewrite !app_nil_r. }
  destruct (iteration cfg (EvTick env) (reg s)) as [[w1 st]|] eqn:Hit; [|done].
  pose proof (iteration_tick _ _ _ _ Hit) as ->. intros Ht.
  assert (Hw1 : reg (turn cfg (SysEvent (EvTick env)) s) = w1) by by unfold turn, sys_step; rewrite Hit.
  rewrite <- Hw1 in Ht.
  assert (Hok1 : pipe_ok cfg muxes key_hash inv_amount (turn cfg (SysEvent (EvTick env)) s)).
  { by apply (pipe_ok_step cfg muxes key_hash inv_amount (tick_event env)). }
  destruct (IH _ Hok1 Ht) as (Er & Ec & new & Ee & Ea).
  assert (Hi : Inv key_hash inv_amount (reg s)).
  { apply (reachable_inv cfg). apply Hok. }
  destruct (sys_step_ok cfg key_hash inv_amount (SysEvent (EvTick env)) (reg s) Hi I) as [_ _ (n1 & E1 & _)].
  split_and!; [done|done|]. exists (n1 ++ new).
  change (effects (reg (turn cfg (SysEvent (EvTick env)) s)))
    with (effects (sys_step cfg (reg s) (SysEvent (EvTick env)))) in Ee.
  rewrite Ee, E1, <- app_assoc. split; [done|].
  unfold pipe_ticks in Ea |- *. simpl. rewrite Ea. cbn [answers turn callbacks].
  by rewrite E1, drop_app_length, bind_app, app_assoc.
Qed.

(** Nothing is held forever, end to end: when the clock has passed the
    queued release times, as many release ticks as the heap has events leave
    no htlc with the registry, and for each one it held lnd is answered FAIL,
    if the failure can be encrypted at all; or the process ends meanwhile with
    the panic of a stale release event. *)
Lemma timers_reach_lnd (evs : list pipe_event)
  (Hevs : Forall (wf_pipe cfg muxes key_hash inv_amount) evs) (s : pipeline)
  (Hs : s = pipe_run cfg muxes evs) (env : Env)
  (Hdue : Forall (λ e, getReleaseTime e ≤ t_tick env) (pq_items (autoReleaseHeap (reg s)))) :
  let n := pq_Len (autoReleaseHeap (reg s)) in
  match RegLive.ticks cfg env n (reg s) with
  | Ok _ =>
      let s' := pipe_ticks env n s in
      outstanding s' = [] ∧ sets (reg s') = ∅ ∧
      ∀ k l r, hodlSubscriptions (reg s) !! k = Some l → r ∈ l →
        ∃ cb m ob f, callbacks s !! r = Some cb ∧ muxes !! cb_mux cb = Some m ∧
          key_of m (cb_htlc cb) = k ∧
          match Mux.resolve (cb_htlc cb) ob (HtlcFailResolution f) with
          | Good resp => action resp = FAIL ∧ MkAnswer (cb_mux cb) (cb_htlc cb) resp ∈ answers s'
          | Bad _ => True
          end
  | Panic _ => ∃ m w1, (m < n)%nat ∧ RegLive.ticks cfg env m (reg s) = Ok w1 ∧
      stale_release (EvTick env) w1
  end.
Proof.
  pose proof (pipe_ok_run (Q := Q) cfg muxes key_hash inv_amount evs Hevs) as Hok. rewrite <- Hs in Hok.
  assert (Hr : reachable cfg key_hash inv_amount (reg s)) by apply Hok. intros n.
  pose proof (RegLive.timers_release_all cfg key_hash inv_amount (reg s) Hr env Hdue) as Hall. fold n in Hall.
  destruct (RegLive.ticks cfg env n (reg s)) as [w'|msg] eqn:Ht; [|done].
  destruct Hall as (Hsets & Hhodl & new & Ee & Hnew).
  destruct (pipe_ticks_ok env n s w' Hok Ht) as (Er & Ec & new' & Ee' & Ea).
  rewrite Ee in Ee'. apply app_inv_head in Ee' as <-. intros s'.
  split_and!; [|by unfold s'; rewrite Er|].
  { unfold outstanding, waiting, s'. by rewrite Er, Hhodl. }
  intros k l r Hl Hin. destruct (Hnew k l r Hl Hin) as [f Hf].
  destruct (waiting_callback s k l r Hok Hl Hin) as (cb & m & ob & Hcb & Hm & Hkey & Hcr).
  exists cb, m, ob, f. split_and!; try done.
  destruct (Mux.resolve (cb_htlc cb) ob (HtlcFailResolution f)) as [resp|] eqn:Hresp; [|done]. split.
  - revert Hresp. unfold Mux.resolve, Mux.failLocal, mbind, result_bind.
    destruct (Mux.EncryptFirstHop _ _); [|done]. by intros [= <-].
  - unfold s'. rewrite Ea, elem_of_app. right. apply list_elem_of_bind. eexists. split; [|exact Hf].
    simpl. rewrite Hcb, Hcr, Hresp. by left.
Qed.

End Answers.

End PipeAnswers.
