(* ===== verification/Wire.v ===== *)
(** The daemon on the wire: the connections of the interceptors to lnd
    ([interceptor.go]), the muxes behind them and the registry, from the htlcs
    lnd forwards to the responses it receives.

    Connections are numbered in the order in which they are made, and the mux of
    a connection is that of its node: [muxes] lists the configurations by
    connection. A reply is a call of the callback that came with an htlc; it goes
    to the connection the htlc came from, also when that one is down. The calls
    that the mux and the registry have made or are about to make are [pending],
    and may take effect in any order, since they run in several goroutines. *)

From stdpp Require Import numbers strings base fin_maps gmap list.
From stdpp Require Import options.
From S2P Require Import Prelude Sha256 Types SetIds HtlcSets StatelessData Persistence PersistenceFacts Registry RegistryFacts RegistryExample RegistrySafety RegistryTyping RegistryLiveness RegistryResolvers Interceptor InvoiceCreator Mux Pipeline PipelineAnswers.

Set Default Proof Using "Type*".

Module Wire.
Import Interceptor Subs Registry PgFacts RegFacts RegSafety RegTyping RegResolvers Pipeline PipeAnswers.

Section Wire.
Context {Q : Type} `{PriorityQueue Q} `{!PriorityQueueLaws Q} `{Lntypes} `{!LntypesLaws}.
Context `{Mux.Onion}.
Context (cfg : RegistryConfig) (muxes : list Mux.MuxConfig).

(** A connection, with the number of its htlcs the mux has taken; [l_up] until
    [start] has returned. *)
Record link := MkLink { l_conn : conn; l_up : bool; l_taken : nat }.

Record wire := MkWire {
  pipe : pipeline (Q := Q);
  links : gmap nat link;
  pending : list answer
}.

Definition start_wire : wire := MkWire (start_pipeline cfg) ∅ [].

Inductive wire_event :=
  | WConnect (c : nat) (height gauge : Z)    (** [start] has got its first height *)
  | WConn (c : nat) (ev : conn_event)        (** a turn of the loops of [start] *)
  | WMux (c : nat) (height : Z) (env : Env) (kill : option (bool * nat))
  | WRegistry (sev : sys_event)
  | WReply (i : nat).                        (** a pending call takes effect *)

Definition is_reply (ev : conn_event) : bool := match ev with CReply _ _ => true | _ => false end.

Definition set_link (c : nat) (l : link) (s : wire) : wire :=
  MkWire (pipe s) (<[c := l]> (links s)) (pending s).

(** The pipeline works; its answers become pending calls. *)
Definition work (ev : pipe_event) (s : wire) : wire :=
  let p := pipe_step cfg muxes ev (pipe s) in
  MkWire p (links s) (pending s ++ drop (length (answers (pipe s))) (answers p)).

Definition wire_step (ev : wire_event) (s : wire) : option wire :=
  match ev with
  | WConnect c height gauge =>
      match links s !! c with
      | None => Some (set_link c (MkLink (MkConn new_replyChan None true [] [height] [] (gauge - 1)) true 0) s)
      | Some _ => None
      end
  | WConn c ev =>
      l ← links s !! c;
      if is_reply ev || negb (l_up l) then None
      else
        match conn_step ev (l_conn l) with
        | Ok (Some (k, Running _)) => Some (set_link c (MkLink k true (l_taken l)) s)
        | Ok (Some (k, Returned _)) => Some (set_link c (MkLink k false (l_taken l)) s)
        | _ => None
        end
  | WMux c height env kill =>
      l ← links s !! c;
      htlc ← to_mux (l_conn l) !! l_taken l;
      Some (set_link c (MkLink (l_conn l) (l_up l) (S (l_taken l)))
              (work (PHtlc c height htlc env kill) s))
  | WRegistry sev => Some (work (PRegistry sev) s)
  | WReply i =>
      a ← pending s !! i;
      l ← links s !! a_mux a;
      match Interceptor.reply (a_htlc a) (a_resp a) (chan (l_conn l)) with
      | Ok (x, _) =>
          Some (MkWire (pipe s) (<[a_mux a := MkLink (set_chan x (l_conn l)) (l_up l) (l_taken l)]> (links s))
                  (delete i (pending s)))
      | Panic _ => None
      end
  end.

Fixpoint wire_run (evs : list wire_event) (s : wire) : option wire :=
  match evs with
  | [] => Some s
  | ev :: evs' => s' ← wire_step ev s; wire_run evs' s'
  end.

(** ** Well-formed histories *)

Context (key_hash : HtlcKey → Hash) (inv_amount : Hash → Z).

(** What lnd can forward on connection [c]; see [wf_htlc]. *)
Definition wf_intercepted (c : nat) (htlc : interceptedHtlc) : Prop :=
  ∀ height env kill, wf_pipe cfg muxes key_hash inv_amount (PHtlc c height htlc env kill).

Definition wf_wire (ev : wire_event) : Prop :=
  match ev with
  | WConn c (CReceive (Good req)) => ∀ htlc, receive req = Good htlc → wf_intercepted c htlc
  | WRegistry sev => wf_pipe cfg muxes key_hash inv_amount (PRegistry sev)
  | _ => True
  end.

(** ** The invariant *)

(** The response an answer becomes. *)
Definition answer_rpc (a : answer) : InterceptResponse :=
  rpcResp (MkQueuedReply (i_circuitKey (a_htlc a)) (i_hash (a_htlc a)) (a_resp a)).

Definition on (c : nat) (l : list answer) : list InterceptResponse :=
  omap (λ a, if decide (a_mux a = c) then Some (answer_rpc a) else None) l.

(** The htlcs of connection [c]. *)
Definition of_conn (c : nat) (l : list (nat * interceptedHtlc)) : list interceptedHtlc :=
  omap (λ ch, if decide (ch.1 = c) then Some ch.2 else None) l.

(** Those the mux has taken. *)
Definition asked_on (c : nat) (evs : list pipe_event) : list interceptedHtlc := of_conn c (asked evs).

(** Received on the connection and taken by its mux. *)
Definition taken (o : option link) : list interceptedHtlc :=
  match o with Some l => take (l_taken l) (to_mux (l_conn l)) | None => [] end.

(** Sent to lnd or queued for it. *)
Definition out (k : conn) : list InterceptResponse := sent k ++ (rpcResp <$> buf (chan k)).

Definition outgoing (o : option link) : list InterceptResponse :=
  match o with Some l => out (l_conn l) | None => [] end.

Record link_ok (c : nat) (l : link) : Prop := {
  lo_chan : chan_ok (chan (l_conn l));
  lo_taken : (l_taken l ≤ length (to_mux (l_conn l)))%nat;
  lo_wf : Forall (wf_intercepted c) (to_mux (l_conn l))
}.

Record wire_ok (s : wire) : Prop := {
  wo_pipe : ∃ evs, Forall (wf_pipe cfg muxes key_hash inv_amount) evs ∧ pipe s = pipe_run cfg muxes evs ∧
    ∀ c, asked_on c evs = taken (links s !! c);
  wo_links c l : links s !! c = Some l → link_ok c l;
  wo_answers c : outgoing (links s !! c) ++ on c (pending s) ⊆+ on c (answers (pipe s))
}.

(** *** Facts *)

Lemma on_app c l l' : on c (l ++ l') = on c l ++ on c l'.
Proof. apply omap_app. Qed.

#[local] Instance on_proper c : Proper ((≡ₚ) ==> (≡ₚ)) (on c).
Proof. intros l l' Hl. unfold on. by rewrite Hl. Qed.

Lemma pipe_step_answers ev (p : pipeline) : ∃ new, answers (pipe_step cfg muxes ev p) = answers p ++ new.
Proof.
  destruct ev as [j height htlc env kill|sev]; simpl; [|by eexists].
  destruct (muxes !! j) as [m|]; [|exists []; by rewrite app_nil_r]. case_decide; [by eexists|].
  destruct (Mux.ProcessHtlc _ _ _ _); [by eexists..|exists []; by rewrite app_nil_r].
Qed.

Lemma asked_on_snoc c evs ev :
  asked_on c (evs ++ [ev]) = asked_on c evs ++ asked_on c [ev].
Proof. unfold asked_on, of_conn, asked. by rewrite !omap_app. Qed.

(** A turn of the loops of a connection, replies aside: the queue empties into the
    stream, and received htlcs are handed on. *)
Lemma conn_step_frame ev k k' st :
  is_reply ev = false → chan_ok (chan k) → conn_step ev k = Ok (Some (k', st)) →
  chan_ok (chan k') ∧ out k' ⊆+ out k ∧
  ∃ more, to_mux k' = to_mux k ++ more ∧
    ∀ htlc, htlc ∈ more → ∃ req, ev = CReceive (Good req) ∧ receive req = Good htlc.
Proof.
  intros Hev Hok.
  assert (Hsame : ∀ k1, chan k1 = chan k → sent k1 = sent k → to_mux k1 = to_mux k →
    chan_ok (chan k1) ∧ out k1 ⊆+ out k ∧ ∃ more, to_mux k1 = to_mux k ++ more ∧
      ∀ htlc, htlc ∈ more → ∃ req, ev = CReceive (Good req) ∧ receive req = Good htlc).
  { intros k1 E1 E2 E3. unfold out. rewrite E1, E2, E3. split_and!; [done|done|].
    exists []. rewrite app_nil_r. split; [done|]. by intros ? []%elem_of_nil. }
  destruct ev as [r|htlc r| |h|send|err|]; simpl; [|done|..].
  - destruct (receiving k); [|done]. destruct r as [req|err]; [|intros [= <- _]; by apply Hsame].
    destruct (receive req) as [htlc|err] eqn:Hr; intros [= <- _]; [|by apply Hsame].
    unfold out; simpl. split_and!; [done|done|]. eexists. split; [done|].
    intros x ->%list_elem_of_singleton. eauto.
  - destruct (errChan k); [|done]. intros [= <- _]. by apply Hsame.
  - intros [= <- _]. by apply Hsame.
  - destruct (take_reply (chan k)) as [[[item|] x]|] eqn:Ht; [|intros [= <- _]; by apply Hsame|done].
    apply take_reply_ok in Ht as [Hx Hb]; [|done]. simpl in Hb.
    destruct send as [err|]; intros [= <- _]; unfold out; simpl; rewrite Hb;
      (split_and!; [done| |exists []; rewrite app_nil_r; split; [done|by intros ? []%elem_of_nil]]).
    + rewrite fmap_cons. apply submseteq_skips_l. by apply submseteq_cons.
    + by rewrite fmap_cons, <- app_assoc.
  - intros [= <- _]. by apply Hsame.
  - intros [= <- _]. by apply Hsame.
Qed.

(** The pipeline works on an event. *)
Lemma work_answers ev s c :
  outgoing (links s !! c) ++ on c (pending s) ⊆+ on c (answers (pipe s)) →
  outgoing (links s !! c) ++ on c (pending (work ev s)) ⊆+ on c (answers (pipe (work ev s))).
Proof.
  intros Hc. unfold work; simpl. destruct (pipe_step_answers ev (pipe s)) as [new ->].
  rewrite drop_app_length, !on_app, app_assoc. by apply submseteq_skips_r.
Qed.

Lemma wire_ok_connect c height gauge s s' :
  wire_ok s → wire_step (WConnect c height gauge) s = Some s' → wire_ok s'.
Proof.
  intros [(evs & Hevs & Hp & Ha) Hl Hans]. simpl. destruct (links s !! c) eqn:Hc; [done|].
  intros [= <-]. split; simpl.
  - exists evs. split_and!; [done|done|]. intros c'. destruct (decide (c' = c)) as [->|].
    + by rewrite lookup_insert_eq, Ha, Hc.
    + by rewrite lookup_insert_ne.
  - intros c' l. rewrite lookup_insert_Some. intros [[<- <-]|[_ ?]]; [|by apply Hl].
    split; simpl; [split; simpl; [done|lia]|lia|constructor].
  - intros c'. specialize (Hans c'). destruct (decide (c' = c)) as [->|].
    + rewrite lookup_insert_eq. by rewrite Hc in Hans.
    + by rewrite lookup_insert_ne.
Qed.

(** A connection moves on its own. *)
Lemma wire_ok_set_link c l k up s :
  wire_ok s → links s !! c = Some l → chan_ok (chan k) → out k ⊆+ out (l_conn l) →
  (∃ more, to_mux k = to_mux (l_conn l) ++ more ∧ Forall (wf_intercepted c) more) →
  wire_ok (set_link c (MkLink k up (l_taken l)) s).
Proof.
  intros [(evs & Hevs & Hp & Ha) Hl Hans] Hc Hk Hout (more & Em & Hmore).
  destruct (Hl _ _ Hc) as [_ Ht Hwf]. split; simpl.
  - exists evs. split_and!; [done|done|]. intros c'. rewrite Ha. destruct (decide (c' = c)) as [->|].
    + rewrite Hc, lookup_insert_eq. simpl. by rewrite Em, take_app_le.
    + by rewrite lookup_insert_ne.
  - intros c' l'. rewrite lookup_insert_Some. intros [[<- <-]|[_ ?]]; [|by apply Hl].
    split; simpl; [done| |]; rewrite Em; [rewrite length_app; lia|by apply Forall_app].
  - intros c'. specialize (Hans c'). destruct (decide (c' = c)) as [->|]; [|by rewrite lookup_insert_ne].
    rewrite lookup_insert_eq. rewrite Hc in Hans. simpl in *. etrans; [|exact Hans].
    by apply submseteq_skips_r.
Qed.

Lemma wire_ok_conn c ev s s' :
  wf_wire (WConn c ev) → wire_ok s → wire_step (WConn c ev) s = Some s' → wire_ok s'.
Proof.
  intros Hwf Hok. simpl. destruct (links s !! c) as [l|] eqn:Hc; simpl; [|done].
  destruct (is_reply ev) eqn:Hr; [done|]. destruct (l_up l); [|done]. simpl.
  destruct (conn_step ev (l_conn l)) as [[[k st]|]|] eqn:Hs; [|done..]. intros Hs'.
  destruct (conn_step_frame ev (l_conn l) k st) as (Hk & Hout & more & Em & Hmore); [done| |done|].
  { apply (wo_links _ Hok _ _ Hc). }
  assert (Hw : ∃ more, to_mux k = to_mux (l_conn l) ++ more ∧ Forall (wf_intercepted c) more).
  { exists more. split; [done|]. apply Forall_forall. intros htlc (req & -> & Hreq)%Hmore. by apply Hwf. }
  destruct st; injection Hs' as <-; by eapply wire_ok_set_link.
Qed.

(** The pipeline works; [f] says which htlc of which connection the mux takes. *)
Lemma wire_ok_work ev s :
  wire_ok s → wf_pipe cfg muxes key_hash inv_amount ev → (∀ c, asked_on c [ev] = []) → wire_ok (work ev s).
Proof.
  intros [(evs & Hevs & Hp & Ha) Hl Hans] Hev Hnone. split; simpl; [|done|].
  - exists (evs ++ [ev]). split_and!; [by apply Forall_app; split; [|constructor]| |].
    + rewrite Hp. unfold pipe_run. by rewrite foldl_app.
    + intros c. by rewrite asked_on_snoc, Hnone, app_nil_r.
  - intros c. by apply (work_answers ev s c).
Qed.

Lemma wire_ok_mux c height env kill s s' :
  wire_ok s → wire_step (WMux c height env kill) s = Some s' → wire_ok s'.
Proof.
  intros [(evs & Hevs & Hp & Ha) Hl Hans]. simpl. destruct (links s !! c) as [l|] eqn:Hc; simpl; [|done].
  destruct (to_mux (l_conn l) !! l_taken l) as [htlc|] eqn:Hh; simpl; [|done]. intros [= <-].
  destruct (Hl _ _ Hc) as [Hk Ht Hwf]. pose proof (lookup_lt_Some _ _ _ Hh) as Hlt. split; simpl.
  - exists (evs ++ [PHtlc c height htlc env kill]). split_and!.
    + apply Forall_app. split; [done|]. constructor; [|constructor].
      exact (proj1 (Forall_forall _ _) Hwf htlc (list_elem_of_lookup_2 _ _ _ Hh) height env kill).
    + rewrite Hp. unfold pipe_run. by rewrite foldl_app.
    + intros c'. rewrite asked_on_snoc, Ha. unfold asked_on, of_conn; simpl. destruct (decide (c' = c)) as [->|].
      * rewrite Hc, lookup_insert_eq, decide_True by done. simpl. symmetry. by apply take_S_r.
      * by rewrite lookup_insert_ne, decide_False, app_nil_r by congruence.
  - intros c' l'. rewrite lookup_insert_Some. intros [[<- <-]|[_ ?]]; [|by apply Hl].
    split; simpl; [done|lia|done].
  - intros c'. specialize (Hans c'). apply (work_answers (PHtlc c height htlc env kill)) in Hans. simpl in Hans.
    destruct (decide (c' = c)) as [->|]; [|by rewrite lookup_insert_ne].
    rewrite lookup_insert_eq. by rewrite Hc in Hans.
Qed.

Lemma wire_ok_reply i s s' : wire_ok s → wire_step (WReply i) s = Some s' → wire_ok s'.
Proof.
  intros [(evs & Hevs & Hp & Ha) Hl Hans]. simpl. destruct (pending s !! i) as [a|] eqn:Hi; simpl; [|done].
  destruct (links s !! a_mux a) as [l|] eqn:Hc; simpl; [|done]. destruct (Hl _ _ Hc) as [Hk Ht Hwf].
  destruct (reply_ok (a_htlc a) (a_resp a) (chan (l_conn l)) Hk) as (x & e & -> & Hx & Hb).
  intros [= <-]. split; simpl.
  - exists evs. split_and!; [done|done|]. intros c. rewrite Ha. destruct (decide (c = a_mux a)) as [->|].
    + by rewrite Hc, lookup_insert_eq.
    + by rewrite lookup_insert_ne.
  - intros c' l'. rewrite lookup_insert_Some. intros [[<- <-]|[_ ?]]; [|by apply Hl]. by split.
  - intros c. specialize (Hans c). rewrite (delete_Permutation _ _ _ Hi) in Hans.
    change (a :: delete i (pending s)) with ([a] ++ delete i (pending s)) in Hans. rewrite on_app in Hans.
    destruct (decide (c = a_mux a)) as [->|Hn].
    + rewrite lookup_insert_eq. rewrite Hc in Hans. etrans; [|exact Hans]. simpl.
      unfold on at 2; simpl. rewrite decide_True by done. unfold out; simpl. rewrite Hb, fmap_app.
      destruct e; simpl; rewrite ?app_nil_r, <- !app_assoc; [|done].
      do 2 apply submseteq_skips_l. by apply submseteq_cons.
    + rewrite lookup_insert_ne by done. etrans; [|exact Hans]. unfold on at 2; simpl.
      by rewrite decide_False.
Qed.

Lemma wire_ok_step ev s s' : wf_wire ev → wire_ok s → wire_step ev s = Some s' → wire_ok s'.
Proof.
  destruct ev as [c height gauge|c ev|c height env kill|sev|i]; intros Hwf Hok Hs.
  - by eapply wire_ok_connect.
  - by eapply wire_ok_conn.
  - by eapply wire_ok_mux.
  - injection Hs as <-. by apply wire_ok_work.
  - by eapply wire_ok_reply.
Qed.

Lemma wire_ok_start : wire_ok start_wire.
Proof.
  split; simpl.
  - exists []. split_and!; [constructor|done|done].
  - intros c l. by rewrite lookup_empty.
  - intros c. by rewrite lookup_empty.
Qed.

Lemma wire_ok_run evs s s' : Forall wf_wire evs → wire_ok s → wire_run evs s = Some s' → wire_ok s'.
Proof.
  revert s. induction evs as [|ev evs IH]; intros s Hevs Hok; simpl; [by intros [= <-]|].
  apply Forall_cons in Hevs as [Hev Hevs]. destruct (wire_step ev s) as [s1|] eqn:Hs; simpl; [|done].
  apply IH; [done|]. by eapply wire_ok_step.
Qed.

(** The answers behind what a connection sends. *)
Lemma sent_answer s c l r :
  wire_ok s → links s !! c = Some l → r ∈ sent (l_conn l) →
  ∃ a, a ∈ answers (pipe s) ∧ a_mux a = c ∧ r = answer_rpc a.
Proof.
  intros [_ _ Hans] Hc Hr. specialize (Hans c). rewrite Hc in Hans. simpl in Hans.
  assert (Hin : r ∈ on c (answers (pipe s))).
  { eapply elem_of_submseteq; [|exact Hans]. unfold out. rewrite !elem_of_app. auto. }
  unfold on in Hin. apply list_elem_of_omap in Hin as (a & Ha & Heq). case_decide; [|done].
  exists a. split_and!; [done|done|congruence].
Qed.

Lemma on_keys c l : rpc_key <$> on c l = i_circuitKey <$> of_conn c (answered_htlc <$> l).
Proof.
  unfold of_conn. induction l as [|a l IH]; [done|]. change (a :: l) with ([a] ++ l).
  rewrite on_app, !fmap_app, omap_app, fmap_app, IH. f_equal. unfold on; simpl.
  case_decide; [|done]. simpl. by destruct (i_circuitKey (a_htlc a)).
Qed.

(** ** Properties *)

(** C1. End to end, lnd settles only for money: over all connections of all
    nodes, in every interleaving of the loops of the interceptors, the muxes and
    the registry, with restarts, faults and kills, each response SETTLE that is
    sent to lnd carries the circuit key of an htlc lnd has forwarded on this
    connection, over the virtual channel of the node, which passed the fee and
    cltv checks, and a preimage of its payment hash; and the database holds, for
    that htlc, the settle request of an invoice with this preimage whose stored
    htlcs add up to the invoiced amount. *)
Theorem settle_responses_are_paid (evs : list wire_event) (Hevs : Forall wf_wire evs) (s : wire)
  (Hs : wire_run evs start_wire = Some s) (c : nat) (l : link) (Hc : links s !! c = Some l)
  (r : InterceptResponse) (Hr : r ∈ sent (l_conn l)) (Hset : rpc_action r = SETTLE) :
  let db := cdb (reg (pipe s)) in
  ∃ p htlc row inv, muxes !! c = Some p ∧ htlc ∈ to_mux (l_conn l) ∧ rpc_key r = i_circuitKey htlc ∧
    outgoingChanID htlc = Mux.virtualChannel p ∧ Mux.checkPolicy (Mux.routingPolicy p) htlc = None ∧
    PreimageHash (rpc_preimage r) = i_hash htlc ∧
    Pg.htlcs db !! key_of p htlc = Some row ∧ Pg.h_Hash row = i_hash htlc ∧
    Pg.invoices db !! i_hash htlc = Some inv ∧ Pg.i_Preimage inv = rpc_preimage r ∧
    Zsum (map_vals (Pg.htlcs_of (i_hash htlc) db)) = Pg.i_AmountMsat inv ∧
    Pg.i_AmountMsat inv = inv_amount (i_hash htlc).
Proof.
  pose proof (wire_ok_run _ _ _ Hevs wire_ok_start Hs) as Hok.
  destruct (sent_answer s c l r Hok Hc Hr) as (a & Ha & Hm & ->).
  destruct (wo_pipe _ Hok) as (pevs & Hp & Epipe & Hasked). rewrite Epipe in *.
  destruct (settle_answers_are_paid cfg muxes key_hash inv_amount pevs Hp a Ha Hset)
    as (p & row & inv & P1 & P2 & P3 & P4 & P5 & P6 & P7 & P8 & P9 & P10).
  exists p, (a_htlc a), row, inv. rewrite Hm in P1. split_and!; try done.
  - assert (Hin : a_htlc a ∈ asked_on c pevs).
    { unfold asked_on, of_conn. apply list_elem_of_omap. exists (answered_htlc a).
      split; [|by simpl; rewrite decide_True].
      eapply elem_of_submseteq; [|exact (answers_match_offers cfg muxes key_hash inv_amount pevs Hp)].
      rewrite elem_of_app. left. apply list_elem_of_fmap. eauto. }
    rewrite Hasked, Hc in Hin. simpl in Hin. by apply elem_of_take in Hin as (i & Hi%list_elem_of_lookup_2 & _).
  - unfold answer_rpc; simpl. by destruct (i_circuitKey (a_htlc a)).
Qed.

(** C2. lnd is never answered more than it asked: on every connection, in every
    interleaving, the circuit keys of the responses sent are, counting
    repetitions, among those of the htlcs that lnd has forwarded on it and the
    mux has taken; so a forwarded htlc gets at most one response, and none
    before it was forwarded. *)
Theorem responses_match_requests (evs : list wire_event) (Hevs : Forall wf_wire evs) (s : wire)
  (Hs : wire_run evs start_wire = Some s) (c : nat) (l : link) (Hc : links s !! c = Some l) :
  rpc_key <$> sent (l_conn l) ⊆+ i_circuitKey <$> take (l_taken l) (to_mux (l_conn l)).
Proof.
  pose proof (wire_ok_run _ _ _ Hevs wire_ok_start Hs) as [(pevs & Hp & Epipe & Hasked) _ Hans].
  specialize (Hans c). specialize (Hasked c). rewrite Hc in Hans, Hasked. simpl in Hans, Hasked.
  rewrite <- Hasked. trans (rpc_key <$> on c (answers (pipe s))).
  - apply fmap_submseteq. etrans; [|exact Hans]. unfold out. rewrite <- app_assoc.
    by apply submseteq_inserts_r.
  - rewrite on_keys, Epipe. apply fmap_submseteq, submseteq_omap.
    etrans; [|exact (answers_match_offers cfg muxes key_hash inv_amount pevs Hp)].
    by apply submseteq_inserts_r.
Qed.

End Wire.

(** ** Two htlcs of one node, over one connection *)

Module Witness.
Import RealLntypes ListQueue RegExample Pipeline.Witness.
#[local] Existing Instance amount_onion.

Definition request (n amt : Z) : InterceptRequest :=
  MkRequest (MkCircuitKey 10 n) hash [amt] amt amt 1040 1000 7.

(** An auto-settling daemon receives the htlcs and answers them. *)
Definition exchange : list wire_event :=
  [WConnect 0 100 1; WConn 0 (CReceive (Good (request 1 60))); WMux 0 100 (at_time 1) None;
   WConn 0 (CReceive (Good (request 2 40))); WMux 0 100 (at_time 2) None;
   WReply 1; WReply 0; WConn 0 (CTake None); WConn 0 (CTake None)].

Definition exchanged : wire (Q := queue) :=
  default (start_wire (deployment true)) (wire_run (deployment true) [the_mux] exchange (start_wire (deployment true))).

Lemma exchange_run :
  wire_run (deployment true) [the_mux] exchange (start_wire (Q := queue) (deployment true)) = Some exchanged.
Proof. apply Some_default. vm_compute. reflexivity. Qed.

Lemma request_wf b muxes c n amt :
  muxes !! c = Some the_mux → is_u64 n → 0 ≤ amt < 2 ^ 63 →
  wf_wire (deployment b) muxes key_hash inv_amount (WConn c (CReceive (Good (request n amt)))).
Proof. intros Hc Hn Ha htlc [= <-] height env kill. by apply (offered_wf b muxes c height env kill n amt). Qed.

Lemma exchange_wf : Forall (wf_wire (deployment true) [the_mux] key_hash inv_amount) exchange.
Proof.
  repeat (apply Forall_cons; split); try exact I; [by apply request_wf..|constructor].
Qed.

Definition the_link : link :=
  MkLink (MkConn new_replyChan None true [offered 1 60; offered 2 40] [100]
    [MkRpcResponse (MkCircuitKey 10 2) SETTLE pre [] 0; MkRpcResponse (MkCircuitKey 10 1) SETTLE pre [] 0] 0) true 2.

Lemma settle_responses_are_paid_witness :
  ∃ p htlc row inv, [the_mux] !! 0%nat = Some p ∧ htlc ∈ to_mux (l_conn the_link) ∧
    MkCircuitKey 10 2 = i_circuitKey htlc ∧ outgoingChanID htlc = Mux.virtualChannel p ∧
    Mux.checkPolicy (Mux.routingPolicy p) htlc = None ∧ PreimageHash pre = i_hash htlc ∧
    Pg.htlcs (cdb (reg (pipe exchanged))) !! key_of p htlc = Some row ∧ Pg.h_Hash row = i_hash htlc ∧
    Pg.invoices (cdb (reg (pipe exchanged))) !! i_hash htlc = Some inv ∧ Pg.i_Preimage inv = pre ∧
    Zsum (map_vals (Pg.htlcs_of (i_hash htlc) (cdb (reg (pipe exchanged))))) = Pg.i_AmountMsat inv ∧
    Pg.i_AmountMsat inv = inv_amount (i_hash htlc).
Proof.
  refine (settle_responses_are_paid (Q := queue) (deployment true) [the_mux] key_hash inv_amount exchange
    exchange_wf exchanged exchange_run 0 the_link _ (MkRpcResponse (MkCircuitKey 10 2) SETTLE pre [] 0) _ eq_refl).
  - vm_compute. reflexivity.
  - left.
Defined.

Lemma responses_match_requests_witness :
  rpc_key <$> sent (l_conn the_link) ⊆+ i_circuitKey <$> take (l_taken the_link) (to_mux (l_conn the_link)).
Proof.
  refine (responses_match_requests (Q := queue) (deployment true) [the_mux] key_hash inv_amount exchange
    exchange_wf exchanged exchange_run 0 the_link _).
  vm_compute. reflexivity.
Defined.

End Witness.
End Wire.
