(* ===== verification/Delivery.v ===== *)
(** Nothing is lost between lnd and the registry: while no process ends and the
    database works, each htlc a mux has taken is, exactly once, answered, about
    to be answered, or held by the registry. This turns the inequalities of
    [PipelineAnswers.v] and [Wire.v] into equations, for the steps of which
    [smooth] holds. *)

From stdpp Require Import numbers strings base fin_maps gmap list.
From stdpp Require Import options.
From S2P Require Import Prelude Sha256 Types SetIds HtlcSets StatelessData Persistence PersistenceFacts Registry RegistryFacts RegistryExample RegistrySafety RegistryTyping RegistryLiveness RegistryResolvers Interceptor InvoiceCreator Mux Pipeline PipelineAnswers Wire.

Set Default Proof Using "Type*".

Module Delivery.
Import Interceptor Subs Registry PgFacts RegFacts RegSafety RegTyping RegResolvers Pipeline PipeAnswers Wire.

Section Delivery.
Context {Q : Type} `{PriorityQueue Q} `{!PriorityQueueLaws Q} `{Lntypes} `{!LntypesLaws}.
Context `{Mux.Onion}.
Context (cfg : RegistryConfig) (muxes : list Mux.MuxConfig).
Context (key_hash : HtlcKey → Hash) (inv_amount : Hash → Z).
Implicit Types (s : wire (Q := Q)).

(** ** Smooth steps *)

(** The mux takes the htlc and either replies or hands it to the registry, which
    processes it without an error. *)
Definition smooth_htlc (c : nat) (height : Z) (htlc : interceptedHtlc) (env : Env)
    (kill : option (bool * nat)) (p : pipeline (Q := Q)) : bool :=
  match muxes !! c with
  | None => false
  | Some m =>
      if decide (outgoingChanID htlc ≠ Mux.virtualChannel m) then true
      else
        match Mux.ProcessHtlc m htlc height (next_rid p), kill with
        | Mux.MuxReply _, _ => true
        | Mux.MuxNotify h _, None =>
            match process cfg env h (reg p) with Ok (_, None) => true | _ => false end
        | _, _ => false
        end
  end.

Definition smooth_pipe (ev : pipe_event) (p : pipeline (Q := Q)) : bool :=
  match ev with
  | PHtlc c height htlc env kill => smooth_htlc c height htlc env kill p
  | PRegistry (SysEvent ev) =>
      match iteration cfg ev (reg p) with Ok (_, Continue _) => true | _ => false end
  | PRegistry (SysKill _ _ _) => false
  end.

Definition smooth (ev : wire_event) s : bool :=
  match ev with
  | WMux c height env kill =>
      match l ← links s !! c; to_mux (l_conn l) !! l_taken l with
      | Some htlc => smooth_pipe (PHtlc c height htlc env kill) (pipe s)
      | None => true
      end
  | WRegistry sev => smooth_pipe (PRegistry sev) (pipe s)
  | _ => true
  end.

Fixpoint smooth_run (evs : list wire_event) s : bool :=
  match evs with
  | [] => true
  | ev :: evs' =>
      smooth ev s &&
      match wire_step cfg muxes ev s with Some s' => smooth_run evs' s' | None => true end
  end.

(** ** The connections *)

(** While [start] runs, a turn of its loops moves responses from the queue to the
    stream. *)
Lemma conn_step_running ev k k' acc :
  is_reply ev = false → conn_step ev k = Ok (Some (k', Running acc)) →
  out k' = out k ∧ replyChanClosed (chan k') = replyChanClosed (chan k).
Proof.
  intros Hev. destruct ev as [r|htlc r| |h|send|err|]; simpl; try done.
  - destruct (receiving k); [|done]. destruct r as [req|err]; [|by intros [= <- _]].
    destruct (receive req); by intros [= <- _].
  - by destruct (errChan k).
  - by intros [= <- _].
  - unfold take_reply. destruct (buf (chan k)) as [|item q] eqn:Hb; [by destruct (chan_closed _)|].
    destruct send; [done|]. intros [= <- _]. unfold out; simpl. by rewrite Hb, fmap_cons, <- app_assoc.
Qed.

(** Every answer of a mux is on its way or has been sent, as long as the
    connection is up and its queue has not overflowed. *)
Definition delivering s : Prop :=
  ∀ c l, links s !! c = Some l → l_up l = true → replyChanClosed (chan (l_conn l)) = false →
    out (l_conn l) ++ on c (pending s) ≡ₚ on c (answers (pipe s)).

(** A change of one connection. *)
Lemma delivering_insert c l s :
  delivering s →
  (l_up l = true → replyChanClosed (chan (l_conn l)) = false →
   out (l_conn l) ++ on c (pending s) ≡ₚ on c (answers (pipe s))) →
  delivering (set_link c l s).
Proof. intros Hd Hl c' l'. simpl. rewrite lookup_insert_Some. intros [[<- <-]|[_ ?]]; [done|by apply Hd]. Qed.

(** The pipeline works: its answers are pending. *)
Lemma delivering_work ev s : delivering s → delivering (work cfg muxes ev s).
Proof.
  intros Hd c l Hc Hup Hopen. specialize (Hd c l Hc Hup Hopen). unfold work; simpl.
  destruct (pipe_step_answers cfg muxes ev (pipe s)) as [new ->].
  by rewrite drop_app_length, !on_app, app_assoc, Hd.
Qed.

Lemma wire_pipe_ok s : wire_ok cfg muxes key_hash inv_amount s → pipe_ok cfg muxes key_hash inv_amount (pipe s).
Proof. intros [(evs & Hevs & -> & _) _ _]. by apply pipe_ok_run. Qed.

(** No connection, no answers. *)
Lemma unconnected_silent c s : wire_ok cfg muxes key_hash inv_amount s → links s !! c = None → on c (answers (pipe s)) = [].
Proof.
  intros [(evs & Hevs & Hp & Ha) _ _] Hc. specialize (Ha c). rewrite Hc in Ha. simpl in Ha.
  apply (fmap_nil_inv rpc_key). rewrite on_keys.
  cut (of_conn c (answered_htlc <$> answers (pipe s)) = []); [by intros ->|].
  apply submseteq_nil_r. rewrite <- Ha. apply submseteq_omap. rewrite Hp.
  etrans; [|exact (answers_match_offers cfg muxes key_hash inv_amount evs Hevs)].
  by apply submseteq_inserts_r.
Qed.

Lemma unconnected_pending c s : wire_ok cfg muxes key_hash inv_amount s → links s !! c = None → on c (pending s) = [].
Proof.
  intros Hok Hc. apply submseteq_nil_r. rewrite <- (unconnected_silent c s Hok Hc).
  pose proof (wo_answers _ _ _ _ _ Hok c) as Ha. by rewrite Hc in Ha.
Qed.

(** A reply that leaves the queue open is in it. *)
Lemma reply_queued htlc r x x' e :
  Interceptor.reply htlc r x = Ok (x', e) → replyChanClosed x' = false →
  replyChanClosed x = false ∧ buf x' = buf x ++ [MkQueuedReply (i_circuitKey htlc) (i_hash htlc) r].
Proof.
  unfold Interceptor.reply. destruct (replyChanClosed x) eqn:Hx; [intros [= <- _]; by rewrite Hx|].
  destruct (chan_closed x); [done|]. case_decide; by intros [= <- _].
Qed.

Lemma delivering_reply i s s' :
  delivering s → wire_step cfg muxes (WReply i) s = Some s' → delivering s'.
Proof.
  intros Hd. simpl. destruct (pending s !! i) as [a|] eqn:Hi; simpl; [|done].
  destruct (links s !! a_mux a) as [l|] eqn:Hc; simpl; [|done].
  destruct (Interceptor.reply _ _ _) as [[x e]|] eqn:Hrep; [|done]. intros [= <-].
  intros c l'. simpl. rewrite lookup_insert_Some.
  assert (Hp : on c (pending s) ≡ₚ on c [a] ++ on c (delete i (pending s)))
    by (rewrite <- on_app; by apply on_proper, delete_Permutation).
  unfold on at 2 in Hp; simpl in Hp. intros [[<- <-]|[Hn Hl]]; simpl; intros Hup Hopen.
  - rewrite decide_True in Hp by done. destruct (reply_queued _ _ _ _ _ Hrep Hopen) as [Hop Hbuf].
    rewrite <- (Hd _ _ Hc Hup Hop), Hp. unfold out; simpl. by rewrite Hbuf, fmap_app, <- !app_assoc.
  - rewrite decide_False in Hp by done. simpl in Hp. rewrite <- Hp. by apply Hd.
Qed.

Lemma delivering_step ev s s' :
  wire_ok cfg muxes key_hash inv_amount s → delivering s →
  wire_step cfg muxes ev s = Some s' → delivering s'.
Proof.
  intros Hok Hd. destruct ev as [c height gauge|c ev|c height env kill|sev|i].
  - simpl. destruct (links s !! c) eqn:Hc; [done|]. intros [= <-]. apply delivering_insert; [done|]. intros _ _.
    by rewrite (unconnected_silent c s Hok Hc), (unconnected_pending c s Hok Hc).
  - simpl. destruct (links s !! c) as [l|] eqn:Hc; simpl; [|done].
    destruct (is_reply ev) eqn:Hr; [done|]. destruct (l_up l) eqn:Hup; [|done]. simpl.
    destruct (conn_step ev (l_conn l)) as [[[k [acc|err]]|]|] eqn:Hs; [| |done..]; intros [= <-];
      apply delivering_insert; try done.
    destruct (conn_step_running ev _ _ _ Hr Hs) as [Ho Ecl]. simpl. rewrite Ho, Ecl. intros _. by apply Hd.
  - simpl. destruct (links s !! c) as [l|] eqn:Hc; simpl; [|done].
    destruct (to_mux (l_conn l) !! l_taken l) as [htlc|]; simpl; [|done]. intros [= <-].
    apply delivering_insert; [by apply delivering_work|].
    exact (delivering_work (PHtlc c height htlc env kill) s Hd c l Hc).
  - intros [= <-]. by apply delivering_work.
  - apply (delivering_reply i s s' Hd).
Qed.

Lemma delivering_run evs s s' :
  Forall (wf_wire cfg muxes key_hash inv_amount) evs → wire_ok cfg muxes key_hash inv_amount s →
  delivering s → wire_run cfg muxes evs s = Some s' → delivering s'.
Proof.
  revert s. induction evs as [|ev evs IH]; intros s Hevs Hok; simpl; [by intros ? [= <-]|].
  apply Forall_cons in Hevs as [Hev Hevs]. intros Hd.
  destruct (wire_step cfg muxes ev s) as [s1|] eqn:Hs; simpl; [|done].
  apply IH; [done|by eapply wire_ok_step|by eapply delivering_step].
Qed.

Lemma delivering_start : delivering (start_wire cfg).
Proof. intros c l. simpl. by rewrite lookup_empty. Qed.

(** ** The registry and the muxes *)

Section Pipe.
Context (Hencrypt : ∀ ob m, ∃ reason, Mux.EncryptFirstHop ob m = Good reason).
Implicit Types (p : pipeline (Q := Q)).

Lemma resolve_answers htlc ob res : ∃ resp, Mux.resolve htlc ob res = Good resp.
Proof.
  destruct res as [f|pre x]; [|by eexists]. unfold Mux.resolve, Mux.failLocal, mbind, result_bind.
  edestruct Hencrypt as [reason ->]. by eexists.
Qed.

(** The callbacks are closures of [ProcessHtlc]. *)
Definition answering (cbs : gmap nat callback) : Prop :=
  map_Forall (λ _ cb, ∃ ob, cb_resolve cb = Mux.resolve (cb_htlc cb) ob) cbs.

Lemma answers_of_calls_eq cbs es :
  answering cbs → answered_htlc <$> (es ≫= answer_of cbs) = omap (htlc_of cbs) (called es).
Proof.
  intros Hok. induction es as [|e es IH]; [done|]. rewrite bind_cons, fmap_app, IH.
  destruct e as [k r res|]; [|done]. simpl. unfold htlc_of at 2; simpl.
  destruct (cbs !! r) as [cb|] eqn:Hcb; simpl; [|done]. apply Hok in Hcb as [ob ->].
  by destruct (resolve_answers (cb_htlc cb) ob res) as [resp ->].
Qed.

(** What has been answered and what is held. *)
Definition balance p : list (nat * interceptedHtlc) := (answered_htlc <$> answers p) ++ outstanding p.

Lemma turn_balance sev p :
  answering (callbacks p) → accounts (sys_handed sev) (reg p) (sys_step cfg (reg p) sev) →
  balance (turn cfg sev p) ≡ₚ omap (htlc_of (callbacks p)) (sys_handed sev) ++ balance p.
Proof.
  intros Hok (new & Ee & Hp). unfold balance, turn, outstanding; simpl.
  rewrite Ee, drop_app_length, fmap_app, <- app_assoc, (Permutation_app_swap_app (omap _ _)).
  f_equiv. rewrite answers_of_calls_eq, <- !omap_app by done.
  by rewrite <- Hp, (Permutation_app_comm (called new)).
Qed.

Lemma say_balance c htlc r p : balance (say c htlc r p) ≡ₚ (c, htlc) :: balance p.
Proof.
  unfold balance; simpl. rewrite fmap_app; simpl. rewrite <- app_assoc. symmetry. apply Permutation_middle.
Qed.

(** A registry that goes on loses no resolver. *)
Lemma accounts_smooth ev w w' r :
  iteration (Q := Q) cfg ev w = Ok (w', Continue r) → handed ev = [] → accounts [] w w'.
Proof.
  intros Hit Hh. apply accounts_iteration in Hit as [Ha| -> ]; [by rewrite Hh in Ha|apply accounts_refl].
Qed.

Lemma step_balance ev p :
  wf_pipe cfg muxes key_hash inv_amount ev → pipe_ok cfg muxes key_hash inv_amount p →
  smooth_pipe ev p = true →
  balance (pipe_step cfg muxes ev p) ≡ₚ asked [ev] ++ balance p.
Proof.
  intros Hwf Hok. assert (Hcbs : answering (callbacks p)).
  { intros r cb (m & ob & _ & _ & _ & Hr & _)%(po_callbacks _ _ _ _ _ Hok). eauto. }
  destruct ev as [c height htlc env kill|[ev|]]; simpl; [| |done].
  - unfold smooth_htlc. destruct (muxes !! c) as [m|] eqn:Hc; [|done].
    case_decide; [intros _; apply say_balance|].
    destruct (Mux.ProcessHtlc _ _ _ _) as [r|h f|] eqn:Hp; [intros _; apply say_balance| |done].
    destruct kill; [done|]. destruct (process _ _ _ _) as [[w' [|]]|] eqn:Hpr; [done| |done]. intros _.
    apply Mux.ProcessHtlc_Notify in Hp as (_ & it & pl & ob & _ & _ & _ & _ & _ & -> & ->).
    rewrite turn_balance; simpl.
    + unfold htlc_of at 1; simpl. rewrite lookup_insert_eq; simpl. f_equiv.
      unfold balance, outstanding; simpl. rewrite (outstanding_insert muxes); [done|apply Hok|].
      apply eq_None_not_Some. intros [cb Hcb]. apply (po_fresh _ _ _ _ _ Hok) in Hcb. simpl in Hcb. lia.
    + apply map_Forall_insert_2; [by eexists|done].
    + rewrite Hpr; simpl. by apply accounts_process in Hpr as [|[_ []]].
  - destruct (iteration _ _ _) as [[w' []]|] eqn:Hit; [|done..]. intros _.
    assert (Hh : handed ev = []) by (destruct ev, Hwf as [[] _]; done).
    rewrite turn_balance; simpl; rewrite ?Hh; [done|done|]. rewrite Hit. by eapply accounts_smooth.
Qed.

(** ** Every htlc *)

(** Every htlc a mux has taken is answered or held. *)
Definition balanced s : Prop := ∀ c, of_conn c (balance (pipe s)) ≡ₚ taken (links s !! c).

Lemma balanced_insert c l s :
  balanced s → taken (Some l) = taken (links s !! c) → balanced (set_link c l s).
Proof.
  intros Hb Hl c'. etrans; [exact (Hb c')|]. simpl. destruct (decide (c' = c)) as [->|]; [|by rewrite lookup_insert_ne].
  by rewrite lookup_insert_eq, Hl.
Qed.

Lemma of_conn_app c l l' : of_conn c (l ++ l') = of_conn c l ++ of_conn c l'.
Proof. apply omap_app. Qed.

#[local] Instance of_conn_proper c : Proper ((≡ₚ) ==> (≡ₚ)) (of_conn c).
Proof. intros l l' Hl. unfold of_conn. by rewrite Hl. Qed.

Lemma balanced_conn c ev s s' :
  wire_ok cfg muxes key_hash inv_amount s → balanced s →
  wire_step cfg muxes (WConn c ev) s = Some s' → balanced s'.
Proof.
  intros Hok Hb. simpl. destruct (links s !! c) as [l|] eqn:Hc; simpl; [|done].
  destruct (is_reply ev) eqn:Hr; [done|]. destruct (l_up l); [|done]. simpl.
  destruct (conn_step ev (l_conn l)) as [[[k st]|]|] eqn:Hs; [|done..]. intros Hs'.
  destruct (wo_links _ _ _ _ _ Hok _ _ Hc) as [Hk Ht _].
  destruct (conn_step_frame ev (l_conn l) k st Hr Hk Hs) as (_ & _ & more & Em & _).
  destruct st; injection Hs' as <-; (apply balanced_insert; [done|]); rewrite Hc; simpl; by rewrite Em, take_app_le.
Qed.

Lemma balanced_reply i s s' : balanced s → wire_step cfg muxes (WReply i) s = Some s' → balanced s'.
Proof.
  intros Hb. simpl. destruct (pending s !! i) as [a|]; simpl; [|done].
  destruct (links s !! a_mux a) as [l|] eqn:Hc; simpl; [|done].
  destruct (Interceptor.reply _ _ _) as [[x e]|]; [|done]. intros [= <-].
  assert (Hset : balanced (set_link (a_mux a) (MkLink (set_chan x (l_conn l)) (l_up l) (l_taken l)) s)).
  { apply balanced_insert; [done|]. by rewrite Hc. }
  exact Hset.
Qed.

Lemma balanced_mux c height env kill s s' :
  wire_ok cfg muxes key_hash inv_amount s → balanced s →
  smooth (WMux c height env kill) s = true →
  wire_step cfg muxes (WMux c height env kill) s = Some s' → balanced s'.
Proof.
  intros Hok Hb. simpl. destruct (links s !! c) as [l|] eqn:Hc; simpl; [|done].
  destruct (to_mux (l_conn l) !! l_taken l) as [htlc|] eqn:Hh; simpl; [|done]. intros Hsm [= <-].
  destruct (wo_links _ _ _ _ _ Hok _ _ Hc) as [_ _ Hwf].
  pose proof (proj1 (Forall_forall _ _) Hwf htlc (list_elem_of_lookup_2 _ _ _ Hh) height env kill) as Hev.
  pose proof (step_balance _ _ Hev (wire_pipe_ok _ Hok) Hsm) as Hbal.
  intros c'. simpl in *. rewrite Hbal. specialize (Hb c').
  change (of_conn c' ([(c, htlc)] ++ balance (pipe s)) ≡ₚ
    taken (<[c:=MkLink (l_conn l) (l_up l) (S (l_taken l))]> (links s) !! c')).
  rewrite of_conn_app, Hb. unfold of_conn; simpl. destruct (decide (c' = c)) as [->|Hn].
  - rewrite decide_True, Hc, lookup_insert_eq by done. simpl.
    rewrite (take_S_r _ _ _ Hh). apply Permutation_cons_append.
  - by rewrite decide_False, lookup_insert_ne.
Qed.

Lemma balanced_step ev s s' :
  wf_wire cfg muxes key_hash inv_amount ev → wire_ok cfg muxes key_hash inv_amount s →
  smooth ev s = true → balanced s → wire_step cfg muxes ev s = Some s' → balanced s'.
Proof.
  intros Hwf Hok Hsm Hb. destruct ev as [c height gauge|c ev|c height env kill|sev|i].
  - simpl. destruct (links s !! c) eqn:Hc; [done|]. intros [= <-]. apply balanced_insert; [done|]. by rewrite Hc.
  - by apply (balanced_conn c ev).
  - by apply (balanced_mux c height env kill).
  - intros [= <-]. intros c.
    pose proof (step_balance (PRegistry sev) (pipe s) Hwf (wire_pipe_ok _ Hok) Hsm) as Hbal.
    etrans; [exact (of_conn_proper c _ _ Hbal)|]. apply Hb.
  - by apply (balanced_reply i).
Qed.

Lemma balanced_run evs s s' :
  Forall (wf_wire cfg muxes key_hash inv_amount) evs → wire_ok cfg muxes key_hash inv_amount s →
  smooth_run evs s = true → balanced s → wire_run cfg muxes evs s = Some s' → balanced s'.
Proof.
  revert s. induction evs as [|ev evs IH]; intros s Hevs Hok; simpl; [by intros _ ? [= <-]|].
  apply Forall_cons in Hevs as [Hev Hevs]. intros [Hsm Hrest]%andb_prop Hinv.
  destruct (wire_step cfg muxes ev s) as [s1|] eqn:Hs; simpl; [|done].
  apply IH; [done|by eapply wire_ok_step|done|by eapply balanced_step].
Qed.

(** ** Property *)

(** The circuit keys of what has been sent or queued on a connection, of the
    answers a goroutine is about to queue, and of the htlcs that are held. *)
Definition accounted (c : nat) (k : conn) s : list CircuitKey :=
  (rpc_key <$> sent k) ++ (rpc_key ∘ rpcResp <$> buf (chan k)) ++ (rpc_key <$> on c (pending s)) ++
  (i_circuitKey <$> of_conn c (outstanding (pipe s))).

(** C3. No htlc is lost: in every interleaving of the loops of the interceptors,
    the muxes and the registry in which no process ends, the registry processes
    each htlc without an error and failure messages can be encrypted
    ([Hencrypt]), on a connection that is up and whose
    queue has not overflowed, the htlcs that lnd has forwarded and the mux has
    taken are, each exactly once, answered on the stream, in the queue of the
    connection, in a call of the reply callback that is under way, or held by
    the registry, which cannot forget them. *)
Theorem no_htlc_is_lost (evs : list wire_event)
  (Hevs : Forall (wf_wire cfg muxes key_hash inv_amount) evs) (s : wire)
  (Hs : wire_run cfg muxes evs (start_wire cfg) = Some s) (Hsmooth : smooth_run evs (start_wire cfg) = true)
  (c : nat) (l : link) (Hc : links s !! c = Some l) (Hup : l_up l = true)
  (Hopen : replyChanClosed (chan (l_conn l)) = false) :
  accounted c (l_conn l) s ≡ₚ i_circuitKey <$> take (l_taken l) (to_mux (l_conn l)).
Proof.
  pose proof (delivering_run evs (start_wire cfg) s Hevs (wire_ok_start cfg muxes key_hash inv_amount)
    delivering_start Hs) as Hd.
  assert (Hb : balanced s).
  { apply (balanced_run evs (start_wire cfg)); try done; [apply wire_ok_start|].
    intros c'. simpl. by rewrite lookup_empty. }
  specialize (Hd c l Hc Hup Hopen). specialize (Hb c). rewrite Hc in Hb. simpl in Hb.
  rewrite <- Hb. unfold balance. rewrite of_conn_app, fmap_app, <- on_keys, <- Hd. unfold accounted, out.
  by rewrite list_fmap_compose, !fmap_app, <- !app_assoc.
Qed.
End Pipe.

(** The error that [smooth] excludes: when the database cannot be read, an htlc
    that a mux hands over is forgotten. The registry and the answers are as
    before, no resolver waits, and so no later event answers the htlc. *)
Theorem database_error_strands_htlc c height htlc env m h f e (p : pipeline (Q := Q)) :
  muxes !! c = Some m → outgoingChanID htlc = Mux.virtualChannel m →
  Mux.ProcessHtlc m htlc height (next_rid p) = Mux.MuxNotify h f → db_Get env = Some e →
  let p' := pipe_step cfg muxes (PHtlc c height htlc env None) p in
  reg p' = reg p ∧ answers p' = answers p.
Proof.
  intros Hm Hch Hp Hdb p'.
  assert (Hw : sys_step cfg (reg p) (SysEvent (EvHtlc env h)) = reg p).
  { simpl. unfold process, resolveViaDb, Pg.Get. by rewrite Hdb. }
  unfold p'; simpl. rewrite Hm, decide_False, Hp by congruence. unfold turn. simpl in Hw |- *.
  rewrite Hw, drop_all. simpl. by rewrite app_nil_r.
Qed.
End Delivery.

(** ** An htlc that is held and two that are failed *)

Module Witness.
Import RealLntypes ListQueue RegExample Pipeline.Witness Wire.Witness.
#[local] Existing Instance amount_onion.

(** An htlc whose onion cannot be read. *)
Definition unreadable (n : Z) : InterceptRequest := MkRequest (MkCircuitKey 10 n) hash [] 40 40 1040 1000 7.

(** A part of a payment is held; lnd gets the failure of the second htlc, and that
    of the third one is queued. *)
Definition traffic : list wire_event :=
  [WRegistry (SysEvent (EvSubscribe 1 7)); WConnect 0 100 1;
   WConn 0 (CReceive (Good (request 1 60))); WMux 0 100 (at_time 1) None;
   WConn 0 (CReceive (Good (unreadable 2))); WConn 0 (CReceive (Good (unreadable 3)));
   WMux 0 100 (at_time 2) None; WMux 0 100 (at_time 3) None; WReply 1; WReply 0; WConn 0 (CTake None)].

Definition reached : wire (Q := queue) :=
  default (start_wire (deployment false)) (wire_run (deployment false) [the_mux] traffic (start_wire (deployment false))).

Lemma traffic_run :
  wire_run (deployment false) [the_mux] traffic (start_wire (Q := queue) (deployment false)) = Some reached.
Proof. apply Some_default. vm_compute. reflexivity. Qed.

Lemma unreadable_wf n :
  wf_wire (deployment false) [the_mux] key_hash inv_amount (WConn 0 (CReceive (Good (unreadable n)))).
Proof. by intros htlc [= <-] height env kill p rid h f [= <-]. Qed.

Lemma traffic_wf : Forall (wf_wire (deployment false) [the_mux] key_hash inv_amount) traffic.
Proof.
  repeat (apply Forall_cons; split); try exact I; [|by apply request_wf|apply unreadable_wf..|constructor].
  split; [|exact I]. simpl. unfold is_i64. lia.
Qed.

Lemma encryption_works ob m : ∃ reason, Mux.EncryptFirstHop (Onion := amount_onion) ob m = Good reason.
Proof. by exists [15]. Qed.

Definition node_link : link := default (MkLink (MkConn new_replyChan None true [] [] [] 0) false 0) (links reached !! 0%nat).

Lemma no_htlc_is_lost_witness :
  rpc_key <$> sent (l_conn node_link) = [MkCircuitKey 10 3] ∧
  rpc_key ∘ rpcResp <$> buf (chan (l_conn node_link)) = [MkCircuitKey 10 2] ∧
  i_circuitKey <$> of_conn 0 (outstanding (pipe reached)) = [MkCircuitKey 10 1] ∧
  accounted 0 (l_conn node_link) reached ≡ₚ
    i_circuitKey <$> take (l_taken node_link) (to_mux (l_conn node_link)).
Proof.
  split; [vm_compute; reflexivity|]. split; [vm_compute; reflexivity|]. split; [vm_compute; reflexivity|].
  apply (no_htlc_is_lost (Q := queue) (deployment false) [the_mux] key_hash inv_amount encryption_works traffic
    traffic_wf reached traffic_run); vm_compute; reflexivity.
Defined.

End Witness.
End Delivery.
