(* ===== verification/Recovery.v ===== *)
(** What lnd gets in the end: answers that are under way can be sent in a bounded
    number of steps whatever happened before, so that settling and releasing
    reach lnd, and a settlement that was stored but not answered when the process
    ended is answered when lnd offers the htlc again. *)

From stdpp Require Import numbers strings base fin_maps gmap list.
From stdpp Require Import options.
From S2P Require Import Prelude Sha256 Types SetIds HtlcSets StatelessData Persistence PersistenceFacts Registry RegistryFacts RegistryExample RegistrySafety RegistryTyping RegistryLiveness RegistryResolvers Interceptor InvoiceCreator Mux Pipeline PipelineAnswers Wire Delivery.

Set Default Proof Using "Type*".

Module Recovery.
Import Interceptor Subs Registry PgFacts RegFacts RegSafety RegTyping RegResolvers Pipeline PipeAnswers Wire Delivery.

Section Recovery.
Context {Q : Type} `{PriorityQueue Q} `{!PriorityQueueLaws Q} `{Lntypes} `{!LntypesLaws}.
Context `{Mux.Onion}.
Context (cfg : RegistryConfig) (muxes : list Mux.MuxConfig).
Context (key_hash : HtlcKey → Hash) (inv_amount : Hash → Z).
Implicit Types (s : wire (Q := Q)).

(** ** Delivery

    The steps that only move answers of connection [c]: a pending call of a reply
    callback, and a turn of the loop of [start] that sends a queued response. *)
Definition delivers (c : nat) (ev : wire_event) : Prop :=
  match ev with WReply _ => True | WConn c' (CTake None) => c' = c | _ => False end.

Lemma wire_run_app evs evs' s :
  wire_run cfg muxes (evs ++ evs') s = (s' ← wire_run cfg muxes evs s; wire_run cfg muxes evs' s').
Proof.
  revert s. induction evs as [|ev evs IH]; intros s; [done|]. simpl.
  destruct (wire_step cfg muxes ev s); simpl; [apply IH|done].
Qed.

(** The connection is up and its queue open. *)
Definition live (l : link) : Prop := l_up l = true ∧ replyChanClosed (chan (l_conn l)) = false.

(** One queued response is sent. *)
Lemma take_one c l item q s :
  links s !! c = Some l → live l → buf (chan (l_conn l)) = item :: q →
  ∃ s' l', wire_step cfg muxes (WConn c (CTake None)) s = Some s' ∧ links s' !! c = Some l' ∧ live l' ∧
    buf (chan (l_conn l')) = q ∧ chan_closed (chan (l_conn l')) = chan_closed (chan (l_conn l)) ∧
    sent (l_conn l') = sent (l_conn l) ++ [rpcResp item] ∧
    pending s' = pending s ∧ pipe s' = pipe s.
Proof.
  intros Hc [Hup Hopen] Hb. simpl. rewrite Hc; simpl. rewrite Hup; simpl. unfold take_reply. rewrite Hb.
  eexists _, _. split; [done|]. simpl. rewrite lookup_insert_eq. split; [done|]. by split_and!.
Qed.

(** The queue is emptied. *)
Lemma flush_queue c l s :
  links s !! c = Some l → live l →
  ∃ s' l', wire_run cfg muxes (replicate (length (buf (chan (l_conn l)))) (WConn c (CTake None))) s = Some s' ∧
    links s' !! c = Some l' ∧ live l' ∧ buf (chan (l_conn l')) = [] ∧
    chan_closed (chan (l_conn l')) = chan_closed (chan (l_conn l)) ∧
    sent (l_conn l') = out (l_conn l) ∧ pending s' = pending s ∧ pipe s' = pipe s.
Proof.
  unfold out. remember (buf (chan (l_conn l))) as q eqn:Hq. symmetry in Hq.
  revert l s Hq. induction q as [|item q IH]; intros l s Hq Hc Hl.
  - exists s, l. by rewrite app_nil_r.
  - destruct (take_one c l item q s Hc Hl Hq) as (s1 & l1 & Hs1 & Hc1 & Hl1 & Hq1 & Hcl1 & Hse1 & Hp1 & Hpi1).
    destruct (IH l1 s1 Hq1 Hc1 Hl1) as (s2 & l2 & Hs2 & Hc2 & Hl2 & Hq2 & Hcl2 & Hse2 & Hp2 & Hpi2).
    exists s2, l2. cbn [replicate length wire_run]. rewrite Hs1. cbn [mbind option_bind].
    split_and!; [done|done|done|done|congruence| |congruence|congruence].
    by rewrite Hse2, Hse1, fmap_cons, <- app_assoc.
Qed.

(** A pending call is made and its response sent. *)
Lemma reply_one c l a i s :
  links s !! c = Some l → live l → chan_closed (chan (l_conn l)) = false →
  buf (chan (l_conn l)) = [] → pending s !! i = Some a → a_mux a = c →
  ∃ s' l', wire_run cfg muxes [WReply i; WConn c (CTake None)] s = Some s' ∧ links s' !! c = Some l' ∧ live l' ∧
    chan_closed (chan (l_conn l')) = false ∧ buf (chan (l_conn l')) = [] ∧
    sent (l_conn l') = sent (l_conn l) ++ [answer_rpc a] ∧
    pending s' = delete i (pending s) ∧ pipe s' = pipe s.
Proof.
  intros Hc [Hup Hopen] Hcl Hb Hi Ha. cbn [wire_run wire_step]. rewrite Hi. cbn [mbind option_bind].
  rewrite Ha, Hc. cbn [mbind option_bind]. unfold Interceptor.reply. rewrite Hopen, Hcl, Hb.
  rewrite decide_True by (unfold resolutionQueueSize; simpl; lia). cbn [mbind option_bind links].
  rewrite lookup_insert_eq. cbn [mbind option_bind l_up l_conn]. rewrite Hup. simpl.
  eexists _, _. split; [done|]. simpl. rewrite lookup_insert_eq. split; [done|]. split_and!; try done.
Qed.

Lemma on_pick c (l : list answer) n :
  length (on c l) = S n → ∃ i a, l !! i = Some a ∧ a_mux a = c ∧ on c l ≡ₚ answer_rpc a :: on c (delete i l).
Proof.
  intros Hn. assert (Hin : ∃ r, r ∈ on c l).
  { destruct (on c l) as [|r l']; [done|]. exists r. by left. }
  destruct Hin as [r (a & Ha & Hr)%list_elem_of_omap]. case_decide as Hm; [|done].
  apply list_elem_of_lookup in Ha as [i Hi]. exists i, a. split_and!; [done|done|].
  rewrite (on_proper c _ _ (delete_Permutation _ _ _ Hi)). unfold on at 1; simpl. by rewrite decide_True.
Qed.

(** All calls for the connection are made and their responses sent. *)
Lemma flush_pending n c l s :
  length (on c (pending s)) = n → links s !! c = Some l → live l →
  chan_closed (chan (l_conn l)) = false → buf (chan (l_conn l)) = [] →
  ∃ evs s' l', Forall (delivers c) evs ∧ length evs = (2 * n)%nat ∧ wire_run cfg muxes evs s = Some s' ∧
    links s' !! c = Some l' ∧ sent (l_conn l') ≡ₚ sent (l_conn l) ++ on c (pending s) ∧ pipe s' = pipe s.
Proof.
  revert l s. induction n as [|n IH]; intros l s Hn Hc Hl Hcl Hb.
  - apply nil_length_inv in Hn. exists [], s, l. rewrite Hn, app_nil_r. split_and!; try done.
  - destruct (on_pick c _ _ Hn) as (i & a & Hi & Ha & Hp).
    destruct (reply_one c l a i s Hc Hl Hcl Hb Hi Ha) as (s1 & l1 & Hs1 & Hc1 & Hl1 & Hcl1 & Hb1 & Hse1 & Hp1 & Hpi1).
    destruct (IH l1 s1) as (evs & s2 & l2 & Hd & Hlen & Hs2 & Hc2 & Hse2 & Hpi2); try done.
    { rewrite Hp in Hn. rewrite Hp1. by injection Hn. }
    exists ([WReply i; WConn c (CTake None)] ++ evs), s2, l2. rewrite wire_run_app, Hs1. simpl. split_and!.
    + by repeat (constructor; [done|]).
    + lia.
    + done.
    + done.
    + by rewrite Hse2, Hse1, Hp1, Hp, <- app_assoc.
    + congruence.
Qed.

(** The response is sent on [c] after a bounded number of delivery steps, if the
    connection is live. *)
Definition deliverable (c : nat) (r : InterceptResponse) s : Prop :=
  ∀ l, links s !! c = Some l → live l →
  ∃ evs s' l', Forall (delivers c) evs ∧
    length evs = (length (buf (chan (l_conn l))) + 2 * length (on c (pending s)))%nat ∧
    wire_run cfg muxes evs s = Some s' ∧ links s' !! c = Some l' ∧ r ∈ sent (l_conn l').

(** Everything that was answered is or can be delivered. *)
Lemma answers_deliverable evs s c a :
  Forall (wf_wire cfg muxes key_hash inv_amount) evs →
  wire_run cfg muxes evs (start_wire cfg) = Some s →
  a ∈ answers (pipe s) → a_mux a = c → deliverable c (answer_rpc a) s.
Proof.
  intros Hevs Hs Ha Hm l Hc Hl.
  pose proof (wire_ok_run _ _ _ _ _ _ _ Hevs (wire_ok_start cfg muxes key_hash inv_amount) Hs) as Hok.
  pose proof (delivering_run cfg muxes key_hash inv_amount evs (start_wire cfg) s Hevs
    (wire_ok_start cfg muxes key_hash inv_amount) (delivering_start cfg) Hs c l Hc (proj1 Hl) (proj2 Hl)) as Hd.
  destruct (wo_links _ _ _ _ _ Hok _ _ Hc) as [Hk _ _].
  assert (Hcl : chan_closed (chan (l_conn l)) = false) by (destruct Hl as [_ <-]; apply Hk).
  destruct (flush_queue c l s Hc Hl) as (s1 & l1 & Hs1 & Hc1 & Hl1 & Hb1 & Hcl1 & Hse1 & Hp1 & Hpi1).
  destruct (flush_pending (length (on c (pending s))) c l1 s1) as (evs2 & s2 & l2 & Hd2 & Hlen & Hs2 & Hc2 & Hse2 & _);
    try done; [by rewrite Hp1|by rewrite Hcl1|].
  exists (replicate (length (buf (chan (l_conn l)))) (WConn c (CTake None)) ++ evs2), s2, l2. split_and!.
  - apply Forall_app. split; [|done]. by apply Forall_replicate.
  - by rewrite length_app, length_replicate, Hlen.
  - by rewrite wire_run_app, Hs1.
  - done.
  - rewrite Hse2, Hse1, Hp1, Hd. unfold on. apply list_elem_of_omap. exists a. by rewrite decide_True.
Qed.

(** A step leaves the muxes and the registry alone or makes them work. *)
Lemma wire_step_pipe ev s s' :
  wire_step cfg muxes ev s = Some s' →
  pipe s' = pipe s ∨
  ∃ pev, pipe s' = pipe_step cfg muxes pev (pipe s) ∧
    (wf_wire cfg muxes key_hash inv_amount ev → wire_ok cfg muxes key_hash inv_amount s →
     wf_pipe cfg muxes key_hash inv_amount pev).
Proof.
  destruct ev as [c height gauge|c ev|c height env kill|sev|i]; simpl.
  - destruct (links s !! c); [done|]. intros [= <-]. by left.
  - destruct (links s !! c) as [l|]; simpl; [|done]. destruct (_ || _); [done|].
    destruct (conn_step _ _) as [[[k []]|]|]; [| |done..]; intros [= <-]; by left.
  - destruct (links s !! c) as [l|] eqn:Hc; simpl; [|done].
    destruct (to_mux _ !! _) as [htlc|] eqn:Hh; simpl; [|done]. intros [= <-].
    right. exists (PHtlc c height htlc env kill). split; [done|]. intros _ Hok.
    destruct (wo_links _ _ _ _ _ Hok _ _ Hc) as [_ _ Hin].
    exact (proj1 (Forall_forall _ _) Hin htlc (list_elem_of_lookup_2 _ _ _ Hh) height env kill).
  - intros [= <-]. right. by exists (PRegistry sev).
  - destruct (pending s !! i) as [a|]; simpl; [|done]. destruct (links s !! _) as [l|]; simpl; [|done].
    destruct (Interceptor.reply _ _ _) as [[x e]|]; [|done]. intros [= <-]. by left.
Qed.

(** Answers are never taken back. *)
Lemma wire_step_answers ev s s' a :
  wire_step cfg muxes ev s = Some s' → a ∈ answers (pipe s) → a ∈ answers (pipe s').
Proof using Type* key_hash inv_amount.
  intros [-> |(pev & -> & _)]%wire_step_pipe; [done|].
  destruct (pipe_step_answers cfg muxes pev (pipe s)) as [new ->]. rewrite elem_of_app. by left.
Qed.

Lemma wire_run_answers evs s s' :
  wire_run cfg muxes evs s = Some s' → ∀ a, a ∈ answers (pipe s) → a ∈ answers (pipe s').
Proof using Type* key_hash inv_amount.
  revert s. induction evs as [|ev evs IH]; intros s; simpl; [by intros [= <-]|].
  destruct (wire_step cfg muxes ev s) as [s1|] eqn:Hs; simpl; [|done]. intros Hr a Ha.
  apply (IH s1 Hr). by eapply wire_step_answers.
Qed.

(** An htlc the registry holds, with its callback. *)
Lemma outstanding_callback (p : pipeline (Q := Q)) c htlc :
  pipe_ok cfg muxes key_hash inv_amount p → (c, htlc) ∈ outstanding p →
  ∃ m l r cb, muxes !! c = Some m ∧ hodlSubscriptions (reg p) !! key_of m htlc = Some l ∧ r ∈ l ∧
    callbacks p !! r = Some cb ∧ cb_mux cb = c ∧ cb_htlc cb = htlc.
Proof.
  intros Hok ([k r] & Hw & Hcb)%list_elem_of_omap. apply elem_of_held_in in Hw as (l & Hl & Hr).
  destruct (waiting_callback cfg muxes key_hash inv_amount p k l r Hok Hl Hr) as (cb & m & ob & Hc & Hm & <- & _).
  unfold htlc_of in Hcb; simpl in Hcb. rewrite Hc in Hcb. injection Hcb as <- <-. by exists m, l, r, cb.
Qed.

Lemma callback_outstanding (p : pipeline (Q := Q)) k l r cb :
  hodlSubscriptions (reg p) !! k = Some l → r ∈ l → callbacks p !! r = Some cb →
  (cb_mux cb, cb_htlc cb) ∈ outstanding p.
Proof.
  intros Hl Hr Hcb. apply list_elem_of_omap. exists (k, r). split; [apply elem_of_held_in; eauto|].
  unfold htlc_of; simpl. by rewrite Hcb.
Qed.

Lemma answer_rpc_key c htlc action p reason code :
  answer_rpc (MkAnswer c htlc (MkResponse action p reason code)) =
  MkRpcResponse (i_circuitKey htlc) action p reason code.
Proof. unfold answer_rpc, rpcResp; simpl. by destruct (i_circuitKey htlc). Qed.

(** ** Properties *)

(** C5. A settle request of the application reaches lnd: when it names a complete
    set of positive amounts and the database works, then, whatever happens
    afterwards, for every htlc of the set, and over every connection on which it
    is held, the response SETTLE with the preimage of the invoice is sent to lnd
    within a bounded number of steps of the reply callbacks and the loop of the
    connection, as long as the connection is up and its queue has not
    overflowed. Every htlc of the set is held over some connection. *)
Theorem settle_is_delivered (evs evs2 : list wire_event) (s s2 : wire) (env : Env) (h : Hash)
  (x : Sets.htlcSetImpl) (id : SetID)
  (Hevs : Forall (wf_wire cfg muxes key_hash inv_amount)
            (evs ++ WRegistry (SysEvent (EvSettle env h id)) :: evs2))
  (Hs : wire_run cfg muxes evs (start_wire cfg) = Some s)
  (Hs2 : wire_run cfg muxes (WRegistry (SysEvent (EvSettle env h id)) :: evs2) s = Some s2)
  (Ha : AutoSettle cfg = false) (Henv : db_RequestSettle env = None)
  (Hx : sets (reg (pipe s)) !! h = Some x) (Hid : Sets.isComplete x = Some id) (Hpos : 0 < inv_amount h)
  (Hamts : map_Forall (λ _ a, 0 < a) (Sets.htlcs x)) :
  let p := Sets.preimage (Sets.params x) in
  (∀ k, is_Some (Sets.htlcs x !! k) →
    ∃ c m htlc, muxes !! c = Some m ∧ key_of m htlc = k ∧ (c, htlc) ∈ outstanding (pipe s)) ∧
  (∀ c m htlc, (c, htlc) ∈ outstanding (pipe s) → muxes !! c = Some m →
    is_Some (Sets.htlcs x !! key_of m htlc) →
    deliverable c (MkRpcResponse (i_circuitKey htlc) SETTLE p [] 0) s2).
Proof.
  apply Forall_app in Hevs as Hparts. destruct Hparts as [Hevs1 _].
  pose proof (wire_ok_run _ _ _ _ _ _ _ Hevs1 (wire_ok_start cfg muxes key_hash inv_amount) Hs) as Hok.
  destruct (wo_pipe _ _ _ _ _ Hok) as (pevs & Hp & Epipe & _).
  destruct (settle_reaches_lnd cfg muxes key_hash inv_amount pevs Hp (pipe s) Epipe Ha env Henv h x id
    Hx Hid Hpos Hamts) as (_ & _ & Hall).
  intros p. split.
  - intros k (_ & l & Hl & Hne & Hcbs)%Hall. destruct l as [|r l]; [done|].
    destruct (Hcbs r) as (cb & m & Hcb & Hm & Hk & _); [by left|]. exists (cb_mux cb), m, (cb_htlc cb).
    split_and!; [done|done|]. eapply callback_outstanding; [exact Hl|by left|done].
  - intros c m htlc Hout Hm (_ & l & Hl & _ & Hcbs)%Hall.
    destruct (outstanding_callback _ c htlc (wire_pipe_ok cfg muxes key_hash inv_amount _ Hok) Hout)
      as (m' & l' & r & cb & Hm' & Hl' & Hr & Hcb & <- & <-). simplify_eq.
    destruct (Hcbs r Hr) as (cb' & _ & Hcb' & _ & _ & Hans). simplify_eq.
    rewrite <- (answer_rpc_key (cb_mux cb)). eapply answers_deliverable; [exact Hevs| | |done].
    + by rewrite wire_run_app, Hs.
    + exact (wire_run_answers evs2 _ _ Hs2 _ Hans).
Qed.

(** ** Release *)

Lemma wire_ticks env n s s' :
  wire_run cfg muxes (replicate n (WRegistry (SysEvent (EvTick env)))) s = Some s' →
  pipe s' = pipe_ticks cfg muxes env n (pipe s).
Proof.
  revert s. induction n as [|n IH]; intros s; [by intros [= <-]|].
  cbn [replicate wire_run wire_step mbind option_bind]. intros ->%IH. done.
Qed.

(** C6. Nothing is held forever: when the clock has passed the queued release
    times, then after as many release ticks as the heap has events the registry
    holds nothing, and, whatever happens afterwards, for each htlc it held a
    response FAIL is sent to lnd within a bounded number of delivery steps, as
    long as the connection is live and failure messages can be encrypted; or
    one of the ticks ends the process with the panic of a stale release event. *)
Theorem releases_are_delivered
  (Hencrypt : ∀ ob m, ∃ reason, Mux.EncryptFirstHop ob m = Good reason)
  (evs evs2 : list wire_event) (s s1 s2 : wire) (env : Env)
  (Hdue : Forall (λ e, getReleaseTime e ≤ t_tick env) (pq_items (autoReleaseHeap (reg (pipe s)))))
  (Hevs : Forall (wf_wire cfg muxes key_hash inv_amount) evs)
  (Hevs2 : Forall (wf_wire cfg muxes key_hash inv_amount) evs2)
  (Hs : wire_run cfg muxes evs (start_wire cfg) = Some s)
  (Hs1 : wire_run cfg muxes (replicate (pq_Len (autoReleaseHeap (reg (pipe s))))
           (WRegistry (SysEvent (EvTick env)))) s = Some s1)
  (Hs2 : wire_run cfg muxes evs2 s1 = Some s2) :
  match RegLive.ticks cfg env (pq_Len (autoReleaseHeap (reg (pipe s)))) (reg (pipe s)) with
  | Ok _ => outstanding (pipe s1) = [] ∧ sets (reg (pipe s1)) = ∅ ∧
      ∀ c htlc, (c, htlc) ∈ outstanding (pipe s) →
        ∃ r, rpc_key r = i_circuitKey htlc ∧ rpc_action r = FAIL ∧ deliverable c r s2
  | Panic _ => ∃ n w1, (n < pq_Len (autoReleaseHeap (reg (pipe s))))%nat ∧
      RegLive.ticks cfg env n (reg (pipe s)) = Ok w1 ∧ stale_release (EvTick env) w1
  end.
Proof.
  pose proof (wire_ok_run _ _ _ _ _ _ _ Hevs (wire_ok_start cfg muxes key_hash inv_amount) Hs) as Hok.
  destruct (wo_pipe _ _ _ _ _ Hok) as (pevs & Hp & Epipe & _).
  pose proof (timers_reach_lnd cfg muxes key_hash inv_amount pevs Hp (pipe s) Epipe env Hdue) as Hall.
  cbv zeta in Hall. rewrite <- (wire_ticks _ _ _ _ Hs1) in Hall.
  destruct (RegLive.ticks _ _ _ _) as [w'|msg]; [|done].
  destruct Hall as (Hout & Hsets & Hall). split_and!; [done|done|]. intros c htlc Hin.
  destruct (outstanding_callback _ c htlc (wire_pipe_ok cfg muxes key_hash inv_amount _ Hok) Hin)
    as (m & l & r & cb & Hm & Hl & Hr & Hcb & <- & <-).
  destruct (Hall _ l r Hl Hr) as (cb' & m' & ob & f & Hcb' & _ & _ & Hans). simplify_eq.
  destruct (resolve_answers Hencrypt (cb_htlc cb) ob (HtlcFailResolution f)) as [resp Hresp].
  rewrite Hresp in Hans. destruct Hans as [Hact Hans].
  exists (answer_rpc (MkAnswer (cb_mux cb) (cb_htlc cb) resp)). split_and!.
  - destruct resp. by rewrite answer_rpc_key.
  - done.
  - eapply answers_deliverable; [| |exact (wire_run_answers evs2 _ _ Hs2 _ Hans)|done].
    2:{ rewrite wire_run_app, Hs. cbn [mbind option_bind]. rewrite wire_run_app, Hs1. exact Hs2. }
    apply Forall_app. split; [done|]. apply Forall_app. split; [|done]. by apply Forall_replicate.
Qed.

(** ** Replay *)

(** What is stored stays stored. *)
Lemma pipe_step_le ev (p : pipeline (Q := Q)) :
  wf_pipe cfg muxes key_hash inv_amount ev → pipe_ok cfg muxes key_hash inv_amount p →
  db_le (cdb (reg p)) (cdb (reg (pipe_step cfg muxes ev p))).
Proof.
  intros Hwf Hok. assert (Hi : Inv key_hash inv_amount (reg p)).
  { apply (reachable_inv cfg). apply Hok. }
  destruct ev as [c height htlc env kill|sev]; simpl.
  - destruct (muxes !! c) as [m|] eqn:Hc; [|done]. case_decide; [done|].
    destruct (Mux.ProcessHtlc _ _ _ _) as [r|h f|] eqn:Hp; [done| |done].
    destruct (Hwf m _ h f Hc Hp) as [Hwh _].
    apply (st_le _ _ _ _ (sys_step_ok cfg key_hash inv_amount (sys_of kill (EvHtlc env h)) (reg p) Hi
      ltac:(by destruct kill as [[]|]))).
  - apply (st_le _ _ _ _ (sys_step_ok cfg key_hash inv_amount sev (reg p) Hi
      ltac:(by destruct sev; destruct Hwf))).
Qed.

Lemma wire_step_le ev s s' :
  wf_wire cfg muxes key_hash inv_amount ev → wire_ok cfg muxes key_hash inv_amount s →
  wire_step cfg muxes ev s = Some s' → db_le (cdb (reg (pipe s))) (cdb (reg (pipe s'))).
Proof.
  intros Hwf Hok [-> |(pev & -> & Hpev)]%wire_step_pipe; [done|].
  apply pipe_step_le; [by apply Hpev|by apply wire_pipe_ok].
Qed.

Lemma wire_run_le evs s s' :
  Forall (wf_wire cfg muxes key_hash inv_amount) evs → wire_ok cfg muxes key_hash inv_amount s →
  wire_run cfg muxes evs s = Some s' → db_le (cdb (reg (pipe s))) (cdb (reg (pipe s'))).
Proof.
  revert s. induction evs as [|ev evs IH]; intros s Hevs Hok; simpl; [by intros [= <-]|].
  apply Forall_cons in Hevs as [Hev Hevs]. destruct (wire_step cfg muxes ev s) as [s1|] eqn:Hs; simpl; [|done].
  intros Hr. etrans; [by eapply wire_step_le|]. apply IH; [done|by eapply wire_ok_step|done].
Qed.

(** A mux takes an htlc that is stored: the registry settles it at once. *)
Lemma pipe_replay c m height htlc env (p : pipeline (Q := Q)) row inv h f :
  pipe_ok cfg muxes key_hash inv_amount p → muxes !! c = Some m →
  outgoingChanID htlc = Mux.virtualChannel m →
  Mux.ProcessHtlc m htlc height (next_rid p) = Mux.MuxNotify h f → db_Get env = None →
  Pg.htlcs (cdb (reg p)) !! key_of m htlc = Some row → Pg.h_Hash row = i_hash htlc →
  Pg.invoices (cdb (reg p)) !! i_hash htlc = Some inv →
  let p' := pipe_step cfg muxes (PHtlc c height htlc env None) p in
  answers p' = answers p ++ [MkAnswer c htlc (MkResponse SETTLE (Pg.i_Preimage inv) [] 0)] ∧
  cdb (reg p') = cdb (reg p).
Proof.
  intros Hok Hm Hch Hp Hdb Hrow Hhash Hinv p'.
  apply Mux.ProcessHtlc_Notify in Hp as Hn.
  destruct Hn as (_ & it & pl & ob & _ & _ & _ & _ & _ & Eh & Ef).
  assert (Hof : Pg.htlcs_of (i_hash htlc) (cdb (reg p)) !! key_of m htlc = Some (Pg.h_AmountMsat row))
    by (apply htlcs_of_Some; by exists row).
  assert (Hproc : process cfg env h (reg p) =
    Ok (resolveHtlc h (NewSettleResolution (Pg.i_Preimage inv) ResultReplayToSettled) (reg p), None)).
  { unfold process, resolveViaDb, Pg.Get. rewrite Hdb, Eh; simpl. rewrite Hinv.
    rewrite bool_decide_false.
    - fold (key_of m htlc). by rewrite Hof.
    - intros Hz%map_size_empty_inv. by rewrite Hz, lookup_empty in Hof. }
  unfold p'; simpl. rewrite Hm, decide_False, Hp by congruence. unfold turn; simpl. rewrite Hproc; simpl.
  rewrite drop_app_length, Eh, Ef; simpl. by rewrite lookup_insert_eq.
Qed.

(** A new connection on which lnd offers an htlc again: it connects, receives the
    htlc, the mux takes it, the call of the callback, which is the last one that
    is pending, is made, and the response is sent. *)
Definition reconnect (c : nat) (height gauge : Z) (req : InterceptRequest) (env : Env) s : list wire_event :=
  [WConnect c height gauge; WConn c (CReceive (Good req)); WMux c height env None;
   WReply (length (pending s)); WConn c (CTake None)].

Lemma reconnect_run c height gauge req env htlc resp s :
  links s !! c = None → receive req = Good htlc →
  answers (pipe_step cfg muxes (PHtlc c height htlc env None) (pipe s)) = answers (pipe s) ++ [MkAnswer c htlc resp] →
  ∃ s' l, wire_run cfg muxes (reconnect c height gauge req env s) s = Some s' ∧ links s' !! c = Some l ∧
    sent (l_conn l) = [answer_rpc (MkAnswer c htlc resp)] ∧
    pipe s' = pipe_step cfg muxes (PHtlc c height htlc env None) (pipe s).
Proof.
  intros Hnew Hreq Hans.
  set (p := pipe_step cfg muxes (PHtlc c height htlc env None) (pipe s)) in *.
  set (k := MkConn new_replyChan None true [htlc] [height] [] (gauge - 1)).
  assert (Hrun : wire_run cfg muxes (take 3 (reconnect c height gauge req env s)) s =
    Some (MkWire p (<[c := MkLink k true 1]> (links s)) (pending s ++ [MkAnswer c htlc resp]))).
  { unfold reconnect. cbn [take wire_run wire_step]. rewrite Hnew.
    cbn [mbind option_bind links set_link]. rewrite lookup_insert_eq.
    cbn [mbind option_bind is_reply l_up l_conn orb negb conn_step receiving]. rewrite Hreq.
    cbn -[pipe_step work]. rewrite !insert_insert_eq, lookup_insert_eq. cbn -[pipe_step work]. unfold work; cbn -[pipe_step].
    fold p. rewrite Hans, drop_app_length. unfold set_link; simpl. by rewrite !insert_insert_eq. }
  destruct (reply_one c (MkLink k true 1) (MkAnswer c htlc resp) (length (pending s))
    (MkWire p (<[c := MkLink k true 1]> (links s)) (pending s ++ [MkAnswer c htlc resp])))
    as (s' & l & Hs' & Hc' & _ & _ & _ & Hsent & _ & Hpipe); try done.
  { apply lookup_insert_eq. }
  { simpl. by rewrite lookup_app_r, Nat.sub_diag by lia. }
  exists s', l. split_and!; [|done|done|done].
  change (reconnect c height gauge req env s) with
    (take 3 (reconnect c height gauge req env s) ++ [WReply (length (pending s)); WConn c (CTake None)]).
  by rewrite wire_run_app, Hrun.
Qed.

(** C4. Settling survives every crash: once the settle request of an htlc is
    stored, then after any history, with restarts and with kills at any point,
    in particular between the write to the database and the answers, lnd gets
    SETTLE with the stored preimage when it offers the htlc again over a new
    connection, as long as the database can be read and the mux still accepts
    the htlc; and offering it again stores nothing new. *)
Theorem settled_htlc_is_settled_again (evs evs2 : list wire_event) (s s2 : wire)
  (Hevs : Forall (wf_wire cfg muxes key_hash inv_amount) (evs ++ evs2))
  (Hs : wire_run cfg muxes evs (start_wire cfg) = Some s) (Hs2 : wire_run cfg muxes evs2 s = Some s2)
  (c : nat) (m : Mux.MuxConfig) (Hnew : links s2 !! c = None) (Hm : muxes !! c = Some m)
  (req : InterceptRequest) (htlc : interceptedHtlc) (Hreq : receive req = Good htlc)
  (row : Pg.dbHtlc) (Hrow : Pg.htlcs (cdb (reg (pipe s))) !! key_of m htlc = Some row)
  (height gauge : Z) (env : Env) (Henv : db_Get env = None)
  (Hch : outgoingChanID htlc = Mux.virtualChannel m)
  (Haccept : ∀ rid, ∃ h f, Mux.ProcessHtlc m htlc height rid = Mux.MuxNotify h f)
  (Hkey : key_hash (key_of m htlc) = i_hash htlc) :
  ∃ inv s3 l, Pg.invoices (cdb (reg (pipe s))) !! i_hash htlc = Some inv ∧
    wire_run cfg muxes (reconnect c height gauge req env s2) s2 = Some s3 ∧ links s3 !! c = Some l ∧
    sent (l_conn l) = [MkRpcResponse (i_circuitKey htlc) SETTLE (Pg.i_Preimage inv) [] 0] ∧
    cdb (reg (pipe s3)) = cdb (reg (pipe s2)).
Proof.
  apply Forall_app in Hevs as [Hevs Hevs2].
  pose proof (wire_ok_run _ _ _ _ _ _ _ Hevs (wire_ok_start cfg muxes key_hash inv_amount) Hs) as Hok.
  pose proof (wire_ok_run _ _ _ _ _ _ _ Hevs2 Hok Hs2) as Hok2.
  pose proof (wire_run_le _ _ _ Hevs2 Hok Hs2) as Hle.
  pose proof (wire_pipe_ok cfg muxes key_hash inv_amount _ Hok) as Hpok.
  assert (Hi : Inv key_hash inv_amount (reg (pipe s))) by (apply (reachable_inv cfg); apply Hpok).
  pose proof (do_key _ _ _ (proj1 (proj2 Hi)) _ _ Hrow) as Hrh. rewrite Hkey in Hrh.
  destruct (c_fk _ (do_cons _ _ _ (proj1 (proj2 Hi))) _ _ Hrow) as [inv Hinv]. rewrite <- Hrh in Hinv.
  destruct (le_htlcs _ _ Hle _ _ Hrow) as (row2 & Hrow2 & Hh2 & _). rewrite <- Hrh in Hh2.
  destruct (le_invoices _ _ Hle _ _ Hinv) as (inv2 & Hinv2 & Hpre & _).
  destruct (Haccept (next_rid (pipe s2))) as (h & f & Hp).
  destruct (pipe_replay c m height htlc env (pipe s2) row2 inv2 h f) as [Hans Hcdb];
    [by apply wire_pipe_ok|done..|].
  destruct (reconnect_run c height gauge req env htlc _ s2 Hnew Hreq Hans) as (s3 & l & Hs3 & Hc3 & Hsent & Hpipe).
  exists inv, s3, l. rewrite answer_rpc_key, Hpre in Hsent. split_and!; try done. by rewrite Hpipe.
Qed.
End Recovery.

(** ** An invoice that is settled, released, or settled by a process that dies *)

Module Witness.
Import RealLntypes ListQueue RegExample Pipeline.Witness Wire.Witness Delivery.Witness.
#[local] Existing Instance amount_onion.

(** The node is connected a second time later on. *)
Definition nodes : list Mux.MuxConfig := [the_mux; the_mux].

Abbreviation run_wire := (wire_run (Q := queue) (deployment false) nodes).
Abbreviation initial := (start_wire (Q := queue) (deployment false)).
Abbreviation wf_here := (wf_wire (deployment false) nodes key_hash inv_amount).

(** Two htlcs complete the invoice and are held for the application. *)
Definition accepting : list wire_event :=
  [WRegistry (SysEvent (EvSubscribe 1 7)); WConnect 0 100 1;
   WConn 0 (CReceive (Good (request 1 60))); WMux 0 100 (at_time 1) None;
   WConn 0 (CReceive (Good (request 2 40))); WMux 0 100 (at_time 2) None].

Definition holding : wire := default initial (run_wire accepting initial).

Lemma accepting_run : run_wire accepting initial = Some holding.
Proof. apply Some_default. vm_compute. reflexivity. Qed.

Lemma accepting_wf : Forall wf_here accepting.
Proof.
  repeat (apply Forall_cons; split); try exact I; [|by apply request_wf..|constructor].
  split; [|exact I]. simpl. unfold is_i64. lia.
Qed.

Lemma outstanding_holding : outstanding (pipe holding) = [(0%nat, offered 1 60); (0%nat, offered 2 40)].
Proof. vm_compute. reflexivity. Qed.

Definition settle : event := EvSettle (at_time 3) hash (setID [1; 2]).

Lemma settle_wf : typed_event (λ _ _, False) settle ∧ wf_event (deployment false) key_hash inv_amount settle.
Proof.
  split; [|done]. split; (split; [vm_compute; reflexivity|]); apply (bool_decide_unpack _); vm_compute; exact I.
Qed.

(** Meanwhile there is a new block. *)
Definition settling : list wire_event := [WRegistry (SysEvent settle); WConn 0 (CBlock 101)].
Definition settled : wire := default initial (run_wire settling holding).

Lemma settling_run : run_wire settling holding = Some settled.
Proof. apply Some_default. vm_compute. reflexivity. Qed.

Definition link0 (s : wire (Q := queue)) : link :=
  default (MkLink (MkConn new_replyChan None true [] [] [] 0) false 0) (links s !! 0%nat).

Lemma settle_is_delivered_witness :
  deliverable (deployment false) nodes 0 (MkRpcResponse (MkCircuitKey 10 2) SETTLE pre [] 0) settled ∧
  links settled !! 0%nat = Some (link0 settled) ∧ live (link0 settled).
Proof.
  split; [|split; [apply Some_default|split]; vm_compute; reflexivity].
  destruct (settle_is_delivered (Q := queue) (deployment false) nodes key_hash inv_amount accepting
    [WConn 0 (CBlock 101)] holding settled (at_time 3) hash the_set (setID [1; 2])) as [_ Hall].
  - apply Forall_app. split; [apply accepting_wf|]. repeat (apply Forall_cons; split); [exact settle_wf|exact I|constructor].
  - exact accepting_run.
  - exact settling_run.
  - reflexivity.
  - reflexivity.
  - vm_compute. reflexivity.
  - vm_compute. reflexivity.
  - reflexivity.
  - apply map_Forall_insert_2; [lia|]. apply map_Forall_insert_2; [lia|]. apply map_Forall_empty.
  - apply (Hall 0%nat the_mux (offered 2 40)).
    + rewrite outstanding_holding. right. left.
    + reflexivity.
    + exists 40. vm_compute. reflexivity.
Defined.

(** The application does not settle: everything is released. *)
Definition ticking : list wire_event :=
  replicate (pq_Len (autoReleaseHeap (reg (pipe holding)))) (WRegistry (SysEvent (EvTick (at_time 70)))).
Definition released : wire := default initial (run_wire ticking holding).

Lemma ticking_run : run_wire ticking holding = Some released.
Proof. apply Some_default. vm_compute. reflexivity. Qed.

Lemma releases_are_delivered_witness :
  (∃ r, rpc_key r = MkCircuitKey 10 2 ∧ rpc_action r = FAIL ∧ deliverable (deployment false) nodes 0 r released) ∧
  links released !! 0%nat = Some (link0 released) ∧ live (link0 released).
Proof.
  split; [|split; [apply Some_default|split]; vm_compute; reflexivity].
  assert (Hitems : pq_items (autoReleaseHeap (reg (pipe holding))) =
    [htlcReleaseEvent hash (T0 + 31 * sec) (key 1); acceptTimeoutEvent hash (T0 + 62 * sec)])
    by (vm_compute; reflexivity).
  assert (Hdue : Forall (λ e, getReleaseTime e ≤ t_tick (at_time 70)) (pq_items (autoReleaseHeap (reg (pipe holding))))).
  { rewrite Hitems. repeat constructor; vm_compute; discriminate. }
  pose proof (releases_are_delivered (Q := queue) (deployment false) nodes key_hash inv_amount encryption_works
    accepting [] holding released released (at_time 70) Hdue accepting_wf (List.Forall_nil _) accepting_run ticking_run
    eq_refl) as Hall.
  destruct (RegLive.ticks _ _ _ _) as [w'|msg] eqn:E; [|vm_compute in E; discriminate E].
  destruct Hall as (_ & _ & Hall). apply (Hall 0%nat (offered 2 40)).
  rewrite outstanding_holding. right. left.
Defined.

(** The process is killed after the write of the settle request and before any
    answer; lnd connects again. *)
Definition dying : list wire_event := accepting ++ [WRegistry (SysKill true 0 settle)].
Definition died : wire := default initial (run_wire dying initial).

Lemma dying_run : run_wire dying initial = Some died.
Proof. apply Some_default. vm_compute. reflexivity. Qed.

Lemma dying_wf : Forall wf_here (dying ++ []).
Proof.
  rewrite app_nil_r. apply Forall_app. split; [exact accepting_wf|].
  apply Forall_cons. split; [exact settle_wf|constructor].
Qed.

Definition again : list wire_event := reconnect 1 100 1 (request 2 40) (at_time 9) died.

Lemma settled_htlc_is_settled_again_witness :
  answers (pipe died) = [] ∧
  ∃ inv s3 l, Pg.invoices (cdb (reg (pipe died))) !! hash = Some inv ∧
    run_wire again died = Some s3 ∧ links s3 !! 1%nat = Some l ∧
    sent (l_conn l) = [MkRpcResponse (MkCircuitKey 10 2) SETTLE (Pg.i_Preimage inv) [] 0] ∧
    cdb (reg (pipe s3)) = cdb (reg (pipe died)).
Proof.
  split; [vm_compute; reflexivity|].
  refine (settled_htlc_is_settled_again (Q := queue) (deployment false) nodes key_hash inv_amount dying []
    died died dying_wf dying_run eq_refl 1 the_mux _ eq_refl (request 2 40) (offered 2 40) eq_refl
    (Pg.MkDbHtlc hash 40 (t_db (at_time 3)) None HtlcStatusSettleRequested) _ 100 1 (at_time 9) eq_refl eq_refl _ eq_refl).
  - vm_compute. reflexivity.
  - vm_compute. reflexivity.
  - intros rid. eexists _, _. reflexivity.
Defined.

End Witness.
End Recovery.
